(* ===== verification/_CoqProject ===== *)
-Q . S2P
Prelude.v
Text.v
Float.v
Json.v
Core.v
Backend.v
Storage.v
Embedded.v
Lease.v
WorkItem.v
Events.v
Ledger.v
Completions.v
Steal.v
Replay.v
LocalQueue.v
ObjectStore.v
Batch.v
Pool.v
Snapshots.v
Http.v
Workers.v
MockRun.v
Drain.v
Sandbox.v
Tools.v
TextEnv.v
EvalSuites.v
EvalJob.v
EvalRun.v
Cloud.v
S3.v
Gcs.v
CloudQueues.v
Secrets.v
Jsonl.v
Training.v
Vllm.v
Civil.v
Infer.v
Commands.v
Postgres.v
Backends.v
Plugins.v
Doctor.v
Transport.v
Wiring.v
CoordRun.v
Processes.v
Joining.v
Mains.v
