(* ===== verification/Prelude.v ===== *)
(** * Verification of the rollout workspace

    rollout runs distributed inference, training and evaluation of language models:
    a coordinator that holds a lease, workers that claim work items through
    compare-and-swap on a shared key-value store, local and cloud backends behind
    traits, snapshots of training state, plugins, and harnesses that give a model an
    environment and tools.  This library models the Rust crates under src/crates/
    and proves what makes them correct.

    ** The program's parts and how they interact

    Everything durable goes through one trait, [Storage] (transactions with put,
    delete and compare-and-swap over keys of a namespace, a run and a path).  The
    coordinator's lease and epochs, the work items, the dispatch queue, worker
    registration, batch samples, snapshots' metadata, plugin state, finished reports
    and the local queue are rows in it.  The clients are proved against the
    interface, with any store that keeps its laws; the embedded backend is proved to
    keep them, and Postgres to be indistinguishable from such a store while one
    transaction runs at a time.  Blobs go through [ObjectStore], whose laws the
    file-system, S3 and GCS stores are proved to keep; the batch runtime pulls from
    the [Queue] interface.  The command line and the two binaries put the parts
    together: the commands of rollout, the worker process and the coordinator
    process, which speak over mutual TLS.

    ** Files

    Foundations:
    - Prelude.v: results, outcomes of calls that may panic, the state monad (the
      state is kept when an error is returned, as [&self] methods that fail half way
      keep what they did), its weakest preconditions and their tactics, [zoom] for a
      computation on a part of the state, machine integers, stable sorting.
    - Text.v, Float.v, Json.v: strings as UTF-8, binary64 and binary32 arithmetic on
      the standard library's [spec_float], JSON values.
    - Core.v (rollout-core/src/errors.rs, ids.rs, traits/storage.rs): the error
      taxonomy, content ids and their text, storage keys and their Postgres check.
    - Storage.v (rollout-core/src/traits/storage.rs): the storage interface as a
      class with laws, [Mem] (a reference store with a schedule of faults, the
      instance the examples run on), single-row transactions, codecs (serde and
      postcard are parameters with their round trip).
    - Backend.v, Events.v: the model backends' traits and the event emitters.

    Storage, queues, blobs:
    - Embedded.v (rollout-storage/src/embedded/, encoding.rs): the redb backend: key
      encoding, tables, transactions, scans, batched reads, watches.  redb is a
      parameter with its table laws; every call to it may fail.
    - Postgres.v (rollout-storage/src/postgres/): the statements over a server that is
      a class with the laws of READ COMMITTED; the notification and its reader.
      Backends.v: any serial history on it against any store with the laws.
    - LocalQueue.v, ObjectStore.v (rollout-cloud-local/src/): the queue over its rows
      with restarts; the content-addressed store over a file system whose calls may
      fail and leave partial files.
    - Cloud.v, S3.v, Gcs.v, CloudQueues.v (rollout-cloud-aws/src/, rollout-cloud-gcp/
      src/, rollout-core/src/config/cloud.rs): provider configuration, classification
      of SDK errors, streaming uploads with their abort guards, queues over a broker.
      Secrets.v: secret stores and compute hints of the three providers.
    - Snapshots.v (rollout-snapshots/src/): the deterministic archive, save, restore,
      list and retention.

    The coordinator and its workers:
    - Lease.v (rollout-coordinator/src/lease.rs, epoch.rs): [try_acquire], [renew],
      [current], the epoch row and the worker's [EpochGuard]; a step relation in
      which any number of coordinators read, claim, renew and crash in any order.
    - WorkItem.v (work_item.rs): the transitions [try_claim], [try_complete],
      [try_repending], their interleavings by callers with stale records, and the
      abstract machine they refine.
    - Ledger.v (ledger.rs), Steal.v (steal.rs), Replay.v (run.rs, fence.rs): the
      dispatch queue and backlogs, work stealing, the state a new leader rebuilds and
      the renew loop's tick.  Completions.v: every writer of the ledger together, the
      enqueues, dispatches and seeding puts included.  MockRun.v (mock_run.rs): the
      whole run of the mock driver.
    - Workers.v (registry.rs, heartbeat.rs, failure_scan.rs; rollout-transport/src/
      health.rs and config.rs): registration, heartbeats, the failure scan and its
      loop, the timing configuration.  Drain.v (drain.rs): the spot-preemption drain.
    - Transport.v (rollout-transport/src/channels/, tls.rs): the heartbeat handler on
      the wire's messages, the control router over tokio's bounded channels (a
      parameter), the work stub, the development certificates over a disk with faults.  Wiring.v
      (server.rs, client.rs): what the server and the channel are configured with.
    - CoordRun.v (rollout-coordinator/src/run.rs), Processes.v (rollout-cli/src/
      worker.rs): boot and life of the two processes; Joining.v: their handshake.
      Mains.v: the exit codes of the two binaries.

    Batch inference, training, evaluation:
    - Batch.v, Jsonl.v (rollout-runtime-batch/src/): sample identity, resumable
      planning, the worker's round and loop, collection; JSON lines.
    - Pool.v (worker.rs, rollout-cli/src/infer.rs): the same round as a machine with
      one step per awaited call, and the pool that interleaves such workers; a round
      that nobody interrupts is Batch.v's ([solo_round]).
    - Infer.v, Civil.v (rollout-cli/src/infer.rs): the batch command over the pool, and
      the calendar of its timestamps.
    - Training.v (rollout-algo-sft/src/, rollout-algo-rm/src/, mock_backend.rs): both
      algorithms over any trainable backend, and the deterministic one.
    - Vllm.v (rollout-backend-vllm/src/): the Python thread, its channel, the methods.
    - EvalSuites.v, EvalJob.v, EvalRun.v (rollout-harness-eval/src/): scorers, the
      example as a job, the run.
    - Commands.v, Doctor.v (rollout-cli/src/): train, snapshot and eval; cloud doctor.

    Harnesses and plugins:
    - TextEnv.v (rollout-harness-text/src/): SplitMix64, the episode store, batched
      reset, step and close.
    - Tools.v, Sandbox.v, Http.v (rollout-harness-tool/src/): dispatch of tool calls,
      path checks, the launcher's layers, the address filter against server-side
      request forgery and the request driver with redirects.
    - Plugins.v (rollout-plugin-host/src/): manifests, dynamic libraries, Python,
      sidecars, reload and unload.

    ** How state and operations are modelled

    An [async] method is a function of type [M W CoreError A] on the state it reaches;
    one call is one atomic step where the code holds a transaction (redb and the
    storage laws make a transaction exclusive), and interleavings are explicit where
    the code lets callers interleave: [lease_step] in Lease.v, [work_run] over arbitrary
    stale records in WorkItem.v, [ledger_run] over all the ledger's writers in
    Completions.v, [queue_run] in LocalQueue.v, [pool] schedules in Pool.v (one step per
    call a worker awaits), the other senders of the channel in Vllm.v, overlapping transactions in
    Postgres.v, the environment between ticks in Workers.v, the events of the two
    processes in CoordRun.v and Processes.v.  Services that answer as they please
    (resolvers, peers, the drain's services, Python) are functions of the whole history
    of events, so a theorem holds for adaptive ones.  Third-party crates are classes, one
    operation per call the code makes, with the laws their documentation gives.  A fault
    of a backend is an [Err] the laws allow only in an unhealthy world; theorems say what
    is left behind on every such path.  Dropping the future of a streaming upload at an
    await runs the guard an error there runs, and the request in flight may or may not
    have been carried out, which is what the laws allow a failed one.
    Timestamps, fresh identifiers and the entropy behind them are arguments.  Counters
    are [N] with wrap-around written out where the code can overflow ([u64_add],
    [u128_add], [wrap]); 32-byte digests are byte lists, and a hash is a function on
    bytes, with collision freedom assumed only at the value a theorem needs it for.

    ** What the theorems show

    - Storage: the embedded backend refines the interface and publishes exactly a
      commit's events; serial histories on Postgres read as on any such store; of two
      overlapping swaps from absent on Postgres both win, of a row that is there one.
    - Leadership: acquisition on every branch, no epoch won twice in any interleaving,
      a deposed leader cannot renew and its process aborts at its next renewal.
    - Work: the transitions refine the abstract machine; every completion is paid for by
      one entry of the item into the run and is final until the item is dispatched or
      seeded again; dispatch, stealing and replay are exactly what the ledger's rows
      say; the mock run completes every item.
    - Heartbeats: round trips of the wire; only late workers are reported, a worker
      that is heard never is; pushes are delivered in order; a booted worker gets
      through a booted coordinator's handshake exactly when they share the authority and
      it asks for a name the coordinator serves under, as the TLS library compares names.
    - Batch runs: planning, the round on every branch, sample identity; the pool ends in
      every fair interleaving of its workers' calls; the output is that of the run that
      was named or recorded, one row per sample; the timestamps are the Gregorian
      calendar's.
    - Training and evaluation: a resumed run is bit-identical; the reward loss is never
      negative; the command runs its budget; scores are what counting gives; an
      evaluation run completes.
    - Durability: queue restarts, content addressing under faults, streaming puts leave
      the blob or nothing and owe an abort, cloud queues deliver until acknowledged,
      round trips of blobs and snapshots, exact retention.
    - Safety of the edges: requests never connect to a forbidden address; a launch runs
      nothing before every layer is in place; tool results are well typed; the
      plugin table is consistent and owns every sidecar process, sidecar calls are framed
      and in order, waiting for a socket ends; drains hand work back before
      deregistering; each of a worker's beats is what its life so far calls for; the
      doctor's queue check loses no work, and its exit code and report say what each of
      its checks found.
    - Environments: per-episode determinism and the generator's period.

    ** Bounds and fuel

    Fuel is used where the code loops on something other than a list, and a theorem shows
    it is enough: [fetch] runs with 6, one more than [MAX_REDIRECTS] ([fetch_loop_pinned]);
    the launcher's wait with one turn per five milliseconds of its timeout
    ([wait_loop_spec]); the uploads' loop with one more than the size of the stream
    ([chunk_loop_chunks]); the wait for a sidecar's socket with 101 tries, one per fifty
    milliseconds of its five seconds ([connect_with_retry_ends]).  All other loops recurse
    on the list they iterate over, or (the parser of content ids) count the rounds the
    code counts.  The failure scan and the beat loop, which the program never leaves by
    itself, run for a given list of events; the batch workers run for a given schedule,
    and [run_loop_terminates] and [pool_finishes] show which schedules are enough.

    ** Not modelled

    Generated code (the gRPC messages) and the inside of third-party crates; the
    construction of cloud SDK clients and of the local runtime behind the commands;
    clap's argument parsing and tracing's output; the stubs for macOS; the schema and
    fixture generators, the Python package, scripts and documents.  Of the crates
    that are modelled, the lines no definition translates are type and trait
    declarations, constructors that store their arguments, and tests. *)
From stdpp Require Export base option list gmap strings sorting pretty.
From Stdlib Require Export Lia NArith ZArith.
From Stdlib Require Export Strings.Byte.
#[global] Open Scope general_if_scope.

(** ** Bytes: [u8] is [Byte.byte], [Vec<u8>] / [&[u8]] are lists of them *)
Abbreviation byte := Byte.byte.
Abbreviation bytes := (list Byte.byte).

#[global] Instance byte_eq_dec : EqDecision byte := Byte.byte_eq_dec.
#[global] Program Instance byte_countable : Countable byte :=
  inj_countable Byte.to_N Byte.of_N _.
Next Obligation. exact Byte.of_to_N. Qed.

(** ** Results, outcomes and the state monad *)

(** [Result<A, E>]. *)
Inductive result (E A : Type) : Type :=
| Ok (a : A)
| Err (e : E).
Arguments Ok {E A} a.
Arguments Err {E A} e.

#[global] Instance result_eq_dec `{EqDecision E, EqDecision A} : EqDecision (result E A).
Proof. solve_decision. Defined.

(** What a call that may panic does: it returns a value or unwinds. *)
Inductive outcome (A : Type) : Type :=
| Value (a : A)
| Panic (msg : string).
Arguments Value {A} a.
Arguments Panic {A} msg.

Definition result_bind {E A B} (m : result E A) (k : A -> result E B) : result E B :=
  match m with Ok a => k a | Err e => Err e end.

Definition is_ok {E A} (r : result E A) : bool :=
  match r with Ok _ => true | Err _ => false end.

(** A fallible stateful computation: the state is kept when an error is
    returned, as a Rust method that mutates before it fails keeps it. *)
Definition M (W E A : Type) : Type := W -> result E A * W.

Definition mret {W E A} (a : A) : M W E A := fun w => (Ok a, w).
Definition mthrow {W E A} (e : E) : M W E A := fun w => (Err e, w).
Definition mbind_ {W E A B} (m : M W E A) (k : A -> M W E B) : M W E B :=
  fun w => match m w with
           | (Ok a, w') => k a w'
           | (Err e, w') => (Err e, w')
           end.
(** [?] on a pure [Result] inside a computation. *)
Definition mlift {W E A} (r : result E A) : M W E A := fun w => (r, w).
(** [.ok()]: run a computation and look at its result without propagating. *)
Definition mcatch {W E A} (m : M W E A) : M W E (result E A) :=
  fun w => let '(r, w') := m w in (Ok r, w').

(** [.map_err(conv)]. *)
Definition map_err {W E E' A} (conv : E -> E') (m : M W E A) : M W E' A := fun w =>
  let '(r, w') := m w in (match r with Ok a => Ok a | Err e => Err (conv e) end, w').

Declare Scope rollout_scope.
Delimit Scope rollout_scope with rollout.
Notation "'let*' x := m 'in' k" := (mbind_ m (fun x => k))
  (at level 10, x name, m at level 100, k at level 200) : rollout_scope.
Notation "'let*' ' p := m 'in' k" := (mbind_ m (fun x => match x with p => k end))
  (at level 10, p pattern, m at level 100, k at level 200) : rollout_scope.
Notation "'let?' x := m 'in' k" := (result_bind m (fun x => k))
  (at level 10, x name, m at level 100, k at level 200) : rollout_scope.
Open Scope rollout_scope.

(** Run a computation on a part of the state. *)
Definition zoom {S W E A} (get : S -> W) (set : W -> S -> S) (m : M W E A) : M S E A := fun s =>
  let '(r, w) := m (get s) in (r, set w s).

(** A [for] loop over a list whose body carries an accumulator. *)
Fixpoint mfold {W E A B} (f : B -> A -> M W E B) (acc : B) (l : list A) : M W E B :=
  match l with
  | [] => mret acc
  | x :: l' => let* acc' := f acc x in mfold f acc' l'
  end.

(** ** Weakest preconditions *)
Definition wp {W E A} (m : M W E A) (Q : result E A -> W -> Prop) (w : W) : Prop :=
  Q (fst (m w)) (snd (m w)).

Section wp_rules.
Context {W E : Type}.

Lemma wp_ret {A} (a : A) (Q : result E A -> W -> Prop) w :
  Q (Ok a) w -> wp (mret a) Q w.
Proof. done. Qed.

Lemma wp_throw {A} (e : E) (Q : result E A -> W -> Prop) w :
  Q (Err e) w -> wp (mthrow e) Q w.
Proof. done. Qed.

Lemma wp_lift {A} (r : result E A) (Q : result E A -> W -> Prop) w :
  Q r w -> wp (mlift r) Q w.
Proof. done. Qed.

Lemma wp_bind {A B} (m : M W E A) (k : A -> M W E B) Q w :
  wp m (fun r w' => match r with
                    | Ok a => wp (k a) Q w'
                    | Err e => Q (Err e) w'
                    end) w ->
  wp (mbind_ m k) Q w.
Proof. unfold wp, mbind_. destruct (m w) as [[a|e] w']; done. Qed.

Lemma wp_mono {A} (m : M W E A) (Q Q' : result E A -> W -> Prop) w :
  wp m Q w -> (forall r w', Q r w' -> Q' r w') -> wp m Q' w.
Proof. unfold wp. eauto. Qed.

Lemma wp_catch {A} (m : M W E A) (Q : result E (result E A) -> W -> Prop) w :
  wp m (fun r w' => Q (Ok r) w') w -> wp (mcatch m) Q w.
Proof. unfold wp, mcatch. by destruct (m w). Qed.

Lemma wp_and {A} (m : M W E A) (P Q : result E A -> W -> Prop) w :
  wp m P w -> wp m Q w -> wp m (fun r w' => P r w' /\ Q r w') w.
Proof. unfold wp. auto. Qed.

Lemma wp_elim {A} (m : M W E A) (Q : result E A -> W -> Prop) w r w' :
  wp m Q w -> m w = (r, w') -> Q r w'.
Proof. unfold wp. intros HQ Heq. by rewrite Heq in HQ. Qed.

Lemma wp_zoom {S A} (get : S -> W) (set : W -> S -> S) (m : M W E A) (Q : result E A -> S -> Prop) s :
  wp m (fun r w => Q r (set w s)) (get s) -> wp (zoom get set m) Q s.
Proof. unfold wp, zoom. by destruct (m (get s)). Qed.

(** The loop rule: an invariant of the accumulator, the items left and the
    state, kept by each iteration, holds when the loop returns. *)
Lemma wp_mfold {A B} (f : B -> A -> M W E B) (I : B -> list A -> W -> Prop)
      (X : E -> W -> Prop) :
  (forall acc x l w, I acc (x :: l) w ->
     wp (f acc x) (fun r w' => match r with
                               | Ok acc' => I acc' l w'
                               | Err e => X e w'
                               end) w) ->
  forall l acc w, I acc l w ->
  wp (mfold f acc l) (fun r w' => match r with
                                  | Ok acc' => I acc' [] w'
                                  | Err e => X e w'
                                  end) w.
Proof.
  intros Hstep. induction l as [|x l IH]; intros acc w HI; simpl.
  - by apply wp_ret.
  - apply wp_bind. eapply wp_mono; [by apply Hstep|].
    intros [acc'|e] w' H; [by apply IH|done].
Qed.
End wp_rules.

Lemma wp_map_err {W E E' A} (conv : E -> E') (m : M W E A) (Q : result E' A -> W -> Prop) w :
  wp m (fun r w' => Q (match r with Ok a => Ok a | Err e => Err (conv e) end) w') w -> wp (map_err conv m) Q w.
Proof. unfold wp, map_err. by destruct (m w). Qed.

(** One symbolic step of a computation under [wp]. *)
Ltac wp_pure :=
  lazymatch goal with
  | |- wp (mret _) _ _ => apply wp_ret
  | |- wp (mthrow _) _ _ => apply wp_throw
  | |- wp (mlift _) _ _ => apply wp_lift
  | |- wp (mbind_ _ _) _ _ => apply wp_bind
  | |- wp (mcatch _) _ _ => apply wp_catch
  end; cbv beta.
(** Apply the law [H] of the call at the head of the goal, keeping what it says. *)
Ltac wp_call H := repeat wp_pure; eapply wp_mono; [apply H|]; cbv beta.

(** ** Computations that only take steps of a preorder *)
Definition stays_in {W E A} (R : W -> W -> Prop) (m : M W E A) : Prop := forall w, R w (m w).2.

Section stays_rules.
Context {W : Type} (R : W -> W -> Prop) `{!PreOrder R}.

Lemma stays_ret {E A} (a : A) : stays_in R (mret (E := E) a).
Proof. intros w. reflexivity. Qed.
Lemma stays_throw {E A} (e : E) : stays_in R (mthrow (A := A) e).
Proof. intros w. reflexivity. Qed.
Lemma stays_lift {E A} (r : result E A) : stays_in R (mlift r).
Proof. intros w. reflexivity. Qed.
Lemma stays_bind {E A B} (m : M W E A) (k : A -> M W E B) :
  stays_in R m -> (forall a, stays_in R (k a)) -> stays_in R (mbind_ m k).
Proof.
  intros Hm Hk w. unfold mbind_. specialize (Hm w). destruct (m w) as [[a|e] w']; simpl in *; [|done].
  etransitivity; [exact Hm|apply Hk].
Qed.
Lemma stays_map_err {E E' A} (f : E -> E') (m : M W E A) : stays_in R m -> stays_in R (map_err f m).
Proof. intros Hm w. specialize (Hm w). unfold map_err. by destruct (m w). Qed.
Lemma stays_mfold {E A B} (f : B -> A -> M W E B) l acc :
  (forall acc x, stays_in R (f acc x)) -> stays_in R (mfold f acc l).
Proof.
  intros Hf. revert acc. induction l as [|x l IH]; intros acc; simpl; [apply stays_ret|]. by apply stays_bind.
Qed.
Lemma stays_zoom {S E A} (R' : S -> S -> Prop) (get : S -> W) (set : W -> S -> S) (m : M W E A) :
  (forall s w, R (get s) w -> R' s (set w s)) -> stays_in R m -> stays_in R' (zoom get set m).
Proof. intros Hs Hm s. unfold zoom. specialize (Hm (get s)). destruct (m (get s)). by apply Hs. Qed.
End stays_rules.

(** ** Machine integers (release builds: addition wraps) *)
Definition wrap (bits n : N) : N := (n `mod` 2 ^ bits)%N.
Definition u64_add (a b : N) : N := wrap 64 (a + b).
Definition u128_add (a b : N) : N := wrap 128 (a + b).

Lemma wrap_small bits n : (n < 2 ^ bits)%N -> wrap bits n = n.
Proof. apply N.mod_small. Qed.

(** ** [slice::sort_by]: a stable sort *)
Fixpoint insert_by {A} (le : A -> A -> bool) (x : A) (l : list A) : list A :=
  match l with
  | [] => [x]
  | y :: l' => if le x y then x :: l else y :: insert_by le x l'
  end.

Definition sort_by {A} (le : A -> A -> bool) (l : list A) : list A :=
  foldr (insert_by le) [] l.

Lemma insert_by_perm {A} (le : A -> A -> bool) x l : insert_by le x l ≡ₚ x :: l.
Proof.
  induction l as [|y l IH]; simpl; [done|]. destruct (le x y); [done|].
  rewrite IH. apply Permutation_swap.
Qed.

Lemma sort_by_perm {A} (le : A -> A -> bool) l : sort_by le l ≡ₚ l.
Proof. induction l as [|x l IH]; simpl; [done|]. by rewrite insert_by_perm, IH. Qed.

Section sort_by_sorted.
Context {A : Type} (le : A -> A -> bool).
Hypothesis le_total : forall x y, le x y = false -> le y x = true.
Hypothesis le_trans : forall x y z, le x y = true -> le y z = true -> le x z = true.

Lemma insert_by_sorted x l :
  StronglySorted (fun a b => le a b = true) l ->
  StronglySorted (fun a b => le a b = true) (insert_by le x l).
Proof.
  induction 1 as [|y l Hs IH Hf]; simpl; [repeat constructor|].
  destruct (le x y) eqn:E.
  - constructor; [by constructor|]. constructor; [done|].
    eapply Forall_impl; [exact Hf|]. simpl. eauto.
  - constructor; [done|]. rewrite insert_by_perm. constructor; auto.
Qed.

Lemma sort_by_sorted l : StronglySorted (fun a b => le a b = true) (sort_by le l).
Proof. induction l; simpl; [constructor|]. by apply insert_by_sorted. Qed.

(** The first element of a sorted list is a least one. *)
Lemma sort_by_head l x :
  head (sort_by le l) = Some x -> x ∈ l /\ forall y, y ∈ l -> x = y \/ le x y = true.
Proof.
  intros Hx. pose proof (sort_by_sorted l) as Hs. pose proof (sort_by_perm le l) as Hp.
  destruct (sort_by le l) as [|x' l']; [done|]. injection Hx as ->.
  inversion Hs as [|? ? _ Hf]; subst. rewrite Forall_forall in Hf.
  split; [rewrite <- Hp; set_solver|]. intros y. rewrite <- Hp, elem_of_cons.
  intros [->|Hy]; auto.
Qed.
End sort_by_sorted.

(** What comes first in a sorted list is no greater. *)
Lemma strongly_sorted_app {A} (le : A -> A -> bool) l1 l2 x y :
  StronglySorted (fun a b => le a b = true) (l1 ++ l2) -> x ∈ l1 -> y ∈ l2 -> le x y = true.
Proof.
  induction l1 as [|z l1 IH]; intros Hs Hx Hy; [by apply not_elem_of_nil in Hx|].
  inversion Hs as [|? ? Hs' Hf]; subst. apply elem_of_cons in Hx as [->|Hx]; [|by apply IH].
  rewrite Forall_forall in Hf. apply Hf, elem_of_app. by right.
Qed.

Lemma sort_by_nil_inv {A} (le : A -> A -> bool) l : sort_by le l = [] -> l = [].
Proof. intros Hn. apply Permutation_nil_r. by rewrite <- Hn, sort_by_perm. Qed.

(** Lexicographic order of byte arrays. *)
Fixpoint bytes_le (a b : bytes) : bool :=
  match a, b with
  | [], _ => true
  | _ :: _, [] => false
  | x :: a', y :: b' =>
      if decide (Byte.to_N x = Byte.to_N y) then bytes_le a' b'
      else bool_decide (Byte.to_N x < Byte.to_N y)%N
  end.

Lemma bytes_le_total a b : bytes_le a b = false -> bytes_le b a = true.
Proof.
  revert b. induction a as [|x a IH]; intros [|y b]; simpl; try done.
  case_decide as Hxy.
  - rewrite decide_True by done. apply IH.
  - rewrite decide_False by congruence. rewrite bool_decide_eq_false, bool_decide_eq_true. lia.
Qed.

Lemma bytes_le_trans a b c : bytes_le a b = true -> bytes_le b c = true -> bytes_le a c = true.
Proof.
  revert b c. induction a as [|x a IH]; intros [|y b] [|z c]; simpl; try done.
  repeat case_decide; rewrite ?bool_decide_eq_true; try lia. apply IH.
Qed.

Lemma bytes_le_antisym a b : bytes_le a b = true -> bytes_le b a = true -> a = b.
Proof.
  revert b. induction a as [|x a IH]; intros [|y b]; simpl; try done.
  case_decide as Hxy.
  - rewrite decide_True by done. intros. f_equal; [|auto].
    pose proof (Byte.of_to_N x) as Hx. rewrite Hxy, Byte.of_to_N in Hx. congruence.
  - rewrite decide_False by congruence. rewrite !bool_decide_eq_true. lia.
Qed.

Lemma elem_of_take_sub {A} (x : A) n l : x ∈ take n l -> x ∈ l.
Proof. rewrite elem_of_take. intros (i & Hi & _). by eapply list_elem_of_lookup_2. Qed.

Lemma strongly_sorted_impl {A} (R S : A -> A -> Prop) l :
  (forall a b, R a b -> S a b) -> StronglySorted R l -> StronglySorted S l.
Proof.
  intros HRS. induction 1 as [|x l Hs IH Hf]; constructor; [done|].
  eapply Forall_impl; [exact Hf|]. auto.
Qed.
