(* ===== verification/Text.v ===== *)
(** [str] as the components use it: UTF-8 decoding, searching, splitting and
    trimming, on lists of bytes or of characters. *)
From stdpp Require Import base option list strings pretty.
From S2P Require Import Prelude.

(** The UTF-8 bytes of a string. *)
Abbreviation bytes_of := String.list_byte_of_string.

(** ** Characters: [char] is its code point *)
Abbreviation char := N.

(** [str::chars] on the bytes of a (valid) string: [need] continuation bytes are
    still to come for the code point begun in [acc]. *)
Fixpoint utf8_chars (need : nat) (acc : N) (bs : bytes) : list char :=
  match bs with
  | [] => []
  | b :: bs' =>
      let n := Byte.to_N b in
      if decide (n < 128)%N then n :: utf8_chars 0 0 bs'
      else if decide (n < 192)%N then
        let acc' := (acc * 64 + (n - 128))%N in
        match need with
        | S (S need') => utf8_chars (S need') acc' bs'
        | _ => acc' :: utf8_chars 0 0 bs'
        end
      else if decide (n < 224)%N then utf8_chars 1 (n - 192) bs'
      else if decide (n < 240)%N then utf8_chars 2 (n - 224) bs'
      else utf8_chars 3 (n - 240) bs'
  end.

Definition chars (s : string) : list char := utf8_chars 0 0 (bytes_of s).

(** [char::is_whitespace]: the characters with the property White_Space. *)
Definition is_whitespace (c : char) : bool :=
  bool_decide (9 <= c <= 13)%N || bool_decide (c ∈ [32; 133; 160; 5760; 8232; 8233; 8239; 8287; 12288]%N)
  || bool_decide (8192 <= c <= 8202)%N.

(** [u8::to_ascii_lowercase], bytewise as [str::to_ascii_lowercase] does. *)
Definition ascii_lower (b : byte) : byte :=
  let n := Byte.to_N b in
  if decide (65 <= n <= 90)%N then default b (Byte.of_N (n + 32)) else b.
Definition to_ascii_lowercase (s : string) : bytes := ascii_lower <$> bytes_of s.

(** ** Searching and splitting, on any alphabet *)
Section search.
Context {A : Type} `{EqDecision A}.
Implicit Types (l p : list A).

(** [starts_with]. *)
Definition has_prefix (p l : list A) : bool := bool_decide (p `prefix_of` l).

(** [strip_prefix], [strip_suffix]. *)
Definition strip_prefix (p l : list A) : option (list A) :=
  if has_prefix p l then Some (drop (length p) l) else None.
Definition strip_suffix (p l : list A) : option (list A) :=
  reverse <$> strip_prefix (reverse p) (reverse l).

(** [contains]. *)
Fixpoint contains (p l : list A) : bool :=
  has_prefix p l || match l with [] => false | _ :: l' => contains p l' end.

(** [matches(p).count()] for a non-empty needle: [skip] characters of the last
    match are still to be passed. *)
Fixpoint count_matches (p : list A) (skip : nat) (l : list A) : nat :=
  match l with
  | [] => 0
  | _ :: l' =>
      match skip with
      | S skip' => count_matches p skip' l'
      | O => if has_prefix p l then S (count_matches p (length p - 1) l') else count_matches p 0 l'
      end
  end.

(** [split] at the characters that satisfy [sep]. *)
Fixpoint split (sep : A -> bool) (l : list A) : list (list A) :=
  match l with
  | [] => [[]]
  | c :: l' =>
      if sep c then [] :: split sep l'
      else match split sep l' with
           | [] => [[c]]
           | w :: ws => (c :: w) :: ws
           end
  end.

(** [trim_start_matches], [trim_end_matches], both. *)
Fixpoint trim_start (blank : A -> bool) (l : list A) : list A :=
  match l with
  | [] => []
  | c :: l' => if blank c then trim_start blank l' else l
  end.
Definition trim_end (blank : A -> bool) (l : list A) : list A := reverse (trim_start blank (reverse l)).
Definition trim (blank : A -> bool) (l : list A) : list A := trim_end blank (trim_start blank l).

(** [rsplit(p).next()]: what follows the last occurrence of a non-empty [p]. *)
Fixpoint after_last (p : list A) (l : list A) : option (list A) :=
  match l with
  | [] => None
  | _ :: l' =>
      match after_last p l' with
      | Some t => Some t
      | None => strip_prefix p l
      end
  end.

Lemma has_prefix_spec p l : has_prefix p l = true <-> exists t, l = p ++ t.
Proof. unfold has_prefix. rewrite bool_decide_eq_true. done. Qed.

Lemma strip_prefix_spec p l t : strip_prefix p l = Some t <-> l = p ++ t.
Proof.
  unfold strip_prefix. destruct (has_prefix p l) eqn:E.
  - apply has_prefix_spec in E as [t' ->]. rewrite drop_app_length.
    split; [by intros [= ->]|]. by intros ->%app_inv_head.
  - split; [done|]. intros ->. assert (has_prefix p (p ++ t) = true) by (apply has_prefix_spec; by exists t).
    congruence.
Qed.

Lemma contains_spec p l : contains p l = true <-> exists a b, l = a ++ p ++ b.
Proof.
  induction l as [|c l IH]; cbn [contains]; rewrite orb_true_iff, has_prefix_spec.
  - split.
    + intros [[t Ht]|]; [|done]. by exists [], t.
    + intros (a & b & H). left. exists b. destruct a; [done|discriminate].
  - rewrite IH. split.
    + intros [[t ->]|(a & b & ->)]; [by exists [], t|by exists (c :: a), b].
    + intros ([|x a] & b & H); [left; by exists b|right]. injection H as -> ->. by exists a, b.
Qed.

Lemma split_nonempty sep l : split sep l <> [].
Proof. destruct l as [|c l]; simpl; [done|]. destruct (sep c); [done|]. by destruct (split sep l). Qed.

(** No piece holds a separator, and the pieces with the separators are the text. *)
Lemma split_free sep l : Forall (Forall (fun c => sep c = false)) (split sep l).
Proof.
  induction l as [|c l IH]; simpl; [by repeat constructor|].
  destruct (sep c) eqn:E; [by constructor|]. destruct (split sep l) as [|w ws]; [by repeat constructor|].
  inversion IH; subst. by constructor; [constructor|].
Qed.

Lemma split_length sep l : length (split sep l) = S (length (filter (fun c => sep c = true) l)).
Proof.
  induction l as [|c l IH]; simpl; [done|]. rewrite filter_cons. destruct (sep c) eqn:E.
  - rewrite decide_True by done. simpl. by rewrite IH.
  - rewrite decide_False by done. pose proof (split_nonempty sep l). destruct (split sep l); [done|]. exact IH.
Qed.

Lemma trim_start_spec blank l :
  exists a, l = a ++ trim_start blank l /\ Forall (fun c => blank c = true) a /\
            match trim_start blank l with c :: _ => blank c = false | [] => True end.
Proof.
  induction l as [|c l (a & Ha & Hb & Hc)]; simpl; [by exists []|].
  destruct (blank c) eqn:E; [|by exists []].
  exists (c :: a). split; [by rewrite <- app_comm_cons, <- Ha|]. split; [by constructor|done].
Qed.

Lemma after_last_suffix p a l : after_last p (a ++ l) = None -> after_last p l = None.
Proof. induction a as [|c a IH]; simpl; [done|]. destruct (after_last p (a ++ l)); [done|]. auto. Qed.

Lemma after_last_spec p l t : p <> [] -> after_last p l = Some t ->
  (exists a, l = a ++ p ++ t) /\ after_last p t = None.
Proof.
  intros Hp. revert t. induction l as [|c l IH]; intros t; simpl; [done|].
  destruct (after_last p l) as [t'|] eqn:E.
  - intros [= ->]. destruct (IH t eq_refl) as [[a ->] Hn]. split; [by exists (c :: a)|done].
  - intros Hs. apply strip_prefix_spec in Hs. split; [by exists []|].
    destruct p as [|x p]; [done|]. injection Hs as _ ->. clear IH Hp.
    by eapply after_last_suffix.
Qed.
End search.

(** [split_whitespace]. *)
Definition split_whitespace (l : list char) : list (list char) :=
  filter (fun w => w <> []) (split is_whitespace l).

(** [lines]: the line endings are removed, a final empty line is no line. *)
Definition cut_cr (l : list char) : list char := default l (strip_suffix [13%N] l).
Fixpoint lines_of (pieces : list (list char)) : list (list char) :=
  match pieces with
  | [] => []
  | [last] => if decide (last = []) then [] else [last]
  | l :: pieces' => cut_cr l :: lines_of pieces'
  end.
Definition lines (l : list char) : list (list char) := lines_of (split (fun c => bool_decide (c = 10%N)) l).

(** ** Numbers in text *)

(** The digits of a decimal literal. *)
Definition digit (c : char) : option N := if decide (48 <= c <= 57)%N then Some (c - 48)%N else None.

Fixpoint decimal (acc : N) (l : list char) : option N :=
  match l with
  | [] => Some acc
  | c :: l' => match digit c with Some d => decimal (acc * 10 + d) l' | None => None end
  end.

(** [str::parse::<u32>]: digits after an optional ['+'], in range. *)
Definition parse_u32 (l : list char) : option N :=
  match (match l with 43%N :: l' => l' | _ => l end) with
  | [] => None
  | ds => n ← decimal 0 ds; if decide (n < 2 ^ 32)%N then Some n else None
  end.

Definition parse_u64 (l : list char) : option N :=
  match (match l with 43%N :: l' => l' | _ => l end) with
  | [] => None
  | ds => n ← decimal 0 ds; if decide (n < 2 ^ 64)%N then Some n else None
  end.

(** The leading digits: their value, their number and the rest. *)
Fixpoint take_digits (acc : N) (k : nat) (l : list char) : N * nat * list char :=
  match l with
  | c :: l' => match digit c with Some d => take_digits (acc * 10 + d) (S k) l' | None => (acc, k, l) end
  | [] => (acc, k, [])
  end.

(** [String] from its characters. *)
Definition byte_of (n : N) : byte := default x00 (Byte.of_N n).
Definition encode_char (c : char) : bytes :=
  if decide (c < 128)%N then [byte_of c]
  else if decide (c < 2048)%N then [byte_of (192 + c / 64); byte_of (128 + c mod 64)]
  else if decide (c < 65536)%N then
    [byte_of (224 + c / 4096); byte_of (128 + c / 64 mod 64); byte_of (128 + c mod 64)]
  else [byte_of (240 + c / 262144); byte_of (128 + c / 4096 mod 64); byte_of (128 + c / 64 mod 64);
        byte_of (128 + c mod 64)].
Definition of_chars (l : list char) : string := String.string_of_list_byte (l ≫= encode_char).

Example of_chars_mixed : of_chars (chars "a é € 😀") = "a é € 😀".
Proof. reflexivity. Qed.

(** [str::trim]. *)
Definition str_trim (s : string) : string := of_chars (trim is_whitespace (chars s)).

(** [{:?}] of a string: quoted, with the escapes of ASCII; characters beyond ASCII
    are kept. *)
Definition quote : string := String (Ascii.ascii_of_nat 34) "".
Definition hex_of (n : N) : string := if decide (n < 10)%N then pretty n else String (Ascii.ascii_of_N (87 + n)) "".
Definition debug_char (a : Ascii.ascii) : string :=
  let n := Ascii.N_of_ascii a in
  if decide (n = 34)%N then "\" +:+ quote
  else if decide (n = 92)%N then "\\"
  else if decide (n = 0)%N then "\0"
  else if decide (n = 9)%N then "\t"
  else if decide (n = 10)%N then "\n"
  else if decide (n = 13)%N then "\r"
  else if decide (n < 16)%N then "\u{" +:+ hex_of n +:+ "}"
  else if decide (n < 32 \/ n = 127)%N then "\u{" +:+ hex_of (n / 16) +:+ hex_of (n mod 16) +:+ "}"
  else String a "".
Fixpoint debug_body (s : string) : string :=
  match s with EmptyString => "" | String a s' => debug_char a +:+ debug_body s' end.
Definition str_debug (s : string) : string := quote +:+ debug_body s +:+ quote.

(** ** ASCII strings are their bytes *)
Lemma utf8_chars_ascii bs :
  Forall (fun b => Byte.to_N b < 128)%N bs -> utf8_chars 0 0 bs = Byte.to_N <$> bs.
Proof. induction 1 as [|b bs Hb _ IH]; simpl; [done|]. rewrite decide_True by done. by rewrite IH. Qed.

(** ** [String::from_utf8_lossy]: each maximal invalid part becomes U+FFFD *)

(** The continuation bytes a first byte asks for, with the range of the first. *)
Definition utf8_lead (n : N) : option (nat * N * N) :=
  if decide (n < 128)%N then Some (0, 0%N, 0%N)
  else if decide (194 <= n < 224)%N then Some (1, 128%N, 191%N)
  else if decide (n = 224)%N then Some (2, 160%N, 191%N)
  else if decide (n = 237)%N then Some (2, 128%N, 159%N)
  else if decide (225 <= n < 240)%N then Some (2, 128%N, 191%N)
  else if decide (n = 240)%N then Some (3, 144%N, 191%N)
  else if decide (241 <= n < 244)%N then Some (3, 128%N, 191%N)
  else if decide (n = 244)%N then Some (3, 128%N, 143%N)
  else None.

Definition replacement : bytes := [xef; xbf; xbd].

(** [pending]: the bytes of the character begun (reversed), how many more it
    needs and the range the next must be in. *)
Fixpoint lossy (pending : option (bytes * nat * N * N)) (bs : bytes) : bytes :=
  match bs with
  | [] => match pending with Some _ => replacement | None => [] end
  | b :: bs' =>
      let n := Byte.to_N b in
      let start := match utf8_lead n with
                   | Some (0, _, _) => b :: lossy None bs'
                   | Some (k, lo, hi) => lossy (Some ([b], k, lo, hi)) bs'
                   | None => replacement ++ lossy None bs'
                   end in
      match pending with
      | None => start
      | Some (seen, need, lo, hi) =>
          if decide (lo <= n <= hi)%N then
            match need with
            | S (S need') => lossy (Some (b :: seen, S need', 128%N, 191%N)) bs'
            | _ => reverse (b :: seen) ++ lossy None bs'
            end
          else replacement ++ start
      end
  end.

Definition from_utf8_lossy (bs : bytes) : string := String.string_of_list_byte (lossy None bs).

(** ** [std::str::from_utf8]: the error names the first character that is not one *)
Definition utf8_invalid (len start : N) : string :=
  "invalid utf-8 sequence of " +:+ pretty len +:+ " bytes from index " +:+ pretty start.

(** [pending]: how many bytes of the character begun at [start] were seen, how many
    more it needs and the range the next must be in. *)
Fixpoint utf8_check (start : N) (pending : option (N * nat * N * N)) (bs : bytes) : option string :=
  match bs, pending with
  | [], None => None
  | [], Some _ => Some ("incomplete utf-8 byte sequence from index " +:+ pretty start)
  | b :: bs', None =>
      match utf8_lead (Byte.to_N b) with
      | Some (0, _, _) => utf8_check (start + 1) None bs'
      | Some (k, lo, hi) => utf8_check start (Some (1%N, k, lo, hi)) bs'
      | None => Some (utf8_invalid 1 start)
      end
  | b :: bs', Some (seen, need, lo, hi) =>
      if decide (lo <= Byte.to_N b <= hi)%N then
        match need with
        | S (S need') => utf8_check start (Some (seen + 1, S need', 128, 191)%N) bs'
        | _ => utf8_check (start + seen + 1) None bs'
        end
      else Some (utf8_invalid seen start)
  end.

Definition from_utf8 (bs : bytes) : result string string :=
  match utf8_check 0 None bs with
  | None => Ok (String.string_of_list_byte bs)
  | Some e => Err e
  end.

Lemma utf8_check_ascii start bs : Forall (fun b => Byte.to_N b < 128)%N bs -> utf8_check start None bs = None.
Proof.
  intros H. revert start. induction H as [|b bs Hb _ IH]; intros start; simpl; [done|].
  unfold utf8_lead. by rewrite decide_True.
Qed.

Example from_utf8_bad : from_utf8 [x61; xe2; x82; x62] = Err "invalid utf-8 sequence of 2 bytes from index 1".
Proof. reflexivity. Qed.

Lemma lossy_ascii bs : Forall (fun b => Byte.to_N b < 128)%N bs -> lossy None bs = bs.
Proof.
  induction 1 as [|b bs Hb _ IH]; simpl; [done|]. unfold utf8_lead. rewrite decide_True by done. by rewrite IH.
Qed.

Example lossy_mixed : lossy None [x61; xc3; xa9; xff; xe2; x82; x62] =
  [x61; xc3; xa9] ++ replacement ++ replacement ++ [x62].
Proof. reflexivity. Qed.

Example chars_two : chars "hé" = [104; 233]%N.
Proof. reflexivity. Qed.
Example lines_ex : lines (chars "a
b
") = [chars "a"; chars "b"].
Proof. reflexivity. Qed.

(** ** Printable text without blanks is its own trim *)
Definition plain (s : string) : Prop := Forall (fun b => 33 <= Byte.to_N b < 127)%N (bytes_of s).

Lemma plain_ascii s : plain s -> Forall (fun b => Byte.to_N b < 128)%N (bytes_of s).
Proof. intros H. eapply Forall_impl; [exact H|]. simpl. lia. Qed.

Lemma chars_ascii s : Forall (fun b => Byte.to_N b < 128)%N (bytes_of s) -> chars s = Byte.to_N <$> bytes_of s.
Proof. apply utf8_chars_ascii. Qed.
Lemma of_chars_ascii bs : Forall (fun b => Byte.to_N b < 128)%N bs -> of_chars (Byte.to_N <$> bs) = String.string_of_list_byte bs.
Proof.
  intros H. unfold of_chars. f_equal. induction H as [|b l Hb _ IH]; [done|]. rewrite fmap_cons, bind_cons, IH.
  unfold encode_char. rewrite decide_True by lia. unfold byte_of. by rewrite Byte.of_to_N.
Qed.

Lemma plain_not_blank (n : N) : (33 <= n < 127)%N -> is_whitespace n = false.
Proof.
  intros H. unfold is_whitespace. rewrite !orb_false_iff, !bool_decide_eq_false.
  repeat split; [lia| |lia]. rewrite !elem_of_cons, elem_of_nil. lia.
Qed.

Lemma trim_start_none (blank : N -> bool) l : Forall (fun c => blank c = false) l -> trim_start blank l = l.
Proof. intros H. destruct H as [|c l Hc _]; simpl; [done|]. by rewrite Hc. Qed.

Lemma str_trim_plain s : plain s -> str_trim s = s.
Proof.
  intros Hp. unfold str_trim, chars. rewrite utf8_chars_ascii by by apply plain_ascii.
  assert (Forall (fun c => is_whitespace c = false) (Byte.to_N <$> bytes_of s)) as Hb.
  { apply Forall_fmap. eapply Forall_impl; [exact Hp|]. intros b. apply plain_not_blank. }
  unfold trim, trim_end. rewrite (trim_start_none _ _ Hb), trim_start_none by by apply Forall_reverse.
  rewrite reverse_involutive, of_chars_ascii by by apply plain_ascii. apply String.string_of_list_byte_of_string.
Qed.

Lemma from_utf8_plain s : plain s -> from_utf8 (bytes_of s) = Ok s.
Proof.
  intros Hp. unfold from_utf8. rewrite utf8_check_ascii by by apply plain_ascii.
  by rewrite String.string_of_list_byte_of_string.
Qed.
