(* ===== verification/Float.v ===== *)
(** IEEE 754 binary64 and binary32, as the evaluation and training crates compute
    with them: the standard library's executable specification of floating point
    ([spec_float], rounding to nearest even), the order behind [>], and exact
    arithmetic on counts. *)
From stdpp Require Import base option list countable.
From Stdlib Require Import ZArith.
From Stdlib Require Export SpecFloat.
From S2P Require Import Prelude.
From S2P Require Import Text.
#[local] Open Scope Z_scope.

Abbreviation f64 := spec_float.
Abbreviation f32 := spec_float.

#[global] Instance spec_float_eq_dec : EqDecision spec_float.
Proof. solve_decision. Defined.
#[global] Program Instance spec_float_countable : Countable spec_float :=
  inj_countable'
    (fun x => match x with
              | S754_zero s => inl s
              | S754_infinity s => inr (inl s)
              | S754_nan => inr (inr (inl tt))
              | S754_finite s m e => inr (inr (inr (s, m, e)))
              end)
    (fun c => match c with
              | inl s => S754_zero s
              | inr (inl s) => S754_infinity s
              | inr (inr (inl _)) => S754_nan
              | inr (inr (inr (s, m, e))) => S754_finite s m e
              end) _.
Next Obligation. by intros []. Qed.

Definition f64_add : f64 -> f64 -> f64 := SFadd 53 1024.
Definition f64_sub : f64 -> f64 -> f64 := SFsub 53 1024.
Definition f64_div : f64 -> f64 -> f64 := SFdiv 53 1024.
Definition f64_zero : f64 := S754_zero false.
(** [a > b], false on a NaN. *)
Definition f64_gt (a b : f64) : bool := SFltb b a.
(** [n as f64], [f64::from]. *)
Definition f64_of_N (n : N) : f64 := binary_normalize 53 1024 (Z.of_N n) 0 false.
Definition f64_of_nat (n : nat) : f64 := f64_of_N (N.of_nat n).
Definition f64_of_bool (b : bool) : f64 := f64_of_N (if b then 1 else 0).

Definition f32_sub : f32 -> f32 -> f32 := SFsub 24 128.
Definition f32_mul : f32 -> f32 -> f32 := SFmul 24 128.
Definition f32_div : f32 -> f32 -> f32 := SFdiv 24 128.
Definition f32_of_N (n : N) : f32 := binary_normalize 24 128 (Z.of_N n) 0 false.

(** [f64 as f32]: rounded to the narrower format. *)
Definition f32_of_f64 (x : f64) : f32 :=
  match x with
  | S754_finite s m e => binary_round 24 128 s m e
  | _ => x
  end.

(** ** [str::parse::<f64>]: the nearest double of a decimal literal *)

(** [m * 10 ^ e], correctly rounded. *)
Definition f64_of_decimal (s : bool) (m : N) (e : Z) : f64 :=
  match Z.of_N m, e with
  | Zpos p, Zneg k =>
      let '(q, e', l) := SFdiv_core_binary 53 1024 (Zpos p) 0 (10 ^ Zpos k) 0 in
      binary_round_aux 53 1024 s q e' l
  | Zpos p, _ => binary_round 53 1024 s (Z.to_pos (Zpos p * 10 ^ e)) 0
  | _, _ => S754_zero s
  end.

(** [[e|E][+|-]digits], or nothing. *)
Definition parse_exponent (l : list char) : option Z :=
  match l with
  | [] => Some 0
  | c :: l' =>
      if decide (c = 101%N \/ c = 69%N) then
        let '(s, ds) := match l' with
                        | 45%N :: ds => (true, ds)
                        | 43%N :: ds => (false, ds)
                        | ds => (false, ds)
                        end in
        match take_digits 0 0 ds with
        | (n, S _, []) => Some (if s : bool then - Z.of_N n else Z.of_N n)
        | _ => None
        end
      else None
  end.

Definition lower_char (c : char) : char := if decide (65 <= c <= 90)%N then (c + 32)%N else c.

Definition parse_f64 (l : list char) : option f64 :=
  let '(s, l) := match l with
                 | 45%N :: l' => (true, l')
                 | 43%N :: l' => (false, l')
                 | _ => (false, l)
                 end in
  let word := lower_char <$> l in
  if decide (word = chars "inf" \/ word = chars "infinity") then Some (S754_infinity s)
  else if decide (word = chars "nan") then Some S754_nan
  else
    let '(n, k, rest) := take_digits 0 0 l in
    let '(n, k, f, rest) := match rest with
                            | 46%N :: rest' => let '(n', k', r) := take_digits n k rest' in (n', k', (k' - k)%nat, r)
                            | _ => (n, k, 0%nat, rest)
                            end in
    match k with
    | O => None
    | _ => e ← parse_exponent rest; Some (f64_of_decimal s n (e - Z.of_nat f))
    end.

(** ** The order: [>] is a strict weak order away from NaN *)

(** A key whose lexicographic order is the order of floats. *)
Definition f64_key (x : f64) : Z * Z * Z :=
  match x with
  | S754_infinity true => (-2, 0, 0)
  | S754_finite true m e => (-1, - e, - Zpos m)
  | S754_zero _ | S754_nan => (0, 0, 0)
  | S754_finite false m e => (1, e, Zpos m)
  | S754_infinity false => (2, 0, 0)
  end.

Definition key_lt (a b : Z * Z * Z) : Prop :=
  a.1.1 < b.1.1 \/ (a.1.1 = b.1.1 /\ (a.1.2 < b.1.2 \/ (a.1.2 = b.1.2 /\ a.2 < b.2))).

Lemma pos_cont_eq m1 m2 : Pos.compare_cont Eq m1 m2 = Z.compare (Zpos m1) (Zpos m2).
Proof. done. Qed.

Lemma f64_gt_key a b : a <> S754_nan -> b <> S754_nan ->
  f64_gt a b = true <-> key_lt (f64_key b) (f64_key a).
Proof.
  intros Ha Hb. unfold f64_gt, SFltb, SFcompare, key_lt, f64_key.
  destruct b as [[]|[]| |[] mb eb], a as [[]|[]| |[] ma ea]; try done; cbn [fst snd];
    try (split; [try done; intros _; lia|intros; try done; lia]).
  - destruct (Z.compare_spec eb ea); try (split; [done||intros _; lia|done||lia]).
    rewrite pos_cont_eq. destruct (Z.compare_spec (Zpos mb) (Zpos ma)); simpl; (split; [done||intros _; lia|done||lia]).
  - destruct (Z.compare_spec eb ea); try (split; [done||intros _; lia|done||lia]).
    rewrite pos_cont_eq. destruct (Z.compare_spec (Zpos mb) (Zpos ma)); simpl; (split; [done||intros _; lia|done||lia]).
Qed.

Lemma f64_gt_trans a b c : a <> S754_nan -> b <> S754_nan -> c <> S754_nan ->
  f64_gt a b = true -> f64_gt b c = true -> f64_gt a c = true.
Proof. intros ???. rewrite !f64_gt_key by done. unfold key_lt. lia. Qed.

(** Negatively transitive: what is not above an upper bound is not above. *)
Lemma f64_le_trans a b c : a <> S754_nan -> b <> S754_nan -> c <> S754_nan ->
  f64_gt a b = false -> f64_gt b c = false -> f64_gt a c = false.
Proof. intros ???. rewrite <- !not_true_iff_false, !f64_gt_key by done. unfold key_lt. lia. Qed.

Lemma f64_gt_irrefl a : f64_gt a a = false.
Proof.
  destruct (decide (a = S754_nan)) as [->|Ha]; [done|].
  rewrite <- not_true_iff_false, f64_gt_key by done. unfold key_lt. lia.
Qed.

Lemma f64_gt_asym a b : f64_gt a b = true -> f64_gt b a = false.
Proof.
  destruct (decide (a = S754_nan)) as [->|Ha]; [by destruct b as [[]|[]| |[]]|].
  destruct (decide (b = S754_nan)) as [->|Hb]; [done|].
  rewrite <- not_true_iff_false, !f64_gt_key by done. unfold key_lt. lia.
Qed.

(** ** Counts are exact: adding doubles that hold naturals below [2 ^ 53] *)

Lemma iter_pos_nat {A} (f : A -> A) p x : SpecFloat.iter_pos f p x = Nat.iter (Pos.to_nat p) f x.
Proof.
  revert x. induction p as [p IH|p IH|]; intros x; cbn [SpecFloat.iter_pos]; [| |done];
    rewrite !IH, <- Nat.iter_add, ?Pos2Nat.inj_xI, ?Pos2Nat.inj_xO.
  - replace (S (2 * Pos.to_nat p)) with (Pos.to_nat p + Pos.to_nat p + 1)%nat by lia.
    by rewrite (Nat.iter_add _ 1).
  - f_equal. lia.
Qed.

Lemma digits_log2 p : Zpos (digits2_pos p) = Z.log2 (Zpos p) + 1.
Proof.
  assert (digits2_pos p = Pos.size p) as -> by (induction p; simpl; congruence).
  destruct p; simpl; lia.
Qed.

(** Shifting out zero bits loses nothing. *)
Lemma shr_1_exact n z : 0 < z ->
  Nat.iter n shr_1 (Build_shr_record (z * 2 ^ Z.of_nat n) false false) = Build_shr_record z false false.
Proof.
  intros Hz. induction n as [|n IH]; [by rewrite Z.mul_1_r|].
  rewrite Nat.iter_succ_r. replace (z * 2 ^ Z.of_nat (S n)) with (2 * (z * 2 ^ Z.of_nat n)).
  - destruct (z * 2 ^ Z.of_nat n) as [|q|q] eqn:E; [exfalso; lia| |exfalso; lia]. exact IH.
  - rewrite Nat2Z.inj_succ, Z.pow_succ_r by lia. ring.
Qed.

(** A shift to the exponent the format asks for, when only zeroes are dropped. *)
Lemma shr_fexp_exact z n e : 0 < z -> 0 <= n ->
  fexp 53 1024 (Zdigits2 (z * 2 ^ n) + e) = e + n ->
  shr_fexp 53 1024 (z * 2 ^ n) e loc_Exact = (Build_shr_record z false false, e + n).
Proof.
  intros Hz Hn Hf. unfold shr_fexp. rewrite Hf. replace (e + n - e) with n by lia. unfold shr. simpl.
  destruct n as [|p|p]; [by rewrite Z.mul_1_r, Z.add_0_r| |lia].
  rewrite iter_pos_nat, <- (positive_nat_Z p), shr_1_exact; [done|lia].
Qed.

(** The double that holds [z]. *)
Definition exact_f64 (z : Z) : f64 :=
  S754_finite false (Z.to_pos (z * 2 ^ (52 - Z.log2 z))) (Z.log2 z - 52).

Lemma log2_bound z : 0 < z < 2 ^ 53 -> 0 <= Z.log2 z <= 52.
Proof. intros [H1 H2]. pose proof (Z.log2_nonneg z). apply Z.log2_lt_pow2 in H2; lia. Qed.

Lemma fexp_small d : -52 <= d <= 1024 -> fexp 53 1024 d = d - 53.
Proof. intros. unfold fexp, emin. lia. Qed.

Lemma log2_scaled z k : 0 < z -> 0 <= k -> Z.log2 (z * 2 ^ k) = Z.log2 z + k.
Proof. intros. rewrite <- Z.shiftl_mul_pow2 by lia. by apply Z.log2_shiftl. Qed.

Lemma round_aux_exact z n e : 0 < z < 2 ^ 53 -> 0 <= n -> e + n = Z.log2 z - 52 -> -52 <= e ->
  binary_round_aux 53 1024 false (z * 2 ^ (52 - Z.log2 z) * 2 ^ n) e loc_Exact = exact_f64 z.
Proof.
  intros Hz Hn He Hemin. pose proof (log2_bound z Hz) as Hl.
  set (m := z * 2 ^ (52 - Z.log2 z)) in *.
  assert (0 < m) as Hm by (unfold m; apply Z.mul_pos_pos; [lia|apply Z.pow_pos_nonneg; lia]).
  assert (Hlog : Z.log2 m = 52) by (unfold m; rewrite log2_scaled by lia; lia).
  assert (Hdig : forall k, 0 <= k -> Zdigits2 (m * 2 ^ k) = 53 + k).
  { intros k Hk. pose proof (log2_scaled m k Hm Hk). assert (0 < m * 2 ^ k) by (apply Z.mul_pos_pos; [lia|apply Z.pow_pos_nonneg; lia]).
    destruct (m * 2 ^ k) as [|q|q] eqn:E; [lia| |lia]. simpl. rewrite digits_log2. lia. }
  unfold binary_round_aux. rewrite (shr_fexp_exact m n e) by (try rewrite Hdig, fexp_small; lia).
  cbn [shr_m loc_of_shr_record round_nearest_even].
  replace m with (m * 2 ^ 0) at 1 by (rewrite Z.pow_0_r; lia).
  rewrite (shr_fexp_exact m 0 (e + n)) by (try rewrite Hdig, fexp_small; lia).
  cbn [shr_m]. rewrite Z.add_0_r, He. unfold exact_f64. fold m. clearbody m.
  rewrite (proj2 (Z.leb_le _ _)) by lia. by destruct m.
Qed.

Lemma iter_double m d : Zpos (Pos.iter xO m d) = Zpos m * 2 ^ Zpos d.
Proof.
  induction d as [|d IH] using Pos.peano_ind; [simpl; lia|].
  rewrite Pos.iter_succ, Pos2Z.inj_succ, Z.pow_succ_r, Z.mul_assoc, (Z.mul_comm _ 2), <- Z.mul_assoc, <- IH by lia. lia.
Qed.

Lemma shl_align_left m e e' : e' <= e -> shl_align m e e' = (Z.to_pos (Zpos m * 2 ^ (e - e')), e').
Proof.
  intros H. unfold shl_align. destruct (e' - e) as [|d|d] eqn:E; [|lia|].
  - replace (e - e') with 0 by lia. rewrite Z.mul_1_r. f_equal. lia.
  - f_equal. replace (e - e') with (Zpos d) by lia. rewrite <- (Pos2Z.id (Pos.iter xO m d)). f_equal.
    apply iter_double.
Qed.

Lemma shl_align_right m e e' : e < e' -> shl_align m e e' = (m, e).
Proof. intros H. unfold shl_align. destruct (e' - e) eqn:E; [lia|done|lia]. Qed.

Lemma normalize_exact z k : 0 < z < 2 ^ 53 -> 0 <= k <= 52 ->
  binary_normalize 53 1024 (z * 2 ^ k) (- k) false = exact_f64 z.
Proof.
  intros Hz Hk. pose proof (log2_bound z Hz) as Hl. pose proof (log2_scaled z k ltac:(lia) ltac:(lia)) as Hs.
  assert (0 < z * 2 ^ k) as Hp by (apply Z.mul_pos_pos; [lia|apply Z.pow_pos_nonneg; lia]).
  destruct (z * 2 ^ k) as [|q|q] eqn:E; [lia| |lia]. unfold binary_normalize, binary_round.
  replace (fexp 53 1024 (Zpos (digits2_pos q) + - k)) with (Z.log2 z - 52)
    by (rewrite digits_log2, fexp_small; lia).
  destruct (Z_le_gt_dec (Z.log2 z - 52) (- k)) as [Hle|Hgt].
  - rewrite shl_align_left by done. rewrite Z2Pos.id by (apply Z.mul_pos_pos; [lia|apply Z.pow_pos_nonneg; lia]).
    rewrite <- E, <- Z.mul_assoc, <- Z.pow_add_r by lia.
    replace (k + (- k - (Z.log2 z - 52))) with (52 - Z.log2 z) by lia.
    rewrite <- (Z.mul_1_r (z * _)). apply (round_aux_exact z 0); lia.
  - rewrite shl_align_right by lia. rewrite <- E.
    replace (2 ^ k) with (2 ^ (52 - Z.log2 z) * 2 ^ (k - (52 - Z.log2 z))) by (rewrite <- Z.pow_add_r by lia; f_equal; lia).
    rewrite Z.mul_assoc. apply round_aux_exact; lia.
Qed.

Lemma f64_of_N_exact n : (0 < n < 2 ^ 53)%N -> f64_of_N n = exact_f64 (Z.of_N n).
Proof.
  intros Hn. pose proof (normalize_exact (Z.of_N n) 0 ltac:(lia) ltac:(lia)) as H.
  by rewrite Z.pow_0_r, Z.mul_1_r in H.
Qed.

(** Doubles add counts exactly. *)
Lemma f64_add_counts a b : (a + b < 2 ^ 53)%N -> f64_add (f64_of_N a) (f64_of_N b) = f64_of_N (a + b).
Proof.
  intros Hab. destruct (N.eq_dec a 0) as [->|Ha].
  { destruct (N.eq_dec b 0) as [->|Hb]; [done|]. rewrite (f64_of_N_exact b), (f64_of_N_exact (0 + b)) by lia. done. }
  destruct (N.eq_dec b 0) as [->|Hb].
  { rewrite N.add_0_r, (f64_of_N_exact a) by lia. done. }
  rewrite !f64_of_N_exact by lia. rewrite N2Z.inj_add. unfold f64_add, exact_f64 at 1 2, SFadd.
  pose proof (log2_bound (Z.of_N a) ltac:(lia)) as La. pose proof (log2_bound (Z.of_N b) ltac:(lia)) as Lb.
  assert (forall x, 0 < x < 2 ^ 53 -> 0 < x * 2 ^ (52 - Z.log2 x)) as Hpos.
  { intros x Hx. pose proof (log2_bound x Hx). apply Z.mul_pos_pos; [lia|apply Z.pow_pos_nonneg; lia]. }
  set (ez := Z.min (Z.log2 (Z.of_N a) - 52) (Z.log2 (Z.of_N b) - 52)).
  assert (forall x, 0 < x < 2 ^ 53 -> ez <= Z.log2 x - 52 ->
    Zpos (fst (shl_align (Z.to_pos (x * 2 ^ (52 - Z.log2 x))) (Z.log2 x - 52) ez)) = x * 2 ^ (- ez)) as Hal.
  { intros x Hx Hle. pose proof (log2_bound x Hx). pose proof (Hpos x Hx).
    rewrite shl_align_left by done. cbn [fst]. rewrite Z2Pos.id by (apply Z.mul_pos_pos; [lia|apply Z.pow_pos_nonneg; lia]).
    rewrite Z2Pos.id by done. rewrite <- Z.mul_assoc, <- Z.pow_add_r by lia. f_equal. f_equal. lia. }
  cbn [cond_Zopp].
  rewrite !Hal by lia. rewrite <- Z.mul_add_distr_r.
  replace ez with (- - ez) at 2 by lia. apply normalize_exact; lia.
Qed.

Lemma f64_of_bool_add n (b : bool) : (N.of_nat n + 1 < 2 ^ 53)%N ->
  f64_add (f64_of_nat n) (f64_of_bool b) = f64_of_nat (if b then S n else n).
Proof.
  intros Hn. unfold f64_of_nat, f64_of_bool. rewrite f64_add_counts by (destruct b; lia).
  f_equal. destruct b; lia.
Qed.

(** ** What is never a NaN, and a number minus itself *)

Lemma round_even_nonneg m l : 0 <= m -> 0 <= round_nearest_even m l.
Proof. intros Hm. destruct l as [|[]]; simpl; try lia. destruct (Z.even m); lia. Qed.

Lemma shr_nonneg prec emax m e l : 0 <= m -> 0 <= shr_m (fst (shr_fexp prec emax m e l)).
Proof.
  intros Hm. unfold shr_fexp, shr. set (n := _ - e).
  assert (0 <= shr_m (shr_record_of_loc m l)) as H by (by destruct l as [|[]]).
  destruct n as [|p|p]; try exact H. cbn [fst]. rewrite iter_pos_nat.
  induction (Pos.to_nat p) as [|k IH]; [exact H|]. simpl.
  destruct (Nat.iter k shr_1 (shr_record_of_loc m l)) as [[|[q|q|]|q] r s]; simpl in *; lia.
Qed.

Lemma round_aux_not_nan s m e l : 0 <= m -> binary_round_aux 53 1024 s m e l <> S754_nan.
Proof.
  intros Hm. unfold binary_round_aux.
  pose proof (shr_nonneg 53 1024 m e l Hm) as H1. destruct (shr_fexp 53 1024 m e l) as [r1 e1]. simpl in H1.
  pose proof (shr_nonneg 53 1024 _ e1 loc_Exact (round_even_nonneg (shr_m r1) (loc_of_shr_record r1) H1)) as H2.
  destruct (shr_fexp 53 1024 _ e1 loc_Exact) as [r2 e2]. simpl in H2.
  destruct (shr_m r2); try done. by destruct (Z.leb _ _).
Qed.

Lemma align_nonneg m k : 0 <= match k with Z0 => Zpos m | Zpos _ => Z.shiftl (Zpos m) k | Zneg _ => 0 end.
Proof.
  destruct k; try lia. rewrite Z.shiftl_mul_pow2 by lia. apply Z.mul_nonneg_nonneg; [lia|apply Z.pow_nonneg; lia].
Qed.

Lemma f64_div_not_nan x n : x <> S754_nan -> (0 < n < 2 ^ 53)%N -> f64_div x (f64_of_N n) <> S754_nan.
Proof.
  intros Hx Hn. rewrite f64_of_N_exact by done. unfold f64_div, SFdiv, exact_f64.
  destruct x as [[]|[]| |s m e]; try done.
  set (d := Z.to_pos _). unfold SFdiv_core_binary. set (m' := match _ with Zpos _ => _ | _ => _ end).
  assert (0 <= m') as Hm'.
  { apply align_nonneg. }
  pose proof (Z_div_mod m' (Zpos d) ltac:(lia)) as Hd.
  destruct (Z.div_eucl m' (Zpos d)) as [q r]. destruct Hd as [Hq Hr].
  apply round_aux_not_nan. nia.
Qed.

Definition is_finite (x : f64) : bool :=
  match x with S754_zero _ | S754_finite _ _ _ => true | _ => false end.

Lemma f64_sub_self x : f64_sub x x = if is_finite x then f64_zero else S754_nan.
Proof.
  destruct x as [[]|[]| |s m e]; try done. unfold f64_sub, SFsub. by rewrite Z.sub_diag.
Qed.
