(* ===== verification/Json.v ===== *)
(** JSON values as the components read and build them ([serde_json::Value]). *)
From stdpp Require Import base option list strings pretty.
From S2P Require Import Prelude.

(** [serde_json::Value], numbers that are no [u64] by their text. *)
Inductive json : Type :=
| JNull
| JBool (b : bool)
| JU64 (n : N)
| JNumber (text : string)
| JString (s : string)
| JArray (l : list json)
| JObject (m : list (string * json)).

Definition json_get (v : json) (key : string) : option json :=
  match v with
  | JObject m => snd <$> head (filter (fun kv => kv.1 = key) m)
  | _ => None
  end.
Definition as_u64 (v : json) : option N := match v with JU64 n => Some n | _ => None end.
Definition as_text (v : json) : option string := match v with JString s => Some s | _ => None end.
Definition as_array (v : json) : option (list json) := match v with JArray l => Some l | _ => None end.
Definition as_bool (v : json) : option bool := match v with JBool b => Some b | _ => None end.

(** [json!(n)] of a signed integer. *)
Definition json_int (z : Z) : json :=
  if decide (0 <= z)%Z then JU64 (Z.to_N z) else JNumber ("-" +:+ pretty (Z.to_N (- z))).

(** ** JSON text: serde_json's serializer and parser *)
Class JsonText : Type := { json_text : json -> string; json_of_text : string -> option json }.
