(* ===== verification/Core.v ===== *)
(** Identifiers, the error taxonomy and the storage keys of [rollout-core]
    (src/crates/rollout-core/src/{ids,errors}.rs and traits/storage.rs). *)
From stdpp Require Import base option list gmap strings pretty.
From S2P Require Import Prelude.

(** ** Errors (errors.rs).  A [Duration] is its number of milliseconds. *)
Inductive RetryHint : Type :=
| Never
| After (delay : N)
| Backoff (base_delay max_delay : N).

Inductive RecoverableError : Type :=
| Throttled (hint : RetryHint)
| Transient (msg : string) (hint : RetryHint)
| Preempted (hint : RetryHint).

Inductive FatalError : Type :=
| ConfigInvalid (msg : string)
| SchemaViolation (msg : string)
| PluginContract (plugin msg : string)
| Internal (msg : string).

Inductive CoreError : Type :=
| Recoverable (e : RecoverableError)
| Fatal (e : FatalError).

#[global] Instance RetryHint_eq_dec : EqDecision RetryHint.
Proof. solve_decision. Defined.
#[global] Instance RecoverableError_eq_dec : EqDecision RecoverableError.
Proof. solve_decision. Defined.
#[global] Instance FatalError_eq_dec : EqDecision FatalError.
Proof. solve_decision. Defined.
#[global] Instance CoreError_eq_dec : EqDecision CoreError.
Proof. solve_decision. Defined.

(** [{:?}] of a [Duration] of whole milliseconds: the fraction without trailing zeros. *)
Definition pad3 (n : N) : string :=
  (if decide (n < 10)%N then "00" else if decide (n < 100)%N then "0" else "") +:+ pretty n.
Definition fraction_of (ms : N) : string :=
  if decide (ms = 0)%N then ""
  else if decide (ms mod 100 = 0)%N then "." +:+ pretty (ms / 100)%N
  else if decide (ms mod 10 = 0)%N then "." +:+ (if decide (ms < 100)%N then "0" else "") +:+ pretty (ms / 10)%N
  else "." +:+ pad3 ms.
Definition duration_debug (ms : N) : string :=
  if decide (ms = 0)%N then "0ns"
  else if decide (ms < 1000)%N then pretty ms +:+ "ms"
  else pretty (ms / 1000)%N +:+ fraction_of (ms mod 1000) +:+ "s".

Definition hint_debug (h : RetryHint) : string :=
  match h with
  | Never => "Never"
  | After d => "After(" +:+ duration_debug d +:+ ")"
  | Backoff b m => "Backoff { base: " +:+ duration_debug b +:+ ", max: " +:+ duration_debug m +:+ " }"
  end.

(** [to_string] of the errors (thiserror's [#[error]] attributes). *)
Definition recoverable_to_string (e : RecoverableError) : string :=
  match e with
  | Throttled hint => "throttled: retry " +:+ hint_debug hint
  | Transient msg _ => "transient: " +:+ msg
  | Preempted _ => "preempted"
  end.
Definition fatal_to_string (e : FatalError) : string :=
  match e with
  | ConfigInvalid msg => "config invalid: " +:+ msg
  | SchemaViolation msg => "schema violation: " +:+ msg
  | PluginContract plugin msg => "plugin contract violation: " +:+ plugin +:+ ": " +:+ msg
  | Internal msg => "internal: " +:+ msg
  end.
Definition CoreError_to_string (e : CoreError) : string :=
  match e with
  | Recoverable e => "recoverable: " +:+ recoverable_to_string e
  | Fatal e => "fatal: " +:+ fatal_to_string e
  end.

Example duration_1500 : duration_debug 1500 = "1.5s".
Proof. reflexivity. Qed.
Example duration_62050 : duration_debug 62050 = "62.05s".
Proof. reflexivity. Qed.

(** The [internal] helper every storage client defines for itself. *)
Definition internal (msg : string) : CoreError := Fatal (Internal msg).

(** ** Identifiers (ids.rs).  A ULID is its 128-bit value, a [ContentId] its
    32 digest bytes. *)
Abbreviation Ulid := N.
Abbreviation RunId := N.
Abbreviation WorkerId := N.
Abbreviation ContentId := bytes.

(** The text form of ULIDs, a third-party crate: printing then parsing. *)
Class UlidText : Type := {
  ulid_string : Ulid -> string;
  ulid_parse : string -> option Ulid;
  ulid_parse_string u : ulid_parse (ulid_string u) = Some u;
}.

(** A call that may also unwind: an error, or a panic. *)
Inductive failure : Type := Failure (e : CoreError) | Unwound (msg : string).

Definition lift_err {W A} (m : M W CoreError A) : M W failure A := fun w =>
  match m w with
  | (Ok a, w') => (Ok a, w')
  | (Err e, w') => (Err (Failure e), w')
  end.

Lemma wp_lift_err {W A} (m : M W CoreError A) (Q : result failure A -> W -> Prop) w :
  wp m (fun r w' => Q (match r with Ok a => Ok a | Err e => Err (Failure e) end) w') w -> wp (lift_err m) Q w.
Proof. unfold wp, lift_err. by destruct (m w) as [[a|e] w']. Qed.

(** ULIDs as a unary text, enough for the examples. *)
Fixpoint parse_ones (s : string) : option nat :=
  match s with
  | EmptyString => Some 0
  | String c s' => if decide (c = Ascii.ascii_of_nat 49) then S <$> parse_ones s' else None
  end.
Fixpoint ones (n : nat) : string := match n with O => "" | S n' => String (Ascii.ascii_of_nat 49) (ones n') end.

Lemma parse_ones_ones n : parse_ones (ones n) = Some n.
Proof. induction n as [|n IH]; simpl; [done|]. by rewrite IH. Qed.

Lemma unary_parse (u : N) : N.of_nat <$> parse_ones (ones (N.to_nat u)) = Some u.
Proof. rewrite parse_ones_ones. simpl. by rewrite N2Nat.id. Qed.

Definition unary_ulids : UlidText := {|
  ulid_string u := ones (N.to_nat u);
  ulid_parse s := N.of_nat <$> parse_ones s;
  ulid_parse_string := unary_parse;
|}.

Definition ContentId_wf (id : ContentId) : Prop := length id = 32.

(** [write!(f, "{b:02x}")] for one byte. *)
Definition hex_digit (n : N) : byte :=
  default "0"%byte (Byte.of_N (if decide (n < 10)%N then 48 + n else 87 + n)%N).

Definition hex_byte (b : byte) : bytes :=
  [hex_digit (Byte.to_N b / 16); hex_digit (Byte.to_N b mod 16)].

(** [impl Display for ContentId]: the bytes of the printed string. *)
Definition ContentId_display (id : ContentId) : bytes := id ≫= hex_byte.

(** [char::to_digit(16)] on an ASCII byte. *)
Definition to_digit16 (b : byte) : option N :=
  let n := Byte.to_N b in
  if decide (48 <= n <= 57)%N then Some (n - 48)%N
  else if decide (97 <= n <= 102)%N then Some (n - 87)%N
  else if decide (65 <= n <= 70)%N then Some (n - 55)%N
  else None.

(** [u8::from_str_radix(src, 16)]: a lone sign is no digit, one leading ['+']
    is skipped, then every byte must be a digit and the value fit a [u8]. *)
Fixpoint parse_digits (acc : N) (src : bytes) : result string N :=
  match src with
  | [] => Ok acc
  | b :: src' =>
      match to_digit16 b with
      | None => Err "invalid digit found in string"
      | Some d =>
          let acc' := (acc * 16 + d)%N in
          if decide (acc' < 256)%N then parse_digits acc' src'
          else Err "number too large to fit in target type"
      end
  end.

Definition u8_from_str_radix16 (src : bytes) : result string N :=
  match src with
  | [] => Err "cannot parse integer from empty string"
  | [b] => if decide (b = "+"%byte \/ b = "-"%byte) then Err "invalid digit found in string"
           else parse_digits 0 [b]
  | b :: src' => if decide (b = "+"%byte) then parse_digits 0 src'
                 else parse_digits 0 (b :: src')
  end.

(** [str::is_char_boundary] on the UTF-8 bytes of a string. *)
Definition is_char_boundary (s : bytes) (i : nat) : bool :=
  match s !! i with
  | None => bool_decide (i = length s)
  | Some b => negb (bool_decide (128 <= Byte.to_N b < 192)%N)
  end.

(** [&s[a..b]]: panics off a character boundary or out of range. *)
Definition str_slice (s : bytes) (a b : nat) : outcome bytes :=
  if (bool_decide (a <= b) && is_char_boundary s a && is_char_boundary s b)%bool
  then Value (take (b - a) (drop a s))
  else Panic "byte index is not a char boundary".

(** The loop [for i in 0..32] of [from_str], from index [i] with [fuel] rounds left. *)
Fixpoint ContentId_from_loop (s : bytes) (i fuel : nat) (out : bytes)
  : outcome (result string ContentId) :=
  match fuel with
  | O => Value (Ok out)
  | S fuel' =>
      match str_slice s (i * 2) (i * 2 + 2) with
      | Panic m => Panic m
      | Value digits =>
          match u8_from_str_radix16 digits with
          | Err e => Value (Err e)
          | Ok n => ContentId_from_loop s (S i) fuel' (out ++ [default x00 (Byte.of_N n)])
          end
      end
  end.

(** [impl FromStr for ContentId], on the UTF-8 bytes of the string. *)
Definition ContentId_from_str (s : bytes) : outcome (result string ContentId) :=
  if decide (length s <> 64) then
    Value (Err ("ContentId: expected 64 hex chars, got " +:+ pretty (N.of_nat (length s))))
  else ContentId_from_loop s 0 32 [].

(** ** 128-bit identifiers and their sixteen bytes *)
(** [u128::from_be_bytes]. *)
Definition from_be_bytes (b : bytes) : N := fold_left (fun acc x => acc * 256 + Byte.to_N x)%N b 0%N.
(** [u128::to_be_bytes], of [k] bytes. *)
Fixpoint be_bytes (k : nat) (n : N) : bytes :=
  match k with O => [] | S k' => be_bytes k' (n / 256) ++ [default x00 (Byte.of_N (n mod 256))] end.
Definition to_be_bytes (n : N) : bytes := be_bytes 16 n.

Lemma from_be_snoc l x : from_be_bytes (l ++ [x]) = (from_be_bytes l * 256 + Byte.to_N x)%N.
Proof. unfold from_be_bytes. by rewrite fold_left_app. Qed.

Lemma byte_of_mod n : Byte.to_N (default x00 (Byte.of_N (n mod 256))) = (n mod 256)%N.
Proof.
  pose proof (N.mod_upper_bound n 256 ltac:(done)) as Hlt.
  destruct (Byte.of_N (n mod 256)) as [b|] eqn:E; simpl; [by apply Byte.to_of_N|].
  apply Byte.of_N_None_iff in E. lia.
Qed.

Lemma from_be_bytes_be k n : (n < 256 ^ N.of_nat k)%N -> from_be_bytes (be_bytes k n) = n.
Proof.
  revert n. induction k as [|k IH]; intros n Hn.
  - change (256 ^ N.of_nat 0)%N with 1%N in Hn. simpl. unfold from_be_bytes. simpl. lia.
  - cbn [be_bytes]. rewrite from_be_snoc, byte_of_mod, IH.
    + rewrite (N.div_mod n 256) at 3 by done. lia.
    + rewrite Nat2N.inj_succ, N.pow_succ_r' in Hn. apply N.Div0.div_lt_upper_bound. lia.
Qed.

Lemma be_bytes_inj k a b : (a < 256 ^ N.of_nat k)%N -> (b < 256 ^ N.of_nat k)%N -> be_bytes k a = be_bytes k b -> a = b.
Proof. intros Ha Hb H. by rewrite <- (from_be_bytes_be k a), <- (from_be_bytes_be k b), H. Qed.

(** ** Storage keys (traits/storage.rs).  A [SmolStr] is the string of its bytes. *)
Record StorageKey : Type := mkKey {
  namespace : string;
  key_run : option RunId;
  path : list string;
}.

Record KeyRange : Type := mkRange {
  prefix : StorageKey;
  limit : option nat;
}.

Inductive StorageEvent : Type :=
| PutEvent (key : StorageKey)
| DeleteEvent (key : StorageKey).

#[global] Instance StorageKey_eq_dec : EqDecision StorageKey.
Proof. solve_decision. Defined.
#[global] Program Instance StorageKey_countable : Countable StorageKey :=
  inj_countable' (fun k => (namespace k, key_run k, path k))
                 (fun '(n, r, p) => mkKey n r p) _.
Next Obligation. by intros []. Qed.
#[global] Instance StorageEvent_eq_dec : EqDecision StorageEvent.
Proof. solve_decision. Defined.

(** The key an event is about ([publish] matches on it). *)
Definition event_key (e : StorageEvent) : StorageKey :=
  match e with PutEvent k | DeleteEvent k => k end.

(** [Vec::starts_with]. *)
Fixpoint starts_with (l p : list string) : bool :=
  match p, l with
  | [], _ => true
  | x :: p', y :: l' => bool_decide (y = x) && starts_with l' p'
  | _ :: _, [] => false
  end.

(** [(0x20..=0x7E).contains(&b)]. *)
Definition printable (b : byte) : bool := bool_decide (32 <= Byte.to_N b <= 126)%N.

Definition postgres_msg (idx : nat) (b : byte) : string :=
  "StorageKey path[" +:+ pretty (N.of_nat idx) +:+ "] contains byte 0x"
  +:+ String.string_of_list_byte (hex_byte b)
  +:+ " outside printable ASCII (0x20-0x7E); hex-encode binary IDs for the Postgres backend (see rollout-core::traits::storage StorageKey rustdoc)".

(** The two nested [for] loops of [validate_for_postgres]: the first byte out of
    range returns at once. *)
Fixpoint validate_component (idx : nat) (bs : bytes) : result CoreError unit :=
  match bs with
  | [] => Ok tt
  | b :: bs' => if negb (printable b) then Err (Fatal (ConfigInvalid (postgres_msg idx b)))
                else validate_component idx bs'
  end.

Fixpoint validate_path (idx : nat) (p : list string) : result CoreError unit :=
  match p with
  | [] => Ok tt
  | c :: p' => let? _ := validate_component idx (String.list_byte_of_string c) in
               validate_path (S idx) p'
  end.

Definition validate_for_postgres (k : StorageKey) : result CoreError unit :=
  validate_path 0 (path k).

(** ** Lemmas *)

Lemma starts_with_prefix l p : starts_with l p = true <-> p `prefix_of` l.
Proof.
  revert l. induction p as [|x p IH]; intros [|y l]; simpl.
  - split; [by exists [] | done].
  - split; [intros _; by exists (y :: l) | done].
  - split; [done | by intros ?%prefix_nil_not].
  - rewrite andb_true_iff, bool_decide_eq_true, IH. split.
    + intros [-> H]. by apply prefix_cons.
    + intros H. split; [symmetry; by eapply prefix_cons_inv_1 | by eapply prefix_cons_inv_2].
Qed.

Lemma hex_byte_digits (b : byte) :
  u8_from_str_radix16 (hex_byte b) = Ok (Byte.to_N b) /\
  Forall (fun c => Byte.to_N c < 128)%N (hex_byte b).
Proof. destruct b; vm_compute; repeat constructor. Qed.

Lemma hex_byte_length b : length (hex_byte b) = 2.
Proof. done. Qed.

Lemma ContentId_display_cons b id :
  ContentId_display (b :: id) = hex_byte b ++ ContentId_display id.
Proof. done. Qed.

Lemma ContentId_display_app id1 id2 :
  ContentId_display (id1 ++ id2) = ContentId_display id1 ++ ContentId_display id2.
Proof. unfold ContentId_display. apply bind_app. Qed.

Lemma ContentId_display_length id : length (ContentId_display id) = 2 * length id.
Proof.
  induction id as [|b id IH]; [done|].
  rewrite ContentId_display_cons, length_app, IH, hex_byte_length. simpl. lia.
Qed.

Lemma ContentId_display_ascii id :
  Forall (fun c => Byte.to_N c < 128)%N (ContentId_display id).
Proof.
  induction id as [|b id IH]; [constructor|].
  rewrite ContentId_display_cons. apply Forall_app. split; [apply hex_byte_digits | done].
Qed.

(** Every index of an ASCII string is a character boundary. *)
Lemma is_char_boundary_ascii s i :
  Forall (fun c => Byte.to_N c < 128)%N s -> i <= length s -> is_char_boundary s i = true.
Proof.
  intros Ha Hi. unfold is_char_boundary. destruct (s !! i) as [b|] eqn:E.
  - eapply Forall_lookup_1 in Ha; [|exact E]. simpl in Ha.
    apply negb_true_iff, bool_decide_eq_false. lia.
  - apply lookup_ge_None_1 in E. apply bool_decide_eq_true. lia.
Qed.

Lemma ContentId_from_loop_display pre id :
  ContentId_from_loop (ContentId_display (pre ++ id)) (length pre) (length id) pre
  = Value (Ok (pre ++ id)).
Proof.
  revert pre. induction id as [|b id IH]; intros pre; simpl.
  { by rewrite app_nil_r. }
  pose proof (ContentId_display_ascii (pre ++ b :: id)) as Ha.
  pose proof (ContentId_display_length (pre ++ b :: id)) as Hl.
  rewrite length_app in Hl; simpl in Hl.
  unfold str_slice.
  rewrite (is_char_boundary_ascii _ (length pre * 2)) by (done || lia).
  rewrite (is_char_boundary_ascii _ (length pre * 2 + 2)) by (done || lia).
  rewrite bool_decide_eq_true_2 by lia. simpl.
  replace (length pre * 2 + 2 - length pre * 2) with 2 by lia.
  rewrite ContentId_display_app at 1.
  rewrite drop_app_length' by (rewrite ContentId_display_length; lia).
  rewrite ContentId_display_cons, take_app_length' by done.
  rewrite (proj1 (hex_byte_digits b)), Byte.of_to_N. simpl.
  specialize (IH (pre ++ [b])). rewrite length_app in IH. simpl in IH.
  rewrite Nat.add_1_r, <- app_assoc in IH. exact IH.
Qed.

Lemma hex_byte_inj b b' : hex_byte b = hex_byte b' -> b = b'.
Proof.
  intros Hb. pose proof (proj1 (hex_byte_digits b)) as H1.
  rewrite Hb, (proj1 (hex_byte_digits b')) in H1. injection H1 as H1.
  pose proof (Byte.of_to_N b) as H2. rewrite <- H1, Byte.of_to_N in H2. congruence.
Qed.

Lemma ContentId_display_inj id id' : ContentId_display id = ContentId_display id' -> id = id'.
Proof.
  revert id'. induction id as [|b id IH]; intros [|b' id'] Heq; try done.
  rewrite !ContentId_display_cons in Heq. apply app_inj_1 in Heq as [Hb Hid]; [|done].
  apply hex_byte_inj in Hb. apply IH in Hid. congruence.
Qed.

(** [id.to_string()]. *)
Definition ContentId_to_string (id : ContentId) : string :=
  String.string_of_list_byte (ContentId_display id).

Lemma ContentId_to_string_inj id id' : ContentId_to_string id = ContentId_to_string id' -> id = id'.
Proof.
  unfold ContentId_to_string. intros Heq. apply ContentId_display_inj.
  rewrite <- (String.list_byte_of_string_of_list_byte (ContentId_display id)), Heq.
  apply String.list_byte_of_string_of_list_byte.
Qed.

Lemma validate_component_ok idx bs :
  validate_component idx bs = Ok tt <-> Forall (fun b => printable b = true) bs.
Proof.
  induction bs as [|b bs IH]; simpl; [split; [constructor|done]|].
  rewrite Forall_cons. destruct (printable b) eqn:E; simpl; rewrite ?IH; naive_solver.
Qed.

Lemma validate_path_ok idx p :
  validate_path idx p = Ok tt <->
  Forall (fun c => Forall (fun b => printable b = true) (String.list_byte_of_string c)) p.
Proof.
  revert idx. induction p as [|c p IH]; intros idx; simpl; [split; [constructor|done]|].
  rewrite Forall_cons, <- (IH (S idx)), <- (validate_component_ok idx).
  destruct (validate_component idx _) as [[]|e]; simpl; naive_solver.
Qed.

Lemma validate_component_err idx bs e :
  validate_component idx bs = Err e ->
  exists b, b ∈ bs /\ printable b = false /\ e = Fatal (ConfigInvalid (postgres_msg idx b)).
Proof.
  induction bs as [|b bs IH]; simpl; [done|].
  destruct (printable b) eqn:E; simpl.
  - intros (b' & ? & ?)%IH. exists b'. set_solver.
  - intros [= <-]. exists b. set_solver.
Qed.

Lemma validate_path_err idx p e :
  validate_path idx p = Err e ->
  exists i c b, p !! i = Some c /\ b ∈ String.list_byte_of_string c /\ printable b = false /\
    e = Fatal (ConfigInvalid (postgres_msg (idx + i) b)).
Proof.
  revert idx. induction p as [|c p IH]; intros idx; simpl; [done|].
  destruct (validate_component idx _) as [[]|e'] eqn:E; simpl.
  - intros (i & c' & b & Hl & ? & ? & ->)%IH. exists (S i), c', b. simpl.
    rewrite Nat.add_succ_r. auto.
  - intros [= <-]. apply validate_component_err in E as (b & ? & ? & ->).
    exists 0, c, b. rewrite Nat.add_0_r. auto.
Qed.

(** ** Properties *)

(** Parsing the printed form of a content id gives the id back: [from_str]
    inverts [Display], for every 32-byte digest, without a panic. *)
Theorem ContentId_display_from_str (id : ContentId) (Hwf : ContentId_wf id) :
  ContentId_from_str (ContentId_display id) = Value (Ok id).
Proof.
  unfold ContentId_wf in Hwf. unfold ContentId_from_str.
  rewrite decide_False by (rewrite ContentId_display_length; lia).
  pose proof (ContentId_from_loop_display [] id) as H. by rewrite Hwf in H.
Qed.

Lemma ContentId_display_from_str_witness :
  ContentId_wf (replicate 32 xa7) /\
  ContentId_from_str (ContentId_display (replicate 32 xa7)) = Value (Ok (replicate 32 xa7)).
Proof. split; [reflexivity | apply ContentId_display_from_str; reflexivity]. Defined.

(** [validate_for_postgres] accepts a key exactly when every byte of every
    path component is printable ASCII, and what it refuses it refuses with a
    [ConfigInvalid] that names an offending component and byte. *)
Theorem validate_for_postgres_spec (k : StorageKey) :
  match validate_for_postgres k with
  | Ok _ => forall c b, c ∈ path k -> b ∈ String.list_byte_of_string c -> (32 <= Byte.to_N b <= 126)%N
  | Err e => exists i c b, path k !! i = Some c /\ b ∈ String.list_byte_of_string c /\
               ~ (32 <= Byte.to_N b <= 126)%N /\ e = Fatal (ConfigInvalid (postgres_msg i b))
  end.
Proof.
  unfold validate_for_postgres. destruct (validate_path 0 (path k)) as [[]|e] eqn:E.
  - apply validate_path_ok in E. intros c b Hc Hb.
    rewrite Forall_forall in E. specialize (E c Hc). rewrite Forall_forall in E.
    specialize (E b Hb). by apply bool_decide_eq_true in E.
  - apply validate_path_err in E as (i & c & b & ? & ? & Hp & ->).
    exists i, c, b. repeat split; auto. by apply bool_decide_eq_false in Hp.
Qed.
