(* ===== verification/Backend.v ===== *)
(** What a model backend is given and answers (rollout-core/src/traits/backend.rs and
    the optimizer settings of config/training.rs): the interface between the training
    algorithms or the batch command and the backends. *)
From stdpp Require Import base option list strings.
From S2P Require Import Prelude.
From S2P Require Import Float.
From S2P Require Import Core.

(** ** Inference *)
Record ModelRef : Type := mkModel { uri : string; model_content : option ContentId; tokenizer : option string }.
#[global] Instance ModelRef_eq_dec : EqDecision ModelRef.
Proof. solve_decision. Defined.

(** A prompt is its text. *)
Abbreviation Prompt := string.
Record Completion : Type := mkCompletion { text : string; finish_reason : string; prompt_tokens : N; completion_tokens : N }.
#[global] Instance Completion_eq_dec : EqDecision Completion.
Proof. solve_decision. Defined.

Record SamplingParams : Type := mkSampling {
  temperature : f32; top_p : f32; top_k : Z; max_tokens : N; sampling_seed : option N; stop : list string; stream : bool;
}.
Definition SamplingParams_default : SamplingParams :=
  mkSampling (f32_of_N 1) (f32_of_N 1) (-1) 16 None [] false.

Class InferenceBackend (B : Type) : Type := {
  init : ModelRef -> M B CoreError unit;
  generate : list Prompt -> SamplingParams -> M B CoreError (list Completion);
  model_id : B -> ContentId;
  shutdown : M B CoreError unit;
}.

(** ** Training *)
Inductive OptimizerKind : Type := AdamW | Adam | Sgd.
Inductive LrSchedule : Type := Constant | Linear | Cosine.
Record OptimizerSettings : Type := mkOptimizer {
  opt_kind : OptimizerKind; lr : f64; weight_decay : f64; betas : f64 * f64; eps : f64;
  warmup_steps : N; schedule : LrSchedule;
}.
Inductive LossScope : Type := AssistantOnly | Full | Custom.
Record TrainBatch : Type := mkBatch { n_sequences : N; n_tokens : N; rows : list string }.
(** [GradHandle] carries only its step. *)
Abbreviation GradHandle := N.
Record LossOutput : Type := mkLoss { loss : f32; grad_handle : GradHandle; loss_tokens : N }.

Class TrainableBackend (B : Type) : Type := {
  set_train_mode : bool -> M B CoreError unit;
  forward_with_loss : TrainBatch -> LossScope -> M B CoreError LossOutput;
  optimizer_step : GradHandle -> OptimizerSettings -> M B CoreError unit;
  save_weights : M B CoreError ContentId;
  load_weights : ContentId -> M B CoreError unit;
}.

