(* ===== verification/Storage.v ===== *)
(** The [Storage] / [StorageTxn] traits (traits/storage.rs) as an interface with
    laws, the reference implementation the laws describe, and the [Codec]
    interface of the serde encodings the clients layer on top. *)
From stdpp Require Import base option list gmap strings.
From S2P Require Import Prelude.
From S2P Require Import Core.

Abbreviation store := (gmap StorageKey bytes).

(** The names of the namespaces every backend serves. *)
Definition core_namespaces : list string :=
  ["runs"; "workers"; "heartbeats"; "queue"; "plugins"; "cloudlocal_queue"; "infer";
   "snapshots"; "coordinator_lease"; "epoch"; "work"; "queue_items"; "eval_reports"].

Definition known (k : StorageKey) : Prop := namespace k ∈ core_namespaces.

(** What a scan with a run-scoped prefix selects, on every backend. *)
Definition in_range (p k : StorageKey) : bool :=
  bool_decide (namespace k = namespace p) && bool_decide (key_run k = key_run p)
  && starts_with (path k) (path p).

(** [W] is the shared storage handle with what is behind it, [T] a transaction.
    A transaction is exclusive: no other writer runs between [begin] and
    [commit], so it is passed as a value and dropping it aborts it. *)
Class Storage (W T : Type) : Type := {
  contents : W -> store;
  published : W -> list StorageEvent;
  healthy : W -> Prop;
  view : T -> store;
  pending : T -> list StorageEvent;
  begin_txn : M W CoreError T;
  get_bytes : StorageKey -> M W CoreError (option bytes);
  scan_bytes : KeyRange -> M W CoreError (list (StorageKey * bytes));
  put_bytes : T -> StorageKey -> bytes -> M W CoreError T;
  delete_key : T -> StorageKey -> M W CoreError T;
  cas_bytes : T -> StorageKey -> option bytes -> option bytes -> M W CoreError (bool * T);
  commit : T -> M W CoreError unit;
  abort : T -> M W CoreError unit;
}.

(** What the call left behind when it does not commit: the committed contents and
    the published events are as before, and a backend that had no fault to report
    has none afterwards. *)
Definition same `{Storage W T} (w w' : W) : Prop :=
  contents w' = contents w /\ published w' = published w /\ (healthy w -> healthy w').

(** A result of [Err] is a fault of the backend. *)
Definition ok_or_fault `{Storage W T} {A} (w : W) (r : result CoreError A) (P : A -> Prop) : Prop :=
  match r with Ok a => P a | Err _ => ~ healthy w end.

(** What a staged [cas_bytes] does to the view of the transaction. *)
Definition cas_view (m : store) (k : StorageKey) (expected new : option bytes) : bool * store :=
  if decide (m !! k = expected) then
    (true, match new with Some v => <[k := v]> m | None => delete k m end)
  else (false, m).

(** The events a successful [cas_bytes] adds: none for a no-op. *)
Definition cas_events (m : store) (k : StorageKey) (expected new : option bytes) : list StorageEvent :=
  if decide (m !! k = expected) then
    match new, m !! k with
    | Some _, _ => [PutEvent k]
    | None, Some _ => [DeleteEvent k]
    | None, None => []
    end
  else [].

Definition delete_events (m : store) (k : StorageKey) : list StorageEvent :=
  match m !! k with Some _ => [DeleteEvent k] | None => [] end.

Class StorageLaws (W T : Type) `{Storage W T} : Prop := {
  begin_law w :
    wp begin_txn (fun r w' => same w w' /\
      ok_or_fault w r (fun t => view t = contents w /\ pending t = [])) w;
  get_law k w : known k ->
    wp (get_bytes k) (fun r w' => same w w' /\ ok_or_fault w r (fun v => v = contents w !! k)) w;
  scan_law p w : known p -> is_Some (key_run p) ->
    wp (scan_bytes (mkRange p None)) (fun r w' => same w w' /\ ok_or_fault w r (fun rows =>
      rows ≡ₚ filter (fun kv => in_range p kv.1 = true) (map_to_list (contents w)))) w;
  (** With no run in the prefix the backends differ (a wildcard or an equality);
      they agree on a namespace all of whose rows have no run. *)
  scan_global_law p w : known p -> key_run p = None ->
    (forall k v, contents w !! k = Some v -> namespace k = namespace p -> key_run k = None) ->
    wp (scan_bytes (mkRange p None)) (fun r w' => same w w' /\ ok_or_fault w r (fun rows =>
      rows ≡ₚ filter (fun kv => in_range p kv.1 = true) (map_to_list (contents w)))) w;
  put_law t k v w : known k ->
    wp (put_bytes t k v) (fun r w' => same w w' /\ ok_or_fault w r (fun t' =>
      view t' = <[k := v]> (view t) /\ pending t' = pending t ++ [PutEvent k])) w;
  delete_law t k w : known k ->
    wp (delete_key t k) (fun r w' => same w w' /\ ok_or_fault w r (fun t' =>
      view t' = delete k (view t) /\ pending t' = pending t ++ delete_events (view t) k)) w;
  cas_law t k e n w : known k ->
    wp (cas_bytes t k e n) (fun r w' => same w w' /\ ok_or_fault w r (fun bt =>
      (bt.1, view bt.2) = cas_view (view t) k e n /\
      pending bt.2 = pending t ++ cas_events (view t) k e n)) w;
  commit_law t w :
    wp (commit t) (fun r w' => (healthy w -> healthy w') /\
      match r with
      | Ok _ => contents w' = view t /\ published w' = published w ++ pending t
      | Err _ => ~ healthy w /\ contents w' = contents w /\ published w' = published w
      end) w;
  abort_law t w :
    wp (abort t) (fun r w' => same w w' /\ ok_or_fault w r (fun _ => True)) w;
}.

(** The embedded backend reads a prefix without a run as a wildcard over the runs. *)
Definition in_all_runs (p k : StorageKey) : bool :=
  bool_decide (namespace k = namespace p) && starts_with (path k) (path p).
Class WildcardScan (W T : Type) `{Storage W T} : Prop := scan_all_law p w : known p -> key_run p = None ->
  wp (scan_bytes (mkRange p None)) (fun r w' => same w w' /\ ok_or_fault w r (fun rows =>
    rows ≡ₚ filter (fun kv => in_all_runs p kv.1 = true) (map_to_list (contents w)))) w.

(** ** Single-row transactions *)
Section rows.
Context `{SL : StorageLaws W T}.

Definition put_row (k : StorageKey) (v : bytes) : M W CoreError unit :=
  let* txn := begin_txn in
  let* txn := put_bytes txn k v in
  commit txn.

Definition delete_row (k : StorageKey) : M W CoreError unit :=
  let* txn := begin_txn in
  let* txn := delete_key txn k in
  commit txn.

Lemma put_row_spec k v w : known k ->
  wp (put_row k v) (fun r w' => contents w' =
    match r with Ok _ => <[k := v]> (contents w) | Err _ => contents w end) w.
Proof.
  intros Hk. unfold put_row. wp_call begin_law. intros [t|e] s1 ((Hc1 & _) & Ht); [destruct Ht as [Hv _]|done].
  wp_call put_law; [done|]. intros [t2|e] s2 ((Hc2 & _) & Ht2); [destruct Ht2 as [Hv2 _]|congruence].
  eapply wp_mono; [apply commit_law|]. intros [[]|e] s3 (_ & Hr); [|by destruct Hr as (_ & -> & _); congruence].
  destruct Hr as [-> _]. congruence.
Qed.

(** A store without faults takes the row. *)
Lemma put_row_healthy k v w : known k -> healthy w ->
  wp (put_row k v) (fun r w' => r = Ok tt /\ healthy w' /\ contents w' = <[k := v]> (contents w)) w.
Proof.
  intros Hk Hh. unfold put_row. wp_call begin_law. intros [t|e] s1 ((Hc1 & _ & Hh1) & Ht); [destruct Ht as [Hv _]|done].
  wp_call put_law; [done|]. intros [t2|e] s2 ((Hc2 & _ & Hh2) & Ht2); [destruct Ht2 as [Hv2 _]|by destruct Ht2; auto].
  eapply wp_mono; [apply commit_law|]. intros [[]|e] s3 (Hh3 & Hr); [|by destruct Hr as [[] _]; auto].
  destruct Hr as [-> _]. split; [done|]. split; [auto|congruence].
Qed.

Lemma delete_row_spec k w : known k ->
  wp (delete_row k) (fun r w' => contents w' =
    match r with Ok _ => delete k (contents w) | Err _ => contents w end) w.
Proof.
  intros Hk. unfold delete_row. wp_call begin_law. intros [t|e] s1 ((Hc1 & _) & Ht); [destruct Ht as [Hv _]|done].
  wp_call delete_law; [done|]. intros [t2|e] s2 ((Hc2 & _) & Ht2); [destruct Ht2 as [Hv2 _]|congruence].
  eapply wp_mono; [apply commit_law|]. intros [[]|e] s3 (_ & Hr); [|by destruct Hr as (_ & -> & _); congruence].
  destruct Hr as [-> _]. congruence.
Qed.
End rows.

(** ** Encodings.  postcard / serde is a parameter: an encoder and a decoder with
    the round trip serde documents; encoding into memory does not fail. *)
Class Codec (A : Type) : Type := {
  encode : A -> bytes;
  decode : bytes -> result string A;
  decode_encode a : decode (encode a) = Ok a;
}.

Lemma encode_inj `{Codec A} (a b : A) : encode a = encode b -> a = b.
Proof.
  intros E. pose proof (decode_encode a) as Ha. rewrite E, decode_encode in Ha. congruence.
Qed.

(** A codec for every countable type, one byte per bit of its code: the instance
    the examples run on. *)
Fixpoint bits_of_pos (p : positive) : bytes :=
  match p with
  | xH => []
  | xO p' => x00 :: bits_of_pos p'
  | xI p' => x01 :: bits_of_pos p'
  end.

Fixpoint pos_of_bits (bs : bytes) : option positive :=
  match bs with
  | [] => Some xH
  | x00 :: bs' => xO <$> pos_of_bits bs'
  | x01 :: bs' => xI <$> pos_of_bits bs'
  | _ => None
  end.

Lemma pos_of_bits_of_pos p : pos_of_bits (bits_of_pos p) = Some p.
Proof. induction p as [p IH|p IH|]; simpl; rewrite ?IH; done. Qed.

Definition bits_encode `{Countable A} (a : A) : bytes := bits_of_pos (countable.encode a).
Definition bits_decode `{Countable A} (bs : bytes) : result string A :=
  match p ← pos_of_bits bs; countable.decode p with
  | Some a => Ok a
  | None => Err "Hit the end of buffer, expected more data"
  end.

Program Definition bits_codec `{Countable A} : Codec A :=
  {| encode := bits_encode; decode := bits_decode |}.
Next Obligation.
  intros A ? ? a. unfold bits_encode, bits_decode.
  by rewrite pos_of_bits_of_pos; simpl; rewrite countable.decode_encode.
Qed.

(** ** The reference implementation: a map, the events published so far, and the
    faults the calls to come will report ([Some e] fails the call). *)
Module Mem.
Record World : Type := mkWorld {
  w_store : store;
  w_events : list StorageEvent;
  w_faults : list (option string);
}.
Record Txn : Type := mkTxn { t_view : store; t_pending : list StorageEvent }.

(** Consume one entry of the fault schedule. *)
Definition step : M World CoreError unit := fun w =>
  match w_faults w with
  | [] => (Ok tt, w)
  | None :: fs => (Ok tt, mkWorld (w_store w) (w_events w) fs)
  | Some e :: fs => (Err (internal e), mkWorld (w_store w) (w_events w) fs)
  end.

Definition read {A} (f : store -> A) : M World CoreError A :=
  let* _ := step in fun w => (Ok (f (w_store w)), w).

Definition get_many (m : store) (p : StorageKey) : list (StorageKey * bytes) :=
  filter (fun kv => in_range p kv.1 = true) (map_to_list m).

#[global] Instance storage : Storage World Txn := {
  contents := w_store;
  published := w_events;
  healthy w := Forall (fun f => f = None) (w_faults w);
  view := t_view;
  pending := t_pending;
  begin_txn := read (fun m => mkTxn m []);
  get_bytes k := read (fun m => m !! k);
  scan_bytes r := read (fun m =>
    let rows := get_many m (prefix r) in
    match limit r with None => rows | Some n => take n rows end);
  put_bytes t k v :=
    let* _ := step in mret (mkTxn (<[k := v]> (t_view t)) (t_pending t ++ [PutEvent k]));
  delete_key t k :=
    let* _ := step in
    mret (mkTxn (delete k (t_view t)) (t_pending t ++ delete_events (t_view t) k));
  cas_bytes t k e n :=
    let* _ := step in
    let '(won, m) := cas_view (t_view t) k e n in
    mret (won, mkTxn m (t_pending t ++ cas_events (t_view t) k e n));
  commit t :=
    let* _ := step in
    fun w => (Ok tt, mkWorld (t_view t) (w_events w ++ t_pending t) (w_faults w));
  abort _ := step;
}.

Lemma step_spec w :
  wp step (fun r w' => same w w' /\ ok_or_fault w r (fun _ => True)) w.
Proof.
  destruct w as [s ev [|[e|] fs]]; unfold wp, same; simpl.
  - auto.
  - split; [|by inversion 1]. repeat split; by inversion 1.
  - repeat split; by inversion 1.
Qed.

Lemma read_spec {A} (f : store -> A) w :
  wp (read f) (fun r w' => same w w' /\ ok_or_fault w r (fun v => v = f (contents w))) w.
Proof.
  unfold read. wp_call step_spec. intros [[]|e] w' [Hs H]; [|done].
  split; [done|]. destruct Hs as [Hc _]. simpl in *. by rewrite Hc.
Qed.

#[global] Instance laws : StorageLaws World Txn.
Proof.
  split.
  - intros w. wp_call @read_spec. intros [t|e] w' [Hs H]; split; auto. by simpl in *; subst.
  - intros k w _. apply read_spec.
  - intros p w _ _. wp_call @read_spec. intros [t|e] w' [Hs H]; split; auto. by simpl in *; subst.
  - intros p w _ _ _. wp_call @read_spec. intros [t|e] w' [Hs H]; split; auto. by simpl in *; subst.
  - intros t k v w _. unfold put_bytes; simpl. wp_call step_spec.
    intros [[]|e] w' [Hs H]; by split.
  - intros t k w _. unfold delete_key; simpl. wp_call step_spec.
    intros [[]|e] w' [Hs H]; by split.
  - intros t k e n w _. unfold cas_bytes; simpl. wp_call step_spec.
    intros [[]|e'] w' [Hs H]; [|by split].
    destruct (cas_view _ k e n) as [won m] eqn:E. apply wp_ret. split; [done|].
    by split; simpl; rewrite ?E.
  - intros t w. unfold commit; simpl. wp_call step_spec.
    intros [[]|e] w' ((Hc & Hp & Hh) & H); unfold wp; simpl in *; rewrite ?Hp; auto.
  - intros t w. apply step_spec.
Qed.
End Mem.
