(* ===== verification/Embedded.v ===== *)
(** The embedded backend (rollout-storage/src/encoding.rs and embedded/): the
    storage traits over a redb file with one table per namespace, the watch
    router, and the proof that it implements the [Storage] interface.

    redb and postcard are not in the repository: a table is a parameter with the
    laws of a sorted byte map, the key encoding a parameter with its round trip. *)
From stdpp Require Import base option list gmap strings.
From S2P Require Import Prelude.
From S2P Require Import Core.
From S2P Require Import Storage.

(** A redb table of byte keys and byte values. *)
Class RedbTable (Tbl : Type) : Type := {
  tbl_empty : Tbl;
  tbl_get : Tbl -> bytes -> option bytes;
  tbl_insert : bytes -> bytes -> Tbl -> Tbl;
  tbl_remove : bytes -> Tbl -> Tbl;
  tbl_iter : Tbl -> list (bytes * bytes);
}.

Class RedbLaws (Tbl : Type) {R : RedbTable Tbl} : Prop := {
  tbl_get_empty k : tbl_get tbl_empty k = None;
  tbl_get_insert t k v k' :
    tbl_get (tbl_insert k v t) k' = if decide (k' = k) then Some v else tbl_get t k';
  tbl_get_remove t k k' :
    tbl_get (tbl_remove k t) k' = if decide (k' = k) then None else tbl_get t k';
  tbl_iter_nodup t : NoDup (fst <$> tbl_iter t);
  tbl_iter_get t k v : (k, v) ∈ tbl_iter t <-> tbl_get t k = Some v;
}.

(** The payload of a key: [(&key.run_id, &key.path)]. *)
Abbreviation KeyPayload := (option RunId * list string)%type.

(** encoding.rs [key_has_prefix]. *)
Definition key_has_prefix (candidate prefix : StorageKey) : bool :=
  if decide (namespace candidate <> namespace prefix) then false
  else
    let run_id_ok := match key_run prefix with
                     | None => true
                     | Some _ => bool_decide (key_run candidate = key_run prefix)
                     end in
    run_id_ok && starts_with (path candidate) (path prefix).

(** tables.rs [all_tables] and [table_for]; a table definition is its name. *)
Definition all_tables : list (string * string) :=
  [("runs", "runs"); ("workers", "workers"); ("heartbeats", "heartbeats"); ("queue", "queue");
   ("plugins", "plugins"); ("cloudlocal_queue", "cloudlocal_queue"); ("infer", "infer");
   ("snapshots", "snapshots"); ("coordinator_lease", "coordinator_lease"); ("epoch", "epoch");
   ("work", "work"); ("queue_items", "queue_items"); ("eval_reports", "eval_reports")].

Definition table_for (ns : string) : result CoreError string :=
  match (list_to_map all_tables : gmap string string) !! ns with
  | Some t => Ok t
  | None => Err (Fatal (ConfigInvalid ("unknown storage namespace: " +:+ ns)))
  end.

(** The names [get_many_bytes] knows by itself. *)
Definition static_namespaces : list string :=
  ["runs"; "workers"; "heartbeats"; "queue"; "plugins"; "cloudlocal_queue"; "infer";
   "snapshots"; "coordinator_lease"; "epoch"; "work"; "queue_items"].

Definition static_ns (ns : string) : outcome string :=
  if decide (ns ∈ static_namespaces) then Value ns
  else Panic "internal error: entered unreachable code: table_for would have errored".

(** ** The watch router (watch.rs) *)
Record PrefixKey : Type := mkPrefix {
  pk_namespace : string;
  pk_run : option RunId;
  pk_path : list string;
}.

#[global] Instance PrefixKey_eq_dec : EqDecision PrefixKey.
Proof. solve_decision. Defined.
#[global] Program Instance PrefixKey_countable : Countable PrefixKey :=
  inj_countable' (fun k => (pk_namespace k, pk_run k, pk_path k))
                 (fun '(n, r, p) => mkPrefix n r p) _.
Next Obligation. by intros []. Qed.

Definition PrefixKey_from (k : StorageKey) : PrefixKey :=
  mkPrefix (namespace k) (key_run k) (path k).

(** A channel is the list of the events sent to it so far. *)
Abbreviation WatchRouter := (gmap PrefixKey (list StorageEvent)).

Definition prefix_matches (prefix : PrefixKey) (candidate : StorageKey) : bool :=
  bool_decide (pk_namespace prefix = namespace candidate)
  && bool_decide (pk_run prefix = key_run candidate)
  && starts_with (path candidate) (pk_path prefix).

Definition subscribe (prefix : StorageKey) (r : WatchRouter) : WatchRouter :=
  match r !! PrefixKey_from prefix with
  | Some _ => r
  | None => <[PrefixKey_from prefix := []]> r
  end.

Definition publish (event : StorageEvent) (r : WatchRouter) : WatchRouter :=
  map_imap (fun prefix sent =>
    Some (if prefix_matches prefix (event_key event) then sent ++ [event] else sent)) r.

Definition publish_all (events : list StorageEvent) (r : WatchRouter) : WatchRouter :=
  foldl (fun r e => publish e r) r events.

Section embedded.
Context {Tbl : Type} {R : RedbTable Tbl} {RL : RedbLaws Tbl} {KC : Codec KeyPayload}.

Definition encode_key (k : StorageKey) : bytes := encode (key_run k, path k).

Definition decode_key_payload (bs : bytes) : result CoreError KeyPayload :=
  match decode bs with Ok p => Ok p | Err e => Err (internal ("postcard key: " +:+ e)) end.

(** The tables of the file.  Every key in them was written through [encode_key]:
    the operations below are the only writers. *)
Definition canonical (ts : gmap string Tbl) : Prop :=
  forall ns t kb v, ts !! ns = Some t -> tbl_get t kb = Some v -> exists p, kb = encode p.

Lemma canonical_empty : canonical ∅.
Proof. intros ns t kb v Ht. by rewrite lookup_empty in Ht. Qed.

Record Tables : Type := mkTables { tabs : gmap string Tbl; tabs_canonical : canonical tabs }.

Definition tbl_of (ts : gmap string Tbl) (ns : string) : Tbl := default tbl_empty (ts !! ns).

Lemma canonical_insert ts ns p v :
  canonical ts -> canonical (<[ns := tbl_insert (encode p) v (tbl_of ts ns)]> ts).
Proof.
  intros Hc ns' t kb v'. destruct (decide (ns' = ns)) as [->|Hne].
  - rewrite lookup_insert_eq. intros [= <-]. rewrite tbl_get_insert.
    case_decide; [eauto|]. unfold tbl_of. destruct (ts !! ns) eqn:E; simpl; [by eapply Hc|].
    by rewrite tbl_get_empty.
  - rewrite lookup_insert_ne by done. apply Hc.
Qed.

Lemma canonical_remove ts ns kb :
  canonical ts -> canonical (<[ns := tbl_remove kb (tbl_of ts ns)]> ts).
Proof.
  intros Hc ns' t kb' v'. destruct (decide (ns' = ns)) as [->|Hne].
  - rewrite lookup_insert_eq. intros [= <-]. rewrite tbl_get_remove.
    case_decide; [done|]. unfold tbl_of. destruct (ts !! ns) eqn:E; simpl; [by eapply Hc|].
    by rewrite tbl_get_empty.
  - rewrite lookup_insert_ne by done. apply Hc.
Qed.

Definition table_insert (ns : string) (k : StorageKey) (v : bytes) (ts : Tables) : Tables :=
  mkTables _ (canonical_insert _ ns (key_run k, path k) v (tabs_canonical ts)).

Definition table_remove (ns : string) (k : StorageKey) (ts : Tables) : Tables :=
  mkTables _ (canonical_remove _ ns (encode_key k) (tabs_canonical ts)).

Definition table_get (ts : Tables) (ns : string) (k : StorageKey) : option bytes :=
  tbl_get (tbl_of (tabs ts) ns) (encode_key k).

(** ** What the tables hold, as one map *)
Definition row_of (ns : string) (kv : bytes * bytes) : option (StorageKey * bytes) :=
  match decode kv.1 with
  | Ok (r, p) => Some (mkKey ns r p, kv.2)
  | Err _ => None
  end.

Definition rows (ts : Tables) : list (StorageKey * bytes) :=
  map_to_list (tabs ts) ≫= fun nt => omap (row_of nt.1) (tbl_iter nt.2).

Definition stored (ts : Tables) : store := list_to_map (rows ts).

Lemma elem_of_rows ts k v : (k, v) ∈ rows ts <-> table_get ts (namespace k) k = Some v.
Proof.
  unfold rows, table_get, tbl_of. rewrite list_elem_of_bind. split.
  - intros ([ns t] & Hrow & Ht). apply elem_of_map_to_list in Ht. simpl in Hrow.
    apply list_elem_of_omap in Hrow as ([kb v'] & Hkv & Hr). apply tbl_iter_get in Hkv.
    unfold row_of in Hr; simpl in Hr. destruct (tabs_canonical ts _ _ _ _ Ht Hkv) as [[r p] ->].
    rewrite decode_encode in Hr. injection Hr as <- <-. simpl. by rewrite Ht.
  - destruct (tabs ts !! namespace k) as [t|] eqn:Ht; simpl; [|by rewrite tbl_get_empty].
    intros Hkv. exists (namespace k, t). rewrite elem_of_map_to_list. split; [|done]. simpl.
    apply list_elem_of_omap. exists (encode_key k, v). rewrite tbl_iter_get. split; [done|].
    unfold row_of, encode_key; simpl. rewrite decode_encode. by destruct k.
Qed.

Lemma lookup_stored ts k : stored ts !! k = table_get ts (namespace k) k.
Proof.
  unfold stored. destruct (table_get ts (namespace k) k) as [v|] eqn:E.
  - apply elem_of_list_to_map'; [|by apply elem_of_rows].
    intros v1 _ Hv1. apply elem_of_rows in Hv1. congruence.
  - apply not_elem_of_list_to_map. intros ([k' v] & -> & Hv)%list_elem_of_fmap.
    simpl in *. apply elem_of_rows in Hv. congruence.
Qed.

Lemma encode_key_inj k k' : namespace k = namespace k' -> encode_key k = encode_key k' -> k = k'.
Proof.
  destruct k, k'; unfold encode_key; simpl. intros -> Hk.
  apply encode_inj in Hk. by injection Hk as -> ->.
Qed.

Lemma tbl_of_insert ts ns t ns' :
  tbl_of (<[ns := t]> ts) ns' = if decide (ns' = ns) then t else tbl_of ts ns'.
Proof.
  unfold tbl_of. case_decide; subst; [by rewrite lookup_insert_eq|by rewrite lookup_insert_ne].
Qed.

Lemma stored_insert ts k v : stored (table_insert (namespace k) k v ts) = <[k := v]> (stored ts).
Proof.
  apply map_eq. intros k'. rewrite lookup_stored. unfold table_get; simpl.
  rewrite tbl_of_insert. destruct (decide (k' = k)) as [->|Hne].
  - rewrite decide_True, tbl_get_insert, decide_True by done. by rewrite lookup_insert_eq.
  - rewrite lookup_insert_ne, lookup_stored by done. unfold table_get. case_decide as Hns; [|done].
    rewrite tbl_get_insert, decide_False, Hns; [done|].
    intros He. by apply Hne, encode_key_inj.
Qed.

Lemma stored_remove ts k : stored (table_remove (namespace k) k ts) = delete k (stored ts).
Proof.
  apply map_eq. intros k'. rewrite lookup_stored. unfold table_get; simpl.
  rewrite tbl_of_insert. destruct (decide (k' = k)) as [->|Hne].
  - rewrite decide_True, tbl_get_remove, decide_True by done. by rewrite lookup_delete_eq.
  - rewrite lookup_delete_ne, lookup_stored by done. unfold table_get. case_decide as Hns; [|done].
    rewrite tbl_get_remove, decide_False, Hns; [done|].
    intros He. by apply Hne, encode_key_inj.
Qed.

(** ** The backend: the file, the router, and the faults redb and tokio will
    report ([Some e] fails the call with [e]).  [publications] is the log of all
    events handed to the router, kept for the specification only. *)
Record World : Type := mkWorld {
  db : Tables;
  router : WatchRouter;
  publications : list StorageEvent;
  faults : list (option string);
}.

(** [EmbeddedTxn]: the redb write transaction until it is consumed. *)
Record EmbeddedTxn : Type := mkTxn { txn : option Tables; txn_pending : list StorageEvent }.

(** A call into redb or tokio whose error is reported as [internal(label + e)]. *)
Definition call (label : string) : M World CoreError unit := fun w =>
  match faults w with
  | [] => (Ok tt, w)
  | None :: fs => (Ok tt, mkWorld (db w) (router w) (publications w) fs)
  | Some e :: fs => (Err (internal (label +:+ e)), mkWorld (db w) (router w) (publications w) fs)
  end.

(** [spawn_blocking(closure).await.map_err(join)?]: a task that has started cannot
    be aborted, so a cancelled one (the runtime is shutting down) never ran. *)
Definition spawn_blocking {A} (closure : M World CoreError A) : M World CoreError A :=
  let* _ := call "join: " in
  closure.

(** A read transaction's [open_table]: [None] is [TableDoesNotExist]. *)
Definition open_table (table_def : string) : M World CoreError (option Tbl) :=
  let* _ := call "open_table: " in
  fun w => (Ok (tabs (db w) !! table_def), w).

Definition begin (_ : unit) : M World CoreError EmbeddedTxn :=
  let* wtxn := spawn_blocking (let* _ := call "begin_write: " in fun w => (Ok (db w), w)) in
  mret (mkTxn (Some wtxn) []).

Definition get (k : StorageKey) : M World CoreError (option bytes) :=
  let* table_def := mlift (table_for (namespace k)) in
  spawn_blocking (
    let* _ := call "begin_read: " in
    let* table := open_table table_def in
    match table with
    | None => mret None
    | Some t => let* _ := call "get: " in mret (tbl_get t (encode_key k))
    end).

(** The [for entry in iter] loop of [scan_bytes]. *)
Fixpoint scan_loop (prefix : StorageKey) (limit : option nat) (entries : list (bytes * bytes))
    (out : list (StorageKey * bytes)) : M World CoreError (list (StorageKey * bytes)) :=
  match entries with
  | [] => mret out
  | (kb, v) :: entries' =>
      let* _ := call "iter step: " in
      let* '(run_id, p) := mlift (decode_key_payload kb) in
      let candidate := mkKey (namespace prefix) run_id p in
      if key_has_prefix candidate prefix then
        let out := out ++ [(candidate, v)] in
        match limit with
        | Some n => if decide (n <= length out) then mret out
                    else scan_loop prefix limit entries' out
        | None => scan_loop prefix limit entries' out
        end
      else scan_loop prefix limit entries' out
  end.

Definition scan (range : KeyRange) : M World CoreError (list (StorageKey * bytes)) :=
  let* table_def := mlift (table_for (namespace (Core.prefix range))) in
  spawn_blocking (
    let* _ := call "begin_read: " in
    let* table := open_table table_def in
    match table with
    | None => mret []
    | Some t => let* _ := call "iter: " in
                scan_loop (Core.prefix range) (limit range) (tbl_iter t) []
    end).

Definition ping (_ : unit) : M World CoreError unit :=
  spawn_blocking (call "begin_read: ").

(** ** [get_many_bytes]: the groups are walked in the order a [HashMap] gives *)
Variable hash_order : list string -> list string.

Definition push_index (ns : string) (i : nat) (g : gmap string (list nat)) : gmap string (list nat) :=
  <[ns := default [] (g !! ns) ++ [i]]> g.

Fixpoint group_keys (i : nat) (keys : list StorageKey) (g : gmap string (list nat))
  : outcome (result CoreError (gmap string (list nat))) :=
  match keys with
  | [] => Value (Ok g)
  | k :: keys' =>
      match table_for (namespace k) with
      | Err e => Value (Err e)
      | Ok _ => match static_ns (namespace k) with
                | Panic m => Panic m
                | Value ns => group_keys (S i) keys' (push_index ns i g)
                end
      end
  end.

Fixpoint read_group (keys : list StorageKey) (t : Tbl) (idxs : list nat) (out : list (option bytes))
  : M World CoreError (list (option bytes)) :=
  match idxs with
  | [] => mret out
  | i :: idxs' =>
      let* _ := call "get: " in
      match keys !! i with
      | None => mret out
      | Some k => read_group keys t idxs'
                    (match tbl_get t (encode_key k) with
                     | Some v => <[i := Some v]> out
                     | None => out
                     end)
      end
  end.

Fixpoint read_groups (keys : list StorageKey) (g : gmap string (list nat)) (order : list string)
    (out : list (option bytes)) : M World CoreError (list (option bytes)) :=
  match order with
  | [] => mret out
  | ns :: order' =>
      let* table_def := mlift (table_for ns) in
      let* table := open_table table_def in
      match table with
      | None => read_groups keys g order' out
      | Some t => let* out := read_group keys t (default [] (g !! ns)) out in
                  read_groups keys g order' out
      end
  end.

(** A panic of the closure comes back as a [JoinError]. *)
Definition get_many_bytes (keys : list StorageKey) : M World CoreError (list (option bytes)) :=
  spawn_blocking (
    let* _ := call "begin_read: " in
    match group_keys 0 keys ∅ with
    | Panic m => mthrow (internal ("join: task panicked: " +:+ m))
    | Value (Err e) => mthrow e
    | Value (Ok g) => read_groups keys g (hash_order (map_to_list g).*1)
                                  (replicate (length keys) None)
    end).

(** ** The transaction (txn.rs).  A staged operation takes the redb transaction
    out of the handle, runs in a blocking closure and puts it back, also when the
    closure fails; a cancelled task loses it. *)
Definition staged {A} (f : Tables -> M World CoreError (Tables * A))
  : M (World * EmbeddedTxn) CoreError A := fun '(w, t) =>
  match txn t with
  | None => (Err (internal "txn already consumed"), (w, t))
  | Some tx =>
      match call "join: " w with
      | (Err e, w1) => (Err e, (w1, mkTxn None (txn_pending t)))
      | (Ok _, w1) =>
          match f tx w1 with
          | (Ok (tx', a), w2) => (Ok a, (w2, mkTxn (Some tx') (txn_pending t)))
          | (Err e, w2) => (Err e, (w2, mkTxn (Some tx) (txn_pending t)))
          end
      end
  end.

Definition push_event (e : StorageEvent) : M (World * EmbeddedTxn) CoreError unit :=
  fun '(w, t) => (Ok tt, (w, mkTxn (txn t) (txn_pending t ++ [e]))).

Definition txn_put (k : StorageKey) (v : bytes) : M (World * EmbeddedTxn) CoreError unit :=
  let* table_def := mlift (table_for (namespace k)) in
  let* _ := staged (fun tx =>
    let* _ := call "open_table: " in
    let* _ := call "insert: " in
    mret (table_insert table_def k v tx, tt)) in
  push_event (PutEvent k).

Definition txn_delete (k : StorageKey) : M (World * EmbeddedTxn) CoreError unit :=
  let* table_def := mlift (table_for (namespace k)) in
  let* removed := staged (fun tx =>
    let* _ := call "open_table: " in
    let* _ := call "remove: " in
    mret (table_remove table_def k tx, bool_decide (is_Some (table_get tx table_def k)))) in
  if (removed : bool) then push_event (DeleteEvent k) else mret tt.

Definition txn_cas (k : StorageKey) (expected new : option bytes)
  : M (World * EmbeddedTxn) CoreError bool :=
  let* table_def := mlift (table_for (namespace k)) in
  let new_is_some := bool_decide (is_Some new) in
  let* '(applied, was_delete) := staged (fun tx =>
    let* _ := call "open_table: " in
    let* _ := call "get: " in
    let cur := table_get tx table_def k in
    if negb (bool_decide (cur = expected)) then mret (tx, (false, false))
    else
      match new with
      | Some v => let* _ := call "insert: " in
                  mret (table_insert table_def k v tx, (true, false))
      | None => if decide (is_Some cur) then
                  let* _ := call "remove: " in
                  mret (table_remove table_def k tx, (true, true))
                else mret (tx, (true, false))
      end) in
  let* _ :=
    (if (applied : bool) then
      if (was_delete : bool) then push_event (DeleteEvent k)
      else if new_is_some then push_event (PutEvent k) else mret tt
    else mret tt) in
  mret applied.

(** [commit] publishes the buffered events only after redb has committed. *)
Definition txn_commit (t : EmbeddedTxn) : M World CoreError unit :=
  match txn t with
  | None => mthrow (internal "txn already consumed")
  | Some tx =>
      let* _ := spawn_blocking (
        let* _ := call "commit: " in
        fun w => (Ok tt, mkWorld tx (router w) (publications w) (faults w))) in
      fun w => (Ok tt, mkWorld (db w) (publish_all (txn_pending t) (router w))
                               (publications w ++ txn_pending t) (faults w))
  end.

Definition txn_abort (t : EmbeddedTxn) : M World CoreError unit :=
  match txn t with
  | None => mret tt
  | Some _ => call "join: "
  end.

Definition watch (prefix : StorageKey) : M World CoreError unit := fun w =>
  (Ok tt, mkWorld (db w) (subscribe prefix (router w)) (publications w) (faults w)).

(** ** The refinement: the backend implements the [Storage] interface *)

(** A handle whose redb transaction is still there: what a client that drops the
    transaction on the first error ever sees. *)
Definition OpenTxn : Type := (Tables * list StorageEvent)%type.

Definition on_txn {A} (m : M (World * EmbeddedTxn) CoreError A) (t : OpenTxn)
  : M World CoreError (A * OpenTxn) := fun w =>
  match m (w, mkTxn (Some t.1) t.2) with
  | (Ok a, (w', mkTxn (Some tx) evs)) => (Ok (a, (tx, evs)), w')
  | (Ok _, (w', mkTxn None _)) => (Err (internal "txn already consumed"), w')
  | (Err e, (w', _)) => (Err e, w')
  end.

Definition healthy_world (w : World) : Prop := Forall (fun f => f = None) (faults w).

#[local] Instance embedded_storage : Storage World OpenTxn := {
  contents w := stored (db w);
  published := publications;
  healthy := healthy_world;
  view t := stored t.1;
  pending t := t.2;
  begin_txn :=
    let* t := begin tt in
    match txn t with
    | Some tx => mret (tx, txn_pending t)
    | None => mthrow (internal "txn already consumed")
    end;
  get_bytes := get;
  scan_bytes := scan;
  put_bytes t k v := let* '(_, t) := on_txn (txn_put k v) t in mret t;
  delete_key t k := let* '(_, t) := on_txn (txn_delete k) t in mret t;
  cas_bytes t k e n := on_txn (txn_cas k e n) t;
  commit t := txn_commit (mkTxn (Some t.1) t.2);
  abort t := txn_abort (mkTxn (Some t.1) t.2);
}.

Definition untouched (w w' : World) : Prop :=
  db w' = db w /\ router w' = router w /\ publications w' = publications w /\
  (healthy_world w -> healthy_world w').

Lemma untouched_same w w' : untouched w w' -> same w w'.
Proof. intros (Hd & _ & Hp & Hh). unfold same; simpl. by rewrite Hd. Qed.

Lemma untouched_trans w1 w2 w3 : untouched w1 w2 -> untouched w2 w3 -> untouched w1 w3.
Proof. unfold untouched. intuition congruence. Qed.

Lemma untouched_refl w : untouched w w.
Proof. by repeat split. Qed.

Lemma call_spec label w :
  wp (call label) (fun r w' => untouched w w' /\ ok_or_fault w r (fun _ => True)) w.
Proof.
  destruct w as [d ro p [|[e|] fs]]; unfold wp, untouched, healthy_world; simpl.
  - auto.
  - split; [|by inversion 1]. repeat split; by inversion 1.
  - repeat split; by inversion 1.
Qed.

(** A closure that is run between two states. *)
Definition pure_post {A} (w : World) (P : A -> Prop) (r : result CoreError A) (w' : World) : Prop :=
  untouched w w' /\ ok_or_fault w r P.

Lemma call_bind {A} label (k : M World CoreError A) (P : A -> Prop) w :
  (forall w1, untouched w w1 -> wp k (pure_post w1 P) w1) ->
  wp (let* _ := call label in k) (pure_post w P) w.
Proof.
  intros Hk. wp_call call_spec. intros [[]|e] w1 [Hu Hr]; [|by split].
  eapply wp_mono; [by apply Hk|]. intros r w2 [Hu2 Hr2].
  split; [by eapply untouched_trans|]. destruct r; [done|].
  simpl in *. destruct Hu as (_ & _ & _ & Hh). auto.
Qed.

Lemma pure_ret {A} (a : A) (P : A -> Prop) w : P a -> wp (mret a) (pure_post w P) w.
Proof. intros HP. apply wp_ret. split; [apply untouched_refl|done]. Qed.

Lemma open_table_bind {A} name (k : option Tbl -> M World CoreError A) (P : A -> Prop) w :
  (forall w1, untouched w w1 -> wp (k (tabs (db w) !! name)) (pure_post w1 P) w1) ->
  wp (let* t := open_table name in k t) (pure_post w P) w.
Proof.
  intros Hk. apply wp_bind. unfold open_table. wp_call call_spec.
  intros [[]|e] w1 [Hu Hr]; [|by split]. unfold wp at 1; simpl.
  assert (tabs (db w1) = tabs (db w)) as -> by (destruct Hu as [-> _]; done).
  eapply wp_mono; [by apply Hk|]. intros r w2 [Hu2 Hr2].
  split; [by eapply untouched_trans|]. destruct r; [done|].
  simpl in *. destruct Hu as (_ & _ & _ & Hh). auto.
Qed.

Lemma table_for_known k : known k -> table_for (namespace k) = Ok (namespace k).
Proof.
  unfold known. generalize (namespace k). intros ns Hns.
  assert (Forall (fun ns => table_for ns = Ok ns) core_namespaces) as Hall
    by (repeat constructor).
  by eapply Forall_forall in Hall.
Qed.

Lemma get_spec k w : known k -> wp (get k) (pure_post w (fun v => v = stored (db w) !! k)) w.
Proof.
  intros Hk. unfold get. rewrite table_for_known by done. repeat wp_pure.
  unfold spawn_blocking. apply call_bind. intros w1 Hu1. apply call_bind. intros w2 Hu2.
  apply open_table_bind. intros w3 Hu3.
  assert (db w2 = db w) as Hdb by (destruct Hu1, Hu2; congruence).
  rewrite Hdb, lookup_stored. unfold table_get, tbl_of.
  destruct (tabs (db w) !! namespace k) as [t|]; simpl.
  - apply call_bind. intros w4 _. by apply pure_ret.
  - apply pure_ret. by rewrite tbl_get_empty.
Qed.

(** The rows of one table that a scan selects, in the order of the table. *)
Definition matches (prefix : StorageKey) (entries : list (bytes * bytes)) : list (StorageKey * bytes) :=
  filter (fun kv => key_has_prefix kv.1 prefix = true) (omap (row_of (namespace prefix)) entries).

Definition decodable (entries : list (bytes * bytes)) : Prop :=
  Forall (fun e => exists p, e.1 = encode (p : KeyPayload)) entries.

(** How many rows a scan still takes: the limit is looked at after a push. *)
Definition room (limit : option nat) (out : list (StorageKey * bytes)) (m : list (StorageKey * bytes))
  : list (StorageKey * bytes) :=
  match limit with
  | None => m
  | Some n => take (Nat.max 1 n - length out) m
  end.

Lemma matches_nil prefix : matches prefix [] = [].
Proof. done. Qed.

Lemma matches_cons prefix r p v entries :
  matches prefix ((encode (r, p), v) :: entries) =
  (if key_has_prefix (mkKey (namespace prefix) r p) prefix
   then [(mkKey (namespace prefix) r p, v)] else []) ++ matches prefix entries.
Proof.
  unfold matches, row_of. simpl. rewrite decode_encode. simpl. rewrite filter_cons. simpl.
  by destruct (key_has_prefix _ prefix).
Qed.

Lemma scan_loop_spec prefix limit entries out w :
  decodable entries ->
  match limit with None => True | Some n => length out < Nat.max 1 n end ->
  wp (scan_loop prefix limit entries out)
     (pure_post w (fun rows => rows = out ++ room limit out (matches prefix entries))) w.
Proof.
  intros Hd. revert out w. induction Hd as [|[kb v] entries [[r p] Hkb] Hd IH]; intros out w Hl; simpl.
  { apply pure_ret. rewrite matches_nil. unfold room. destruct limit; by rewrite ?take_nil, app_nil_r. }
  simpl in Hkb. subst kb. apply call_bind. intros w1 _. repeat wp_pure.
  unfold decode_key_payload. rewrite decode_encode, matches_cons.
  destruct (key_has_prefix _ prefix) eqn:Hp; simpl.
  - destruct limit as [n|]; simpl.
    + rewrite length_app; simpl. case_decide as Hn.
      * apply pure_ret. replace (Nat.max 1 n - length out) with 1 by lia. by destruct (matches _ _).
      * eapply wp_mono; [apply IH; rewrite length_app; simpl; lia|].
        intros rr w2 [Hu Hr]; split; [done|]. destruct rr; [|done]. simpl in Hr |- *. subst a.
        rewrite length_app; simpl. rewrite <- app_assoc. f_equal.
        replace (Nat.max 1 n - length out) with (S (Nat.max 1 n - (length out + 1))) by lia.
        done.
    + eapply wp_mono; [by apply IH|].
      intros rr w2 [Hu Hr]; split; [done|]. destruct rr; [|done]. simpl in Hr |- *. subst a.
      by rewrite <- app_assoc.
  - by apply IH.
Qed.

Lemma decodable_iter ts ns t : tabs ts !! ns = Some t -> decodable (tbl_iter t).
Proof.
  intros Ht. apply Forall_forall. intros [kb v] Hin%tbl_iter_get.
  by destruct (tabs_canonical ts _ _ _ _ Ht Hin) as [p ->]; exists p.
Qed.

Definition scan_rows (ts : Tables) (range : KeyRange) : list (StorageKey * bytes) :=
  room (limit range) [] (matches (Core.prefix range)
    (tbl_iter (tbl_of (tabs ts) (namespace (Core.prefix range))))).

Lemma tbl_iter_empty : tbl_iter tbl_empty = [].
Proof.
  destruct (tbl_iter tbl_empty) as [|[k v] l] eqn:E; [done|].
  assert ((k, v) ∈ tbl_iter tbl_empty) as Hin by (rewrite E; set_solver).
  apply tbl_iter_get in Hin. by rewrite tbl_get_empty in Hin.
Qed.

Lemma scan_spec range w : known (Core.prefix range) ->
  wp (scan range) (pure_post w (fun rs => rs = scan_rows (db w) range)) w.
Proof.
  intros Hk. unfold scan. rewrite table_for_known by done. repeat wp_pure.
  unfold spawn_blocking. apply call_bind. intros w1 Hu1. apply call_bind. intros w2 Hu2.
  apply open_table_bind. intros w3 Hu3.
  assert (db w2 = db w) as Hdb by (destruct Hu1, Hu2; congruence). rewrite Hdb.
  unfold scan_rows, tbl_of.
  destruct (tabs (db w) !! namespace (Core.prefix range)) as [t|] eqn:Ht; simpl.
  - apply call_bind. intros w4 _. eapply wp_mono.
    + apply scan_loop_spec; [by eapply decodable_iter|]. destruct (limit range); simpl; lia.
    + done.
  - apply pure_ret. rewrite tbl_iter_empty, matches_nil.
    unfold room. destruct (limit range); [by rewrite take_nil | done].
Qed.

(** A scan selects the stored rows whose key matches. *)
Lemma elem_of_matches ts p k v :
  (k, v) ∈ matches p (tbl_iter (tbl_of (tabs ts) (namespace p))) <->
  stored ts !! k = Some v /\ key_has_prefix k p = true.
Proof.
  unfold matches. rewrite list_elem_of_filter, list_elem_of_omap. simpl. split.
  - intros (Hp & [kb v'] & Hin & Hr). split; [|done]. unfold row_of in Hr; simpl in Hr.
    apply tbl_iter_get in Hin. unfold tbl_of in Hin.
    destruct (tabs ts !! namespace p) as [t|] eqn:Ht; simpl in Hin; [|by rewrite tbl_get_empty in Hin].
    destruct (tabs_canonical ts _ _ _ _ Ht Hin) as [[r q] ->]. rewrite decode_encode in Hr.
    injection Hr as <- <-. rewrite lookup_stored. unfold table_get, tbl_of; simpl. by rewrite Ht.
  - intros [Hs Hp]. split; [done|]. rewrite lookup_stored in Hs. unfold table_get in Hs.
    assert (namespace k = namespace p) as Hns.
    { unfold key_has_prefix in Hp. by case_decide as Hn. }
    exists (encode_key k, v). rewrite tbl_iter_get, <- Hns. split; [done|].
    unfold row_of, encode_key; simpl. rewrite decode_encode. by destruct k.
Qed.

Lemma matches_nodup ts p : NoDup (matches p (tbl_iter (tbl_of (tabs ts) (namespace p)))).
Proof.
  apply NoDup_filter.
  pose proof (NoDup_fmap_1 _ _ (tbl_iter_nodup (tbl_of (tabs ts) (namespace p)))) as Hnd.
  assert (decodable (tbl_iter (tbl_of (tabs ts) (namespace p)))) as Hd.
  { unfold tbl_of. destruct (tabs ts !! namespace p) eqn:Ht; simpl; [by eapply decodable_iter|].
    rewrite tbl_iter_empty. constructor. }
  revert Hnd Hd. generalize (tbl_iter (tbl_of (tabs ts) (namespace p))). intros l.
  induction l as [|[kb v] l IH]; intros Hnd Hd; simpl; [constructor|].
  apply NoDup_cons in Hnd as [Hni Hnd]. inversion Hd as [|? ? [[r q] Hkb] Hd']; subst.
  simpl in Hkb. subst kb. unfold row_of at 1; simpl. rewrite decode_encode.
  apply NoDup_cons. split; [|by apply IH].
  intros ([kb' v'] & Hin & Hr)%list_elem_of_omap. unfold row_of in Hr; simpl in Hr.
  eapply Forall_forall in Hd' as [[r' q'] Hkb']; [|exact Hin]. simpl in Hkb'. subst kb'.
  rewrite decode_encode in Hr. injection Hr as -> -> ->. done.
Qed.

Lemma key_has_prefix_in_range p k :
  is_Some (key_run p) -> key_has_prefix k p = in_range p k.
Proof.
  intros [r Hr]. unfold key_has_prefix, in_range. rewrite Hr.
  case_decide as Hn; [by rewrite (bool_decide_eq_false_2 _ Hn)|].
  by rewrite (bool_decide_eq_true_2 _ Hn).
Qed.

Lemma key_has_prefix_global p k :
  key_run p = None -> in_range p k = bool_decide (key_run k = key_run p) && key_has_prefix k p.
Proof.
  intros Hr. unfold key_has_prefix, in_range. rewrite Hr.
  case_decide as Hn.
  - rewrite (bool_decide_eq_false_2 _ Hn). simpl. by rewrite andb_false_r.
  - rewrite (bool_decide_eq_true_2 _ Hn). done.
Qed.

(** What a staged operation leaves in the transaction handle. *)
Definition txn_post {A} (w : World) (P : A -> Tables -> list StorageEvent -> Prop)
    (r : result CoreError A) (wt : World * EmbeddedTxn) : Prop :=
  untouched w wt.1 /\
  match r with
  | Ok a => exists tx evs, wt.2 = mkTxn (Some tx) evs /\ P a tx evs
  | Err _ => ~ healthy_world w
  end.

Lemma staged_spec {A} (f : Tables -> M World CoreError (Tables * A)) (P : Tables * A -> Prop) tx evs w :
  (forall w1, untouched w w1 -> wp (f tx) (pure_post w1 P) w1) ->
  wp (staged f) (txn_post w (fun a tx' evs' => evs' = evs /\ P (tx', a))) (w, mkTxn (Some tx) evs).
Proof.
  intros Hf. unfold wp, staged. simpl. pose proof (call_spec "join: " w) as Hc.
  unfold wp in Hc. destruct (call "join: " w) as [[[]|e] w1]; simpl in Hc;
    destruct Hc as [Hu Hr]; [|by split].
  specialize (Hf w1 Hu). unfold wp in Hf. destruct (f tx w1) as [[[tx' a]|e] w2]; simpl in *;
    destruct Hf as [Hu2 Hp]; split; simpl; eauto using untouched_trans.
  simpl in Hp. destruct Hu as (_ & _ & _ & Hh). auto.
Qed.

Lemma txn_bind {A B} (m : M (World * EmbeddedTxn) CoreError A) (k : A -> M (World * EmbeddedTxn) CoreError B)
    w wt (P : A -> Tables -> list StorageEvent -> Prop) (Q : B -> Tables -> list StorageEvent -> Prop) :
  wp m (txn_post w P) wt ->
  (forall a tx evs w1, untouched w w1 -> P a tx evs ->
     wp (k a) (txn_post w Q) (w1, mkTxn (Some tx) evs)) ->
  wp (mbind_ m k) (txn_post w Q) wt.
Proof.
  intros Hm Hk. apply wp_bind. eapply wp_mono; [exact Hm|].
  intros [a|e] [w1 t1] [Hu Hr]; [|by split]. destruct Hr as (tx & evs & Ht & HP).
  simpl in *. subst t1. eauto.
Qed.

Lemma txn_ret {A} (a : A) w w1 tx evs (Q : A -> Tables -> list StorageEvent -> Prop) :
  untouched w w1 -> Q a tx evs -> wp (mret a) (txn_post w Q) (w1, mkTxn (Some tx) evs).
Proof. intros Hu HQ. apply wp_ret. split; eauto. Qed.

Lemma push_event_bind {B} e (k : unit -> M (World * EmbeddedTxn) CoreError B) w w1 tx evs Q :
  wp (k tt) (txn_post w Q) (w1, mkTxn (Some tx) (evs ++ [e])) ->
  wp (let* u := push_event e in k u) (txn_post w Q) (w1, mkTxn (Some tx) evs).
Proof. done. Qed.

Lemma push_event_post e w w1 tx evs (Q : unit -> Tables -> list StorageEvent -> Prop) :
  untouched w w1 -> Q tt tx (evs ++ [e]) ->
  wp (push_event e) (txn_post w Q) (w1, mkTxn (Some tx) evs).
Proof. intros Hu HQ. unfold wp, push_event; simpl. split; simpl; eauto. Qed.

Lemma txn_put_spec k v tx evs w : known k ->
  wp (txn_put k v) (txn_post w (fun _ tx' evs' =>
    stored tx' = <[k := v]> (stored tx) /\ evs' = evs ++ [PutEvent k])) (w, mkTxn (Some tx) evs).
Proof.
  intros Hk. unfold txn_put. rewrite table_for_known by done. do 2 wp_pure.
  eapply txn_bind; [apply staged_spec with (P := fun ta => stored ta.1 = <[k := v]> (stored tx))|].
  - intros w1 _. apply call_bind. intros w2 _. apply call_bind. intros w3 _.
    apply pure_ret. simpl. apply stored_insert.
  - simpl. intros [] tx' evs' w1 Hu [-> Hs]. by apply push_event_post.
Qed.

Lemma txn_delete_spec k tx evs w : known k ->
  wp (txn_delete k) (txn_post w (fun _ tx' evs' =>
    stored tx' = delete k (stored tx) /\ evs' = evs ++ delete_events (stored tx) k))
    (w, mkTxn (Some tx) evs).
Proof.
  intros Hk. unfold txn_delete. rewrite table_for_known by done. do 2 wp_pure.
  eapply txn_bind; [apply staged_spec with (P := fun ta => stored ta.1 = delete k (stored tx) /\
                      ta.2 = bool_decide (is_Some (stored tx !! k)))|].
  - intros w1 _. apply call_bind. intros w2 _. apply call_bind. intros w3 _.
    apply pure_ret. simpl. rewrite stored_remove, lookup_stored. done.
  - simpl. intros removed tx' evs' w1 Hu (-> & Hs & ->). unfold delete_events.
    destruct (stored tx !! k); simpl.
    + by apply push_event_post.
    + apply txn_ret; [done|]. by rewrite app_nil_r.
Qed.

Lemma txn_cas_spec k e n tx evs w : known k ->
  wp (txn_cas k e n) (txn_post w (fun won tx' evs' =>
    (won, stored tx') = cas_view (stored tx) k e n /\ evs' = evs ++ cas_events (stored tx) k e n))
    (w, mkTxn (Some tx) evs).
Proof.
  intros Hk. unfold txn_cas. rewrite table_for_known by done. do 2 wp_pure.
  eapply txn_bind; [apply staged_spec with (P := fun ta =>
      (ta.2.1, stored ta.1) = cas_view (stored tx) k e n /\
      (ta.2.1 = true -> stored tx !! k = e /\
         ta.2.2 = bool_decide (n = None /\ is_Some (stored tx !! k))))|].
  - intros w1 _. apply call_bind. intros w2 _. apply call_bind. intros w3 _.
    rewrite <- lookup_stored. unfold cas_view.
    destruct (decide (stored tx !! k = e)) as [He|He].
    + rewrite (bool_decide_eq_true_2 _ He). simpl. destruct n as [v|].
      * apply call_bind. intros w4 _. apply pure_ret. simpl. by rewrite stored_insert.
      * case_decide as Hs.
        -- apply call_bind. intros w4 _. apply pure_ret. simpl. rewrite stored_remove.
           rewrite bool_decide_eq_true_2 by done. done.
        -- apply pure_ret. simpl. rewrite bool_decide_eq_false_2 by (by intros [_ ?]).
           rewrite delete_id; [done|]. by apply eq_None_not_Some.
    + rewrite (bool_decide_eq_false_2 _ He). simpl. by apply pure_ret.
  - simpl. intros [applied was_delete] tx' evs' w1 Hu (-> & Hv & Hd). simpl in *.
    unfold cas_events. unfold cas_view in *. case_decide as He; injection Hv as -> Hv; simpl.
    + destruct (Hd eq_refl) as [_ ->]. destruct n as [v|]; simpl.
      * apply push_event_bind, txn_ret; [done|]. by rewrite Hv.
      * destruct (stored tx !! k) eqn:Hk'.
        -- rewrite bool_decide_eq_true_2 by eauto.
           apply push_event_bind, txn_ret; [done|]. by rewrite Hv.
        -- rewrite bool_decide_eq_false_2 by (by intros [_ [? ?]]).
           apply wp_bind, wp_ret, txn_ret; [done|]. by rewrite Hv, app_nil_r.
    + apply wp_bind, wp_ret, txn_ret; [done|]. by rewrite Hv, app_nil_r.
Qed.

Lemma on_txn_spec {A} (m : M (World * EmbeddedTxn) CoreError A) (t : OpenTxn) w P :
  wp m (txn_post w P) (w, mkTxn (Some t.1) t.2) ->
  wp (on_txn m t) (pure_post w (fun at_ => P at_.1 at_.2.1 at_.2.2)) w.
Proof.
  unfold wp, on_txn, txn_post, pure_post.
  destruct (m (w, mkTxn (Some t.1) t.2)) as [[a|e] [w1 t1]]; simpl; [|done].
  intros (Hu & tx & evs & -> & HP). by split.
Qed.

Lemma pure_post_same {A} w (P Q : A -> Prop) r w' :
  pure_post w P r w' -> (forall a, P a -> Q a) -> same w w' /\ ok_or_fault w r Q.
Proof. intros [Hu Hr] HPQ. split; [by apply untouched_same|]. destruct r; simpl in *; auto. Qed.

Lemma begin_spec w :
  wp (begin tt) (pure_post w (fun t => t = mkTxn (Some (db w)) [])) w.
Proof.
  unfold begin, spawn_blocking. apply wp_bind.
  eapply wp_mono with (Q := pure_post w (fun tx => tx = db w)).
  - apply call_bind. intros w1 Hu1. apply wp_bind. eapply wp_mono; [apply call_spec|].
    intros [[]|e] w2 [Hu Hr]; [|by split]. unfold wp; simpl. split; simpl.
    + exact Hu.
    + destruct Hu as [-> _]. by destruct Hu1 as [-> _].
  - intros [tx|e] w' [Hu Hr]; [|by split]. simpl in Hr. subst tx. by split.
Qed.

Lemma commit_post tx evs w :
  wp (txn_commit (mkTxn (Some tx) evs)) (fun r w' => (healthy_world w -> healthy_world w') /\
    match r with
    | Ok _ => db w' = tx /\ router w' = publish_all evs (router w) /\
              publications w' = publications w ++ evs
    | Err _ => ~ healthy_world w /\ db w' = db w /\ router w' = router w /\
               publications w' = publications w
    end) w.
Proof.
  unfold txn_commit, spawn_blocking. simpl.
  wp_call call_spec. intros [[]|e] w1 [(Hd & Hr & Hp & Hh) Ho]; [|by auto].
  wp_call call_spec. intros [[]|e] w2 [(Hd2 & Hr2 & Hp2 & Hh2) Ho2]; unfold wp; simpl in *.
  - unfold healthy_world in *. simpl. split; [auto|]. rewrite Hr2, Hr, Hp2, Hp. auto.
  - repeat split; auto; congruence.
Qed.

Lemma embedded_laws : @StorageLaws World OpenTxn embedded_storage.
Proof.
  split.
  - intros w. unfold begin_txn; simpl. wp_call begin_spec.
    intros [t|e] w' [Hu Hr]; [|by split; [apply untouched_same|]].
    simpl in Hr. subst t. simpl. apply wp_ret. split; [by apply untouched_same|done].
  - intros k w Hk. unfold get_bytes; simpl. eapply wp_mono; [by apply get_spec|].
    intros r w' H. by apply (pure_post_same _ _ _ _ _ H).
  - intros p w Hk Hrun. unfold scan_bytes; simpl. eapply wp_mono; [by apply scan_spec|].
    intros r w' H. apply (pure_post_same _ _ _ _ _ H). intros rs ->.
    unfold scan_rows; simpl. apply NoDup_Permutation.
    + apply matches_nodup.
    + apply NoDup_filter, NoDup_map_to_list.
    + intros [k v]. rewrite elem_of_matches, list_elem_of_filter, elem_of_map_to_list; simpl.
      rewrite key_has_prefix_in_range by done. naive_solver.
  - intros p w Hk Hrun Hglobal. unfold scan_bytes; simpl. eapply wp_mono; [by apply scan_spec|].
    intros r w' H. apply (pure_post_same _ _ _ _ _ H). intros rs ->.
    unfold scan_rows; simpl. apply NoDup_Permutation.
    + apply matches_nodup.
    + apply NoDup_filter, NoDup_map_to_list.
    + intros [k v]. rewrite elem_of_matches, list_elem_of_filter, elem_of_map_to_list; simpl.
      rewrite (key_has_prefix_global p k) by done. rewrite andb_true_iff.
      split; [|naive_solver]. intros [Hkv Hp]. split; [split; [|done]|done].
      rewrite bool_decide_eq_true. unfold key_has_prefix in Hp. case_decide as Hns; [done|].
      rewrite Hrun. by eapply Hglobal.
  - intros t k v w Hk. unfold put_bytes; simpl. wp_call @on_txn_spec; [by apply txn_put_spec|].
    intros [[[] t']|e] w' [Hu Hr]; [apply wp_ret|]; (split; [by apply untouched_same|exact Hr]).
  - intros t k w Hk. unfold delete_key; simpl. wp_call @on_txn_spec; [by apply txn_delete_spec|].
    intros [[[] t']|e] w' [Hu Hr]; [apply wp_ret|]; (split; [by apply untouched_same|exact Hr]).
  - intros t k e n w Hk. unfold cas_bytes; simpl. eapply wp_mono.
    + by apply on_txn_spec, txn_cas_spec.
    + intros r w' H. apply (pure_post_same _ _ _ _ _ H). intros [won t']. simpl. auto.
  - intros t w. unfold commit; simpl. eapply wp_mono; [apply commit_post|].
    intros [[]|e] w' [Hh H]; split; auto; simpl.
    + destruct H as (-> & _ & ->). done.
    + destruct H as (? & -> & _ & ->). done.
  - intros t w. unfold abort, txn_abort; simpl. eapply wp_mono; [apply call_spec|].
    intros r w' H. by apply (pure_post_same _ _ _ _ _ H).
Qed.

Lemma embedded_wildcard : @WildcardScan World OpenTxn embedded_storage.
Proof.
  intros p w Hk Hrun. unfold scan_bytes; simpl. eapply wp_mono; [by apply scan_spec|].
  intros r w' H. apply (pure_post_same _ _ _ _ _ H). intros rs ->.
  unfold scan_rows; simpl. apply NoDup_Permutation.
  - apply matches_nodup.
  - apply NoDup_filter, NoDup_map_to_list.
  - intros [k v]. rewrite elem_of_matches, list_elem_of_filter, elem_of_map_to_list; simpl.
    replace (key_has_prefix k p) with (in_all_runs p k); [naive_solver|].
    unfold in_all_runs, key_has_prefix. rewrite Hrun. by repeat case_decide; repeat case_bool_decide.
Qed.

(** ** What a subscriber receives *)
Lemma lookup_publish e r p :
  publish e r !! p = (fun sent => if prefix_matches p (event_key e) then sent ++ [e] else sent) <$> r !! p.
Proof. unfold publish. rewrite map_lookup_imap. by destruct (r !! p). Qed.

Lemma lookup_publish_all es r p :
  publish_all es r !! p =
  (fun sent => sent ++ filter (fun e => prefix_matches p (event_key e) = true) es) <$> r !! p.
Proof.
  revert r. unfold publish_all. induction es as [|e es IH]; intros r; simpl.
  - destruct (r !! p); simpl; by rewrite ?app_nil_r.
  - rewrite IH, lookup_publish. destruct (r !! p) as [sent|]; simpl; [|done].
    rewrite filter_cons. destruct (prefix_matches p (event_key e)); simpl; [|done].
    by rewrite <- app_assoc.
Qed.

(** ** Batched reads *)
Definition grouped (keys : list StorageKey) (n : nat) (g : gmap string (list nat)) : Prop :=
  forall ns j, j ∈ default [] (g !! ns) <-> j < n /\ exists k, keys !! j = Some k /\ namespace k = ns.

Lemma grouped_push keys n g k :
  keys !! n = Some k -> grouped keys n g -> grouped keys (S n) (push_index (namespace k) n g).
Proof.
  intros Hk Hg ns j. unfold push_index. destruct (decide (ns = namespace k)) as [->|Hne].
  - rewrite lookup_insert_eq. simpl. rewrite elem_of_app, (Hg (namespace k) j), list_elem_of_singleton.
    split.
    + intros [[Hj Hx]| ->]; [split; [lia|done]|]. split; [lia|]. eauto.
    + intros [Hj (k' & Hk' & Hns)]. destruct (decide (j = n)) as [->|Hjn]; [by right|].
      left. split; [lia|]. eauto.
  - rewrite lookup_insert_ne by done. rewrite (Hg ns j). split.
    + intros [? ?]. split; [lia|done].
    + intros [Hj (k' & Hk' & Hns)]. split; [|by eauto].
      destruct (decide (j = n)) as [->|Hjn]; [|lia]. congruence.
Qed.

Lemma static_known ns : ns ∈ static_namespaces -> table_for ns = Ok ns.
Proof.
  intros Hns. assert (Forall (fun ns => table_for ns = Ok ns) static_namespaces) as Hall
    by (repeat constructor).
  by eapply Forall_forall in Hall.
Qed.

Lemma group_keys_grouped pre keys g :
  Forall (fun k => namespace k ∈ static_namespaces) keys -> grouped (pre ++ keys) (length pre) g ->
  (forall ns, is_Some (g !! ns) -> ns ∈ static_namespaces) ->
  exists g', group_keys (length pre) keys g = Value (Ok g') /\
             grouped (pre ++ keys) (length (pre ++ keys)) g' /\
             forall ns, is_Some (g' !! ns) -> ns ∈ static_namespaces.
Proof.
  intros Hall. revert pre g. induction Hall as [|k keys Hk Hall IH]; intros pre g Hg Hdom; simpl.
  { exists g. rewrite app_nil_r in Hg |- *. auto. }
  rewrite static_known by done. unfold static_ns. rewrite decide_True by done.
  specialize (IH (pre ++ [k]) (push_index (namespace k) (length pre) g)).
  rewrite length_app in IH. simpl in IH. rewrite Nat.add_1_r, <- app_assoc in IH.
  simpl in IH. apply IH.
  - apply grouped_push; [|done]. by apply list_lookup_middle.
  - intros ns. unfold push_index. destruct (decide (ns = namespace k)) as [->|]; [done|].
    rewrite lookup_insert_ne by done. apply Hdom.
Qed.

(** [D]: the entries already read. *)
Definition batch_inv (keys : list StorageKey) (m : store) (D : nat -> StorageKey -> bool)
    (out : list (option bytes)) : Prop :=
  length out = length keys /\
  forall j k, keys !! j = Some k -> out !! j = Some (if D j k then m !! k else None).

Lemma batch_inv_ext keys m D D' out :
  (forall j k, keys !! j = Some k -> D j k = D' j k) ->
  batch_inv keys m D out -> batch_inv keys m D' out.
Proof. intros HD [Hl HI]. split; [done|]. intros j k Hk. rewrite <- HD by done. auto. Qed.

Lemma batch_inv_post keys m D D' w r w' :
  (forall j k, keys !! j = Some k -> D j k = D' j k) ->
  pure_post w (batch_inv keys m D) r w' -> pure_post w (batch_inv keys m D') r w'.
Proof. intros HD [Hu Hr]. split; [done|]. destruct r; simpl in *; eauto using batch_inv_ext. Qed.

(** Reading entry [i] of a batch. *)
Lemma batch_inv_read keys m D out i k x :
  keys !! i = Some k -> m !! k = x -> batch_inv keys m D out ->
  batch_inv keys m (fun j k => D j k || bool_decide (j = i))
    (match x with Some v => <[i := Some v]> out | None => out end).
Proof.
  intros Hk Hx [Hl HI].
  assert (i < length out) as Hi by (rewrite Hl; by eapply lookup_lt_Some).
  split; [destruct x; by rewrite ?length_insert|].
  intros j k' Hk'. destruct (decide (j = i)) as [->|Hne].
  - rewrite bool_decide_eq_true_2, orb_true_r by done. assert (k' = k) as -> by congruence.
    rewrite Hx. destruct x as [v|]; [by rewrite list_lookup_insert_eq|].
    rewrite (HI i k) by done. rewrite Hx. by destruct (D i k).
  - rewrite bool_decide_eq_false_2, orb_false_r by done.
    rewrite <- HI by done. destruct x; [by apply list_lookup_insert_ne|done].
Qed.

Lemma read_group_spec keys ts ns t idxs out D w :
  tabs ts !! ns = Some t ->
  Forall (fun j => exists k, keys !! j = Some k /\ namespace k = ns) idxs ->
  batch_inv keys (stored ts) D out ->
  wp (read_group keys t idxs out)
     (pure_post w (batch_inv keys (stored ts) (fun j k => D j k || bool_decide (j ∈ idxs)))) w.
Proof.
  intros Ht Hall. revert out D w. induction Hall as [|i idxs (k & Hk & Hns) Hall IH]; intros out D w HI; simpl.
  { apply pure_ret. eapply batch_inv_ext; [|exact HI]. intros j k _.
    symmetry. apply orb_false_r. }
  apply call_bind. intros w1 _. rewrite Hk.
  eapply wp_mono; [apply IH; eapply batch_inv_read; [exact Hk| |exact HI]|].
  - rewrite lookup_stored. unfold table_get, tbl_of. by rewrite Hns, Ht.
  - intros r w2. apply batch_inv_post. intros j k' _. rewrite <- orb_assoc. f_equal.
    apply eq_bool_prop_intro. rewrite orb_True, !bool_decide_spec, elem_of_cons. tauto.
Qed.

Lemma read_groups_spec keys g order out D w0 w :
  untouched w0 w -> Forall (fun ns => ns ∈ static_namespaces) order ->
  grouped keys (length keys) g -> batch_inv keys (stored (db w0)) D out ->
  wp (read_groups keys g order out)
     (pure_post w (batch_inv keys (stored (db w0))
        (fun j k => D j k || bool_decide (namespace k ∈ order)))) w.
Proof.
  intros Hw Hall Hg. revert out D w Hw.
  induction Hall as [|ns order Hns Hall IH]; intros out D w Hw HI; simpl.
  { apply pure_ret. eapply batch_inv_ext; [|exact HI]. intros j k _.
    symmetry. apply orb_false_r. }
  rewrite static_known by done. do 2 wp_pure.
  apply open_table_bind. intros w1 Hu1.
  assert (db w = db w0) as -> by apply Hw.
  assert (untouched w0 w1) as Hw1 by (by eapply untouched_trans).
  destruct (tabs (db w0) !! ns) as [t|] eqn:Ht.
  - apply wp_bind. eapply wp_mono; [eapply read_group_spec; [done| |done]|].
    { apply Forall_forall. intros j Hj. by apply Hg in Hj as [_ ?]. }
    intros [out1|e] w2 [Hu2 Hr]; [|by split]. simpl in Hr.
    eapply wp_mono; [apply IH; [by eapply untouched_trans|exact Hr]|].
    intros r w3 [Hu3 Hr3]. cut (pure_post w1 (batch_inv keys (stored (db w0))
      (fun j k => D j k || bool_decide (namespace k ∈ ns :: order))) r w3); [done|].
    assert (untouched w1 w3) by (by eapply untouched_trans).
    destruct r as [o|e]; split; try done; simpl in *.
    + eapply batch_inv_ext; [|exact Hr3]. intros j k Hk. simpl. rewrite <- orb_assoc. f_equal.
      apply eq_bool_prop_intro. rewrite orb_True, !bool_decide_spec, elem_of_cons.
      rewrite (Hg ns j). split; [|intros [Hkn|?]; [left|by right]].
      * intros [(_ & k' & Hk' & <-)|?]; [|by right]. left. congruence.
      * split; [by eapply lookup_lt_Some|]. by exists k.
    + intros Hh. apply Hr3. by apply Hu2.
  - eapply wp_mono; [apply (IH out (fun j k => D j k || bool_decide (namespace k = ns))); [done|]|].
    + destruct HI as [Hl HI]. split; [done|]. intros j k Hk. rewrite (HI j k Hk).
      case_bool_decide as Hkns; [|by rewrite orb_false_r]. rewrite orb_true_r.
      rewrite lookup_stored. unfold table_get, tbl_of. rewrite Hkns, Ht; simpl.
      rewrite tbl_get_empty. by destruct (D j k).
    + intros r w2. apply batch_inv_post. intros j k _. rewrite <- orb_assoc. f_equal.
      apply eq_bool_prop_intro. rewrite orb_True, !bool_decide_spec, elem_of_cons. tauto.
Qed.

Lemma get_many_post (Horder : forall l, hash_order l ≡ₚ l) keys w :
  Forall (fun k => namespace k ∈ static_namespaces) keys ->
  wp (get_many_bytes keys)
     (pure_post w (fun out => out = (fun k => stored (db w) !! k) <$> keys)) w.
Proof.
  intros Hkeys. unfold get_many_bytes, spawn_blocking.
  apply call_bind. intros w1 Hu1. apply call_bind. intros w2 Hu2.
  destruct (group_keys_grouped [] keys ∅) as (g & Hg & Hgr & Hdom); [done| | |].
  { intros ns j. rewrite lookup_empty. simpl. split; [by intros ?%not_elem_of_nil|lia]. }
  { intros ns [? H]. by rewrite lookup_empty in H. }
  simpl in *. rewrite Hg. set (order := hash_order _).
  assert (forall ns, ns ∈ order <-> is_Some (g !! ns)) as Hord.
  { intros ns. unfold order. rewrite Horder, list_elem_of_fmap. split.
    - intros ([ns' idxs] & -> & H%elem_of_map_to_list). by exists idxs.
    - intros [idxs H]. exists (ns, idxs). by rewrite elem_of_map_to_list. }
  assert (untouched w w2) as Hw by (by eapply untouched_trans).
  eapply wp_mono; [apply (read_groups_spec keys g order _ (fun _ _ => false) w w2 Hw)|].
  - apply Forall_forall. intros ns Hns. by apply Hdom, Hord.
  - done.
  - split; [by rewrite length_replicate|]. intros j k Hk.
    apply lookup_replicate. split; [done|]. by eapply lookup_lt_Some.
  - intros [out|e] w3 [Hu3 Hr]; split; try done; simpl in *.
    destruct Hr as [Hl Hr]. apply list_eq. intros j. rewrite list_lookup_fmap.
    destruct (keys !! j) as [k|] eqn:Hk; simpl.
    + rewrite (Hr j k Hk), bool_decide_eq_true_2; [done|]. apply Hord.
      assert (j ∈ default [] (g !! namespace k)) as Hj.
      { apply Hgr. split; [by eapply lookup_lt_Some|]. by exists k. }
      destruct (g !! namespace k); [by eexists|]. by apply not_elem_of_nil in Hj.
    + apply lookup_ge_None_1 in Hk. apply lookup_ge_None_2. lia.
Qed.

Lemma group_keys_panic i keys g :
  Forall known keys -> Exists (fun k => namespace k = "eval_reports") keys ->
  exists msg, group_keys i keys g = Panic msg.
Proof.
  intros Hall. revert i g. induction Hall as [|k keys Hk Hall IH]; intros i g Hex; [by inversion Hex|].
  simpl. rewrite table_for_known by done. unfold static_ns. case_decide as Hs; [|by eexists].
  apply IH. inversion Hex as [? ? He|]; subst; [|done]. exfalso. rewrite He in Hs.
  by apply (bool_decide_spec ("eval_reports" ∈ static_namespaces)) in Hs.
Qed.

(** ** Properties *)

(** C1: The redb backend implements the [Storage] interface: through the key
    encoding and the per-namespace tables, every read, scan, staged write, CAS,
    commit and abort behaves on the abstract map of keys as the interface
    promises, and an error is always a fault of the backend that leaves the
    committed contents as they were. *)
Theorem embedded_implements_storage : @StorageLaws World OpenTxn embedded_storage.
Proof. apply embedded_laws. Qed.

(** A commit that succeeds hands every watch channel exactly the events of the
    transaction whose key matches the channel, in the order they were staged; a
    commit that fails and an abort publish nothing and change no row. *)
Theorem commit_publishes tx evs w :
  wp (txn_commit (mkTxn (Some tx) evs)) (fun r w' =>
    match r with
    | Ok _ => stored (db w') = stored tx /\
        forall p, router w' !! p =
          (fun sent => sent ++ filter (fun e => prefix_matches p (event_key e) = true) evs) <$> router w !! p
    | Err _ => stored (db w') = stored (db w) /\ router w' = router w
    end) w /\
  wp (txn_abort (mkTxn (Some tx) evs)) (fun _ w' =>
    stored (db w') = stored (db w) /\ router w' = router w) w.
Proof.
  split.
  - eapply wp_mono; [apply commit_post|]. intros [[]|e] w' [_ H].
    + destruct H as (-> & -> & _). split; [done|]. intros p. apply lookup_publish_all.
    + destruct H as (_ & -> & -> & _). done.
  - eapply wp_mono; [apply call_spec|]. intros r w' [(-> & -> & _) _]. done.
Qed.

(** The batched read is the pointwise read: one result per key, in the order of
    the keys, whatever order the table groups are visited in. *)
Theorem get_many_pointwise (Horder : forall l, hash_order l ≡ₚ l) keys w
    (Hkeys : Forall (fun k => namespace k ∈ static_namespaces) keys) :
  wp (get_many_bytes keys) (fun r w' =>
    stored (db w') = stored (db w) /\
    match r with
    | Ok out => out = (fun k => stored (db w) !! k) <$> keys
    | Err _ => ~ healthy_world w
    end) w.
Proof.
  eapply wp_mono; [by apply get_many_post|]. intros r w' [(-> & _) Hr]. by destruct r.
Qed.

(** [get_many_bytes] cannot read the [eval_reports] namespace although
    [get_bytes] can: one such key makes the whole batch an error on a backend
    without any fault. *)
Theorem get_many_eval_reports_fails keys k w
    (Hkeys : Forall known keys) (Hk : k ∈ keys) (Hns : namespace k = "eval_reports")
    (Hok : healthy_world w) :
  wp (get_many_bytes keys) (fun r _ => is_ok r = false) w /\
  wp (get k) (fun r _ => r = Ok (stored (db w) !! k)) w.
Proof.
  split.
  - unfold get_many_bytes, spawn_blocking. wp_call call_spec. intros [[]|e] w1 _; [|done].
    wp_call call_spec. intros [[]|e] w2 _; [|done].
    destruct (group_keys_panic 0 keys ∅ Hkeys) as [msg ->]; [|by apply wp_throw].
    apply Exists_exists. by exists k.
  - eapply wp_mono; [apply get_spec|].
    { eapply Forall_forall in Hkeys; [|exact Hk]. done. }
    intros [v|e] w' [_ Hr]; [by simpl in Hr; subst|done].
Qed.

(** A scan returns rows that are stored and match the prefix, none twice, and
    with no limit all of them; a limit of [n] cuts the list to [max 1 n] rows, so
    [limit = Some(0)] still returns a row. *)
Theorem scan_rows_limited range w (Hk : known (Core.prefix range)) :
  wp (scan range) (fun r w' => stored (db w') = stored (db w) /\
    match r with
    | Ok rs => exists all, NoDup all /\
        (forall k v, (k, v) ∈ all <->
           stored (db w) !! k = Some v /\ key_has_prefix k (Core.prefix range) = true) /\
        rs = match limit range with None => all | Some n => take (Nat.max 1 n) all end
    | Err _ => ~ healthy_world w
    end) w.
Proof.
  eapply wp_mono; [by apply scan_spec|]. intros [rs|e] w' [(-> & _) Hr]; [|done].
  split; [done|]. simpl in Hr. subst rs. eexists.
  split; [apply (matches_nodup (db w) (Core.prefix range))|].
  split; [intros k v; apply elem_of_matches|].
  unfold scan_rows, room. destruct (limit range); simpl; by rewrite ?Nat.sub_0_r.
Qed.
End embedded.

(** A watch matches fewer keys than a scan with the same prefix: it also asks
    for the same run, so a prefix without a run selects every run in a scan and
    none of the run-scoped commits in a watch. *)
Theorem watch_narrower_than_scan (p k : StorageKey) :
  prefix_matches (PrefixKey_from p) k =
  key_has_prefix k p && bool_decide (key_run p = key_run k).
Proof.
  unfold prefix_matches, key_has_prefix. simpl.
  case_decide as Hns; [by rewrite bool_decide_eq_false_2 by congruence|].
  rewrite (bool_decide_eq_true_2 (namespace p = namespace k)) by congruence. simpl.
  destruct (key_run p) as [r|]; simpl.
  - case_bool_decide as H1; case_bool_decide as H2; try congruence; simpl;
      by rewrite ?andb_true_r, ?andb_false_r.
  - by rewrite andb_comm.
Qed.

(** ** A table that is a finite map, and the theorems at concrete inputs *)
#[local] Instance map_table : RedbTable (gmap bytes bytes) := {
  tbl_empty := ∅;
  tbl_get t k := t !! k;
  tbl_insert k v t := <[k := v]> t;
  tbl_remove k t := delete k t;
  tbl_iter := map_to_list;
}.

#[local] Instance map_table_laws : RedbLaws (gmap bytes bytes).
Proof.
  split; simpl.
  - apply lookup_empty.
  - intros t k v k'. case_decide as Hk; [subst; apply lookup_insert_eq|by apply lookup_insert_ne].
  - intros t k k'. case_decide as Hk; [subst; apply lookup_delete_eq|by apply lookup_delete_ne].
  - apply NoDup_fst_map_to_list.
  - intros t k v. apply elem_of_map_to_list.
Qed.

Section embedded_examples.
#[local] Instance payload_codec : Codec KeyPayload := bits_codec.

Definition no_tables : @Tables (gmap bytes bytes) _ _ := mkTables ∅ canonical_empty.

Definition k_work : StorageKey := mkKey "work" (Some 1%N) ["item"; "a"].
Definition k_eval : StorageKey := mkKey "eval_reports" (Some 1%N) ["report"].
Definition ex_tables : @Tables (gmap bytes bytes) _ _ :=
  table_insert "eval_reports" k_eval [x07] (table_insert "work" k_work [x2a] no_tables).
Definition ex_world : @World (gmap bytes bytes) _ _ := mkWorld ex_tables ∅ [] [].

Lemma embedded_implements_storage_witness :
  @StorageLaws World OpenTxn (@embedded_storage (gmap bytes bytes) map_table map_table_laws payload_codec)
  /\ fst (get k_work ex_world) = Ok (Some [x2a]).
Proof. split; [apply embedded_implements_storage | vm_compute; reflexivity]. Defined.

Lemma commit_publishes_witness :
  fst (txn_commit (mkTxn (Some ex_tables) [PutEvent k_work]) ex_world) = Ok tt /\
  wp (txn_abort (mkTxn (Some ex_tables) [PutEvent k_work])) (fun _ w' =>
    stored (db w') = stored (db ex_world) /\ router w' = router ex_world) ex_world.
Proof.
  split; [vm_compute; reflexivity | apply (commit_publishes ex_tables [PutEvent k_work] ex_world)].
Defined.

Lemma get_many_pointwise_witness :
  fst (get_many_bytes id [k_work; mkKey "runs" None []] ex_world) = Ok [Some [x2a]; None] /\
  wp (get_many_bytes id [k_work; mkKey "runs" None []]) (fun r w' =>
    stored (db w') = stored (db ex_world) /\
    match r with
    | Ok out => out = (fun k => stored (db ex_world) !! k) <$> [k_work; mkKey "runs" None []]
    | Err _ => ~ healthy_world ex_world
    end) ex_world.
Proof.
  split; [vm_compute; reflexivity|]. apply (get_many_pointwise id).
  - intros l. reflexivity.
  - apply Forall_forall. intros k Hk. apply (bool_decide_unpack _).
    repeat (apply elem_of_cons in Hk as [->|Hk]; [vm_compute; exact I|]).
    by apply not_elem_of_nil in Hk.
Defined.

Lemma get_many_eval_reports_fails_witness :
  wp (get_many_bytes id [k_work; k_eval]) (fun r _ => is_ok r = false) ex_world /\
  wp (get k_eval) (fun r _ => r = Ok (stored (db ex_world) !! k_eval)) ex_world.
Proof.
  apply (get_many_eval_reports_fails id [k_work; k_eval] k_eval ex_world).
  - repeat constructor; unfold known; simpl; set_solver.
  - set_solver.
  - reflexivity.
  - constructor.
Defined.

Lemma scan_rows_limited_witness :
  fst (scan (mkRange (mkKey "work" None []) (Some 0)) ex_world) = Ok [(k_work, [x2a])] /\
  wp (scan (mkRange (mkKey "work" None []) (Some 0))) (fun r w' => True) ex_world.
Proof.
  split; [vm_compute; reflexivity|]. eapply wp_mono.
  - apply (scan_rows_limited (mkRange (mkKey "work" None []) (Some 0)) ex_world).
    unfold known; simpl. set_solver.
  - auto.
Defined.
End embedded_examples.
