(* ===== verification/Lease.v ===== *)
(** The coordinator lease (rollout-coordinator/src/lease.rs, epoch.rs and
    rollout-core/src/traits/lease.rs): one CAS row per run with a TTL and a
    monotonic epoch, the worker-side epoch guard, and the interleavings of any
    number of coordinators that race for the row. *)
From stdpp Require Import base option list gmap strings pretty.
From S2P Require Import Prelude.
From S2P Require Import Core.
From S2P Require Import Storage.

Record CoordEpoch : Type := MkEpoch { raw_epoch : N }.

Record LeaseRecord : Type := mkLease {
  holder : WorkerId;
  lease_epoch : CoordEpoch;
  expires_at_ms : N;
}.

#[global] Instance CoordEpoch_eq_dec : EqDecision CoordEpoch.
Proof. solve_decision. Defined.
#[global] Instance LeaseRecord_eq_dec : EqDecision LeaseRecord.
Proof. solve_decision. Defined.
#[global] Program Instance CoordEpoch_countable : Countable CoordEpoch :=
  inj_countable' raw_epoch MkEpoch _.
Next Obligation. by intros []. Qed.
#[global] Program Instance LeaseRecord_countable : Countable LeaseRecord :=
  inj_countable' (fun r => (holder r, lease_epoch r, expires_at_ms r))
                 (fun '(h, e, x) => mkLease h e x) _.
Next Obligation. by intros []. Qed.

Definition lease_key (run_id : RunId) : StorageKey := mkKey "coordinator_lease" (Some run_id) [].
Definition epoch_key (run_id : RunId) : StorageKey := mkKey "epoch" (Some run_id) [].

Lemma lease_key_known run_id : known (lease_key run_id).
Proof. unfold known; simpl. set_solver. Qed.
Lemma epoch_key_known run_id : known (epoch_key run_id).
Proof. unfold known; simpl. set_solver. Qed.
#[global] Hint Resolve lease_key_known epoch_key_known : core.

(** [d.as_millis()] of a [Duration] held in milliseconds. *)
Section lease.
Context {W T : Type} {ST : Storage W T} {SL : StorageLaws W T}.
Context {LC : Codec LeaseRecord} {EC : Codec CoordEpoch}.

Definition decode_lease (bs : bytes) : result CoreError LeaseRecord :=
  match decode bs with Ok r => Ok r | Err e => Err (internal e) end.

(** [StorageLease::commit_claim]. *)
Definition commit_claim (run_id : RunId) (expected : option bytes) (next : LeaseRecord)
  : M W CoreError bool :=
  let* txn := begin_txn in
  let* '(won, txn) := cas_bytes txn (lease_key run_id) expected (Some (encode next)) in
  if won then
    let* txn := put_bytes txn (epoch_key run_id) (encode (lease_epoch next)) in
    let* _ := commit txn in
    mret true
  else
    let* _ := abort txn in
    mret false.

(** The [match cur_bytes] of [try_acquire]: what it does with the row it read. *)
Definition acquire_from (run_id : RunId) (me : WorkerId) (now ttl_ms : N)
    (cur_bytes : option bytes) : M W CoreError (option LeaseRecord) :=
  match cur_bytes with
  | None =>
      let next := mkLease me (MkEpoch 0) (u128_add now ttl_ms) in
      let* won := commit_claim run_id None next in
      mret (if won then Some next else None)
  | Some prior =>
      let* cur := mlift (decode_lease prior) in
      if decide (expires_at_ms cur < now)%N then
        let next := mkLease me (MkEpoch (u64_add (raw_epoch (lease_epoch cur)) 1))
                            (u128_add now ttl_ms) in
        let* won := commit_claim run_id (Some prior) next in
        mret (if won then Some next else None)
      else mret None
  end.

Definition try_acquire (run_id : RunId) (me : WorkerId) (now ttl_ms : N)
  : M W CoreError (option LeaseRecord) :=
  let* cur_bytes := get_bytes (lease_key run_id) in
  acquire_from run_id me now ttl_ms cur_bytes.

Definition renew (run_id : RunId) (held : LeaseRecord) (now ttl_ms : N) : M W CoreError bool :=
  let next := mkLease (holder held) (lease_epoch held) (u128_add now ttl_ms) in
  commit_claim run_id (Some (encode held)) next.

Definition current (run_id : RunId) : M W CoreError (option LeaseRecord) :=
  let* row := get_bytes (lease_key run_id) in
  match row with
  | Some bs => let* r := mlift (decode_lease bs) in mret (Some r)
  | None => mret None
  end.

(** epoch.rs [current_epoch]. *)
Definition current_epoch (run_id : RunId) : M W CoreError CoordEpoch :=
  let* row := get_bytes (epoch_key run_id) in
  match row with
  | Some bs => match decode bs with
               | Ok e => mret e
               | Err e => mthrow (internal ("postcard CoordEpoch decode: " +:+ e))
               end
  | None => mret (MkEpoch 0)
  end.

(** The contents after a won claim: the lease row and the epoch row, at once. *)
Definition claimed (run_id : RunId) (next : LeaseRecord) (m : store) : store :=
  <[epoch_key run_id := encode (lease_epoch next)]> (<[lease_key run_id := encode next]> m).

Lemma lookup_claimed_lease run_id next m :
  claimed run_id next m !! lease_key run_id = Some (encode next).
Proof. unfold claimed. rewrite lookup_insert_ne by done. apply lookup_insert_eq. Qed.

Lemma lookup_claimed_epoch run_id next m :
  claimed run_id next m !! epoch_key run_id = Some (encode (lease_epoch next)).
Proof. apply lookup_insert_eq. Qed.

(** What a claim does in every case: both rows or nothing, and a win exactly
    when the lease row was the expected one. *)
Definition claim_post (run_id : RunId) (expected : option bytes) (next : LeaseRecord)
    (w : W) (r : result CoreError bool) (w' : W) : Prop :=
  (healthy w -> healthy w') /\
  match r with
  | Ok true => contents w !! lease_key run_id = expected /\
               contents w' = claimed run_id next (contents w)
  | Ok false => contents w !! lease_key run_id <> expected /\ contents w' = contents w
  | Err _ => ~ healthy w /\ contents w' = contents w
  end.

Lemma commit_claim_spec run_id expected next w :
  wp (commit_claim run_id expected next) (claim_post run_id expected next w) w.
Proof.
  unfold commit_claim, claim_post.
  wp_call begin_law. intros [t|e] w1 ((Hc1 & _ & Hh1) & Ht); [destruct Ht as [Hv _]|by auto].
  wp_call cas_law; [done|].
  intros [[won t2]|e] w2 ((Hc2 & _ & Hh2) & Ht); simpl in *; [|rewrite Hc2; naive_solver].
  destruct Ht as [Hcas _]. unfold cas_view in Hcas. rewrite Hv in Hcas.
  case_decide as Hexp; injection Hcas as -> Hv2.
  - wp_call put_law; [done|].
    intros [t3|e] w3 ((Hc3 & _ & Hh3) & Ht); [destruct Ht as [Hv3 _]|].
    2:{ rewrite Hc3, Hc2. naive_solver. }
    wp_call commit_law. intros [[]|e] w4 (Hh4 & Ht).
    + apply wp_ret. destruct Ht as [-> _]. rewrite Hv3, Hv2. naive_solver.
    + destruct Ht as (? & -> & _). rewrite Hc3, Hc2. naive_solver.
  - wp_call abort_law. intros [[]|e] w3 ((Hc3 & _ & Hh3) & Ht).
    + apply wp_ret. rewrite Hc3, Hc2. naive_solver.
    + rewrite Hc3, Hc2. naive_solver.
Qed.

(** What [acquire_from] does with the row it was given, whatever the row is by
    the time the claim runs. *)
Definition acquire_post (run_id : RunId) (me : WorkerId) (now ttl_ms : N) (cur : option bytes)
    (w : W) (r : result CoreError (option LeaseRecord)) (w' : W) : Prop :=
  (healthy w -> healthy w') /\
  match r with
  | Ok (Some rec) =>
      contents w !! lease_key run_id = cur /\
      contents w' = claimed run_id rec (contents w) /\
      holder rec = me /\ expires_at_ms rec = u128_add now ttl_ms /\
      match cur with
      | None => lease_epoch rec = MkEpoch 0
      | Some bs => exists prior, decode bs = Ok prior /\ (expires_at_ms prior < now)%N /\
                     lease_epoch rec = MkEpoch (u64_add (raw_epoch (lease_epoch prior)) 1)
      end
  | Ok None =>
      contents w' = contents w /\
      (contents w !! lease_key run_id <> cur \/
       exists bs prior, cur = Some bs /\ decode bs = Ok prior /\ (now <= expires_at_ms prior)%N)
  | Err _ =>
      contents w' = contents w /\
      (~ healthy w \/ exists bs msg, cur = Some bs /\ @decode _ LC bs = Err msg)
  end.

Lemma acquire_from_spec run_id me now ttl_ms cur w :
  wp (acquire_from run_id me now ttl_ms cur) (acquire_post run_id me now ttl_ms cur w) w.
Proof.
  unfold acquire_from, acquire_post. destruct cur as [bs|].
  - repeat wp_pure. unfold decode_lease. destruct (decode bs) as [prior|msg] eqn:E.
    2:{ naive_solver. }
    case_decide as Hexp.
    + wp_call commit_claim_spec. intros [[]|e] w' [Hh H]; try apply wp_ret; naive_solver.
    + apply wp_ret. split; [done|]. split; [done|]. right. exists bs, prior.
      split; [done|]. split; [done|]. lia.
  - wp_call commit_claim_spec. intros [[]|e] w' [Hh H]; try apply wp_ret; naive_solver.
Qed.

Lemma get_row_spec k w : known k ->
  wp (get_bytes k) (fun r w' => contents w' = contents w /\ (healthy w -> healthy w') /\
    ok_or_fault w r (fun v => v = contents w !! k)) w.
Proof.
  intros Hk. eapply wp_mono; [by apply get_law|]. intros r w' ((? & _ & ?) & ?). auto.
Qed.

Lemma try_acquire_post run_id me now ttl_ms w :
  wp (try_acquire run_id me now ttl_ms)
     (acquire_post run_id me now ttl_ms (contents w !! lease_key run_id) w) w.
Proof.
  unfold try_acquire. wp_call get_row_spec; [done|].
  intros [row|e] w1 (Hc & Hh & Hr); simpl in Hr.
  - subst row. eapply wp_mono; [apply acquire_from_spec|]. unfold acquire_post.
    intros [[rec|]|e] w2 [Hh2 H]; rewrite ?Hc in H; naive_solver.
  - unfold acquire_post. rewrite Hc. naive_solver.
Qed.

(** ** Any number of coordinators racing for the row of one run *)
Inductive coord : Type :=
| Idle
| Read (row : option bytes) (now : N)   (* between the read and the claim of [try_acquire] *)
| Leading (held : LeaseRecord).

Record sys : Type := mkSys {
  world : W;
  coords : WorkerId -> coord;
  wins : list LeaseRecord;  (* every successful [try_acquire] so far, newest first *)
}.

Definition set_coord (f : WorkerId -> coord) (c : WorkerId) (x : coord) : WorkerId -> coord :=
  fun c' => if decide (c' = c) then x else f c'.

(** One atomic step.  A read and the claim that follows it are two steps, so
    claims and renewals of others fall between them; clocks are arbitrary. *)
Inductive lease_step (run_id : RunId) : sys -> sys -> Prop :=
| step_read c now row w w' f ws :
    get_bytes (lease_key run_id) w = (Ok row, w') ->
    lease_step run_id (mkSys w f ws) (mkSys w' (set_coord f c (Read row now)) ws)
| step_claim c now ttl row rec w w' f ws :
    f c = Read row now ->
    acquire_from run_id c now ttl row w = (Ok (Some rec), w') ->
    lease_step run_id (mkSys w f ws) (mkSys w' (set_coord f c (Leading rec)) (rec :: ws))
| step_lost c now ttl row r w w' f ws :
    f c = Read row now ->
    acquire_from run_id c now ttl row w = (r, w') -> (forall rec, r <> Ok (Some rec)) ->
    lease_step run_id (mkSys w f ws) (mkSys w' (set_coord f c Idle) ws)
| step_renewed c now ttl held w w' f ws :
    f c = Leading held ->
    renew run_id held now ttl w = (Ok true, w') ->
    lease_step run_id (mkSys w f ws)
      (mkSys w' (set_coord f c (Leading (mkLease (holder held) (lease_epoch held)
                                                 (u128_add now ttl)))) ws)
| step_fenced c now ttl held r w w' f ws :
    f c = Leading held ->
    renew run_id held now ttl w = (r, w') -> r <> Ok true ->
    lease_step run_id (mkSys w f ws) (mkSys w' (set_coord f c Idle) ws)
| step_crash c w f ws : lease_step run_id (mkSys w f ws) (mkSys w (set_coord f c Idle) ws)
| step_other w w' f ws :  (* any other client of the store, any fault *)
    contents w' !! lease_key run_id = contents w !! lease_key run_id ->
    contents w' !! epoch_key run_id = contents w !! epoch_key run_id ->
    lease_step run_id (mkSys w f ws) (mkSys w' f ws).

Definition lease_init (run_id : RunId) (s : sys) : Prop :=
  contents (world s) !! lease_key run_id = None /\ wins s = [] /\ forall c, coords s c = Idle.

Definition lease_reachable (run_id : RunId) (s : sys) : Prop :=
  exists s0, lease_init run_id s0 /\ rtc (lease_step run_id) s0 s.

(** The two rows are those of the newest win, up to the deadline a renewal
    moved, and the wins carry the epochs 0, 1, 2, ... in order. *)
Definition rows_of (run_id : RunId) (m : store) (ws : list LeaseRecord) : Prop :=
  match ws with
  | [] => m !! lease_key run_id = None
  | r :: _ => (exists x, m !! lease_key run_id = Some (encode (mkLease (holder r) (lease_epoch r) x))) /\
              m !! epoch_key run_id = Some (encode (lease_epoch r))
  end.

Fixpoint counted (ws : list LeaseRecord) : Prop :=
  match ws with
  | [] => True
  | r :: ws' => raw_epoch (lease_epoch r) = wrap 64 (N.of_nat (length ws')) /\ counted ws'
  end.

Definition lease_inv (run_id : RunId) (s : sys) : Prop :=
  rows_of run_id (contents (world s)) (wins s) /\ counted (wins s) /\
  forall c held, coords s c = Leading held -> holder held = c /\
    exists x, mkLease (holder held) (lease_epoch held) x ∈ wins s.

Lemma rows_of_same run_id m m' ws :
  m' !! lease_key run_id = m !! lease_key run_id ->
  m' !! epoch_key run_id = m !! epoch_key run_id ->
  rows_of run_id m ws -> rows_of run_id m' ws.
Proof. unfold rows_of. destruct ws; intros -> ?; [done|]. by intros [? <-]. Qed.

Lemma rows_of_claimed run_id m rec rec0 ws :
  holder rec = holder rec0 -> lease_epoch rec = lease_epoch rec0 ->
  rows_of run_id (claimed run_id rec m) (rec0 :: ws).
Proof.
  intros Hh He. unfold rows_of. rewrite lookup_claimed_lease, lookup_claimed_epoch.
  rewrite <- Hh, <- He. split; [|done]. exists (expires_at_ms rec). by destruct rec.
Qed.

Lemma wrap_succ n : u64_add (wrap 64 n) 1 = wrap 64 (n + 1).
Proof. unfold u64_add, wrap. by rewrite N.Div0.add_mod_idemp_l. Qed.

Lemma lease_inv_coords run_id w f ws c x :
  lease_inv run_id (mkSys w f ws) ->
  (forall held, x = Leading held -> holder held = c /\
     exists x', mkLease (holder held) (lease_epoch held) x' ∈ ws) ->
  lease_inv run_id (mkSys w (set_coord f c x) ws).
Proof.
  intros (Hr & Hcnt & Hl) Hx. split; [done|]. split; [done|]. simpl in *.
  intros c' held. unfold set_coord. case_decide; [subst; apply Hx | apply Hl].
Qed.

Lemma lease_inv_world run_id w w' f ws :
  contents w' !! lease_key run_id = contents w !! lease_key run_id ->
  contents w' !! epoch_key run_id = contents w !! epoch_key run_id ->
  lease_inv run_id (mkSys w f ws) -> lease_inv run_id (mkSys w' f ws).
Proof. intros ? ? (? & ? & ?). split; [by eapply rows_of_same|done]. Qed.

Lemma renew_eq run_id held now ttl :
  renew run_id held now ttl =
  commit_claim run_id (Some (encode held))
    (mkLease (holder held) (lease_epoch held) (u128_add now ttl)).
Proof. done. Qed.

(** A renewal that wins finds the newest win's row under the held bytes. *)
Lemma renew_newest run_id held w ws :
  rows_of run_id (contents w) ws ->
  contents w !! lease_key run_id = Some (encode held) ->
  exists r ws', ws = r :: ws' /\ holder held = holder r /\ lease_epoch held = lease_epoch r.
Proof.
  destruct ws as [|r ws']; simpl; [congruence|]. intros [[x ->] _] [= E%encode_inj].
  exists r, ws'. by subst held.
Qed.

Lemma lease_inv_claim run_id c now ttl row rec w w' f ws :
  f c = Read row now -> acquire_from run_id c now ttl row w = (Ok (Some rec), w') ->
  lease_inv run_id (mkSys w f ws) ->
  lease_inv run_id (mkSys w' (set_coord f c (Leading rec)) (rec :: ws)).
Proof.
  intros Hf Hstep (Hrows & Hcnt & Hl).
  eapply wp_elim in Hstep; [|apply acquire_from_spec].
  destruct Hstep as (_ & Hrow & Hw' & Hho & _ & Hep). simpl in *.
  assert (raw_epoch (lease_epoch rec) = wrap 64 (N.of_nat (length ws))) as Hcount.
  { destruct ws as [|r ws'].
    - simpl in Hrows. rewrite Hrows in Hrow. subst row. by rewrite Hep.
    - destruct Hrows as [[x Hx] _]. rewrite Hx in Hrow. subst row.
      destruct Hep as (prior & Hd & _ & ->). rewrite decode_encode in Hd.
      injection Hd as <-. simpl. destruct Hcnt as [-> _]. rewrite wrap_succ. f_equal. lia. }
  split; [simpl; rewrite Hw'; by apply rows_of_claimed|]. split; [done|].
  simpl. intros c' held. unfold set_coord. case_decide.
  - intros [= <-]. split; [congruence|]. exists (expires_at_ms rec). destruct rec; set_solver.
  - intros [Hc' [x Hx]]%Hl. split; [done|]. exists x. set_solver.
Qed.

Lemma lease_inv_step run_id s s' :
  lease_step run_id s s' -> lease_inv run_id s -> lease_inv run_id s'.
Proof.
  intros Hs. destruct Hs as [c now row w w' f ws Hg|c now ttl row rec w w' f ws Hf Ha
    |c now ttl row r w w' f ws Hf Ha Hr|c now ttl held w w' f ws Hf Hn
    |c now ttl held r w w' f ws Hf Hn Hr|c w f ws|w w' f ws Hl He]; intros Hinv.
  - eapply wp_elim in Hg; [|by apply get_row_spec]. destruct Hg as (Hc & _ & _).
    apply lease_inv_coords; [|done]. eapply lease_inv_world; [by rewrite Hc|by rewrite Hc|done].
  - by eapply lease_inv_claim.
  - eapply wp_elim in Ha; [|apply acquire_from_spec]. destruct Ha as (_ & Ha).
    apply lease_inv_coords; [|done].
    assert (contents w' = contents w) as Hc by 
      (destruct r as [[rec|]|e]; [by destruct (Hr rec)|apply Ha|apply Ha]).
    eapply lease_inv_world; [by rewrite Hc|by rewrite Hc|done].
  - rewrite renew_eq in Hn. eapply wp_elim in Hn; [|apply commit_claim_spec].
    destruct Hn as (_ & Hrow & Hc). destruct Hinv as (Hrows & Hcnt & Hl). simpl in *.
    destruct (renew_newest _ _ _ _ Hrows Hrow) as (r & ws' & -> & Hho & Hep).
    split; [simpl; rewrite Hc; by apply rows_of_claimed|]. split; [done|]. simpl.
    intros c' held'. unfold set_coord. case_decide; [|by apply Hl].
    intros [= <-]. simpl. subst c'. by apply Hl.
  - rewrite renew_eq in Hn. eapply wp_elim in Hn; [|apply commit_claim_spec].
    destruct Hn as (_ & Hn). apply lease_inv_coords; [|done].
    assert (contents w' = contents w) as Hc by (destruct r as [[]|e]; [done|apply Hn|apply Hn]).
    eapply lease_inv_world; [by rewrite Hc|by rewrite Hc|done].
  - by apply lease_inv_coords.
  - by eapply lease_inv_world.
Qed.

Lemma lease_reachable_inv run_id s : lease_reachable run_id s -> lease_inv run_id s.
Proof.
  intros (s0 & (Hrow & Hws & Hidle) & Hsteps).
  assert (lease_inv run_id s0) as Hinv.
  { unfold lease_inv. rewrite Hws. split; [done|]. split; [done|].
    intros c held Hl. by rewrite Hidle in Hl. }
  clear - Hsteps Hinv SL. induction Hsteps; [done|]. eauto using lease_inv_step.
Qed.

Lemma counted_lookup ws i r :
  counted ws -> ws !! i = Some r ->
  raw_epoch (lease_epoch r) = wrap 64 (N.of_nat (length ws - S i)).
Proof.
  revert i. induction ws as [|r0 ws IH]; intros [|i] Hc Hi; simplify_eq/=.
  - destruct Hc as [-> _]. f_equal. lia.
  - destruct Hc as [_ Hc]. by rewrite (IH i).
Qed.

(** C3: [try_acquire] takes the lease exactly when there is no row or the row has
    expired, with epoch 0 or one more than the expired epoch, and then writes
    the lease row and the epoch row together; a live row or an undecodable one
    leaves the store as it was, and so does any fault of the backend. *)
Theorem try_acquire_spec run_id me now ttl_ms w :
  wp (try_acquire run_id me now ttl_ms) (fun r w' =>
    match r with
    | Ok (Some rec) =>
        contents w' = claimed run_id rec (contents w) /\
        holder rec = me /\ expires_at_ms rec = u128_add now ttl_ms /\
        match contents w !! lease_key run_id with
        | None => lease_epoch rec = MkEpoch 0
        | Some bs => exists prior, decode bs = Ok prior /\ (expires_at_ms prior < now)%N /\
                       lease_epoch rec = MkEpoch (u64_add (raw_epoch (lease_epoch prior)) 1)
        end
    | Ok None =>
        contents w' = contents w /\
        exists bs prior, contents w !! lease_key run_id = Some bs /\ decode bs = Ok prior /\
                         (now <= expires_at_ms prior)%N
    | Err _ =>
        contents w' = contents w /\
        (~ healthy w \/ exists bs msg, contents w !! lease_key run_id = Some bs /\
                                      @decode _ LC bs = Err msg)
    end) w.
Proof.
  eapply wp_mono; [apply try_acquire_post|]. unfold acquire_post.
  intros [[rec|]|e] w' [_ H]; naive_solver.
Qed.

(** C4: In every interleaving of coordinators reading, claiming, renewing and
    crashing, no epoch is ever won twice (while the 64-bit counter has not
    wrapped around). *)
Theorem lease_one_win_per_epoch run_id s i j r1 r2
    (Hreach : lease_reachable run_id s) (Hlen : (N.of_nat (length (wins s)) <= 2 ^ 64)%N)
    (Hi : wins s !! i = Some r1) (Hj : wins s !! j = Some r2)
    (Heq : lease_epoch r1 = lease_epoch r2) : i = j.
Proof.
  apply lease_reachable_inv in Hreach as (_ & Hcnt & _).
  pose proof (counted_lookup _ _ _ Hcnt Hi) as H1.
  pose proof (counted_lookup _ _ _ Hcnt Hj) as H2.
  apply lookup_lt_Some in Hi, Hj. rewrite Heq, H2 in H1.
  rewrite !wrap_small in H1 by lia. lia.
Qed.

(** In every reachable state the lease row decodes, its holder and epoch are
    those of the newest win, and the authoritative epoch row carries the same
    epoch: the two rows never diverge. *)
Theorem lease_rows_agree run_id s bs (Hreach : lease_reachable run_id s)
    (Hrow : contents (world s) !! lease_key run_id = Some bs) :
  exists rec newest, decode bs = Ok rec /\ head (wins s) = Some newest /\
    holder rec = holder newest /\ lease_epoch rec = lease_epoch newest /\
    contents (world s) !! epoch_key run_id = Some (encode (lease_epoch rec)).
Proof.
  apply lease_reachable_inv in Hreach as (Hrows & _ & _).
  destruct (wins s) as [|r ws]; simpl in Hrows; [congruence|].
  destruct Hrows as [[x Hx] He]. rewrite Hx in Hrow. injection Hrow as <-.
  exists (mkLease (holder r) (lease_epoch r) x), r. rewrite decode_encode. auto.
Qed.

(** A coordinator whose epoch is no longer the newest one cannot renew: the
    call does not return [Ok(true)] and the store is as it was, so its fencing
    is certain and it writes nothing. *)
Theorem deposed_cannot_renew run_id s c held newest now ttl
    (Hreach : lease_reachable run_id s) (Hlead : coords s c = Leading held)
    (Hnew : head (wins s) = Some newest) (Hne : lease_epoch newest <> lease_epoch held) :
  wp (renew run_id held now ttl)
     (fun r w' => r <> Ok true /\ contents w' = contents (world s) /\
                  (healthy (world s) -> r = Ok false)) (world s).
Proof.
  apply lease_reachable_inv in Hreach as (Hrows & _ & _).
  rewrite renew_eq. eapply wp_mono; [apply commit_claim_spec|]. unfold claim_post.
  intros [[]|e] w' (_ & H); [|naive_solver..]. exfalso. destruct H as [Hrow _].
  destruct (renew_newest _ _ _ _ Hrows Hrow) as (r & ws' & Hws & _ & Hep).
  rewrite Hws in Hnew. simpl in Hnew. congruence.
Qed.

(** [renew] compares the whole held record and not its epoch: once a renewal
    has moved the deadline, renewing with the same held record again returns
    [Ok(false)] although the epoch never moved. *)
Theorem renew_twice_with_stale_record run_id held now1 now2 ttl w w1
    (Hok : healthy w) (Hren : renew run_id held now1 ttl w = (Ok true, w1))
    (Hmoved : u128_add now1 ttl <> expires_at_ms held) :
  wp (renew run_id held now2 ttl) (fun r w2 =>
    r = Ok false /\ contents w2 = contents w1 /\
    contents w2 !! epoch_key run_id = Some (encode (lease_epoch held))) w1.
Proof.
  rewrite renew_eq in Hren. eapply wp_elim in Hren; [|apply commit_claim_spec].
  destruct Hren as (Hh & _ & Hc). rewrite renew_eq.
  eapply wp_mono; [apply commit_claim_spec|]. unfold claim_post.
  rewrite Hc, lookup_claimed_lease. intros [[]|e] w2 (_ & H).
  - destruct H as [[= H%encode_inj] _]. destruct held. simpl in *. congruence.
  - destruct H as [_ ->]. by rewrite lookup_claimed_epoch.
  - naive_solver.
Qed.
End lease.

(** ** The worker-side epoch guard (epoch.rs) *)
Record EpochGuard : Type := mkGuard { seen_max : CoordEpoch }.

Definition EpochGuard_default : EpochGuard := mkGuard (MkEpoch 0).

Definition stamp_epoch {A} (resp : A) (epoch : CoordEpoch) : A * CoordEpoch := (resp, epoch).

Definition accept (resp_epoch : CoordEpoch) : M EpochGuard CoreError unit := fun g =>
  if decide (raw_epoch resp_epoch < raw_epoch (seen_max g))%N then
    (Err (Recoverable (Transient
       ("stale coord_epoch " +:+ pretty (raw_epoch resp_epoch) +:+ " < seen_max "
        +:+ pretty (raw_epoch (seen_max g)) +:+ " (deposed coordinator)") Never)), g)
  else (Ok tt, mkGuard (MkEpoch (N.max (raw_epoch (seen_max g)) (raw_epoch resp_epoch)))).

(** A worker's whole life: the epochs it accepted, in order. *)
Fixpoint accept_all (g : EpochGuard) (es : list CoordEpoch) : list CoordEpoch * EpochGuard :=
  match es with
  | [] => ([], g)
  | e :: es' => match accept e g with
                | (Ok _, g') => let '(acc, g'') := accept_all g' es' in (e :: acc, g'')
                | (Err _, g') => accept_all g' es'
                end
  end.

Definition epoch_le (a b : CoordEpoch) : Prop := (raw_epoch a <= raw_epoch b)%N.

Lemma accept_all_sorted es g acc g' :
  accept_all g es = (acc, g') ->
  StronglySorted epoch_le (seen_max g :: acc) /\ epoch_le (seen_max g) (seen_max g') /\
  Forall (fun e => epoch_le e (seen_max g')) es.
Proof.
  revert g acc g'. induction es as [|e es IH]; intros g acc g' H; simpl in H.
  { injection H as <- <-. unfold epoch_le. repeat constructor; lia. }
  unfold accept in H. case_decide as Hlt.
  - apply IH in H as (Hs & Hle & Hall). split; [done|]. split; [done|].
    constructor; [|done]. unfold epoch_le in *. lia.
  - destruct (accept_all _ es) as [acc1 g1] eqn:E. injection H as <- <-.
    apply IH in E as (Hs & Hle & Hall). unfold epoch_le in *; simpl in *.
    rewrite N.max_r in * by lia. split; [|split; [lia|]].
    + inversion Hs as [|? ? Hs1 Hf1]; subst. constructor; [constructor; [done|]|constructor].
      * eapply Forall_impl; [exact Hf1|]. simpl. lia.
      * lia.
      * eapply Forall_impl; [exact Hf1|]. simpl. lia.
    + constructor; [lia|done].
Qed.

(** Whatever responses a worker receives, the epochs it accepts never go down,
      none of them is below the epoch it started from, and at the end it has seen
      the highest epoch of all the responses, accepted or not. *)
Theorem epoch_guard_monotone es g acc g' (Hrun : accept_all g es = (acc, g')) :
  StronglySorted epoch_le acc /\ Forall (epoch_le (seen_max g)) acc /\
  epoch_le (seen_max g) (seen_max g') /\ Forall (fun e => epoch_le e (seen_max g')) es.
Proof.
  apply accept_all_sorted in Hrun as (Hs & Hle & Hall).
  inversion Hs; subst. auto.
Qed.

(** ** The theorems at concrete inputs: the reference store, two coordinators *)
Section lease_examples.
#[local] Existing Instance bits_codec.

Local Definition w0 : Mem.World := Mem.mkWorld ∅ [] [].
Local Definition expired : LeaseRecord := mkLease 7 (MkEpoch 3) 100.
Local Definition w_expired : Mem.World :=
  Mem.mkWorld {[ lease_key 1 := encode expired; epoch_key 1 := encode (MkEpoch 3) ]} [] [].
Local Definition run_ {A} (m : M Mem.World CoreError A) (w : Mem.World) : Mem.World := snd (m w).

Local Definition first : LeaseRecord := mkLease 7 (MkEpoch 0) 150.
Local Definition second : LeaseRecord := mkLease 8 (MkEpoch 1) 250.
Local Definition w1 : Mem.World := run_ (acquire_from 1 7 100 50 None) w0.
Local Definition row1 : option bytes := Some (encode first).
Local Definition w2 : Mem.World := run_ (acquire_from 1 8 200 50 row1) w1.
Local Definition f0 : WorkerId -> coord := fun _ => Idle.
Local Definition f1 := set_coord f0 7%N (Read None 100).
Local Definition f2 := set_coord f1 7%N (Leading first).
Local Definition f3 := set_coord f2 8%N (Read row1 200).
Local Definition f4 := set_coord f3 8%N (Leading second).
(** Coordinator 7 wins epoch 0, its lease expires, coordinator 8 steals epoch 1. *)
Local Definition raced : @sys Mem.World := mkSys w2 f4 [second; first].

Lemma first_win : acquire_from 1 7 100 50 None w0 = (Ok (Some first), w1).
Proof. vm_compute. reflexivity. Qed.
Lemma second_win : acquire_from 1 8 200 50 row1 w1 = (Ok (Some second), w2).
Proof. vm_compute. reflexivity. Qed.
Lemma w0_row : get_bytes (lease_key 1) w0 = (Ok None, w0).
Proof. vm_compute. reflexivity. Qed.
Lemma w1_row : get_bytes (lease_key 1) w1 = (Ok row1, w1).
Proof. vm_compute. reflexivity. Qed.

Lemma raced_reachable : lease_reachable 1 raced.
Proof.
  exists (mkSys w0 f0 []). split; [by split|].
  apply (rtc_l _ _ _ _ (step_read 1 7 100 None w0 w0 f0 [] w0_row)).
  apply (rtc_l _ _ _ _ (step_claim 1 7 100 50 None first w0 w1 f1 [] eq_refl first_win)).
  apply (rtc_l _ _ _ _ (step_read 1 8 200 row1 w1 w1 f2 [first] w1_row)).
  apply (rtc_l _ _ _ _ (step_claim 1 8 200 50 row1 second w1 w2 f3 [first] eq_refl second_win)).
  apply rtc_refl.
Qed.

Lemma try_acquire_spec_witness :
  fst (try_acquire 1 9 101 50 w_expired) = Ok (Some (mkLease 9 (MkEpoch 4) 151)) /\
  exists prior, decode (encode expired) = Ok prior /\ (expires_at_ms prior < 101)%N /\
    MkEpoch 4 = MkEpoch (u64_add (raw_epoch (lease_epoch prior)) 1).
Proof.
  split; [vm_compute; reflexivity|].
  pose proof (try_acquire_spec (ST := Mem.storage) 1 9 101 50 w_expired) as H.
  unfold wp in H. assert (fst (try_acquire 1 9 101 50 w_expired) =
    Ok (Some (mkLease 9 (MkEpoch 4) 151))) as E by (vm_compute; reflexivity).
  rewrite E in H. exact (proj2 (proj2 (proj2 H))).
Defined.

Lemma lease_one_win_per_epoch_witness :
  wins raced = [second; first] /\
  forall i j, wins raced !! i = Some second -> wins raced !! j = Some second -> i = j.
Proof.
  split; [reflexivity|]. intros i j Hi Hj. apply (lease_one_win_per_epoch 1 raced i j second second);
    [apply raced_reachable | vm_compute; discriminate | exact Hi | exact Hj | reflexivity].
Defined.

Lemma lease_rows_agree_witness : exists rec newest,
  decode (encode second) = Ok rec /\ head (wins raced) = Some newest /\
  holder rec = holder newest /\ lease_epoch rec = lease_epoch newest /\
  contents (world raced) !! epoch_key 1 = Some (encode (lease_epoch rec)).
Proof.
  apply (lease_rows_agree 1 raced (encode second));
    [apply raced_reachable | vm_compute; reflexivity].
Defined.

Lemma deposed_cannot_renew_witness :
  coords raced 7 = Leading first /\ fst (renew 1 first 210 50 w2) = Ok false.
Proof.
  split; [vm_compute; reflexivity|].
  apply (deposed_cannot_renew 1 raced 7 first second 210 50);
    [apply raced_reachable | vm_compute; reflexivity | reflexivity | vm_compute; discriminate
    | vm_compute; constructor].
Defined.

Lemma renew_twice_with_stale_record_witness :
  fst (renew 1 first 120 50 (run_ (renew 1 first 110 50) w1)) = Ok false.
Proof.
  apply (renew_twice_with_stale_record 1 first 110 120 50 w1);
    [vm_compute; constructor | vm_compute; reflexivity | vm_compute; discriminate].
Defined.

Lemma epoch_guard_monotone_witness :
  fst (accept_all EpochGuard_default (MkEpoch <$> [3; 1; 2; 5]%N)) = MkEpoch <$> [3; 5]%N /\
  StronglySorted epoch_le (MkEpoch <$> [3; 5]%N).
Proof.
  split; [vm_compute; reflexivity|].
  apply (epoch_guard_monotone (MkEpoch <$> [3; 1; 2; 5]%N) EpochGuard_default
           (MkEpoch <$> [3; 5]%N) (mkGuard (MkEpoch 5))).
  vm_compute; reflexivity.
Defined.
End lease_examples.
