(* ===== verification/WorkItem.v ===== *)
(** The work-item state machine (rollout-coordinator/src/work_item.rs): each
    transition is a compare-and-swap on the encoding of the record the caller
    read, and the abstract machine those transitions implement. *)
From stdpp Require Import base option list gmap strings.
From S2P Require Import Prelude.
From S2P Require Import Core.
From S2P Require Import Storage.

Inductive WorkState : Type :=
| Pending
| Running (worker_id : WorkerId) (started_at_ms : N)
| Done (result_id : ContentId)
| Failed (reason : string).

Record WorkItemRecord : Type := mkWork { work_id : ContentId; state : WorkState }.

#[global] Instance WorkState_eq_dec : EqDecision WorkState.
Proof. solve_decision. Defined.
#[global] Instance WorkItemRecord_eq_dec : EqDecision WorkItemRecord.
Proof. solve_decision. Defined.
#[global] Program Instance WorkState_countable : Countable WorkState :=
  inj_countable'
    (fun s => match s with
              | Pending => inl tt
              | Running w t => inr (inl (w, t))
              | Done r => inr (inr (inl r))
              | Failed m => inr (inr (inr m))
              end)
    (fun c => match c with
              | inl _ => Pending
              | inr (inl (w, t)) => Running w t
              | inr (inr (inl r)) => Done r
              | inr (inr (inr m)) => Failed m
              end) _.
Next Obligation. by intros []. Qed.
#[global] Program Instance WorkItemRecord_countable : Countable WorkItemRecord :=
  inj_countable' (fun r => (work_id r, state r)) (fun '(i, s) => mkWork i s) _.
Next Obligation. by intros []. Qed.

Definition work_key (run_id : RunId) (id : ContentId) : StorageKey :=
  mkKey "work" (Some run_id) ["item"; ContentId_to_string id].

Definition work_prefix (run_id : RunId) : KeyRange :=
  mkRange (mkKey "work" (Some run_id) ["item"]) None.

Lemma work_key_known run_id id : known (work_key run_id id).
Proof. unfold known; simpl. set_solver. Qed.
#[global] Hint Resolve work_key_known : core.

Lemma work_key_inj run_id id id' : work_key run_id id = work_key run_id id' -> id = id'.
Proof. intros [= H]. by apply ContentId_to_string_inj. Qed.

Section work_item.
Context {W T : Type} {ST : Storage W T} {SL : StorageLaws W T} {WC : Codec WorkItemRecord}.

(** The CAS all three transitions end in: the caller's record for the next one. *)
Definition cas_record (txn : T) (run_id : RunId) (record next : WorkItemRecord)
  : M W CoreError (bool * T) :=
  cas_bytes txn (work_key run_id (work_id record)) (Some (encode record)) (Some (encode next)).

Definition try_claim (txn : T) (run_id : RunId) (record : WorkItemRecord) (worker_id : WorkerId)
    (now_ms : N) : M W CoreError (bool * T) :=
  match state record with
  | Pending => cas_record txn run_id record (mkWork (work_id record) (Running worker_id now_ms))
  | _ => mret (false, txn)
  end.

Definition try_complete (txn : T) (run_id : RunId) (running_record : WorkItemRecord)
    (result_id : ContentId) : M W CoreError (bool * T) :=
  match state running_record with
  | Running _ _ =>
      cas_record txn run_id running_record (mkWork (work_id running_record) (Done result_id))
  | _ => mret (false, txn)
  end.

Definition try_repending (txn : T) (run_id : RunId) (running_record : WorkItemRecord)
  : M W CoreError (bool * T) :=
  match state running_record with
  | Running _ _ => cas_record txn run_id running_record (mkWork (work_id running_record) Pending)
  | _ => mret (false, txn)
  end.

(** ** What a transition does to the view of the transaction it runs in *)
Definition cas_post (run_id : RunId) (txn : T) (record next : WorkItemRecord) (w : W)
    (r : result CoreError (bool * T)) (w' : W) : Prop :=
  same w w' /\ ok_or_fault w r (fun bt =>
    if bt.1 then view txn !! work_key run_id (work_id record) = Some (encode record) /\
                 view bt.2 = <[work_key run_id (work_id record) := encode next]> (view txn)
    else view txn !! work_key run_id (work_id record) <> Some (encode record) /\
         view bt.2 = view txn).

Lemma cas_record_spec txn run_id record next w :
  wp (cas_record txn run_id record next) (cas_post run_id txn record next w) w.
Proof.
  unfold cas_record, cas_post. wp_call cas_law; [done|].
  intros [[won t']|e] w' [Hs Hr]; split; auto. simpl in *. destruct Hr as [Hr _].
  unfold cas_view in Hr. case_decide; injection Hr as -> ->; auto.
Qed.

(** The guard of each transition. *)
Definition is_pending (s : WorkState) : Prop := s = Pending.
Definition is_running (s : WorkState) : Prop := exists w t, s = Running w t.

(** A guarded CAS: it wins exactly when the guard holds of the caller's record
    and the stored row is that record. *)
Definition guarded_post (run_id : RunId) (txn : T) (guard : WorkState -> Prop)
    (record next : WorkItemRecord) (w : W) (r : result CoreError (bool * T)) (w' : W) : Prop :=
  same w w' /\ ok_or_fault w r (fun bt =>
    if bt.1 then guard (state record) /\
                 view txn !! work_key run_id (work_id record) = Some (encode record) /\
                 view bt.2 = <[work_key run_id (work_id record) := encode next]> (view txn)
    else view bt.2 = view txn /\
         (~ guard (state record) \/
          view txn !! work_key run_id (work_id record) <> Some (encode record))).

Lemma guarded_cas (guard : WorkState -> Prop) txn run_id record next w :
  guard (state record) ->
  wp (cas_record txn run_id record next) (guarded_post run_id txn guard record next w) w.
Proof.
  intros Hg. eapply wp_mono; [apply cas_record_spec|]. unfold guarded_post, cas_post.
  intros [[[] t']|e] w' [Hs Hr]; split; simpl in *; naive_solver.
Qed.

Lemma guarded_refused (guard : WorkState -> Prop) txn run_id record next w :
  ~ guard (state record) ->
  wp (mret (false, txn)) (guarded_post run_id txn guard record next w) w.
Proof. intros Hg. apply wp_ret. split; [by repeat split|]. simpl. auto. Qed.

Lemma try_claim_spec txn run_id record worker_id now_ms w :
  wp (try_claim txn run_id record worker_id now_ms)
     (guarded_post run_id txn is_pending record
        (mkWork (work_id record) (Running worker_id now_ms)) w) w.
Proof.
  unfold try_claim. destruct (state record) eqn:Hs;
    first [by apply guarded_cas | apply guarded_refused; by rewrite Hs].
Qed.

Lemma try_complete_spec txn run_id record result_id w :
  wp (try_complete txn run_id record result_id)
     (guarded_post run_id txn is_running record (mkWork (work_id record) (Done result_id)) w) w.
Proof.
  unfold try_complete. destruct (state record) eqn:Hs;
    first [apply guarded_cas; rewrite Hs; by do 2 eexists
          | apply guarded_refused; rewrite Hs; by intros (? & ? & ?)].
Qed.

Lemma try_repending_spec txn run_id record w :
  wp (try_repending txn run_id record)
     (guarded_post run_id txn is_running record (mkWork (work_id record) Pending) w) w.
Proof.
  unfold try_repending. destruct (state record) eqn:Hs;
    first [apply guarded_cas; rewrite Hs; by do 2 eexists
          | apply guarded_refused; rewrite Hs; by intros (? & ? & ?)].
Qed.

(** ** Transitions as the coordinator runs them: each in a transaction of its own,
    committed when the CAS won.  A steal re-pends and re-claims in one transaction. *)
Inductive work_op : Type :=
| OpClaim (record : WorkItemRecord) (worker_id : WorkerId) (now_ms : N)
| OpComplete (record : WorkItemRecord) (result_id : ContentId)
| OpRepend (record : WorkItemRecord)
| OpSteal (record : WorkItemRecord) (thief : WorkerId) (now_ms : N).

Definition op_record (op : work_op) : WorkItemRecord :=
  match op with
  | OpClaim r _ _ | OpComplete r _ | OpRepend r | OpSteal r _ _ => r
  end.

Definition op_id (op : work_op) : ContentId := work_id (op_record op).

Definition op_body (txn : T) (run_id : RunId) (op : work_op) : M W CoreError (bool * T) :=
  match op with
  | OpClaim r wid now => try_claim txn run_id r wid now
  | OpComplete r result => try_complete txn run_id r result
  | OpRepend r => try_repending txn run_id r
  | OpSteal r thief now =>
      let* '(ok, txn) := try_repending txn run_id r in
      if ok then try_claim txn run_id (mkWork (work_id r) Pending) thief now
      else mret (false, txn)
  end.

Definition run_op (run_id : RunId) (op : work_op) : M W CoreError bool :=
  let* txn := begin_txn in
  let* '(won, txn) := op_body txn run_id op in
  if won then let* _ := commit txn in mret true
  else let* _ := abort txn in mret false.

(** The abstract machine: which states an operation leaves, and for which. *)
Definition op_next (op : work_op) (s : WorkState) : option WorkState :=
  match op, s with
  | OpClaim _ wid now, Pending => Some (Running wid now)
  | OpComplete _ result, Running _ _ => Some (Done result)
  | OpRepend _, Running _ _ => Some Pending
  | OpSteal _ thief now, Running _ _ => Some (Running thief now)
  | _, _ => None
  end.

Definition op_row (run_id : RunId) (op : work_op) : StorageKey := work_key run_id (op_id op).

Definition applied (run_id : RunId) (op : work_op) (m m' : store) : Prop :=
  m !! op_row run_id op = Some (encode (op_record op)) /\
  exists s', op_next op (state (op_record op)) = Some s' /\
             m' = <[op_row run_id op := encode (mkWork (op_id op) s')]> m.

Definition refused (run_id : RunId) (op : work_op) (m : store) : Prop :=
  m !! op_row run_id op <> Some (encode (op_record op)) \/
  op_next op (state (op_record op)) = None.

Lemma op_body_spec run_id op txn w :
  wp (op_body txn run_id op) (fun r w' => same w w' /\ ok_or_fault w r (fun bt =>
    if bt.1 then applied run_id op (view txn) (view bt.2)
    else refused run_id op (view txn))) w.
Proof.
  destruct op as [r wid now|r result|r|r thief now]; unfold op_body, applied, refused, op_row, op_id; simpl.
  - eapply wp_mono; [apply try_claim_spec|]. intros [[[] t']|e] w' [Hs Hr]; split; auto; simpl in *.
    + destruct Hr as (-> & ? & ->). eauto.
    + destruct Hr as (_ & [Hg|?]); [|by left]. right. by destruct (state r).
  - eapply wp_mono; [apply try_complete_spec|]. intros [[[] t']|e] w' [Hs Hr]; split; auto; simpl in *.
    + destruct Hr as ((? & ? & ->) & ? & ->). eauto.
    + destruct Hr as (_ & [Hg|?]); [|by left]. right. destruct (state r) eqn:E; try done.
      exfalso. apply Hg. by do 2 eexists.
  - eapply wp_mono; [apply try_repending_spec|]. intros [[[] t']|e] w' [Hs Hr]; split; auto; simpl in *.
    + destruct Hr as ((? & ? & ->) & ? & ->). eauto.
    + destruct Hr as (_ & [Hg|?]); [|by left]. right. destruct (state r) eqn:E; try done.
      exfalso. apply Hg. by do 2 eexists.
  - wp_call try_repending_spec. intros [[[] t']|e] w1 [Hs Hr]; simpl in *; [|apply wp_ret|by split].
    + destruct Hr as ((? & ? & ->) & Hrow & Hv).
      eapply wp_mono; [apply try_claim_spec|]. unfold guarded_post. simpl.
      intros [[[] t2]|e] w2 [Hs2 Hr]; simpl in *.
      * destruct Hs as (Hc & Hp & Hh), Hs2 as (Hc2 & Hp2 & Hh2).
        split; [split; [congruence|split; [congruence|auto]]|].
        destruct Hr as (_ & _ & ->). split; [done|]. eexists. split; [done|].
        by rewrite Hv, insert_insert_eq.
      * exfalso. destruct Hr as (_ & [Hg|Hg]); [by apply Hg|].
        apply Hg. by rewrite Hv, lookup_insert_eq.
      * destruct Hs as (Hc & Hp & Hh), Hs2 as (Hc2 & Hp2 & Hh2).
        split; [split; [congruence|split; [congruence|auto]]|]. auto.
    + split; [done|]. simpl. destruct Hr as (_ & [Hg|?]); [|by left]. right.
      destruct (state r) eqn:E; try done. exfalso. apply Hg. by do 2 eexists.
Qed.

Lemma run_op_spec run_id op w :
  wp (run_op run_id op) (fun r w' => (healthy w -> healthy w') /\
    match r with
    | Ok true => applied run_id op (contents w) (contents w')
    | Ok false => contents w' = contents w /\ refused run_id op (contents w)
    | Err _ => contents w' = contents w /\ ~ healthy w
    end) w.
Proof.
  unfold run_op. wp_call begin_law. intros [t|e] w1 ((Hc1 & _ & Hh1) & Ht); [destruct Ht as [Hv _]|by auto].
  wp_call op_body_spec. intros [[[] t2]|e] w2 ((Hc2 & _ & Hh2) & Hr); simpl in *.
  - wp_call commit_law. intros [[]|e] w3 (Hh3 & Hr3).
    + apply wp_ret. destruct Hr3 as [-> _]. rewrite <- Hv. auto.
    + split; [auto|]. destruct Hr3 as (? & -> & _). split; [congruence|auto].
  - wp_call abort_law. intros [[]|e] w3 ((Hc3 & _ & Hh3) & Hr3).
    + apply wp_ret. split; [auto|]. split; [congruence|]. by rewrite <- Hv.
    + split; [auto|]. split; [congruence|auto].
  - split; [auto|]. split; [congruence|auto].
Qed.

(** ** Any interleaving of such transactions, by any number of callers holding any
    records, with other clients of the store in between that leave the run's work
    rows alone.  The writers that do not go through a transition, the dispatch of
    ledger.rs and the seeding put of the eval harness, are added in Completions.v. *)
Inductive work_run (run_id : RunId) : W -> list work_op -> W -> Prop :=
| run_nil w : work_run run_id w [] w
| run_won op ops w w' w'' :
    run_op run_id op w = (Ok true, w') -> work_run run_id w' ops w'' ->
    work_run run_id w (op :: ops) w''
| run_lost op r ops w w' w'' :
    run_op run_id op w = (r, w') -> r <> Ok true -> work_run run_id w' ops w'' ->
    work_run run_id w ops w''
| run_other ops w w' w'' :
    (forall id, contents w' !! work_key run_id id = contents w !! work_key run_id id) ->
    work_run run_id w' ops w'' -> work_run run_id w ops w''.

Definition item_is (run_id : RunId) (id : ContentId) (w : W) (s : WorkState) : Prop :=
  contents w !! work_key run_id id = Some (encode (mkWork id s)).

(** The abstract run of one item. *)
Fixpoint machine (ops : list work_op) (s : WorkState) : option WorkState :=
  match ops with
  | [] => Some s
  | op :: ops' => match op_next op s with Some s' => machine ops' s' | None => None end
  end.

Definition ops_of (id : ContentId) (ops : list work_op) : list work_op :=
  filter (fun op => op_id op = id) ops.

Lemma work_run_machine run_id id w ops w' s :
  work_run run_id w ops w' -> item_is run_id id w s ->
  exists s', item_is run_id id w' s' /\ machine (ops_of id ops) s = Some s'.
Proof.
  intros Hrun. revert s. induction Hrun as [w|op ops w w1 w2 Hop _ IH|op r ops w w1 w2 Hop Hr _ IH
    |ops w w1 w2 Hsame _ IH]; intros s Hs.
  - by exists s.
  - eapply wp_elim in Hop; [|apply run_op_spec]. destruct Hop as (_ & Hrow & s1 & Hnext & Hc).
    unfold item_is, ops_of in *. rewrite filter_cons. case_decide as Hid.
    + unfold op_row in Hrow, Hc. rewrite Hid in Hrow, Hc. rewrite Hs in Hrow.
      injection Hrow as Hrec%encode_inj. rewrite <- Hrec in Hnext. simpl in *. rewrite Hnext.
      apply IH. by rewrite Hc, lookup_insert_eq.
    + apply IH. rewrite Hc, lookup_insert_ne; [done|]. intros Hk. by apply work_key_inj in Hk.
  - apply IH. eapply wp_elim in Hop; [|apply run_op_spec]. destruct Hop as (_ & Hop).
    unfold item_is. destruct r as [[]|e]; [done| |]; by destruct Hop as [-> _].
  - apply IH. unfold item_is. by rewrite Hsame.
Qed.

Lemma machine_app l1 l2 s : machine (l1 ++ l2) s = machine l1 s ≫= machine l2.
Proof.
  revert s. induction l1 as [|op l1 IH]; intros s; simpl; [done|]. by destruct (op_next op s).
Qed.

Lemma machine_done l r : machine l (Done r) = None \/ l = [].
Proof. destruct l as [|[] l]; simpl; auto. Qed.

Definition is_complete (op : work_op) : Prop := match op with OpComplete _ _ => True | _ => False end.
Definition is_claim (op : work_op) : Prop := match op with OpClaim _ _ _ => True | _ => False end.
Definition is_repend (op : work_op) : Prop := match op with OpRepend _ => True | _ => False end.

(** From a claimed item no claim is possible before a re-pend. *)
Lemma machine_claim_needs_repend l op2 s s' :
  machine (l ++ [op2]) s = Some s' -> s <> Pending -> is_claim op2 -> Exists is_repend l.
Proof.
  revert s. induction l as [|op l IH]; intros s Hm Hs Hc; simpl in Hm.
  - destruct op2, s; by simpl in *.
  - destruct (op_next op s) as [s1|] eqn:E; [|done].
    destruct (decide (s1 = Pending)) as [->|Hne].
    + apply Exists_cons_hd. destruct op, s; by simpl in *.
    + apply Exists_cons_tl. by eapply IH.
Qed.

(** C5: Every interleaving of claims, completions, re-pends and steals, by callers
    holding arbitrarily stale records, does to each item exactly what the abstract
    machine does with the operations that won on it, in that order: no lost and
    no phantom transition. *)
Theorem work_ops_refine_machine run_id id w ops w' s
    (Hrun : work_run run_id w ops w') (Hs : item_is run_id id w s) :
  exists s', item_is run_id id w' s' /\ machine (ops_of id ops) s = Some s'.
Proof. by eapply work_run_machine. Qed.

(** C26: [Done] is terminal: whatever is replayed afterwards, acks, re-pends and
    steals included, no operation wins on the item and its result is kept. *)
Theorem done_is_terminal run_id id w ops w' result_id
    (Hrun : work_run run_id w ops w') (Hs : item_is run_id id w (Done result_id)) :
  item_is run_id id w' (Done result_id) /\ ops_of id ops = [].
Proof.
  destruct (work_run_machine _ _ _ _ _ _ Hrun Hs) as (s' & Hs' & Hm).
  destruct (machine_done (ops_of id ops) result_id) as [Hn|Hn]; [congruence|].
  rewrite Hn in Hm. injection Hm as <-. auto.
Qed.

(** An item is claimed by one caller only: between two claims that won on the
    same item a re-pend of that item has won. *)
Theorem single_claim_winner run_id id w w' s l1 c1 l2 c2 l3
    (Hrun : work_run run_id w (l1 ++ c1 :: l2 ++ c2 :: l3) w') (Hs : item_is run_id id w s)
    (Hc1 : is_claim c1) (Hc2 : is_claim c2) (Hi1 : op_id c1 = id) (Hi2 : op_id c2 = id) :
  Exists (fun op => is_repend op /\ op_id op = id) l2.
Proof.
  destruct (work_run_machine _ _ _ _ _ _ Hrun Hs) as (s' & _ & Hm).
  unfold ops_of in Hm. rewrite filter_app, filter_cons_True, filter_app, filter_cons_True in Hm by done.
  rewrite machine_app in Hm. destruct (machine (filter _ l1) s) as [s1|]; simpl in Hm; [|done].
  destruct (op_next c1 s1) as [s2|] eqn:E; [|done].
  rewrite cons_middle, app_assoc, machine_app in Hm.
  destruct (machine (filter _ l2 ++ [c2]) s2) as [s3|] eqn:E3; simpl in Hm; [|done].
  apply machine_claim_needs_repend in E3; [| |done].
  - apply Exists_exists in E3 as (op & [Hid Hin]%list_elem_of_filter & Hr).
    apply Exists_exists. eauto.
  - destruct c1, s1; simpl in *; congruence.
Qed.

(** By these transitions alone, an item is completed at most once: after a completion
    won, no transition on it wins, so a replayed ack and a concurrent steal are
    no-ops (a dispatch or a seed of the same item starts it over: Completions.v). *)
Theorem completed_at_most_once run_id id w w' s l1 c l2
    (Hrun : work_run run_id w (l1 ++ c :: l2) w') (Hs : item_is run_id id w s)
    (Hc : is_complete c) (Hi : op_id c = id) :
  ops_of id l2 = [].
Proof.
  destruct (work_run_machine _ _ _ _ _ _ Hrun Hs) as (s' & _ & Hm).
  unfold ops_of in *. rewrite filter_app, filter_cons_True, machine_app in Hm by done.
  destruct (machine (filter _ l1) s) as [s1|]; simpl in Hm; [|done].
  destruct (op_next c s1) as [s2|] eqn:E; [|done].
  destruct c as [|r result| |]; try done. destruct s1; try done. injection E as <-.
  destruct (machine_done (filter (fun op => op_id op = id) l2) result) as [Hn|Hn];
    unfold ops_of in *; congruence.
Qed.
End work_item.

(** ** The theorems at a concrete history: claim by 7, a second claim that loses,
    completion, a replayed completion that loses *)
Section work_item_examples.
#[local] Existing Instance bits_codec.

Definition item : ContentId := [x0a].  (* a short id keeps the example small *)
Definition pending_item : WorkItemRecord := mkWork item Pending.
Definition running_item : WorkItemRecord := mkWork item (Running 7 100).
Definition w_pending : Mem.World := Mem.mkWorld {[ work_key 1 item := encode pending_item ]} [] [].
Definition claim7 : work_op := OpClaim pending_item 7 100.
Definition repend7 : work_op := OpRepend running_item.
Definition complete7 : work_op := OpComplete running_item ([x0b]).
Definition after (ops : list work_op) : Mem.World :=
  foldl (fun w op => snd (run_op (W := Mem.World) 1 op w)) w_pending ops.

Lemma run_done_eq (w w' : Mem.World) : w = w' -> work_run 1 w [] w'.
Proof. intros ->. constructor. Qed.

Lemma run_examples :
  work_run (W := Mem.World) 1 w_pending [claim7; repend7; claim7; complete7]
           (after [claim7; repend7; claim7; complete7]).
Proof.
  eapply run_won; [vm_compute; reflexivity|].
  eapply (run_lost _ (OpClaim pending_item 8 101)); [vm_compute; reflexivity|discriminate|].
  do 3 (eapply run_won; [vm_compute; reflexivity|]).
  eapply (run_lost _ complete7); [vm_compute; reflexivity|discriminate|].
  apply run_done_eq. vm_compute. reflexivity.
Qed.

Lemma run_after_done :
  work_run (W := Mem.World) 1 (after [claim7; complete7]) [] (after [claim7; complete7]).
Proof.
  eapply (run_lost _ complete7); [vm_compute; reflexivity|discriminate|].
  eapply (run_lost _ repend7); [vm_compute; reflexivity|discriminate|].
  apply run_done_eq. vm_compute. reflexivity.
Qed.

Lemma work_ops_refine_machine_witness : exists s',
  item_is 1 item (after [claim7; repend7; claim7; complete7]) s' /\
  machine (ops_of item [claim7; repend7; claim7; complete7]) Pending = Some s'.
Proof.
  apply (work_ops_refine_machine 1 item w_pending); [apply run_examples | vm_compute; reflexivity].
Defined.

Lemma done_is_terminal_witness :
  item_is 1 item (after [claim7; complete7]) (Done ([x0b])) /\ ops_of item [] = [].
Proof.
  apply (done_is_terminal 1 item (after [claim7; complete7]) []);
    [apply run_after_done | vm_compute; reflexivity].
Defined.

Lemma single_claim_winner_witness : Exists (fun op => is_repend op /\ op_id op = item) [repend7].
Proof.
  apply (single_claim_winner 1 item w_pending (after [claim7; repend7; claim7; complete7]) Pending
           [] claim7 [repend7] claim7 [complete7]);
    [apply run_examples | vm_compute; reflexivity | exact I | exact I | reflexivity | reflexivity].
Defined.

Lemma completed_at_most_once_witness :
  is_complete complete7 /\ ops_of item [] = [].
Proof.
  split; [exact I|].
  apply (completed_at_most_once 1 item w_pending (after [claim7; repend7; claim7; complete7]) Pending
           [claim7; repend7; claim7] complete7 []);
    [apply run_examples | vm_compute; reflexivity | exact I | reflexivity].
Defined.
End work_item_examples.
