(* ===== verification/Events.v ===== *)
(** The events the coordinator reports and where they go (rollout-core's Event and
    EventEmitter, rollout-coordinator/src/emitter.rs): the trait as a class with its
    law, the emitter that discards and the one that writes a JSON line per event. *)
From stdpp Require Import base option list strings.
From S2P Require Import Prelude.
From S2P Require Import Core.

(** An attribute of an event. *)
Inductive attr : Type := Num (n : N) | Str (s : string).

(** An [Event]; the fields the coordinator always leaves empty are left out, and
    [attrs] is the JSON object's fields, none for [Null]. *)
Inductive Level : Type := Info | Warn.
Record Event : Type := mkEvent {
  topic : string; level : Level; ev_run : option RunId; ev_worker : option WorkerId;
  ev_attrs : list (string * attr);
}.

(** The [EventEmitter] trait: what was handed to it, in order; it may fail. *)
Class Emitter (E : Type) : Type := {
  attempts : E -> list Event;
  emit : Event -> M E CoreError unit;
}.
Class EmitterLaws (E : Type) `{Emitter E} : Prop := {
  emit_law ev e : wp (emit ev) (fun _ e' => attempts e' = attempts e ++ [ev]) e;
}.

(** ** emitter.rs.  Both keep a ghost list of the events they were handed. *)
Record NoopEmitter : Type := mkNoop { noop_seen : list Event }.

#[global] Instance noop_emitter : Emitter NoopEmitter := {
  attempts := noop_seen;
  emit ev := fun e => (Ok tt, mkNoop (noop_seen e ++ [ev]));
}.
#[global] Instance noop_laws : EmitterLaws NoopEmitter.
Proof. by split. Qed.

(** Standard output: the bytes written, and the faults of the writes to come: a
    [write_all] may stop after some bytes, a [flush] may fail after the line. *)
Inductive fault : Type := WriteFault (n : nat) (e : string) | FlushFault (e : string).
Record StdoutJsonEmitter : Type := mkStdout {
  out_seen : list Event; written : bytes; out_faults : list (option fault);
}.

Section stdout.
(** [serde_json::to_vec] is not in the repository. *)
Context (event_json : Event -> result string bytes).

Definition stdout_emit (ev : Event) : M StdoutJsonEmitter CoreError unit := fun s =>
  let seen := out_seen s ++ [ev] in
  match event_json ev with
  | Err e => (Err (internal ("event serialize: " +:+ e)), mkStdout seen (written s) (out_faults s))
  | Ok json =>
      let line := json ++ [x0a] in
      match out_faults s with
      | [] => (Ok tt, mkStdout seen (written s ++ line) [])
      | None :: fs => (Ok tt, mkStdout seen (written s ++ line) fs)
      | Some (WriteFault n e) :: fs =>
          (Err (internal ("stdout write: " +:+ e)), mkStdout seen (written s ++ take n line) fs)
      | Some (FlushFault e) :: fs =>
          (Err (internal ("stdout flush: " +:+ e)), mkStdout seen (written s ++ line) fs)
      end
  end.

#[local] Instance stdout_emitter : Emitter StdoutJsonEmitter := { attempts := out_seen; emit := stdout_emit }.
#[local] Instance stdout_laws : EmitterLaws StdoutJsonEmitter.
Proof.
  split. intros ev s. unfold wp; simpl. unfold stdout_emit.
  destruct (event_json ev); [|done]. by destruct (out_faults s) as [|[[]|] ?].
Qed.
End stdout.
