(* ===== verification/Ledger.v ===== *)
(** The durable dispatch queue and in-flight ledger of the coordinator
    (rollout-coordinator/src/ledger.rs): [queue_items] rows in ULID order, [work]
    rows of [WorkItemRecord]s, and the backlog counts that pick a steal victim. *)
From stdpp Require Import base option list gmap strings sorting.
From S2P Require Import Prelude.
From S2P Require Import Core.
From S2P Require Import Storage.
From S2P Require Import WorkItem.

(** [a.path.last().cmp(&b.path.last())]: the order of the last path segments. *)
Definition segment_le (a b : option string) : bool :=
  match a, b with
  | None, _ => true
  | Some _, None => false
  | Some x, Some y => bytes_le (String.list_byte_of_string x) (String.list_byte_of_string y)
  end.

Definition entry_le (a b : StorageKey * bytes) : bool :=
  segment_le (last (path a.1)) (last (path b.1)).

Lemma entry_le_total a b : entry_le a b = false -> entry_le b a = true.
Proof.
  unfold entry_le, segment_le. destruct (last (path a.1)), (last (path b.1)); try done.
  apply bytes_le_total.
Qed.

Lemma entry_le_trans a b c : entry_le a b = true -> entry_le b c = true -> entry_le a c = true.
Proof.
  unfold entry_le, segment_le.
  destruct (last (path a.1)), (last (path b.1)), (last (path c.1)); try done. apply bytes_le_trans.
Qed.

(** [Iterator::max_by]: the last of the greatest elements. *)
Definition max_by {A} (greater : A -> A -> bool) (l : list A) : option A :=
  foldl (fun acc x => match acc with
                      | None => Some x
                      | Some a => if greater a x then Some a else Some x
                      end) None l.

(** [ca.cmp(cb).then(wa.0.cmp(&wb.0))] is [Greater]. *)
Definition busier (a b : WorkerId * nat) : bool :=
  bool_decide (b.2 < a.2) || (bool_decide (b.2 = a.2) && bool_decide (b.1 < a.1)%N).

(** [running rec worker]: the row is an assignment to [worker]. *)
Definition running_on (w : WorkerId) (rec : WorkItemRecord) : bool :=
  match state rec with Running w' _ => bool_decide (w' = w) | _ => false end.

Section ledger.
Context {W T : Type} {ST : Storage W T} {SL : StorageLaws W T} {WC : Codec WorkItemRecord}.
Definition queue_prefix (run_id : RunId) : KeyRange :=
  mkRange (mkKey "queue_items" (Some run_id) ["q"]) None.

Definition decode_record (bs : bytes) : result CoreError WorkItemRecord :=
  match decode bs with
  | Ok r => Ok r
  | Err e => Err (internal ("postcard WorkItemRecord decode: " +:+ e))
  end.

Definition next_pending_entry (run_id : RunId) : M W CoreError (option (StorageKey * bytes)) :=
  let* entries := scan_bytes (queue_prefix run_id) in
  mret (head (sort_by entry_le entries)).

(** The counting loop of [backlog]. *)
Fixpoint backlog_loop (worker_id : WorkerId) (entries : list (StorageKey * bytes)) (count : nat)
  : result CoreError nat :=
  match entries with
  | [] => Ok count
  | (_, bs) :: entries' =>
      let? rec := decode_record bs in
      backlog_loop worker_id entries' (if running_on worker_id rec then S count else count)
  end.

Definition backlog (run_id : RunId) (worker_id : WorkerId) : M W CoreError nat :=
  let* entries := scan_bytes (work_prefix run_id) in
  mlift (backlog_loop worker_id entries 0).

(** The counting loop of [busiest]. *)
Fixpoint busiest_loop (exclude : WorkerId) (entries : list (StorageKey * bytes))
    (counts : gmap WorkerId nat) : result CoreError (gmap WorkerId nat) :=
  match entries with
  | [] => Ok counts
  | (_, bs) :: entries' =>
      let? rec := decode_record bs in
      busiest_loop exclude entries'
        (match state rec with
         | Running w _ => if decide (w <> exclude)
                          then <[w := S (default 0 (counts !! w))]> counts else counts
         | _ => counts
         end)
  end.

Definition busiest (run_id : RunId) (exclude : WorkerId) : M W CoreError (option (WorkerId * nat)) :=
  let* entries := scan_bytes (work_prefix run_id) in
  let* counts := mlift (busiest_loop exclude entries ∅) in
  mret (max_by busier (map_to_list counts)).

(** ** The rows of a namespace prefix, and well-formed ledgers *)
Definition rows_in (m : store) (p : StorageKey) : list (StorageKey * bytes) :=
  filter (fun kv => in_range p kv.1 = true) (map_to_list m).

Definition ledger_wf (run_id : RunId) (m : store) : Prop :=
  forall k v, m !! k = Some v -> in_range (prefix (work_prefix run_id)) k = true ->
    exists rec, v = encode rec /\ k = work_key run_id (work_id rec).

Definition record_of (kv : StorageKey * bytes) : option WorkItemRecord :=
  match decode kv.2 with Ok r => Some r | Err _ => None end.

(** The records of the ledger. *)
Definition records (run_id : RunId) (m : store) : list WorkItemRecord :=
  omap record_of (rows_in m (prefix (work_prefix run_id))).

Definition load (run_id : RunId) (m : store) (w : WorkerId) : nat :=
  length (filter (fun r => running_on w r = true) (records run_id m)).

Lemma work_prefix_known run_id : known (prefix (work_prefix run_id)).
Proof. unfold known; simpl. set_solver. Qed.
Lemma queue_prefix_known run_id : known (prefix (queue_prefix run_id)).
Proof. unfold known; simpl. set_solver. Qed.

Lemma elem_of_rows_in m p k v : (k, v) ∈ rows_in m p <-> m !! k = Some v /\ in_range p k = true.
Proof. unfold rows_in. rewrite list_elem_of_filter, elem_of_map_to_list. simpl. tauto. Qed.

Lemma work_key_in_range run_id id : in_range (prefix (work_prefix run_id)) (work_key run_id id) = true.
Proof. unfold in_range; simpl. by rewrite !bool_decide_eq_true_2. Qed.

Lemma elem_of_records run_id m rec : ledger_wf run_id m ->
  rec ∈ records run_id m <-> m !! work_key run_id (work_id rec) = Some (encode rec).
Proof.
  intros Hwf. unfold records. rewrite list_elem_of_omap. split.
  - intros ([k v] & [Hm Hp]%elem_of_rows_in & Hr). destruct (Hwf k v Hm Hp) as (rec' & -> & ->).
    unfold record_of in Hr; simpl in Hr. rewrite decode_encode in Hr. by injection Hr as ->.
  - intros Hm. exists (work_key run_id (work_id rec), encode rec).
    rewrite elem_of_rows_in. split; [split; [done|apply work_key_in_range]|].
    unfold record_of; simpl. by rewrite decode_encode.
Qed.

Definition all_decode (entries : list (StorageKey * bytes)) : Prop :=
  Forall (fun kv => exists rec, kv.2 = encode (rec : WorkItemRecord)) entries.

Lemma rows_decode run_id m entries : ledger_wf run_id m ->
  entries ≡ₚ rows_in m (prefix (work_prefix run_id)) -> all_decode entries.
Proof.
  intros Hwf Hp. unfold all_decode. rewrite Hp. apply Forall_forall.
  intros [k v] [Hm Hr]%elem_of_rows_in. destruct (Hwf k v Hm Hr) as (rec & -> & _). by exists rec.
Qed.

Lemma record_of_encode k rec : record_of (k, encode rec) = Some rec.
Proof. unfold record_of; simpl. by rewrite decode_encode. Qed.

Lemma omap_record_of k rec (entries : list (StorageKey * bytes)) :
  omap record_of ((k, encode rec) :: entries) = rec :: omap record_of entries.
Proof.
  change (match record_of (k, encode rec) with
          | Some r => r :: omap record_of entries | None => omap record_of entries end
          = rec :: omap record_of entries).
  by rewrite record_of_encode.
Qed.

Lemma decode_record_encode rec : decode_record (encode rec) = Ok rec.
Proof. unfold decode_record. by rewrite decode_encode. Qed.

Lemma backlog_loop_spec w entries n : all_decode entries ->
  backlog_loop w entries n =
  Ok (n + length (filter (fun r => running_on w r = true) (omap record_of entries))).
Proof.
  intros Hd. revert n. induction Hd as [|[k v] entries [rec Hv] Hd IH]; intros n.
  { simpl. by rewrite Nat.add_0_r. }
  simpl in Hv. subst v. rewrite omap_record_of, filter_cons.
  cbn [backlog_loop]. rewrite decode_record_encode. cbn [result_bind]. rewrite IH.
  destruct (running_on w rec); [rewrite decide_True by done|rewrite decide_False by done];
    cbn [length]; f_equal; lia.
Qed.

Lemma busiest_loop_spec exclude entries counts : all_decode entries ->
  exists counts', busiest_loop exclude entries counts = Ok counts' /\
    forall w, counts' !! w =
      if decide (w = exclude) then counts !! w else
      match length (filter (fun r => running_on w r = true) (omap record_of entries)) with
      | O => counts !! w
      | S n => Some (S n + default 0 (counts !! w))
      end.
Proof.
  intros Hd. revert counts. induction Hd as [|[k v] entries [rec Hv] Hd IH]; intros counts.
  { exists counts. split; [done|]. intros w. by case_decide. }
  simpl in Hv. subst v. rewrite omap_record_of.
  cbn [busiest_loop]. rewrite decode_record_encode. cbn [result_bind].
  edestruct IH as (c' & -> & Hc'). exists c'. split; [done|]. intros w. rewrite Hc'.
  case_decide as Hw.
  - subst w. destruct (state rec); try done. case_decide; [|done]. by rewrite lookup_insert_ne.
  - rewrite filter_cons. destruct (running_on w rec) eqn:Hr; unfold running_on in Hr.
    + rewrite decide_True by done. destruct (state rec) as [|w' t| |]; try done.
      apply bool_decide_eq_true in Hr. subst w'. rewrite decide_True by done.
      rewrite lookup_insert_eq. cbn [length default].
      destruct (length _); f_equal; cbn; lia.
    + rewrite decide_False by done. destruct (state rec) as [|w' t| |]; try done.
      apply bool_decide_eq_false in Hr.
      assert ((if decide (w' <> exclude) then <[w' := S (default 0 (counts !! w'))]> counts
               else counts) !! w = counts !! w) as ->; [|done].
      case_decide; [by rewrite lookup_insert_ne|done].
Qed.

(** [a] is no busier than [b]: fewer items, or as many and a smaller id. *)
Definition no_busier (a b : WorkerId * nat) : Prop := a.2 < b.2 \/ (a.2 = b.2 /\ (a.1 <= b.1)%N).

Lemma busier_false a b : busier a b = false <-> no_busier a b.
Proof.
  unfold busier, no_busier. rewrite orb_false_iff, andb_false_iff, !bool_decide_eq_false. lia.
Qed.

Lemma max_by_foldl (l : list (WorkerId * nat)) a :
  exists m, foldl (fun acc x => match acc with
                                | None => Some x
                                | Some a => if busier a x then Some a else Some x
                                end) (Some a) l = Some m /\
            m ∈ a :: l /\ forall x, x ∈ a :: l -> no_busier x m.
Proof.
  revert a. induction l as [|y l IH]; intros a; simpl.
  { exists a. split; [done|]. split; [set_solver|]. intros x ->%list_elem_of_singleton. unfold no_busier. lia. }
  destruct (busier a y) eqn:E.
  - destruct (IH a) as (m & Hm & Hin & Hmax). exists m. split; [done|]. split; [set_solver|].
    intros x Hx. destruct (decide (x = y)) as [->|Hne]; [|apply Hmax; set_solver].
    specialize (Hmax a ltac:(set_solver)).
    unfold busier in E. rewrite orb_true_iff, andb_true_iff, !bool_decide_eq_true in E.
    unfold no_busier in *. lia.
  - destruct (IH y) as (m & Hm & Hin & Hmax). exists m. split; [done|]. split; [set_solver|].
    intros x Hx. destruct (decide (x = a)) as [->|Hne]; [|apply Hmax; set_solver].
    specialize (Hmax y ltac:(set_solver)). apply busier_false in E.
    unfold no_busier in *. lia.
Qed.

Lemma max_by_busier (l : list (WorkerId * nat)) :
  match max_by busier l with
  | Some m => m ∈ l /\ forall x, x ∈ l -> no_busier x m
  | None => l = []
  end.
Proof.
  unfold max_by. destruct l as [|a l]; simpl; [done|].
  destruct (max_by_foldl l a) as (m & -> & Hm). done.
Qed.

Lemma scan_rows_spec p w : known p -> is_Some (key_run p) ->
  wp (scan_bytes (mkRange p None)) (fun r w' => contents w' = contents w /\ (healthy w -> healthy w') /\
    ok_or_fault w r (fun rs => rs ≡ₚ rows_in (contents w) p)) w.
Proof.
  intros Hk Hr. eapply wp_mono; [by apply scan_law|]. intros r w' ((? & _ & ?) & ?). auto.
Qed.

Lemma load_perm run_id m w entries :
  entries ≡ₚ rows_in m (prefix (work_prefix run_id)) ->
  length (filter (fun r => running_on w r = true) (omap record_of entries)) = load run_id m w.
Proof. intros Hp. unfold load, records. by rewrite Hp. Qed.

Lemma backlog_spec run_id worker w : ledger_wf run_id (contents w) ->
  wp (backlog run_id worker) (fun r w' => contents w' = contents w /\ (healthy w -> healthy w') /\
    ok_or_fault w r (fun n => n = load run_id (contents w) worker)) w.
Proof.
  intros Hwf. unfold backlog.
  wp_call (scan_rows_spec (prefix (work_prefix run_id)));
    [apply work_prefix_known | by eexists|].
  intros [es|e] w' (Hc & Hh & Hr); [|done]. simpl in Hr. apply wp_lift.
  rewrite backlog_loop_spec by (by eapply rows_decode). simpl. by rewrite (load_perm _ _ _ _ Hr).
Qed.

Lemma busiest_spec run_id exclude w : ledger_wf run_id (contents w) ->
  wp (busiest run_id exclude) (fun r w' => contents w' = contents w /\ (healthy w -> healthy w') /\
    ok_or_fault w r (fun v =>
      match v with
      | Some (victim, n) =>
          victim <> exclude /\ n = load run_id (contents w) victim /\ 0 < n /\
          forall x, x <> exclude -> no_busier (x, load run_id (contents w) x) (victim, n)
      | None => forall x, x <> exclude -> load run_id (contents w) x = 0
      end)) w.
Proof.
  intros Hwf. unfold busiest.
  wp_call (scan_rows_spec (prefix (work_prefix run_id)));
    [apply work_prefix_known | by eexists|].
  intros [es|e] w' (Hc & Hh & Hr); [|done]. simpl in Hr. repeat wp_pure.
  destruct (busiest_loop_spec exclude es ∅) as (counts & -> & Hcounts); [by eapply rows_decode|].
  apply wp_ret. split; [done|]. split; [done|]. simpl.
  assert (forall x n, (x, n) ∈ map_to_list counts <->
            x <> exclude /\ n = load run_id (contents w) x /\ 0 < n) as Hin.
  { intros x n. rewrite elem_of_map_to_list, Hcounts, lookup_empty, (load_perm _ _ _ _ Hr).
    case_decide as Hx; [naive_solver|]. destruct (load _ _ x) as [|k]; simpl.
    - split; [done|]. intros (_ & -> & ?). lia.
    - rewrite Nat.add_0_r. split; [intros [= <-]; split; [done|lia]|by intros (_ & -> & _)]. }
  pose proof (max_by_busier (map_to_list counts)) as Hmax.
  destruct (max_by busier (map_to_list counts)) as [[victim n]|].
  - destruct Hmax as [Hv Hmax]. apply Hin in Hv as (Hne & Hn & Hpos).
    split; [done|]. split; [done|]. split; [done|]. intros x Hx.
    destruct (decide (0 < load run_id (contents w) x)) as [Hl|Hl].
    + apply Hmax, Hin. auto.
    + unfold no_busier; simpl. lia.
  - intros x Hx. destruct (decide (0 < load run_id (contents w) x)) as [Hl|Hl]; [|lia].
    assert ((x, load run_id (contents w) x) ∈ map_to_list counts) as Habs by (apply Hin; auto).
    rewrite Hmax in Habs. by apply not_elem_of_nil in Habs.
Qed.

(** The oldest entry of the queue: a row of the queue no other row sorts before. *)
Definition oldest (run_id : RunId) (m : store) (k : StorageKey) (v : bytes) : Prop :=
  m !! k = Some v /\ in_range (prefix (queue_prefix run_id)) k = true /\
  forall k' v', m !! k' = Some v' -> in_range (prefix (queue_prefix run_id)) k' = true ->
                k' = k \/ entry_le (k, v) (k', v') = true.

Lemma next_pending_entry_spec run_id w :
  wp (next_pending_entry run_id) (fun r w' => contents w' = contents w /\ (healthy w -> healthy w') /\
    ok_or_fault w r (fun e =>
      match e with
      | Some (k, v) => oldest run_id (contents w) k v
      | None => forall k v, contents w !! k = Some v ->
                            in_range (prefix (queue_prefix run_id)) k = false
      end)) w.
Proof.
  unfold next_pending_entry.
  wp_call (scan_rows_spec (prefix (queue_prefix run_id)));
    [apply queue_prefix_known | by eexists|].
  intros [es|e] w' (Hc & Hh & Hr); [|done]. simpl in Hr. apply wp_ret.
  split; [done|]. split; [done|]. simpl.
  destruct (head (sort_by entry_le es)) as [[k v]|] eqn:E.
  - apply sort_by_head in E as [Hin Hle]; [|apply entry_le_total|apply entry_le_trans].
    rewrite Hr in Hin. apply elem_of_rows_in in Hin as [Hm Hp]. split; [done|]. split; [done|].
    intros k' v' Hm' Hp'. specialize (Hle (k', v')). rewrite Hr, elem_of_rows_in in Hle.
    destruct Hle as [[= -> ->]|?]; auto.
  - intros k v Hm. destruct (in_range _ k) eqn:Hp; [|done]. exfalso.
    destruct (sort_by entry_le es) eqn:Hs; [|done]. apply sort_by_nil_inv in Hs. subst es.
    assert ((k, v) ∈ rows_in (contents w) (prefix (queue_prefix run_id))) as Hin
      by (by apply elem_of_rows_in).
    rewrite <- Hr in Hin. by apply not_elem_of_nil in Hin.
Qed.

(** C38: [busiest] finds a worker other than the excluded one whose [Running]
    backlog is greatest, ties going to the greater id, with that backlog's exact
    size; it returns [None] exactly when no other worker runs anything. *)
Theorem busiest_is_greatest run_id exclude w (Hwf : ledger_wf run_id (contents w)) :
  wp (busiest run_id exclude) (fun r w' => contents w' = contents w /\
    match r with
    | Ok (Some (victim, n)) => victim <> exclude /\ n = load run_id (contents w) victim /\ 0 < n /\
        forall x, x <> exclude -> no_busier (x, load run_id (contents w) x) (victim, n)
    | Ok None => forall x, x <> exclude -> load run_id (contents w) x = 0
    | Err _ => ~ healthy w
    end) w.
Proof.
  eapply wp_mono; [by apply busiest_spec|]. intros [[[victim n]|]|e] w' (Hc & _ & Hr); done.
Qed.
End ledger.

(** ** The dispatch queue *)
Section enqueue.
Context {W T : Type} {ST : Storage W T}.
(** [Ulid::to_string] is not in the repository. *)
Context (ulid_string : Ulid -> string).

Definition queue_key (run_id : RunId) (ulid : Ulid) : StorageKey :=
  mkKey "queue_items" (Some run_id) ["q"; ulid_string ulid].

(** [ulid] is the one [Ulid::new()] returned. *)
Definition enqueue (txn : T) (run_id : RunId) (ulid : Ulid) (payload : bytes) : M W CoreError T :=
  put_bytes txn (queue_key run_id ulid) payload.

End enqueue.

Section queue.
Context {W T : Type} {ST : Storage W T} {SL : StorageLaws W T} {WC : Codec WorkItemRecord}.
(** [ContentId::of] (blake3) is not in the repository. *)
Context (content_id_of : bytes -> ContentId).


Definition next_pending (run_id : RunId) : M W CoreError (option (ContentId * bytes)) :=
  let* entries := scan_bytes (queue_prefix run_id) in
  match head (sort_by entry_le entries) with
  | None => mret None
  | Some (_, payload) => mret (Some (content_id_of payload, payload))
  end.

Definition dispatch (txn : T) (run_id : RunId) (worker_id : WorkerId) (now_ms : N)
  : M W CoreError (option ContentId * T) :=
  let* entry := next_pending_entry run_id in
  match entry with
  | None => mret (None, txn)
  | Some (entry_key, payload) =>
      let id := content_id_of payload in
      let record := mkWork id Pending in
      let* txn := put_bytes txn (work_key run_id id) (encode record) in
      let* '(won, txn) := try_claim txn run_id record worker_id now_ms in
      if won then
        let* txn := delete_key txn entry_key in
        mret (Some id, txn)
      else mret (None, txn)
  end.

Lemma dispatch_post txn run_id worker now_ms w :
  wp (dispatch txn run_id worker now_ms) (fun r w' => contents w' = contents w /\ (healthy w -> healthy w') /\
    match r with
    | Ok (Some id, txn') => exists k payload, oldest run_id (contents w) k payload /\
        id = content_id_of payload /\
        view txn' = delete k (<[work_key run_id id := encode (mkWork id (Running worker now_ms))]> (view txn))
    | Ok (None, txn') => view txn' = view txn /\
        forall k v, contents w !! k = Some v -> in_range (prefix (queue_prefix run_id)) k = false
    | Err _ => ~ healthy w
    end) w.
Proof.
  unfold dispatch. wp_call next_pending_entry_spec.
  intros [[[k v]|]|e] w1 (Hc1 & Hh1 & Hr); simpl in Hr; [|by apply wp_ret|by auto].
  wp_call put_law; [done|].
  intros [t2|e] w2 ((Hc2 & _ & Hh2) & Ht2); simpl in Ht2; [|split; [congruence|tauto]].
  destruct Ht2 as [Hv2 _]. wp_call try_claim_spec.
  intros [[[] t3]|e] w3 [(Hc3 & _ & Hh3) Ht3]; simpl in *; [| |split; [congruence|tauto]].
  - destruct Ht3 as (_ & _ & Hv3). wp_call delete_law.
    { destruct Hr as (_ & Hr & _). unfold in_range in Hr.
      apply andb_true_iff in Hr as [Hr _]. apply andb_true_iff in Hr as [Hr _].
      apply bool_decide_eq_true in Hr. unfold known. rewrite Hr. simpl. set_solver. }
    intros [t4|e] w4 ((Hc4 & _ & Hh4) & Ht4); simpl in Ht4; [|split; [congruence|tauto]].
    destruct Ht4 as [Hv4 _]. apply wp_ret. split; [congruence|]. split; [tauto|].
    exists k, v. split; [done|]. split; [done|]. by rewrite Hv4, Hv3, Hv2, insert_insert_eq.
  - exfalso. destruct Ht3 as (_ & [Hg|Hg]); [by apply Hg|]. apply Hg.
    by rewrite Hv2, lookup_insert_eq.
Qed.

(** C8: [dispatch] assigns the oldest queued payload: the queue row goes and the
    ledger row of its content id becomes [Running] for the worker, in the caller's
    transaction; it returns [None] only on an empty queue, so the claim it makes
    right after its own put can never be the losing one, and whatever the ledger
    row held before (a [Done] result too) is overwritten. *)
Theorem dispatch_spec txn run_id worker now_ms w :
  wp (dispatch txn run_id worker now_ms) (fun r w' => contents w' = contents w /\
    match r with
    | Ok (Some id, txn') => exists k payload, oldest run_id (contents w) k payload /\
        id = content_id_of payload /\
        view txn' = delete k (<[work_key run_id id := encode (mkWork id (Running worker now_ms))]> (view txn))
    | Ok (None, txn') => view txn' = view txn /\
        forall k v, contents w !! k = Some v -> in_range (prefix (queue_prefix run_id)) k = false
    | Err _ => ~ healthy w
    end) w.
Proof. eapply wp_mono; [apply dispatch_post|]. intros r w' (Hc & _ & Hr). auto. Qed.
End queue.


Section ledger_examples.
#[local] Existing Instance bits_codec.

Definition row (id : byte) (s : WorkState) : StorageKey * bytes :=
  (work_key 1 [id], encode (mkWork [id] s)).
Definition three_rows : store :=
  list_to_map [row x01 (Running 7 1); row x02 (Running 7 2); row x03 (Running 8 3)].
Definition w_three : Mem.World := Mem.mkWorld three_rows [] [].

Lemma three_rows_wf : ledger_wf 1 three_rows.
Proof.
  assert (map_Forall (fun k v => exists rec, v = encode rec /\ k = work_key 1 (work_id rec)) three_rows)
    as Hall.
  { unfold three_rows, row. simpl.
    repeat (apply map_Forall_insert_2; [eexists; split; reflexivity|]). apply map_Forall_empty. }
  intros k v Hm _. exact (Hall k v Hm).
Qed.

Lemma busiest_is_greatest_witness :
  fst (busiest 1 9 w_three) = Ok (Some (7%N, 2)) /\
  wp (busiest 1 9) (fun r w' => contents w' = contents w_three) w_three.
Proof.
  split; [vm_compute; reflexivity|]. eapply wp_mono.
  - apply (busiest_is_greatest 1 9 w_three). apply three_rows_wf.
  - intros r w' [Hc _]. exact Hc.
Defined.

Lemma dispatch_spec_witness :
  fst (dispatch (ST := Mem.storage) (fun p => p) (Mem.mkTxn ∅ []) 1 7 5 w_three)
  = Ok (None, Mem.mkTxn ∅ []) /\
  wp (dispatch (ST := Mem.storage) (fun p => p) (Mem.mkTxn ∅ []) 1 7 5)
     (fun r w' => contents w' = contents w_three) w_three.
Proof.
  split; [vm_compute; reflexivity|]. eapply wp_mono.
  - apply (dispatch_spec (fun p => p) (Mem.mkTxn ∅ []) 1 7 5 w_three).
  - intros r w' [Hc _]. exact Hc.
Defined.
End ledger_examples.
