(* ===== verification/Completions.v ===== *)
(** Every writer of the work ledger together: the transitions of work_item.rs, the
    enqueue and dispatch transactions of ledger.rs and the seeding put of
    rollout-harness-eval/src/job.rs, in any interleaving; how often an item can be
    completed, and when a completion is final. *)
From stdpp Require Import base option list gmap strings.
From S2P Require Import Prelude.
From S2P Require Import Core.
From S2P Require Import Storage.
From S2P Require Import WorkItem.
From S2P Require Import Ledger.

(** What an attempt that took effect did. *)
Inductive event : Type :=
| Won (op : work_op)
| Enqueued (items : list (Ulid * bytes))
| Dispatched (id : ContentId)
| Seeded (id : ContentId).

(** What a process attempts: a transition of work_item.rs, a batch of enqueues, a
    dispatch, the seeding put of [run_example_job] (whose reading of the row is an
    earlier step of its own). *)
Inductive attempt : Type :=
| Transition (op : work_op)
| Enqueue (items : list (Ulid * bytes))
| Dispatch (worker : WorkerId) (now_ms : N)
| Seed (id : ContentId).

Section completions.
Context {W T : Type} {ST : Storage W T} {SL : StorageLaws W T} {WC : Codec WorkItemRecord}.
Context (ulid_string : Ulid -> string) (content_id_of : bytes -> ContentId).

(** The enqueues of one transaction, as the first step of [mock_run] makes them. *)
Definition enqueue_batch (run_id : RunId) (items : list (Ulid * bytes)) : M W CoreError unit :=
  let* txn := begin_txn in
  let* txn := mfold (fun txn up => enqueue ulid_string txn run_id up.1 up.2) txn items in
  commit txn.

(** A dispatch in a transaction of its own: committed when it assigned something. *)
Definition dispatch_once (run_id : RunId) (worker : WorkerId) (now_ms : N)
  : M W CoreError (option ContentId) :=
  let* txn := begin_txn in
  let* '(assigned, txn) := dispatch content_id_of txn run_id worker now_ms in
  match assigned with
  | Some id => let* _ := commit txn in mret (Some id)
  | None => let* _ := abort txn in mret None
  end.

(** The base row [run_example_job] gives an item it found no row for. *)
Definition seed (run_id : RunId) (id : ContentId) : M W CoreError unit :=
  put_row (work_key run_id id) (encode (mkWork id Pending)).

Definition attempt_run (run_id : RunId) (a : attempt) : M W CoreError (option event) :=
  match a with
  | Transition op => let* won := run_op run_id op in mret (if won then Some (Won op) else None)
  | Enqueue items => let* _ := enqueue_batch run_id items in mret (Some (Enqueued items))
  | Dispatch worker now =>
      let* assigned := dispatch_once run_id worker now in mret (Dispatched <$> assigned)
  | Seed id => let* _ := seed run_id id in mret (Some (Seeded id))
  end.

(** ** What each attempt does to the committed rows *)
Definition is_queue_row (run_id : RunId) (k : StorageKey) : bool :=
  in_range (prefix (queue_prefix run_id)) k.

Definition put_queue (run_id : RunId) (m : store) (up : Ulid * bytes) : store :=
  <[queue_key ulid_string run_id up.1 := up.2]> m.

Definition effect (run_id : RunId) (e : event) (m m' : store) : Prop :=
  match e with
  | Won op => applied run_id op m m'
  | Enqueued items => m' = foldl (put_queue run_id) m items
  | Dispatched id => exists k payload worker now,
      m !! k = Some payload /\ is_queue_row run_id k = true /\ id = content_id_of payload /\
      m' = delete k (<[work_key run_id id := encode (mkWork id (Running worker now))]> m)
  | Seeded id => m' = <[work_key run_id id := encode (mkWork id Pending)]> m
  end.

Lemma enqueue_key_known run_id u : known (queue_key ulid_string run_id u).
Proof. unfold known; simpl. set_solver. Qed.
Lemma queue_row_in run_id u : is_queue_row run_id (queue_key ulid_string run_id u) = true.
Proof. unfold is_queue_row, in_range; simpl. by rewrite !bool_decide_eq_true_2. Qed.
Lemma work_key_not_in run_id run_id' id : is_queue_row run_id (work_key run_id' id) = false.
Proof. done. Qed.

Lemma enqueue_all run_id items txn w :
  wp (mfold (fun txn up => enqueue ulid_string txn run_id up.1 up.2) txn items)
     (fun r w' => contents w' = contents w /\
        forall t, r = Ok t -> view t = foldl (put_queue run_id) (view txn) items) w.
Proof.
  revert txn w. induction items as [|[u p] items IH]; intros txn w; simpl.
  { apply wp_ret. split; [done|]. by intros ? [= <-]. }
  unfold enqueue at 1. wp_call put_law; [apply enqueue_key_known|].
  intros [t|e] w1 ((Hc & _) & Ht); [|by split].
  destruct Ht as [Hv _]. eapply wp_mono; [apply IH|]. simpl. rewrite Hv.
  intros r w' [Hc' Hr]. split; [congruence|done].
Qed.

Lemma attempt_run_spec run_id a w :
  wp (attempt_run run_id a) (fun r w' =>
    match r with
    | Ok (Some e) => effect run_id e (contents w) (contents w')
    | _ => contents w' = contents w
    end) w.
Proof.
  destruct a as [op|items|worker now|id]; simpl.
  - wp_call run_op_spec. intros [[]|e] w' [_ Hr]; [apply wp_ret; exact Hr|apply wp_ret; tauto|tauto].
  - unfold enqueue_batch. wp_call begin_law. intros [t|e] w1 ((Hc1 & _) & Ht); [|done].
    destruct Ht as [Hv _]. wp_call enqueue_all. intros [t2|e] w2 [Hc2 Ht2]; [|congruence].
    wp_call commit_law. intros [[]|e] w3 (_ & Hr).
    + apply wp_ret. simpl. destruct Hr as [-> _]. rewrite (Ht2 _ eq_refl). by rewrite Hv.
    + destruct Hr as (_ & -> & _). congruence.
  - unfold dispatch_once. wp_call begin_law. intros [t|e] w1 ((Hc1 & _) & Ht); [|done].
    destruct Ht as [Hv _]. wp_call dispatch_post.
    intros [[[id|] t2]|e] w2 (Hc2 & _ & Hr); simpl in *; [| |congruence].
    + destruct Hr as (k & p & (Hm & Hin & _) & -> & Hv2). wp_call commit_law.
      intros [[]|e] w3 (_ & Hr).
      * repeat wp_pure. simpl. destruct Hr as [-> _]. exists k, p, worker, now.
        rewrite Hc1 in Hm. rewrite Hv2, Hv. done.
      * destruct Hr as (_ & -> & _). congruence.
    + wp_call abort_law. intros [[]|e] w3 ((Hc3 & _) & _); [repeat wp_pure; simpl|]; congruence.
  - unfold seed. wp_call put_row_spec; [done|]. intros [[]|e] w' Hc; [apply wp_ret|]; done.
Qed.

(** ** Any interleaving of such attempts, by any number of processes holding any
    records; in between, clients that leave the run's work and queue rows alone *)
Inductive ledger_run (run_id : RunId) : W -> list event -> W -> Prop :=
| ledger_nil w : ledger_run run_id w [] w
| ledger_took a e es w w' w'' :
    attempt_run run_id a w = (Ok (Some e), w') -> ledger_run run_id w' es w'' ->
    ledger_run run_id w (e :: es) w''
| ledger_failed a r es w w' w'' :
    attempt_run run_id a w = (r, w') -> (forall e, r <> Ok (Some e)) -> ledger_run run_id w' es w'' ->
    ledger_run run_id w es w''
| ledger_other es w w' w'' :
    (forall id, contents w' !! work_key run_id id = contents w !! work_key run_id id) ->
    (forall k, is_queue_row run_id k = true -> contents w' !! k = contents w !! k) ->
    ledger_run run_id w' es w'' -> ledger_run run_id w es w''.

(** The queue rows that hold the item, and whether its ledger row is open. *)
Definition holds_item (run_id : RunId) (id : ContentId) (kv : StorageKey * bytes) : Prop :=
  is_queue_row run_id kv.1 = true /\ content_id_of kv.2 = id.
Definition queued (run_id : RunId) (id : ContentId) (m : store) : nat :=
  size (filter (holds_item run_id id) m).
Definition is_open (s : WorkState) : bool :=
  match s with Pending | Running _ _ => true | _ => false end.
Definition open_rows (run_id : RunId) (id : ContentId) (m : store) : nat :=
  match m !! work_key run_id id with
  | Some v => match decode v with Ok rec => if is_open (state rec) then 1 else 0 | Err _ => 0 end
  | None => 0
  end.

(** How many of the events complete, enqueue or seed the item. *)
Definition completes (id : ContentId) (e : event) : nat :=
  match e with
  | Won (OpComplete r _) => if decide (work_id r = id) then 1 else 0
  | _ => 0
  end.
Definition enters (id : ContentId) (e : event) : nat :=
  match e with
  | Enqueued items => length (filter (fun up => content_id_of up.2 = id) items)
  | Seeded i => if decide (i = id) then 1 else 0
  | _ => 0
  end.
Definition total (f : event -> nat) (es : list event) : nat := sum_list_with f es.

(** The item's ledger row is written afresh, whatever it held. *)
Definition restarts (id : ContentId) (e : event) : Prop := e = Dispatched id \/ e = Seeded id.
Definition won_on (id : ContentId) (e : event) : Prop := exists op, e = Won op /\ op_id op = id.

Lemma open_rows_encode run_id id m rec : m !! work_key run_id id = Some (encode rec) ->
  open_rows run_id id m = if is_open (state rec) then 1 else 0.
Proof. unfold open_rows. intros ->. by rewrite decode_encode. Qed.

Lemma open_rows_le run_id id m : open_rows run_id id m <= 1.
Proof. unfold open_rows. destruct (m !! _) as [v|]; [|lia]. destruct (decode v) as [r|]; [|lia]. destruct (is_open _); lia. Qed.

Lemma open_rows_same run_id id m m' :
  m' !! work_key run_id id = m !! work_key run_id id -> open_rows run_id id m' = open_rows run_id id m.
Proof. unfold open_rows. by intros ->. Qed.

Lemma queued_same run_id id m m' :
  (forall k, is_queue_row run_id k = true -> m' !! k = m !! k) -> queued run_id id m' = queued run_id id m.
Proof.
  intros Hsame. unfold queued. f_equal. apply map_eq. intros k. apply option_eq. intros v.
  rewrite !map_lookup_filter_Some. unfold holds_item; simpl.
  split; intros (Hm & Hq & Hid); rewrite Hsame in * by done; done.
Qed.

Lemma queued_work run_id id m id' v : queued run_id id (<[work_key run_id id' := v]> m) = queued run_id id m.
Proof.
  apply queued_same. intros k Hk. rewrite lookup_insert_ne; [done|]. intros <-.
  by rewrite work_key_not_in in Hk.
Qed.

Lemma queued_put run_id id m u p :
  queued run_id id (put_queue run_id m (u, p)) <=
  queued run_id id m + if decide (content_id_of p = id) then 1 else 0.
Proof.
  unfold queued, put_queue; simpl. set (k := queue_key ulid_string run_id u).
  case_decide as Hid.
  - rewrite map_filter_insert_True by (split; [apply queue_row_in|done]).
    rewrite map_size_insert. destruct (_ !! k); simpl; lia.
  - rewrite map_filter_insert_False by (by intros [_ ?]).
    rewrite map_filter_delete, map_size_delete. destruct (_ !! k); simpl; lia.
Qed.

Lemma queued_enqueue run_id id items m :
  queued run_id id (foldl (put_queue run_id) m items) <=
  queued run_id id m + length (filter (fun up => content_id_of up.2 = id) items).
Proof.
  revert m. induction items as [|[u p] items IH]; intros m; cbn [foldl]; [simpl; lia|].
  rewrite filter_cons. simpl. specialize (IH (put_queue run_id m (u, p))).
  pose proof (queued_put run_id id m u p) as Hp. case_decide; simpl; lia.
Qed.

Lemma queued_delete run_id id m k p : m !! k = Some p -> is_queue_row run_id k = true ->
  queued run_id id (delete k m) + (if decide (content_id_of p = id) then 1 else 0) = queued run_id id m.
Proof.
  intros Hm Hk. unfold queued. rewrite map_filter_delete, map_size_delete.
  destruct (filter (holds_item run_id id) m !! k) as [v|] eqn:E; simpl.
  - pose proof E as E'. apply map_lookup_filter_Some in E as (Hm' & _ & Hid). simpl in Hid. rewrite Hm in Hm'. injection Hm' as <-.
    rewrite decide_True by done.
    assert (size (filter (holds_item run_id id) m) <> 0) as Hs; [|lia].
    intros Hs. apply map_size_empty_inv in Hs. by rewrite Hs in E'.
  - case_decide as Hid; [|lia]. exfalso. apply map_lookup_filter_None in E as [E|E]; [congruence|].
    by apply (E p).
Qed.

Lemma work_row_after_enqueue run_id id items m :
  foldl (put_queue run_id) m items !! work_key run_id id = m !! work_key run_id id.
Proof.
  revert m. induction items as [|[u p] items IH]; intros m; simpl; [done|].
  rewrite IH. unfold put_queue; simpl. by rewrite lookup_insert_ne.
Qed.

(** What an item still can be completed: its queue rows and its open ledger row. *)
Definition remaining (run_id : RunId) (id : ContentId) (m : store) : nat :=
  queued run_id id m + open_rows run_id id m.

Lemma applied_remaining run_id id op m m' : applied run_id op m m' ->
  completes id (Won op) + remaining run_id id m' = remaining run_id id m.
Proof.
  intros (Hrow & s' & Hnext & ->). unfold remaining, op_row in *. rewrite queued_work.
  destruct (decide (op_id op = id)) as [<-|Hne].
  - rewrite (open_rows_encode _ _ m _ Hrow), (open_rows_encode _ _ _ _ (lookup_insert_eq _ _ _)).
    unfold op_id in *.
    destruct op as [r w n|r res|r|r w n]; simpl in *; destruct (state r); simplify_eq;
      rewrite ?decide_True by done; simpl; lia.
  - rewrite (open_rows_same _ id m).
    + unfold op_id in Hne. destruct op; simpl in *; rewrite ?decide_False by done; lia.
    + rewrite lookup_insert_ne; [done|]. intros Hk. by apply work_key_inj in Hk.
Qed.

Lemma effect_remaining run_id id e m m' : effect run_id e m m' ->
  completes id e + remaining run_id id m' <= enters id e + remaining run_id id m.
Proof.
  destruct e as [op|items|i|i]; cbn [effect].
  - intros H%(applied_remaining _ id). simpl in *. lia.
  - intros ->. unfold remaining. pose proof (queued_enqueue run_id id items m).
    rewrite (open_rows_same _ id m) by apply work_row_after_enqueue. cbn [completes enters]. lia.
  - intros (k & p & w & n & Hm & Hk & -> & ->). unfold remaining. cbn [completes enters].
    set (v := encode _).
    assert (k <> work_key run_id (content_id_of p)) as Hne
      by (intros ->; by rewrite work_key_not_in in Hk).
    pose proof (queued_delete run_id id (<[work_key run_id (content_id_of p) := v]> m) k p) as Hq.
    rewrite lookup_insert_ne, queued_work in Hq by done. specialize (Hq Hm Hk).
    case_decide as Hid.
    + pose proof (open_rows_le run_id id
        (delete k (<[work_key run_id (content_id_of p) := v]> m))). lia.
    + rewrite (open_rows_same _ id m); [lia|].
      rewrite lookup_delete_ne by (intros ->; by rewrite work_key_not_in in Hk).
      rewrite lookup_insert_ne; [done|]. by intros Hi%work_key_inj.
  - intros ->. unfold remaining. rewrite queued_work. simpl. case_decide as Hid.
    + pose proof (open_rows_le run_id id (<[work_key run_id i := encode (mkWork i Pending)]> m)). lia.
    + rewrite (open_rows_same _ id m); [lia|].
      rewrite lookup_insert_ne; [done|]. by intros Hi%work_key_inj.
Qed.

Lemma ledger_run_remaining run_id id w es w' : ledger_run run_id w es w' ->
  total (completes id) es + remaining run_id id (contents w')
  <= total (enters id) es + remaining run_id id (contents w).
Proof.
  induction 1 as [w|a e es w w1 w2 Ha _ IH|a r es w w1 w2 Ha Hr _ IH|es w w1 w2 Hw Hq _ IH].
  - simpl. lia.
  - eapply wp_elim in Ha; [|apply attempt_run_spec]. apply (effect_remaining _ id) in Ha.
    unfold total in *. cbn [sum_list_with]. lia.
  - eapply wp_elim in Ha; [|apply attempt_run_spec].
    replace (contents w) with (contents w1); [done|]. destruct r as [[e|]|e]; [by destruct (Hr e)|done..].
  - unfold remaining in *. rewrite (open_rows_same _ id (contents w) (contents w1) (Hw id)) in IH.
    by rewrite (queued_same _ id (contents w) (contents w1) Hq) in IH.
Qed.

Lemma ledger_run_split run_id w l1 l2 w' : ledger_run run_id w (l1 ++ l2) w' ->
  exists wm, ledger_run run_id w l1 wm /\ ledger_run run_id wm l2 w'.
Proof.
  intros H. remember (l1 ++ l2) as es eqn:He. revert l1 He.
  induction H as [w|a e es w w1 w2 Ha Hrest IH|a r es w w1 w2 Ha Hr _ IH|es w w1 w2 Hw Hq _ IH]; intros l1 He.
  - symmetry in He. apply app_eq_nil in He as [-> ->]. exists w. split; constructor.
  - destruct l1 as [|e1 l1]; simpl in He.
    + subst l2. exists w. split; [constructor|]. by eapply ledger_took.
    + injection He as <- ->. destruct (IH l1 eq_refl) as (wm & H1 & H2). exists wm. split; [|done].
      by eapply ledger_took.
  - destruct (IH l1 He) as (wm & H1 & H2). exists wm. split; [|done]. by eapply ledger_failed.
  - destruct (IH l1 He) as (wm & H1 & H2). exists wm. split; [|done]. by eapply ledger_other.
Qed.

Lemma done_row_stays run_id id res w es w' : ledger_run run_id w es w' ->
  item_is run_id id w (Done res) -> Forall (fun e => ~ restarts id e) es ->
  item_is run_id id w' (Done res) /\ Forall (fun e => ~ won_on id e) es.
Proof.
  unfold item_is.
  induction 1 as [w|a e es w w1 w2 Ha _ IH|a r es w w1 w2 Ha Hr _ IH|es w w1 w2 Hw Hq _ IH]; intros Hd Hes.
  - by split.
  - apply Forall_cons in Hes as [He Hes]. eapply wp_elim in Ha; [|apply attempt_run_spec].
    assert (contents w1 !! work_key run_id id = Some (encode (mkWork id (Done res))) /\ ~ won_on id e) as [Hd1 Hw].
    { destruct e as [op|items|i|i]; cbn [effect] in Ha.
      - destruct Ha as (Hrow & s' & Hnext & ->). unfold op_row in *.
        destruct (decide (op_id op = id)) as [Hi|Hi].
        + exfalso. rewrite Hi, Hd in Hrow. injection Hrow as Hrec%encode_inj.
          rewrite <- Hrec in Hnext. by destruct op.
        + rewrite lookup_insert_ne by (by intros Hk%work_key_inj). split; [done|].
          intros (op' & [= <-] & ?). done.
      - rewrite Ha, work_row_after_enqueue. split; [done|]. by intros (? & ? & _).
      - destruct Ha as (k & p & wk & n & _ & Hk & -> & ->).
        rewrite lookup_delete_ne by (intros ->; by rewrite work_key_not_in in Hk).
        rewrite lookup_insert_ne; [split; [done|]; by intros (? & ? & _)|].
        intros Hi%work_key_inj. apply He. left. by rewrite Hi.
      - rewrite Ha. rewrite lookup_insert_ne; [split; [done|]; by intros (? & ? & _)|].
        intros Hi%work_key_inj. apply He. right. by rewrite Hi. }
    destruct (IH Hd1 Hes) as [? ?]. split; [done|]. by constructor.
  - apply IH; [|done]. eapply wp_elim in Ha; [|apply attempt_run_spec].
    replace (contents w1) with (contents w); [done|]. destruct r as [[e|]|e]; [by destruct (Hr e)|done..].
  - apply IH; [|done]. by rewrite Hw.
Qed.

(** A completion that won leaves the item done, and done it stays until it is
    dispatched or seeded again. *)
Lemma completion_stays run_id id w l1 r res l2 w' :
  ledger_run run_id w (l1 ++ Won (OpComplete r res) :: l2) w' -> work_id r = id ->
  Forall (fun e => ~ restarts id e) l2 ->
  item_is run_id id w' (Done res) /\ Forall (fun e => ~ won_on id e) l2.
Proof.
  intros Hrun <- Hl2. apply ledger_run_split in Hrun as (wm & _ & Hrun).
  remember (Won (OpComplete r res) :: l2) as es eqn:He. revert He.
  induction Hrun as [w0|a e es w0 w1 w2 Ha Hrest _|a r' es w0 w1 w2 Ha Hr Hrest IH|es w0 w1 w2 Hw Hq Hrest IH];
    intros He; [done| |by apply IH|by apply IH].
  injection He as -> ->. eapply wp_elim in Ha; [|apply attempt_run_spec].
  destruct Ha as (_ & s' & Hnext & Hc). apply (done_row_stays _ _ _ _ _ _ Hrest); [|done].
  unfold item_is. rewrite Hc. unfold op_row, op_id in *; simpl in *.
  destruct (state r); try done. injection Hnext as <-. apply lookup_insert_eq.
Qed.

(** C6: Every completion of an item is paid for by one entry of it into the run: over
    any interleaving of claims, completions, re-pends, steals, enqueues, dispatches
    and seeds, the completions that won on an item are at most the queue rows and
    open ledger row it started with plus the payloads of it enqueued and the seeds
    of it put, less what is still queued or open at the end.  A completion is final
    until then: after it nothing wins on the item and its result is kept, as long
    as the item is neither dispatched nor seeded again; both write a fresh record
    over a [Done] one. *)
Theorem completions_accounted run_id id w es w' (Hrun : ledger_run run_id w es w') :
  total (completes id) es + (queued run_id id (contents w') + open_rows run_id id (contents w'))
  <= total (enters id) es + (queued run_id id (contents w) + open_rows run_id id (contents w)) /\
  forall l1 r res l2, es = l1 ++ Won (OpComplete r res) :: l2 -> work_id r = id ->
    Forall (fun e => ~ restarts id e) l2 ->
    item_is run_id id w' (Done res) /\ Forall (fun e => ~ won_on id e) l2.
Proof.
  split; [by apply ledger_run_remaining|].
  intros l1 r res l2 -> Hid Hl2. by apply (completion_stays _ _ _ _ _ _ _ _ Hrun Hid).
Qed.
End completions.

(** ** One payload enqueued twice is completed twice, the second time over the first
    result; a replayed completion in between loses *)
Section completions_examples.
#[local] Existing Instance bits_codec.
Definition key_text (u : Ulid) : string := pretty.pretty u.
Definition first_batch : attempt := Enqueue [(1%N, item)].
Definition second_batch : attempt := Enqueue [(2%N, item)].
Definition running_by (w : WorkerId) (now : N) : WorkItemRecord := mkWork item (Running w now).
Definition history : list attempt :=
  [first_batch; Dispatch 7 100; Transition (OpComplete (running_by 7 100) [x0b]);
   Transition (OpComplete (running_by 7 100) [x0c]); second_batch; Dispatch 8 200;
   Transition (OpComplete (running_by 8 200) [x0d])].
Definition w_empty : Mem.World := Mem.mkWorld ∅ [] [].

Fixpoint play (l : list attempt) (w : Mem.World) : list event * Mem.World :=
  match l with
  | [] => ([], w)
  | a :: l' =>
      let '(r, w1) := attempt_run key_text (fun p => p) 1 a w in
      let '(es, w2) := play l' w1 in
      (match r with Ok (Some e) => e :: es | _ => es end, w2)
  end.

Lemma play_run l w : ledger_run key_text (fun p => p) 1 w (play l w).1 (play l w).2.
Proof.
  revert w. induction l as [|a l IH]; intros w; simpl; [constructor|].
  destruct (attempt_run _ _ 1 a w) as [r w1] eqn:E. specialize (IH w1).
  destruct (play l w1) as [es w2]; simpl in *. destruct r as [[e|]|e].
  - by eapply ledger_took.
  - by eapply ledger_failed.
  - by eapply ledger_failed.
Qed.

Lemma completions_accounted_witness :
  (play history w_empty).1 =
    [Enqueued [(1%N, item)]; Dispatched item; Won (OpComplete (running_by 7 100) [x0b]);
     Enqueued [(2%N, item)]; Dispatched item; Won (OpComplete (running_by 8 200) [x0d])] /\
  total (completes item) (play history w_empty).1 = 2 /\
  total (enters (fun p => p) item) (play history w_empty).1 = 2 /\
  item_is 1 item (play history w_empty).2 (Done [x0d]).
Proof.
  split; [vm_compute; reflexivity|]. split; [vm_compute; reflexivity|]. split; [vm_compute; reflexivity|].
  refine (proj1 (proj2 (completions_accounted key_text (fun p => p) 1 item w_empty _ _
    (play_run history w_empty))
    [Enqueued [(1%N, item)]; Dispatched item; Won (OpComplete (running_by 7 100) [x0b]);
     Enqueued [(2%N, item)]; Dispatched item] (running_by 8 200) [x0d] [] _ _ _)).
  - vm_compute. reflexivity.
  - reflexivity.
  - constructor.
Defined.
End completions_examples.
