(* ===== verification/Steal.v ===== *)
(** Work stealing (rollout-coordinator/src/steal.rs): an idle worker takes half of
    the busiest peer's items, each by a re-pend and a claim in one transaction. *)
From stdpp Require Import base option list gmap strings sorting.
From S2P Require Import Prelude.
From S2P Require Import Core.
From S2P Require Import Storage.
From S2P Require Import WorkItem.
From S2P Require Import Ledger.

Definition MAX_STEAL_BATCH : nat := 32.

(** [victim_backlog.div_ceil(2).min(MAX_STEAL_BATCH)] *)
Definition steal_count (victim_backlog : nat) : nat :=
  Nat.min (Nat.div2 (victim_backlog + 1)) MAX_STEAL_BATCH.

(** [a.id.0.cmp(&b.id.0)] *)
Definition id_le (a b : WorkItemRecord) : bool := bytes_le (work_id a) (work_id b).

Section steal.
Context {W T : Type} {ST : Storage W T} {SL : StorageLaws W T} {WC : Codec WorkItemRecord}.

(** [entries.filter_map(decode.ok()).filter(Running on victim)] *)
Definition running_items (entries : list (StorageKey * bytes)) (victim : WorkerId)
  : list WorkItemRecord :=
  filter (fun r => running_on victim r = true) (omap record_of entries).

(** One round of the reassignment loop. *)
Definition steal_one (run_id : RunId) (thief : WorkerId) (now_ms : N)
    (stolen : list ContentId) (running : WorkItemRecord) : M W CoreError (list ContentId) :=
  let* txn := begin_txn in
  let* '(repended, txn) := try_repending txn run_id running in
  if negb repended then
    let* _ := abort txn in
    mret stolen
  else
    let pending := mkWork (work_id running) Pending in
    let* '(won, txn) := try_claim txn run_id pending thief now_ms in
    if won then
      let* _ := commit txn in
      mret (stolen ++ [work_id running])
    else
      let* _ := abort txn in
      mret stolen.

Definition handle_steal_request (run_id : RunId) (thief : WorkerId) (now_ms : N)
  : M W CoreError (list ContentId) :=
  let* own := backlog run_id thief in
  if decide (0 < own) then mret []
  else
    let* peer := busiest run_id thief in
    match peer with
    | None => mret []
    | Some (victim, victim_backlog) =>
        let n := steal_count victim_backlog in
        if decide (n = 0) then mret []
        else
          let* entries := scan_bytes (work_prefix run_id) in
          let victim_items := sort_by id_le (running_items entries victim) in
          mfold (steal_one run_id thief now_ms) [] (take n victim_items)
    end.

(** A round is a [OpSteal] transaction of the work-item machine. *)
Lemma steal_one_run_op run_id thief now_ms stolen running w :
  steal_one run_id thief now_ms stolen running w =
  (let* won := run_op run_id (OpSteal running thief now_ms) in
   mret (if won : bool then stolen ++ [work_id running] else stolen)) w.
Proof.
  unfold steal_one, run_op, op_body, mbind_, mret.
  destruct (begin_txn w) as [[t|e] w1]; [|done].
  destruct (try_repending t run_id running w1) as [[[[] t2]|e] w2]; simpl; [| |done].
  - destruct (try_claim _ _ _ _ _ _) as [[[[] t3]|e] w3]; simpl; [| |done].
    + by destruct (commit t3 w3) as [[[]|e] w4].
    + by destruct (abort t3 w3) as [[[]|e] w4].
  - by destruct (abort t2 w2) as [[[]|e] w3].
Qed.

(** In any state, also one where the victim has acked in between: the item moves
    to the thief if its row is still the record that was read, else nothing. *)
Lemma steal_one_spec run_id thief now_ms stolen running w : is_running (state running) ->
  wp (steal_one run_id thief now_ms stolen running) (fun r w' => (healthy w -> healthy w') /\
    match r with
    | Ok stolen' =>
        (contents w !! work_key run_id (work_id running) = Some (encode running) /\
         stolen' = stolen ++ [work_id running] /\
         contents w' = <[work_key run_id (work_id running) :=
                           encode (mkWork (work_id running) (Running thief now_ms))]> (contents w)) \/
        (contents w !! work_key run_id (work_id running) <> Some (encode running) /\
         stolen' = stolen /\ contents w' = contents w)
    | Err _ => contents w' = contents w /\ ~ healthy w
    end) w.
Proof.
  intros (v & t & Hs). unfold wp. rewrite steal_one_run_op.
  pose proof (run_op_spec run_id (OpSteal running thief now_ms) w) as Hop.
  unfold wp, mbind_ in *. destruct (run_op _ _ w) as [[[]|e] w']; simpl in *;
    destruct Hop as [Hh Hop]; split; auto.
  - left. destruct Hop as (Hrow & s' & Hnext & Hc). unfold op_row, op_id in *; simpl in *.
    rewrite Hs in Hnext. injection Hnext as <-. auto.
  - right. destruct Hop as (Hc & [Hrow|Hn]); [|by simpl in Hn; rewrite Hs in Hn]. auto.
Qed.

(** ** The sequential run: nobody else writes between the scan and the last round *)
Definition stolen_from (run_id : RunId) (m : store) (thief : WorkerId) (now_ms : N)
    (ids : list ContentId) : store :=
  foldl (fun m id => <[work_key run_id id := encode (mkWork id (Running thief now_ms))]> m) m ids.

Lemma lookup_stolen_from run_id m thief now_ms ids k :
  stolen_from run_id m thief now_ms ids !! k =
  match list_find (fun id => work_key run_id id = k) ids with
  | Some (_, id) => Some (encode (mkWork id (Running thief now_ms)))
  | None => m !! k
  end.
Proof.
  revert m. unfold stolen_from. induction ids as [|id ids IH]; intros m; simpl; [done|].
  rewrite IH. case_decide as Hk.
  - destruct (list_find _ ids) as [[j id']|] eqn:E; simpl.
    + apply list_find_Some in E as (_ & Hk' & _).
      assert (id' = id) as -> by (apply (work_key_inj run_id); congruence). done.
    + by rewrite <- Hk, lookup_insert_eq.
  - destruct (list_find _ ids) as [[j id']|]; simpl; [done|]. by rewrite lookup_insert_ne.
Qed.

Lemma lookup_stolen_ne run_id m thief now_ms ids id :
  id ∉ ids -> stolen_from run_id m thief now_ms ids !! work_key run_id id = m !! work_key run_id id.
Proof.
  intros Hni. rewrite lookup_stolen_from.
  destruct (list_find _ ids) as [[j id']|] eqn:E; [|done].
  apply list_find_Some in E as (Hin & Hk & _). apply work_key_inj in Hk. subst id'.
  destruct Hni. by eapply list_elem_of_lookup_2.
Qed.

Lemma stolen_from_app run_id m thief now_ms ids id :
  stolen_from run_id m thief now_ms (ids ++ [id]) =
  <[work_key run_id id := encode (mkWork id (Running thief now_ms))]> (stolen_from run_id m thief now_ms ids).
Proof. unfold stolen_from. by rewrite foldl_app. Qed.

Lemma steal_loop_spec run_id thief now_ms m rest stolen w :
  contents w = stolen_from run_id m thief now_ms stolen -> NoDup (stolen ++ (work_id <$> rest)) ->
  Forall (fun r => is_running (state r) /\ m !! work_key run_id (work_id r) = Some (encode r)) rest ->
  wp (mfold (steal_one run_id thief now_ms) stolen rest) (fun r w' =>
    match r with
    | Ok ids => ids = stolen ++ (work_id <$> rest) /\
                contents w' = stolen_from run_id m thief now_ms ids
    | Err _ => ~ healthy w
    end) w.
Proof.
  intros Hc Hnd Hall. revert stolen w Hc Hnd.
  induction Hall as [|r rest [Hrun Hrow] Hall IH]; intros stolen w Hc Hnd; simpl.
  { apply wp_ret. by rewrite app_nil_r. }
  apply wp_bind. eapply wp_mono; [by apply steal_one_spec|].
  intros [ids|e] w1 [Hh Hr]; [|naive_solver]. simpl in Hnd. rewrite cons_middle, app_assoc in Hnd.
  assert (contents w !! work_key run_id (work_id r) = Some (encode r)) as Hrow'.
  { rewrite Hc, lookup_stolen_ne; [done|]. apply NoDup_app in Hnd as (Hnd & _).
    apply NoDup_app in Hnd as (_ & Hni & _). intros Hin. apply (Hni _ Hin). set_solver. }
  destruct Hr as [(_ & -> & Hc1)|(Hr & _)]; [|done].
  eapply wp_mono; [apply IH; [by rewrite Hc1, Hc, stolen_from_app|done]|].
  intros [ids|e] w2 Hr; [|naive_solver]. by rewrite <- app_assoc in Hr.
Qed.

Lemma NoDup_records run_id m : ledger_wf run_id m -> NoDup (work_id <$> records run_id m).
Proof.
  intros Hwf. apply NoDup_fmap_2_strong.
  - intros r1 r2 H1 H2 Hid. apply elem_of_records in H1, H2; [|done..].
    rewrite Hid, H2 in H1. injection H1 as H1%encode_inj. done.
  - unfold records, rows_in.
    assert (NoDup (filter (fun kv => in_range (prefix (work_prefix run_id)) kv.1 = true) (map_to_list m))) as Hnd
      by apply NoDup_filter, NoDup_map_to_list.
    assert (Forall (fun kv => exists rec, kv = (work_key run_id (work_id rec), encode rec))
      (filter (fun kv => in_range (prefix (work_prefix run_id)) kv.1 = true) (map_to_list m))) as Hd.
    { apply Forall_forall. intros [k v] [Hp Hin%elem_of_map_to_list]%list_elem_of_filter.
      destruct (Hwf k v Hin Hp) as (rec & -> & ->). by exists rec. }
    revert Hnd Hd. generalize (filter (fun kv => in_range (prefix (work_prefix run_id)) kv.1 = true)
                                 (map_to_list m)).
    intros l Hnd Hd. induction Hd as [|kv l [rec ->] Hd IH]; [constructor|].
    rewrite omap_record_of. apply NoDup_cons in Hnd as [Hni Hnd]. constructor; [|by apply IH].
    intros (kv' & Hin & Hr)%list_elem_of_omap. rewrite Forall_forall in Hd.
    destruct (Hd _ Hin) as [rec' ->].
    rewrite record_of_encode in Hr. injection Hr as ->. done.
Qed.

Lemma running_items_spec run_id m entries victim : ledger_wf run_id m ->
  entries ≡ₚ rows_in m (prefix (work_prefix run_id)) ->
  NoDup (work_id <$> sort_by id_le (running_items entries victim)) /\
  length (sort_by id_le (running_items entries victim)) = load run_id m victim /\
  forall r, r ∈ sort_by id_le (running_items entries victim) <->
    running_on victim r = true /\ m !! work_key run_id (work_id r) = Some (encode r).
Proof.
  intros Hwf Hp.
  assert (sort_by id_le (running_items entries victim) ≡ₚ
          filter (fun r => running_on victim r = true) (records run_id m)) as Hperm.
  { rewrite (sort_by_perm id_le). unfold running_items, records. by rewrite Hp. }
  rewrite Hperm. split; [|split; [done|]].
  - eapply sublist_NoDup; [apply (NoDup_records run_id m Hwf)|].
    apply (fmap_sublist work_id), sublist_filter.
  - intros r. by rewrite Hperm, list_elem_of_filter, elem_of_records.
Qed.

Lemma steal_count_eq n : steal_count n = Nat.min ((n + 1) / 2) 32.
Proof. unfold steal_count, MAX_STEAL_BATCH. by rewrite Nat.div2_div. Qed.

Lemma steal_count_bounds n : 0 < n -> 0 < steal_count n <= n.
Proof.
  intros Hn. unfold steal_count, MAX_STEAL_BATCH. rewrite Nat.div2_div.
  pose proof (Nat.div_mod_eq (n + 1) 2). pose proof (Nat.mod_upper_bound (n + 1) 2). lia.
Qed.

(** [id_le] is a total preorder. *)
Lemma id_le_total a b : id_le a b = false -> id_le b a = true.
Proof. apply bytes_le_total. Qed.
Lemma id_le_trans a b c : id_le a b = true -> id_le b c = true -> id_le a c = true.
Proof. apply bytes_le_trans. Qed.

(** What a request moves: nothing for a busy thief or with no busy peer; else half of the
    busiest peer's items, the least ids first. *)
Definition steal_outcome (run_id : RunId) (m : store) (thief : WorkerId) (half : nat -> nat) (stolen : list ContentId) : Prop :=
  if decide (0 < load run_id m thief) then stolen = []
  else
    (stolen = [] /\ forall x, x <> thief -> load run_id m x = 0) \/
    exists victim, victim <> thief /\ 0 < load run_id m victim /\
      (forall x, x <> thief -> no_busier (x, load run_id m x) (victim, load run_id m victim)) /\
      length stolen = half (load run_id m victim) /\
      (forall id, id ∈ stolen -> exists t, m !! work_key run_id id = Some (encode (mkWork id (Running victim t)))) /\
      (forall id t, m !! work_key run_id id = Some (encode (mkWork id (Running victim t))) -> id ∉ stolen ->
         forall id', id' ∈ stolen -> bytes_le id' id = true).

Lemma handle_steal_request_post run_id thief now_ms w (Hwf : ledger_wf run_id (contents w)) :
  wp (handle_steal_request run_id thief now_ms) (fun r w' =>
    match r with
    | Ok stolen =>
        contents w' = stolen_from run_id (contents w) thief now_ms stolen /\ NoDup stolen /\
        steal_outcome run_id (contents w) thief steal_count stolen
    | Err _ => ~ healthy w
    end) w.
Proof.
  unfold handle_steal_request. wp_call (backlog_spec run_id thief); [done|].
  intros [own|e] w1 (Hc1 & Hh1 & Hr1); [simpl in Hr1; subst own|done].
  case_decide as Hown.
  { apply wp_ret. split; [done|]. split; [constructor|]. unfold steal_outcome. by rewrite decide_True. }
  wp_call (busiest_spec run_id thief); [by rewrite Hc1|]. rewrite Hc1.
  intros [[[victim n]|]|e] w2 (Hc2 & Hh2 & Hr2); simpl in Hr2; [| |naive_solver].
  2:{ apply wp_ret. split; [simpl; congruence|]. split; [constructor|]. unfold steal_outcome. rewrite decide_False by done. by left. }
  destruct Hr2 as (Hne & -> & Hpos & Hmax).
  pose proof (steal_count_bounds _ Hpos) as Hcnt. rewrite decide_False by lia.
  wp_call (scan_rows_spec (prefix (work_prefix run_id))); [apply work_prefix_known|by eexists|].
  rewrite Hc2. intros [es|e] w3 (Hc3 & Hh3 & Hr3); [simpl in Hr3|naive_solver].
  destruct (running_items_spec run_id _ es victim Hwf Hr3) as (Hnd & Hlen & Hin).
  set (items := sort_by id_le (running_items es victim)) in *.
  assert (NoDup (work_id <$> take (steal_count (load run_id (contents w) victim)) items)) as Hnd'.
  { eapply sublist_NoDup; [exact Hnd|]. apply (fmap_sublist work_id), sublist_take. }
  eapply wp_mono; [apply (steal_loop_spec run_id thief now_ms (contents w))|].
  - done.
  - done.
  - apply Forall_forall. intros r Hr%elem_of_take_sub. apply Hin in Hr as [Hr Hrow].
    split; [|done]. unfold running_on in Hr. destruct (state r) eqn:E; try done. by do 2 eexists.
  - intros [ids|e] w4 Hr4; [|naive_solver]. destruct Hr4 as [-> Hc4]. simpl in *.
    split; [done|]. split; [done|]. unfold steal_outcome. rewrite decide_False by done.
    right. exists victim. split; [done|]. split; [done|]. split; [done|].
    rewrite length_fmap, length_take, Hlen. split; [lia|]. split.
    + intros id (r & -> & Hr%elem_of_take_sub)%list_elem_of_fmap. apply Hin in Hr as [Hr Hrow].
      unfold running_on in Hr. destruct r as [rid rs]; simpl in *.
      destruct rs as [|v t| |]; try done. apply bool_decide_eq_true in Hr. subst v. by exists t.
    + intros id t Hrow Hni id' (r' & -> & Hr')%list_elem_of_fmap.
      assert (mkWork id (Running victim t) ∈ items) as Hitem.
      { apply Hin. split; [|done]. unfold running_on; simpl. by apply bool_decide_eq_true_2. }
      pose proof (sort_by_sorted id_le id_le_total id_le_trans (running_items es victim)) as Hs. fold items in Hs.
      rewrite <- (take_drop (steal_count (load run_id (contents w) victim)) items) in Hs, Hitem.
      apply elem_of_app in Hitem as [Hitem|Hitem].
      { destruct Hni. change id with (work_id (mkWork id (Running victim t))). by apply list_elem_of_fmap_2. }
      by apply (strongly_sorted_app id_le _ _ r' (mkWork id (Running victim t)) Hs).
Qed.

(** A request leaves a healthy store healthy. *)
Lemma handle_steal_request_healthy run_id thief now_ms w : healthy w ->
  wp (handle_steal_request run_id thief now_ms) (fun _ w' => healthy w') w.
Proof.
  intros Hh0. unfold handle_steal_request, backlog, busiest.
  assert (forall w0, healthy w0 -> wp (scan_bytes (work_prefix run_id)) (fun _ w' => healthy w') w0) as Hscan.
  { intros w0 Hw0. eapply wp_mono; [apply (scan_rows_spec (prefix (work_prefix run_id)));
      [apply work_prefix_known|by eexists]|]. naive_solver. }
  repeat wp_pure. eapply wp_mono; [by apply Hscan|]. intros [es|e] w1 Hh1; [|done]. wp_pure.
  destruct (backlog_loop thief es 0) as [own|e]; [|done]. case_decide; [by apply wp_ret|].
  repeat wp_pure. eapply wp_mono; [by apply Hscan|]. intros [es2|e] w2 Hh2; [|done]. repeat wp_pure.
  destruct (busiest_loop thief es2 ∅) as [counts|e]; [|done]. wp_pure.
  destruct (max_by busier (map_to_list counts)) as [[victim n]|]; [|by apply wp_ret].
  case_decide; [by apply wp_ret|].
  repeat wp_pure. eapply wp_mono; [by apply Hscan|]. intros [es3|e] w3 Hh3; [|done].
  set (items := take _ _).
  assert (Forall (fun r => is_running (state r)) items) as Hall.
  { apply Forall_forall. intros r Hr%elem_of_take_sub. rewrite (sort_by_perm id_le) in Hr.
    apply list_elem_of_filter in Hr as [Hr _]. unfold running_on in Hr. destruct (state r); try done. by do 2 eexists. }
  eapply wp_mono; [apply (wp_mfold _ (fun _ l w => Forall (fun r => is_running (state r)) l /\ healthy w)
    (fun _ w' => healthy w'))|].
  - intros acc r l w4 [Hf Hh4]. inversion Hf; subst. eapply wp_mono; [by apply steal_one_spec|].
    intros [ids|e] w5 [Hh5 _]; auto.
  - done.
  - intros [ids|e] w5 H5; [apply H5|done].
Qed.

(** C7: On a well-formed ledger a steal takes nothing for a thief that still runs
    something, nor when nobody else does; for an idle thief it moves exactly
    [min(ceil(backlog / 2), 32)] items of the busiest peer (ties to the greater id), the
    least ids first, each of them [Running] on the victim before and on the thief after,
    and leaves every other row of the store as it was. *)
Theorem handle_steal_request_spec run_id thief now_ms w (Hwf : ledger_wf run_id (contents w)) :
  wp (handle_steal_request run_id thief now_ms) (fun r w' =>
    match r with
    | Ok stolen =>
        contents w' = stolen_from run_id (contents w) thief now_ms stolen /\ NoDup stolen /\
        steal_outcome run_id (contents w) thief (fun n => Nat.min ((n + 1) / 2) 32) stolen
    | Err _ => ~ healthy w
    end) w.
Proof.
  eapply wp_mono; [by apply handle_steal_request_post|]. intros [stolen|e] w' H; [|done].
  destruct H as (Hc & Hnd & H). split_and!; [done..|]. unfold steal_outcome in *. case_decide; [done|].
  by setoid_rewrite steal_count_eq in H.
Qed.
End steal.

Section steal_examples.
#[local] Existing Instance bits_codec.

Lemma handle_steal_request_spec_witness :
  fst (handle_steal_request 1 9 50 w_three) = Ok [[x01]] /\
  fst (handle_steal_request 1 8 50 w_three) = Ok [] /\
  wp (handle_steal_request 1 9 50) (fun r w' =>
    match r with
    | Ok stolen => contents w' = stolen_from 1 (contents w_three) 9 50 stolen
    | Err _ => ~ healthy w_three
    end) w_three.
Proof.
  split; [vm_compute; reflexivity|]. split; [vm_compute; reflexivity|]. eapply wp_mono.
  - apply (handle_steal_request_spec 1 9 50 w_three). apply three_rows_wf.
  - intros [stolen|e] w' H; [exact (proj1 H)|exact H].
Defined.
End steal_examples.
