(* ===== verification/Replay.v ===== *)
(** The stateless-replayer boot of the coordinator (rollout-coordinator/src/run.rs
    [replay_and_serve]), the renew loop's decisions, the self-fence (fence.rs) and
    the completion driver of mock_run.rs. *)
From stdpp Require Import base option list gmap strings sorting pretty.
From S2P Require Import Prelude.
From S2P Require Import Core.
From S2P Require Import Storage.
From S2P Require Import Lease.
From S2P Require Import WorkItem.
From S2P Require Import Ledger.
From S2P Require Import Steal.

Record ReplayState : Type := mkReplay {
  rs_epoch : CoordEpoch;
  in_flight : gmap ContentId WorkerId;
  rs_pending : list ContentId;
  terminal : nat;
}.

Section replay.
Context {W T : Type} {ST : Storage W T} {SL : StorageLaws W T}.
Context {LC : Codec LeaseRecord} {EC : Codec CoordEpoch} {WC : Codec WorkItemRecord}.

(** One row of the replay loop; an undecodable row is skipped. *)
Definition replay_row (st : ReplayState) (entry : StorageKey * bytes) : ReplayState :=
  match record_of entry with
  | None => st
  | Some rec =>
      match state rec with
      | Running worker_id _ =>
          mkReplay (rs_epoch st) (<[work_id rec := worker_id]> (in_flight st))
                   (rs_pending st) (terminal st)
      | Pending => mkReplay (rs_epoch st) (in_flight st) (rs_pending st ++ [work_id rec]) (terminal st)
      | Done _ | Failed _ => mkReplay (rs_epoch st) (in_flight st) (rs_pending st) (S (terminal st))
      end
  end.

Definition replay_and_serve (run_id : RunId) (me : WorkerId) (now ttl_ms : N)
  : M W CoreError (option ReplayState) :=
  let* held := try_acquire run_id me now ttl_ms in
  match held with
  | None => mret None
  | Some held =>
      let* entries := scan_bytes (work_prefix run_id) in
      mret (Some (foldl replay_row (mkReplay (lease_epoch held) ∅ [] 0) entries))
  end.

Definition is_terminal (s : WorkState) : bool :=
  match s with Done _ | Failed _ => true | _ => false end.

Definition pending_ids (recs : list WorkItemRecord) : list ContentId :=
  work_id <$> filter (fun r => state r = Pending) recs.

Lemma replay_rows_lists entries st : all_decode entries ->
  let st' := foldl replay_row st entries in
  rs_epoch st' = rs_epoch st /\
  rs_pending st' = rs_pending st ++ pending_ids (omap record_of entries) /\
  terminal st' = terminal st +
    length (filter (fun r => is_terminal (state r) = true) (omap record_of entries)).
Proof.
  intros Hd. simpl. revert st. induction Hd as [|[k v] entries [rec Hv] Hd IH]; intros st.
  { unfold pending_ids. simpl. rewrite app_nil_r, Nat.add_0_r. done. }
  simpl in Hv. subst v. rewrite omap_record_of. cbn [foldl].
  destruct (IH (replay_row st (k, encode rec))) as (-> & -> & ->).
  unfold replay_row, pending_ids. rewrite record_of_encode, !filter_cons.
  destruct (state rec); cbn [is_terminal rs_epoch rs_pending terminal];
    repeat case_decide; try done; cbn [length fmap list_fmap];
    rewrite <- ?app_assoc; (split; [done|split; [done|lia]]).
Qed.

Lemma replay_rows_flight entries st id v : all_decode entries ->
  NoDup (work_id <$> omap record_of entries) ->
  in_flight (foldl replay_row st entries) !! id = Some v <->
  (exists t, mkWork id (Running v t) ∈ omap record_of entries) \/
  (in_flight st !! id = Some v /\
   forall v' t, mkWork id (Running v' t) ∉ omap record_of entries).
Proof.
  intros Hd. revert st. induction Hd as [|[k bs] entries [rec Hv] Hd IH]; intros st Hnd.
  { simpl. split; [intros H; right; split; [done|]; intros ? ? ?%not_elem_of_nil; done|].
    intros [[t ?%not_elem_of_nil]|[? _]]; done. }
  simpl in Hv. subst bs. rewrite omap_record_of in Hnd |- *. cbn [foldl].
  apply NoDup_cons in Hnd as [Hni Hnd]. rewrite IH by done.
  assert (forall v' t, mkWork id (Running v' t) ∈ omap record_of entries -> work_id rec <> id) as Hne.
  { intros v' t Hin Heq. apply Hni. apply list_elem_of_fmap. by exists (mkWork id (Running v' t)). }
  setoid_rewrite elem_of_cons. unfold replay_row. rewrite record_of_encode.
  destruct rec as [rid rs]; simpl in *.
  destruct rs as [|w' t'|r|m]; simpl;
    try (split; [intros [[t ?]|[? Hn]]; [left; eauto|right; split; [done|]; intros v' t [[=]|?]; by eapply Hn]
                |intros [[t [[=]|?]]|[? Hn]]; [left; eauto|right; split; [done|]; intros v' t ?; eapply Hn; eauto]]).
  destruct (decide (rid = id)) as [->|Hid].
  - rewrite lookup_insert_eq. split.
    + intros [[t Hin]|[[= ->] _]]; [by destruct (Hne _ _ Hin)|]. left. exists t'. by left.
    + intros [[t [[= -> ->]|Hin]]|[_ Hn]]; [|by destruct (Hne _ _ Hin)|].
      * right. split; [done|]. intros v' t'' Hin. by destruct (Hne _ _ Hin).
      * exfalso. eapply Hn. by left.
  - rewrite lookup_insert_ne by done. split.
    + intros [[t ?]|[? Hn]]; [left; eauto|right; split; [done|]; intros v' t [[= -> ->]|?]; [done|by eapply Hn]].
    + intros [[t [[= -> -> ->]|?]]|[? Hn]]; [done|left; eauto|right; split; [done|]; intros v' t ?; eapply Hn; eauto].
Qed.

(** The lease and epoch rows are not ledger rows. *)
Lemma rows_in_claimed run_id rec m :
  rows_in (claimed run_id rec m) (prefix (work_prefix run_id)) ≡ₚ
  rows_in m (prefix (work_prefix run_id)).
Proof.
  apply NoDup_Permutation; try apply NoDup_filter, NoDup_map_to_list.
  intros [k v]. rewrite !elem_of_rows_in. split; intros [Hk Hp]; split; try done;
    (destruct (decide (k = epoch_key run_id)) as [->|]; [done|]);
    (destruct (decide (k = lease_key run_id)) as [->|]; [done|]);
    unfold claimed in *; by rewrite !lookup_insert_ne in * by done.
Qed.

(** C22: A coordinator that wins the lease rebuilds its state from the ledger
    without touching it: the in-flight map holds exactly the [Running] rows with
    their workers, the pending list exactly the [Pending] ids, the rest is counted
    as terminal, the epoch is the one it just won, and the only rows written are
    the lease and epoch rows; a loser gets [None] and changes nothing. *)
Theorem replay_and_serve_spec run_id me now ttl_ms w (Hwf : ledger_wf run_id (contents w)) :
  wp (replay_and_serve run_id me now ttl_ms) (fun r w' =>
    match r with
    | Ok (Some st) => exists held, contents w' = claimed run_id held (contents w) /\
        holder held = me /\ rs_epoch st = lease_epoch held /\
        (forall id v, in_flight st !! id = Some v <->
           exists t, contents w !! work_key run_id id = Some (encode (mkWork id (Running v t)))) /\
        (forall id, id ∈ rs_pending st <->
           contents w !! work_key run_id id = Some (encode (mkWork id Pending))) /\
        terminal st = length (filter (fun r => is_terminal (state r) = true) (records run_id (contents w)))
    | Ok None => contents w' = contents w
    | Err _ => contents w' = contents w \/ exists held, contents w' = claimed run_id held (contents w)
    end) w.
Proof.
  unfold replay_and_serve.
  wp_call (try_acquire_post run_id me now ttl_ms). unfold acquire_post.
  intros [[held|]|e] w1 [Hh1 Hr1]; [|apply wp_ret; tauto|tauto].
  destruct Hr1 as (_ & Hc1 & Hho & _ & _).
  wp_call (scan_rows_spec (prefix (work_prefix run_id))); [apply work_prefix_known|by eexists|].
  intros [es|e] w2 (Hc2 & _ & Hr2); [|right; exists held; congruence]. simpl in Hr2.
  apply wp_ret. exists held. split; [congruence|]. split; [done|].
  rewrite Hc1, rows_in_claimed in Hr2.
  assert (all_decode es) as Hd by (by eapply rows_decode).
  assert (omap record_of es ≡ₚ records run_id (contents w)) as Hp by (unfold records; by rewrite Hr2).
  assert (forall rec, rec ∈ records run_id (contents w) <->
            contents w !! work_key run_id (work_id rec) = Some (encode rec)) as Hrec
    by (intros rec; by apply elem_of_records).
  destruct (replay_rows_lists es (mkReplay (lease_epoch held) ∅ [] 0) Hd) as (He & Hpend & Hterm).
  split; [done|]. split; [|split].
  - intros id v. rewrite replay_rows_flight; [|done|].
    + simpl. rewrite lookup_empty. setoid_rewrite Hp. setoid_rewrite Hrec.
      simpl. naive_solver.
    + rewrite Hp. by apply NoDup_records.
  - intros id. rewrite Hpend. simpl. unfold pending_ids. rewrite Hp, list_elem_of_fmap.
    setoid_rewrite list_elem_of_filter. setoid_rewrite Hrec. split.
    + intros ([i s] & -> & Hs & Hrow). simpl in *. by subst s.
    + intros Hrow. by exists (mkWork id Pending).
  - rewrite Hterm. simpl. by rewrite Hp.
Qed.

(** ** The renew loop ([spawn_lease_renew_loop]) and the self-fence (fence.rs) *)
Record FenceEvent : Type := mkFence {
  fe_topic : string; fe_run : RunId; fe_worker : WorkerId; fe_message : string;
  fe_stale : CoordEpoch; fe_observed : CoordEpoch;
}.

Inductive FenceDecision : Type := FenceAbort.

(** [fence_old_coordinator]: one event to the observability sink, its failure
    ignored, and the decision to abort. *)
Definition fence_old_coordinator (emit : FenceEvent -> result CoreError unit)
    (coord_id : WorkerId) (run_id : RunId) (stale observed : CoordEpoch)
  : FenceDecision * list FenceEvent :=
  let event := mkFence "coordinator_fenced" run_id coord_id
    ("coordinator fenced: stale_epoch=" +:+ pretty (raw_epoch stale)
     +:+ " < observed_epoch=" +:+ pretty (raw_epoch observed)) stale observed in
  let _ := emit event in
  (FenceAbort, [event]).

(** What one tick of the loop does: go on, or fence with (stale, observed) and
    abort the process. *)
Inductive tick : Type := Continue | FencedAt (stale observed : CoordEpoch).

Definition renew_tick (run_id : RunId) (me : WorkerId) (start_epoch : CoordEpoch)
    (now ttl_ms : N) : M W CoreError tick :=
  let* cur := mcatch (current run_id) in
  match cur with
  | Ok (Some held) =>
      if decide (holder held <> me) then mret (FencedAt start_epoch (lease_epoch held))
      else
        let* renewed := mcatch (renew run_id held now ttl_ms) in
        match renewed with
        | Ok true => mret Continue
        | Ok false =>
            let* again := mcatch (current run_id) in
            let observed := match again with
                            | Ok (Some c) => lease_epoch c
                            | _ => lease_epoch held
                            end in
            mret (FencedAt (lease_epoch held) observed)
        | Err _ => mret Continue
        end
  | _ => mret Continue
  end.

Lemma current_spec run_id w :
  wp (current run_id) (fun r w' => contents w' = contents w /\ (healthy w -> healthy w') /\
    match r with
    | Ok (Some rec) => exists bs, contents w !! lease_key run_id = Some bs /\ decode bs = Ok rec
    | Ok None => contents w !! lease_key run_id = None
    | Err _ => ~ healthy w \/ exists bs msg, contents w !! lease_key run_id = Some bs /\
                                            @decode _ LC bs = Err msg
    end) w.
Proof.
  unfold current. wp_call get_row_spec; [done|].
  intros [[bs|]|e] w' (Hc & Hh & Hr); simpl in Hr; [|by apply wp_ret|by auto].
  repeat wp_pure. unfold decode_lease. destruct (decode bs) as [rec|msg] eqn:E; [apply wp_ret|];
    (split; [done|split; [done|]]); eauto 10.
Qed.

(** A tick of the renew loop never fails, and it fences without having written
    anything when the stored lease is another coordinator's; when the lease is its
    own, it either renews it under the same epoch or, on a fault, changes nothing
    and goes on. *)
Theorem renew_tick_spec run_id me start_epoch now ttl_ms (held : LeaseRecord) w
    (Hrow : contents w !! lease_key run_id = Some (encode held)) :
  wp (renew_tick run_id me start_epoch now ttl_ms) (fun r w' =>
    (healthy w -> holder held <> me -> r = Ok (FencedAt start_epoch (lease_epoch held))) /\
    (holder held <> me -> contents w' = contents w) /\
    (holder held = me -> r = Ok Continue /\
       (contents w' = contents w /\ ~ healthy w \/
        contents w' = claimed run_id (mkLease me (lease_epoch held) (u128_add now ttl_ms)) (contents w)))) w.
Proof.
  unfold renew_tick. wp_call (current_spec run_id).
  intros [[rec|]|e] w1 (Hc1 & Hh1 & Hr1); rewrite ?Hrow in Hr1.
  - destruct Hr1 as (bs & [= <-] & Hd). rewrite decode_encode in Hd. injection Hd as <-.
    case_decide as Hho; [apply wp_ret; naive_solver|].
    rewrite renew_eq. wp_call commit_claim_spec. unfold claim_post. rewrite Hc1.
    intros [[]|e] w2 [Hh2 Hr2]; simpl.
    + apply wp_ret. destruct Hr2 as [_ ->]. rewrite Hho. naive_solver.
    + by destruct Hr2.
    + apply wp_ret. destruct Hr2 as [? ->]. naive_solver.
  - done.
  - apply wp_ret. destruct Hr1 as [?|(bs & msg & [= <-] & Hd)]; [naive_solver|].
    by rewrite decode_encode in Hd.
Qed.
End replay.

Section replay_examples.
#[local] Existing Instance bits_codec.

(** What a successor rebuilds from three running items. *)
Definition replayed : ReplayState :=
  match fst (replay_and_serve 1 5 100 50 w_three) with Ok (Some st) => st | _ => mkReplay (MkEpoch 0) ∅ [] 0 end.

Lemma replay_and_serve_spec_witness :
  (exists st, fst (replay_and_serve 1 5 100 50 w_three) = Ok (Some st) /\
     in_flight st !! [x02] = Some 7%N /\ terminal st = 0) /\
  wp (replay_and_serve 1 5 100 50) (fun r w' =>
    match r with
    | Ok (Some st) => exists held, contents w' = claimed 1 held (contents w_three)
    | _ => True
    end) w_three.
Proof.
  split; [exists replayed; repeat split; vm_compute; reflexivity|]. eapply wp_mono.
  - apply (replay_and_serve_spec 1 5 100 50 w_three). apply three_rows_wf.
  - intros [[st|]|e] w' H; [|exact I|exact I]. destruct H as [held [H _]]. exists held. exact H.
Defined.

Lemma renew_tick_spec_witness :
  let held := mkLease 5 (MkEpoch 2) 100 in
  let w := Mem.mkWorld {[ lease_key 1 := encode held ]} [] [] in
  fst (renew_tick 1 6 (MkEpoch 1) 50 30 w) = Ok (FencedAt (MkEpoch 1) (MkEpoch 2)) /\
  wp (renew_tick 1 6 (MkEpoch 1) 50 30) (fun _ w' => contents w' = contents w) w.
Proof.
  intros held w. split; [vm_compute; reflexivity|]. eapply wp_mono.
  - apply (renew_tick_spec 1 6 (MkEpoch 1) 50 30 held w). vm_compute. reflexivity.
  - intros r w' (_ & H & _). apply H. vm_compute. discriminate.
Defined.
End replay_examples.
