(* ===== verification/LocalQueue.v ===== *)
(** The in-memory queue of the local backend (rollout-cloud-local/src/queue.rs): a
    deque whose items are mirrored into storage so that unacked ones survive a
    restart. *)
From stdpp Require Import base option list gmap strings sorting.
From S2P Require Import Prelude.
From S2P Require Import Core.
From S2P Require Import Storage.

Abbreviation QueueItemId := Ulid.

(** [QueueItemId(ulid)] order: the ULID's 128-bit value. *)
Definition item_le (a b : QueueItemId * bytes) : bool := bool_decide (a.1 <= b.1)%N.

Lemma item_le_total a b : item_le a b = false -> item_le b a = true.
Proof. unfold item_le. rewrite bool_decide_eq_false, bool_decide_eq_true. lia. Qed.
Lemma item_le_trans a b c : item_le a b = true -> item_le b c = true -> item_le a c = true.
Proof. unfold item_le. rewrite !bool_decide_eq_true. lia. Qed.

Section local_queue.
Context {W T : Type} {ST : Storage W T} {SL : StorageLaws W T} {UT : UlidText}.

(** The queue over its backing storage. *)
Record InMemQueue : Type := mkQueue {
  deque : list (QueueItemId * bytes);
  q_storage : W;
}.

Definition on_storage {A} (m : M W CoreError A) : M InMemQueue CoreError A :=
  zoom q_storage (fun w q => mkQueue (deque q) w) m.

Definition with_deque {A} (f : list (QueueItemId * bytes) -> A * list (QueueItemId * bytes))
  : M InMemQueue CoreError A := fun q =>
  let '(a, d) := f (deque q) in (Ok a, mkQueue d (q_storage q)).

Definition key_for (id : QueueItemId) : StorageKey :=
  mkKey "cloudlocal_queue" None [ulid_string id].

Definition queue_prefix_key : StorageKey := mkKey "cloudlocal_queue" None [].

(** The replay loop of [open]: rows whose first path segment is no ULID are skipped. *)
Definition replay_entry (kv : StorageKey * bytes) : option (QueueItemId * bytes) :=
  match path kv.1 with
  | seg :: _ => match ulid_parse seg with Some u => Some (u, kv.2) | None => None end
  | [] => None
  end.

Definition open (_ : unit) : M W CoreError (list (QueueItemId * bytes)) :=
  let* entries := scan_bytes (mkRange queue_prefix_key None) in
  mret (sort_by item_le (omap replay_entry entries)).

(** [id] is what the monotonic ULID generator returns. *)
Definition enqueue (id : result string QueueItemId) (payload : bytes) : M InMemQueue CoreError QueueItemId :=
  match id with
  | Err e => mthrow (internal ("ulid monotonic overflow: " +:+ e))
  | Ok id =>
      let* _ := on_storage (put_row (key_for id) payload) in
      with_deque (fun d => (id, d ++ [(id, payload)]))
  end.

Definition dequeue (_ : unit) : M InMemQueue CoreError (option (QueueItemId * bytes)) :=
  with_deque (fun d => match d with [] => (None, []) | x :: d' => (Some x, d') end).

Definition ack (id : QueueItemId) : M InMemQueue CoreError unit :=
  on_storage (delete_row (key_for id)).

Definition nack (id : QueueItemId) : M InMemQueue CoreError unit :=
  let* row := on_storage (get_bytes (key_for id)) in
  match row with
  | None => mthrow (internal ("nack: queue item QueueItemId(" +:+ ulid_string id
                              +:+ ") absent from storage"))
  | Some payload => with_deque (fun d => (tt, (id, payload) :: d))
  end.

(** The lease argument is ignored; the token is made from the id. *)
Definition dequeue_with_lease (lease_ms : N)
  : M InMemQueue CoreError (option (QueueItemId * bytes * QueueItemId)) :=
  let* item := dequeue tt in
  mret (match item with None => None | Some (id, p) => Some (id, p, id) end).

Definition extend_lease (id : QueueItemId) (extend_by_ms : N) : M InMemQueue CoreError unit :=
  let* row := on_storage (get_bytes (key_for id)) in
  let* in_deque := with_deque (fun d => (existsb (fun x => bool_decide (x.1 = id)) d, d)) in
  if (bool_decide (is_Some row) && negb in_deque)%bool then mret tt
  else mthrow (Recoverable (Transient ("extend_lease: QueueItemId QueueItemId(" +:+ ulid_string id
                                       +:+ ") not in-flight") Never)).

(** ** What each operation does *)
Lemma key_for_known id : known (key_for id).
Proof. unfold known; simpl. set_solver. Qed.

Lemma key_for_inj id id' : key_for id = key_for id' -> id = id'.
Proof.
  unfold key_for. intros [= H]. pose proof (ulid_parse_string id) as H1.
  rewrite H, ulid_parse_string in H1. congruence.
Qed.

Definition queue_rows (q : InMemQueue) : store := contents (q_storage q).

Lemma enqueue_spec id payload q :
  wp (enqueue (Ok id) payload) (fun r q' =>
    match r with
    | Ok id' => id' = id /\ deque q' = deque q ++ [(id, payload)] /\
                queue_rows q' = <[key_for id := payload]> (queue_rows q)
    | Err _ => deque q' = deque q /\ queue_rows q' = queue_rows q
    end) q.
Proof.
  unfold enqueue, queue_rows. apply wp_bind, wp_zoom.
  eapply wp_mono; [apply put_row_spec, key_for_known|]. by intros [[]|e] w3 Hr.
Qed.

Lemma ack_spec id q :
  wp (ack id) (fun r q' => deque q' = deque q /\
    match r with
    | Ok _ => queue_rows q' = delete (key_for id) (queue_rows q)
    | Err _ => queue_rows q' = queue_rows q
    end) q.
Proof.
  unfold ack, queue_rows. apply wp_zoom.
  eapply wp_mono; [apply delete_row_spec, key_for_known|]. by intros [[]|e] w3 Hr.
Qed.

Lemma nack_spec id q :
  wp (nack id) (fun r q' => queue_rows q' = queue_rows q /\
    match r with
    | Ok _ => exists payload, queue_rows q !! key_for id = Some payload /\
                              deque q' = (id, payload) :: deque q
    | Err _ => deque q' = deque q /\ (queue_rows q !! key_for id = None \/ ~ healthy (q_storage q))
    end) q.
Proof.
  unfold nack, queue_rows. apply wp_bind, wp_zoom.
  eapply wp_mono; [apply get_law, key_for_known|].
  intros [[payload|]|e] w' ((Hc & _) & Hr); simpl in Hr |- *.
  - unfold wp, with_deque; simpl. eauto.
  - apply wp_throw. simpl. auto.
  - auto.
Qed.

(** ** Histories of the queue *)
Inductive queue_op : Type :=
| Enq (id : QueueItemId) (payload : bytes)
| Deq (got : option (QueueItemId * bytes))
| Ack (id : QueueItemId)
| Nack (id : QueueItemId).

(** The operations that returned [Ok], in order; failed ones and storage faults
    may happen anywhere in between. *)
Inductive queue_run : InMemQueue -> list queue_op -> InMemQueue -> Prop :=
| qr_nil q : queue_run q [] q
| qr_enq id p ops q q' q'' :
    enqueue (Ok id) p q = (Ok id, q') -> queue_run q' ops q'' -> queue_run q (Enq id p :: ops) q''
| qr_deq got ops q q' q'' :
    dequeue tt q = (Ok got, q') -> queue_run q' ops q'' -> queue_run q (Deq got :: ops) q''
| qr_ack id ops q q' q'' :
    ack id q = (Ok tt, q') -> queue_run q' ops q'' -> queue_run q (Ack id :: ops) q''
| qr_nack id ops q q' q'' :
    nack id q = (Ok tt, q') -> queue_run q' ops q'' -> queue_run q (Nack id :: ops) q''
| qr_failed ops q q' q'' :
    ((exists id p e, enqueue (Ok id) p q = (Err e, q')) \/ (exists id e, ack id q = (Err e, q')) \/
     (exists id e, nack id q = (Err e, q'))) ->
    queue_run q' ops q'' -> queue_run q ops q''.

(** The items a history leaves unacked. *)
Definition unacked_step (m : gmap QueueItemId bytes) (op : queue_op) : gmap QueueItemId bytes :=
  match op with
  | Enq id p => <[id := p]> m
  | Ack id => delete id m
  | Deq _ | Nack _ => m
  end.
Definition unacked (ops : list queue_op) (m : gmap QueueItemId bytes) : gmap QueueItemId bytes :=
  foldl unacked_step m ops.

(** The mirror: the queue's namespace holds exactly the unacked items. *)
Definition mirrors (m : gmap QueueItemId bytes) (s : store) : Prop :=
  (forall id, s !! key_for id = m !! id) /\
  (forall k v, s !! k = Some v -> namespace k = "cloudlocal_queue" -> exists id, k = key_for id).

Lemma mirrors_insert m s id p : mirrors m s -> mirrors (<[id := p]> m) (<[key_for id := p]> s).
Proof.
  intros [H1 H2]. split.
  - intros id'. destruct (decide (id' = id)) as [->|Hne]; [by rewrite !lookup_insert_eq|].
    rewrite !lookup_insert_ne; [apply H1|done|]. intros Hk. by apply key_for_inj in Hk.
  - intros k v. destruct (decide (k = key_for id)) as [->|Hne]; [eauto|].
    rewrite lookup_insert_ne by done. apply H2.
Qed.

Lemma mirrors_delete m s id : mirrors m s -> mirrors (delete id m) (delete (key_for id) s).
Proof.
  intros [H1 H2]. split.
  - intros id'. destruct (decide (id' = id)) as [->|Hne]; [by rewrite !lookup_delete_eq|].
    rewrite !lookup_delete_ne; [apply H1|done|]. intros Hk. by apply key_for_inj in Hk.
  - intros k v. destruct (decide (k = key_for id)) as [->|Hne]; [eauto|].
    rewrite lookup_delete_ne by done. apply H2.
Qed.

Lemma queue_run_mirrors q ops q' m :
  queue_run q ops q' -> mirrors m (queue_rows q) -> mirrors (unacked ops m) (queue_rows q').
Proof.
  intros Hrun. revert m. induction Hrun as [q|id p ops q q1 q2 He _ IH|got ops q q1 q2 Hd _ IH
    |id ops q q1 q2 Ha _ IH|id ops q q1 q2 Hn _ IH|ops q q1 q2 Hf _ IH]; intros m Hm; simpl.
  - done.
  - eapply wp_elim in He; [|apply enqueue_spec]. destruct He as (_ & _ & Hc).
    apply IH. rewrite Hc. by apply mirrors_insert.
  - apply IH. unfold dequeue, with_deque in Hd. destruct (deque q); injection Hd as _ <-; done.
  - eapply wp_elim in Ha; [|apply ack_spec]. destruct Ha as (_ & Hc).
    apply IH. rewrite Hc. by apply mirrors_delete.
  - eapply wp_elim in Hn; [|apply nack_spec]. destruct Hn as (Hc & _). apply IH. by rewrite Hc.
  - apply IH. destruct Hf as [(id & p & e & H)|[(id & e & H)|(id & e & H)]].
    + eapply wp_elim in H; [|apply enqueue_spec]. destruct H as [_ H]. by rewrite H.
    + eapply wp_elim in H; [|apply ack_spec]. destruct H as [_ H]. by rewrite H.
    + eapply wp_elim in H; [|apply nack_spec]. destruct H as [H _]. by rewrite H.
Qed.

Lemma open_spec m w : mirrors m (contents w) ->
  wp (open tt) (fun r w' => contents w' = contents w /\
    ok_or_fault w r (fun d => d ≡ₚ map_to_list m /\ StronglySorted (fun a b => a.1 <= b.1)%N d)) w.
Proof.
  intros [Hm Hns]. unfold open. wp_call scan_global_law; [unfold known; simpl; set_solver|done| |].
  { intros k v Hk Hq. by destruct (Hns k v Hk Hq) as [id ->]. }
  intros [es|e] w' ((Hc & _) & Hr); [|by split]. simpl in Hr. apply wp_ret. split; [done|].
  simpl. split; [|eapply strongly_sorted_impl; [|apply (sort_by_sorted item_le item_le_total item_le_trans)];
    intros a b; by unfold item_le; rewrite bool_decide_eq_true].
  rewrite sort_by_perm, Hr.
  assert (forall k v, (k, v) ∈ filter (fun kv => in_range queue_prefix_key kv.1 = true) (map_to_list (contents w)) ->
            exists id, k = key_for id /\ m !! id = Some v) as Hrows.
  { intros k v [Hp Hk]%list_elem_of_filter. apply elem_of_map_to_list in Hk. simpl in Hp.
    apply andb_true_iff in Hp as [Hp _]. apply andb_true_iff in Hp as [Hp _].
    apply bool_decide_eq_true in Hp. destruct (Hns k v Hk Hp) as [id ->].
    exists id. split; [done|]. by rewrite <- Hm. }
  apply NoDup_Permutation.
  - assert (NoDup (filter (fun kv => in_range queue_prefix_key kv.1 = true) (map_to_list (contents w)))) as Hnd
      by apply NoDup_filter, NoDup_map_to_list.
    revert Hnd Hrows. generalize (filter (fun kv => in_range queue_prefix_key kv.1 = true)
                                    (map_to_list (contents w))).
    intros l Hnd Hrows. induction l as [|[k v] l IH]; [constructor|].
    apply NoDup_cons in Hnd as [Hni Hnd]. destruct (Hrows k v) as (id & -> & Hid); [set_solver|].
    change (NoDup (match replay_entry (key_for id, v) with
                   | Some y => y :: omap replay_entry l | None => omap replay_entry l end)).
    unfold replay_entry at 1; simpl. rewrite ulid_parse_string. constructor.
    + intros ([k' v'] & Hin & Hrep)%list_elem_of_omap.
      destruct (Hrows k' v') as (id' & -> & _); [set_solver|].
      unfold replay_entry in Hrep; simpl in Hrep. rewrite ulid_parse_string in Hrep.
      by injection Hrep as -> ->.
    + apply IH; [done|]. intros k' v' Hin. apply Hrows. set_solver.
  - apply NoDup_map_to_list.
  - intros [id v]. rewrite list_elem_of_omap, elem_of_map_to_list. split.
    + intros ([k' v'] & Hin & Hrep). destruct (Hrows k' v' Hin) as (id' & -> & Hid').
      unfold replay_entry in Hrep; simpl in Hrep. rewrite ulid_parse_string in Hrep.
      by injection Hrep as -> ->.
    + intros Hid. exists (key_for id, v). split.
      * apply list_elem_of_filter. split; [done|]. apply elem_of_map_to_list. by rewrite Hm.
      * unfold replay_entry; simpl. by rewrite ulid_parse_string.
Qed.

(** C20: A restart loses and invents nothing: after any history of enqueues,
    dequeues, acks and nacks, with storage faults in between, reopening the queue
    yields exactly the items enqueued and not acked, in ULID order. *)
Theorem queue_restart_replays q ops q' m
    (Hrun : queue_run q ops q') (Hm : mirrors m (queue_rows q)) :
  wp (open tt) (fun r w' => contents w' = queue_rows q' /\
    match r with
    | Ok d => d ≡ₚ map_to_list (unacked ops m) /\ StronglySorted (fun a b => a.1 <= b.1)%N d
    | Err _ => ~ healthy (q_storage q')
    end) (q_storage q').
Proof.
  eapply wp_mono; [by eapply open_spec, queue_run_mirrors|].
  intros [d|e] w' [Hc Hr]; done.
Qed.

Fixpoint enqueued (ops : list queue_op) : list (QueueItemId * bytes) :=
  match ops with
  | [] => []
  | Enq id p :: ops' => (id, p) :: enqueued ops'
  | _ :: ops' => enqueued ops'
  end.
Fixpoint dequeued (ops : list queue_op) : list (QueueItemId * bytes) :=
  match ops with
  | [] => []
  | Deq (Some x) :: ops' => x :: dequeued ops'
  | _ :: ops' => dequeued ops'
  end.
Definition is_nack (op : queue_op) : bool := match op with Nack _ => true | _ => false end.

(** Without a nack the queue is first-in first-out: what has been dequeued
    followed by what is still waiting is what was there followed by what has been
    enqueued. *)
Theorem queue_fifo q ops q' (Hrun : queue_run q ops q')
    (Hn : Forall (fun op => is_nack op = false) ops) :
  dequeued ops ++ deque q' = deque q ++ enqueued ops.
Proof.
  revert Hn. induction Hrun as [q|id p ops q q1 q2 He _ IH|got ops q q1 q2 Hd _ IH
    |id ops q q1 q2 Ha _ IH|id ops q q1 q2 Hn' _ IH|ops q q1 q2 Hf _ IH]; intros Hn.
  - simpl. by rewrite app_nil_r.
  - apply Forall_cons in Hn as [_ Hn]. eapply wp_elim in He; [|apply enqueue_spec].
    destruct He as (_ & Hq & _). simpl. by rewrite IH, Hq, <- app_assoc.
  - apply Forall_cons in Hn as [_ Hn]. unfold dequeue, with_deque in Hd.
    destruct (deque q) as [|x d] eqn:E; injection Hd as <- <-; simpl in *; by rewrite IH.
  - apply Forall_cons in Hn as [_ Hn]. eapply wp_elim in Ha; [|apply ack_spec].
    destruct Ha as (Hq & _). simpl. by rewrite IH, Hq.
  - apply Forall_cons in Hn as [Hn _]. done.
  - rewrite IH by done. f_equal. destruct Hf as [(id & p & e & H)|[(id & e & H)|(id & e & H)]].
    + eapply wp_elim in H; [|apply enqueue_spec]. by destruct H.
    + eapply wp_elim in H; [|apply ack_spec]. by destruct H.
    + eapply wp_elim in H; [|apply nack_spec]. by destruct H as (_ & H & _).
Qed.

(** [nack] is not idempotent: on a fault-free backend a second [nack] of an
    unacked item puts a second copy of it at the front of the queue. *)
Theorem nack_twice_duplicates id payload q
    (Hrow : queue_rows q !! key_for id = Some payload) (Hok : healthy (q_storage q)) :
  wp (let* _ := nack id in nack id) (fun r q' =>
    is_ok r = true -> deque q' = (id, payload) :: (id, payload) :: deque q) q.
Proof.
  apply wp_bind. eapply wp_mono; [apply nack_spec|].
  intros [[]|e] q1 (Hc1 & Hr1); [|done]. destruct Hr1 as (p1 & Hp1 & Hd1).
  eapply wp_mono; [apply nack_spec|].
  intros [[]|e] q2 (Hc2 & Hr2); [|done]. destruct Hr2 as (p2 & Hp2 & ->). intros _. congruence.
Qed.
End local_queue.

Section local_queue_examples.
#[local] Existing Instance unary_ulids.

Definition q0 : @InMemQueue Mem.World := mkQueue [] (Mem.mkWorld ∅ [] []).
Definition qrun {A} (m : M (@InMemQueue Mem.World) CoreError A) (q : @InMemQueue Mem.World) := snd (m q).
Definition q1 := qrun (enqueue (Ok 1%N) [x61]) q0.
Definition q2 := qrun (enqueue (Ok 2%N) [x62]) q1.
Definition q3 := qrun (dequeue tt) q2.
Definition q4 := qrun (ack 1%N) q3.

Lemma q_history : queue_run q0 [Enq 1 [x61]; Enq 2 [x62]; Deq (Some (1%N, [x61])); Ack 1] q4.
Proof.
  eapply (qr_enq 1%N [x61]); [reflexivity|]. eapply (qr_enq 2%N [x62]); [reflexivity|].
  eapply qr_deq; [reflexivity|]. eapply (qr_ack 1%N); [reflexivity|]. apply qr_nil.
Qed.

Lemma q0_mirrors : mirrors ∅ (queue_rows q0).
Proof.
  split; [intros id; unfold queue_rows; simpl; by rewrite !lookup_empty|].
  intros k v Hk. unfold queue_rows in Hk; simpl in Hk. by rewrite lookup_empty in Hk.
Qed.

Lemma queue_restart_replays_witness :
  fst (open tt (q_storage q4)) = Ok [(2%N, [x62])] /\
  wp (open tt) (fun r w' => contents w' = queue_rows q4) (q_storage q4).
Proof.
  split; [vm_compute; reflexivity|]. eapply wp_mono.
  - eapply (queue_restart_replays q0); [apply q_history|apply q0_mirrors].
  - intros r w' [H _]. exact H.
Defined.

Lemma queue_fifo_witness :
  dequeued [Enq 1 [x61]; Enq 2 [x62]; Deq (Some (1%N, [x61])); Ack 1] ++ deque q4 =
  deque q0 ++ enqueued [Enq 1 [x61]; Enq 2 [x62]; Deq (Some (1%N, [x61])); Ack 1].
Proof. eapply (queue_fifo q0); [apply q_history|repeat constructor]. Defined.

Lemma nack_twice_duplicates_witness :
  deque (qrun (let* _ := nack 1 in nack 1) q3) = (1%N, [x61]) :: (1%N, [x61]) :: deque q3.
Proof.
  apply (nack_twice_duplicates 1 [x61] q3).
  - vm_compute. reflexivity.
  - vm_compute. constructor.
  - vm_compute. reflexivity.
Defined.
End local_queue_examples.
