(* ===== verification/ObjectStore.v ===== *)
(** The content-addressed filesystem object store
    (rollout-cloud-local/src/object_store.rs): sharded paths, atomic renames, and
    the [ObjectStore] interface the other components use. *)
From stdpp Require Import base option list gmap strings.
From S2P Require Import Prelude.
From S2P Require Import Core.

(** ** The interface (rollout-core/src/traits/cloud.rs [ObjectStore]) *)
Class ObjectStore (O : Type) (content_id_of : bytes -> ContentId) : Type := {
  blobs : O -> ContentId -> option bytes;
  o_valid : O -> Prop;
  o_put : bytes -> M O CoreError ContentId;
  o_get : ContentId -> M O CoreError bytes;
}.

Class ObjectStoreLaws (O : Type) (content_id_of : bytes -> ContentId)
    {OS : ObjectStore O content_id_of} : Prop := {
  o_put_law b o : o_valid o ->
    wp (o_put b) (fun r o' => o_valid o' /\
      match r with
      | Ok id => id = content_id_of b /\
                 (forall id', ContentId_wf id' -> id' <> id -> blobs o' id' = blobs o id') /\
                 exists b', blobs o' id = Some b' /\ content_id_of b' = id
      | Err _ => forall id', ContentId_wf id' -> is_Some (blobs o id') -> is_Some (blobs o' id')
      end) o;
  o_get_law id o : o_valid o ->
    wp (o_get id) (fun r o' => o_valid o' /\ blobs o' = blobs o /\
      match r with
      | Ok b => blobs o id = Some b /\ (ContentId_wf id -> content_id_of b = id)
      | Err _ => True
      end) o;
}.

(** An object store that is a map: the instance of the examples. *)
#[global] Instance map_objects (of_ : bytes -> ContentId) : ObjectStore (gmap ContentId bytes) of_ := {
  blobs o id := o !! id;
  o_valid o := map_Forall (fun id b => of_ b = id) o;
  o_put b := fun o => (Ok (of_ b), <[of_ b := b]> o);
  o_get id := fun o => match o !! id with
                       | Some b => (Ok b, o)
                       | None => (Err (internal ("object not found: " +:+ ContentId_to_string id)), o)
                       end;
}.
#[global] Instance map_objects_laws (of_ : bytes -> ContentId) : ObjectStoreLaws (gmap ContentId bytes) of_.
Proof.
  split; unfold wp; simpl.
  - intros b o Ho. split; [by apply map_Forall_insert_2|]. split; [done|]. split.
    + intros id' _ Hne. by rewrite lookup_insert_ne.
    + exists b. by rewrite lookup_insert_eq.
  - intros id o Ho. destruct (o !! id) as [b|] eqn:E; simpl; [|done].
    split; [done|]. split; [done|]. split; [done|]. intros _. exact (Ho id b E).
Qed.

(** ** The filesystem: files by path, and the faults to come.  A failed write may
    leave any partial content behind. *)
Abbreviation fspath := (list string).

Record Fs : Type := mkFs { files : gmap fspath bytes; fs_faults : list (option (string * bytes)) }.

Definition next_fault : Fs -> option (string * bytes) * Fs := fun fs =>
  match fs_faults fs with
  | [] => (None, fs)
  | f :: rest => (f, mkFs (files fs) rest)
  end.

Definition io {A} (conv : string -> CoreError) (f : gmap fspath bytes -> A * gmap fspath bytes)
    (g : bytes -> gmap fspath bytes -> gmap fspath bytes) : M Fs CoreError A := fun fs =>
  match next_fault fs with
  | (Some (e, partial), fs') => (Err (conv e), mkFs (g partial (files fs')) (fs_faults fs'))
  | (None, fs') => let '(a, m) := f (files fs') in (Ok a, mkFs m (fs_faults fs'))
  end.

Definition transient (e : string) : CoreError :=
  Recoverable (Transient ("fs object_store io: " +:+ e) (After 50)).

Definition create_dir_all (conv : string -> CoreError) : M Fs CoreError unit :=
  io conv (fun m => (tt, m)) (fun _ m => m).
Definition try_exists (conv : string -> CoreError) (p : fspath) : M Fs CoreError bool :=
  io conv (fun m => (bool_decide (is_Some (m !! p)), m)) (fun _ m => m).
Definition fs_write (conv : string -> CoreError) (p : fspath) (b : bytes) : M Fs CoreError unit :=
  io conv (fun m => (tt, <[p := b]> m)) (fun partial m => <[p := partial]> m).
Definition fs_append (conv : string -> CoreError) (p : fspath) (b : bytes) : M Fs CoreError unit :=
  io conv (fun m => (tt, <[p := default [] (m !! p) ++ b]> m))
          (fun partial m => <[p := default [] (m !! p) ++ partial]> m).
Definition fs_rename (conv : string -> CoreError) (src dst : fspath) : M Fs CoreError unit :=
  io conv (fun m => (tt, match m !! src with Some b => <[dst := b]> (delete src m) | None => m end))
          (fun _ m => m).
Definition fs_remove (p : fspath) : M Fs CoreError unit :=
  io internal (fun m => (tt, delete p m)) (fun _ m => m).
Definition fs_flush (conv : string -> CoreError) : M Fs CoreError unit :=
  io conv (fun m => (tt, m)) (fun _ m => m).
Definition fs_read (p : fspath) : M Fs CoreError (option bytes) :=
  io internal (fun m => (m !! p, m)) (fun _ m => m).

Section fs_object_store.
Context (content_id_of : bytes -> ContentId) (root : fspath).
(** serde_json of the metadata record, a third-party serializer. *)
Context (meta_json : nat -> option string -> N -> bytes).

Definition hex_dir (id : ContentId) (a b : nat) : string :=
  String.string_of_list_byte (take (b - a) (drop a (ContentId_display id))).

Definition shard (id : ContentId) : fspath := root ++ [hex_dir id 0 2; hex_dir id 2 4].

Definition path_for (id : ContentId) : fspath := shard id ++ [ContentId_to_string id].
Definition tmp_path_for (id : ContentId) : fspath := shard id ++ [ContentId_to_string id +:+ ".tmp"].
Definition meta_path_for (id : ContentId) : fspath := shard id ++ [ContentId_to_string id +:+ ".meta.json"].
Definition temp_path_for_pending (ulid_text : string) : fspath := root ++ ["pending"; ulid_text].

Definition put_bytes (b : bytes) (content_type : option string) (now_ms : N) : M Fs CoreError ContentId :=
  let id := content_id_of b in
  let* _ := create_dir_all internal in
  let* present := try_exists internal (path_for id) in
  let* _ := (if negb present then
               let* _ := fs_write internal (tmp_path_for id) b in
               fs_rename internal (tmp_path_for id) (path_for id)
             else mret tt) in
  let* _ := fs_write internal (meta_path_for id) (meta_json (length b) content_type now_ms) in
  mret id.

Definition get_bytes (id : ContentId) : M Fs CoreError bytes :=
  let* row := fs_read (path_for id) in
  match row with
  | Some b => mret b
  | None => mthrow (internal ("object not found: " +:+ ContentId_to_string id))
  end.

Definition exists_ (id : ContentId) : M Fs CoreError bool := try_exists internal (path_for id).

(** [get_stream]: opening the file, and the bytes its reader delivers; a failure to
    open is transient here and fatal in [get_bytes]. *)
Definition get_stream (id : ContentId) : M Fs CoreError bytes :=
  let* row := io transient (fun m => (m !! path_for id, m)) (fun _ m => m) in
  match row with
  | Some b => mret b
  | None => mthrow (internal ("object not found: " +:+ ContentId_to_string id))
  end.

(** The copy loop of [put_stream]: each read is a chunk or an error, an empty one
    is the end; the hash is that of everything read. *)
Fixpoint copy_stream (temp : fspath) (reads : list (result string bytes)) (hashed : bytes)
  : M Fs CoreError bytes :=
  match reads with
  | [] => mret hashed
  | Err e :: _ => mthrow (transient e)
  | Ok [] :: _ => mret hashed
  | Ok chunk :: reads' =>
      let* _ := fs_append transient temp chunk in
      copy_stream temp reads' (hashed ++ chunk)
  end.

Definition put_stream (ulid_text : string) (reads : list (result string bytes))
  : M Fs CoreError ContentId :=
  let temp := temp_path_for_pending ulid_text in
  let* _ := create_dir_all transient in
  let* _ := fs_write transient temp [] in
  let* data := copy_stream temp reads [] in
  let* _ := fs_flush transient in
  let* _ := fs_flush transient in
  let id := content_id_of data in
  let* _ := create_dir_all transient in
  let* present := try_exists transient (path_for id) in
  let* _ := (if (present : bool) then let* _ := mcatch (fs_remove temp) in mret tt
             else fs_rename transient temp (path_for id)) in
  mret id.

(** Both reads agree on the blob and on its absence; they differ in the class of a
    fault, which changes no file. *)
Lemma reads_agree id fs :
  match files fs !! path_for id with
  | Some b => forall r, (get_bytes id fs).1 = Ok r \/ (get_stream id fs).1 = Ok r -> r = b
  | None => forall r, (get_bytes id fs).1 <> Ok r /\ (get_stream id fs).1 <> Ok r
  end /\
  files (get_bytes id fs).2 = files fs /\ files (get_stream id fs).2 = files fs /\
  forall e, head (fs_faults fs) = Some (Some e) ->
    (get_bytes id fs).1 = Err (internal e.1) /\ (get_stream id fs).1 = Err (transient e.1).
Proof.
  unfold get_bytes, get_stream, fs_read, io, mbind_, next_fault.
  destruct fs as [m [|[[e partial]|] rest]]; cbn [files fs_faults head fst snd];
    (destruct (m !! path_for id) as [b|]; simpl; (split_and!; [naive_solver|done|done|])); intros e' [= <-]; done.
Qed.

(** ** Paths never collide *)
Lemma string_app_length (a b : string) : String.length (a +:+ b) = String.length a + String.length b.
Proof. induction a as [|c a IH]; simpl; [done|]. by rewrite IH. Qed.

Definition is_blob_path (p : fspath) : Prop := exists id, ContentId_wf id /\ p = path_for id.

Lemma app_inj_last {A} (l l' : list A) x y : l ++ [x] = l' ++ [y] -> l = l' /\ x = y.
Proof. apply app_inj_tail. Qed.

Lemma path_for_inj id id' : path_for id = path_for id' -> id = id'.
Proof. intros [_ Hid]%app_inj_last. by apply ContentId_to_string_inj. Qed.

Lemma length_string_of_list_byte l : String.length (String.string_of_list_byte l) = length l.
Proof. induction l as [|b l IH]; [done|]. simpl. f_equal. exact IH. Qed.

Lemma length_id_text id : String.length (ContentId_to_string id) = 2 * length id.
Proof. unfold ContentId_to_string. by rewrite length_string_of_list_byte, ContentId_display_length. Qed.

Lemma tmp_not_blob id id' : ContentId_wf id -> ContentId_wf id' -> tmp_path_for id <> path_for id'.
Proof.
  unfold ContentId_wf. intros H H' [_ Heq]%app_inj_last.
  pose proof (string_app_length (ContentId_to_string id) ".tmp") as Hl.
  rewrite Heq, !length_id_text, H, H' in Hl. simpl in Hl. lia.
Qed.

Lemma meta_not_blob id id' : ContentId_wf id -> ContentId_wf id' -> meta_path_for id <> path_for id'.
Proof.
  unfold ContentId_wf. intros H H' [_ Heq]%app_inj_last.
  pose proof (string_app_length (ContentId_to_string id) ".meta.json") as Hl.
  rewrite Heq, !length_id_text, H, H' in Hl. simpl in Hl. lia.
Qed.

Lemma pending_not_blob u id : temp_path_for_pending u <> path_for id.
Proof.
  unfold temp_path_for_pending, path_for, shard. intros Heq.
  assert (length (root ++ ["pending"; u]) = length ((root ++ [hex_dir id 0 2; hex_dir id 2 4]) ++ [ContentId_to_string id])) as Hl
    by by rewrite Heq.
  rewrite !length_app in Hl. simpl in Hl. lia.
Qed.

(** ** The content-addressing invariant: a file at a blob path holds bytes with
    that content id *)
Definition addressed (m : gmap fspath bytes) : Prop :=
  forall id b, ContentId_wf id -> m !! path_for id = Some b -> content_id_of b = id.

Context (of_wf : forall b, ContentId_wf (content_id_of b)).

(** An operation on files that are no blobs. *)
Definition off_blobs (m m' : gmap fspath bytes) : Prop :=
  forall id, ContentId_wf id -> m' !! path_for id = m !! path_for id.

Lemma off_blobs_addressed m m' : off_blobs m m' -> addressed m -> addressed m'.
Proof. intros Ho Ha id b Hid Hb. apply Ha; [done|]. by rewrite <- Ho. Qed.

Lemma off_blobs_insert m p b :
  (forall id, ContentId_wf id -> p <> path_for id) -> off_blobs m (<[p := b]> m).
Proof. intros Hp id Hid. rewrite lookup_insert_ne; [done|]. by apply Hp. Qed.

Lemma off_blobs_delete m p :
  (forall id, ContentId_wf id -> p <> path_for id) -> off_blobs m (delete p m).
Proof. intros Hp id Hid. rewrite lookup_delete_ne; [done|]. by apply Hp. Qed.

Lemma off_blobs_trans m1 m2 m3 : off_blobs m1 m2 -> off_blobs m2 m3 -> off_blobs m1 m3.
Proof. intros H1 H2 id Hid. by rewrite H2, H1. Qed.

Lemma off_blobs_refl m : off_blobs m m.
Proof. done. Qed.

Lemma io_spec {A} (conv : string -> CoreError) (f : gmap fspath bytes -> A * gmap fspath bytes)
    (g : bytes -> gmap fspath bytes -> gmap fspath bytes) (Q : result CoreError A -> Fs -> Prop)
    (fs : Fs) :
  (forall fs', files fs' = snd (f (files fs)) -> Q (Ok (fst (f (files fs)))) fs') ->
  (forall e partial fs', files fs' = g partial (files fs) -> Q (Err (conv e)) fs') ->
  wp (io conv f g) Q fs.
Proof.
  intros Hok Herr. unfold wp, io, next_fault. destruct (fs_faults fs) as [|[[e partial]|] rest]; simpl.
  - destruct (f (files fs)) eqn:E; simpl. by apply (Hok (mkFs _ _)).
  - by eapply Herr.
  - destruct (f (files fs)) eqn:E; simpl. by apply (Hok (mkFs _ _)).
Qed.

(** What a put may do to the blobs: nothing, or add the bytes under their id. *)
Definition blob_added (m m' : gmap fspath bytes) (b : bytes) : Prop :=
  m !! path_for (content_id_of b) = None /\ off_blobs (<[path_for (content_id_of b) := b]> m) m'.

Lemma blob_added_addressed m m' b : blob_added m m' b -> addressed m -> addressed m'.
Proof.
  intros [_ Ho] Ha. eapply off_blobs_addressed; [exact Ho|]. intros id b' Hid Hb.
  destruct (decide (id = content_id_of b)) as [->|Hne].
  - rewrite lookup_insert_eq in Hb. congruence.
  - rewrite lookup_insert_ne in Hb; [by apply Ha|]. intros Hp. by apply path_for_inj in Hp.
Qed.

(** The outcome of a put of [b] from the files [m]: on success the blob is there;
    in every case the other blobs are as they were and none is partial. *)
Definition put_post (m : gmap fspath bytes) (b : bytes) (r : result CoreError ContentId)
    (m' : gmap fspath bytes) : Prop :=
  (off_blobs m m' \/ blob_added m m' b) /\
  match r with
  | Ok id => id = content_id_of b /\ is_Some (m' !! path_for id)
  | Err _ => True
  end.

Lemma put_post_addressed m b r m' : put_post m b r m' -> addressed m -> addressed m'.
Proof. intros [[H|H] _]; [by apply off_blobs_addressed|by eapply blob_added_addressed]. Qed.

Lemma off_blobs_tmp m id b : ContentId_wf id -> off_blobs m (<[tmp_path_for id := b]> m).
Proof. intros Hid. apply off_blobs_insert. intros id' Hid'. by apply tmp_not_blob. Qed.

Lemma off_blobs_meta m id b : ContentId_wf id -> off_blobs m (<[meta_path_for id := b]> m).
Proof. intros Hid. apply off_blobs_insert. intros id' Hid'. by apply meta_not_blob. Qed.

Lemma off_blobs_pending m u b : off_blobs m (<[temp_path_for_pending u := b]> m).
Proof. apply off_blobs_insert. intros id' _. apply pending_not_blob. Qed.

Lemma off_blobs_pending_delete m u : off_blobs m (delete (temp_path_for_pending u) m).
Proof. apply off_blobs_delete. intros id' _. apply pending_not_blob. Qed.

Lemma put_post_off m m' m'' b r :
  off_blobs m' m'' -> put_post m b r m' -> put_post m b r m''.
Proof.
  intros Ho [H Hr]. split.
  - destruct H as [H|[Hn H]]; [left|right; split; [done|]]; by eapply off_blobs_trans.
  - destruct r as [id|]; [|done]. destruct Hr as [-> Hs]. split; [done|]. by rewrite Ho.
Qed.

(** Renaming a complete staging file onto the blob path. *)
Lemma rename_adds m m' tmp b :
  off_blobs m m' -> m' !! tmp = Some b -> (forall id, ContentId_wf id -> tmp <> path_for id) ->
  m !! path_for (content_id_of b) = None ->
  put_post m b (Ok (content_id_of b)) (<[path_for (content_id_of b) := b]> (delete tmp m')).
Proof.
  intros Ho Ht Hne Hnone. split.
  - right. split; [done|]. intros id Hid. destruct (decide (id = content_id_of b)) as [->|Hid'].
    + by rewrite !lookup_insert_eq.
    + rewrite !lookup_insert_ne by (intros Hp; by apply path_for_inj in Hp).
      rewrite lookup_delete_ne by (by apply Hne). by apply Ho.
  - split; [done|]. rewrite lookup_insert_eq. by eexists.
Qed.

Lemma put_bytes_post b ct now fs :
  wp (put_bytes b ct now) (fun r fs' => put_post (files fs) b r (files fs')) fs.
Proof.
  unfold put_bytes. set (id := content_id_of b). pose proof (of_wf b) as Hid.
  assert (forall m e, off_blobs (files fs) m -> put_post (files fs) b (Err e) m) as Herr
    by (intros m e Ho; split; [by left|done]).
  assert (forall fs1, put_post (files fs) b (Ok id) (files fs1) ->
    wp (let* _ := fs_write internal (meta_path_for id) (meta_json (length b) ct now) in mret id)
       (fun r fs' => put_post (files fs) b r (files fs')) fs1) as Hmeta.
  { intros fs1 Hp. apply wp_bind, io_spec; simpl.
    - intros fs2 Hf2. apply wp_ret. rewrite Hf2. eapply put_post_off; [|exact Hp]. by apply off_blobs_meta.
    - intros e partial fs2 ->. destruct Hp as [Hp _]. eapply put_post_off; [by apply off_blobs_meta|].
      by split. }
  apply wp_bind, io_spec; simpl; [intros fs1 Hf1|intros e partial fs1 ->; by apply Herr].
  apply wp_bind, io_spec; simpl; [intros fs2 Hf2|intros e partial fs2 ->; apply Herr; by rewrite Hf1].
  rewrite Hf1 in Hf2 |- *. fold id. apply wp_bind.
  case_bool_decide as Hex; simpl.
  - apply wp_ret, Hmeta. rewrite Hf2. split; [by left|done].
  - apply wp_bind, io_spec; simpl.
    + intros fs3 Hf3. apply io_spec; simpl.
      * intros fs4 Hf4. apply Hmeta. rewrite Hf4, Hf3, Hf2, lookup_insert_eq.
        eapply rename_adds; [by apply off_blobs_tmp|by rewrite lookup_insert_eq| |].
        -- intros id' Hid'. by apply tmp_not_blob.
        -- by apply eq_None_not_Some.
      * intros e partial fs4 ->. apply Herr. rewrite Hf3, Hf2. by apply off_blobs_tmp.
    + intros e partial fs3 ->. apply Herr. rewrite Hf2. by apply off_blobs_tmp.
Qed.

(** The bytes a stream delivers: the chunks before the first empty one, or none
    when a read fails first. *)
Fixpoint stream_data (reads : list (result string bytes)) : option bytes :=
  match reads with
  | [] | Ok [] :: _ => Some []
  | Err _ :: _ => None
  | Ok chunk :: reads' => (fun d => chunk ++ d) <$> stream_data reads'
  end.

Lemma copy_stream_spec u reads hashed fs :
  files fs !! temp_path_for_pending u = Some hashed ->
  wp (copy_stream (temp_path_for_pending u) reads hashed) (fun r fs' =>
    off_blobs (files fs) (files fs') /\
    match r with
    | Ok data => exists d, stream_data reads = Some d /\ data = hashed ++ d /\
                           files fs' !! temp_path_for_pending u = Some data
    | Err _ => True
    end) fs.
Proof.
  revert hashed fs. induction reads as [|[[|c chunk]|e] reads IH]; intros hashed fs Ht; simpl.
  - apply wp_ret. split; [apply off_blobs_refl|]. exists []. by rewrite app_nil_r.
  - apply wp_ret. split; [apply off_blobs_refl|]. exists []. by rewrite app_nil_r.
  - apply wp_bind, io_spec; cbn beta.
    + intros fs1 Hf1. simpl in Hf1. rewrite Ht in Hf1. simpl in Hf1.
      eapply wp_mono; [apply IH; rewrite Hf1; by rewrite lookup_insert_eq|].
      intros r fs2 [Ho Hr]. split; [eapply off_blobs_trans; [|exact Ho]; rewrite Hf1; apply off_blobs_pending|].
      destruct r as [data|]; [|done]. destruct Hr as (d & -> & -> & Hd). simpl.
      exists (c :: chunk ++ d). rewrite <- app_assoc in Hd |- *. simpl in *. auto.
    + intros e partial fs1 ->. simpl. split; [apply off_blobs_pending|done].
  - apply wp_throw. split; [apply off_blobs_refl|done].
Qed.

Lemma put_stream_post u reads fs :
  wp (put_stream u reads) (fun r fs' =>
    match stream_data reads with
    | Some data => put_post (files fs) data r (files fs')
    | None => off_blobs (files fs) (files fs') /\ is_ok r = false
    end) fs.
Proof.
  unfold put_stream.
  assert (forall m e, off_blobs (files fs) m ->
    match stream_data reads with
    | Some data => put_post (files fs) data (Err e) m
    | None => off_blobs (files fs) m /\ is_ok (Err e : result CoreError ContentId) = false
    end) as Herr.
  { intros m e Ho. destruct (stream_data reads); [split; [by left|done]|done]. }
  apply wp_bind, io_spec; simpl; [intros fs1 Hf1|intros e partial fs1 ->; by apply Herr].
  apply wp_bind, io_spec; simpl; [intros fs2 Hf2|intros e partial fs2 ->; apply Herr; rewrite Hf1; apply off_blobs_pending].
  rewrite Hf1 in Hf2.
  apply wp_bind. eapply wp_mono; [apply copy_stream_spec; by rewrite Hf2, lookup_insert_eq|].
  intros [data|e] fs3 [Ho3 Hr3].
  2:{ apply Herr. eapply off_blobs_trans; [|exact Ho3]. rewrite Hf2. apply off_blobs_pending. }
  destruct Hr3 as (d & Hd & -> & Ht3). simpl in *. rewrite Hd in Herr |- *.
  assert (off_blobs (files fs) (files fs3)) as Ho.
  { eapply off_blobs_trans; [|exact Ho3]. rewrite Hf2. apply off_blobs_pending. }
  apply wp_bind, io_spec; simpl; [intros fs4 Hf4|intros e partial fs4 ->; by apply Herr].
  apply wp_bind, io_spec; simpl; [intros fs5 Hf5|intros e partial fs5 ->; rewrite Hf4; by apply Herr].
  apply wp_bind, io_spec; simpl; [intros fs6 Hf6|intros e partial fs6 ->; rewrite Hf5, Hf4; by apply Herr].
  rewrite Hf5, Hf4 in Hf6.
  apply wp_bind, io_spec; simpl; [intros fs7 Hf7|intros e partial fs7 ->; rewrite Hf6; by apply Herr].
  rewrite Hf6 in Hf7 |- *. apply wp_bind. case_bool_decide as Hex.
  - assert (put_post (files fs) d (Ok (content_id_of d)) (files fs3)) as Hp by (split; [by left|done]).
    apply wp_bind, wp_catch, io_spec; simpl; intros; apply wp_ret, wp_ret.
    + rewrite H, Hf7. eapply put_post_off; [apply off_blobs_pending_delete|done].
    + by rewrite H, Hf7.
  - apply io_spec; simpl; [intros fs8 Hf8|intros e partial fs8 ->; rewrite Hf7; by apply Herr].
    apply wp_ret. rewrite Hf8, Hf7, Ht3. eapply rename_adds; [done|done| |].
    + intros id' _. apply pending_not_blob.
    + apply eq_None_not_Some. intros Hs. apply Hex. by rewrite Ho by apply of_wf.
Qed.

(** The local store keeps the [ObjectStore] contract, whatever faults come. *)
Definition local_objects (ct : option string) (now : N) : ObjectStore Fs content_id_of := {|
  blobs fs id := files fs !! path_for id;
  o_valid fs := addressed (files fs);
  o_put b := put_bytes b ct now;
  o_get := get_bytes;
|}.

Lemma local_objects_laws ct now : ObjectStoreLaws Fs content_id_of (OS := local_objects ct now).
Proof.
  split; simpl.
  - intros b fs Ha. eapply wp_mono; [apply put_bytes_post|]. intros r fs' Hp.
    pose proof (put_post_addressed _ _ _ _ Hp Ha) as Ha'. split; [done|].
    destruct Hp as [H Hr]. destruct r as [id|e].
    + destruct Hr as [-> [b' Hb']]. split; [done|]. split; [|exists b'; split; [done|by apply Ha']].
      intros id' Hid Hne. destruct H as [Ho|[_ Ho]]; rewrite Ho by done; [done|].
      rewrite lookup_insert_ne; [done|]. intros Hx. by apply path_for_inj in Hx.
    + intros id' Hid Hb'. destruct H as [Ho|[Hn Ho]]; rewrite Ho by done; [done|].
      by apply lookup_insert_is_Some', or_intror.
  - intros id fs Ha. unfold get_bytes. apply wp_bind, io_spec; simpl.
    + intros fs' Hf. destruct (files fs !! path_for id) as [b|] eqn:Hb; wp_pure; rewrite Hf; auto.
    + intros e partial fs' Hf. by rewrite Hf.
Qed.

(** C21: The store is content-addressed and stays so: whatever put is run, with
    whatever faults and partial writes, a file at a blob path always holds bytes
    whose hash is that path's id, and no blob that was there is touched. *)
Theorem puts_keep_content_addressing m b ct now u reads fs
    (Hm : files fs = m) (Ha : addressed m) :
  wp (put_bytes b ct now) (fun _ fs' => addressed (files fs') /\
    forall id x, ContentId_wf id -> m !! path_for id = Some x -> files fs' !! path_for id = Some x) fs /\
  wp (put_stream u reads) (fun _ fs' => addressed (files fs') /\
    forall id x, ContentId_wf id -> m !! path_for id = Some x -> files fs' !! path_for id = Some x) fs.
Proof.
  subst m.
  assert (forall m' d, (off_blobs (files fs) m' \/ blob_added (files fs) m' d) ->
    addressed m' /\ forall id x, ContentId_wf id -> files fs !! path_for id = Some x ->
                                m' !! path_for id = Some x) as Hpost.
  { intros m' d [Ho|[Hn Ho]].
    - split; [by eapply off_blobs_addressed|]. intros id x Hid Hx. by rewrite Ho.
    - split; [by eapply blob_added_addressed|]. intros id x Hid Hx. rewrite Ho by done.
      rewrite lookup_insert_ne; [done|]. congruence. }
  split.
  - eapply wp_mono; [apply put_bytes_post|]. intros r fs' [H _]. by eapply Hpost.
  - eapply wp_mono; [apply put_stream_post|]. intros r fs' H. destruct (stream_data reads) as [d|].
    + destruct H as [H _]. by eapply Hpost.
    + apply (Hpost _ []). by left; destruct H.
Qed.

(** Round trip: after a put that returned an id, a get of that id on a
    fault-free store returns the bytes that were put (no other bytes have their hash), and
    a streamed put of the same bytes in any chunks gives the same id. *)
Theorem put_get_round_trip b ct now u reads id fs fs1
    (Hinj : forall x, content_id_of x = content_id_of b -> x = b) (Ha : addressed (files fs))
    (Hput : put_bytes b ct now fs = (Ok id, fs1) \/
            (stream_data reads = Some b /\ put_stream u reads fs = (Ok id, fs1)))
    (Hok : fs_faults fs1 = []) :
  id = content_id_of b /\ fst (get_bytes id fs1) = Ok b.
Proof.
  assert (put_post (files fs) b (Ok id) (files fs1)) as Hpost.
  { destruct Hput as [Hp|[Hs Hp]].
    - eapply wp_elim in Hp; [|apply put_bytes_post]. done.
    - eapply wp_elim in Hp; [|apply put_stream_post]. by rewrite Hs in Hp. }
  pose proof (put_post_addressed _ _ _ _ Hpost Ha) as Ha1.
  destruct Hpost as [_ [-> [b' Hb']]]. split; [done|].
  assert (b' = b) as -> by (apply Hinj, Ha1; [apply of_wf|done]).
  unfold get_bytes, mbind_, fs_read, io, next_fault. rewrite Hok. simpl. by rewrite Hb'.
Qed.
End fs_object_store.

Section object_store_examples.
(** A 32-byte digest: the bytes padded with zeroes. *)
Definition pad (b : bytes) : ContentId := take 32 (b ++ replicate 32 x00).

Lemma pad_wf b : ContentId_wf (pad b).
Proof. unfold ContentId_wf, pad. rewrite length_take, length_app, length_replicate. lia. Qed.

Definition fs0 : Fs := mkFs ∅ [None; None; Some ("disk full", [x61])].

Lemma puts_keep_content_addressing_witness :
  is_ok (fst (put_bytes pad ["root"] (fun _ _ _ => [x7b]) [x61; x62] None 5 fs0)) = false /\
  wp (put_bytes pad ["root"] (fun _ _ _ => [x7b]) [x61; x62] None 5)
     (fun _ fs' => addressed pad ["root"] (files fs')) fs0.
Proof.
  split; [vm_compute; reflexivity|]. eapply wp_mono.
  - refine (proj1 (puts_keep_content_addressing pad ["root"] (fun _ _ _ => [x7b]) pad_wf
                     ∅ [x61; x62] None 5 "u" [] fs0 eq_refl _)).
    intros id b _ Hb. discriminate Hb.
  - intros r fs' [H _]. exact H.
Defined.

(** A digest with no collision at the bytes of the example. *)
Definition one_hash (b : bytes) : ContentId :=
  if decide (b = [x61; x62]) then replicate 32 xff else replicate 32 x00.

Lemma one_hash_wf b : ContentId_wf (one_hash b).
Proof. unfold one_hash. by case_decide. Qed.

Lemma one_hash_unique x : one_hash x = one_hash [x61; x62] -> x = [x61; x62].
Proof.
  unfold one_hash. rewrite (decide_True (P := [x61; x62] = [x61; x62])) by done. by case_decide.
Qed.

Definition fs_put : Fs := snd (put_stream one_hash ["root"] "u" [Ok [x61]; Ok [x62]; Ok []] (mkFs ∅ [])).

Lemma put_get_round_trip_witness :
  fst (get_bytes ["root"] (replicate 32 xff) fs_put) = Ok [x61; x62].
Proof.
  refine (proj2 (put_get_round_trip one_hash ["root"] (fun _ _ _ => []) one_hash_wf [x61; x62] None 0 "u"
    [Ok [x61]; Ok [x62]; Ok []] (replicate 32 xff) (mkFs ∅ []) fs_put one_hash_unique _ _ _)).
  - intros id b _ Hb. discriminate Hb.
  - right. split; [reflexivity|]. vm_compute. reflexivity.
  - vm_compute. reflexivity.
Defined.
End object_store_examples.
