(* ===== verification/Batch.v ===== *)
(** Resumable batch inference (rollout-runtime-batch/src/{state,coordinator,worker}.rs):
    the sample state machine, the coordinator that plans and replays a batch, and
    the worker's pull loop. *)
From stdpp Require Import base option list gmap strings sorting.
From S2P Require Import Prelude.
From S2P Require Import Core.
From S2P Require Import ObjectStore.
From S2P Require Import Storage.

Definition SAMPLING_PARAMS_SCHEMA_VERSION : byte := x01.
Definition DEFAULT_STALE_AFTER_MS : N := 5 * 60000.

Inductive SampleState : Type :=
| Pending
| Running (worker_id : WorkerId) (started_at_ms : N)
| Done (completion_blob : ContentId) (finished_at_ms : N)
| Failed (reason : string) (failed_at_ms : N).

Record SampleRecord : Type := mkSample {
  sample_rec_id : ContentId;
  prompt_blob : ContentId;
  sample_state : SampleState;
  created_at_ms : N;
  input_idx : N;
}.

#[global] Instance SampleState_eq_dec : EqDecision SampleState.
Proof. solve_decision. Defined.
#[global] Instance SampleRecord_eq_dec : EqDecision SampleRecord.
Proof. solve_decision. Defined.
#[global] Program Instance SampleState_countable : Countable SampleState :=
  inj_countable'
    (fun s => match s with
              | Pending => inl tt
              | Running w t => inr (inl (w, t))
              | Done b t => inr (inr (inl (b, t)))
              | Failed m t => inr (inr (inr (m, t)))
              end)
    (fun c => match c with
              | inl _ => Pending
              | inr (inl (w, t)) => Running w t
              | inr (inr (inl (b, t))) => Done b t
              | inr (inr (inr (m, t))) => Failed m t
              end) _.
Next Obligation. by intros []. Qed.
#[global] Program Instance SampleRecord_countable : Countable SampleRecord :=
  inj_countable' (fun r => (sample_rec_id r, prompt_blob r, sample_state r, created_at_ms r, input_idx r))
                 (fun '(i, p, s, c, x) => mkSample i p s c x) _.
Next Obligation. by intros []. Qed.

Definition with_state (r : SampleRecord) (s : SampleState) : SampleRecord :=
  mkSample (sample_rec_id r) (prompt_blob r) s (created_at_ms r) (input_idx r).

Definition sample_key (run_id : RunId) (sid : ContentId) : StorageKey :=
  mkKey "infer" (Some run_id) ["samples"; ContentId_to_string sid].

(** [idx.to_le_bytes()] of a u64. *)
Fixpoint le_bytes (n : nat) (x : N) : bytes :=
  match n with
  | O => []
  | S n' => default x00 (Byte.of_N (x mod 256)) :: le_bytes n' (x / 256)
  end.

(** The bytes [sample_id] hashes; [params] is the postcard text of the parameters. *)
Definition sample_preimage (model_content_id : ContentId) (prompt params : bytes) (idx : N) : bytes :=
  [SAMPLING_PARAMS_SCHEMA_VERSION] ++ model_content_id ++ prompt ++ params ++ le_bytes 8 idx.

Lemma sample_key_known run_id sid : known (sample_key run_id sid).
Proof. unfold known; simpl. set_solver. Qed.
#[global] Hint Resolve sample_key_known : core.

Lemma sample_key_inj run_id id id' : sample_key run_id id = sample_key run_id id' -> id = id'.
Proof. intros [= H]. by apply ContentId_to_string_inj. Qed.

(** [now.saturating_sub(started) > stale_after]: subtraction stops at zero. *)
Definition is_stale (now_ms started_at_ms stale_after_ms : N) : bool :=
  bool_decide (stale_after_ms < now_ms - started_at_ms)%N.

Definition claimable (s : SampleState) (now_ms stale_after_ms : N) : bool :=
  match s with
  | Pending => true
  | Running _ started => is_stale now_ms started stale_after_ms
  | Done _ _ | Failed _ _ => false
  end.

(** Who may take a sample, in words: it is pending, or its owner has been silent
    for longer than the staleness bound. *)
Definition open_to_claim (s : SampleState) (now_ms stale_after_ms : N) : Prop :=
  s = Pending \/ exists me started, s = Running me started /\ (started + stale_after_ms < now_ms)%N.

Lemma is_stale_spec now_ms started stale : is_stale now_ms started stale = bool_decide (started + stale < now_ms)%N.
Proof. unfold is_stale. apply bool_decide_ext. lia. Qed.

Lemma claimable_open s now_ms stale : claimable s now_ms stale = true -> open_to_claim s now_ms stale.
Proof.
  destruct s as [|me started| |]; simpl; [by left| |done|done]. rewrite is_stale_spec, bool_decide_eq_true. right. eauto.
Qed.

(** ** The queue as the batch components use it *)
Class Queue (Q : Type) : Type := {
  waiting : Q -> list (Ulid * bytes);
  q_enqueue : bytes -> M Q CoreError Ulid;
  q_dequeue : M Q CoreError (option (Ulid * bytes));
  q_ack : Ulid -> M Q CoreError unit;
}.

Class QueueLaws (Q : Type) {QU : Queue Q} : Prop := {
  q_enqueue_law p q : wp (q_enqueue p) (fun r q' =>
    match r with
    | Ok id => waiting q' = waiting q ++ [(id, p)]
    | Err _ => waiting q' = waiting q
    end) q;
  q_dequeue_law q : wp q_dequeue (fun r q' =>
    match r with
    | Ok None => waiting q = [] /\ waiting q' = []
    | Ok (Some x) => waiting q = x :: waiting q'
    | Err _ => waiting q' = waiting q
    end) q;
  q_ack_law id q : wp (q_ack id) (fun _ q' => waiting q' = waiting q) q;
}.

(** A queue that hands out consecutive ids: the instance of the examples. *)
#[global] Instance list_queue : Queue (N * list (Ulid * bytes)) := {
  waiting := snd;
  q_enqueue p := fun q => (Ok q.1, (N.succ q.1, q.2 ++ [(q.1, p)]));
  q_dequeue := fun q => match q.2 with
                        | [] => (Ok None, q)
                        | x :: l => (Ok (Some x), (q.1, l))
                        end;
  q_ack _ := mret tt;
}.
#[global] Instance list_queue_laws : QueueLaws (N * list (Ulid * bytes)).
Proof.
  split; unfold wp; simpl; [done| |done]. intros [n [|x l]]; simpl; done.
Qed.

Section batch.
Context {W T : Type} {ST : Storage W T} {SL : StorageLaws W T} {SC : Codec SampleRecord}.
Context {Q : Type} {QU : Queue Q} {QL : QueueLaws Q}.
Context (content_id_of : bytes -> ContentId).
Context {O : Type} {OS : ObjectStore O content_id_of} {OL : ObjectStoreLaws O content_id_of}.

Definition sample_id (model_content_id : ContentId) (prompt params : bytes) (idx : N) : ContentId :=
  content_id_of (sample_preimage model_content_id prompt params idx).

(** ** state.rs *)
Definition cas_sample (txn : T) (run_id : RunId) (record next : SampleRecord) : M W CoreError (bool * T) :=
  cas_bytes txn (sample_key run_id (sample_rec_id record)) (Some (encode record)) (Some (encode next)).

Definition try_claim (txn : T) (record : SampleRecord) (run_id : RunId) (worker_id : WorkerId)
    (now_ms stale_after_ms : N) : M W CoreError (bool * T) :=
  if negb (claimable (sample_state record) now_ms stale_after_ms) then mret (false, txn)
  else cas_sample txn run_id record (with_state record (Running worker_id now_ms)).

Definition try_complete (txn : T) (running_record : SampleRecord) (run_id : RunId)
    (completion_blob : ContentId) (finished_at_ms : N) : M W CoreError (bool * T) :=
  cas_sample txn run_id running_record (with_state running_record (Done completion_blob finished_at_ms)).

Definition try_fail (txn : T) (running_record : SampleRecord) (run_id : RunId) (reason : string)
    (failed_at_ms : N) : M W CoreError (bool * T) :=
  cas_sample txn run_id running_record (with_state running_record (Failed reason failed_at_ms)).

Definition try_repending (txn : T) (running_record : SampleRecord) (run_id : RunId)
  : M W CoreError (bool * T) :=
  cas_sample txn run_id running_record (with_state running_record Pending).

(** ** The shared world of coordinator and workers *)
Record World : Type := mkWorld { b_store : W; b_queue : Q; b_objects : O }.

Definition on_store {A} (m : M W CoreError A) : M World CoreError A :=
  zoom b_store (fun s w => mkWorld s (b_queue w) (b_objects w)) m.
Definition on_queue {A} (m : M Q CoreError A) : M World CoreError A :=
  zoom b_queue (fun q w => mkWorld (b_store w) q (b_objects w)) m.
Definition on_objects {A} (m : M O CoreError A) : M World CoreError A :=
  zoom b_objects (fun o w => mkWorld (b_store w) (b_queue w) o) m.

Definition decode_sample (bs : bytes) : result CoreError SampleRecord :=
  match decode bs with
  | Ok r => Ok r
  | Err e => Err (internal ("postcard SampleRecord decode: " +:+ e))
  end.

(** [begin]; the CAS; [commit] on a win, [abort] on a loss. *)
Definition in_txn (body : T -> M W CoreError (bool * T)) : M W CoreError bool :=
  let* txn := begin_txn in
  let* '(won, txn) := body txn in
  if won then let* _ := commit txn in mret true
  else let* _ := abort txn in mret false.

(** ** coordinator.rs *)
Record InputItem : Type := mkInput { item_idx : N; item_prompt : bytes }.

(** [sid.to_string().into_bytes()] *)
Definition sid_payload (sid : ContentId) : bytes := ContentId_display sid.

(** One round of the loop of [scan_and_enqueue]. *)
Definition scan_item (run_id : RunId) (stale_after_ms now_ms : N) (model : ContentId)
    (params : bytes) (enqueued : nat) (item : InputItem) : M World CoreError nat :=
  let sid := sample_id model (item_prompt item) params (item_idx item) in
  let key := sample_key run_id sid in
  let* existing := on_store (get_bytes key) in
  match existing with
  | None =>
      let* blob := on_objects (o_put (item_prompt item)) in
      let rec := mkSample sid blob Pending now_ms (item_idx item) in
      let* _ := on_store (put_row key (encode rec)) in
      let* _ := on_queue (q_enqueue (sid_payload sid)) in
      mret (S enqueued)
  | Some bs =>
      let* rec := mlift (decode_sample bs) in
      match sample_state rec with
      | Done _ _ => mret enqueued
      | Pending | Failed _ _ =>
          let* _ := on_queue (q_enqueue (sid_payload sid)) in
          mret (S enqueued)
      | Running _ started =>
          if is_stale now_ms started stale_after_ms then
            let* applied := on_store (in_txn (fun txn => try_repending txn rec run_id)) in
            if (applied : bool) then
              let* _ := on_queue (q_enqueue (sid_payload sid)) in
              mret (S enqueued)
            else mret enqueued
          else mret enqueued
      end
  end.

Definition scan_and_enqueue (run_id : RunId) (stale_after_ms now_ms : N) (inputs : list InputItem)
    (model : ContentId) (params : bytes) : M World CoreError nat :=
  mfold (scan_item run_id stale_after_ms now_ms model params) 0 inputs.

Definition load_sample (run_id : RunId) (sid : ContentId) : M W CoreError SampleRecord :=
  let* row := get_bytes (sample_key run_id sid) in
  match row with
  | None => mthrow (internal ("sample " +:+ ContentId_to_string sid +:+ " not found"))
  | Some bs => mlift (decode_sample bs)
  end.

Definition is_done (s : SampleState) : bool := match s with Done _ _ => true | _ => false end.

Fixpoint collect_loop (entries : list (StorageKey * bytes)) (out : list SampleRecord)
  : result CoreError (list SampleRecord) :=
  match entries with
  | [] => Ok out
  | (_, bs) :: entries' =>
      let? rec := decode_sample bs in
      collect_loop entries' (if is_done (sample_state rec) then out ++ [rec] else out)
  end.

Definition idx_le (a b : SampleRecord) : bool := bool_decide (input_idx a <= input_idx b)%N.

Definition samples_prefix (run_id : RunId) : StorageKey := mkKey "infer" (Some run_id) ["samples"].

Definition collect_done_records (run_id : RunId) : M W CoreError (list SampleRecord) :=
  let* entries := scan_bytes (mkRange (samples_prefix run_id) None) in
  let* out := mlift (collect_loop entries []) in
  mret (sort_by idx_le out).

(** ** worker.rs *)
Inductive RunOutcome : Type := Completed | RunFailed | Skipped | Drained.

(** [std::str::from_utf8] is the standard library's; ASCII text is UTF-8. *)
Context (from_utf8 : bytes -> result string bytes).
(** The inference backend: one prompt in, its completions out, or an error. *)
Context (generate : bytes -> result string (list bytes)).

(** A payload that [from_str] panics on (a multi-byte character across a digit
    pair) ends the worker task; the model ends the round with an error. *)
Definition parse_sample_id (payload : bytes) : result CoreError ContentId :=
  match from_utf8 payload with
  | Err e => Err (internal ("queue payload not UTF-8: " +:+ e))
  | Ok s => match ContentId_from_str s with
            | Value (Ok id) => Ok id
            | Value (Err e) => Err (internal ("parse ContentId: " +:+ e))
            | Panic m => Err (internal m)
            end
  end.

(** After the claim: prompt, generation, and the terminal CAS. *)
Definition run_claimed (run_id : RunId) (finish_ms : N) (running : SampleRecord)
  : M World CoreError RunOutcome :=
  let* prompt_bytes := on_objects (o_get (prompt_blob running)) in
  let* prompt_text := mlift (match from_utf8 prompt_bytes with
                             | Ok s => Ok s
                             | Err e => Err (internal ("prompt blob not UTF-8: " +:+ e))
                             end) in
  match generate prompt_text with
  | Ok completions =>
      let* comp := mlift (match last completions with
                          | Some c => Ok c
                          | None => Err (internal "backend returned empty completion vec")
                          end) in
      let* blob := on_objects (o_put comp) in
      let* applied := on_store (in_txn (fun txn => try_complete txn running run_id blob finish_ms)) in
      if negb applied then
        mthrow (internal ("CAS Running->Done lost for " +:+ ContentId_to_string (sample_rec_id running)))
      else mret Completed
  | Err e =>
      let* _ := on_store (let* txn := begin_txn in
                          let* '(_, txn) := try_fail txn running run_id e finish_ms in
                          commit txn) in
      mret RunFailed
  end.

(** The claim, and on a win the work, of a record that is not terminal. *)
Definition claim_and_run (run_id : RunId) (worker_id : WorkerId) (stale_after_ms claim_now finish_ms : N)
    (qid : Ulid) (rec : SampleRecord) : M World CoreError RunOutcome :=
  let* claimed := on_store (in_txn (fun txn =>
    try_claim txn rec run_id worker_id claim_now stale_after_ms)) in
  if negb claimed then let* _ := on_queue (q_ack qid) in mret Skipped
  else
    let running := with_state rec (Running worker_id claim_now) in
    let* out := run_claimed run_id finish_ms running in
    let* _ := on_queue (q_ack qid) in
    mret out.

Definition run_one (run_id : RunId) (worker_id : WorkerId) (stale_after_ms claim_now finish_ms : N)
  : M World CoreError RunOutcome :=
  let* item := on_queue q_dequeue in
  match item with
  | None => mret Drained
  | Some (qid, payload) =>
      let* sid := mlift (parse_sample_id payload) in
      let* row := on_store (get_bytes (sample_key run_id sid)) in
      match row with
      | None => let* _ := on_queue (q_ack qid) in mret Skipped
      | Some bs =>
          let* rec := mlift (decode_sample bs) in
          match sample_state rec with
          | Done _ _ | Failed _ _ => let* _ := on_queue (q_ack qid) in mret Skipped
          | _ => claim_and_run run_id worker_id stale_after_ms claim_now finish_ms qid rec
          end
      end
  end.

(** [run_loop] with the stop flag and the clocks each round reads. *)
Fixpoint run_loop (run_id : RunId) (worker_id : WorkerId) (stale_after_ms : N)
    (rounds : list (bool * N * N)) (completed : nat) : M World CoreError (option nat) :=
  match rounds with
  | [] => mret None   (* the schedule ended before the loop did *)
  | (stop_pull, claim_now, finish_ms) :: rounds' =>
      if (stop_pull : bool) then mret (Some completed)
      else
        let* out := run_one run_id worker_id stale_after_ms claim_now finish_ms in
        match out with
        | Drained => mret (Some completed)
        | Completed => run_loop run_id worker_id stale_after_ms rounds' (S completed)
        | RunFailed | Skipped => run_loop run_id worker_id stale_after_ms rounds' completed
        end
  end.

(** [poll_preemption]: a notice sets the stop flag. *)
Definition poll_preemption (signal : result CoreError (option N)) (stop_pull : bool)
  : result CoreError (option N) * bool :=
  match signal with
  | Err e => (Err e, stop_pull)
  | Ok lead => (Ok lead, match lead with Some _ => true | None => stop_pull end)
  end.

(** ** What the transitions do *)
Definition rec_key (run_id : RunId) (r : SampleRecord) : StorageKey := sample_key run_id (sample_rec_id r).

Lemma cas_sample_spec txn run_id record next s :
  wp (cas_sample txn run_id record next) (fun r s' => same s s' /\ ok_or_fault s r (fun bt =>
    if bt.1 then view txn !! rec_key run_id record = Some (encode record) /\
                 view bt.2 = <[rec_key run_id record := encode next]> (view txn)
    else view txn !! rec_key run_id record <> Some (encode record) /\ view bt.2 = view txn)) s.
Proof.
  unfold cas_sample. wp_call cas_law; [apply sample_key_known|].
  intros [[won t']|e] s' [Hs Hr]; split; auto. simpl in *. destruct Hr as [Hr _].
  unfold cas_view in Hr. case_decide; injection Hr as -> ->; auto.
Qed.

(** A transition in a transaction of its own: all or nothing. *)
Lemma in_txn_cas run_id record next s :
  wp (in_txn (fun txn => cas_sample txn run_id record next)) (fun r s' =>
    match r with
    | Ok true => contents s !! rec_key run_id record = Some (encode record) /\
                 contents s' = <[rec_key run_id record := encode next]> (contents s)
    | Ok false => contents s !! rec_key run_id record <> Some (encode record) /\ contents s' = contents s
    | Err _ => contents s' = contents s
    end) s.
Proof.
  unfold in_txn. wp_call begin_law. intros [t|e] s1 ((Hc1 & _) & Ht); [destruct Ht as [Hv _]|done].
  wp_call cas_sample_spec. rewrite Hv.
  intros [[[] t2]|e] s2 ((Hc2 & _) & Hr); simpl in Hr; [| |congruence].
  - wp_call commit_law. intros [[]|e] s3 (_ & Hr3).
    + apply wp_ret. destruct Hr3 as [-> _]. done.
    + destruct Hr3 as (_ & -> & _). congruence.
  - wp_call abort_law. intros [[]|e] s3 ((Hc3 & _) & _); [apply wp_ret; split; [apply Hr|]|]; congruence.
Qed.

Lemma store_get_spec k s : known k ->
  wp (get_bytes k) (fun r s' => contents s' = contents s /\ (healthy s -> healthy s') /\
    ok_or_fault s r (fun v => v = contents s !! k)) s.
Proof. intros Hk. eapply wp_mono; [by apply get_law|]. intros r s' ((? & _ & ?) & ?). auto. Qed.

(** The put of one row in a transaction of its own. *)
(** ** The worker's round *)

(** The sample the round is about: the row named by the payload at the head. *)
Definition target (run_id : RunId) (w : World) (rec : SampleRecord) : Prop :=
  exists qid payload rest sid bs, waiting (b_queue w) = (qid, payload) :: rest /\
    parse_sample_id payload = Ok sid /\
    contents (b_store w) !! sample_key run_id sid = Some bs /\ decode bs = Ok rec.

Definition set_row (run_id : RunId) (rec : SampleRecord) (s : SampleState) (m : store) : store :=
  <[rec_key run_id rec := encode (with_state rec s)]> m.

Lemma with_state_twice r s s' : with_state (with_state r s) s' = with_state r s'.
Proof. done. Qed.

Lemma run_claimed_spec run_id finish_ms rec w m me claim_now : o_valid (b_objects w) ->
  contents (b_store w) = set_row run_id rec (Running me claim_now) m ->
  wp (run_claimed run_id finish_ms (with_state rec (Running me claim_now))) (fun r w' =>
    o_valid (b_objects w') /\
    match r with
    | Ok Completed => exists comp prompt completions,
        generate prompt = Ok completions /\ last completions = Some comp /\
        is_Some (blobs (b_objects w') (content_id_of comp)) /\
        contents (b_store w') = set_row run_id rec (Done (content_id_of comp) finish_ms) m
    | Ok RunFailed => exists prompt e, generate prompt = Err e /\
        contents (b_store w') = set_row run_id rec (Failed e finish_ms) m
    | Ok _ => False
    | Err _ => contents (b_store w') = contents (b_store w)
    end) w.
Proof.
  intros Hv Hc. unfold run_claimed. apply wp_bind, wp_zoom.
  eapply wp_mono; [by apply o_get_law|]. intros [pb|e] o1 (Hv1 & Hb1 & _); [|done].
  repeat wp_pure. destruct (from_utf8 pb) as [prompt|e]; [|done].
  destruct (generate prompt) as [completions|e] eqn:Hg.
  - repeat wp_pure. destruct (last completions) as [comp|] eqn:Hlast; [|done].
    apply wp_bind, wp_zoom. eapply wp_mono; [by apply o_put_law|]. cbn [b_store b_objects b_queue].
    intros [blob|e] o2 [Hv2 Hr2]; [|done]. destruct Hr2 as (-> & _ & b' & Hb' & _).
    apply wp_bind, wp_zoom. unfold try_complete. rewrite with_state_twice.
    eapply wp_mono; [apply in_txn_cas|]. cbn [b_store b_objects b_queue].
    intros [[]|e] s3 Hr3; simpl; [apply wp_ret|apply wp_throw|done].
    + split; [done|]. exists comp, prompt, completions. split; [done|]. split; [done|].
      split; [by exists b'|]. cbn [b_store]. destruct Hr3 as [_ ->]. rewrite Hc. unfold set_row, rec_key; simpl.
      by rewrite insert_insert_eq.
    + split; [done|]. by destruct Hr3.
  - apply wp_bind, wp_zoom. wp_call begin_law. cbn [b_store b_objects b_queue].
    intros [t|e'] s1 ((Hc1 & _) & Ht); [destruct Ht as [Hvw _]|done].
    unfold try_fail. rewrite with_state_twice. wp_call cas_sample_spec.
    rewrite Hvw. intros [[won t2]|e'] s2 ((Hc2 & _) & Hr2); simpl in Hr2; [|split; [done|congruence]].
    eapply wp_mono; [apply commit_law|]. intros [[]|e'] s3 (_ & Hr3); simpl.
    + apply wp_ret. simpl. split; [done|]. exists prompt, e. split; [done|].
      cbn [b_store]. destruct Hr3 as [-> _]. destruct won.
      * destruct Hr2 as [_ ->]. rewrite Hc. unfold set_row, rec_key; simpl. by rewrite insert_insert_eq.
      * destruct Hr2 as [Hne _]. destruct Hne. rewrite Hc. unfold set_row, rec_key; simpl.
        by rewrite lookup_insert_eq.
    + split; [done|]. simpl. destruct Hr3 as (_ & Hc3 & _). congruence.
Qed.

Lemma ack_frame qid (P : result CoreError unit -> World -> Prop) w :
  (forall r q, waiting q = waiting (b_queue w) -> P r (mkWorld (b_store w) q (b_objects w))) ->
  wp (on_queue (q_ack qid)) P w.
Proof. intros HP. apply wp_zoom. eapply wp_mono; [apply q_ack_law|]. auto. Qed.

(** What a round does to the store, for the outcome [out] and the record [rec]
    it claimed from the contents [m]. *)
Definition round_post (run_id : RunId) (claim_now stale finish_ms : N) (rec : SampleRecord)
    (m : store) (r : result CoreError RunOutcome) (w' : World) : Prop :=
  match r with
  | Ok Drained => False
  | Ok Skipped => contents (b_store w') = m
  | Ok Completed => exists comp prompt completions,
      claimable (sample_state rec) claim_now stale = true /\
      generate prompt = Ok completions /\ last completions = Some comp /\
      is_Some (blobs (b_objects w') (content_id_of comp)) /\
      contents (b_store w') = set_row run_id rec (Done (content_id_of comp) finish_ms) m
  | Ok RunFailed => exists prompt e,
      claimable (sample_state rec) claim_now stale = true /\ generate prompt = Err e /\
      contents (b_store w') = set_row run_id rec (Failed e finish_ms) m
  | Err _ => contents (b_store w') = m \/
      exists s, claimable (sample_state rec) claim_now stale = true /\
                contents (b_store w') = set_row run_id rec s m
  end.

Lemma claim_and_run_post run_id me stale claim_now finish_ms qid rec w : o_valid (b_objects w) ->
  wp (claim_and_run run_id me stale claim_now finish_ms qid rec) (fun r w' =>
    o_valid (b_objects w') /\
    round_post run_id claim_now stale finish_ms rec (contents (b_store w)) r w') w.
Proof.
  intros Hv. unfold claim_and_run. apply wp_bind, wp_zoom. unfold try_claim.
  destruct (claimable (sample_state rec) claim_now stale) eqn:Hcl; simpl.
  - eapply wp_mono; [apply in_txn_cas|]. intros [[]|e] s1 Hr1; simpl; [| |by auto].
    + destruct Hr1 as [_ Hc1]. apply wp_bind.
      eapply wp_mono; [by apply (run_claimed_spec run_id finish_ms rec _ (contents (b_store w)))|].
      intros [[]|e] w2 [Hv2 Hr2]; simpl in *; try done.
      * destruct Hr2 as (comp & prompt & cs & Hg & Hl & Hb & Hc2). apply wp_bind, ack_frame.
        intros [[]|e] q _; [apply wp_ret|]; (split; [done|]); simpl; [eauto 10|right; eauto].
      * destruct Hr2 as (prompt & e & Hg & Hc2). apply wp_bind, ack_frame.
        intros [[]|e'] q _; [apply wp_ret|]; (split; [done|]); simpl; [eauto 10|right; eauto].
      * split; [done|]. right. exists (Running me claim_now). split; [done|].
        rewrite Hr2. exact Hc1.
    + destruct Hr1 as [_ Hc1]. apply wp_bind, ack_frame.
      intros [[]|e] q _; [apply wp_ret|]; (split; [done|]); simpl; auto.
  - unfold in_txn. wp_call begin_law. intros [t|e] s1 ((Hc1 & _) & _); [|simpl; auto].
    do 2 wp_pure. wp_call abort_law. intros [[]|e] s2 ((Hc2 & _) & _); simpl; [|split; [done|left; congruence]].
    apply wp_ret. simpl. apply wp_bind, ack_frame.
    intros [[]|e] q _; [apply wp_ret|]; (split; [done|]); simpl; [congruence|left; congruence].
Qed.

Lemma skip_post run_id claim_now stale finish_ms rec qid m w : o_valid (b_objects w) ->
  contents (b_store w) = m ->
  wp (let* _ := on_queue (q_ack qid) in mret Skipped) (fun r w' => o_valid (b_objects w') /\
    round_post run_id claim_now stale finish_ms rec m r w') w.
Proof.
  intros Hv <-. apply wp_bind, ack_frame. intros [[]|e] q _; [apply wp_ret|]; simpl; auto.
Qed.

Lemma run_one_rows run_id me stale claim_now finish_ms w (Hv : o_valid (b_objects w)) :
  wp (run_one run_id me stale claim_now finish_ms) (fun r w' =>
    match r with
    | Ok Drained => waiting (b_queue w) = [] /\ contents (b_store w') = contents (b_store w)
    | Ok Skipped => contents (b_store w') = contents (b_store w)
    | Ok Completed => exists rec comp prompt completions, target run_id w rec /\
        claimable (sample_state rec) claim_now stale = true /\
        generate prompt = Ok completions /\ last completions = Some comp /\
        is_Some (blobs (b_objects w') (content_id_of comp)) /\
        contents (b_store w') = set_row run_id rec (Done (content_id_of comp) finish_ms) (contents (b_store w))
    | Ok RunFailed => exists rec prompt e, target run_id w rec /\
        claimable (sample_state rec) claim_now stale = true /\ generate prompt = Err e /\
        contents (b_store w') = set_row run_id rec (Failed e finish_ms) (contents (b_store w))
    | Err _ => contents (b_store w') = contents (b_store w) \/
        exists rec s, target run_id w rec /\ claimable (sample_state rec) claim_now stale = true /\
          contents (b_store w') = set_row run_id rec s (contents (b_store w))
    end) w.
Proof.
  unfold run_one. apply wp_bind, wp_zoom. eapply wp_mono; [apply q_dequeue_law|].
  intros [[[qid payload]|]|e] q1 Hq; [|by apply wp_ret; destruct Hq|by auto].
  repeat wp_pure. destruct (parse_sample_id payload) as [sid|e] eqn:Hp; [|by auto].
  apply wp_bind, wp_zoom. eapply wp_mono; [by apply store_get_spec|]. cbn [b_store b_objects b_queue].
  intros [row|e] s2 (Hc2 & _ & Hr2); [simpl in Hr2; subst row|by auto].
  destruct (contents (b_store w) !! sample_key run_id sid) as [bs|] eqn:Hrow.
  2:{ apply wp_bind, ack_frame. intros [[]|e] q3 _; [apply wp_ret|]; simpl; auto. }
  repeat wp_pure. unfold decode_sample. destruct (decode bs) as [rec|e] eqn:Hd; [|by auto].
  assert (target run_id w rec) as Htgt by (exists qid, payload, (waiting q1), sid, bs; auto).
  eapply wp_mono with (Q := fun r w' => o_valid (b_objects w') /\
    round_post run_id claim_now stale finish_ms rec (contents (b_store w)) r w').
  - rewrite <- Hc2. destruct (sample_state rec);
      first [by apply skip_post | by apply claim_and_run_post].
  - intros [[]|e] w' [_ Hr]; simpl in Hr; try done; naive_solver.
Qed.


(** C9: A round of the worker touches at most the row of the sample at the head of
    the queue, and that only from a claimable state (pending, or running and
    stale): it is [Done] with the stored completion exactly when the outcome is
    [Completed], [Failed] with the backend's error when it is [Failed], and as it
    was when the outcome is [Skipped] or the queue is drained. *)
Theorem run_one_spec run_id me stale claim_now finish_ms w (Hv : o_valid (b_objects w)) :
  wp (run_one run_id me stale claim_now finish_ms) (fun r w' =>
    match r with
    | Ok Drained => waiting (b_queue w) = [] /\ contents (b_store w') = contents (b_store w)
    | Ok Skipped => contents (b_store w') = contents (b_store w)
    | Ok Completed => exists rec comp prompt completions, target run_id w rec /\
        open_to_claim (sample_state rec) claim_now stale /\
        generate prompt = Ok completions /\ last completions = Some comp /\
        is_Some (blobs (b_objects w') (content_id_of comp)) /\
        contents (b_store w') = set_row run_id rec (Done (content_id_of comp) finish_ms) (contents (b_store w))
    | Ok RunFailed => exists rec prompt e, target run_id w rec /\
        open_to_claim (sample_state rec) claim_now stale /\ generate prompt = Err e /\
        contents (b_store w') = set_row run_id rec (Failed e finish_ms) (contents (b_store w))
    | Err _ => contents (b_store w') = contents (b_store w) \/
        exists rec s, target run_id w rec /\ open_to_claim (sample_state rec) claim_now stale /\
          contents (b_store w') = set_row run_id rec s (contents (b_store w))
    end) w.
Proof.
  eapply wp_mono; [by apply run_one_rows|].
  intros [[]|e] w' Hr; try done; naive_solver eauto using claimable_open.
Qed.
(** ** The loop ends: every round but the last takes an entry off the queue *)
Definition queue_kept {A} (m : M World CoreError A) : Prop :=
  forall w, waiting (b_queue (snd (m w))) = waiting (b_queue w).

Lemma kept_ret {A} (a : A) : queue_kept (mret a).
Proof. done. Qed.
Lemma kept_throw {A} e : queue_kept (A := A) (mthrow e).
Proof. done. Qed.
Lemma kept_lift {A} (r : result CoreError A) : queue_kept (mlift r).
Proof. done. Qed.
Lemma kept_store {A} (m : M W CoreError A) : queue_kept (on_store m).
Proof. intros w. unfold on_store, zoom. by destruct (m (b_store w)). Qed.
Lemma kept_objects {A} (m : M O CoreError A) : queue_kept (on_objects m).
Proof. intros w. unfold on_objects, zoom. by destruct (m (b_objects w)). Qed.
Lemma kept_ack qid : queue_kept (on_queue (q_ack qid)).
Proof.
  intros w. pose proof (ack_frame qid (fun _ w' => waiting (b_queue w') = waiting (b_queue w)) w) as H.
  unfold wp in H. apply H. by intros.
Qed.
Lemma kept_bind {A B} (m : M World CoreError A) (k : A -> M World CoreError B) :
  queue_kept m -> (forall a, queue_kept (k a)) -> queue_kept (mbind_ m k).
Proof.
  intros Hm Hk w. unfold mbind_. specialize (Hm w). destruct (m w) as [[a|e] w']; simpl in *; [|done].
  by rewrite Hk, Hm.
Qed.

Ltac queue_kept_tac := repeat first
  [ apply kept_ret | apply kept_throw | apply kept_lift | apply kept_store | apply kept_objects | apply kept_ack
  | apply kept_bind; [|intros ?] | case_match ].

Lemma claim_and_run_kept run_id me stale claim_now finish_ms qid rec :
  queue_kept (claim_and_run run_id me stale claim_now finish_ms qid rec).
Proof. unfold claim_and_run, run_claimed. queue_kept_tac. Qed.

(** Once an entry was taken the round does not answer [Drained]. *)
Definition not_drained (m : M World CoreError RunOutcome) : Prop := forall w, (m w).1 <> Ok Drained.
Lemma not_drained_bind {A} (m : M World CoreError A) (k : A -> M World CoreError RunOutcome) :
  (forall a, not_drained (k a)) -> not_drained (mbind_ m k).
Proof. intros Hk w. unfold mbind_. destruct (m w) as [[a|e] w']; [apply Hk|done]. Qed.
Lemma not_drained_ret o : o <> Drained -> not_drained (mret o).
Proof. intros Ho w. unfold mret. simpl. congruence. Qed.
Lemma not_drained_throw e : not_drained (mthrow e).
Proof. by intros w. Qed.
Lemma not_drained_then {A} (m : M World CoreError RunOutcome) (n : M World CoreError A) : not_drained m ->
  not_drained (let* out := m in let* _ := n in mret out).
Proof.
  intros Hm w. specialize (Hm w). unfold mbind_, mret. destruct (m w) as [[o|e] w']; [|done].
  destruct (n w') as [[a|e] w'']; simpl in *; congruence.
Qed.

Ltac not_drained_tac := repeat first
  [ apply not_drained_ret; done | apply not_drained_throw | apply not_drained_then
  | apply not_drained_bind; intros ? | case_match ].

Lemma claim_and_run_not_drained run_id me stale claim_now finish_ms qid rec :
  not_drained (claim_and_run run_id me stale claim_now finish_ms qid rec).
Proof. unfold claim_and_run, run_claimed. not_drained_tac. Qed.

Lemma run_one_takes_one run_id me stale claim_now finish_ms w :
  wp (run_one run_id me stale claim_now finish_ms) (fun r w' => match r with
    | Err _ => True
    | Ok Drained => waiting (b_queue w) = [] /\ waiting (b_queue w') = []
    | Ok _ => length (waiting (b_queue w)) = S (length (waiting (b_queue w')))
    end) w.
Proof.
  unfold run_one. apply wp_bind, wp_zoom. eapply wp_mono; [apply q_dequeue_law|].
  intros [[[qid payload]|]|e] q1 Hq; [|by apply wp_ret; simpl; destruct Hq|done].
  rewrite Hq. cbn [length]. set (w1 := mkWorld (b_store w) q1 (b_objects w)).
  match goal with |- wp ?m _ _ => assert (queue_kept m) as Hk end.
  { queue_kept_tac; apply claim_and_run_kept. }
  match goal with |- wp ?m _ _ => assert (not_drained m) as Hn end.
  { not_drained_tac; apply claim_and_run_not_drained. }
  specialize (Hk w1). specialize (Hn w1). unfold wp. destruct (fst _) as [[]|e]; try done; by rewrite Hk.
Qed.

(** The worker's loop ends: with more rounds to run than there are entries on
    the queue it returns its count or an error, whatever the rounds do. *)
Theorem run_loop_terminates run_id me stale rounds completed w
    (Hmany : (length (waiting (b_queue w)) < length rounds)%nat) :
  wp (run_loop run_id me stale rounds completed) (fun r _ => r <> Ok None) w.
Proof.
  revert completed w Hmany. induction rounds as [|[[stop claim_now] finish_ms] rounds IH]; intros completed w Hmany; simpl in *; [lia|].
  destruct stop; [by apply wp_ret|]. apply wp_bind. eapply wp_mono; [apply run_one_takes_one|].
  intros [[]|e] w' Hw; try (apply IH; lia); done.
Qed.

(** A failed sample is never retried although the coordinator re-enqueues it:
    the scan counts it as enqueued, and the worker that dequeues it acks it and
    leaves the row [Failed]. *)
Theorem failed_sample_not_retried run_id me stale now_ms claim_now finish_ms model params n item rec reason t w
    (Hrow : contents (b_store w) !! sample_key run_id (sample_id model (item_prompt item) params (item_idx item))
            = Some (encode rec))
    (Hfailed : sample_state rec = Failed reason t) (Hempty : waiting (b_queue w) = [])
    (Hparse : parse_sample_id (sid_payload (sample_id model (item_prompt item) params (item_idx item)))
              = Ok (sample_id model (item_prompt item) params (item_idx item))) :
  wp (let* k := scan_item run_id stale now_ms model params n item in
      let* out := run_one run_id me stale claim_now finish_ms in
      mret (k, out)) (fun r w' =>
    contents (b_store w') = contents (b_store w) /\
    match r with Ok (k, out) => k = S n /\ out = Skipped | Err _ => True end) w.
Proof.
  unfold scan_item. set (sid := sample_id _ _ _ _) in *.
  apply wp_bind, wp_bind, wp_zoom. eapply wp_mono; [by apply store_get_spec|].
  intros [row|e] s1 (Hc1 & _ & Hr1); [simpl in Hr1; subst row; rewrite Hrow|done].
  repeat wp_pure. unfold decode_sample. rewrite decode_encode, Hfailed.
  apply wp_bind, wp_zoom. eapply wp_mono; [apply q_enqueue_law|].
  intros [qid|e] q1 Hq1; [|done]. apply wp_ret. simpl in Hq1. rewrite Hempty in Hq1. simpl in Hq1.
  apply wp_bind. unfold run_one. apply wp_bind, wp_zoom. eapply wp_mono; [apply q_dequeue_law|].
  cbn [b_store b_objects b_queue]. rewrite Hq1.
  intros [[[qid' payload]|]|e] q2 Hq2; [injection Hq2 as <- <- _|by destruct Hq2|done].
  repeat wp_pure. rewrite Hparse. apply wp_bind, wp_zoom. eapply wp_mono; [by apply store_get_spec|].
  cbn [b_store b_objects b_queue]. rewrite Hc1.
  intros [row|e] s2 (Hc2 & _ & Hr2); [simpl in Hr2; subst row; rewrite Hrow|done].
  repeat wp_pure. unfold decode_sample. rewrite decode_encode, Hfailed.
  apply wp_bind, ack_frame. intros [[]|e] q3 _; [apply wp_ret; apply wp_ret|]; simpl; auto.
Qed.

Definition enqueued_one (w w' : World) (sid : ContentId) : Prop :=
  exists id, waiting (b_queue w') = waiting (b_queue w) ++ [(id, sid_payload sid)].

Lemma enqueue_one_spec sid n w (P : result CoreError nat -> World -> Prop) :
  (forall q id, waiting q = waiting (b_queue w) ++ [(id, sid_payload sid)] ->
     P (Ok n) (mkWorld (b_store w) q (b_objects w))) ->
  (forall e w', P (Err e) w') ->
  wp (let* _ := on_queue (q_enqueue (sid_payload sid)) in mret n) P w.
Proof.
  intros Hok Herr. apply wp_bind, wp_zoom. eapply wp_mono; [apply q_enqueue_law|].
  intros [id|e] q Hq; [apply wp_ret; by eapply Hok|apply Herr].
Qed.

(** Planning is resumable: a sample that is done, or running and fresh, is left
    alone; a new one gets a pending row and a queue entry, a stale one goes back to
    pending with a queue entry, and a pending or failed one is only enqueued. *)
Theorem scan_item_spec run_id stale now_ms model params n item w (Hv : o_valid (b_objects w)) :
  let sid := sample_id model (item_prompt item) params (item_idx item) in
  wp (scan_item run_id stale now_ms model params n item) (fun r w' =>
    match r with
    | Ok k =>
        match contents (b_store w) !! sample_key run_id sid with
        | None => k = S n /\ enqueued_one w w' sid /\ exists blob,
            contents (b_store w') =
              <[sample_key run_id sid := encode (mkSample sid blob Pending now_ms (item_idx item))]>
                (contents (b_store w))
        | Some bs => exists rec, decode bs = Ok rec /\
            match sample_state rec with
            | Done _ _ => k = n /\ contents (b_store w') = contents (b_store w) /\
                          waiting (b_queue w') = waiting (b_queue w)
            | Pending | Failed _ _ =>
                k = S n /\ contents (b_store w') = contents (b_store w) /\ enqueued_one w w' sid
            | Running _ started =>
                if bool_decide (started + stale < now_ms)%N then
                  (k = S n /\ contents (b_store w') = set_row run_id rec Pending (contents (b_store w)) /\
                   enqueued_one w w' sid) \/
                  (k = n /\ contents (b_store w') = contents (b_store w))
                else k = n /\ contents (b_store w') = contents (b_store w) /\
                     waiting (b_queue w') = waiting (b_queue w)
            end
        end
    | Err _ => True
    end) w.
Proof.
  intros sid. unfold scan_item. fold sid.
  apply wp_bind, wp_zoom. eapply wp_mono; [by apply store_get_spec|].
  intros [row|e] s1 (Hc1 & _ & Hr1); [simpl in Hr1; subst row|done].
  destruct (contents (b_store w) !! sample_key run_id sid) as [bs|] eqn:Hrow.
  - repeat wp_pure. unfold decode_sample. destruct (decode bs) as [rec|e] eqn:Hd; [|done].
    destruct (sample_state rec) as [|me started|blob t|reason t] eqn:Hs.
    + apply enqueue_one_spec; [|done]. intros q id Hq. exists rec. rewrite Hs. simpl in *.
      split; [done|]. split; [done|]. split; [done|]. by exists id.
    + destruct (is_stale now_ms started stale) eqn:Hst.
      * apply wp_bind, wp_zoom. unfold try_repending.
        eapply wp_mono; [apply in_txn_cas|]. cbn [b_store b_objects b_queue]. rewrite Hc1.
        intros [[]|e] s2 Hr2; [| |done].
        -- apply enqueue_one_spec; [|done]. intros q id Hq. exists rec. rewrite Hs, <- is_stale_spec, Hst. simpl in *.
           split; [done|]. left. destruct Hr2 as [_ ->]. split; [done|]. split; [done|]. by exists id.
        -- apply wp_ret. exists rec. rewrite Hs, <- is_stale_spec, Hst. split; [done|]. right. simpl.
           by destruct Hr2 as [_ ->].
      * apply wp_ret. exists rec. rewrite Hs, <- is_stale_spec, Hst. done.
    + apply wp_ret. exists rec. rewrite Hs. done.
    + apply enqueue_one_spec; [|done]. intros q id Hq. exists rec. rewrite Hs. simpl in *.
      split; [done|]. split; [done|]. split; [done|]. by exists id.
  - apply wp_bind, wp_zoom. cbn [b_store b_objects b_queue].
    eapply wp_mono; [by apply o_put_law|]. intros [blob|e] o2 _; [|done].
    apply wp_bind, wp_zoom. cbn [b_store b_objects b_queue].
    eapply wp_mono; [by apply put_row_spec|]. rewrite Hc1. intros [[]|e] s3 Hr3; [|done].
    apply enqueue_one_spec; [|done]. intros q id Hq. simpl in *.
    split; [done|]. split; [by exists id|]. by exists blob.
Qed.

End batch.

(** ** The output *)
Section collect.
Context {W T : Type} {ST : Storage W T} {SL : StorageLaws W T} {SC : Codec SampleRecord}.

Definition sample_of (kv : StorageKey * bytes) : option SampleRecord :=
  match decode kv.2 with Ok r => Some r | Err _ => None end.

Lemma collect_loop_spec entries out res :
  collect_loop entries out = Ok res ->
  res = out ++ filter (fun r => is_done (sample_state r) = true) (omap sample_of entries).
Proof.
  revert out. induction entries as [|[k bs] entries IH]; intros out.
  { intros [= <-]. simpl. by rewrite app_nil_r. }
  cbn [collect_loop]. unfold decode_sample. destruct (decode bs) as [rec|e] eqn:Hd; [|done].
  cbn [result_bind]. intros H. apply IH in H. subst res.
  assert (omap sample_of ((k, bs) :: entries) = rec :: omap sample_of entries) as ->.
  { change (match sample_of (k, bs) with
            | Some r => r :: omap sample_of entries | None => omap sample_of entries end
            = rec :: omap sample_of entries).
    unfold sample_of at 1; simpl. by rewrite Hd. }
  rewrite filter_cons. destruct (is_done (sample_state rec)).
  - rewrite decide_True by done. by rewrite <- app_assoc.
  - by rewrite decide_False.
Qed.

(** The collected output is exactly the [Done] rows of the run, in the order of
    their input positions, and reading it changes nothing. *)
Theorem collect_done_records_spec run_id s :
  wp (collect_done_records run_id) (fun r s' => contents s' = contents s /\
    match r with
    | Ok out => StronglySorted (fun a b => (input_idx a <= input_idx b)%N) out /\
        forall rec, rec ∈ out <-> is_done (sample_state rec) = true /\
          exists k bs, contents s !! k = Some bs /\ in_range (samples_prefix run_id) k = true /\
                       decode bs = Ok rec
    | Err _ => True
    end) s.
Proof.
  unfold collect_done_records.
  wp_call scan_law; [unfold known; simpl; set_solver|by eexists|].
  intros [es|e] s1 ((Hc & _) & Hr); [|done]. simpl in Hr. repeat wp_pure.
  destruct (collect_loop es []) as [out|e] eqn:Hout; [|done]. apply wp_ret. split; [done|].
  apply collect_loop_spec in Hout. simpl in Hout. split.
  - pose proof (sort_by_sorted idx_le) as Hsort.
    eapply strongly_sorted_impl; [|apply Hsort]; unfold idx_le.
    + intros a b. apply bool_decide_eq_true.
    + intros a b. rewrite bool_decide_eq_false, bool_decide_eq_true. lia.
    + intros a b c. rewrite !bool_decide_eq_true. lia.
  - intros rec. rewrite (sort_by_perm idx_le), Hout, list_elem_of_filter, list_elem_of_omap.
    split; intros [Hd H]; (split; [done|]).
    + destruct H as ([k bs] & Hin & Hs). rewrite Hr in Hin.
      apply list_elem_of_filter in Hin as [Hp Hin%elem_of_map_to_list]. exists k, bs.
      split; [done|]. split; [done|]. unfold sample_of in Hs; simpl in Hs.
      destruct (decode bs); congruence.
    + destruct H as (k & bs & Hk & Hp & Hdec). exists (k, bs). split.
      * rewrite Hr. apply list_elem_of_filter. split; [done|]. by apply elem_of_map_to_list.
      * unfold sample_of; simpl. by rewrite Hdec.
Qed.
End collect.

(** ** Sample identity *)
Lemma le_bytes_length n x : length (le_bytes n x) = n.
Proof. revert x. induction n as [|n IH]; intros x; simpl; [done|]. by rewrite IH. Qed.

Lemma byte_of_N_inj a b : (a < 256)%N -> (b < 256)%N ->
  default x00 (Byte.of_N a) = default x00 (Byte.of_N b) -> a = b.
Proof.
  intros Ha Hb. destruct (Byte.of_N a) as [x|] eqn:Ex.
  - destruct (Byte.of_N b) as [y|] eqn:Ey.
    + simpl. intros ->. apply Byte.to_of_N in Ex, Ey. congruence.
    + apply Byte.of_N_None_iff in Ey. lia.
  - apply Byte.of_N_None_iff in Ex. lia.
Qed.

Lemma le_bytes_inj n x y : (x < 256 ^ N.of_nat n)%N -> (y < 256 ^ N.of_nat n)%N ->
  le_bytes n x = le_bytes n y -> x = y.
Proof.
  revert x y. induction n as [|n IH]; intros x y Hx Hy Heq.
  { simpl in *. lia. }
  rewrite Nat2N.inj_succ, N.pow_succ_r' in Hx, Hy. cbn [le_bytes] in Heq.
  injection Heq as Hb Hrest.
  apply byte_of_N_inj in Hb; [|apply N.mod_lt; lia|apply N.mod_lt; lia].
  apply IH in Hrest; [|apply N.Div0.div_lt_upper_bound; lia|apply N.Div0.div_lt_upper_bound; lia].
  rewrite (N.div_mod x 256), (N.div_mod y 256) by lia. by rewrite Hb, Hrest.
Qed.

(** Two samples of a run never share an id by construction: with one sampling
    configuration, the bytes hashed for a sample determine its model, its prompt
    and its input position. *)
Theorem sample_preimage_injective model1 model2 prompt1 prompt2 params idx1 idx2
    (Hm1 : ContentId_wf model1) (Hm2 : ContentId_wf model2)
    (Hi1 : (idx1 < 2 ^ 64)%N) (Hi2 : (idx2 < 2 ^ 64)%N)
    (Heq : sample_preimage model1 prompt1 params idx1 = sample_preimage model2 prompt2 params idx2) :
  model1 = model2 /\ prompt1 = prompt2 /\ idx1 = idx2.
Proof.
  unfold ContentId_wf, sample_preimage in *. apply app_inj_1 in Heq as [_ Heq]; [|done].
  apply app_inj_1 in Heq as [Hm Heq]; [|congruence]. rewrite !app_assoc in Heq.
  apply app_inj_2 in Heq as [Hp Hi]; [|by rewrite !le_bytes_length].
  apply app_inj_2 in Hp as [Hp _]; [|done]. split; [done|]. split; [done|].
  by apply le_bytes_inj in Hi.
Qed.

Section batch_examples.
#[local] Existing Instance bits_codec.

(** One-byte digests keep the example rows small; the payload of the queue is
    checked on a real 32-byte id in the parse example. *)
Definition tiny_hash (b : bytes) : ContentId := replicate 32 (default x00 (last b)).
Definition bworld : Type := @World Mem.World (N * list (Ulid * bytes)) (gmap ContentId bytes).
Definition echo (prompt : bytes) : result string (list bytes) :=
  match prompt with [] => Err "empty prompt" | _ => Ok [prompt] end.
Definition utf8_id (b : bytes) : result string bytes := Ok b.

Definition item_a : InputItem := mkInput 0 [x61].
Definition w_start : bworld := mkWorld (Mem.mkWorld ∅ [] []) (1%N, []) ∅.
Definition w_planned : bworld := snd (scan_item tiny_hash 1 300 5 (replicate 32 x00) [] 0 item_a w_start).

Lemma scan_item_spec_witness :
  fst (scan_item tiny_hash 1 300 5 (replicate 32 x00) [] 0 item_a w_start) = Ok 1 /\
  wp (scan_item tiny_hash 1 300 5 (replicate 32 x00) [] 0 item_a) (fun _ _ => True) w_start.
Proof.
  split; [vm_compute; reflexivity|]. eapply wp_mono.
  - apply (scan_item_spec tiny_hash 1 300 5 (replicate 32 x00) [] 0 item_a w_start).
    apply map_Forall_empty.
  - auto.
Defined.

Lemma run_one_spec_witness :
  fst (run_one tiny_hash utf8_id echo 1 7 300 6 9 w_planned) = Ok Completed /\
  wp (run_one tiny_hash utf8_id echo 1 7 300 6 9) (fun _ _ => True) w_planned.
Proof.
  split; [vm_compute; reflexivity|]. eapply wp_mono.
  - apply (run_one_spec tiny_hash utf8_id echo 1 7 300 6 9 w_planned).
    apply map_Forall_insert_2; [reflexivity|apply map_Forall_empty].
  - auto.
Defined.

Lemma run_loop_terminates_witness :
  wp (run_loop tiny_hash utf8_id echo 1 7 10 [(false, 5%N, 6%N); (false, 7%N, 8%N); (false, 9%N, 10%N)] 0) (fun r _ => r <> Ok None) w_planned.
Proof.
  apply (run_loop_terminates tiny_hash utf8_id echo 1 7 10 [(false, 5%N, 6%N); (false, 7%N, 8%N); (false, 9%N, 10%N)] 0 w_planned).
  vm_compute. lia.
Defined.

Lemma collect_done_records_spec_witness :
  wp (collect_done_records 1) (fun r s' => contents s' = contents (b_store w_planned)) (b_store w_planned).
Proof.
  eapply wp_mono; [apply (collect_done_records_spec 1 (b_store w_planned))|].
  intros r s' [H _]. exact H.
Defined.

Lemma sample_preimage_injective_witness :
  (replicate 32 x00 : bytes) = replicate 32 x00 /\ ([x61] : bytes) = [x61] /\ (3 = 3)%N.
Proof.
  apply (sample_preimage_injective (replicate 32 x00) (replicate 32 x00) [x61] [x61] [x05] 3 3);
    reflexivity.
Defined.

Definition failed_rec : SampleRecord :=
  mkSample (replicate 32 x00) [x61] (Failed "oom" 4) 1 0.
Definition w_failed : bworld :=
  mkWorld (Mem.mkWorld {[ sample_key 1 (replicate 32 x00) := encode failed_rec ]} [] []) (1%N, []) ∅.

Lemma failed_sample_not_retried_witness :
  wp (let* k := scan_item tiny_hash 1 300 5 (replicate 32 x00) [] 0 item_a in
      let* out := run_one tiny_hash utf8_id echo 1 7 300 6 9 in mret (k, out))
     (fun r w' => contents (b_store w') = contents (b_store w_failed)) w_failed.
Proof.
  eapply wp_mono.
  - refine (failed_sample_not_retried tiny_hash utf8_id echo 1 7 300 5 6 9 (replicate 32 x00) [] 0
             item_a failed_rec "oom" 4 w_failed _ eq_refl eq_refl _); vm_compute; reflexivity.
  - intros r w' [H _]. exact H.
Defined.
End batch_examples.
