(* ===== verification/Pool.v ===== *)
(** The pool of batch workers (the tasks [run_pool] of rollout-cli/src/infer.rs spawns,
    each running [run_loop] and [run_one] of rollout-runtime-batch/src/worker.rs): a
    worker is a machine with one step per call it awaits, and the tasks interleave at
    every one of them. *)
From stdpp Require Import base option list gmap strings.
From S2P Require Import Prelude.
From S2P Require Import Text.
From S2P Require Import Core.
From S2P Require Import ObjectStore.
From S2P Require Import Storage.
From S2P Require Import Batch.

Definition utf8_bytes (b : bytes) : result string bytes :=
  match from_utf8 b with Ok _ => Ok b | Err e => Err e end.

(** Where a task is: the call it makes next, with what it holds, and the samples it
    has completed.  [Broke]: the task ended with an error. *)
Inductive Slot : Type :=
| Pulling (completed : nat)
| Dequeued (completed : nat) (qid : Ulid) (payload : bytes)
| Claiming (completed : nat) (qid : Ulid) (rec : SampleRecord)
| Prompting (completed : nat) (qid : Ulid) (running : SampleRecord)
| Generating (completed : nat) (qid : Ulid) (running : SampleRecord) (prompt : bytes)
| Storing (completed : nat) (qid : Ulid) (running : SampleRecord) (comp : bytes)
| Completing (completed : nat) (qid : Ulid) (running : SampleRecord) (blob : ContentId)
| Failing (completed : nat) (qid : Ulid) (running : SampleRecord) (reason : string)
| Acking (completed : nat) (qid : Ulid) (out : RunOutcome)
| Finished (completed : nat)
| Broke (e : CoreError).

Definition is_finished (s : Slot) : bool := match s with Finished _ => true | _ => false end.
Definition is_over (s : Slot) : bool := match s with Finished _ | Broke _ => true | _ => false end.

(** A step of a task: the slot and the clock it reads. *)
Record PoolTurn : Type := mkPoolTurn { turn_slot : nat; turn_now : N }.
(** The tasks and the error of the first that ended with one: [join_next] hands the
    tasks over in the order they end. *)
Record PoolState : Type := mkPool { slots : list Slot; first_error : option CoreError }.

Section pool.
Context {W T : Type} {ST : Storage W T} {SC : Codec SampleRecord} {Q : Type} {QU : Queue Q}.
Context (content_id_of : bytes -> ContentId) {O : Type} {OS : ObjectStore O content_id_of}.
Context (worker_ids : nat -> WorkerId) (generate : bytes -> result string (list bytes)) (run_id : RunId).
Abbreviation shared_world := (@Batch.World W Q O).

(** After [run_one] returned. *)
Definition slot_after (completed : nat) (out : RunOutcome) : Slot :=
  match out with
  | Drained => Finished completed
  | Completed => Pulling (S completed)
  | RunFailed | Skipped => Pulling completed
  end.

(** The call of [run_one] the task is at, and the code up to the next one.  A write
    transaction, which excludes every other and shows nothing before its commit, is one
    step.  The stop flag of [run_loop] is never set in the pool. *)
Definition worker_step (me : WorkerId) (now : N) (s : Slot) : M shared_world CoreError Slot :=
  match s with
  | Pulling n =>
      let* item := on_queue q_dequeue in
      mret (match item with None => Finished n | Some (qid, payload) => Dequeued n qid payload end)
  | Dequeued n qid payload =>
      let* sid := mlift (parse_sample_id utf8_bytes payload) in
      let* row := on_store (get_bytes (sample_key run_id sid)) in
      match row with
      | None => mret (Acking n qid Skipped)
      | Some bs =>
          let* rec := mlift (decode_sample bs) in
          mret (match sample_state rec with
                | Done _ _ | Failed _ _ => Acking n qid Skipped
                | _ => Claiming n qid rec
                end)
      end
  | Claiming n qid rec =>
      let* claimed := on_store (in_txn (fun txn => try_claim txn rec run_id me now DEFAULT_STALE_AFTER_MS)) in
      mret (if (claimed : bool) then Prompting n qid (with_state rec (Running me now)) else Acking n qid Skipped)
  | Prompting n qid running =>
      let* prompt_bytes := on_objects (o_get (prompt_blob running)) in
      let* prompt_text := mlift (match utf8_bytes prompt_bytes with
                                 | Ok s => Ok s
                                 | Err e => Err (internal ("prompt blob not UTF-8: " +:+ e))
                                 end) in
      mret (Generating n qid running prompt_text)
  | Generating n qid running prompt =>
      match generate prompt with
      | Ok completions =>
          let* comp := mlift (match last completions with
                              | Some c => Ok c
                              | None => Err (internal "backend returned empty completion vec")
                              end) in
          mret (Storing n qid running comp)
      | Err e => mret (Failing n qid running e)
      end
  | Storing n qid running comp =>
      let* blob := on_objects (o_put comp) in mret (Completing n qid running blob)
  | Completing n qid running blob =>
      let* applied := on_store (in_txn (fun txn => try_complete txn running run_id blob now)) in
      if negb applied then
        mthrow (internal ("CAS Running->Done lost for " +:+ ContentId_to_string (sample_rec_id running)))
      else mret (Acking n qid Completed)
  | Failing n qid running e =>
      let* _ := on_store (let* txn := begin_txn in
                          let* '(_, txn) := try_fail txn running run_id e now in
                          commit txn) in
      mret (Acking n qid RunFailed)
  | Acking n qid out => let* _ := on_queue (q_ack qid) in mret (slot_after n out)
  | Finished _ | Broke _ => mret s
  end.

Definition pool_turn (st : PoolState) (t : PoolTurn) : M shared_world CoreError PoolState :=
  match slots st !! turn_slot t with
  | Some s =>
      if is_over s then mret st
      else
        let* r := mcatch (worker_step (worker_ids (turn_slot t)) (turn_now t) s) in
        mret (match r with
              | Ok s' => mkPool (<[turn_slot t := s']> (slots st)) (first_error st)
              | Err e => mkPool (<[turn_slot t := Broke e]> (slots st))
                           (match first_error st with Some e0 => Some e0 | None => Some e end)
              end)
  | None => mret st
  end.

(** The pool under a schedule.  When a task has ended with an error the others are
    aborted wherever they are: the schedule ends. *)
Definition pool (workers_count : N) (schedule : list PoolTurn) : M shared_world CoreError PoolState :=
  mfold pool_turn (mkPool (replicate (N.to_nat workers_count) (Pulling 0)) None) schedule.

(** ** A round of one task alone is [run_one] *)
Definition at_rest (s : Slot) : bool := match s with Pulling _ | Finished _ => true | _ => false end.
Fixpoint solo (me : WorkerId) (claim_now finish_ms : N) (steps : nat) (s : Slot) : M shared_world CoreError Slot :=
  match steps with
  | 0 => mret s
  | S steps' =>
      let* s' := worker_step me (match s with Claiming _ _ _ => claim_now | _ => finish_ms end) s in
      if at_rest s' then mret s' else solo me claim_now finish_ms steps' s'
  end.

Lemma solo_step me claim_now finish_ms k s w :
  solo me claim_now finish_ms (S k) s w =
  match worker_step me (match s with Claiming _ _ _ => claim_now | _ => finish_ms end) s w with
  | (Ok s', w') => if at_rest s' then (Ok s', w') else solo me claim_now finish_ms k s' w'
  | (Err e, w') => (Err e, w')
  end.
Proof.
  cbn [solo]. unfold mbind_ at 1. destruct (worker_step _ _ s w) as [[s'|e] w']; [|done]. by destruct (at_rest s').
Qed.

(** One call of the round, whatever it answers. *)
Ltac call :=
  rewrite solo_step; cbn [worker_step]; unfold mbind_, mlift, mret, mthrow.
Ltac answer := cbn [negb at_rest slot_after fst snd]; try reflexivity.

Lemma acked_round me claim_now finish_ms k n qid out w :
  out <> Drained ->
  solo me claim_now finish_ms (S k) (Acking n qid out) w =
  (let* _ := on_queue (q_ack qid) in mret (slot_after n out)) w.
Proof.
  intros Ho. call. destruct (on_queue (q_ack qid) w) as [[[]|e] w']; answer. by destruct out.
Qed.

Lemma claimed_round me claim_now finish_ms n qid running w :
  solo me claim_now finish_ms 5 (Prompting n qid running) w =
  (let* out := run_claimed content_id_of utf8_bytes generate run_id finish_ms running in
   let* _ := on_queue (q_ack qid) in mret (slot_after n out)) w.
Proof.
  call. unfold run_claimed, mbind_, mlift, mret, mthrow.
  destruct (on_objects (o_get (prompt_blob running)) w) as [[b|e] w1]; answer.
  destruct (utf8_bytes b) as [p|e]; answer. call.
  destruct (generate p) as [cs|e]; [destruct (last cs) as [c|]|]; answer; call.
  - destruct (on_objects (o_put c) w1) as [[blob|e] w2]; answer. call.
    destruct (on_store _ w2) as [[[]|e] w3]; answer. by rewrite acked_round by done.
  - destruct (on_store _ w1) as [[[]|e'] w2]; answer. by rewrite acked_round by done.
Qed.

(** A task that is not interrupted makes, from one pull to the next, exactly the round
    [run_one] describes, in at most eight calls. *)
Theorem solo_round me claim_now finish_ms n w :
  solo me claim_now finish_ms 8 (Pulling n) w =
  (let* out := run_one content_id_of utf8_bytes generate run_id me DEFAULT_STALE_AFTER_MS claim_now finish_ms in
   mret (slot_after n out)) w.
Proof.
  call. unfold run_one, mbind_, mlift, mret, mthrow.
  destruct (on_queue q_dequeue w) as [[[[qid payload]|]|e] w1]; answer. call.
  destruct (parse_sample_id utf8_bytes payload) as [sid|e]; answer.
  destruct (on_store (get_bytes (sample_key run_id sid)) w1) as [[[bs|]|e] w2]; answer.
  - destruct (decode_sample bs) as [rec|e]; answer.
    assert (forall k, solo me claim_now finish_ms (S k) (Acking n qid Skipped) w2 =
      (let* out := (let* _ := on_queue (q_ack qid) in mret Skipped) in mret (slot_after n out)) w2) as Hskip.
    { intros k. rewrite acked_round by done. unfold mbind_, mret. by destruct (on_queue (q_ack qid) w2) as [[[]|e] w3]. }
    assert (solo me claim_now finish_ms 6 (Claiming n qid rec) w2 =
      (let* out := claim_and_run content_id_of utf8_bytes generate run_id me DEFAULT_STALE_AFTER_MS claim_now finish_ms qid rec in
       mret (slot_after n out)) w2) as Hclaim.
    { call. unfold claim_and_run, mbind_, mret, mthrow. destruct (on_store _ w2) as [[[]|e] w3]; answer.
      - rewrite claimed_round. unfold mbind_, mret. destruct (run_claimed _ _ _ _ _ _ w3) as [[out|e] w4]; [|done].
        by destruct (on_queue (q_ack qid) w4) as [[[]|e] w5].
      - rewrite acked_round by done. unfold mbind_, mret. by destruct (on_queue (q_ack qid) w3) as [[[]|e] w4]. }
    destruct (sample_state rec); answer; [exact Hclaim|exact Hclaim|exact (Hskip 5)|exact (Hskip 5)].
  - rewrite acked_round by done. unfold mbind_, mret. by destruct (on_queue (q_ack qid) w2) as [[[]|e] w3].
Qed.
End pool.

(** ** The pool drains the queue *)
Section pool_facts.
Context {W T : Type} {ST : Storage W T} {SC : Codec SampleRecord} {Q : Type} {QU : Queue Q} {QL : QueueLaws Q}.
Context (content_id_of : bytes -> ContentId) {O : Type} {OS : ObjectStore O content_id_of}.
Context (worker_ids : nat -> WorkerId) (generate : bytes -> result string (list bytes)) (run_id : RunId).
Abbreviation shared_world := (@Batch.World W Q O).
Implicit Types w : shared_world.

(** The calls a task still makes for the sample it holds, and for finding the queue
    empty. *)
Definition left (s : Slot) : nat :=
  match s with
  | Pulling _ => 1
  | Dequeued _ _ _ => 8
  | Claiming _ _ _ => 7
  | Prompting _ _ _ => 6
  | Generating _ _ _ _ => 5
  | Storing _ _ _ _ => 4
  | Completing _ _ _ _ | Failing _ _ _ _ => 3
  | Acking _ _ _ => 2
  | Finished _ | Broke _ => 0
  end.
Definition queue_length w : nat := length (waiting (b_queue w)).

(** How often a slot gets its turn. *)
Definition turns_of (i : nat) (schedule : list PoolTurn) : nat :=
  length (filter (fun t => turn_slot t = i) schedule).

Lemma turns_of_cons i t rest :
  turns_of i (t :: rest) = (if decide (turn_slot t = i) then 1 else 0) + turns_of i rest.
Proof. unfold turns_of. rewrite filter_cons. by case_decide. Qed.

Lemma store_keeps_queue {A} (m : M W CoreError A) w :
  wp (Batch.on_store m) (fun _ w' => b_queue w' = b_queue w) w.
Proof. unfold wp, Batch.on_store, zoom. by destruct (m (b_store w)). Qed.
Lemma objects_keep_queue {A} (m : M O CoreError A) w :
  wp (Batch.on_objects m) (fun _ w' => b_queue w' = b_queue w) w.
Proof. unfold wp, Batch.on_objects, zoom. by destruct (m (b_objects w)). Qed.

(** A slot that never holds a drained round. *)
Definition well_formed (s : Slot) : Prop := forall n qid, s <> Acking n qid Drained.

(** A step takes the task one call further or ends it with an error; it ends without
    one only on an empty queue. *)
Definition advanced (s : Slot) w (r : result CoreError Slot) w' : Prop :=
  queue_length w' <= queue_length w /\
  match r with
  | Ok s' => 8 * queue_length w' + left s' < 8 * queue_length w + left s /\ well_formed s' /\
      (forall n, s' = Finished n -> waiting (b_queue w') = []) /\ forall e, s' <> Broke e
  | Err _ => True
  end.

Lemma advanced_same s s' w w' : b_queue w' = b_queue w -> left s' < left s -> is_over s' = false -> well_formed s' ->
  advanced s w (Ok s') w'.
Proof.
  intros Hq Hl Ho Hwf. unfold advanced, queue_length. rewrite Hq. split; [lia|]. split; [lia|]. split; [done|]. split; intros ? ->; done.
Qed.
Lemma advanced_err s e w w' : b_queue w' = b_queue w -> advanced s w (Err e) w'.
Proof. intros Hq. unfold advanced, queue_length. by rewrite Hq. Qed.

Ltac next_slot := apply wp_ret, advanced_same; [assumption|simpl; lia|done|done].
Lemma worker_step_advances me now s w : is_over s = false -> well_formed s ->
  wp (worker_step content_id_of generate run_id me now s) (advanced s w) w.
Proof.
  intros Ho Hwf. destruct s as [n|n qid payload|n qid rec|n qid run|n qid run p|n qid run c|n qid run b|n qid run e|n qid out|n|e];
    try done; cbn [worker_step].
  - apply wp_bind, wp_zoom. eapply wp_mono; [apply q_dequeue_law|].
    intros [[[qid payload]|]|e] q Hq; cbv beta iota.
    + apply wp_ret. unfold advanced, queue_length. cbn [b_queue]. rewrite Hq. simpl. split; [lia|]. split; [lia|]. by repeat split.
    + destruct Hq as [Hq Hq']. apply wp_ret. unfold advanced, queue_length. cbn [b_queue]. rewrite Hq, Hq'. simpl. split; [lia|]. split; [lia|]. by repeat split.
    + unfold advanced, queue_length. cbn [b_queue]. by rewrite Hq.
  - apply wp_bind, wp_lift. destruct (parse_sample_id _ _) as [sid|e]; [|by apply advanced_err].
    apply wp_bind. eapply wp_mono; [apply store_keeps_queue|]. intros [[bs|]|e] w1 H1; cbv beta iota in *; [|next_slot|by apply advanced_err].
    apply wp_bind, wp_lift. destruct (decode_sample bs) as [rec|e]; [|by apply advanced_err].
    destruct (sample_state rec); next_slot.
  - apply wp_bind. eapply wp_mono; [apply store_keeps_queue|]. intros [[]|e] w1 H1; cbv beta iota in *; [next_slot|next_slot|by apply advanced_err].
  - apply wp_bind. eapply wp_mono; [apply objects_keep_queue|]. intros [b|e] w1 H1; cbv beta iota in *; [|by apply advanced_err].
    apply wp_bind, wp_lift. destruct (utf8_bytes b); [next_slot|by apply advanced_err].
  - destruct (generate p) as [cs|e]; [|by apply wp_ret, advanced_same; [|simpl; lia|..]].
    apply wp_bind, wp_lift. destruct (last cs); [|by apply advanced_err]. by apply wp_ret, advanced_same; [|simpl; lia|..].
  - apply wp_bind. eapply wp_mono; [apply objects_keep_queue|]. intros [b|e] w1 H1; cbv beta iota in *; [next_slot|by apply advanced_err].
  - apply wp_bind. eapply wp_mono; [apply store_keeps_queue|]. intros [[]|e] w1 H1; cbv beta iota in *; [next_slot| |by apply advanced_err].
    by apply wp_throw, advanced_err.
  - apply wp_bind. eapply wp_mono; [apply store_keeps_queue|]. intros [[]|e'] w1 H1; cbv beta iota in *; [next_slot|by apply advanced_err].
  - apply wp_bind, wp_zoom. eapply wp_mono; [apply q_ack_law|]. intros [[]|e] q Hq; cbv beta iota in *.
    + apply wp_ret. unfold advanced, queue_length. cbn [b_queue]. rewrite Hq. split; [lia|].
      destruct out; simpl; try (by destruct (Hwf n qid)); (split; [lia|]); by repeat split.
    + unfold advanced, queue_length. cbn [b_queue]. by rewrite Hq.
Qed.

(** [fair]: whether every task that is not over has turns enough ahead of it. *)
Definition pool_inv (fair : Prop) (n : nat) (st : PoolState) (rest : list PoolTurn) w : Prop :=
  length (slots st) = n /\
  (fair -> forall i s, slots st !! i = Some s -> is_over s = false -> 8 * queue_length w + left s <= turns_of i rest) /\
  (forall i s, slots st !! i = Some s -> well_formed s /\ (forall k, s = Finished k -> waiting (b_queue w) = []) /\
     (first_error st = None -> forall e, s <> Broke e)) /\
  (forall e, first_error st = Some e -> exists i, slots st !! i = Some (Broke e)).

Lemma pool_turn_keeps (fair : Prop) n st t rest w : pool_inv fair n st (t :: rest) w ->
  wp (pool_turn content_id_of worker_ids generate run_id st t) (fun r w' =>
    match r with Ok st' => pool_inv fair n st' rest w' | Err _ => False end) w.
Proof.
  intros (Hn & Hw & Hs & He). unfold pool_turn.
  assert (forall i s, fair -> slots st !! i = Some s -> is_over s = false -> i <> turn_slot t ->
            8 * queue_length w + left s <= turns_of i rest) as Hother.
  { intros i s F Hi Ho Hne. specialize (Hw F i s Hi Ho). rewrite turns_of_cons, decide_False in Hw by congruence. lia. }
  destruct (slots st !! turn_slot t) as [s|] eqn:Es.
  2: { apply wp_ret. split; [done|]. split; [|done]. intros F i s Hi Ho. apply Hother; try done. congruence. }
  destruct (is_over s) eqn:Eo.
  { apply wp_ret. split; [done|]. split; [|done]. intros F i s' Hi Ho. apply Hother; try done. intros ->. congruence. }
  pose proof (lookup_lt_Some _ _ _ Es) as Hlt.
  apply wp_bind, wp_catch. eapply wp_mono; [apply worker_step_advances; [done|by apply (Hs _ _ Es)]|].
  intros r w' [Hq Hr]. apply wp_ret.
  assert (forall i s', i <> turn_slot t -> slots st !! i = Some s' -> well_formed s' /\
            (forall k, s' = Finished k -> waiting (b_queue w') = [])) as Hold.
  { intros i s' Hne Hi. destruct (Hs _ _ Hi) as (H1 & H2 & _). split; [done|]. intros k Hk. specialize (H2 k Hk).
    unfold queue_length in Hq. rewrite H2 in Hq. apply nil_length_inv. simpl in Hq. lia. }
  assert (forall s' fe, (fair -> is_over s' = false -> 8 * queue_length w' + left s' <= turns_of (turn_slot t) rest) ->
            well_formed s' -> (forall k, s' = Finished k -> waiting (b_queue w') = []) ->
            (fe = None -> first_error st = None /\ forall e, s' <> Broke e) ->
            (forall e, fe = Some e -> s' = Broke e \/ first_error st = Some e) ->
            pool_inv fair n (mkPool (<[turn_slot t := s']> (slots st)) fe) rest w') as Hset.
  { intros s' fe H1 H2 H3 H4 H5. unfold pool_inv. cbn [slots first_error]. split; [by rewrite length_insert|]. split; [|split].
    - intros F i s2. destruct (decide (i = turn_slot t)) as [-> | Hne].
      + rewrite list_lookup_insert_eq by done. intros [= <-]. by apply H1.
      + rewrite list_lookup_insert_ne by congruence. intros Hi Ho. specialize (Hother i s2 F Hi Ho Hne). lia.
    - intros i s2. destruct (decide (i = turn_slot t)) as [-> | Hne].
      + rewrite list_lookup_insert_eq by done. intros [= <-]. split; [done|]. split; [done|]. intros Hfe. by apply H4.
      + rewrite list_lookup_insert_ne by congruence. intros Hi. destruct (Hold i s2 Hne Hi). split; [done|]. split; [done|].
        intros Hfe. apply (Hs _ _ Hi). by apply H4.
    - intros e Hfe. destruct (H5 e Hfe) as [-> | H]; [exists (turn_slot t); by rewrite list_lookup_insert_eq|].
      destruct (He e H) as [i Hi]. exists i. rewrite list_lookup_insert_ne; [done|]. intros <-. rewrite Es in Hi. by injection Hi as ->. }
  destruct r as [s'|e].
  - destruct Hr as (Hm & Hwf & Hf & Hb). apply Hset; try done. intros F Ho. specialize (Hw F _ _ Es Eo).
    rewrite turns_of_cons, decide_True in Hw by done. lia.
    intros e He'. by right.
  - apply Hset; try done; destruct (first_error st) as [e0|]; try done; intros e' [= <-]; [by right|by left].
Qed.

Lemma pool_keeps (fair : Prop) workers_count schedule w :
  (fair -> forall i, i < N.to_nat workers_count -> 8 * queue_length w < turns_of i schedule) ->
  wp (pool content_id_of worker_ids generate run_id workers_count schedule) (fun r w' =>
    match r with Ok st => pool_inv fair (N.to_nat workers_count) st [] w' | Err _ => False end) w.
Proof.
  intros Hfair. unfold pool. eapply wp_mono.
  - apply (wp_mfold _ (fun st rest w' => pool_inv fair (N.to_nat workers_count) st rest w') (fun _ _ => False)).
    + intros st t rest w0 Hi. by apply pool_turn_keeps.
    + split; [apply length_replicate|]. cbn [slots first_error]. split; [|split; [|done]].
      * intros F i s Hi _. apply lookup_replicate in Hi as [-> Hi]. specialize (Hfair F i Hi). simpl. lia.
      * intros i s Hi. apply lookup_replicate in Hi as [-> _]. by repeat split.
  - by intros [st|e] w'.
Qed.

(** Once all workers have returned the queue is empty. *)
Lemma pool_empties workers_count schedule w : workers_count <> 0%N ->
  wp (pool content_id_of worker_ids generate run_id workers_count schedule) (fun r w' =>
    match r with
    | Ok st => forallb is_finished (slots st) = true -> waiting (b_queue w') = []
    | Err _ => False
    end) w.
Proof.
  intros Hn. eapply wp_mono; [by apply (pool_keeps False)|].
  intros [st|e] w'; [|done]. intros (Hl & _ & Hs & _) Hall. destruct (slots st) as [|s l] eqn:E; [simpl in Hl; lia|].
  simpl in Hall. apply andb_true_iff in Hall as [Hf _]. destruct s; try done.
  destruct (Hs 0 _ eq_refl) as (_ & H & _). by eapply H.
Qed.

(** C31: The pool finishes: for every interleaving of the workers at the calls they
    await, if each worker gets more than eight turns for every entry of the queue then
    every worker has returned or ended with an error, and when none has ended with an
    error all have returned and the queue is empty.  The error the pool carries is one
    that a worker has ended with. *)
Theorem pool_finishes workers_count schedule w : workers_count <> 0%N ->
  (forall i, i < N.to_nat workers_count -> 8 * length (waiting (b_queue w)) < turns_of i schedule) ->
  wp (pool content_id_of worker_ids generate run_id workers_count schedule) (fun r w' =>
    match r with
    | Ok st => length (slots st) = N.to_nat workers_count /\ forallb is_over (slots st) = true /\
        match first_error st with
        | None => forallb is_finished (slots st) = true /\ waiting (b_queue w') = []
        | Some e => Broke e ∈ slots st
        end
    | Err _ => False
    end) w.
Proof.
  intros Hn Hfair. eapply wp_mono; [by apply (pool_keeps True)|].
  intros [st|e] w'; [|done]. intros (Hl & Hw & Hs & He). split; [done|].
  assert (forall i s, slots st !! i = Some s -> is_over s = true) as Hover.
  { intros i s Hi. destruct (is_over s) eqn:Eo; [done|]. specialize (Hw I i s Hi Eo). unfold turns_of in Hw. simpl in Hw.
    destruct s; simpl in *; try done; lia. }
  split.
  - apply forallb_forall. intros s Hin. apply list_elem_of_In, list_elem_of_lookup in Hin as [i Hi]. by eapply Hover.
  - destruct (first_error st) as [e|] eqn:Hfe.
    { destruct (He e eq_refl) as [i Hi]. by eapply list_elem_of_lookup_2. }
    assert (forall i s, slots st !! i = Some s -> is_finished s = true) as Hfin.
    { intros i s Hi. specialize (Hover i s Hi). destruct (Hs i s Hi) as (_ & _ & Hb). specialize (Hb eq_refl).
      destruct s; try done. by destruct (Hb e). }
    split; [apply forallb_forall; intros s Hin; apply list_elem_of_In, list_elem_of_lookup in Hin as [i Hi]; by eapply Hfin|].
    destruct (slots st !! 0) as [s|] eqn:E0; [|apply lookup_ge_None in E0; lia].
    specialize (Hfin 0 s E0). destruct (Hs 0 s E0) as (_ & Hq & _). destruct s; try done. by eapply Hq.
Qed.
End pool_facts.

(** ** No task deletes a row *)
Section rows_facts.
Context {W T : Type} {ST : Storage W T} {SL : StorageLaws W T} {SC : Codec SampleRecord}.
Context {Q : Type} {QU : Queue Q}.
Context (content_id_of : bytes -> ContentId) {O : Type} {OS : ObjectStore O content_id_of}.
Context (worker_ids : nat -> WorkerId) (generate : bytes -> result string (list bytes)) (run_id : RunId).
Abbreviation shared_world := (@Batch.World W Q O).

(** Every row there was is still there. *)
Definition keeps_keys (m m' : store) : Prop := forall k, is_Some (m !! k) -> is_Some (m' !! k).
Definition rows_kept (w w' : shared_world) : Prop := keeps_keys (contents (b_store w)) (contents (b_store w')).
#[local] Instance rows_kept_preorder : PreOrder rows_kept.
Proof. split; [by intros w k|]. intros w1 w2 w3 H1 H2 k Hk. by apply H2, H1. Qed.

Lemma keeps_keys_insert k v m : keeps_keys m (<[k := v]> m).
Proof. intros k' Hk. apply lookup_insert_is_Some'. by right. Qed.
Lemma keeps_keys_eq m m' : m' = m -> keeps_keys m m'.
Proof. by intros -> k. Qed.

Lemma rows_kept_store {A} (m : M W CoreError A) :
  (forall s, wp m (fun _ s' => keeps_keys (contents s) (contents s')) s) -> stays_in rows_kept (Batch.on_store m).
Proof.
  intros Hm w. unfold Batch.on_store, zoom, rows_kept. specialize (Hm (b_store w)). unfold wp in Hm.
  destruct (m (b_store w)). exact Hm.
Qed.
Lemma kept_queue {A} (m : M Q CoreError A) : stays_in rows_kept (Batch.on_queue m).
Proof. intros w. unfold Batch.on_queue, zoom. destruct (m (b_queue w)). by intros k. Qed.
Lemma rows_kept_objects {A} (m : M O CoreError A) : stays_in rows_kept (Batch.on_objects m).
Proof. intros w. unfold Batch.on_objects, zoom. destruct (m (b_objects w)). by intros k. Qed.

Lemma kept_get sid : stays_in rows_kept (Batch.on_store (get_bytes (sample_key run_id sid))).
Proof. apply rows_kept_store. intros s. eapply wp_mono; [by apply store_get_spec|]. intros r s' (Hc & _). by apply keeps_keys_eq. Qed.
Lemma kept_put k v : known k -> stays_in rows_kept (Batch.on_store (put_row k v)).
Proof. intros Hk. apply rows_kept_store. intros s. eapply wp_mono; [by apply put_row_spec|]. intros [[]|e] s' ->; [apply keeps_keys_insert|by apply keeps_keys_eq]. Qed.

Lemma kept_cas record next :
  stays_in rows_kept (Batch.on_store (in_txn (fun txn => cas_sample txn run_id record next))).
Proof.
  apply rows_kept_store. intros s. eapply wp_mono; [apply in_txn_cas|]. intros [[]|e] s' H; [|apply keeps_keys_eq, H|by apply keeps_keys_eq].
  destruct H as [_ ->]. apply keeps_keys_insert.
Qed.
Lemma kept_refusal :
  stays_in rows_kept (Batch.on_store (in_txn (fun txn : T => mret (false, txn)))).
Proof.
  apply rows_kept_store. intros s. unfold in_txn. wp_call begin_law. intros [t|e] s1 ((Hc1 & _) & _); [|by apply keeps_keys_eq].
  wp_call abort_law. intros [[]|e] s2 ((Hc2 & _) & _); [apply wp_ret|]; apply keeps_keys_eq; congruence.
Qed.
Lemma kept_claim rec me now stale :
  stays_in rows_kept (Batch.on_store (in_txn (fun txn => try_claim txn rec run_id me now stale))).
Proof. unfold try_claim. destruct (negb _); [apply kept_refusal|apply kept_cas]. Qed.
Lemma kept_fail rec e now :
  stays_in rows_kept (Batch.on_store (let* txn := begin_txn in
    let* '(_, txn) := try_fail txn rec run_id e now in commit txn)).
Proof.
  apply rows_kept_store. intros s. wp_call begin_law. intros [t|e'] s1 ((Hc1 & _) & Ht); [|by apply keeps_keys_eq]. destruct Ht as [Hv _].
  unfold try_fail. wp_call cas_sample_spec. rewrite Hv.
  intros [[won t2]|e'] s2 ((Hc2 & _) & Hr); [|apply keeps_keys_eq; congruence]. simpl in Hr.
  eapply wp_mono; [apply commit_law|]. intros [[]|e'] s3 (_ & H3).
  - destruct H3 as [-> _]. rewrite <- Hc1. destruct won; destruct Hr as [_ ->]; [rewrite Hc1; apply keeps_keys_insert|by apply keeps_keys_eq].
  - destruct H3 as (_ & -> & _). apply keeps_keys_eq. congruence.
Qed.

Ltac kept_walk := repeat first
  [ apply stays_ret; apply _ | apply stays_throw; apply _ | apply stays_lift; apply _
  | apply kept_queue | apply rows_kept_objects | apply kept_get | apply kept_cas | apply kept_claim | apply kept_fail
  | apply kept_put, sample_key_known
  | apply stays_bind; [apply _| |intros ?] | apply stays_mfold; [apply _|intros ? ?] | case_match ].

Lemma pool_keeps_rows n schedule : stays_in rows_kept (pool content_id_of worker_ids generate run_id n schedule).
Proof.
  unfold pool, pool_turn. apply stays_mfold; [apply _|]. intros st t. kept_walk.
  intros w. unfold mcatch.
  assert (stays_in rows_kept (worker_step content_id_of generate run_id (worker_ids (turn_slot t)) (turn_now t) s)) as Hstep
    by (unfold worker_step; kept_walk).
  specialize (Hstep w). by destruct (worker_step _ _ _ _ _ _ w).
Qed.

Definition planned (model params : bytes) (item : InputItem) (w : shared_world) : Prop :=
  is_Some (contents (b_store w) !! sample_key run_id (sample_id content_id_of model (item_prompt item) params (item_idx item))).

Lemma scan_item_kept stale now model params n item :
  stays_in rows_kept (scan_item content_id_of run_id stale now model params n item).
Proof. unfold scan_item. kept_walk. Qed.

Lemma scan_item_plans stale now model params n item w :
  wp (scan_item content_id_of run_id stale now model params n item) (fun r w' => is_ok r = true -> planned model params item w') w.
Proof.
  unfold planned, scan_item. set (sid := sample_id _ _ _ _ _).
  apply wp_bind, wp_zoom. eapply wp_mono; [by apply store_get_spec|].
  intros [row|e] s1 (Hc1 & _ & Hr1); [simpl in Hr1; subst row|done].
  assert (forall A (m : M shared_world CoreError A) (P : A -> bool) w1, stays_in rows_kept m ->
    is_Some (contents (b_store w1) !! sample_key run_id sid) ->
    wp m (fun _ w' => is_Some (contents (b_store w') !! sample_key run_id sid)) w1) as Hk.
  { intros A m P w1 Hm Hs. unfold wp. specialize (Hm w1). destruct (m w1). by apply Hm. }
  destruct (contents (b_store w) !! sample_key run_id sid) as [bs|] eqn:Hrow.
  - eapply wp_mono; [apply Hk; [exact (fun _ => true)| |]|by auto].
    + kept_walk.
    + cbn [b_store]. rewrite Hc1, Hrow. by eexists.
  - apply wp_bind. eapply wp_mono; [apply (wp_zoom _ _ _ (fun _ w' => b_store w' = s1))|].
    { unfold wp. by destruct (o_put _ _). }
    intros [blob|e] w2 Hw2; [|done]. cbv beta iota. apply wp_bind, wp_zoom.
    eapply wp_mono; [by apply put_row_spec|]. intros [[]|e] s3 Hr3; [|done]. cbv beta iota.
    eapply wp_mono; [apply Hk; [exact (fun _ => true)| |]|by auto]; [kept_walk|].
    cbn [b_store]. rewrite Hr3, lookup_insert_eq. by eexists.
Qed.

(** After planning every input has its row in the run. *)
Lemma scan_plans stale now model params inputs w :
  wp (scan_and_enqueue content_id_of run_id stale now inputs model params) (fun r w' =>
    is_ok r = true -> Forall (fun item => planned model params item w') inputs) w.
Proof.
  unfold scan_and_enqueue. eapply wp_mono.
  - apply (wp_mfold _ (fun _ rest w' => exists sent, inputs = sent ++ rest /\ Forall (fun item => planned model params item w') sent)
      (fun _ _ => True)); [|by exists []].
    intros n item rest w1 (sent & -> & Hs).
    pose proof (scan_item_plans stale now model params n item w1) as Hp.
    pose proof (scan_item_kept stale now model params n item w1) as Hk. unfold wp in *.
    destruct (scan_item _ _ _ _ _ _ _ item w1) as [[k|e] w2]; [|done]. cbn [fst snd] in *.
    exists (sent ++ [item]). split; [by rewrite <- app_assoc|]. apply Forall_app. split.
    + eapply Forall_impl; [exact Hs|]. intros it Hit. by apply Hk.
    + constructor; [by apply Hp|done].
  - intros [n|e] w'; [|done]. intros (sent & Heq & Hs) _. rewrite app_nil_r in Heq. by subst.
Qed.
End rows_facts.

(** ** Two workers over one sample *)
Section pool_examples.
#[local] Existing Instance bits_codec.
(** Turns of both workers in alternation. *)
Definition alternating (n : nat) : list PoolTurn :=
  mjoin (replicate n [mkPoolTurn 0 6; mkPoolTurn 1 7]).
Definition two_ids (i : nat) : WorkerId := N.of_nat i.
Definition two_workers (schedule : list PoolTurn) (w : bworld) :=
  pool tiny_hash two_ids echo 1 2 schedule w.

Lemma pool_finishes_witness :
  length (waiting (b_queue w_planned)) = 1 /\
  wp (pool tiny_hash two_ids echo 1 2 (alternating 9)) (fun r w' =>
    match r with Ok st => first_error st = None -> waiting (b_queue w') = [] | Err _ => False end) w_planned.
Proof.
  split; [vm_compute; reflexivity|]. eapply wp_mono.
  - apply (pool_finishes tiny_hash two_ids echo 1 2); [done|].
    intros i Hi. change (length (waiting (b_queue w_planned))) with 1.
    destruct i as [|[|i]]; [vm_compute; lia|vm_compute; lia|simpl in Hi; lia].
  - intros [st|e] w'; [|done]. intros (_ & _ & H) Hf. rewrite Hf in H. exact (proj2 H).
Defined.

(** The sample is on the queue twice and both workers read its row before either claims
    it: one claim wins, the other worker skips its entry. *)
Definition w_twice : bworld :=
  mkWorld (b_store w_planned) (2%N, (snd (b_queue w_planned)) ++ (snd (b_queue w_planned))) (b_objects w_planned).
Lemma one_of_two_claims_wins :
  match (two_workers (alternating 11) w_twice).1 with
  | Ok st => slots st = [Finished 1; Finished 0] /\ first_error st = None
  | Err _ => False
  end.
Proof. vm_compute. split; reflexivity. Qed.
End pool_examples.
