(* ===== verification/Snapshots.v ===== *)
(** Snapshots (rollout-snapshots/src): deterministic tars, content-addressed save
    and verified restore of training state, listing, and retention. *)
From stdpp Require Import base option list gmap strings sorting.
From S2P Require Import Prelude.
From S2P Require Import Core.
From S2P Require Import ObjectStore.
From S2P Require Import Storage.

Inductive SnapshotKind : Type := TrainState | Buffer | Process | EpisodicMemory.

#[global] Instance SnapshotKind_eq_dec : EqDecision SnapshotKind.
Proof. solve_decision. Defined.

Record SnapshotPart : Type := mkPart { role : string; content : ContentId; part_size : N }.

(** [meta] is opaque JSON, held as its text; [created_at] in milliseconds. *)
Record Snapshot : Type := mkSnapshot {
  snap_id : ContentId;
  snap_kind : SnapshotKind;
  snap_run : RunId;
  created_at : N;
  label : option string;
  parts : list SnapshotPart;
  algorithm_id : string;
  meta : string;
}.

#[global] Instance SnapshotPart_eq_dec : EqDecision SnapshotPart.
Proof. solve_decision. Defined.
#[global] Instance Snapshot_eq_dec : EqDecision Snapshot.
Proof. solve_decision. Defined.
#[global] Program Instance SnapshotPart_countable : Countable SnapshotPart :=
  inj_countable' (fun p => (role p, content p, part_size p)) (fun '(r, c, s) => mkPart r c s) _.
Next Obligation. by intros []. Qed.
Definition kind_code (k : SnapshotKind) : N :=
  match k with TrainState => 0 | Buffer => 1 | Process => 2 | EpisodicMemory => 3 end.
Definition kind_of_code (n : N) : SnapshotKind :=
  match n with 0%N => TrainState | 1%N => Buffer | 2%N => Process | _ => EpisodicMemory end.
#[global] Program Instance SnapshotKind_countable : Countable SnapshotKind :=
  inj_countable' kind_code kind_of_code _.
Next Obligation. by intros []. Qed.
#[global] Program Instance Snapshot_countable : Countable Snapshot :=
  inj_countable' (fun s => (snap_id s, snap_kind s, snap_run s, created_at s, label s, parts s,
                            algorithm_id s, meta s))
                 (fun '(i, k, r, c, l, p, a, m) => mkSnapshot i k r c l p a m) _.
Next Obligation. by intros []. Qed.

Record SnapshotRequest : Type := mkRequest {
  req_run : RunId; req_algorithm : string; req_kind : SnapshotKind;
  req_label : option string; req_meta : string;
}.

Inductive RestoreTarget : Type := SameRun | Fork (new_run_id : RunId) | RestoreWorker (worker_id : WorkerId).

Record SnapshotFilter : Type := mkFilter {
  f_run : option RunId; f_kind : option SnapshotKind;
  label_contains : option string; f_limit : option nat;
}.

Record RetentionPolicy : Type := mkRetention {
  keep_last : nat; keep_labeled : bool; max_age : option N;
}.

(** ** key.rs *)
Definition snapshot_key (run_id : RunId) (id : ContentId) : StorageKey :=
  mkKey "snapshots" (Some run_id) [ContentId_to_string id].
Definition run_prefix (run_id : RunId) : StorageKey := mkKey "snapshots" (Some run_id) [].
Definition all_runs_prefix : StorageKey := mkKey "snapshots" None [].

Lemma snapshot_key_known run_id id : known (snapshot_key run_id id).
Proof. unfold known; simpl. set_solver. Qed.
Lemma run_prefix_known run_id : known (run_prefix run_id).
Proof. unfold known; simpl. set_solver. Qed.

(** [String::contains]: the needle starts at some position. *)
Fixpoint str_contains (s needle : string) : bool :=
  if String.prefix needle s then true
  else match s with EmptyString => false | String _ s' => str_contains s' needle end.

(** Newest first: [b.created_at.cmp(&a.created_at)]. *)
Definition newer_le (a b : Snapshot) : bool := bool_decide (created_at b <= created_at a)%N.

Lemma newer_le_total a b : newer_le a b = false -> newer_le b a = true.
Proof. unfold newer_le. rewrite bool_decide_eq_false, bool_decide_eq_true. lia. Qed.
Lemma newer_le_trans a b c : newer_le a b = true -> newer_le b c = true -> newer_le a c = true.
Proof. unfold newer_le. rewrite !bool_decide_eq_true. lia. Qed.

(** ** tar_build.rs: the walk in any order, the entries sorted by path *)
Record stat : Type := mkStat { st_mode : N; st_mtime : N; st_uid : N; st_gid : N }.

Inductive fsnode : Type := DirNode (st : stat) | FileNode (st : stat) (meta_len : nat) (contents : bytes).

Record tar_header : Type := mkHeader {
  h_size : nat; h_mode : N; h_mtime : N; h_uid : N; h_gid : N; h_dir : bool;
}.

Definition tar_transient (e : string) : CoreError := Recoverable (Transient e Never).

Fixpoint path_le (a b : list string) : bool :=
  match a, b with
  | [], _ => true
  | _ :: _, [] => false
  | x :: a', y :: b' =>
      if decide (x = y) then path_le a' b'
      else bytes_le (String.list_byte_of_string x) (String.list_byte_of_string y)
  end.

Definition tar_entry : Type := (list string * result string fsnode)%type.
Definition tar_entry_le (a b : tar_entry) : bool := path_le a.1 b.1.

Lemma list_byte_of_string_inj a b :
  String.list_byte_of_string a = String.list_byte_of_string b -> a = b.
Proof.
  intros H. rewrite <- (String.string_of_list_byte_of_string a), H.
  apply String.string_of_list_byte_of_string.
Qed.

Lemma path_le_antisym a b : path_le a b = true -> path_le b a = true -> a = b.
Proof.
  revert b. induction a as [|x a IH]; intros [|y b]; simpl; try done.
  case_decide as Hxy.
  - rewrite decide_True by done. intros. f_equal; auto.
  - rewrite decide_False by congruence. intros H1 H2. destruct Hxy.
    by apply list_byte_of_string_inj, bytes_le_antisym.
Qed.

Lemma path_le_total a b : path_le a b = false -> path_le b a = true.
Proof.
  revert b. induction a as [|x a IH]; intros [|y b]; simpl; try done.
  case_decide as Hxy; [rewrite decide_True by done; apply IH|].
  rewrite decide_False by congruence. apply bytes_le_total.
Qed.

Lemma path_le_trans a b c : path_le a b = true -> path_le b c = true -> path_le a c = true.
Proof.
  revert b c. induction a as [|x a IH]; intros [|y b] [|z c]; simpl; try done.
  destruct (decide (x = y)) as [->|Hxy].
  - destruct (decide (y = z)); [apply IH|done].
  - destruct (decide (y = z)) as [<-|Hyz]; [by rewrite decide_False by done|].
    intros H1 H2. destruct (decide (x = z)) as [->|Hxz].
    + destruct Hxy. by apply list_byte_of_string_inj, bytes_le_antisym.
    + by eapply bytes_le_trans.
Qed.

Section tar.
(** The [tar] crate's encoding of one entry and of the end of the archive. *)
Context (append_data : bytes -> tar_header -> list string -> bytes -> result string bytes)
  (finish : bytes -> result string bytes).

Definition io_err {A} (r : result string A) : result CoreError A :=
  match r with Ok a => Ok a | Err e => Err (tar_transient e) end.

Fixpoint tar_loop (entries : list tar_entry) (buf : bytes) : result CoreError bytes :=
  match entries with
  | [] => Ok buf
  | (rel, Err e) :: _ => Err (tar_transient e)
  | (rel, Ok (DirNode _)) :: entries' =>
      let? buf := io_err (append_data buf (mkHeader 0 493 0 0 0 true) rel []) in
      tar_loop entries' buf
  | (rel, Ok (FileNode _ len c)) :: entries' =>
      let? buf := io_err (append_data buf (mkHeader len 420 0 0 0 false) rel c) in
      tar_loop entries' buf
  end.

(** Walk entries that cannot be listed are dropped; metadata and read errors end
    the build. *)
Definition build_deterministic_tar (walk : list (result string tar_entry)) : result CoreError bytes :=
  let entries := omap (fun e => match e with Ok x => Some x | Err _ => None end) walk in
  let? buf := tar_loop (sort_by tar_entry_le entries) [] in
  io_err (finish buf).

(** ** What the bytes depend on *)
Definition zero_stat : stat := mkStat 0 0 0 0.
Definition erase (e : tar_entry) : tar_entry :=
  (e.1, match e.2 with
        | Ok (DirNode _) => Ok (DirNode zero_stat)
        | Ok (FileNode _ len c) => Ok (FileNode zero_stat len c)
        | Err x => Err x
        end).
Definition listed (walk : list (result string tar_entry)) : list tar_entry :=
  omap (fun e => match e with Ok x => Some x | Err _ => None end) walk.

Lemma tar_loop_erase es buf : tar_loop (erase <$> es) buf = tar_loop es buf.
Proof. revert buf. induction es as [|[rel [[st|st len c]|e]] es IH]; intros buf; simpl; try done;
  destruct (append_data _ _ _ _); try apply IH; done. Qed.

Lemma erase_paths l : (erase <$> l).*1 = l.*1.
Proof. induction l as [|e l IH]; [done|]. by rewrite !fmap_cons, IH. Qed.

Lemma insert_erase e l :
  insert_by tar_entry_le (erase e) (erase <$> l) = erase <$> insert_by tar_entry_le e l.
Proof.
  induction l as [|y l IH]; [done|]. rewrite fmap_cons. cbn [insert_by]. rewrite IH.
  change (tar_entry_le (erase e) (erase y)) with (tar_entry_le e y). by destruct (tar_entry_le e y).
Qed.

Lemma sort_erase es : sort_by tar_entry_le (erase <$> es) = erase <$> sort_by tar_entry_le es.
Proof.
  induction es as [|e es IH]; [done|]. rewrite fmap_cons.
  change (insert_by tar_entry_le (erase e) (sort_by tar_entry_le (erase <$> es))
          = erase <$> insert_by tar_entry_le e (sort_by tar_entry_le es)).
  by rewrite IH, insert_erase.
Qed.

Lemma sort_entries_unique l1 l2 : l1 ≡ₚ l2 -> NoDup l1.*1 ->
  sort_by tar_entry_le l1 = sort_by tar_entry_le l2.
Proof.
  intros Hp Hnd. apply (StronglySorted_unique_strong (fun a b => tar_entry_le a b = true)).
  - intros x y. rewrite !sort_by_perm, <- Hp. intros Hx Hy Hxy Hyx.
    pose proof (path_le_antisym _ _ Hxy Hyx) as Heq.
    apply list_elem_of_lookup in Hx as [i Hi]. apply list_elem_of_lookup in Hy as [j Hj].
    assert (i = j) as <-; [|congruence]. unfold tar_entry in *.
    apply (NoDup_lookup l1.*1 i j x.1); [exact Hnd|by rewrite list_lookup_fmap, Hi|].
    rewrite list_lookup_fmap, Hj. simpl. by f_equal.
  - apply sort_by_sorted; intros *; [apply path_le_total|apply path_le_trans].
  - apply sort_by_sorted; intros *; [apply path_le_total|apply path_le_trans].
  - by rewrite !sort_by_perm.
Qed.

(** Two directories with the same relative paths and file contents archive to
    the same bytes, or fail alike: neither the order in which the file system lists
    the entries nor their modes, times and owners reach the archive. *)
Theorem tar_is_deterministic walk1 walk2
    (Hsame : erase <$> listed walk1 ≡ₚ erase <$> listed walk2) (Hpaths : NoDup (listed walk1).*1) :
  build_deterministic_tar walk1 = build_deterministic_tar walk2.
Proof.
  unfold build_deterministic_tar. fold (listed walk1) (listed walk2).
  rewrite <- (tar_loop_erase (sort_by _ (listed walk1))), <- (tar_loop_erase (sort_by _ (listed walk2))).
  rewrite <- !sort_erase. rewrite (sort_entries_unique (erase <$> listed walk1) (erase <$> listed walk2)); [done|done|].
  by rewrite erase_paths.
Qed.
End tar.

Section snapshots.
Context {W T : Type} {ST : Storage W T} {SL : StorageLaws W T}.
Context {JC : Codec Snapshot}.   (* serde_json *)

Definition json_decode (bs : bytes) : result CoreError Snapshot :=
  match decode bs with Ok s => Ok s | Err e => Err (internal ("json decode Snapshot: " +:+ e)) end.

(** ** lib.rs *)
Fixpoint find_meta (id : ContentId) (rows : list (StorageKey * bytes)) : result CoreError (option Snapshot) :=
  match rows with
  | [] => Ok None
  | (_, bs) :: rows' =>
      let? snap := json_decode bs in
      if decide (snap_id snap = id) then Ok (Some snap) else find_meta id rows'
  end.

Definition read_meta (id : ContentId) : M W CoreError (option Snapshot) :=
  let* rows := scan_bytes (mkRange all_runs_prefix None) in
  mlift (find_meta id rows).

Definition contract (msg : string) : CoreError := Fatal (PluginContract "rollout-snapshots" msg).

(** The bare trait methods refuse every kind and every target. *)
Definition save (request : SnapshotRequest) : result CoreError Snapshot :=
  match req_kind request with
  | TrainState => Err (contract "TrainState save requires save_train_state(request, accelerate_dir); the bare Snapshotter::save trait method has no place to source the directory from, and is reserved for dir-less kinds (Buffer / EpisodicMemory) — neither implemented in Phase 4.")
  | Buffer => Err (contract "Phase 9: SnapshotKind::Buffer")
  | Process => Err (contract "Phase 11: SnapshotKind::Process")
  | EpisodicMemory => Err (contract "Phase 8: SnapshotKind::EpisodicMemory")
  end.

Definition restore (ulid_text : Ulid -> string) (id : ContentId) (target : RestoreTarget)
  : M W CoreError unit :=
  let* _ := read_meta id in
  match target with
  | SameRun => mthrow (contract ("TrainState restore_train_state(snapshot, dst_dir) is the correct entry point; bare Snapshotter::restore("
                 +:+ ContentId_to_string id +:+ ", SameRun) has no destination directory."))
  | Fork r => mthrow (contract ("Phase 9: Fork restore (new_run_id=" +:+ ulid_text r +:+ ")"))
  | RestoreWorker w => mthrow (contract ("Phase 6: Worker restore (worker_id=" +:+ ulid_text w +:+ ")"))
  end.

Fixpoint decode_all (rows : list (StorageKey * bytes)) : result CoreError (list (StorageKey * Snapshot)) :=
  match rows with
  | [] => Ok []
  | (k, bs) :: rows' =>
      let? s := json_decode bs in
      let? rest := decode_all rows' in
      Ok ((k, s) :: rest)
  end.

Definition kind_matches (f : SnapshotFilter) (s : Snapshot) : bool :=
  match f_kind f with None => true | Some k => bool_decide (snap_kind s = k) end.
Definition label_matches (f : SnapshotFilter) (s : Snapshot) : bool :=
  match label_contains f with
  | None => true
  | Some needle => match label s with Some l => str_contains l needle | None => false end
  end.

Definition select (f : SnapshotFilter) (snaps : list Snapshot) : list Snapshot :=
  let out := filter (fun s => kind_matches f s = true) snaps in
  let out := filter (fun s => label_matches f s = true) out in
  let out := sort_by newer_le out in
  match f_limit f with None => out | Some n => take n out end.

Definition list_snapshots (f : SnapshotFilter) : M W CoreError (list Snapshot) :=
  let* rows := scan_bytes (mkRange (mkKey "snapshots" (f_run f) []) None) in
  let* snaps := mlift (decode_all rows) in
  mret (select f snaps.*2).

(** ** policy.rs *)
Definition keeps (p : RetentionPolicy) (now : N) (idx : nat) (s : Snapshot) : bool :=
  bool_decide (idx < keep_last p)
  || (keep_labeled p && bool_decide (is_Some (label s)))
  || match max_age p with None => false | Some a => bool_decide (now - created_at s < a)%N end.

(** The first row with the id; before it, every row is read. *)
Lemma find_meta_spec id rows :
  match find_meta id rows with
  | Ok (Some snap) => snap_id snap = id /\ exists k bs, (k, bs) ∈ rows /\ decode bs = Ok snap
  | Ok None => forall k bs, (k, bs) ∈ rows -> exists snap, decode bs = Ok snap /\ snap_id snap <> id
  | Err _ => exists k bs, (k, bs) ∈ rows /\ is_ok (decode (A := Snapshot) bs) = false
  end.
Proof.
  induction rows as [|[k bs] rows IH]; simpl; [by intros k bs ?%not_elem_of_nil|].
  unfold json_decode. destruct (decode bs) as [snap|e] eqn:Ed; simpl.
  - case_decide as Hid; [split; [done|]; exists k, bs; split; [apply list_elem_of_here|done]|].
    destruct (find_meta id rows) as [[snap'|]|e].
    + destruct IH as (? & k' & bs' & ? & ?). split; [done|]. exists k', bs'. split; [by apply list_elem_of_further|done].
    + intros k' bs' [[= -> ->]|Hin]%elem_of_cons; [by exists snap|by eapply IH].
    + destruct IH as (k' & bs' & ? & ?). exists k', bs'. split; [by apply list_elem_of_further|done].
  - exists k, bs. split; [apply list_elem_of_here|by rewrite Ed].
Qed.

(** What the policy promises to keep. *)
Definition retained (p : RetentionPolicy) (now : N) (idx : nat) (s : Snapshot) : Prop :=
  idx < keep_last p \/ (keep_labeled p = true /\ is_Some (label s)) \/
  match max_age p with None => False | Some a => (now - created_at s < a)%N end.
#[global] Instance retained_dec p now idx s : Decision (retained p now idx s).
Proof. unfold retained. destruct (max_age p); apply _. Defined.

Lemma keeps_spec p now idx s : keeps p now idx s = bool_decide (retained p now idx s).
Proof.
  apply eq_true_iff_eq. unfold keeps, retained.
  rewrite !orb_true_iff, andb_true_iff, !bool_decide_eq_true.
  destruct (max_age p); [rewrite bool_decide_eq_true|]; naive_solver.
Qed.

(** One round of the deletion loop. *)
Definition prune_one (p : RetentionPolicy) (now : N) (deleted : nat) (e : nat * (StorageKey * Snapshot))
  : M W CoreError nat :=
  let '(idx, (key, snap)) := e in
  if keeps p now idx snap then mret deleted
  else
    let* _ := delete_row key in
    mret (S deleted).

Definition snap_row_le (a b : StorageKey * Snapshot) : bool := newer_le a.2 b.2.

Definition apply_prune (run_id : RunId) (p : RetentionPolicy) (now : N) : M W CoreError nat :=
  let* rows := scan_bytes (mkRange (run_prefix run_id) None) in
  let* snaps := mlift (decode_all rows) in
  mfold (prune_one p now) 0 (imap (fun i x => (i, x)) (sort_by snap_row_le snaps)).

(** The rows the deletion loop gives up on, in its order. *)
Definition victims (p : RetentionPolicy) (now : N) (es : list (nat * (StorageKey * Snapshot)))
  : list StorageKey := (filter (fun e => keeps p now e.1 e.2.2 = false) es).*2.*1.

Lemma decode_all_ok rows l :
  decode_all rows = Ok l -> Forall2 (fun kb ks => kb.1 = ks.1 /\ decode kb.2 = Ok ks.2) rows l.
Proof.
  revert l. induction rows as [|[k bs] rows IH]; intros l; simpl.
  - intros [= <-]. constructor.
  - unfold json_decode. destruct (decode bs) as [s|e] eqn:Hd; [|done].
    cbn [result_bind]. destruct (decode_all rows) as [rest|e]; [|done].
    intros [= <-]. constructor; auto.
Qed.

Lemma decode_all_elem rows l k s :
  decode_all rows = Ok l -> (k, s) ∈ l <-> exists bs, (k, bs) ∈ rows /\ decode bs = Ok s.
Proof.
  intros Hf%decode_all_ok. induction Hf as [|[k1 b1] [k2 s2] rows l [Hk Hd] Hf IH].
  - split; [by intros ?%elem_of_nil|intros (b & ?%elem_of_nil & _); done].
  - simpl in *. subst k2. rewrite elem_of_cons, IH. split.
    + intros [[= -> ->]|(b & Hb & Hs)]; [|exists b; set_solver]. exists b1. set_solver.
    + intros (b & [[= -> ->]|Hb]%elem_of_cons & Hs); [left; congruence|right; eauto].
Qed.

Lemma prune_one_spec p now acc e w : known e.2.1 ->
  wp (prune_one p now acc e) (fun r w' => match r with
    | Ok n => if keeps p now e.1 e.2.2 then n = acc /\ contents w' = contents w
              else n = S acc /\ contents w' = delete e.2.1 (contents w)
    | Err _ => contents w' = contents w
    end) w.
Proof.
  intros Hk. destruct e as [idx [key snap]]; simpl in *. destruct (keeps p now idx snap); [by repeat wp_pure|].
  wp_call delete_row_spec; [done|]. intros [[]|e] s Hs; [wp_pure|]; done.
Qed.

Lemma prune_loop_spec p now es w : Forall (fun e => known e.2.1) es ->
  wp (mfold (prune_one p now) 0 es) (fun r w' =>
    (forall k, k ∉ victims p now es -> contents w' !! k = contents w !! k) /\
    match r with
    | Ok n => n = length (victims p now es) /\ forall k, k ∈ victims p now es -> contents w' !! k = None
    | Err _ => forall k, contents w' !! k = contents w !! k \/ contents w' !! k = None
    end) w.
Proof.
  intros Hes. set (V := victims p now es).
  set (I := fun (acc : nat) (rest : list (nat * (StorageKey * Snapshot))) (w' : W) =>
    Forall (fun e => known e.2.1) rest /\ exists gone, V = gone ++ victims p now rest /\ acc = length gone /\
      forall k, contents w' !! k = if decide (k ∈ gone) then None else contents w !! k).
  eapply wp_mono. { apply (wp_mfold _ I (fun _ w' => exists gone rest, V = gone ++ rest /\
      forall k, contents w' !! k = if decide (k ∈ gone) then None else contents w !! k)).
    - intros acc e rest s (Hks & gone & HV & -> & Hc). inversion Hks as [|? ? He Hr]; subst.
      eapply wp_mono; [by apply prune_one_spec|]. unfold victims in HV. rewrite filter_cons in HV.
      intros [n|x] s' Hp; [|exists gone; eexists; split; [done|]; by rewrite Hp].
      destruct (keeps p now e.1 e.2.2) eqn:Hkeep; destruct Hp as [-> Hs'].
      + rewrite decide_False in HV by done. split; [done|]. exists gone. by rewrite Hs'.
      + rewrite decide_True in HV by done. split; [done|]. exists (gone ++ [e.2.1]).
        rewrite <- app_assoc, length_app. split; [done|]. split; [simpl; lia|].
        intros k. rewrite Hs', lookup_delete, Hc.
        repeat case_decide; set_solver.
    - split; [done|]. exists []. split; [done|]. split; [done|]. intros k. by rewrite decide_False by set_solver. }
  intros [n|x] s.
  - intros (_ & gone & HV & -> & Hc). unfold victims in HV at 1; simpl in HV. rewrite app_nil_r in HV.
    subst gone. split; [intros k Hk; by rewrite Hc, decide_False|].
    split; [done|]. intros k Hk. by rewrite Hc, decide_True.
  - intros (gone & rest & HV & Hc). split; intros k.
    + intros Hk. rewrite Hc, decide_False; [done|]. rewrite HV in Hk. set_solver.
    + rewrite Hc. case_decide; auto.
Qed.

Lemma elem_of_victims p now snaps k :
  k ∈ victims p now (imap (fun i x => (i, x)) snaps) <->
  exists i s, snaps !! i = Some (k, s) /\ keeps p now i s = false.
Proof.
  unfold victims. rewrite list_elem_of_fmap. setoid_rewrite list_elem_of_fmap.
  setoid_rewrite list_elem_of_filter. setoid_rewrite elem_of_lookup_imap. split.
  - intros ([k' s] & -> & [i e] & [= ->] & Hk & i' & x & [= -> ->] & Hx). exists i', x.2. by destruct x.
  - intros (i & s & Hx & Hk). exists (k, s). split; [done|]. exists (i, (k, s)). eauto 8.
Qed.

Lemma range_rows_nodup p rows (m : store) :
  rows ≡ₚ filter (fun kv => in_range p kv.1 = true) (map_to_list m) -> NoDup rows.*1.
Proof.
  intros ->. eapply sublist_NoDup; [apply (NoDup_fst_map_to_list m)|].
  apply fmap_sublist, sublist_filter.
Qed.

(** Pruning a run keeps the [keep_last] newest snapshots, the labelled ones
    when asked to, and those younger than [max_age]; it deletes the rows of all
    other snapshots of the run and no other row of the store, and returns their
    number. A pass that fails half way has only deleted such rows. *)
Theorem apply_prune_spec run_id p now w :
  wp (apply_prune run_id p now) (fun r w' => exists snaps : list (StorageKey * Snapshot),
    StronglySorted (fun a b => created_at b.2 <= created_at a.2)%N snaps /\
    (forall d, r = Ok d -> forall k s, (k, s) ∈ snaps <->
       exists bs, contents w !! k = Some bs /\ in_range (run_prefix run_id) k = true /\ decode bs = Ok s) /\
    (forall i k s, snaps !! i = Some (k, s) ->
       (retained p now i s -> contents w' !! k = contents w !! k) /\
       (~ retained p now i s -> is_ok r = true -> contents w' !! k = None)) /\
    (forall k, k ∉ snaps.*1 -> contents w' !! k = contents w !! k) /\
    (forall k, contents w' !! k = contents w !! k \/ contents w' !! k = None) /\
    (forall d, r = Ok d ->
       d = length (filter (fun e => ~ retained p now e.1 e.2.2) (imap (fun i x => (i, x)) snaps)))) w.
Proof.
  unfold apply_prune. wp_call scan_law; [apply run_prefix_known|by eexists|].
  intros [rows|e] s ((Hc & _) & Hrows).
  2:{ exists []. rewrite Hc. split_and!; try done; try constructor; naive_solver. }
  simpl in Hrows. wp_pure. wp_pure. unfold wp at 1. 
  destruct (decode_all rows) as [l|e] eqn:Hd; simpl.
  2:{ exists []. unfold wp; simpl. rewrite Hc. split_and!; try done; try constructor; naive_solver. }
  set (snaps := sort_by snap_row_le l).
  assert (Hin : forall k s0, (k, s0) ∈ snaps <-> exists bs, contents w !! k = Some bs /\
       in_range (run_prefix run_id) k = true /\ decode bs = Ok s0).
  { intros k s0. unfold snaps. rewrite sort_by_perm, (decode_all_elem rows l) by done.
    setoid_rewrite Hrows. setoid_rewrite list_elem_of_filter. setoid_rewrite elem_of_map_to_list. simpl. naive_solver. }
  assert (Hnd : NoDup snaps.*1).
  { unfold snaps. rewrite sort_by_perm. apply range_rows_nodup in Hrows.
    apply decode_all_ok in Hd. replace (l.*1) with (rows.*1); [done|].
    clear -Hd. induction Hd as [|a b ? ? [He _] ? IH]; [done|]. by rewrite !fmap_cons, He, IH. }
  assert (Hkn : Forall (fun e => known e.2.1) (imap (fun i x => (i, x)) snaps)).
  { rewrite Forall_forall. intros e (i & [k s0] & -> & Hx%list_elem_of_lookup_2)%elem_of_lookup_imap.
    apply Hin in Hx as (bs & _ & Hr & _). simpl. unfold in_range in Hr.
    unfold known. rewrite !andb_true_iff, bool_decide_eq_true in Hr.
    destruct Hr as [[-> _] _]. apply run_prefix_known. }
  eapply wp_mono; [by apply prune_loop_spec|]. intros r s2 [Hkeep Hr]. rewrite Hc in *.
  exists snaps. split_and!.
  - eapply strongly_sorted_impl; [|apply (sort_by_sorted snap_row_le)].
    + intros a b. unfold snap_row_le, newer_le. by rewrite bool_decide_eq_true.
    + intros a b. apply newer_le_total.
    + intros a b c. apply newer_le_trans.
  - intros d _ k s0. apply Hin.
  - intros i k s0 Hi. pose proof (keeps_spec p now i s0) as Hks. split; intros Hret.
    + rewrite (bool_decide_eq_true_2 _ Hret) in Hks. apply Hkeep. rewrite elem_of_victims. intros (j & s1 & Hj & Hk').
      assert (i = j) as <-; [|congruence].
      eapply NoDup_lookup; [exact Hnd|by rewrite list_lookup_fmap, Hi|by rewrite list_lookup_fmap, Hj].
    + rewrite (bool_decide_eq_false_2 _ Hret) in Hks.
      destruct r as [d|]; [|done]. intros _. destruct Hr as [_ Hr]. apply Hr, elem_of_victims. eauto.
  - intros k Hk. apply Hkeep. rewrite elem_of_victims. intros (i & s0 & Hi & _). apply Hk.
    rewrite list_elem_of_fmap. exists (k, s0). split; [done|]. by eapply list_elem_of_lookup_2.
  - intros k. destruct r as [d|]; [|apply Hr]. destruct (decide (k ∈ victims p now (imap (fun i x => (i, x)) snaps))).
    + right. by apply Hr.
    + left. by apply Hkeep.
  - intros d ->. destruct Hr as [-> _]. unfold victims. rewrite !length_fmap. f_equal.
    apply list_filter_iff. intros e. by rewrite keeps_spec, bool_decide_eq_false.
Qed.

(** ** kind/train_state.rs *)
Section train_state.
Context (content_id_of : bytes -> ContentId).
Context {O : Type} {OS : ObjectStore O content_id_of} {OL : ObjectStoreLaws O content_id_of}.
Context {X : Type} (extract_tar : bytes -> result CoreError X).

Definition sworld : Type := (W * O)%type.
Definition lift_w {A} (m : M W CoreError A) : M sworld CoreError A := zoom fst (fun s w => (s, w.2)) m.
Definition lift_o {A} (m : M O CoreError A) : M sworld CoreError A := zoom snd (fun o w => (w.1, o)) m.

Definition save_train_state (request : SnapshotRequest) (tar : result CoreError bytes) (now : N)
  : M sworld CoreError Snapshot :=
  let* tar_bytes := mlift tar in
  let expected_id := content_id_of tar_bytes in
  let* content_id := lift_o (o_put tar_bytes) in
  if decide (content_id <> expected_id) then
    mthrow (contract ("ObjectStore returned mismatched ContentId: expected "
              +:+ ContentId_to_string expected_id +:+ " got " +:+ ContentId_to_string content_id))
  else
    let snapshot := mkSnapshot content_id TrainState (req_run request) now (req_label request)
      [mkPart "tar" content_id (N.of_nat (length tar_bytes))] (req_algorithm request) (req_meta request) in
    let* _ := lift_w (put_row (snapshot_key (snap_run snapshot) (snap_id snapshot)) (encode snapshot)) in
    mret snapshot.

Definition restore_train_state (snapshot : Snapshot) : M sworld CoreError X :=
  match list_find (fun p => role p = "tar") (parts snapshot) with
  | None => mthrow (contract "missing 'tar' part on TrainState snapshot")
  | Some (_, tar_part) =>
      let* tar_bytes := lift_o (o_get (content tar_part)) in
      let actual := content_id_of tar_bytes in
      if decide (actual <> content tar_part) then
        mthrow (contract ("blake3 mismatch on restore: expected " +:+ ContentId_to_string (content tar_part)
                  +:+ " got " +:+ ContentId_to_string actual))
      else mlift (extract_tar tar_bytes)
  end.

(** C17: A training state that was saved restores to what was archived: the save
    leaves a row that decodes to the returned snapshot, and a restore of it hands
    the extractor exactly the archived bytes (no other bytes have their hash), or
    reports an error of the object store. *)
Theorem save_then_restore request tar_bytes now w (Hv : o_valid w.2)
    (Hwf : ContentId_wf (content_id_of tar_bytes))
    (Hunique : forall x, content_id_of x = content_id_of tar_bytes -> x = tar_bytes) :
  wp (save_train_state request (Ok tar_bytes) now) (fun r w1 =>
    match r with
    | Ok snap =>
        contents w1.1 = <[snapshot_key (req_run request) (content_id_of tar_bytes) := encode snap]> (contents w.1) /\
        snap_id snap = content_id_of tar_bytes /\
        wp (restore_train_state snap) (fun r2 w2 => contents w2.1 = contents w1.1 /\
          match r2 with
          | Ok x => extract_tar tar_bytes = Ok x
          | Err e => extract_tar tar_bytes = Err e \/ exists o, fst (o_get (content_id_of tar_bytes) o) = Err e
          end) w1
    | Err _ => contents w1.1 = contents w.1
    end) w.
Proof.
  unfold save_train_state. repeat wp_pure. apply wp_zoom. eapply wp_mono; [by apply o_put_law|].
  intros [id|e] o1 [Hv1 Hr1]; [|done]. destruct Hr1 as (-> & _ & b' & Hb' & _).
  rewrite decide_False by (by intros []). apply wp_bind, wp_zoom. cbn [fst snd snap_run snap_id].
  eapply wp_mono; [apply put_row_spec, snapshot_key_known|]. intros [[]|e] s3 Hs3; simpl; [|done].
  apply wp_ret. simpl. split; [done|]. split; [done|].
  unfold restore_train_state; simpl. apply wp_bind, wp_zoom. simpl.
  pose proof (o_get_law (content_id_of tar_bytes) o1 Hv1) as Hget. unfold wp in Hget |- *.
  destruct (o_get (content_id_of tar_bytes) o1) as [[b|e] o2] eqn:Hg; simpl in *.
  - destruct Hget as (_ & _ & _ & Hid). specialize (Hid Hwf). apply Hunique in Hid. subst b.
    rewrite decide_False by (by intros []).
    unfold mlift; simpl. split; [done|]. destruct (extract_tar tar_bytes); auto.
  - split; [done|]. right. exists o1. by rewrite Hg.
Qed.
End train_state.
End snapshots.

Section snapshot_examples.
#[local] Existing Instance bits_codec.

(** A 32-byte digest: nothing but the archive [ab] hashes to ones. *)
Definition tar_hash (b : bytes) : ContentId :=
  if decide (b = [x61; x62]) then replicate 32 x01 else replicate 32 x00.

#[local] Instance objects_ex : ObjectStore Fs tar_hash := local_objects tar_hash ["root"] (fun _ _ _ => [x7b]) None 5.

Lemma tar_hash_wf b : ContentId_wf (tar_hash b).
Proof. unfold tar_hash. by case_decide. Qed.

Lemma tar_hash_unique x : tar_hash x = tar_hash [x61; x62] -> x = [x61; x62].
Proof.
  unfold tar_hash. rewrite (decide_True (P := [x61; x62] = [x61; x62])) by done. by case_decide.
Qed.

Definition request_ex : SnapshotRequest := mkRequest 1 "sft" TrainState (Some "best") "{}".
Definition w_snap : Mem.World * Fs := (Mem.mkWorld ∅ [] [], mkFs ∅ []).

Lemma save_then_restore_witness :
  is_ok (fst (save_train_state tar_hash request_ex (Ok [x61; x62]) 7 w_snap)) = true /\
  wp (save_train_state tar_hash request_ex (Ok [x61; x62]) 7)
     (fun r w1 => match r with
                  | Ok s => contents w1.1 !! snapshot_key 1 (replicate 32 x01) = Some (encode s)
                  | Err _ => True
                  end) w_snap.
Proof.
  split; [vm_compute; reflexivity|]. eapply wp_mono.
  - refine (save_then_restore tar_hash (OL := local_objects_laws tar_hash ["root"] (fun _ _ _ => [x7b]) tar_hash_wf None 5)
      (X := unit) (fun _ => Ok tt) request_ex [x61; x62] 7 w_snap _ _ tar_hash_unique).
    + intros id b _ Hb. discriminate Hb.
    + apply tar_hash_wf.
  - intros [s|e] w1; [|done]. intros [-> _]. apply lookup_insert_eq.
Defined.

Definition snap_ex (i : byte) (t : N) (l : option string) : Snapshot :=
  mkSnapshot [i] TrainState 1 t l [mkPart "tar" [i] 4] "sft" "{}".
Definition snap_rows : store :=
  list_to_map ((fun s => (snapshot_key 1 (snap_id s), encode s)) <$>
    [snap_ex x01 10 None; snap_ex x02 20 (Some "best"); snap_ex x03 30 None; snap_ex x04 40 None]).

(** Four snapshots, keep the newest and the labelled: the first and the third go. *)
Lemma apply_prune_spec_witness :
  fst (apply_prune 1 (mkRetention 1 true None) 100 (Mem.mkWorld snap_rows [] [])) = Ok 2 /\
  wp (apply_prune 1 (mkRetention 1 true None) 100)
     (fun r w' => forall k, contents w' !! k = snap_rows !! k \/ contents w' !! k = None)
     (Mem.mkWorld snap_rows [] []).
Proof.
  split; [vm_compute; reflexivity|]. eapply wp_mono.
  - apply (apply_prune_spec 1 (mkRetention 1 true None) 100 (Mem.mkWorld snap_rows [] [])).
  - intros r w' (snaps & _ & _ & _ & _ & H & _). exact H.
Defined.

(** Two listings of one directory, in different orders and with other owners. *)
Definition walk_a : list (result string tar_entry) :=
  [Ok (["b"], Ok (FileNode (mkStat 420 9 0 0) 1 [x01])); Ok (["a"], Ok (DirNode (mkStat 493 9 0 0)))].
Definition walk_b : list (result string tar_entry) :=
  [Ok (["a"], Ok (DirNode (mkStat 448 1 7 7))); Ok (["b"], Ok (FileNode (mkStat 384 2 7 7) 1 [x01]))].

Lemma tar_is_deterministic_witness :
  let app := fun buf (_ : tar_header) (_ : list string) c => Ok (buf ++ c ++ [x00]) in
  build_deterministic_tar app Ok walk_a = build_deterministic_tar app Ok walk_b.
Proof.
  intros app. apply (tar_is_deterministic app Ok walk_a walk_b).
  - apply Permutation_swap.
  - apply (bool_decide_eq_true_1 _). vm_compute. reflexivity.
Defined.
End snapshot_examples.
