(* ===== verification/Http.v ===== *)
(** The SSRF-filtered HTTP tools (rollout-harness-tool/src/http): the address
    filter, and the request driver that resolves, filters, pins and re-filters on
    every redirect. *)
From stdpp Require Import base option list strings pretty.
From S2P Require Import Prelude.

(** ** http/connector.rs: octets of an IPv4 address, segments of an IPv6 one *)
Inductive IpAddr : Type :=
| V4 (o0 o1 o2 o3 : N)
| V6 (s0 s1 s2 s3 s4 s5 s6 s7 : N).

#[global] Instance IpAddr_eq_dec : EqDecision IpAddr.
Proof. solve_decision. Defined.

Definition IpAddr_wf (ip : IpAddr) : Prop :=
  match ip with
  | V4 a b c d => (a < 256 /\ b < 256 /\ c < 256 /\ d < 256)%N
  | V6 a b c d e f g h => (a < 65536 /\ b < 65536 /\ c < 65536 /\ d < 65536 /\
                           e < 65536 /\ f < 65536 /\ g < 65536 /\ h < 65536)%N
  end.

Inductive BlockReason : Type :=
| Private | Cgnat | LinkLocal | Loopback | Ipv6LinkLocal | Ipv6UniqueLocal
| Multicast | Unspecified | MappedV4 | NotAllowlisted.

#[global] Instance BlockReason_eq_dec : EqDecision BlockReason.
Proof. solve_decision. Defined.

Definition as_str (r : BlockReason) : string :=
  match r with
  | Private => "RFC1918 private address"
  | Cgnat => "CGNAT shared address space"
  | LinkLocal => "link-local / cloud IMDS (169.254/16)"
  | Loopback => "loopback address"
  | Ipv6LinkLocal => "IPv6 link-local (fe80::/10)"
  | Ipv6UniqueLocal => "IPv6 unique-local (fc00::/7)"
  | Multicast => "multicast address"
  | Unspecified => "unspecified address"
  | MappedV4 => "IPv4-mapped IPv6 wrapping a blocked address"
  | NotAllowlisted => "resolved IP not in egress allowlist"
  end.

Open Scope N_scope.

(** The [std::net] predicates the filter asks. *)
Definition v4_private (o0 o1 : N) : bool :=
  (o0 =? 10) || ((o0 =? 172) && (16 <=? o1) && (o1 <=? 31)) || ((o0 =? 192) && (o1 =? 168)).

Definition blocked_v4 (o0 o1 o2 o3 : N) : option BlockReason :=
  if o0 =? 127 then Some Loopback
  else if (o0 =? 0) && (o1 =? 0) && (o2 =? 0) && (o3 =? 0) then Some Unspecified
  else if (o0 =? 169) && (o1 =? 254) then Some LinkLocal
  else if v4_private o0 o1 then Some Private
  else if ((224 <=? o0) && (o0 <=? 239)) || ((o0 =? 255) && (o1 =? 255) && (o2 =? 255) && (o3 =? 255))
       then Some Multicast
  else if (o0 =? 100) && ((64 <=? o1) && (o1 <=? 127)) then Some Cgnat
  else None.

Definition blocked_v6 (s0 s1 s2 s3 s4 s5 s6 s7 : N) : option BlockReason :=
  let high_zero := (s0 =? 0) && (s1 =? 0) && (s2 =? 0) && (s3 =? 0) && (s4 =? 0) && (s5 =? 0) && (s6 =? 0) in
  if high_zero && (s7 =? 1) then Some Loopback
  else if high_zero && (s7 =? 0) then Some Unspecified
  else if N.land s0 0xff00 =? 0xff00 then Some Multicast
  else if N.land s0 0xffc0 =? 0xfe80 then Some Ipv6LinkLocal
  else if N.land s0 0xfe00 =? 0xfc00 then Some Ipv6UniqueLocal
  else None.

(** [Ipv6Addr::to_ipv4]: the mapped and the compatible form. *)
Definition to_ipv4 (s0 s1 s2 s3 s4 s5 s6 s7 : N) : option (N * N * N * N) :=
  if (s0 =? 0) && (s1 =? 0) && (s2 =? 0) && (s3 =? 0) && (s4 =? 0) && ((s5 =? 0) || (s5 =? 0xffff))
  then Some (s6 / 256, s6 mod 256, s7 / 256, s7 mod 256)
  else None.

Definition blocked_range (ip : IpAddr) : option BlockReason :=
  match ip with
  | V4 a b c d => blocked_v4 a b c d
  | V6 s0 s1 s2 s3 s4 s5 s6 s7 =>
      match to_ipv4 s0 s1 s2 s3 s4 s5 s6 s7 with
      | Some (a, b, c, d) =>
          match blocked_v4 a b c d with
          | Some _ => Some MappedV4
          | None => blocked_v6 s0 s1 s2 s3 s4 s5 s6 s7
          end
      | None => blocked_v6 s0 s1 s2 s3 s4 s5 s6 s7
      end
  end.

Definition filter_ip (ip : IpAddr) (allowlist : list IpAddr) (allow_loopback : bool)
  : option BlockReason :=
  let gate := if negb (bool_decide (allowlist = [])) && negb (bool_decide (ip ∈ allowlist))
              then Some NotAllowlisted else None in
  match blocked_range ip with
  | Some reason =>
      if allow_loopback && bool_decide (reason = Loopback) then gate else Some reason
  | None => gate
  end.

Fixpoint pick_loop (last : BlockReason) (ips allowlist : list IpAddr) (allow_loopback : bool)
  : result BlockReason IpAddr :=
  match ips with
  | [] => Err last
  | ip :: ips' =>
      match filter_ip ip allowlist allow_loopback with
      | None => Ok ip
      | Some r => pick_loop r ips' allowlist allow_loopback
      end
  end.

Definition pick_safe_ip (ips allowlist : list IpAddr) (allow_loopback : bool)
  : result BlockReason IpAddr := pick_loop Unspecified ips allowlist allow_loopback.

(** ** The reference: address ranges as intervals of the 32- and 128-bit integers *)
Definition v4_val (a b c d : N) : N := ((a * 256 + b) * 256 + c) * 256 + d.
Definition v6_val (s0 s1 s2 s3 s4 s5 s6 s7 : N) : N :=
  ((((((s0 * 65536 + s1) * 65536 + s2) * 65536 + s3) * 65536 + s4) * 65536 + s5) * 65536 + s6) * 65536 + s7.

Definition in_block (base len width v : N) : Prop :=
  base * 2 ^ (width - len) <= v < (base + 1) * 2 ^ (width - len).

(** Loopback, unspecified, link-local, the three private blocks, multicast,
    broadcast and shared address space: a block is its prefix and its length. *)
Definition forbidden_v4_blocks : list (N * N) :=
  [(127, 8); (0, 32); (0xa9fe, 16); (10, 8); (0xac1, 12); (0xc0a8, 16); (14, 4); (0xffffffff, 32); (0x191, 10)].
Definition forbidden_v6_blocks : list (N * N) :=
  [(1, 128); (0, 128); (0xff, 8); (0x3fa, 10); (0x7e, 7)].

Definition forbidden_v4 (v : N) : Prop := Exists (fun bl => in_block bl.1 bl.2 32 v) forbidden_v4_blocks.

(** An IPv6 address is forbidden when it is in a v6 block, or when it maps (or, in
    the compatible form, embeds) a forbidden IPv4 address. *)
Definition forbidden (ip : IpAddr) : Prop :=
  match ip with
  | V4 a b c d => forbidden_v4 (v4_val a b c d)
  | V6 s0 s1 s2 s3 s4 s5 s6 s7 =>
      let v := v6_val s0 s1 s2 s3 s4 s5 s6 s7 in
      Exists (fun bl => in_block bl.1 bl.2 128 v) forbidden_v6_blocks \/
      exists x, x < 2 ^ 32 /\ (v = x \/ v = 0xffff * 2 ^ 32 + x) /\ forbidden_v4 x
  end.

(** Every number of [k] bits above the prefix [acc] passes the test. *)
Fixpoint check_bits (P : N -> bool) (k : nat) (acc : N) : bool :=
  match k with
  | O => P acc
  | S k' => check_bits P k' (2 * acc) && check_bits P k' (2 * acc + 1)
  end.

Lemma check_bits_spec P k acc : check_bits P k acc = true ->
  forall s, acc * 2 ^ N.of_nat k <= s < (acc + 1) * 2 ^ N.of_nat k -> P s = true.
Proof.
  revert acc. induction k as [|k IH]; intros acc; cbn [check_bits].
  - change (2 ^ N.of_nat 0) with 1. intros H s Hs. by replace s with acc by lia.
  - rewrite andb_true_iff. intros [H1 H2] s. rewrite Nat2N.inj_succ, N.pow_succ_r'. intros Hs.
    destruct (N.lt_ge_cases s ((2 * acc + 1) * 2 ^ N.of_nat k)).
    + apply (IH _ H1). lia.
    + apply (IH _ H2). lia.
Qed.

Definition prefix_test (s : N) : bool :=
  Bool.eqb (N.land s 0xff00 =? 0xff00) (0xff00 <=? s) &&
  Bool.eqb (N.land s 0xffc0 =? 0xfe80) ((0xfe80 <=? s) && (s <=? 0xfebf)) &&
  Bool.eqb (N.land s 0xfe00 =? 0xfc00) ((0xfc00 <=? s) && (s <=? 0xfdff)).

Lemma segment_prefixes s : s < 65536 ->
  (N.land s 0xff00 =? 0xff00) = (0xff00 <=? s) /\
  (N.land s 0xffc0 =? 0xfe80) = (0xfe80 <=? s) && (s <=? 0xfebf) /\
  (N.land s 0xfe00 =? 0xfc00) = (0xfc00 <=? s) && (s <=? 0xfdff).
Proof.
  intros Hs. assert (prefix_test s = true) as H.
  { apply (check_bits_spec prefix_test 16 0); [vm_compute; reflexivity|simpl; lia]. }
  unfold prefix_test in H. rewrite !andb_true_iff, !Bool.eqb_true_iff in H. tauto.
Qed.

(** Boolean comparisons as propositions. *)
Ltac bools := repeat first
  [ rewrite andb_true_iff in * | rewrite orb_true_iff in * | rewrite andb_false_iff in *
  | rewrite orb_false_iff in * | rewrite N.eqb_eq in * | rewrite N.eqb_neq in *
  | rewrite N.leb_le in * | rewrite N.leb_gt in * ].

(** Compute the bounds of the blocks. *)
Ltac block_bounds := repeat match goal with
  | |- context [?b * 2 ^ (?w - ?l)] =>
      let x := eval vm_compute in (b * 2 ^ (w - l)) in change (b * 2 ^ (w - l)) with x
  end.

Lemma forbidden_v4_bounds v : forbidden_v4 v <->
  0x7f000000 <= v < 0x80000000 \/ v = 0 \/ 0xa9fe0000 <= v < 0xa9ff0000 \/ 0x0a000000 <= v < 0x0b000000 \/
  0xac100000 <= v < 0xac200000 \/ 0xc0a80000 <= v < 0xc0a90000 \/ 0xe0000000 <= v < 0xf0000000 \/
  v = 0xffffffff \/ 0x64400000 <= v < 0x64800000.
Proof.
  unfold forbidden_v4, forbidden_v4_blocks, in_block. rewrite !Exists_cons, Exists_nil. cbn [fst snd]. block_bounds. lia.
Qed.

Lemma blocked_v4_some a b c d : blocked_v4 a b c d <> None <->
  a = 127 \/ (a = 0 /\ b = 0 /\ c = 0 /\ d = 0) \/ (a = 169 /\ b = 254) \/
  (a = 10 \/ (a = 172 /\ 16 <= b <= 31) \/ (a = 192 /\ b = 168)) \/
  (224 <= a <= 239 \/ (a = 255 /\ b = 255 /\ c = 255 /\ d = 255)) \/ (a = 100 /\ 64 <= b <= 127).
Proof.
  unfold blocked_v4.
  rewrite <- (N.eqb_eq a 127).
  assert ((a = 0 /\ b = 0 /\ c = 0 /\ d = 0) <-> (a =? 0) && (b =? 0) && (c =? 0) && (d =? 0) = true) as -> by (bools; tauto).
  assert ((a = 169 /\ b = 254) <-> (a =? 169) && (b =? 254) = true) as -> by (bools; tauto).
  assert ((a = 10 \/ (a = 172 /\ 16 <= b <= 31) \/ (a = 192 /\ b = 168)) <-> v4_private a b = true) as ->
    by (unfold v4_private; bools; tauto).
  assert ((224 <= a <= 239 \/ (a = 255 /\ b = 255 /\ c = 255 /\ d = 255)) <->
    (((224 <=? a) && (a <=? 239)) || ((a =? 255) && (b =? 255) && (c =? 255) && (d =? 255)) = true)) as ->
    by (bools; tauto).
  assert ((a = 100 /\ 64 <= b <= 127) <-> (a =? 100) && ((64 <=? b) && (b <=? 127)) = true) as -> by (bools; tauto).
  destruct (a =? 127), ((a =? 0) && _ && _ && _), ((a =? 169) && _), (v4_private a b), (_ || _), ((a =? 100) && _);
    split; intros; try done; tauto || naive_solver.
Qed.

Lemma blocked_v4_spec a b c d : IpAddr_wf (V4 a b c d) ->
  blocked_v4 a b c d <> None <-> forbidden_v4 (v4_val a b c d).
Proof.
  intros (Ha & Hb & Hc & Hd). rewrite blocked_v4_some, forbidden_v4_bounds. unfold v4_val.
  set (v := ((a * 256 + b) * 256 + c) * 256 + d).
  assert (a = 127 <-> 0x7f000000 <= v < 0x80000000) as -> by lia.
  assert ((a = 0 /\ b = 0 /\ c = 0 /\ d = 0) <-> v = 0) as -> by lia.
  assert ((a = 169 /\ b = 254) <-> 0xa9fe0000 <= v < 0xa9ff0000) as -> by lia.
  assert (a = 10 <-> 0x0a000000 <= v < 0x0b000000) as -> by lia.
  assert ((a = 172 /\ 16 <= b <= 31) <-> 0xac100000 <= v < 0xac200000) as -> by lia.
  assert ((a = 192 /\ b = 168) <-> 0xc0a80000 <= v < 0xc0a90000) as -> by lia.
  assert (224 <= a <= 239 <-> 0xe0000000 <= v < 0xf0000000) as -> by lia.
  assert ((a = 255 /\ b = 255 /\ c = 255 /\ d = 255) <-> v = 0xffffffff) as -> by lia.
  assert ((a = 100 /\ 64 <= b <= 127) <-> 0x64400000 <= v < 0x64800000) as -> by lia.
  tauto.
Qed.

Lemma blocked_v6_spec s0 s1 s2 s3 s4 s5 s6 s7 : IpAddr_wf (V6 s0 s1 s2 s3 s4 s5 s6 s7) ->
  blocked_v6 s0 s1 s2 s3 s4 s5 s6 s7 <> None <->
  Exists (fun bl => in_block bl.1 bl.2 128 (v6_val s0 s1 s2 s3 s4 s5 s6 s7)) forbidden_v6_blocks.
Proof.
  intros (H0 & H1 & H2 & H3 & H4 & H5 & H6 & H7).
  unfold forbidden_v6_blocks, in_block. rewrite !Exists_cons, Exists_nil. cbn [fst snd]. block_bounds.
  unfold v6_val. set (v := (_ * 65536 + s7)).
  destruct (segment_prefixes s0 H0) as (Hm & Hl & Hu).
  unfold blocked_v6. rewrite Hm, Hl, Hu.
  set (hz := (s0 =? 0) && _ && _ && _ && _ && _ && _).
  assert (1 <= v < 2 <-> hz && (s7 =? 1) = true) as -> by (unfold hz; bools; lia).
  assert (0 <= v < 1 <-> hz && (s7 =? 0) = true) as -> by (unfold hz; bools; lia).
  match goal with |- context [?x <= v < ?y \/ ?x2 <= v < ?y2 \/ ?x3 <= v < ?y3 \/ False] =>
    assert (x <= v < y <-> (0xff00 <=? s0) = true) as -> by (bools; lia);
    assert (x2 <= v < y2 <-> (0xfe80 <=? s0) && (s0 <=? 0xfebf) = true) as -> by (bools; lia);
    assert (x3 <= v < y3 <-> (0xfc00 <=? s0) && (s0 <=? 0xfdff) = true) as -> by (bools; lia)
  end.
  clearbody hz. destruct (hz && (s7 =? 1)), (hz && (s7 =? 0)), (0xff00 <=? s0), ((0xfe80 <=? s0) && _), (_ && _);
    split; intros; try done; naive_solver.
Qed.

Lemma to_ipv4_spec s0 s1 s2 s3 s4 s5 s6 s7 : IpAddr_wf (V6 s0 s1 s2 s3 s4 s5 s6 s7) ->
  match to_ipv4 s0 s1 s2 s3 s4 s5 s6 s7 with
  | Some (a, b, c, d) => IpAddr_wf (V4 a b c d) /\
      (v6_val s0 s1 s2 s3 s4 s5 s6 s7 = v4_val a b c d \/
       v6_val s0 s1 s2 s3 s4 s5 s6 s7 = 0xffff * 2 ^ 32 + v4_val a b c d)
  | None => forall x, x < 2 ^ 32 -> v6_val s0 s1 s2 s3 s4 s5 s6 s7 <> x /\
      v6_val s0 s1 s2 s3 s4 s5 s6 s7 <> 0xffff * 2 ^ 32 + x
  end.
Proof.
  intros (H0 & H1 & H2 & H3 & H4 & H5 & H6 & H7). change (2 ^ 32) with 4294967296. unfold to_ipv4, v6_val.
  destruct (_ && ((s5 =? 0) || (s5 =? 0xffff))) eqn:Hc; bools.
  - destruct Hc as (((((-> & ->) & ->) & ->) & ->) & Hs5).
    pose proof (N.div_mod s6 256 ltac:(lia)). pose proof (N.div_mod s7 256 ltac:(lia)).
    pose proof (N.mod_lt s6 256 ltac:(lia)). pose proof (N.mod_lt s7 256 ltac:(lia)).
    generalize dependent (s6 / 256); generalize dependent (s6 mod 256).
    generalize dependent (s7 / 256); generalize dependent (s7 mod 256).
    intros. unfold v4_val, IpAddr_wf. destruct Hs5 as [-> | ->]; (split; [lia|]); [left|right]; lia.
  - intros x Hx. lia.
Qed.

Lemma v4_val_inj_bound a b c d : IpAddr_wf (V4 a b c d) -> v4_val a b c d < 2 ^ 32.
Proof. intros (? & ? & ? & ?). unfold v4_val. change (2 ^ 32) with 4294967296. lia. Qed.

Lemma blocked_range_spec ip : IpAddr_wf ip -> blocked_range ip <> None <-> forbidden ip.
Proof.
  destruct ip as [a b c d|s0 s1 s2 s3 s4 s5 s6 s7]; intros Hwf; [by apply blocked_v4_spec|].
  pose proof (to_ipv4_spec _ _ _ _ _ _ _ _ Hwf) as Hto. pose proof (blocked_v6_spec _ _ _ _ _ _ _ _ Hwf) as H6.
  cbn [blocked_range forbidden]. set (v := v6_val _ _ _ _ _ _ _ _) in *. rewrite <- H6.
  destruct (to_ipv4 s0 s1 s2 s3 s4 s5 s6 s7) as [[[[a b] c] d]|].
  - destruct Hto as [Hwf4 Hv]. pose proof (blocked_v4_spec a b c d Hwf4) as H4.
    pose proof (v4_val_inj_bound a b c d Hwf4) as Hlt.
    assert (Hm : (exists x, x < 2 ^ 32 /\ (v = x \/ v = 0xffff * 2 ^ 32 + x) /\ forbidden_v4 x)
                 <-> forbidden_v4 (v4_val a b c d)).
    { split; [|intros Hf; exists (v4_val a b c d); tauto].
      intros (x & Hx & Hvx & Hf). replace (v4_val a b c d) with x; [done|].
      change (2 ^ 32) with 4294967296 in *. lia. }
    rewrite Hm, <- H4. destruct (blocked_v4 a b c d); [|tauto].
    split; [intros _; right; done|done].
  - split; [by left|]. intros [H|(x & Hx & Hv & _)]; [done|]. specialize (Hto x Hx). tauto.
Qed.

Lemma filter_ip_none ip allowlist : IpAddr_wf ip ->
  filter_ip ip allowlist false = None <-> ~ forbidden ip /\ (allowlist = [] \/ ip ∈ allowlist).
Proof.
  intros Hwf. pose proof (blocked_range_spec ip Hwf) as Hb. unfold filter_ip. cbn [andb].
  destruct (blocked_range ip); [split; [done|]; intros [Hn _]; destruct Hn; by apply Hb|].
  assert (~ forbidden ip) as Hn by (rewrite <- Hb; auto).
  repeat case_bool_decide; simpl; split; intros; try tauto; try done.
Qed.

Lemma pick_loop_ok last ips allowlist lo ip :
  pick_loop last ips allowlist lo = Ok ip -> ip ∈ ips /\ filter_ip ip allowlist lo = None.
Proof.
  revert last. induction ips as [|x ips IH]; intros last; cbn [pick_loop]; [done|].
  destruct (filter_ip x allowlist lo) eqn:Hf.
  - intros [Hin Hn]%IH. set_solver.
  - intros [= ->]. set_solver.
Qed.

Lemma pick_loop_err last ips allowlist lo r :
  pick_loop last ips allowlist lo = Err r -> Forall (fun ip => filter_ip ip allowlist lo <> None) ips.
Proof.
  revert last. induction ips as [|x ips IH]; intros last; cbn [pick_loop]; [done|].
  destruct (filter_ip x allowlist lo) eqn:Hf; [|done]. intros H%IH. by constructor; [rewrite Hf|].
Qed.

(** C19: The production filter admits exactly the addresses outside every
    forbidden block (on the 32- and 128-bit values, IPv4 mapped or embedded in
    IPv6 included) that are on the allowlist when there is one; the address pinned
    is a resolved one the filter admits, and none is pinned only when no resolved
    address is admitted. *)
Theorem pinned_address_is_public ips allowlist (Hwf : Forall IpAddr_wf ips) :
  match pick_safe_ip ips allowlist false with
  | Ok ip => ip ∈ ips /\ ~ forbidden ip /\ (allowlist = [] \/ ip ∈ allowlist)
  | Err _ => forall ip, ip ∈ ips -> forbidden ip \/ (allowlist <> [] /\ ip ∉ allowlist)
  end.
Proof.
  rewrite Forall_forall in Hwf. unfold pick_safe_ip. destruct (pick_loop _ _ _ _) as [ip|r] eqn:Hp.
  - apply pick_loop_ok in Hp as [Hin Hf]. split; [done|]. by apply filter_ip_none; [apply Hwf|].
  - apply pick_loop_err in Hp. rewrite Forall_forall in Hp. intros ip Hin.
    specialize (Hp ip Hin). rewrite filter_ip_none in Hp by auto.
    pose proof (blocked_range_spec ip (Hwf ip Hin)) as Hb.
    destruct (blocked_range ip); [by left; apply Hb|right].
    assert (~ forbidden ip) as Hnf by (rewrite <- Hb; auto).
    destruct (decide (allowlist = [])), (decide (ip ∈ allowlist)); tauto.
Qed.

Close Scope N_scope.

(** ** http/mod.rs *)
Definition MAX_REDIRECTS : N := 5.

Inductive Method : Type := Get | Post.
Definition method_str (m : Method) : string := match m with Get => "GET" | Post => "POST" end.

Inductive HttpError : Type :=
| Blocked (host : string) (reason : BlockReason)
| Resolve (m : string)
| BadUrl (m : string)
| TooManyRedirects
| TimedOut
| Transport (m : string).

Definition http_error_display (e : HttpError) : string :=
  match e with
  | Blocked host reason => "blocked SSRF target " +:+ host +:+ ": " +:+ as_str reason
  | Resolve m => "dns resolution failed: " +:+ m
  | BadUrl m => "bad url: " +:+ m
  | TooManyRedirects => "too many redirects (> " +:+ pretty MAX_REDIRECTS +:+ ")"
  | TimedOut => "request timed out"
  | Transport m => "transport error: " +:+ m
  end.

Record HttpResponse : Type := mkResponse { status : N; body : bytes }.
Record EgressConfig : Type := mkEgress { allowlist : list IpAddr; allow_loopback : bool }.
Definition block_list_only : EgressConfig := mkEgress [] false.

(** The [http] crate's parsed [Uri]. *)
Record Uri : Type := mkUri {
  scheme_str : option string; uri_host : option string; port_u16 : option N;
  authority : option string; path_and_query : option string;
}.

Record SocketAddr : Type := mkAddr { addr_ip : IpAddr; addr_port : N }.
Record HttpRequest : Type := mkHttpRequest {
  rq_method : string; rq_uri : string; rq_host : string; rq_agent : string; rq_body : bytes;
}.
Record Hop : Type := mkHop { hop_status : N; location : option string; hop_body : bytes }.

(** What the driver did to the network, in order. *)
Inductive event : Type :=
| Resolved (host : string)
| Connected (addr : SocketAddr)
| TlsConnected (server_name : string)
| Handshaken
| Sent (req : HttpRequest)
| Collected.

Section fetch.
(** Everything outside: the URL parser, the resolver and the peers.  Each answers
    as it likes, with the whole history in hand; an await answers [None] when the
    deadline fires while it waits. *)
Context (parse_uri : string -> result string Uri) (show_addr : SocketAddr -> string).
Context (resolve : list event -> string -> result string (list IpAddr)).
Context (net_connect : list event -> SocketAddr -> option (result string unit)).
Context (server_name_ok : string -> result string unit).
Context (net_tls : list event -> string -> option (result string unit)).
Context (net_handshake : list event -> option (result string unit)).
Context (build_error : HttpRequest -> option string).
Context (net_send : list event -> HttpRequest -> option (result string (N * option string))).
Context (net_collect : list event -> option (result string bytes)).

Abbreviation H := (list event).

(** Await [answer], recording [ev]; the deadline is [fetch]'s [timeout_at]. *)
Definition await {A} (ev : event) (answer : H -> option (result string A)) (conv : string -> HttpError)
  : M H HttpError A := fun h =>
  match answer h with
  | None => (Err TimedOut, h ++ [ev])
  | Some (Ok a) => (Ok a, h ++ [ev])
  | Some (Err e) => (Err (conv e), h ++ [ev])
  end.

Definition build_request (method : Method) (uri : Uri) (host : string) (b : option bytes)
  : result HttpError HttpRequest :=
  let req := mkHttpRequest (method_str method) (default "/" (path_and_query uri)) host
               "rollout-harness-tool/0.1" (default [] b) in
  match build_error req with
  | None => Ok req
  | Some e => Err (Transport ("build request: " +:+ e))
  end.

Definition drive (req : HttpRequest) : M H HttpError Hop :=
  let* 'p := await (Sent req) (fun h => net_send h req) (fun e => Transport ("send: " +:+ e)) in
  let* b := await Collected net_collect (fun e => Transport ("body: " +:+ e)) in
  mret (mkHop p.1 p.2 b).

Definition send_http (method : Method) (uri : Uri) (host : string) (addr : SocketAddr) (b : option bytes)
  : M H HttpError Hop :=
  let* _ := await (Connected addr) (fun h => net_connect h addr)
              (fun e => Transport ("connect " +:+ show_addr addr +:+ ": " +:+ e)) in
  let* _ := await Handshaken net_handshake (fun e => Transport ("handshake: " +:+ e)) in
  let* req := mlift (build_request method uri host b) in
  drive req.

Definition send_https (method : Method) (uri : Uri) (host : string) (addr : SocketAddr) (b : option bytes)
  : M H HttpError Hop :=
  let* _ := await (Connected addr) (fun h => net_connect h addr)
              (fun e => Transport ("connect " +:+ show_addr addr +:+ ": " +:+ e)) in
  let* _ := mlift (match server_name_ok host with
                   | Ok _ => Ok tt
                   | Err e => Err (BadUrl ("invalid TLS server name " +:+ host +:+ ": " +:+ e))
                   end) in
  let* _ := await (TlsConnected host) (fun h => net_tls h host) (fun e => Transport ("tls handshake: " +:+ e)) in
  let* _ := await Handshaken net_handshake (fun e => Transport ("handshake: " +:+ e)) in
  let* req := mlift (build_request method uri host b) in
  drive req.

Definition one_hop (method : Method) (url : string) (b : option bytes) (egress : EgressConfig)
  : M H HttpError Hop :=
  let* uri := mlift (match parse_uri url with Ok u => Ok u | Err e => Err (BadUrl e) end) in
  let scheme := default "http" (scheme_str uri) in
  if negb (bool_decide (scheme = "http")) && negb (bool_decide (scheme = "https")) then
    mthrow (BadUrl ("unsupported scheme: " +:+ scheme))
  else
  let* host := mlift (match uri_host uri with Some h => Ok h | None => Err (BadUrl "missing host") end) in
  let port := default (if decide (scheme = "https") then 443%N else 80%N) (port_u16 uri) in
  let* ips := (fun h => (match resolve h host with Ok l => Ok l | Err e => Err (Resolve e) end,
                         h ++ [Resolved host])) in
  if decide (ips = []) then mthrow (Resolve ("no addresses for " +:+ host))
  else
  let* pinned := mlift (match pick_safe_ip ips (allowlist egress) (allow_loopback egress) with
                        | Ok ip => Ok ip
                        | Err reason => Err (Blocked host reason)
                        end) in
  let addr := mkAddr pinned port in
  if decide (scheme = "https") then send_https method uri host addr b
  else send_http method uri host addr b.

(** [location.contains("://")]. *)
Fixpoint contains_scheme_sep (s : string) : bool :=
  if String.prefix "://" s then true
  else match s with EmptyString => false | String _ s' => contains_scheme_sep s' end.

Definition resolve_redirect (current loc : string) : result HttpError string :=
  if contains_scheme_sep loc then Ok loc
  else
    let? base := match parse_uri current with Ok u => Ok u | Err e => Err (BadUrl e) end in
    let scheme := default "http" (scheme_str base) in
    let? auth := match authority base with
                 | Some a => Ok a
                 | None => Err (BadUrl "redirect base missing authority")
                 end in
    if String.prefix "/" loc then Ok (scheme +:+ "://" +:+ auth +:+ loc)
    else Ok (scheme +:+ "://" +:+ auth +:+ "/" +:+ loc).

(** The request loop; [None] is fuel run out. *)
Fixpoint fetch_loop (fuel : nat) (method : Method) (current : string) (b : option bytes)
    (egress : EgressConfig) (redirects : N) : M H HttpError (option HttpResponse) :=
  match fuel with
  | O => mret None
  | S fuel' =>
      let* resp := one_hop method current b egress in
      match location resp with
      | Some loc =>
          if bool_decide (300 <= hop_status resp < 400)%N then
            let redirects' := wrap 8 (redirects + 1) in
            if bool_decide (MAX_REDIRECTS < redirects')%N then mthrow TooManyRedirects
            else
              let* next := mlift (resolve_redirect current loc) in
              fetch_loop fuel' method next b egress redirects'
          else mret (Some (mkResponse (hop_status resp) (hop_body resp)))
      | None => mret (Some (mkResponse (hop_status resp) (hop_body resp)))
      end
  end.

Definition fetch (method : Method) (url : string) (b : option bytes) (egress : EgressConfig)
  : M H HttpError (option HttpResponse) := fetch_loop 6 method url b egress 0.

(** A path-absolute [Location] whose query holds a URL is taken for an absolute one
    and handed on without the authority it is relative to. *)
Lemma redirect_with_url_in_query current :
  resolve_redirect current "/login?next=https://example.com/" = Ok "/login?next=https://example.com/".
Proof. reflexivity. Qed.

(** ** No connection to an address that was not just resolved and filtered *)
Definition is_connect (ev : event) : Prop := match ev with Connected _ => True | _ => False end.
#[local] Instance is_connect_dec ev : Decision (is_connect ev).
Proof. destruct ev; apply _. Defined.
Definition connections (h : H) : nat := length (filter is_connect h).

Definition pinned (egress : EgressConfig) (h : H) : Prop :=
  forall pre addr post, h = pre ++ Connected addr :: post -> exists pre0 host ips,
    pre = pre0 ++ [Resolved host] /\ resolve pre0 host = Ok ips /\
    pick_safe_ip ips (allowlist egress) (allow_loopback egress) = Ok (addr_ip addr).

Lemma connections_snoc h ev : ~ is_connect ev -> connections (h ++ [ev]) = connections h.
Proof. intros Hn. unfold connections. rewrite filter_app, length_app, filter_cons_False by done. simpl. lia. Qed.
Lemma connections_connect h addr : connections (h ++ [Connected addr]) = S (connections h).
Proof. unfold connections. rewrite filter_app, length_app. simpl. lia. Qed.

Lemma snoc_split {A} (h pre post : list A) ev x :
  h ++ [ev] = pre ++ x :: post -> (pre = h /\ x = ev /\ post = []) \/ exists post', h = pre ++ x :: post'.
Proof.
  destruct post as [|y post _] using rev_ind.
  - intros [-> ->]%app_inj_tail. by left.
  - rewrite app_comm_cons, app_assoc. intros [-> _]%app_inj_tail. right. by exists post.
Qed.

Lemma pinned_snoc egress h ev : ~ is_connect ev -> pinned egress h -> pinned egress (h ++ [ev]).
Proof.
  intros Hn Hp pre addr post Heq. apply snoc_split in Heq as [(_ & <- & _)|[post' Heq]]; [done|]. by eapply Hp.
Qed.

Lemma pinned_connect egress h host ips addr : pinned egress (h ++ [Resolved host]) ->
  resolve h host = Ok ips -> pick_safe_ip ips (allowlist egress) (allow_loopback egress) = Ok (addr_ip addr) ->
  pinned egress ((h ++ [Resolved host]) ++ [Connected addr]).
Proof.
  intros Hp Hr Hs pre a post Heq. apply snoc_split in Heq as [(-> & [= ->] & _)|[post' Heq]]; [|by eapply Hp].
  exists h, host, ips. done.
Qed.

Lemma wp_await {A} ev (answer : H -> option (result string A)) conv (Q : result HttpError A -> H -> Prop) h :
  (forall r, Q r (h ++ [ev])) -> wp (await ev answer conv) Q h.
Proof. intros HQ. unfold wp, await. by destruct (answer h) as [[a|e]|]. Qed.

(** What a hop keeps after its connection is made. *)
Definition after (egress : EgressConfig) (n : nat) (h : H) : Prop := pinned egress h /\ connections h = n.

Lemma after_snoc egress n h ev : ~ is_connect ev -> after egress n h -> after egress n (h ++ [ev]).
Proof. intros Hn [Hp Hc]. split; [by apply pinned_snoc|]. by rewrite connections_snoc. Qed.

(** The awaits after the connection keep it so. *)
Ltac quiet := repeat (apply after_snoc; [by intros []|]); done.

Lemma drive_after egress n req h : after egress n h -> wp (drive req) (fun _ => after egress n) h.
Proof.
  intros Ha. unfold drive. apply wp_bind, wp_await. intros [p|e]; [|quiet].
  apply wp_bind, wp_await. intros [b|e]; [apply wp_ret|]; quiet.
Qed.

Lemma send_tail_after egress n method uri host b h : after egress n h ->
  wp (let* _ := await Handshaken net_handshake (fun e => Transport ("handshake: " +:+ e)) in
      let* req := mlift (build_request method uri host b) in drive req) (fun _ => after egress n) h.
Proof.
  intros Ha. apply wp_bind, wp_await. intros [u|e]; [|quiet].
  apply wp_bind, wp_lift. destruct (build_request method uri host b); [apply drive_after|]; quiet.
Qed.

Lemma one_hop_pinned method url b egress h : pinned egress h ->
  wp (one_hop method url b egress) (fun _ h' => pinned egress h' /\ connections h' <= S (connections h)) h.
Proof.
  intros Hp. unfold one_hop. apply wp_bind, wp_lift. destruct (parse_uri url) as [uri|e]; [|auto with lia].
  destruct (_ && _); [apply wp_throw; auto with lia|].
  apply wp_bind, wp_lift. destruct (uri_host uri) as [host|]; [|auto with lia].
  apply wp_bind. unfold wp at 1; cbn [fst snd].
  assert (pinned egress (h ++ [Resolved host])) as Hp' by (apply pinned_snoc; [by intros []|done]).
  assert (connections (h ++ [Resolved host]) = connections h) as Hc by (apply connections_snoc; by intros []).
  destruct (resolve h host) as [ips|e] eqn:Hr; [|split; [done|lia]].
  case_decide; [apply wp_throw; split; [done|lia]|].
  apply wp_bind, wp_lift. destruct (pick_safe_ip ips _ _) as [ip|r] eqn:Hpick; [|split; [done|lia]].
  set (addr := mkAddr ip _).
  assert (after egress (S (connections h)) ((h ++ [Resolved host]) ++ [Connected addr])) as Ha.
  { split; [by eapply pinned_connect|]. by rewrite connections_connect, Hc. }
  apply (wp_mono _ (fun _ => after egress (S (connections h)))); [|intros r h' [H1 H2]; split; [exact H1|lia]].
  case_decide; unfold send_https, send_http; apply wp_bind, wp_await; intros [u|e]; try done.
  - apply wp_bind, wp_lift. destruct (server_name_ok host); [|done].
    apply wp_bind, wp_await. intros [u'|e]; [|quiet]. apply send_tail_after. quiet.
  - by apply send_tail_after.
Qed.

Lemma fetch_loop_pinned fuel method current b egress redirects h :
  pinned egress h -> (redirects + N.of_nat fuel = 6)%N -> 0 < fuel ->
  wp (fetch_loop fuel method current b egress redirects)
     (fun r h' => pinned egress h' /\ connections h' <= connections h + fuel /\ r <> Ok None) h.
Proof.
  revert current redirects h. induction fuel as [|fuel IH]; intros current redirects h Hp Hsum Hpos; [lia|].
  cbn [fetch_loop]. apply wp_bind. eapply wp_mono; [by apply one_hop_pinned|].
  intros [resp|e] h1 [Hp1 Hc1]; [|split_and!; [done|lia|done]].
  destruct (location resp) as [loc|]; [|apply wp_ret; split_and!; [done|lia|done]].
  case_bool_decide; [|apply wp_ret; split_and!; [done|lia|done]].
  rewrite wrap_small by (simpl; lia). case_bool_decide as Hmax; [apply wp_throw; split_and!; [done|lia|done]|].
  unfold MAX_REDIRECTS in Hmax. apply wp_bind, wp_lift.
  destruct (resolve_redirect current loc) as [next|e]; [|split_and!; [done|lia|done]].
  eapply wp_mono; [apply IH; [done|lia|lia]|]. intros r h2 (H1 & H2 & H3). split_and!; [done|lia|done].
Qed.

(** C18: Whatever a resolver and the peers answer, redirects included, a request
    in production (no loopback allowance) only ever connects to an address that the
    lookup made just before returned, that is outside every forbidden block and that is
    on the egress allowlist when there is one; it opens at most six connections, and
    ends (it never loops). *)
Theorem fetch_never_connects_inside method url b egress
    (Hprod : allow_loopback egress = false)
    (Htyped : forall h host ips, resolve h host = Ok ips -> Forall IpAddr_wf ips) :
  wp (fetch method url b egress) (fun r h =>
    (forall pre addr post, h = pre ++ Connected addr :: post -> ~ forbidden (addr_ip addr) /\
       (allowlist egress = [] \/ addr_ip addr ∈ allowlist egress) /\
       exists pre0 host ips, pre = pre0 ++ [Resolved host] /\ resolve pre0 host = Ok ips /\ addr_ip addr ∈ ips) /\
    connections h <= 6 /\ r <> Ok None) [].
Proof.
  eapply wp_mono; [apply fetch_loop_pinned; [|done|lia]|].
  - intros pre addr post Heq. by destruct pre.
  - intros r h (Hp & Hc & Hr). split_and!; [|done|done]. intros pre addr post Heq.
    destruct (Hp pre addr post Heq) as (pre0 & host & ips & -> & Hres & Hpick).
    rewrite Hprod in Hpick. apply pick_loop_ok in Hpick as [Hin Hf].
    specialize (Htyped _ _ _ Hres). rewrite Forall_forall in Htyped.
    apply filter_ip_none in Hf as [Hnf Hal]; [|by apply Htyped]. split_and!; [done..|]. by exists pre0, host, ips.
Qed.
End fetch.

Section http_examples.
Lemma pinned_address_is_public_witness :
  pick_safe_ip [V4 169 254 169 254; V6 0 0 0 0 0 65535 32512 1; V4 93 184 216 34] [] false = Ok (V4 93 184 216 34) /\
  ~ forbidden (V4 93 184 216 34).
Proof.
  split; [reflexivity|].
  pose proof (pinned_address_is_public [V4 169 254 169 254; V6 0 0 0 0 0 65535 32512 1; V4 93 184 216 34] []) as H.
  simpl in H. apply H. repeat constructor.
Defined.

(** A resolver that rebinds: a public address at first, the metadata service on the
    second lookup; the peer redirects back to its own name.  With an allowlist the first
    lookup is already refused. *)
Definition uri_ex : Uri := mkUri (Some "http") (Some "evil.test") None (Some "evil.test") (Some "/").
Definition rebind (h : list event) (_ : string) : result string (list IpAddr) :=
  Ok (if decide (h = []) then [V4 93 184 216 34] else [V4 169 254 169 254]).
Definition fetch_ex (egress : EgressConfig) : M (list event) HttpError (option HttpResponse) :=
  fetch (fun _ => Ok uri_ex) (fun _ => "93.184.216.34:80") rebind (fun _ _ => Some (Ok tt)) (fun _ => Ok tt)
    (fun _ _ => Some (Ok tt)) (fun _ => Some (Ok tt)) (fun _ => None)
    (fun _ _ => Some (Ok (302%N, Some "http://evil.test/"))) (fun _ => Some (Ok [])) Get "http://evil.test/" None
    egress.
Definition one_public : EgressConfig := mkEgress [V4 93 184 216 35] false.

Lemma fetch_never_connects_inside_witness :
  fst (fetch_ex block_list_only []) = Err (Blocked "evil.test" LinkLocal) /\
    is_ok (fst (fetch_ex one_public [])) = false /\ connections (snd (fetch_ex one_public [])) = 0 /\
  wp (fetch_ex one_public) (fun r h => (forall pre addr post, h = pre ++ Connected addr :: post -> addr_ip addr = V4 93 184 216 35) /\
    connections h <= 6 /\ r <> Ok None) [].
Proof.
  split; [vm_compute; reflexivity|]. split; [vm_compute; reflexivity|]. split; [vm_compute; reflexivity|].
  eapply wp_mono.
  - apply (fetch_never_connects_inside (fun _ => Ok uri_ex) (fun _ => "93.184.216.34:80") rebind
      (fun _ _ => Some (Ok tt)) (fun _ => Ok tt) (fun _ _ => Some (Ok tt)) (fun _ => Some (Ok tt)) (fun _ => None)
      (fun _ _ => Some (Ok (302%N, Some "http://evil.test/"))) (fun _ => Some (Ok [])) Get "http://evil.test/" None
      one_public).
    + reflexivity.
    + intros h host ips. unfold rebind. case_decide; intros [= <-]; repeat constructor.
  - intros r h (Hc & H). split; [|exact H]. intros pre addr post Heq.
    destruct (Hc pre addr post Heq) as (_ & [Ha|Ha] & _); [discriminate Ha|]. by apply list_elem_of_singleton in Ha.
Defined.
End http_examples.
