(* ===== verification/Workers.v ===== *)
(** The worker registry (rollout-coordinator/src/{registry,heartbeat,failure_scan}.rs),
    deadline health and the timing configuration (rollout-transport/src/{health,config}.rs,
    rollout-coordinator/src/config.rs). *)
From stdpp Require Import base option list gmap strings.
From S2P Require Import Prelude.
From S2P Require Import Core.
From S2P Require Import Storage.
From S2P Require Import Events.

(** [SystemTime] and [Duration]: nanoseconds, a time counted from the UNIX epoch. *)
Abbreviation SystemTime := Z.
Abbreviation Duration := N.
Open Scope N_scope.

(** ** health.rs *)
Definition next_due_at (now : SystemTime) (hb_interval : Duration) : SystemTime :=
  (now + Z.of_N (hb_interval * 2))%Z.

Definition is_failed (now due_at : SystemTime) (skew coord_timeout : Duration) : bool :=
  if decide (now < due_at)%Z then false
  else
    let elapsed_past_due := Z.to_N (now - due_at) in
    bool_decide (skew < elapsed_past_due) && bool_decide (coord_timeout < elapsed_past_due).

Lemma is_failed_spec now due skew timeout :
  is_failed now due skew timeout = true <-> (due + Z.of_N (skew `max` timeout) < now)%Z.
Proof.
  unfold is_failed. case_decide; [split; [done|lia]|].
  rewrite andb_true_iff, !bool_decide_eq_true. lia.
Qed.

(** ** transport/config.rs and coordinator/config.rs: the timing fields *)
Record TransportConfig : Type := mkTransport {
  heartbeat_interval : Duration;
  worker_self_fence_timeout : Duration;
  coordinator_failure_timeout : Duration;
  clock_skew_budget : Duration;
}.

Definition ms (n : N) : Duration := n * 1000000.
Definition TransportConfig_default : TransportConfig := mkTransport (ms 500) (ms 4000) (ms 5000) (ms 250).

Definition push_if (b : bool) (msg : string) (errs : list string) : list string :=
  if b then errs ++ [msg] else errs.

Definition validate_cross_fields (c : TransportConfig) : result (list string) unit :=
  let errs := [] in
  let errs := push_if (bool_decide (coordinator_failure_timeout c <= worker_self_fence_timeout c))
    "transport.worker_self_fence_timeout must be strictly less than transport.coordinator_failure_timeout (split-brain prevention)" errs in
  let errs := push_if (bool_decide (heartbeat_interval c * 2 <= clock_skew_budget c))
    "transport.clock_skew_budget must be less than 2 × transport.heartbeat_interval" errs in
  match errs with [] => Ok tt | _ => Err errs end.

Definition lease_ttl (c : TransportConfig) : Duration := coordinator_failure_timeout c.
Definition lease_renew_interval (c : TransportConfig) : Duration := heartbeat_interval c.

Definition validate (c : TransportConfig) : result (list string) unit :=
  let violations := match validate_cross_fields c with Ok _ => [] | Err v => v end in
  let violations := push_if (bool_decide (lease_ttl c <> coordinator_failure_timeout c))
    "coordinator lease TTL must equal transport.coordinator_failure_timeout" violations in
  let violations := push_if (bool_decide (lease_ttl c <= lease_renew_interval c))
    "coordinator lease renew cadence must be strictly less than the lease TTL (coordinator_failure_timeout)" violations in
  match violations with [] => Ok tt | _ => Err violations end.

Lemma validate_ok c : validate c = Ok tt <->
  worker_self_fence_timeout c < coordinator_failure_timeout c /\
  clock_skew_budget c < heartbeat_interval c * 2 /\ heartbeat_interval c < coordinator_failure_timeout c.
Proof.
  unfold validate, validate_cross_fields, lease_ttl, lease_renew_interval.
  set (b1 := bool_decide (coordinator_failure_timeout c <= worker_self_fence_timeout c)).
  set (b2 := bool_decide (heartbeat_interval c * 2 <= clock_skew_budget c)).
  set (b4 := bool_decide (coordinator_failure_timeout c <= heartbeat_interval c)).
  rewrite (bool_decide_eq_false_2 (coordinator_failure_timeout c <> _)) by auto.
  assert (worker_self_fence_timeout c < coordinator_failure_timeout c <-> b1 = false) as ->
    by (unfold b1; rewrite bool_decide_eq_false; lia).
  assert (clock_skew_budget c < heartbeat_interval c * 2 <-> b2 = false) as ->
    by (unfold b2; rewrite bool_decide_eq_false; lia).
  assert (heartbeat_interval c < coordinator_failure_timeout c <-> b4 = false) as ->
    by (unfold b4; rewrite bool_decide_eq_false; lia).
  destruct b1, b2, b4; simpl; naive_solver.
Qed.

(** Under a configuration that validates, a coordinator declares a worker
    failed only after the worker's own fence has run out since its last beat, so
    the worker has stopped before its work is given away; the lease is renewed
    more often than it expires; and the defaults validate. *)
Theorem fence_before_failure c last_beat now
    (Hvalid : validate c = Ok tt)
    (Hfailed : is_failed now (next_due_at last_beat (heartbeat_interval c)) (clock_skew_budget c)
                 (coordinator_failure_timeout c) = true) :
  (last_beat + Z.of_N (worker_self_fence_timeout c) + 2 * Z.of_N (heartbeat_interval c) < now)%Z /\
  lease_renew_interval c < lease_ttl c /\ validate TransportConfig_default = Ok tt.
Proof.
  apply validate_ok in Hvalid as (H1 & H2 & H3). apply is_failed_spec in Hfailed.
  unfold next_due_at, lease_renew_interval, lease_ttl in *. split; [lia|]. split; [lia|reflexivity].
Qed.

(** ** registry.rs *)
Record WorkerRegistryEntry : Type := mkEntry { we_worker : string; we_run : string; registered_at_ms : N }.
Record HeartbeatRecord : Type := mkBeat {
  hr_worker : string; hr_run : string; hr_state : Z; due_at_ms : N; received_at_ms : N;
}.
#[global] Instance WorkerRegistryEntry_eq_dec : EqDecision WorkerRegistryEntry.
Proof. solve_decision. Defined.
#[global] Program Instance WorkerRegistryEntry_countable : Countable WorkerRegistryEntry :=
  inj_countable' (fun e => (we_worker e, we_run e, registered_at_ms e)) (fun '(a, b, c) => mkEntry a b c) _.
Next Obligation. by intros []. Qed.
#[global] Instance HeartbeatRecord_eq_dec : EqDecision HeartbeatRecord.
Proof. solve_decision. Defined.
#[global] Program Instance HeartbeatRecord_countable : Countable HeartbeatRecord :=
  inj_countable' (fun h => (hr_worker h, hr_run h, hr_state h, due_at_ms h, received_at_ms h))
                 (fun '(a, b, c, d, e) => mkBeat a b c d e) _.
Next Obligation. by intros []. Qed.

Inductive WorkerState : Type := Init | Ready | Running | Draining.
Definition state_to_i32 (s : WorkerState) : Z :=
  match s with Init => 1 | Ready => 2 | Running => 3 | Draining => 4 end%Z.

(** [ms_to_systime]: [UNIX_EPOCH + Duration] panics when the seconds do not fit
    the signed 64 bits of a [SystemTime]. *)
Definition ms_to_systime (m : N) : outcome SystemTime :=
  let secs := if bool_decide (m / 1000 < 2 ^ 64) then m / 1000 else 0 in
  let sub_nanos := (m mod 1000) * 1000000 in
  if bool_decide (2 ^ 63 <= secs) then Panic "overflow when adding duration to instant"
  else Value (Z.of_N (secs * 1000000000 + sub_nanos)).

(** [due_at.duration_since(UNIX_EPOCH).map(as_millis).unwrap_or(0)]. *)
Definition systime_to_ms (t : SystemTime) : N := Z.to_N (t / 1000000).

Record Heartbeat : Type := mkHeartbeat {
  hb_worker : WorkerId; hb_run : RunId; hb_state : WorkerState; hb_due_at : SystemTime;
}.

Section workers.
Context {W T : Type} {ST : Storage W T} {SL : StorageLaws W T} {UT : UlidText}.
Context {RC : Codec WorkerRegistryEntry} {HC : Codec HeartbeatRecord}.
Context {E : Type} {EM : Emitter E} {EL : EmitterLaws E}.

Definition worker_key (id : WorkerId) : StorageKey := mkKey "workers" None [ulid_string id].
Definition heartbeat_key (id : WorkerId) : StorageKey := mkKey "heartbeats" None [ulid_string id].

Lemma worker_key_known id : known (worker_key id).
Proof. unfold known; simpl. set_solver. Qed.
Lemma heartbeat_key_known id : known (heartbeat_key id).
Proof. unfold known; simpl. set_solver. Qed.
Lemma ulid_string_inj u v : ulid_string u = ulid_string v -> u = v.
Proof. intros H. apply (f_equal ulid_parse) in H. rewrite !ulid_parse_string in H. congruence. Qed.

(** The coordinator's storage, its emitter, and the [worker_failed] warnings of
    its log. *)
Record World : Type := mkWorld { c_store : W; c_emitter : E; c_warned : list string }.

Definition on_store {A} (m : M W CoreError A) : M World CoreError A :=
  zoom c_store (fun s w => mkWorld s (c_emitter w) (c_warned w)) m.
Definition on_emitter {A} (m : M E CoreError A) : M World CoreError A :=
  zoom c_emitter (fun e w => mkWorld (c_store w) e (c_warned w)) m.

(** ** heartbeat.rs *)
Definition make_event (run_id : RunId) (worker : WorkerId) (t : string) : Event :=
  mkEvent t Info (Some run_id) (Some worker) [].

Definition register (run_id : RunId) (worker : WorkerId) (now_ms : N) : M World CoreError unit :=
  let entry := mkEntry (ulid_string worker) (ulid_string run_id) now_ms in
  let* _ := on_store (put_row (worker_key worker) (encode entry)) in
  on_emitter (emit (make_event run_id worker "worker_registered")).

Definition deregister (run_id : RunId) (worker : WorkerId) : M World CoreError unit :=
  let* _ := on_store (
    let* txn := begin_txn in
    let* txn := delete_key txn (worker_key worker) in
    let* txn := delete_key txn (heartbeat_key worker) in
    commit txn) in
  on_emitter (emit (make_event run_id worker "worker_deregistered")).

Definition heartbeat_record (hb : Heartbeat) (now_ms : N) : HeartbeatRecord :=
  mkBeat (ulid_string (hb_worker hb)) (ulid_string (hb_run hb)) (state_to_i32 (hb_state hb))
         (systime_to_ms (hb_due_at hb)) now_ms.

Definition heartbeat (run_id : RunId) (hb : Heartbeat) (now_ms : N) : M World CoreError unit :=
  let* existing := on_store (get_bytes (worker_key (hb_worker hb))) in
  let* _ := (if decide (existing = None) then register run_id (hb_worker hb) now_ms else mret tt) in
  let rec := heartbeat_record hb now_ms in
  let* _ := on_store (put_row (heartbeat_key (hb_worker hb)) (encode rec)) in
  on_emitter (emit (make_event run_id (hb_worker hb) "worker_heartbeat")).

Lemma wp_emit ev (P : result CoreError unit -> World -> Prop) w :
  (forall r e, attempts e = attempts (c_emitter w) ++ [ev] -> P r (mkWorld (c_store w) e (c_warned w))) ->
  wp (on_emitter (emit ev)) P w.
Proof.
  intros HP. unfold wp, on_emitter, zoom. pose proof (emit_law ev (c_emitter w)) as Hl. unfold wp in Hl.
  destruct (emit ev (c_emitter w)) as [r e]. by apply HP.
Qed.

Lemma register_spec run_id worker now_ms w :
  wp (register run_id worker now_ms) (fun r w' =>
    let m' := <[worker_key worker := encode (mkEntry (ulid_string worker) (ulid_string run_id) now_ms)]>
                (contents (c_store w)) in
    contents (c_store w') = m' \/ (is_ok r = false /\ contents (c_store w') = contents (c_store w))) w.
Proof.
  unfold register. apply wp_bind, wp_zoom. eapply wp_mono; [apply put_row_spec, worker_key_known|].
  intros [[]|e] s Hs; [|by right]. apply wp_emit. intros r e _. by left.
Qed.

Lemma deregister_spec run_id worker w :
  wp (deregister run_id worker) (fun r w' =>
    contents (c_store w') = delete (heartbeat_key worker) (delete (worker_key worker) (contents (c_store w))) \/
    (is_ok r = false /\ contents (c_store w') = contents (c_store w))) w.
Proof.
  unfold deregister. apply wp_bind, wp_zoom.
  wp_call begin_law. intros [t|e] s1 ((Hc1 & _) & Ht); [destruct Ht as [Hv _]|by right].
  wp_call delete_law; [apply worker_key_known|].
  intros [t2|e] s2 ((Hc2 & _) & Ht2); [destruct Ht2 as [Hv2 _]|right; simpl; split; congruence].
  wp_call delete_law; [apply heartbeat_key_known|].
  intros [t3|e] s3 ((Hc3 & _) & Ht3); [destruct Ht3 as [Hv3 _]|right; simpl; split; congruence].
  eapply wp_mono; [apply commit_law|]. intros [[]|e] s4 (_ & Hr).
  - apply wp_emit. intros r e _. left. simpl. destruct Hr as [-> _]. congruence.
  - right. destruct Hr as (_ & Hr & _). simpl. split; congruence.
Qed.

(** ** What the two namespaces hold *)
Inductive registry_op : Type :=
| Register (worker : WorkerId) (now_ms : N)
| Deregister (worker : WorkerId)
| Beat (hb : Heartbeat) (now_ms : N).

Definition run_op (run_id : RunId) (op : registry_op) : M World CoreError unit :=
  match op with
  | Register worker now_ms => register run_id worker now_ms
  | Deregister worker => deregister run_id worker
  | Beat hb now_ms => heartbeat run_id hb now_ms
  end.

(** The service: each call answers its own caller, the next one runs anyway. *)
Definition serve (run_id : RunId) (ops : list registry_op) : M World CoreError unit :=
  mfold (fun _ op => let* _ := mcatch (run_op run_id op) in mret tt) tt ops.

Definition registered (m : store) : Prop :=
  forall worker, is_Some (m !! heartbeat_key worker) -> is_Some (m !! worker_key worker).

Lemma key_ne worker v : heartbeat_key worker <> worker_key v.
Proof. unfold heartbeat_key, worker_key. congruence. Qed.

Lemma registered_put_worker m worker v : registered m -> registered (<[worker_key worker := v]> m).
Proof.
  intros Hm u. rewrite lookup_insert_ne by (intros H; by apply (key_ne u worker)).
  intros Hu%Hm. destruct (decide (worker_key worker = worker_key u)) as [->|Hne].
  - rewrite lookup_insert_eq. by eexists.
  - by rewrite lookup_insert_ne.
Qed.

Lemma registered_put_beat m worker v : is_Some (m !! worker_key worker) -> registered m ->
  registered (<[heartbeat_key worker := v]> m).
Proof.
  intros Hw Hm u. rewrite (lookup_insert_ne _ _ (worker_key u)) by apply key_ne.
  destruct (decide (u = worker)) as [->|Hne]; [done|].
  rewrite lookup_insert_ne; [apply Hm|]. intros [= H]. apply Hne. by apply ulid_string_inj.
Qed.

Lemma registered_delete m worker : registered m ->
  registered (delete (heartbeat_key worker) (delete (worker_key worker) m)).
Proof.
  intros Hm u. destruct (decide (u = worker)) as [->|Hne].
  - rewrite lookup_delete_eq. by intros [? ?].
  - assert (ulid_string worker <> ulid_string u) as Hs by (intros ?%ulid_string_inj; congruence).
    rewrite (lookup_delete_ne _ _ (heartbeat_key u)) by (unfold heartbeat_key; congruence).
    rewrite (lookup_delete_ne _ _ (heartbeat_key u)) by (unfold heartbeat_key, worker_key; congruence).
    rewrite (lookup_delete_ne _ _ (worker_key u)) by (unfold heartbeat_key, worker_key; congruence).
    rewrite (lookup_delete_ne _ _ (worker_key u)) by (unfold worker_key; congruence). apply Hm.
Qed.

Lemma heartbeat_spec run_id hb now_ms w : registered (contents (c_store w)) ->
  wp (heartbeat run_id hb now_ms) (fun r w' => registered (contents (c_store w')) /\
    (is_ok r = true -> contents (c_store w') !! heartbeat_key (hb_worker hb) = Some (encode (heartbeat_record hb now_ms)))) w.
Proof.
  intros Hm. unfold heartbeat. apply wp_bind, wp_zoom.
  eapply wp_mono; [apply get_law, worker_key_known|]. intros [row|e] s1 ((Hc1 & _) & Hrow); simpl in *.
  2:{ by rewrite Hc1. }
  assert (forall w2, registered (contents (c_store w2)) -> is_Some (contents (c_store w2) !! worker_key (hb_worker hb)) ->
    wp (let* _ := on_store (put_row (heartbeat_key (hb_worker hb)) (encode (heartbeat_record hb now_ms))) in
        on_emitter (emit (make_event run_id (hb_worker hb) "worker_heartbeat")))
       (fun r w' => registered (contents (c_store w')) /\
         (is_ok r = true -> contents (c_store w') !! heartbeat_key (hb_worker hb) = Some (encode (heartbeat_record hb now_ms)))) w2) as Htail.
  { intros w2 Hm2 Hw2. apply wp_bind, wp_zoom. eapply wp_mono; [apply put_row_spec, heartbeat_key_known|].
    intros [[]|e] s Hs; simpl; [|by rewrite Hs]. apply wp_emit. intros r e _. simpl. rewrite Hs.
    split; [by apply registered_put_beat|]. intros _. apply lookup_insert_eq. }
  apply wp_bind. case_decide as Hnone.
  - eapply wp_mono; [apply register_spec|]. cbn [c_store]. intros r w2 H2. rewrite Hc1 in H2.
    assert (registered (contents (c_store w2))) as Hm2.
    { destruct H2 as [->|[_ ->]]; [by apply registered_put_worker|done]. }
    destruct r as [u|e]; [|done]. apply Htail; [done|].
    destruct H2 as [->|[? _]]; [|done]. rewrite lookup_insert_eq. by eexists.
  - apply wp_ret. apply Htail; simpl; [by rewrite Hc1|]. rewrite Hc1, <- Hrow.
    destruct row; [by eexists|done].
Qed.

(** Whatever calls the coordinator serves and whatever faults they meet, a
    heartbeat row only ever exists beside a registration row: heartbeats register
    unknown workers first, and deregistration removes both at once. *)
Theorem heartbeats_are_registered run_id ops w (Hinit : registered (contents (c_store w))) :
  wp (serve run_id ops) (fun _ w' => registered (contents (c_store w'))) w.
Proof.
  apply (wp_mono _ (fun r w' => match r with Ok _ => registered (contents (c_store w')) | Err _ => registered (contents (c_store w')) end));
    [|by intros []].
  apply (wp_mfold _ (fun _ _ w' => registered (contents (c_store w'))) (fun _ w' => registered (contents (c_store w')))); [|done].
  intros _ op l w1 Hm. apply wp_bind, wp_catch.
  apply (wp_mono _ (fun _ w' => registered (contents (c_store w')))); [|by intros r w2 H2].
  destruct op as [worker now_ms|worker|hb now_ms]; simpl.
  - eapply wp_mono; [apply register_spec|]. intros r w2 [->|[_ ->]]; [by apply registered_put_worker|done].
  - eapply wp_mono; [apply deregister_spec|]. intros r w2 [->|[_ ->]]; [by apply registered_delete|done].
  - eapply wp_mono; [by apply heartbeat_spec|]. by intros r w2 [H2 _].
Qed.

(** ** failure_scan.rs: a scan returns, fails, or panics *)
Inductive crash : Type :=
| Returned (e : CoreError)
| Panicked (msg : string).

Definition lift_core {A} (m : M World CoreError A) : M World crash A := fun w =>
  match m w with (Ok a, w') => (Ok a, w') | (Err e, w') => (Err (Returned e), w') end.

Definition warn (worker_id : string) : M World crash unit := fun w =>
  (Ok tt, mkWorld (c_store w) (c_emitter w) (c_warned w ++ [worker_id])).

Definition failed_event (rec : HeartbeatRecord) : Event :=
  mkEvent "worker_failed" Warn (ulid_parse (hr_run rec)) (ulid_parse (hr_worker rec))
    [("due_at_ms", Num (due_at_ms rec))].

(** One row of the scan; [already_failed.insert] is tried only on a failed one. *)
Definition scan_row (now : SystemTime) (skew coord_timeout : Duration) (already_failed : gset string)
    (row : StorageKey * bytes) : M World crash (gset string) :=
  match decode row.2 with
  | Err _ => mret already_failed
  | Ok rec =>
      let* due := mlift (match ms_to_systime (due_at_ms rec) with
                         | Value t => Ok t
                         | Panic msg => Err (Panicked msg)
                         end) in
      if is_failed now due skew coord_timeout && bool_decide (hr_worker rec ∉ already_failed) then
        let already_failed := {[hr_worker rec]} ∪ already_failed in
        let* _ := warn (hr_worker rec) in
        let* _ := mcatch (lift_core (on_emitter (emit (failed_event rec)))) in
        mret already_failed
      else mret already_failed
  end.

Definition heartbeats_prefix : StorageKey := mkKey "heartbeats" None [].

Definition scan_once (now : SystemTime) (skew coord_timeout : Duration) (already_failed : gset string)
  : M World crash (gset string) :=
  let* entries := lift_core (on_store (scan_bytes (mkRange heartbeats_prefix None))) in
  mfold (scan_row now skew coord_timeout) already_failed entries.

(** The loop's ticks: the time of each, and what happened to the store since the
    last.  An error is logged and the loop goes on, a panic ends the task. *)
Fixpoint failure_scan_loop (ticks : list (SystemTime * (W -> W))) (skew coord_timeout : Duration)
    (already_failed : gset string) (w : World) : World :=
  match ticks with
  | [] => w
  | (now, env) :: ticks' =>
      match scan_once now skew coord_timeout already_failed (mkWorld (env (c_store w)) (c_emitter w) (c_warned w)) with
      | (Ok already', w') => failure_scan_loop ticks' skew coord_timeout already' w'
      | (Err (Returned _), w') => failure_scan_loop ticks' skew coord_timeout already_failed w'
      | (Err (Panicked _), w') => w'
      end
  end.

(** The worker a row reports failed. *)
Definition reports (now : SystemTime) (skew coord_timeout : Duration) (row : StorageKey * bytes) (id : string) : Prop :=
  exists rec due, decode row.2 = Ok rec /\ ms_to_systime (due_at_ms rec) = Value due /\
    is_failed now due skew coord_timeout = true /\ hr_worker rec = id.

(** The rows handled so far reported [new], on top of the starting world. *)
Definition scanned (w0 : World) (already0 already : gset string) (seen : list (StorageKey * bytes))
    (now : SystemTime) (skew coord_timeout : Duration) (w : World) : Prop :=
  c_store w = c_store w0 /\
  exists new, c_warned w = c_warned w0 ++ new /\ NoDup new /\ already = list_to_set new ∪ already0 /\
    (forall id, id ∈ new -> id ∉ already0) /\
    (forall id, id ∈ already <-> id ∈ already0 \/ exists row, row ∈ seen /\ reports now skew coord_timeout row id) /\
    length (attempts (c_emitter w)) = (length (attempts (c_emitter w0)) + length new)%nat.

Lemma scan_row_spec w0 already0 already seen now skew timeout row w :
  scanned w0 already0 already seen now skew timeout w ->
  wp (scan_row now skew timeout already row) (fun r w' => match r with
    | Ok already' => scanned w0 already0 already' (seen ++ [row]) now skew timeout w'
    | Err e => w' = w /\ exists msg, e = Panicked msg
    end) w.
Proof.
  intros (Hs & new & Hw & Hnd & Ha & Hdis & Hin & Hev). unfold scan_row.
  assert (forall id, (exists row', row' ∈ seen ++ [row] /\ reports now skew timeout row' id) <->
                     (exists row', row' ∈ seen /\ reports now skew timeout row' id) \/ reports now skew timeout row id) as Hsplit.
  { intros id. setoid_rewrite elem_of_app. setoid_rewrite list_elem_of_singleton. naive_solver. }
  assert (forall w', w' = w -> (forall id, reports now skew timeout row id -> id ∈ already) ->
            scanned w0 already0 already (seen ++ [row]) now skew timeout w') as Hskip.
  { intros w' -> Hno. split; [done|]. exists new. split_and!; try done. intros id. rewrite Hsplit.
    specialize (Hin id). specialize (Hno id). tauto. }
  destruct (decode row.2) as [rec|e] eqn:Hd; [|apply wp_ret, Hskip; [done|]; intros id (? & ? & ? & _); congruence].
  apply wp_bind, wp_lift. destruct (ms_to_systime (due_at_ms rec)) as [due|msg] eqn:Hdue; [|eauto].
  destruct (is_failed now due skew timeout) eqn:Hf; cbn [andb].
  2:{ apply wp_ret, Hskip; [done|]. intros id (rec' & due' & ? & ? & ? & _). congruence. }
  assert (forall id, reports now skew timeout row id <-> id = hr_worker rec) as Hrep.
  { intros id. split; [intros (rec' & due' & ? & ? & ? & <-); congruence|]. intros ->. by exists rec, due. }
  case_bool_decide as Hnew.
  2:{ apply wp_ret, Hskip; [done|]. intros id ->%Hrep. by destruct (decide (hr_worker rec ∈ already)). }
  apply wp_bind. unfold warn, wp at 1; cbn [fst snd]. apply wp_bind, wp_catch.
  unfold lift_core, wp. set (w1 := mkWorld (c_store w) (c_emitter w) (c_warned w ++ [hr_worker rec])).
  pose proof (wp_emit (failed_event rec) (fun _ w2 => exists e, w2 = mkWorld (c_store w) e (c_warned w ++ [hr_worker rec]) /\
    attempts e = attempts (c_emitter w) ++ [failed_event rec]) w1) as Hemit.
  specialize (Hemit (fun r e He => ex_intro _ e (conj eq_refl He))). unfold wp in Hemit.
  destruct (on_emitter (emit (failed_event rec)) w1) as [r w2]. simpl in Hemit.
  destruct Hemit as (e & -> & He).
  enough (scanned w0 already0 ({[hr_worker rec]} ∪ already) (seen ++ [row]) now skew timeout
            (mkWorld (c_store w) e (c_warned w ++ [hr_worker rec]))) by (destruct r; done).
  split; [done|]. exists (new ++ [hr_worker rec]). cbn [c_warned c_emitter]. split_and!.
  - by rewrite Hw, app_assoc.
  - apply NoDup_app. split; [done|]. split; [|apply NoDup_singleton]. set_solver.
  - rewrite list_to_set_app_L. set_solver.
  - set_solver.
  - intros id. rewrite elem_of_union, elem_of_singleton, Hsplit, Hrep, Hin. tauto.
  - rewrite He, !length_app, Hev. simpl. lia.
Qed.

(** What a scan adds to the log and to the set of reported workers. *)
Lemma scan_once_rows now skew timeout already w :
  wp (scan_once now skew timeout already) (fun r w' =>
    c_store w' = snd (scan_bytes (mkRange heartbeats_prefix None) (c_store w)) /\
    match r, fst (scan_bytes (mkRange heartbeats_prefix None) (c_store w)) with
    | Ok already', Ok rows => scanned (mkWorld (c_store w') (c_emitter w) (c_warned w)) already already' rows now skew timeout w'
    | Err (Returned e), Err e' => e = e' /\ c_warned w' = c_warned w /\ c_emitter w' = c_emitter w
    | Err (Panicked _), Ok rows => exists already' seen,
        scanned (mkWorld (c_store w') (c_emitter w) (c_warned w)) already already' seen now skew timeout w'
    | _, _ => False
    end) w.
Proof.
  unfold scan_once. apply wp_bind. unfold wp at 1, lift_core, on_store, zoom.
  destruct (scan_bytes (mkRange heartbeats_prefix None) (c_store w)) as [[rows|e] s]; cbn [fst snd]; [|by split_and!].
  set (w0 := mkWorld s (c_emitter w) (c_warned w)).
  eapply wp_mono.
  { apply (wp_mfold _ (fun already' rest w' => exists seen, seen ++ rest = rows /\ scanned w0 already already' seen now skew timeout w')
      (fun e w' => exists already' seen msg, e = Panicked msg /\ scanned w0 already already' seen now skew timeout w')).
    - intros acc row rest w1 (seen & Hrows & Hsc). eapply wp_mono; [by apply scan_row_spec|].
      intros [already'|e] w2 H2.
      + exists (seen ++ [row]). by rewrite <- app_assoc.
      + destruct H2 as [-> [msg ->]]. by exists acc, seen, msg.
    - exists []. split; [done|]. split; [done|]. exists []. rewrite app_nil_r.
      split_and!; [done|constructor|set_solver|set_solver| |simpl; lia].
      intros id. split; [by left|]. intros [Hid|(row & Hrow & _)]; [done|]. by apply elem_of_nil in Hrow. }
  intros [already'|e] w'.
  - intros (seen & Hrows & Hsc). rewrite app_nil_r in Hrows. subst seen. split; [by destruct Hsc|].
    destruct Hsc as [Hs Hsc]. split; [done|]. exact Hsc.
  - intros (already' & seen & msg & -> & Hsc). split; [by destruct Hsc|]. exists already', seen.
    destruct Hsc as [Hs Hsc]. split; [done|]. exact Hsc.
Qed.

(** A scan only reads the store (it gives no work back); it reports exactly
    the workers whose heartbeat row is overdue by more than both the skew budget
    and the failure timeout and that were not reported before, each once, and
    remembers them. *)
Theorem failure_scan_spec now skew timeout already w
    (Hwf : forall k v, contents (c_store w) !! k = Some v -> namespace k = "heartbeats" -> key_run k = None) :
  wp (scan_once now skew timeout already) (fun r w' =>
    contents (c_store w') = contents (c_store w) /\
    forall already', r = Ok already' -> exists new, c_warned w' = c_warned w ++ new /\ NoDup new /\
      already' = list_to_set new ∪ already /\
      length (attempts (c_emitter w')) = (length (attempts (c_emitter w)) + length new)%nat /\
      forall id, id ∈ new <-> id ∉ already /\ exists k v rec due, contents (c_store w) !! k = Some v /\
        namespace k = "heartbeats" /\ decode v = Ok rec /\ hr_worker rec = id /\
        ms_to_systime (due_at_ms rec) = Value due /\ (due + Z.of_N (skew `max` timeout) < now)%Z) w.
Proof.
  pose proof (scan_global_law heartbeats_prefix (c_store w)) as Hscan.
  assert (known heartbeats_prefix) as Hk by (unfold known; simpl; set_solver).
  specialize (Hscan Hk eq_refl Hwf). eapply wp_mono; [apply scan_once_rows|]. intros r w' [Hst Hr].
  unfold wp in Hscan. rewrite <- Hst in Hscan. destruct Hscan as [(Hc & _) Hrows]. split; [done|].
  intros already' ->. destruct (fst _) as [rows|e]; [|done]. simpl in Hrows.
  destruct Hr as (_ & new & Hw & Hnd & Ha & Hdis & Hin & Hev). exists new. split_and!; try done.
  intros id. assert (id ∈ new <-> id ∉ already /\ id ∈ already') as ->.
  { specialize (Hdis id). rewrite Ha. set_solver. }
  rewrite Hin. setoid_rewrite Hrows. setoid_rewrite list_elem_of_filter.
  split.
  - intros (Hn & [?|([k v] & [Hr Hkv%elem_of_map_to_list] & rec & due & Hd & Hdue & Hf & Hid)]); [done|].
    split; [done|]. exists k, v, rec, due. apply is_failed_spec in Hf. unfold in_range in Hr; simpl in Hr.
    rewrite !andb_true_iff, bool_decide_eq_true in Hr. tauto.
  - intros (Hn & k & v & rec & due & Hkv & Hns & Hd & Hid & Hdue & Hf). split; [done|]. right.
    exists (k, v). split; [split; [|by apply elem_of_map_to_list]|].
    + unfold in_range; simpl. rewrite Hns, (Hwf k v Hkv Hns). rewrite (bool_decide_eq_true_2 _ eq_refl), (bool_decide_eq_true_2 (None = None)) by done. by destruct (path k).
    + exists rec, due. split_and!; try done. by apply is_failed_spec.
Qed.

Lemma loop_reports_once ticks skew timeout already w :
  NoDup (c_warned w) -> (forall id, id ∈ c_warned w -> id ∈ already) ->
  NoDup (c_warned (failure_scan_loop ticks skew timeout already w)).
Proof.
  revert already w. induction ticks as [|[now env] ticks IH]; intros already w Hnd Hin; [done|].
  cbn [failure_scan_loop]. set (w1 := mkWorld (env (c_store w)) (c_emitter w) (c_warned w)).
  pose proof (scan_once_rows now skew timeout already w1) as Hs. unfold wp in Hs.
  destruct (scan_once now skew timeout already w1) as [[already'|[e|msg]] w']; cbn [fst snd] in Hs;
    destruct Hs as [_ Hs]; destruct (fst (scan_bytes _ _)); try done.
  - destruct Hs as (_ & new & Hw & Hnd' & Ha & Hdis & _). simpl in Hw. apply IH.
    + rewrite Hw. apply NoDup_app. split_and!; try done. set_solver.
    + rewrite Hw, Ha. set_solver.
  - destruct Hs as (_ & Hw & _). apply IH; rewrite Hw; done.
  - destruct Hs as (already' & seen & _ & new & Hw & Hnd' & Ha & Hdis & _). simpl in Hw.
    rewrite Hw. apply NoDup_app. split_and!; try done. set_solver.
Qed.

(** Over the whole life of the loop, whatever happens to the store between
    ticks and whichever scans fail, no worker is reported failed twice; so a
    worker that fails again after it recovered is not reported again. *)
Theorem failure_reported_at_most_once ticks skew timeout w :
  c_warned w = [] -> NoDup (c_warned (failure_scan_loop ticks skew timeout ∅ w)).
Proof. intros Hw. apply loop_reports_once; rewrite Hw; [constructor|set_solver]. Qed.
End workers.

Section worker_examples.
#[local] Existing Instance unary_ulids.
#[local] Existing Instance bits_codec.

(** An emitter that keeps what it is given and fails when told to. *)
#[local] Instance list_emitter : Emitter (list Event * list bool) := {
  attempts := fst;
  emit ev := fun e => (if default true (head e.2) then Ok tt else Err (internal "emit"), (e.1 ++ [ev], tail e.2));
}.
#[local] Instance list_emitter_laws : EmitterLaws (list Event * list bool).
Proof. by split. Qed.

Lemma fence_before_failure_witness :
  is_failed 10000000000 (next_due_at 1000000000 (ms 500)) (ms 250) (ms 5000) = true /\
  (1000000000 + Z.of_N (ms 4000) + 2 * Z.of_N (ms 500) < 10000000000)%Z.
Proof.
  split; [reflexivity|].
  apply (fence_before_failure TransportConfig_default 1000000000 10000000000); vm_compute; reflexivity.
Defined.

Definition cworld : World := mkWorld (Mem.mkWorld ∅ [] [None; None; None; None; Some "disk"]) ([] : list Event, [true; false]) [].
Definition beat_ex (due : Z) : Heartbeat := mkHeartbeat 2 1 Running due.

Lemma heartbeats_are_registered_witness :
  wp (serve 1 [Beat (beat_ex 5000000000) 3; Beat (beat_ex 6000000000) 4; Register 3 5; Deregister 2])
     (fun _ w' => registered (contents (c_store w'))) cworld.
Proof.
  apply (heartbeats_are_registered 1 [Beat (beat_ex 5000000000) 3; Beat (beat_ex 6000000000) 4; Register 3 5; Deregister 2] cworld).
  intros worker [v Hv]. discriminate Hv.
Defined.

Definition beat_row (worker due : N) : StorageKey * bytes :=
  (heartbeat_key worker, encode (mkBeat (ulid_string worker) (ulid_string 1) 3 due 0)).
Definition w_beats : World :=
  mkWorld (Mem.mkWorld (list_to_map [beat_row 2 1000; beat_row 3 9000]) [] []) ([] : list Event, [false]) [].

Lemma failure_scan_spec_witness :
  c_warned (snd (scan_once 8000000000 (ms 250) (ms 5000) ∅ w_beats)) = [ulid_string 2] /\
  wp (scan_once 8000000000 (ms 250) (ms 5000) ∅)
     (fun r w' => contents (c_store w') = contents (c_store w_beats)) w_beats.
Proof.
  split; [vm_compute; reflexivity|]. eapply wp_mono.
  - apply (failure_scan_spec 8000000000 (ms 250) (ms 5000) ∅ w_beats).
    change (map_Forall (fun k _ => namespace k = "heartbeats" -> key_run k = None) (contents (c_store w_beats))).
    apply map_Forall_insert_2; [done|]. apply map_Forall_insert_2; [done|]. apply map_Forall_empty.
  - intros r w' [H _]. exact H.
Defined.

Definition scan_ticks : list (Z * (Mem.World -> Mem.World)) :=
  [(8000000000%Z, fun s => s); (9000000000%Z, fun s => Mem.mkWorld (Mem.w_store s) [] [Some "down"]);
   (20000000000%Z, fun s => s)].

Lemma failure_reported_at_most_once_witness :
  c_warned (failure_scan_loop scan_ticks (ms 250) (ms 5000) ∅ w_beats) = [ulid_string 2; ulid_string 3] /\
  NoDup (c_warned (failure_scan_loop scan_ticks (ms 250) (ms 5000) ∅ w_beats)).
Proof.
  split; [vm_compute; reflexivity|].
  apply (failure_reported_at_most_once scan_ticks (ms 250) (ms 5000) w_beats). reflexivity.
Defined.
End worker_examples.
