(* ===== verification/MockRun.v ===== *)
(** The mock-backend driver of the coordinator (rollout-coordinator/src/mock_run.rs):
    it enqueues the items, dispatches them with a bias to the first worker, forces a
    steal and completes everything, reporting each step to the emitter. *)
From stdpp Require Import base option list gmap strings pretty fin_maps.
From S2P Require Import Prelude.
From S2P Require Import Text.
From S2P Require Import Core.
From S2P Require Import Storage.
From S2P Require Import WorkItem.
From S2P Require Import Events.
From S2P Require Import Ledger.
From S2P Require Import Steal.

(** The store and the emitter a run works with. *)
Record MockWorld (W E : Type) : Type := mkMock { k_store : W; k_emitter : E }.
Arguments mkMock {W E}. Arguments k_store {W E}. Arguments k_emitter {W E}.

Definition domain_event (run_id : RunId) (worker : option WorkerId) (t : string)
    (attrs : list (string * attr)) : Event := mkEvent t Info (Some run_id) worker attrs.

(** [format!("work-item-{i}").into_bytes()] *)
Definition payload (i : nat) : bytes := bytes_of ("work-item-" +:+ pretty i).

Definition is_done (s : WorkState) : bool := match s with Done _ => true | _ => false end.

Section mock_run.
Context {W T : Type} {ST : Storage W T} {SL : StorageLaws W T} {UT : UlidText} {WC : Codec WorkItemRecord}.
Context {E : Type} {EM : Emitter E} {EL : EmitterLaws E}.
Context (content_id_of : bytes -> ContentId).

Definition on_store {A} (m : M W CoreError A) : M (MockWorld W E) CoreError A :=
  zoom k_store (fun s w => mkMock s (k_emitter w)) m.
Definition on_emitter {A} (m : M E CoreError A) : M (MockWorld W E) CoreError A :=
  zoom k_emitter (fun e w => mkMock (k_store w) e) m.

Definition running_items_of (run_id : RunId) (worker : WorkerId) : M W CoreError (list WorkItemRecord) :=
  let* entries := scan_bytes (work_prefix run_id) in
  mret (filter (fun r => running_on worker r = true) (omap record_of entries)).

Definition count_done (run_id : RunId) : M W CoreError nat :=
  let* entries := scan_bytes (work_prefix run_id) in
  mret (length (filter (fun r => is_done (state r) = true) (omap record_of entries))).

(** The mock backend's result: the content id of the work id's text. *)
Definition mock_result (id : ContentId) : ContentId := content_id_of (bytes_of (ContentId_to_string id)).

(** One round of the loop of [complete_worker]. *)
Definition complete_one (run_id : RunId) (worker : WorkerId) (ev_run : RunId) (n : nat) (rec : WorkItemRecord)
  : M (MockWorld W E) CoreError nat :=
  let result_id := mock_result (work_id rec) in
  let* txn := on_store begin_txn in
  let* '(won, txn) := on_store (try_complete txn run_id rec result_id) in
  if won then
    let* _ := on_store (commit txn) in
    let* _ := on_emitter (emit (domain_event ev_run (Some worker) "work_completed"
                                  [("work_id", Str (ContentId_to_string (work_id rec)))])) in
    mret (S n)
  else
    let* _ := on_store (abort txn) in
    mret n.

Definition complete_worker (run_id : RunId) (worker : WorkerId) (ev_run : RunId) : M (MockWorld W E) CoreError nat :=
  let* running := on_store (running_items_of run_id worker) in
  mfold (complete_one run_id worker ev_run) 0 running.

(** The first step of [mock_run]: the items, in one transaction. *)
Definition enqueue_items (run_id : RunId) (items : nat) (ulids : nat -> Ulid) : M W CoreError unit :=
  let* txn := begin_txn in
  let* txn := mfold (fun txn i => Ledger.enqueue ulid_string txn run_id (ulids i) (payload i)) txn (seq 0 items) in
  commit txn.

(** The worker the [i]-th dispatch goes to: the first takes the larger half. *)
Definition worker_for (items workers i : nat) : nat :=
  if decide (i < Nat.div2 (items + 1)) then 0 else 1 + i mod (workers - 1).

(** One round of the dispatch loop. *)
Definition dispatch_one (run_id : RunId) (worker_ids : list WorkerId) (items workers : nat) (clock : nat -> N)
    (dispatched : list ContentId) (i : nat) : M (MockWorld W E) failure (list ContentId) :=
  match worker_ids !! worker_for items workers i with
  | None => mthrow (Unwound "index out of bounds")
  | Some w =>
      let* txn := lift_err (on_store begin_txn) in
      let* '(won, txn) := lift_err (on_store (dispatch content_id_of txn run_id w (clock i))) in
      match won with
      | Some work_id =>
          let* _ := lift_err (on_store (commit txn)) in
          let* _ := lift_err (on_emitter (emit (domain_event run_id (Some w) "work_dispatched"
                                                  [("work_id", Str (ContentId_to_string work_id))]))) in
          mret (dispatched ++ [work_id])
      | None =>
          let* _ := lift_err (on_store (abort txn)) in
          mret dispatched
      end
  end.

Definition stolen_event (run_id : RunId) (thief : WorkerId) (id : ContentId) : Event :=
  domain_event run_id (Some thief) "work_stolen"
    [("work_id", Str (ContentId_to_string id)); ("thief", Str (ulid_string thief))].

(** [worker_ids] and [ulids] are what [Ulid::new()] returned, [clock] and
    [steal_now] what the clock read. *)
Definition mock_run (run_id : RunId) (items workers : nat) (worker_ids : list WorkerId)
    (ulids : nat -> Ulid) (clock : nat -> N) (steal_now : N) : M (MockWorld W E) failure nat :=
  if decide (workers < 2) then mthrow (Unwound "steal needs at least 2 workers")
  else if decide (items < workers) then mthrow (Unwound "need at least one item per worker to make a victim busy")
  else
    let* _ := lift_err (on_store (enqueue_items run_id items ulids)) in
    let* dispatched := mfold (dispatch_one run_id worker_ids items workers clock) [] (seq 0 items) in
    match last worker_ids with
    | None => mthrow (Unwound "workers >= 2")
    | Some thief =>
        let* _ := lift_err (complete_worker run_id thief run_id) in
        let* stolen := lift_err (on_store (handle_steal_request run_id thief steal_now)) in
        let* _ := lift_err (on_emitter (mfold (fun _ id => emit (stolen_event run_id thief id)) tt stolen)) in
        let* done := lift_err (on_store (count_done run_id)) in
        let* done := lift_err (mfold (fun done w => let* n := complete_worker run_id w run_id in mret (done + n))
                                 done worker_ids) in
        let* total_done := lift_err (on_store (count_done run_id)) in
        let* _ := lift_err (on_emitter (emit (domain_event run_id None "run_done"
          [("items", Num (N.of_nat items)); ("done", Num (N.of_nat total_done));
           ("stolen", Num (N.of_nat (length stolen)))]))) in
        mret total_done
    end.

(** ** The rows of a run, as maps *)
Definition in_work (run_id : RunId) (k : StorageKey) : bool := in_range (prefix (work_prefix run_id)) k.
Definition in_queue (run_id : RunId) (k : StorageKey) : bool := in_range (prefix (queue_prefix run_id)) k.

(** The work rows are exactly those of [L]. *)
Definition ledger_is (run_id : RunId) (m : store) (L : gmap ContentId WorkState) : Prop :=
  forall k v, in_work run_id k = true ->
    m !! k = Some v <-> exists id s, L !! id = Some s /\ k = work_key run_id id /\ v = encode (mkWork id s).

(** The queue rows are exactly those of the items [Q]. *)
Definition queue_is (run_id : RunId) (ulids : nat -> Ulid) (m : store) (Q : gset nat) : Prop :=
  forall k v, in_queue run_id k = true ->
    m !! k = Some v <-> exists j, j ∈ Q /\ k = queue_key ulid_string run_id (ulids j) /\ v = payload j.

Lemma in_work_not_queue run_id k : in_queue run_id k = true -> in_work run_id k = false.
Proof.
  unfold in_queue, in_work, in_range. simpl. rewrite !andb_true_iff, !andb_false_iff, bool_decide_eq_true.
  intros ((H & _) & _). left. left. apply bool_decide_eq_false. by rewrite H.
Qed.

Lemma queue_key_in run_id u : in_queue run_id (queue_key ulid_string run_id u) = true.
Proof. unfold in_queue, in_range; simpl. by rewrite !bool_decide_eq_true_2. Qed.

Lemma queue_key_inj run_id u v :
  queue_key ulid_string run_id u = queue_key ulid_string run_id v -> u = v.
Proof. intros [= H]. apply (f_equal ulid_parse) in H. rewrite !ulid_parse_string in H. congruence. Qed.

Lemma ledger_is_row run_id m L id s : ledger_is run_id m L ->
  L !! id = Some s <-> m !! work_key run_id id = Some (encode (mkWork id s)).
Proof.
  intros HL. rewrite (HL (work_key run_id id)) by apply work_key_in_range. split; [by eauto|].
  intros (id' & s' & Hl & Hk%work_key_inj & Hv%encode_inj). congruence.
Qed.

Lemma ledger_is_insert run_id m L id s : ledger_is run_id m L ->
  ledger_is run_id (<[work_key run_id id := encode (mkWork id s)]> m) (<[id := s]> L).
Proof.
  intros HL k v Hk. destruct (decide (k = work_key run_id id)) as [->|Hne].
  - rewrite lookup_insert_eq. split.
    + intros [= <-]. exists id, s. by rewrite lookup_insert_eq.
    + intros (id' & s' & Hl & <-%work_key_inj & ->). rewrite lookup_insert_eq in Hl. congruence.
  - rewrite lookup_insert_ne by done. rewrite (HL k v Hk).
    split; intros (id' & s' & Hl & -> & ->); exists id', s'.
    + rewrite lookup_insert_ne by congruence. done.
    + rewrite lookup_insert_ne in Hl by congruence. done.
Qed.

Lemma ledger_is_other run_id m m' L : (forall k, in_work run_id k = true -> m' !! k = m !! k) ->
  ledger_is run_id m L -> ledger_is run_id m' L.
Proof. intros He HL k v Hk. by rewrite (He k Hk), (HL k v Hk). Qed.

Lemma queue_is_other run_id ulids m m' Q : (forall k, in_queue run_id k = true -> m' !! k = m !! k) ->
  queue_is run_id ulids m Q -> queue_is run_id ulids m' Q.
Proof. intros He HQ k v Hk. by rewrite (He k Hk), (HQ k v Hk). Qed.

Lemma ledger_is_wf run_id m L : ledger_is run_id m L -> ledger_wf run_id m.
Proof. intros HL k v Hm Hk. apply (HL k v Hk) in Hm as (id & s & _ & -> & ->). by exists (mkWork id s). Qed.

Lemma elem_of_ledger run_id m L rec : ledger_is run_id m L ->
  rec ∈ records run_id m <-> L !! work_id rec = Some (state rec).
Proof.
  intros HL. rewrite (elem_of_records run_id m rec (ledger_is_wf _ _ _ HL)).
  rewrite (ledger_is_row _ _ _ _ _ HL). by destruct rec.
Qed.

Lemma records_ledger run_id m L : ledger_is run_id m L ->
  records run_id m ≡ₚ (fun '(id, s) => mkWork id s) <$> map_to_list L.
Proof.
  intros HL. apply NoDup_Permutation.
  - apply (NoDup_fmap_1 work_id), NoDup_records. by eapply ledger_is_wf.
  - apply NoDup_fmap_2; [by intros [] [] [= -> ->]|apply NoDup_map_to_list].
  - intros rec. rewrite (elem_of_ledger _ _ _ _ HL), list_elem_of_fmap. split.
    + intros Hl. exists (work_id rec, state rec). rewrite elem_of_map_to_list. by destruct rec.
    + intros ([id s] & -> & Hl%elem_of_map_to_list). done.
Qed.

(** ** Completing a worker's items *)
Context (Hemit : forall ev e, fst (emit (E := E) ev e) = Ok tt).

Definition completed_event (run_id : RunId) (worker : WorkerId) (id : ContentId) : Event :=
  domain_event run_id (Some worker) "work_completed" [("work_id", Str (ContentId_to_string id))].

Lemma wp_mock_emit ev (Q : result CoreError unit -> MockWorld W E -> Prop) w :
  (forall e', attempts e' = attempts (k_emitter w) ++ [ev] -> Q (Ok tt) (mkMock (k_store w) e')) ->
  wp (on_emitter (emit ev)) Q w.
Proof.
  intros HQ. apply wp_zoom. pose proof (emit_law ev (k_emitter w)) as Hl. unfold wp in *.
  rewrite Hemit. by apply HQ.
Qed.

Lemma running_items_of_spec run_id worker L w : ledger_is run_id (contents w) L -> healthy w ->
  wp (running_items_of run_id worker) (fun r w' => contents w' = contents w /\ healthy w' /\
    exists rs, r = Ok rs /\ NoDup (work_id <$> rs) /\
      forall rec, rec ∈ rs <-> running_on worker rec = true /\ L !! work_id rec = Some (state rec)) w.
Proof.
  intros HL Hh. unfold running_items_of.
  wp_call (scan_rows_spec (prefix (work_prefix run_id))); [apply work_prefix_known|by eexists|].
  intros [es|e] w' (Hc & Hh' & Hr); [|done]. simpl in Hr. apply wp_ret. split; [done|]. split; [auto|].
  eexists. split; [done|]. rewrite Hr. fold (records run_id (contents w)). split.
  - eapply sublist_NoDup; [apply (NoDup_records run_id (contents w)); by eapply ledger_is_wf|].
    apply (fmap_sublist work_id), sublist_filter.
  - intros rec. rewrite Hr. fold (records run_id (contents w)).
    by rewrite list_elem_of_filter, (elem_of_ledger run_id _ L rec HL).
Qed.

Lemma count_done_spec run_id L w : ledger_is run_id (contents w) L -> healthy w ->
  wp (count_done run_id) (fun r w' => contents w' = contents w /\ healthy w' /\
    r = Ok (length (filter (fun kv => is_done kv.2 = true) (map_to_list L)))) w.
Proof.
  intros HL Hh. unfold count_done.
  wp_call (scan_rows_spec (prefix (work_prefix run_id))); [apply work_prefix_known|by eexists|].
  intros [es|e] w' (Hc & Hh' & Hr); [|done]. simpl in Hr. apply wp_ret. split; [done|]. split; [auto|].
  f_equal. rewrite Hr. fold (records run_id (contents w)). rewrite (records_ledger _ _ _ HL).
  generalize (map_to_list L). intros l. induction l as [|[id st] l IH]; [done|]. rewrite fmap_cons, !filter_cons. simpl.
  repeat case_decide; simpl; congruence.
Qed.

Lemma complete_one_spec run_id worker n rec w : healthy (k_store w) -> is_running (state rec) ->
  contents (k_store w) !! work_key run_id (work_id rec) = Some (encode rec) ->
  wp (complete_one run_id worker run_id n rec) (fun r w' => r = Ok (S n) /\ healthy (k_store w') /\
    contents (k_store w') = <[work_key run_id (work_id rec) :=
      encode (mkWork (work_id rec) (Done (mock_result (work_id rec))))]> (contents (k_store w)) /\
    attempts (k_emitter w') = attempts (k_emitter w) ++ [completed_event run_id worker (work_id rec)]) w.
Proof.
  intros Hh Hrun Hrow. unfold complete_one. apply wp_bind, wp_zoom. eapply wp_mono; [apply begin_law|].
  intros [t|e] s1 ((Hc1 & _ & Hh1) & Ht); [destruct Ht as [Hv _]|done].
  apply wp_bind, wp_zoom. eapply wp_mono; [apply try_complete_spec|].
  intros [[[] t2]|e] s2 ((Hc2 & _ & Hh2) & Hr); cbn [k_store k_emitter fst snd] in *;
    [| |exfalso; apply Hr; auto].
  - apply wp_bind, wp_zoom. eapply wp_mono; [apply commit_law|]. cbn [k_store k_emitter].
    intros [[]|e] s3 (Hh3 & Hr3); [|destruct Hr3 as [Hr3 _]; exfalso; apply Hr3; auto].
    apply wp_bind, wp_mock_emit. intros e' He'. apply wp_ret. cbn [k_store k_emitter] in *.
    split; [done|]. split; [auto|]. split; [|done]. destruct Hr3 as [-> _]. destruct Hr as (_ & _ & Hv2). simpl in Hv2. by rewrite Hv2, Hv.
  - exfalso. destruct Hr as (_ & [Hg|Hg]); [done|]. apply Hg. by rewrite Hv.
Qed.

Definition complete_all (rs : list WorkItemRecord) (L : gmap ContentId WorkState) : gmap ContentId WorkState :=
  foldl (fun L r => <[work_id r := Done (mock_result (work_id r))]> L) L rs.

Lemma lookup_complete_all rs L id : complete_all rs L !! id =
  if decide (id ∈ work_id <$> rs) then Some (Done (mock_result id)) else L !! id.
Proof.
  revert L. unfold complete_all. induction rs as [|r rs IH]; intros L; simpl; [done|]. rewrite IH.
  destruct (decide (id = work_id r)) as [->|Hne].
  - rewrite (decide_True (P := _ ∈ _ :: _)) by set_solver. case_decide; [done|]. by rewrite lookup_insert_eq.
  - destruct (decide (id ∈ work_id <$> rs)).
    + by rewrite (decide_True (P := _ ∈ _ :: _)) by set_solver.
    + rewrite (decide_False (P := _ ∈ _ :: _)) by set_solver. by rewrite lookup_insert_ne.
Qed.

(** Items that are not done. *)
Definition open_items (L : gmap ContentId WorkState) : nat := size (filter (fun kv => is_done kv.2 = false) L).

Lemma open_items_done L id s r : L !! id = Some s -> is_done s = false ->
  S (open_items (<[id := Done r]> L)) = open_items L.
Proof.
  intros Hl Hs. unfold open_items. rewrite map_filter_insert_False by done.
  rewrite map_filter_delete, <- map_size_insert_None with (i := id) (x := s) by apply lookup_delete_eq.
  f_equal. apply insert_delete_id. by apply map_lookup_filter_Some_2.
Qed.

Lemma complete_loop run_id worker rs n L w : healthy (k_store w) -> ledger_is run_id (contents (k_store w)) L ->
  NoDup (work_id <$> rs) -> (forall rec, rec ∈ rs -> is_running (state rec) /\ L !! work_id rec = Some (state rec)) ->
  wp (mfold (complete_one run_id worker run_id) n rs) (fun r w' => r = Ok (n + length rs) /\ healthy (k_store w') /\
    ledger_is run_id (contents (k_store w')) (complete_all rs L) /\
    open_items (complete_all rs L) + length rs = open_items L /\
    (forall k, in_work run_id k = false -> contents (k_store w') !! k = contents (k_store w) !! k) /\
    attempts (k_emitter w') = attempts (k_emitter w) ++ (completed_event run_id worker <$> (work_id <$> rs))) w.
Proof.
  intros Hh HL Hnd Hrs. revert n L w Hh HL Hrs. induction rs as [|r rs IH]; intros n L w Hh HL Hrs; simpl.
  { apply wp_ret. rewrite Nat.add_0_r, app_nil_r. by rewrite Nat.add_0_r. }
  destruct (Hrs r) as [Hrun Hl]; [set_solver|]. simpl in Hnd. apply NoDup_cons in Hnd as [Hni Hnd].
  pose proof (proj1 (ledger_is_row _ _ _ _ _ HL) Hl) as Hrow. destruct r as [id s]; simpl in *.
  apply wp_bind. eapply wp_mono; [by apply complete_one_spec|]. simpl.
  intros r w1 (-> & Hh1 & Hc1 & Ha1).
  eapply wp_mono; [apply (IH Hnd (S n) (<[id := Done (mock_result id)]> L) w1)|].
  - done.
  - rewrite Hc1. by apply ledger_is_insert.
  - intros rec Hrec. rewrite lookup_insert_ne by (intros ->; apply Hni; set_solver). apply Hrs. set_solver.
  - intros r w2 (-> & Hh2 & HL2 & Ho2 & Hk2 & Ha2). split; [by rewrite Nat.add_succ_r|].
    split; [done|]. split; [done|]. split; [|split].
    + destruct Hrun as (? & ? & ->). rewrite <- (open_items_done L id _ (mock_result id) Hl) by done.
      unfold complete_all in *. cbn [foldl work_id]. lia.
    + intros k Hk. rewrite Hk2, Hc1 by done. rewrite lookup_insert_ne; [done|]. intros <-.
      unfold in_work in Hk. by rewrite work_key_in_range in Hk.
    + rewrite Ha2, Ha1, <- app_assoc. done.
Qed.

(** What completing a worker makes of an item. *)
Definition complete_if (worker : WorkerId) (id : ContentId) (s : WorkState) : WorkState :=
  match s with
  | Running w _ => if decide (w = worker) then Done (mock_result id) else s
  | _ => s
  end.

Lemma complete_worker_spec run_id worker L w : healthy (k_store w) -> ledger_is run_id (contents (k_store w)) L ->
  wp (complete_worker run_id worker run_id) (fun r w' => exists ids L', r = Ok (length ids) /\ healthy (k_store w') /\
    ledger_is run_id (contents (k_store w')) L' /\ (forall id, L' !! id = complete_if worker id <$> L !! id) /\
    open_items L' + length ids = open_items L /\
    (forall k, in_work run_id k = false -> contents (k_store w') !! k = contents (k_store w) !! k) /\
    attempts (k_emitter w') = attempts (k_emitter w) ++ (completed_event run_id worker <$> ids)) w.
Proof.
  intros Hh HL. unfold complete_worker. apply wp_bind, wp_zoom.
  eapply wp_mono; [by apply (running_items_of_spec run_id worker L)|].
  intros r s1 (Hc1 & Hh1 & rs & -> & Hnd & Hin).
  eapply wp_mono; [apply (complete_loop run_id worker rs 0 L)|].
  - done.
  - simpl. by rewrite Hc1.
  - done.
  - intros rec Hrec. apply Hin in Hrec as [Hr Hl]. split; [|done]. unfold running_on in Hr.
    destruct (state rec); try done. by do 2 eexists.
  - cbn [k_store k_emitter]. rewrite Hc1. intros r w2 (-> & Hh2 & HL2 & Ho2 & Hk2 & Ha2).
    exists (work_id <$> rs), (complete_all rs L). rewrite length_fmap. split_and!; try done.
    intros id. rewrite lookup_complete_all. case_decide as Hid.
    + apply list_elem_of_fmap in Hid as (rec & -> & Hrec). apply Hin in Hrec as [Hr ->]. simpl.
      unfold running_on in Hr. destruct (state rec); try done. simpl. apply bool_decide_eq_true in Hr. by rewrite decide_True.
    + destruct (L !! id) as [st|] eqn:Hl; [|done]. simpl. f_equal. destruct st as [|w0 t| |]; try done. simpl.
      case_decide; [|done]. subst w0. exfalso. apply Hid, list_elem_of_fmap. exists (mkWork id (Running worker t)).
      split; [done|]. apply Hin. unfold running_on; simpl. by rewrite bool_decide_eq_true_2.
Qed.

(** ** Enqueueing and dispatching *)
Lemma enqueue_loop run_id ulids l txn w : healthy w ->
  wp (mfold (fun txn i => Ledger.enqueue ulid_string txn run_id (ulids i) (payload i)) txn l) (fun r w' =>
    contents w' = contents w /\ healthy w' /\ exists txn', r = Ok txn' /\
    view txn' = foldl (fun m i => <[queue_key ulid_string run_id (ulids i) := payload i]> m) (view txn) l) w.
Proof.
  revert txn w. induction l as [|i l IH]; intros txn w Hh; simpl; [apply wp_ret; eauto|].
  apply wp_bind. unfold Ledger.enqueue. eapply wp_mono.
  { apply put_law. unfold known; simpl. set_solver. }
  intros [t|e] w1 ((Hc1 & _ & Hh1) & Ht); [|done]. destruct Ht as [Hv _].
  eapply wp_mono; [apply IH; auto|]. intros r w2 (Hc2 & Hh2 & t' & -> & Hv'). split; [congruence|].
  split; [done|]. exists t'. split; [done|]. by rewrite Hv', Hv.
Qed.

Lemma queue_is_enqueued run_id ulids n m :
  (forall i j, i < n -> j < n -> ulids i = ulids j -> i = j) ->
  (forall k, in_queue run_id k = true -> m !! k = None) ->
  queue_is run_id ulids (foldl (fun m i => <[queue_key ulid_string run_id (ulids i) := payload i]> m) m (seq 0 n))
           (set_seq 0 n).
Proof.
  intros Hinj Hm. assert (forall l, (forall i, i ∈ l -> i < n) -> forall m' : store, NoDup l ->
    forall k, foldl (fun m i => <[queue_key ulid_string run_id (ulids i) := payload i]> m) m' l !! k =
      match list_find (fun i => queue_key ulid_string run_id (ulids i) = k) l with
      | Some (_, i) => Some (payload i) | None => m' !! k end) as Hf.
  { induction l as [|i l IH]; intros Hl m' Hnd k; simpl; [done|]. apply NoDup_cons in Hnd as [Hni Hnd].
    rewrite IH by (auto || set_solver). case_decide as Hk.
    - destruct (list_find _ l) as [[x j]|] eqn:Hf0; simpl; [|by rewrite <- Hk, lookup_insert_eq].
      exfalso. apply list_find_Some in Hf0 as (Hj & Hkj & _). apply list_elem_of_lookup_2 in Hj.
      rewrite <- Hk in Hkj. apply queue_key_inj in Hkj. apply Hinj in Hkj; [|apply Hl; set_solver..]. by subst j.
    - destruct (list_find _ l) as [[x j]|]; simpl; [done|]. by rewrite lookup_insert_ne. }
  intros k v Hk. rewrite Hf; [|by intros i ?%elem_of_seq; lia|apply NoDup_seq].
  destruct (list_find _ (seq 0 n)) as [[x i]|] eqn:Hf0.
  - apply list_find_Some in Hf0 as (Hi & <- & _). apply list_elem_of_lookup_2, elem_of_seq in Hi. split.
    + intros [= <-]. exists i. rewrite elem_of_set_seq. split_and!; (done || lia).
    + intros (j & Hj%elem_of_set_seq & Hkj%queue_key_inj & ->). apply Hinj in Hkj; [by subst j|lia..].
  - rewrite (Hm k Hk). split; [done|]. intros (j & Hj%elem_of_set_seq & -> & _).
    apply list_find_None in Hf0. rewrite Forall_forall in Hf0. exfalso. apply (Hf0 j); [apply elem_of_seq; lia|done].
Qed.

Definition dispatched_event (run_id : RunId) (wid : WorkerId) (id : ContentId) : Event :=
  domain_event run_id (Some wid) "work_dispatched" [("work_id", Str (ContentId_to_string id))].

(** Where a run stands after [i] dispatches. *)
Definition dispatching (run_id : RunId) (ulids : nat -> Ulid) (items : nat) (worker_ids : list WorkerId)
    (i : nat) (w : MockWorld W E) : Prop :=
  healthy (k_store w) /\ exists Q L, queue_is run_id ulids (contents (k_store w)) Q /\
    ledger_is run_id (contents (k_store w)) L /\ Q ⊆ set_seq 0 items /\ size Q + i = items /\ size L = i /\
    (forall j, j < items -> j ∉ Q -> is_Some (L !! content_id_of (payload j))) /\
    (forall id s, L !! id = Some s -> exists j x t, j < items /\ j ∉ Q /\ id = content_id_of (payload j) /\
       s = Running x t /\ x ∈ worker_ids) /\
    (0 < i -> exists id x t, worker_ids !! 0 = Some x /\ L !! id = Some (Running x t)).

Lemma worker_for_bound items workers i : 2 <= workers -> worker_for items workers i < workers.
Proof.
  intros Hw. unfold worker_for. case_decide; [lia|].
  pose proof (Nat.mod_upper_bound i (workers - 1) ltac:(lia)). lia.
Qed.

Lemma dispatch_one_spec run_id ulids items workers worker_ids clock acc i w :
  2 <= workers -> length worker_ids = workers ->
  (forall j j', j < items -> j' < items -> content_id_of (payload j) = content_id_of (payload j') -> j = j') ->
  i < items -> dispatching run_id ulids items worker_ids i w ->
  wp (dispatch_one run_id worker_ids items workers clock acc i) (fun r w' =>
    dispatching run_id ulids items worker_ids (S i) w' /\ exists x id, r = Ok (acc ++ [id]) /\
    attempts (k_emitter w') = attempts (k_emitter w) ++ [dispatched_event run_id x id]) w.
Proof.
  intros Hw Hlen Hinj Hi (Hh & Q & L & HQ & HL & Hsub & Hsz & HszL & Hdone & Hrun & Hfirst). unfold dispatch_one.
  destruct (lookup_lt_is_Some_2 worker_ids (worker_for items workers i)) as [x Hx].
  { rewrite Hlen. by apply worker_for_bound. }
  rewrite Hx. apply wp_bind, wp_lift_err, wp_zoom. eapply wp_mono; [apply begin_law|].
  intros [t|e] s1 ((Hc1 & _ & Hh1) & Ht); [destruct Ht as [Hv _]|done].
  apply wp_bind, wp_lift_err, wp_zoom. cbn [k_store k_emitter]. eapply wp_mono; [apply dispatch_post|].
  intros [[[id|] t2]|e] s2 (Hc2 & Hh2 & Hr); [| |exfalso; apply Hr; auto]; rewrite Hc1 in *.
  2:{ exfalso. destruct Hr as [_ Hr]. assert (Q ≢ ∅) as [j Hj]%set_choose by (intros He; rewrite (leibniz_equiv _ _ He), size_empty in Hsz; lia).
      assert (contents (k_store w) !! queue_key ulid_string run_id (ulids j) = Some (payload j)) as Hq
        by (apply HQ; [apply queue_key_in|eauto]).
      apply Hr in Hq. pose proof (queue_key_in run_id (ulids j)) as Hin. unfold in_queue in Hin. congruence. }
  destruct Hr as (k & v & (Hk & Hkin & _) & -> & Hv2). apply (HQ k v Hkin) in Hk as (j & Hj & -> & ->).
  apply wp_bind, wp_lift_err, wp_zoom. cbn [k_store k_emitter]. eapply wp_mono; [apply commit_law|].
  intros [[]|e] s3 (Hh3 & Hr3); [|destruct Hr3 as [Hr3 _]; exfalso; apply Hr3; auto].
  destruct Hr3 as [Hc3 _]. rewrite Hv2, Hv in Hc3.
  apply wp_bind, wp_lift_err, wp_mock_emit. intros e' He'. apply wp_ret. cbn [k_store k_emitter] in *.
  split; [|by exists x, (content_id_of (payload j))]. split; [auto|]. cbn [k_store].
  assert (Hjn : j < items) by (apply Hsub, elem_of_set_seq in Hj; lia).
  assert (Hnew : L !! content_id_of (payload j) = None).
  { destruct (L !! _) as [s|] eqn:Hf0; [|done]. apply Hrun in Hf0 as (j' & ? & ? & Hj' & Hn & Hf0 & _).
    apply Hinj in Hf0; [by subst j'|done..]. }
  exists (Q ∖ {[j]}), (<[content_id_of (payload j) := Running x (clock i)]> L).
  split; [|split; [|split; [set_solver|split; [|split; [by rewrite map_size_insert_None, HszL|split; [|split]]]]]].
  - intros k v Hkq. rewrite Hc3. destruct (decide (k = queue_key ulid_string run_id (ulids j))) as [->|Hne].
    + rewrite lookup_delete_eq. split; [done|]. intros (j' & [Hj' Hne]%elem_of_difference & Hk & ->). exfalso.
      assert (contents (k_store w) !! queue_key ulid_string run_id (ulids j) = Some (payload j')) as H1
        by (apply (HQ _ _ Hkq); eauto).
      assert (contents (k_store w) !! queue_key ulid_string run_id (ulids j) = Some (payload j)) as H2
        by (apply (HQ _ _ Hkq); eauto).
      apply Hne, elem_of_singleton. apply Hsub, elem_of_set_seq in Hj'. apply Hinj; [lia|done|congruence].
    + rewrite lookup_delete_ne by done. rewrite lookup_insert_ne.
      2:{ intros <-. apply in_work_not_queue in Hkq. unfold in_work in Hkq. by rewrite work_key_in_range in Hkq. }
      rewrite (HQ k v Hkq). split; intros (j' & Hj' & -> & ->); exists j'; (split; [|done]); [|set_solver].
      apply elem_of_difference. split; [done|]. intros ->%elem_of_singleton. done.
  - rewrite Hc3. apply (ledger_is_other _ (<[work_key run_id (content_id_of (payload j)) :=
      encode (mkWork (content_id_of (payload j)) (Running x (clock i)))]> (contents (k_store w)))); [|by apply ledger_is_insert].
    intros k Hkw. rewrite lookup_delete_ne; [done|]. intros <-.
    rewrite (in_work_not_queue run_id) in Hkw by apply queue_key_in. done.
  - rewrite size_difference by set_solver. rewrite size_singleton.
    assert (size Q <> 0) by (intros He%size_empty_inv; set_solver). lia.
  - intros j' Hj' Hn. destruct (decide (j' = j)) as [->|Hne]; [by rewrite lookup_insert_eq; eauto|].
    rewrite lookup_insert_ne; [apply Hdone; [done|set_solver]|]. intros He. apply Hinj in He; congruence.
  - intros id s. destruct (decide (id = content_id_of (payload j))) as [->|Hne].
    + rewrite lookup_insert_eq. intros [= <-]. exists j, x, (clock i). split_and!; try done; [set_solver|].
      by eapply list_elem_of_lookup_2.
    + rewrite lookup_insert_ne by done. intros Hl. destruct (Hrun id s Hl) as (j' & x' & t' & ? & ? & ? & ? & ?).
      exists j', x', t'. split_and!; try done. set_solver.
  - intros _. destruct i as [|i].
    + exists (content_id_of (payload j)), x, (clock 0). rewrite lookup_insert_eq. split; [|done].
      rewrite <- Hx. unfold worker_for. rewrite decide_True; [done|].
      pose proof (Nat.div2_div (items + 1)). pose proof (Nat.div_le_mono 2 (items + 1) 2). simpl in *. lia.
    + destruct Hfirst as (id & x0 & t0 & H0 & Hl0); [lia|]. exists id, x0, t0. split; [done|].
      rewrite lookup_insert_ne; [done|]. congruence.
Qed.

Lemma dispatch_loop run_id ulids items workers worker_ids clock acc i w :
  2 <= workers -> length worker_ids = workers ->
  (forall j j', j < items -> j' < items -> content_id_of (payload j) = content_id_of (payload j') -> j = j') ->
  i <= items -> dispatching run_id ulids items worker_ids i w ->
  wp (mfold (dispatch_one run_id worker_ids items workers clock) acc (seq i (items - i))) (fun r w' =>
    dispatching run_id ulids items worker_ids items w' /\ exists ids evs, r = Ok (acc ++ ids) /\ length ids = items - i /\
    Forall2 (fun ev id => exists x, ev = dispatched_event run_id x id) evs ids /\
    attempts (k_emitter w') = attempts (k_emitter w) ++ evs) w.
Proof.
  intros Hw Hlen Hinj. remember (items - i) as n eqn:Hn. revert acc i w Hn.
  induction n as [|n IH]; intros acc i w Hn Hi Hd; simpl.
  { apply wp_ret. replace items with i by lia. split; [by replace i with items in Hd by lia; replace i with items by lia|].
    exists [], []. by rewrite !app_nil_r. }
  apply wp_bind. eapply wp_mono; [by apply dispatch_one_spec; try done; lia|].
  intros r w1 (Hd1 & x & id & -> & Ha1). eapply wp_mono; [apply (IH _ (S i)); [lia|lia|done]|].
  intros r w2 (Hd2 & ids & evs & -> & Hl & Hf & Ha2). split; [done|]. exists (id :: ids), (dispatched_event run_id x id :: evs).
  rewrite <- app_assoc. split; [done|]. split; [simpl; lia|]. split; [constructor; eauto|].
  by rewrite Ha2, Ha1, <- app_assoc.
Qed.
(** ** The steal and the last completions *)
Lemma load_zero run_id m L x : ledger_is run_id m L ->
  load run_id m x = 0 <-> forall id t, L !! id <> Some (Running x t).
Proof.
  intros HL. unfold load. split.
  - intros Hz id t Hl. apply nil_length_inv in Hz.
    assert (mkWork id (Running x t) ∈ filter (fun r => running_on x r = true) (records run_id m)) as Hin.
    { apply list_elem_of_filter. unfold running_on; simpl. rewrite bool_decide_eq_true_2 by done. split; [done|].
      by apply (elem_of_ledger run_id m L (mkWork id (Running x t)) HL). }
    rewrite Hz in Hin. by apply not_elem_of_nil in Hin.
  - intros Hn. destruct (filter _ _) as [|rec l] eqn:Hf0; [done|]. exfalso.
    assert (rec ∈ filter (fun r => running_on x r = true) (records run_id m)) as [Hr Hin]%list_elem_of_filter
      by (rewrite Hf0; set_solver).
    apply (elem_of_ledger run_id m L rec HL) in Hin. unfold running_on in Hr.
    destruct (state rec) as [|w t| |]; try done. apply bool_decide_eq_true in Hr. subst w. by apply Hn in Hin.
Qed.

(** The ledger after [stolen] moved to the thief. *)
Definition moved (thief : WorkerId) (now_ms : N) (stolen : list ContentId) (L : gmap ContentId WorkState)
  : gmap ContentId WorkState := foldl (fun L id => <[id := Running thief now_ms]> L) L stolen.

Lemma moved_ledger run_id m thief now_ms stolen L : ledger_is run_id m L ->
  ledger_is run_id (stolen_from run_id m thief now_ms stolen) (moved thief now_ms stolen L).
Proof.
  unfold stolen_from, moved. revert m L. induction stolen as [|id l IH]; intros m L HL; simpl; [done|].
  by apply IH, ledger_is_insert.
Qed.

Lemma lookup_moved thief now_ms stolen L id : moved thief now_ms stolen L !! id =
  if decide (id ∈ stolen) then Some (Running thief now_ms) else L !! id.
Proof.
  unfold moved. revert L. induction stolen as [|x l IH]; intros L; simpl; [done|]. rewrite IH.
  destruct (decide (id = x)) as [->|Hne].
  - rewrite (decide_True (P := _ ∈ _ :: _)) by set_solver. case_decide; [done|]. by rewrite lookup_insert_eq.
  - rewrite lookup_insert_ne by done. repeat case_decide; set_solver.
Qed.

Lemma open_items_eq L L' :
  (forall id s', L' !! id = Some s' -> is_done s' = false -> exists s, L !! id = Some s /\ is_done s = false) ->
  (forall id s, L !! id = Some s -> is_done s = false -> exists s', L' !! id = Some s' /\ is_done s' = false) ->
  open_items L' = open_items L.
Proof.
  intros H1 H2. unfold open_items. rewrite <- !size_dom. f_equal. apply set_eq. intros id.
  rewrite !elem_of_dom. split; intros [s Hs]; apply map_lookup_filter_Some in Hs as [Hs Hd].
  - destruct (H1 id s Hs Hd) as (s0 & ? & ?). exists s0. by apply map_lookup_filter_Some_2.
  - destruct (H2 id s Hs Hd) as (s0 & ? & ?). exists s0. by apply map_lookup_filter_Some_2.
Qed.

(** What completing several workers in turn makes of an item. *)
Definition complete_by (ws : list WorkerId) (id : ContentId) (s : WorkState) : WorkState :=
  match s with
  | Running w _ => if decide (w ∈ ws) then Done (mock_result id) else s
  | _ => s
  end.

Lemma complete_workers_loop run_id ws n L w : healthy (k_store w) -> ledger_is run_id (contents (k_store w)) L ->
  wp (mfold (fun n x => let* k := complete_worker run_id x run_id in mret (n + k)) n ws) (fun r w' =>
    exists L' evs, is_ok r = true /\ healthy (k_store w') /\ ledger_is run_id (contents (k_store w')) L' /\
    (forall id, L' !! id = complete_by ws id <$> L !! id) /\ open_items L' + length evs = open_items L /\
    (forall k, in_work run_id k = false -> contents (k_store w') !! k = contents (k_store w) !! k) /\
    Forall (fun ev => topic ev = "work_completed") evs /\
    attempts (k_emitter w') = attempts (k_emitter w) ++ evs) w.
Proof.
  revert n L w. induction ws as [|x ws IH]; intros n L w Hh HL; simpl.
  { apply wp_ret. exists L, []. rewrite Nat.add_0_r, app_nil_r. split_and!; try done.
    intros id. by destruct (L !! id) as [[]|]. }
  apply wp_bind, wp_bind. eapply wp_mono; [by apply (complete_worker_spec run_id x L)|].
  intros r w1 (ids & L1 & -> & Hh1 & HL1 & Hl1 & Ho1 & Hk1 & Ha1). apply wp_ret.
  eapply wp_mono; [by apply (IH (n + length ids) L1 w1)|].
  intros r w2 (L2 & evs & Hr & Hh2 & HL2 & Hl2 & Ho2 & Hk2 & Hf & Ha2).
  exists L2, ((completed_event run_id x <$> ids) ++ evs). rewrite length_app, length_fmap. split_and!; try done.
  - intros id. rewrite Hl2, Hl1. destruct (L !! id) as [s|]; [|done]. simpl. f_equal.
    destruct s as [|y t| |]; try done. unfold complete_if, complete_by. destruct (decide (y = x)) as [->|Hne].
    + by rewrite decide_True by set_solver.
    + repeat case_decide; set_solver.
  - lia.
  - intros k Hk. by rewrite Hk2, Hk1.
  - apply Forall_app. split; [|done]. apply Forall_fmap, Forall_forall. done.
  - by rewrite Ha2, Ha1, <- app_assoc.
Qed.

Lemma emit_stolen run_id thief stolen w :
  wp (on_emitter (mfold (fun _ id => emit (stolen_event run_id thief id)) tt stolen)) (fun r w' => r = Ok tt /\
    k_store w' = k_store w /\
    attempts (k_emitter w') = attempts (k_emitter w) ++ (stolen_event run_id thief <$> stolen)) w.
Proof.
  apply wp_zoom. destruct w as [s e]; cbn [k_store k_emitter].
  revert e. induction stolen as [|id l IH]; intros e; simpl; [apply wp_ret; by rewrite app_nil_r|].
  apply wp_bind. pose proof (emit_law (stolen_event run_id thief id) e) as Hl. unfold wp at 1 in Hl. unfold wp at 1.
  rewrite Hemit. eapply wp_mono; [apply IH|]. intros r e2 (-> & _ & Ha). rewrite Ha, Hl, <- app_assoc. done.
Qed.
(** ** The run *)
Definition run_done_event (run_id : RunId) (items done stolen : nat) : Event :=
  domain_event run_id None "run_done"
    [("items", Num (N.of_nat items)); ("done", Num (N.of_nat done)); ("stolen", Num (N.of_nat stolen))].

(** What the run has reported: a dispatch per item, then completions of which some
    come before the steal and the rest after it, then the end of the run. *)
Definition run_events (run_id : RunId) (items : nat) (thief : WorkerId) (evs : list Event) : Prop :=
  exists ds cs1 stolen cs2,
    evs = ds ++ cs1 ++ (stolen_event run_id thief <$> stolen) ++ cs2 ++ [run_done_event run_id items items (length stolen)] /\
    length ds = items /\ Forall (fun ev => topic ev = "work_dispatched") ds /\
    length cs1 + length cs2 = items /\ Forall (fun ev => topic ev = "work_completed") (cs1 ++ cs2) /\
    0 < length stolen <= 32.

(** Everything is [Running] on a worker of the run or done with its result. *)
Definition in_flight_or_done (worker_ids : list WorkerId) (L : gmap ContentId WorkState) : Prop :=
  forall id s, L !! id = Some s ->
    s = Done (mock_result id) \/ exists x t, s = Running x t /\ x ∈ worker_ids.

Lemma steal_happens run_id thief now_ms x0 id0 t0 L w : healthy w -> ledger_is run_id (contents w) L ->
  x0 <> thief -> L !! id0 = Some (Running x0 t0) -> (forall id t, L !! id <> Some (Running thief t)) ->
  wp (handle_steal_request run_id thief now_ms) (fun r w' => healthy w' /\ exists stolen, r = Ok stolen /\
    0 < length stolen <= 32 /\ contents w' = stolen_from run_id (contents w) thief now_ms stolen /\
    ledger_is run_id (contents w') (moved thief now_ms stolen L) /\
    open_items (moved thief now_ms stolen L) = open_items L /\
    forall id, id ∈ stolen -> is_Some (L !! id)) w.
Proof.
  intros Hh HL Hne Hx0 Hidle. pose proof (ledger_is_wf _ _ _ HL) as Hwf.
  eapply wp_mono; [apply wp_and; [by apply handle_steal_request_post|by apply handle_steal_request_healthy]|].
  intros [stolen|e] w' [Hp Hh']; [|done]. split; [done|]. exists stolen. split; [done|].
  destruct Hp as (Hc & Hnd & Hcase).
  assert (Hx : load run_id (contents w) x0 <> 0) by (intros Hz; exact (proj1 (load_zero _ _ _ x0 HL) Hz id0 t0 Hx0)).
  unfold steal_outcome in Hcase.
  rewrite decide_False in Hcase by (rewrite (proj2 (load_zero _ _ _ thief HL) Hidle); lia).
  destruct Hcase as [[-> Hl]|(victim & Hvne & _ & Hmax & Hlen & Hrows & _)].
  - by rewrite Hl in Hx.
  - assert (Hrun : forall id, id ∈ stolen -> exists t, L !! id = Some (Running victim t)).
    { intros id Hid. destruct (Hrows id Hid) as [t Ht]. exists t. by apply (ledger_is_row run_id (contents w)). }
    split_and!; try done.
    + specialize (Hmax x0 Hne). unfold no_busier in Hmax; simpl in Hmax. rewrite Hlen.
      pose proof (steal_count_bounds (load run_id (contents w) victim)). lia.
    + rewrite Hlen. unfold steal_count, MAX_STEAL_BATCH. lia.
    + rewrite Hc. by apply moved_ledger.
    + apply open_items_eq; intros id s; rewrite lookup_moved; case_decide as Hid.
      * destruct (Hrun id Hid) as [t ->]. eauto.
      * eauto.
      * intros _ _. by eexists.
      * eauto.
    + intros id Hid. destruct (Hrun id Hid) as [t ->]. eauto.
Qed.

(** The map of a finished run: every item done, so all of them counted. *)
Lemma all_done L : (forall id s, L !! id = Some s -> is_done s = true) ->
  open_items L = 0 /\ length (filter (fun kv => is_done kv.2 = true) (map_to_list L)) = size L.
Proof.
  intros Hd. split.
  - unfold open_items. apply map_size_empty_iff, map_empty. intros id. apply map_lookup_filter_None.
    right. intros s Hl. simpl. by rewrite (Hd id s Hl).
  - rewrite <- length_map_to_list. f_equal.
    assert (forall kv, kv ∈ map_to_list L -> is_done kv.2 = true) as Hall.
    { intros [id s] Hl%elem_of_map_to_list. by eapply Hd. }
    induction (map_to_list L) as [|kv l IH]; [done|]. rewrite filter_cons, decide_True by (apply Hall; set_solver).
    f_equal. apply IH. intros kv' Hkv. apply Hall. set_solver.
Qed.

(** The queue holds the items and the run has no work yet. *)
Lemma enqueue_items_spec run_id ulids items worker_ids w :
  (forall i j, i < items -> j < items -> ulids i = ulids j -> i = j) -> healthy (k_store w) ->
  (forall k, in_work run_id k = true \/ in_queue run_id k = true -> contents (k_store w) !! k = None) ->
  wp (on_store (enqueue_items run_id items ulids)) (fun r w' => r = Ok tt /\
    dispatching run_id ulids items worker_ids 0 w' /\ k_emitter w' = k_emitter w) w.
Proof.
  intros Hulids Hh Hfresh. apply wp_zoom. unfold enqueue_items. apply wp_bind.
  eapply wp_mono; [apply begin_law|]. intros [t|e] s1 ((Hc1 & _ & Hh1) & Ht); [destruct Ht as [Hv _]|done].
  apply wp_bind. eapply wp_mono; [apply (enqueue_loop run_id ulids); auto|].
  intros r s2 (Hc2 & Hh2 & t2 & -> & Hv2). eapply wp_mono; [apply commit_law|].
  intros [[]|e] s3 (Hh3 & Hr3); [destruct Hr3 as [Hc3 _]|by destruct Hr3]. split; [done|]. split; [|done].
  split; [simpl; auto|]. exists (set_seq 0 items), ∅. cbn [k_store]. rewrite Hc3, Hv2, Hv. split_and!; try done.
  - apply queue_is_enqueued; [done|]. intros k Hk. apply Hfresh. auto.
  - apply (ledger_is_other _ (contents (k_store w))).
    + intros k Hk. clear - Hk UT. generalize (contents (k_store w)) as m. generalize (seq 0 items) as l.
      induction l as [|i l IH]; intros m; simpl; [done|]. rewrite IH, lookup_insert_ne; [done|]. intros <-.
      rewrite (in_work_not_queue run_id) in Hk by apply queue_key_in. done.
    + intros k v Hk. rewrite Hfresh by auto. split; [done|]. intros (id & s & Hl & _). by rewrite lookup_empty in Hl.
  - rewrite size_set_seq. lia.
  - intros j Hj Hn. destruct Hn. apply elem_of_set_seq. lia.
  - lia.
Qed.

(** Completing every worker after the steal finishes every item. *)
Lemma all_completed (worker_ids : list WorkerId) (thief : WorkerId) (now : N) (stolen : list ContentId) (L L1 L3 : gmap ContentId WorkState) :
  (forall id s, L !! id = Some s -> exists x t, s = Running x t /\ x ∈ worker_ids) -> thief ∈ worker_ids ->
  (forall id, L1 !! id = complete_if thief id <$> L !! id) -> (forall id, id ∈ stolen -> is_Some (L1 !! id)) ->
  (forall id, L3 !! id = complete_by worker_ids id <$> moved thief now stolen L1 !! id) ->
  size L3 = size L /\ forall id, L3 !! id = (fun _ => Done (mock_result id)) <$> L !! id.
Proof.
  intros Hrun Hthin Hl1 Hin Hl3.
  assert (HL3' : forall id, L3 !! id = (fun _ => Done (mock_result id)) <$> L !! id).
  { intros id. rewrite Hl3, lookup_moved. case_decide as Hid.
    - destruct (Hin id Hid) as [s Hs]. rewrite Hl1 in Hs. destruct (L !! id); [|done]. simpl. by rewrite decide_True.
    - rewrite Hl1. destruct (L !! id) as [s|] eqn:Hl; [|done]. simpl. f_equal.
      destruct (Hrun id s Hl) as (x & t' & -> & Hx). simpl.
      case_decide; [done|]. simpl. by rewrite decide_True. }
  split; [|done]. rewrite <- !size_dom. f_equal. apply set_eq. intros id. by rewrite !elem_of_dom, HL3', fmap_is_Some.
Qed.

(** The events, put together. *)
Lemma run_events_intro run_id items thief ids ds ids1 stolen cs :
  length ids = items -> Forall2 (fun ev id => exists x, ev = dispatched_event run_id x id) ds ids ->
  length ids1 + length cs = items -> Forall (fun ev => topic ev = "work_completed") cs -> 0 < length stolen <= 32 ->
  run_events run_id items thief (ds ++ (completed_event run_id thief <$> ids1) ++
    (stolen_event run_id thief <$> stolen) ++ cs ++ [run_done_event run_id items items (length stolen)]).
Proof.
  intros Hlids Hds Hlen Hcs Hst. exists ds, (completed_event run_id thief <$> ids1), stolen, cs.
  rewrite length_fmap. split_and!; try done; try lia.
  - by rewrite (Forall2_length _ _ _ Hds).
  - clear - Hds. induction Hds as [|ev id evs l [x ->] _ IH]; constructor; done.
  - apply Forall_app. split; [|done]. by apply Forall_fmap, Forall_forall.
Qed.

Lemma stolen_keeps_queue run_id m thief now_ms ids k : in_queue run_id k = true ->
  stolen_from run_id m thief now_ms ids !! k = m !! k.
Proof.
  intros Hk%in_work_not_queue. rewrite lookup_stolen_from. destruct (list_find _ ids) as [[i id]|] eqn:Hf; [|done].
  apply list_find_Some in Hf as (_ & <- & _). unfold in_work in Hk. by rewrite work_key_in_range in Hk.
Qed.

Lemma running_all_open (worker_ids : list WorkerId) L :
  (forall id s, L !! id = Some s -> exists x t, s = Running x t /\ x ∈ worker_ids) -> open_items L = size L.
Proof.
  intros HL. unfold open_items. rewrite map_filter_id; [done|]. intros id s Hl.
  by destruct (HL id s Hl) as (? & ? & -> & _).
Qed.

Lemma mock_run_done run_id items workers worker_ids ulids clock steal_now thief w
    (Hw : 2 <= workers) (Hitems : workers <= items) (Hlen : length worker_ids = workers)
    (Hnd : NoDup worker_ids) (Hthief : last worker_ids = Some thief)
    (Hulids : forall i j, i < items -> j < items -> ulids i = ulids j -> i = j)
    (Hids : forall i j, i < items -> j < items -> content_id_of (payload i) = content_id_of (payload j) -> i = j)
    (Hh : healthy (k_store w))
    (Hfresh : forall k, in_work run_id k = true \/ in_queue run_id k = true -> contents (k_store w) !! k = None) :
  wp (mock_run run_id items workers worker_ids ulids clock steal_now) (fun r w' => r = Ok items /\
    (forall j, j < items -> contents (k_store w') !! work_key run_id (content_id_of (payload j)) =
       Some (encode (mkWork (content_id_of (payload j)) (Done (mock_result (content_id_of (payload j))))))) /\
    (forall k, in_queue run_id k = true -> contents (k_store w') !! k = None) /\
    exists evs, attempts (k_emitter w') = attempts (k_emitter w) ++ evs /\ run_events run_id items thief evs) w.
Proof.
  unfold mock_run. rewrite (decide_False (P := workers < 2)) by lia. rewrite decide_False by lia.
  apply wp_bind, wp_lift_err. eapply wp_mono; [by apply (enqueue_items_spec run_id ulids items worker_ids)|].
  intros r w3 (-> & Hd0 & He3).
  apply wp_bind. eapply wp_mono.
  { replace (seq 0 items) with (seq 0 (items - 0)) by (f_equal; lia).
    eapply (dispatch_loop run_id ulids items workers worker_ids clock [] 0 w3); (done || lia). }
  intros r w4 (Hd & ids & ds & -> & Hlids & Hds & Ha4).
  destruct Hd as (Hh4 & Q & L & HQ & HL & _ & HszQ & HszL & Hdisp & Hrun & Hfirst).
  rewrite Hthief. destruct Hfirst as (id0 & x0 & t0 & Hx0 & Hid0); [lia|].
  apply wp_bind, wp_lift_err. eapply wp_mono; [by apply (complete_worker_spec run_id thief L)|].
  intros r w5 (ids1 & L1 & -> & Hh5 & HL1 & Hl1 & Ho1 & Hk1 & Ha5).
  assert (Hne : x0 <> thief).
  { intros ->. rewrite last_lookup in Hthief. pose proof (NoDup_lookup _ _ _ _ Hnd Hx0 Hthief). lia. }
  apply wp_bind, wp_lift_err, wp_zoom. eapply wp_mono.
  { apply (steal_happens run_id thief steal_now x0 id0 t0 L1); [done..| |].
    - rewrite Hl1, Hid0. simpl. by rewrite decide_False.
    - intros id t'. rewrite Hl1. destruct (L !! id) as [[]|]; simpl; try done. by case_decide; naive_solver. }
  intros r s6 (Hh6 & stolen & -> & Hst & Hc6 & HL2 & Ho2 & Hin).
  apply wp_bind, wp_lift_err. eapply wp_mono; [apply emit_stolen|]. intros r w7 (-> & Hs7 & Ha7).
  cbn [k_store k_emitter] in Hs7, Ha7. subst s6.
  apply wp_bind, wp_lift_err, wp_zoom. eapply wp_mono; [by apply (count_done_spec run_id _ (k_store w7) HL2)|].
  intros r s8 (Hc8 & Hh8 & ->). apply wp_bind, wp_lift_err. rewrite <- Hc8 in HL2.
  eapply wp_mono; [by apply (complete_workers_loop run_id worker_ids _ _ (mkMock s8 (k_emitter w7)) Hh8 HL2)|].
  intros [n|e] w9 (L3 & cs & Hok & Hh9 & HL3 & Hl3 & Ho3 & Hk3 & Hf3 & Ha9); [|done].
  assert (Hthin : thief ∈ worker_ids) by (rewrite last_lookup in Hthief; by eapply list_elem_of_lookup_2).
  assert (Hrun' : forall id s, L !! id = Some s -> exists x t, s = Running x t /\ x ∈ worker_ids).
  { intros id s Hl. destruct (Hrun id s Hl) as (j & x & t' & _ & _ & _ & ? & ?). eauto. }
  destruct (all_completed worker_ids thief steal_now stolen L L1 L3 Hrun' Hthin Hl1 Hin Hl3) as [Hsize HL3'].
  destruct (all_done L3) as [Hz Hcount].
  { intros id s. rewrite HL3'. destruct (L !! id); [|done]. by intros [= <-]. }
  apply wp_bind, wp_lift_err, wp_zoom. eapply wp_mono; [by apply (count_done_spec run_id L3)|].
  intros r s10 (Hc10 & Hh10 & ->). rewrite Hcount, Hsize, HszL. apply wp_bind, wp_lift_err, wp_mock_emit. intros e' He'. apply wp_ret.
  cbn [k_store k_emitter] in *. assert (HQe : Q ≡ ∅) by (apply size_empty_iff; lia).
  split; [done|]. rewrite Hc10. split; [|split].
  - intros j Hj. apply (ledger_is_row run_id _ L3); [done|]. rewrite HL3'.
    destruct (Hdisp j Hj) as [s Hs]; [set_solver|]. by rewrite Hs.
  - intros k Hk. pose proof (in_work_not_queue _ _ Hk) as Hkw.
    rewrite Hk3, Hc8, Hc6, stolen_keeps_queue, Hk1 by done. destruct (contents (k_store w4) !! k) as [v|] eqn:Hl; [|done].
    apply (HQ k v Hk) in Hl as (j & Hj & _). set_solver.
  - pose proof (running_all_open _ L Hrun') as Hopen.
    eexists. split; [by rewrite He', Ha9, Ha7, Ha5, Ha4, He3, <- !app_assoc|].
    apply (run_events_intro _ _ _ ids); try done; lia.
Qed.

(** C11: A run over a healthy store with at least two workers and an item for each
    always finishes: it answers that all its items are done, every item's row is
    [Done] with the mock result, nothing is left in the queue, and it has reported a
    dispatch and a completion per item and at least one steal. *)
Theorem mock_run_completes run_id items workers worker_ids ulids clock steal_now thief w
    (Hw : 2 <= workers) (Hitems : workers <= items) (Hlen : length worker_ids = workers)
    (Hnd : NoDup worker_ids) (Hthief : last worker_ids = Some thief)
    (Hulids : forall i j, i < items -> j < items -> ulids i = ulids j -> i = j)
    (Hids : forall i j, i < items -> j < items -> content_id_of (payload i) = content_id_of (payload j) -> i = j)
    (Hh : healthy (k_store w))
    (Hfresh : forall k, in_work run_id k = true \/ in_queue run_id k = true -> contents (k_store w) !! k = None) :
  wp (mock_run run_id items workers worker_ids ulids clock steal_now) (fun r w' => r = Ok items /\
    (forall j, j < items -> contents (k_store w') !! work_key run_id (content_id_of (payload j)) =
       Some (encode (mkWork (content_id_of (payload j)) (Done (mock_result (content_id_of (payload j))))))) /\
    (forall k, in_queue run_id k = true -> contents (k_store w') !! k = None) /\
    exists evs, attempts (k_emitter w') = attempts (k_emitter w) ++ evs /\ run_events run_id items thief evs) w.
Proof. by apply mock_run_done. Qed.
End mock_run.

Section mock_run_examples.
#[local] Existing Instance bits_codec.
#[local] Existing Instance unary_ulids.

Definition mock_world : MockWorld Mem.World NoopEmitter := mkMock (Mem.mkWorld ∅ [] []) (mkNoop []).

Lemma mock_run_completes_witness :
  fst (mock_run (ST := Mem.storage) (fun b => b) 1 2 2 [7; 8]%N (fun i => N.of_nat i) (fun i => N.of_nat i) 9 mock_world) = Ok 2.
Proof.
  refine (proj1 (mock_run_completes (fun b => b) _ 1 2 2 [7; 8]%N (fun i => N.of_nat i) (fun i => N.of_nat i) 9 8
    mock_world _ _ _ _ _ _ _ _ _)).
  - reflexivity.
  - lia.
  - lia.
  - reflexivity.
  - apply NoDup_cons. split; [intros H%list_elem_of_singleton; discriminate H|apply NoDup_singleton].
  - reflexivity.
  - intros i j _ _. apply Nat2N.inj.
  - intros [|[|i]] [|[|j]] Hi Hj H; try lia; vm_compute in H; discriminate H.
  - constructor.
  - reflexivity.
Defined.
End mock_run_examples.
