(* ===== verification/Drain.v ===== *)
(** The spot-preemption drain (rollout-coordinator/src/drain.rs): what it does, in
    which order, and what the snapshotter of this workspace makes of it. *)
From stdpp Require Import base option list strings pretty.
From S2P Require Import Prelude.
From S2P Require Import Core.
From S2P Require Import Snapshots.

Abbreviation QueueItemId := N.

Record DrainConfig : Type := mkDrain { notice_lead : N; drain_deadline : N }.   (* seconds *)
Definition drain_aws : DrainConfig := mkDrain 120 60.
Definition drain_gcp : DrainConfig := mkDrain 30 15.

(** What the drain did, in order. *)
Inductive drain_event : Type :=
| Signalled
| StopPull
| Nacked (id : QueueItemId)
| Saved (request : SnapshotRequest)
| Deregistered.

Section drain.
(** The services: each answers with the whole history in hand; [None] is an await
    during which the deadline fires. *)
Context (preemption_signal : list drain_event -> result CoreError (option N)).
Context (nack : list drain_event -> QueueItemId -> option (result CoreError unit)).
Context (deregister : list drain_event -> option (result CoreError unit)).

Abbreviation snapshotter_t := (list drain_event -> SnapshotRequest -> option (result CoreError Snapshot)).

Record SnapshotPlan : Type := mkPlan {
  snapshotter : option snapshotter_t;
  remaining_budget : N; snapshot_cost : N; plan_run : RunId; plan_algorithm : string;
}.

Abbreviation H := (list drain_event).

Definition exceeded (cfg : DrainConfig) : CoreError :=
  internal ("spot drain exceeded drain_deadline " +:+ pretty (drain_deadline cfg) +:+ "s (notice lead was "
            +:+ pretty (notice_lead cfg) +:+ "s)").

Definition step {A} (cfg : DrainConfig) (ev : drain_event) (answer : H -> option (result CoreError A))
  : M H CoreError A := fun h =>
  match answer h with
  | None => (Err (exceeded cfg), h ++ [ev])
  | Some r => (r, h ++ [ev])
  end.

Definition drain_request (snap : SnapshotPlan) : SnapshotRequest :=
  mkRequest (plan_run snap) (plan_algorithm snap) TrainState (Some "spot-drain") "null".

Definition drain (in_flight : list QueueItemId) (snap : SnapshotPlan) (cfg : DrainConfig)
  : M H CoreError unit :=
  let* _ := (fun h => (preemption_signal h, h ++ [Signalled])) in
  let* _ := (fun h => (Ok tt, h ++ [StopPull])) in
  let* _ := mfold (fun _ id => step cfg (Nacked id) (fun h => nack h id)) tt in_flight in
  let* _ := (match snapshotter snap with
             | Some save =>
                 if decide (snapshot_cost snap <= remaining_budget snap)%N then
                   let* _ := step cfg (Saved (drain_request snap)) (fun h => save h (drain_request snap)) in
                   mret tt
                 else mret tt
             | None => mret tt
             end) in
  step cfg Deregistered deregister.

(** The sequence of a drain that runs to its end. *)
Definition drain_plan (in_flight : list QueueItemId) (snap : SnapshotPlan) : list drain_event :=
  Signalled :: StopPull :: (Nacked <$> in_flight) ++
  (if decide (is_Some (snapshotter snap) /\ (snapshot_cost snap <= remaining_budget snap)%N)
   then [Saved (drain_request snap)] else []) ++ [Deregistered].

Lemma wp_step {A} cfg ev (answer : H -> option (result CoreError A)) (Q : result CoreError A -> H -> Prop) h :
  (forall r, (answer h = Some r \/ (answer h = None /\ r = Err (exceeded cfg))) -> Q r (h ++ [ev])) ->
  wp (step cfg ev answer) Q h.
Proof. intros HQ. unfold wp, step. destruct (answer h) as [r|]; apply HQ; auto. Qed.

Lemma nack_all_spec cfg ids h :
  wp (mfold (fun _ id => step cfg (Nacked id) (fun h => nack h id)) tt ids)
     (fun r h' => exists done rest, ids = done ++ rest /\ h' = h ++ (Nacked <$> done) /\
                  (is_ok r = true -> rest = [])) h.
Proof.
  eapply wp_mono.
  { apply (wp_mfold _ (fun _ rest h' => exists done, ids = done ++ rest /\ h' = h ++ (Nacked <$> done))
      (fun _ h' => exists done rest, ids = done ++ rest /\ h' = h ++ (Nacked <$> done))).
    - intros acc id rest h1 (done & -> & ->). apply wp_step. intros r _.
      assert ((h ++ (Nacked <$> done)) ++ [Nacked id] = h ++ (Nacked <$> (done ++ [id]))) as ->
        by (by rewrite fmap_app, app_assoc).
      destruct r as [u|e]; [exists (done ++ [id])|exists (done ++ [id]), rest]; by rewrite <- app_assoc.
    - exists []. by rewrite app_nil_r. }
  intros [u|e] h'.
  - intros (done & -> & ->). by exists done, [].
  - intros (done & rest & -> & ->). by exists done, rest.
Qed.

(** Whatever the services answer and wherever the deadline or an error cuts
    it, a drain does a prefix of: stop pulling, hand back every item in flight in
    order, save a snapshot when there is a snapshotter and the budget covers it,
    deregister.  It succeeds only after all of it, so a worker never leaves the
    registry before its work was handed back. *)
Theorem drain_order in_flight snap cfg :
  wp (drain in_flight snap cfg) (fun r h =>
    h `prefix_of` drain_plan in_flight snap /\ (is_ok r = true -> h = drain_plan in_flight snap) /\
    (Deregistered ∈ h -> h = drain_plan in_flight snap)) [].
Proof.
  unfold drain, drain_plan. apply wp_bind. unfold wp at 1; cbn [fst snd app].
  destruct (preemption_signal []) as [o|e].
  2:{ split_and!; [by eexists|done|set_solver]. }
  apply wp_bind. unfold wp at 1; cbn [fst snd app].
  apply wp_bind. eapply wp_mono; [apply nack_all_spec|]. intros r h (seen & rest & -> & -> & Hr).
  set (tail := (if decide _ then _ else _) ++ _).
  destruct r as [u|e].
  2:{ split_and!; [|done|].
      - exists ((Nacked <$> rest) ++ tail). rewrite fmap_app. cbn [app]. by rewrite !app_assoc.
      - cbn [app]. rewrite !elem_of_cons, list_elem_of_fmap. naive_solver. }
  rewrite (Hr eq_refl), app_nil_r. set (h := [Signalled; StopPull] ++ (Nacked <$> seen)).
  assert (Hno : Deregistered ∉ h). { unfold h. cbn [app]. rewrite !elem_of_cons, list_elem_of_fmap. naive_solver. }
  change (Signalled :: StopPull :: (Nacked <$> seen) ++ tail) with (h ++ tail).
  assert (Hlast : forall h1 l, h1 = h ++ l -> tail = l ++ [Deregistered] -> Deregistered ∉ l ->
    wp (step cfg Deregistered deregister) (fun r h2 =>
      h2 `prefix_of` h ++ tail /\ (is_ok r = true -> h2 = h ++ tail) /\ (Deregistered ∈ h2 -> h2 = h ++ tail)) h1).
  { intros h1 l -> Ht Hl. apply wp_step. intros r _. rewrite <- app_assoc, <- Ht. split_and!; done. }
  apply wp_bind. destruct (snapshotter snap) as [save|] eqn:Hs.
  - case_decide as Hb.
    + assert (Ht : tail = [Saved (drain_request snap)] ++ [Deregistered]).
      { unfold tail. by rewrite decide_True by (split; [by eexists|done]). }
      apply wp_bind, wp_step. intros [sn|e] _.
      * apply wp_ret. by apply (Hlast _ _ eq_refl Ht); set_solver.
      * rewrite Ht. split_and!; [|done|set_solver]. exists [Deregistered]. by rewrite <- app_assoc.
    + assert (Ht : tail = [Deregistered]). { unfold tail. by rewrite decide_False by tauto. }
      apply wp_ret. apply (Hlast _ []); [by rewrite app_nil_r|done|set_solver].
  - assert (Ht : tail = [Deregistered]).
    { unfold tail. by rewrite decide_False by (intros [[? ?] _]; done). }
    apply wp_ret. apply (Hlast _ []); [by rewrite app_nil_r|done|set_solver].
Qed.

(** With the workspace's own [Snapshotter], which refuses the [TrainState]
    kind, a drain whose budget allows the snapshot always fails and never
    deregisters the worker. *)
Theorem drain_with_snapshotter_fails in_flight snap cfg
    (Hsnap : snapshotter snap = Some (fun _ request => Some (save request)))
    (Hbudget : (snapshot_cost snap <= remaining_budget snap)%N) :
  wp (drain in_flight snap cfg) (fun r h => is_ok r = false /\ Deregistered ∉ h) [].
Proof.
  unfold drain. apply wp_bind. unfold wp at 1; cbn [fst snd app].
  destruct (preemption_signal []) as [o|e]; [|set_solver].
  apply wp_bind. unfold wp at 1; cbn [fst snd app].
  apply wp_bind. eapply wp_mono; [apply nack_all_spec|]. intros r h (seen & rest & -> & -> & _).
  assert (Hno : Deregistered ∉ [Signalled; StopPull] ++ (Nacked <$> seen)).
  { cbn [app]. rewrite !elem_of_cons, list_elem_of_fmap. naive_solver. }
  destruct r as [u|e]; [|done]. rewrite Hsnap, decide_True by done.
  apply wp_bind, wp_bind, wp_step. intros r [[= <-]|[? _]]; [|done].
  split; [done|]. set_solver.
Qed.
End drain.

Section drain_examples.
Definition plan_ex : SnapshotPlan :=
  mkPlan (Some (fun _ request => Some (save request))) 30 5 1 "sft".

Lemma drain_with_snapshotter_fails_witness :
  wp (drain (fun _ => Ok (Some 120%N)) (fun _ _ => Some (Ok tt)) (fun _ => Some (Ok tt)) [7%N; 8%N] plan_ex drain_aws)
     (fun r h => (is_ok r = false /\ Deregistered ∉ h) /\
                 h = [Signalled; StopPull; Nacked 7; Nacked 8; Saved (drain_request plan_ex)]) [].
Proof.
  apply wp_and.
  - apply drain_with_snapshotter_fails; [reflexivity|]. vm_compute. discriminate.
  - vm_compute. reflexivity.
Defined.
End drain_examples.
