(* ===== verification/Sandbox.v ===== *)
(** The sandbox the tools run in (rollout-harness-tool/src/sandbox/): the path check
    of the file tools, the seccomp filter, the cgroup subtree and the layered
    launcher of the exec tools. *)
From stdpp Require Import base option list gmap strings pretty.
From S2P Require Import Prelude.
From S2P Require Import Text.
From S2P Require Import Core.

Definition config_invalid (msg : string) : CoreError := Fatal (ConfigInvalid msg).

(** ** Paths (capfs.rs): [Path::components] on Unix *)
Inductive Component : Type := RootDir | CurDir | ParentDir | Normal (name : bytes).
#[global] Instance Component_eq_dec : EqDecision Component.
Proof. solve_decision. Defined.

Definition slash : byte := x2f.
Definition dot : bytes := [x2e].
Definition dotdot : bytes := [x2e; x2e].

Definition segments (p : bytes) : list bytes := split (fun b => bool_decide (b = slash)) p.
Definition is_absolute (p : bytes) : bool := match p with b :: _ => bool_decide (b = slash) | [] => false end.

(** Empty segments and ["."] are skipped, except a leading ["."]. *)
Definition component (s : bytes) : option Component :=
  if decide (s = [] \/ s = dot) then None
  else if decide (s = dotdot) then Some ParentDir
  else Some (Normal s).
Definition components (p : bytes) : list Component :=
  (if is_absolute p then [RootDir]
   else match segments p with s :: _ => if decide (s = dot) then [CurDir] else [] | [] => [] end)
  ++ omap component (segments p).

Fixpoint reject_components (shown : string) (cs : list Component) : result CoreError unit :=
  match cs with
  | [] => Ok tt
  | ParentDir :: _ | RootDir :: _ => Err (config_invalid ("path escape rejected: " +:+ shown))
  | Normal _ :: cs' | CurDir :: cs' => reject_components shown cs'
  end.

Definition reject_escape (rel : string) : result CoreError unit :=
  if is_absolute (bytes_of rel) then Err (config_invalid ("absolute path rejected: " +:+ rel))
  else reject_components rel (components (bytes_of rel)).

(** Where a path leads from a directory, symbolic links aside. *)
Definition descend (dir : list bytes) (c : Component) : list bytes :=
  match c with
  | RootDir => []
  | CurDir => dir
  | ParentDir => take (length dir - 1) dir
  | Normal s => dir ++ [s]
  end.

Definition file_name (s : bytes) : Prop := s <> [] /\ s <> dot /\ s <> dotdot /\ slash ∉ s.

Lemma reject_components_ok shown cs :
  reject_components shown cs = Ok tt <-> Forall (fun c => c = CurDir \/ exists s, c = Normal s) cs.
Proof.
  induction cs as [|c cs IH]; simpl; [split; [by constructor|done]|].
  destruct c; rewrite ?IH; rewrite Forall_cons; naive_solver.
Qed.

Lemma segment_no_slash p s : s ∈ segments p -> slash ∉ s.
Proof.
  intros Hs Hin. pose proof (split_free (fun b => bool_decide (b = slash)) p) as Hf.
  rewrite Forall_forall in Hf. specialize (Hf s Hs). rewrite Forall_forall in Hf.
  specialize (Hf slash Hin). by apply bool_decide_eq_false in Hf.
Qed.

Lemma components_relative p c : is_absolute p = false -> c ∈ components p ->
  c = CurDir \/ exists s, s ∈ segments p /\ component s = Some c.
Proof.
  intros Ha. unfold components. rewrite Ha, elem_of_app. intros [Hc|(s & Hs & Hc)%list_elem_of_omap]; [|eauto].
  left. destruct (segments p); [by apply not_elem_of_nil in Hc|]. case_decide; set_solver.
Qed.

(** The check lets a path through exactly when it is relative and has no [".."]
    segment, and such a path can only lead down: from any directory it ends below
    it, through segments that are proper file names. *)
Theorem reject_escape_confines rel :
  (reject_escape rel = Ok tt <->
     head (bytes_of rel) <> Some x2f /\ [x2e; x2e] ∉ split (fun b => bool_decide (b = x2f)) (bytes_of rel)) /\
  (reject_escape rel = Ok tt -> forall root, exists names,
     foldl descend root (components (bytes_of rel)) = root ++ names /\ Forall file_name names).
Proof.
  assert (reject_escape rel = Ok tt <-> is_absolute (bytes_of rel) = false /\
    Forall (fun c => c = CurDir \/ exists s, c = Normal s) (components (bytes_of rel))) as Hok.
  { unfold reject_escape. destruct (is_absolute (bytes_of rel)); [naive_solver|]. rewrite reject_components_ok. tauto. }
  split.
  - rewrite Hok. assert (is_absolute (bytes_of rel) = false <-> head (bytes_of rel) <> Some x2f) as <-.
    { unfold is_absolute. destruct (bytes_of rel) as [|b l]; simpl; [done|]. rewrite bool_decide_eq_false. unfold slash. naive_solver. }
    fold slash. fold (segments (bytes_of rel)). fold dotdot. split; intros [Ha Hf]; (split; [done|]).
    + intros Hin. rewrite Forall_forall in Hf. destruct (Hf ParentDir) as [?|[? ?]]; [|done..].
      unfold components. apply elem_of_app. right. apply list_elem_of_omap. by exists dotdot.
    + apply Forall_forall. intros c Hc. destruct (components_relative _ _ Ha Hc) as [->|(s & Hs & Hc')]; [by left|].
      right. unfold component in Hc'. repeat case_decide; simplify_eq; eauto. by subst.
  - rewrite Hok. intros [Ha Hf] root. set (cs := components (bytes_of rel)) in *.
    assert (Hnames : forall s, Normal s ∈ cs -> file_name s).
    { intros s Hs. destruct (components_relative _ _ Ha Hs) as [?|(s' & Hs' & Hc)]; [done|].
      unfold component in Hc. repeat case_decide; simplify_eq. split_and!; try naive_solver. by eapply segment_no_slash. }
    clearbody cs. clear Hok. revert root. induction Hf as [|c cs Hc Hf IH]; intros root; simpl; [exists []; by rewrite app_nil_r|].
    assert (forall s, Normal s ∈ cs -> file_name s) as Hn' by (intros s Hs; apply Hnames; set_solver).
    destruct Hc as [->|[s ->]]; simpl; [by apply IH|].
    destruct (IH Hn' (root ++ [s])) as (names & -> & Hall). exists (s :: names). rewrite <- app_assoc.
    split; [done|]. constructor; [apply Hnames; set_solver|done].
Qed.

(** ** The seccomp filter (seccomp.rs).  System calls go by the names of their
    [libc] constants. *)
Inductive SeccompAction : Type := Allow | Errno (e : N).
(** [SeccompCondition] with [MaskedEq]: argument, mask, masked value. *)
Record SeccompCondition : Type := mkCond { cond_arg : nat; cond_mask : N; cond_value : N }.
Abbreviation SeccompRule := (list SeccompCondition).
Record SeccompFilter : Type := mkFilter {
  rules : gmap string (list SeccompRule); mismatch_action : SeccompAction; match_action : SeccompAction;
}.

Definition EPERM : N := 1.
Definition CLONE_NEWUSER : N := 0x10000000.

Definition ALLOWLIST : list string :=
  ["clone3"; "clone";
   "openat2"; "openat"; "read"; "write"; "close"; "lseek"; "pread64"; "pwrite64"; "faccessat2";
   "rseq"; "arch_prctl"; "set_robust_list"; "set_tid_address"; "futex"; "futex_waitv"; "prctl";
   "rt_sigprocmask"; "rt_sigaction"; "rt_sigreturn"; "sigaltstack"; "pidfd_send_signal";
   "mmap"; "munmap"; "mprotect"; "brk"; "madvise"; "mremap";
   "exit"; "exit_group"; "getpid"; "gettid"; "getrandom"; "clock_gettime"; "nanosleep"; "clock_nanosleep";
   "getuid"; "geteuid"; "getgid"; "getegid";
   "execve"; "execveat";
   "getdents64"; "statx"; "newfstatat"; "fstat"; "readlinkat";
   "epoll_create1"; "epoll_ctl"; "epoll_wait"; "pipe2"; "dup"; "dup3"; "fcntl"].

Definition clone_rule : SeccompRule := [mkCond 0 CLONE_NEWUSER 0].

(** The loop of [build_filter] over the allowlist. *)
Definition filter_rules : gmap string (list SeccompRule) :=
  foldl (fun rules syscall =>
    if decide (syscall = "clone" \/ syscall = "clone3") then <[syscall := [clone_rule]]> rules
    else <[syscall := []]> rules) ∅ ALLOWLIST.

Section seccomp.
(** The seccompiler crate: whether the architecture is supported, and its own checks
    of conditions, filters and programs. *)
Context (arch : result string unit) (cond_new : SeccompCondition -> result string unit)
        (rule_new : SeccompRule -> result string unit)
        (filter_new filter_compile : SeccompFilter -> result string unit).

Definition lift_msg {A} (what : string) (r : result string A) : result CoreError A :=
  match r with Ok a => Ok a | Err e => Err (config_invalid (what +:+ ": " +:+ e)) end.

Definition build_filter : result CoreError SeccompFilter :=
  let? _ := lift_msg "unsupported seccomp target arch" arch in
  let? _ := lift_msg "clone flag condition" (cond_new (mkCond 0 CLONE_NEWUSER 0)) in
  let? _ := lift_msg "clone rule" (rule_new clone_rule) in
  let f := mkFilter filter_rules (Errno EPERM) Allow in
  let? _ := lift_msg "seccomp filter build" (filter_new f) in
  let? _ := lift_msg "seccomp bpf compile" (filter_compile f) in
  Ok f.

(** What the compiled program answers, by the crate's documentation: the mismatch
    action for a system call without an entry; the match action for an entry without
    rules, or when all conditions of one of its rules hold. *)
Definition cond_holds (args : list N) (c : SeccompCondition) : bool :=
  bool_decide (N.land (default 0%N (args !! cond_arg c)) (cond_mask c) = cond_value c).
Definition verdict (f : SeccompFilter) (syscall : string) (args : list N) : SeccompAction :=
  match rules f !! syscall with
  | None => mismatch_action f
  | Some [] => match_action f
  | Some rs => if existsb (forallb (cond_holds args)) rs then match_action f else mismatch_action f
  end.

Definition flagged (syscall : string) : Prop := syscall = "clone" \/ syscall = "clone3".
#[local] Instance flagged_dec syscall : Decision (flagged syscall).
Proof. unfold flagged. apply _. Defined.

Lemma filter_rules_lookup syscall : filter_rules !! syscall =
  if decide (syscall ∈ ALLOWLIST) then Some (if decide (flagged syscall) then [clone_rule] else []) else None.
Proof.
  unfold filter_rules.
  assert (forall l (m : gmap string (list SeccompRule)), foldl (fun rules syscall =>
    if decide (syscall = "clone" \/ syscall = "clone3") then <[syscall := [clone_rule]]> rules
    else <[syscall := []]> rules) m l !! syscall =
    if decide (syscall ∈ l) then Some (if decide (flagged syscall) then [clone_rule] else []) else m !! syscall) as H.
  { induction l as [|x l IH]; intros m; cbn [foldl]; [done|]. rewrite IH.
    destruct (decide (syscall ∈ l)) as [Hl|Hl]; [by rewrite (decide_True (P := _ ∈ _ :: _)) by (rewrite elem_of_cons; auto)|].
    destruct (decide (syscall = x)) as [->|Hne].
    - rewrite (decide_True (P := _ ∈ _ :: _)) by (rewrite elem_of_cons; auto). unfold flagged. case_decide; by rewrite lookup_insert_eq.
    - rewrite (decide_False (P := _ ∈ _ :: _)) by (rewrite elem_of_cons; naive_solver). case_decide; by rewrite lookup_insert_ne. }
  by rewrite H, lookup_empty.
Qed.

(** A filter that builds denies with [EPERM] every system call outside the
    allowlist (among them ptrace, mount, key management, bpf, sockets and unshare)
    and allows those on it, except [clone] and [clone3], which it allows exactly when
    the [CLONE_NEWUSER] bit of their first argument is clear; for [clone3] that
    argument is the address of the flags, so what the filter tests there is a bit of
    the address. *)
Theorem seccomp_denies_by_default f (Hb : build_filter = Ok f) :
  (forall syscall args, verdict f syscall args =
     if decide (syscall ∈ ALLOWLIST /\ (flagged syscall -> N.testbit (default 0%N (args !! 0)) 28 = false))
     then Allow else Errno 1) /\
  Forall (fun syscall => forall args, verdict f syscall args = Errno 1)
    ["ptrace"; "mount"; "umount2"; "keyctl"; "add_key"; "request_key"; "bpf"; "socket"; "connect"; "bind"; "unshare"].
Proof.
  assert (f = mkFilter filter_rules (Errno EPERM) Allow) as ->.
  { unfold build_filter, lift_msg in Hb. destruct arch, (cond_new _), (rule_new _), (filter_new _), (filter_compile _);
      simpl in Hb; congruence. }
  assert (Hv : forall syscall args, verdict (mkFilter filter_rules (Errno EPERM) Allow) syscall args =
     if decide (syscall ∈ ALLOWLIST /\ (flagged syscall -> N.testbit (default 0%N (args !! 0)) 28 = false))
     then Allow else Errno 1).
  { intros syscall args. unfold verdict; cbn [rules mismatch_action match_action]. rewrite filter_rules_lookup.
    destruct (decide (syscall ∈ ALLOWLIST)) as [Hin|Hin]; [|rewrite decide_False by tauto; done].
    destruct (decide (flagged syscall)) as [Hf|Hf]; [|rewrite decide_True by tauto; done].
    cbn [existsb forallb clone_rule]. unfold cond_holds; cbn [cond_arg cond_mask cond_value].
    rewrite andb_true_r, orb_false_r. set (a := default 0%N (args !! 0)).
    assert (N.land a CLONE_NEWUSER = 0%N <-> N.testbit a 28 = false) as Hbit.
    { change CLONE_NEWUSER with (2 ^ 28)%N. split.
      - intros H0. pose proof (N.land_spec a (2 ^ 28) 28) as Hl. rewrite H0, N.bits_0, N.pow2_bits_true, andb_true_r in Hl. done.
      - intros Ht. apply N.bits_inj. intros n. rewrite N.land_spec, N.bits_0.
        destruct (decide (n = 28%N)) as [->|Hn]; [by rewrite Ht|]. rewrite N.pow2_bits_false by congruence. apply andb_false_r. }
    destruct (decide (N.testbit a 28 = false)) as [Ht|Ht].
    - rewrite bool_decide_eq_true_2, decide_True by tauto. done.
    - rewrite bool_decide_eq_false_2, decide_False by tauto. done. }
  split; [done|]. repeat constructor; intros args; rewrite Hv; (rewrite decide_False; [done|]); intros [Hin _];
    revert Hin; by apply bool_decide_eq_false.
Qed.
End seccomp.

(** ** The launcher (launcher.rs, cgroup.rs) *)
Record Rlimits : Type := mkRlimits { cpu_secs : N; as_bytes : N; nofile : N; nproc : N }.
Definition Rlimits_default : Rlimits := mkRlimits 10 536870912 64 64.

Record ExecRequest : Type := mkExec {
  exact_path : string; argv : list string; timeout_secs : N; exec_tempdir : string;
  rlimits : Rlimits; memory_max : option N; pids_max : option N;
}.
Record ExecResult : Type := mkExecResult {
  exit_code : Z; stdout : bytes; stderr : bytes; exec_timed_out : bool;
}.

Inductive Namespace : Type := NewUser | NewPid | NewNet | NewNs | NewUts | NewIpc.
Inductive Resource : Type := Cpu | As | Nofile | Nproc.

(** What the launcher asks of the system, in order. *)
Inductive sys : Type :=
| OpenWrite (path : string)
| CreateDirAll (path : string)
| WriteFile (path contents : string)
| RemoveDir (path : string)
| Fork
| Unshare (flags : list Namespace)
| SetRlimit (r : Resource) (limit : N)
| Landlock (rw ro : list string)
| ApplyFilter (f : SeccompFilter)
| Exec (path : string) (args : list string) (envs : list (string * string)) (cwd : string)
| Kill.

Definition NAMESPACE_FLAGS : list Namespace := [NewUser; NewPid; NewNet; NewNs; NewUts; NewIpc].

(** A child: its pid, what [try_wait] answers at each poll ([Some code] when it has
    exited, with no code if a signal ended it), the clock (the reading that sets the
    deadline, then one per poll, in milliseconds), what [wait] answers after the
    kill, and what its pipes hold in the end. *)
Record Child : Type := mkChild {
  pid : N; try_wait : nat -> result string (option (option Z)); clock : nat -> N;
  wait_killed : result string (option Z); out_pipe : bytes; err_pipe : bytes;
}.

Section launcher.
(** The operating system answers each call with the whole history in hand. *)
Context (os : list sys -> sys -> result string unit) (child_of : list sys -> Child) (process_id : N).
Context (build_filter : result CoreError SeccompFilter).

Abbreviation H := (list sys).

Definition call (ev : sys) : M H string unit := fun h => (os h ev, h ++ [ev]).
(** [.map_err(|e| fatal(format!("{what}: {e}")))]. *)
Definition fatal_of {A} (what : string) (m : M H string A) : M H failure A := fun h =>
  match m h with
  | (Ok a, h') => (Ok a, h')
  | (Err e, h') => (Err (Failure (config_invalid (what +:+ ": " +:+ e))), h')
  end.

Definition delegated_tree : M H string (option string) :=
  let* writable := mcatch (call (OpenWrite "/sys/fs/cgroup/cgroup.subtree_control")) in
  mret (if is_ok writable then Some "/sys/fs/cgroup" else None).

Definition write_limit (path : string) (limit : option N) : M H string unit :=
  match limit with Some n => call (WriteFile path (pretty n)) | None => mret tt end.

Definition cgroup_create (name : string) (memory_max pids_max : option N) : M H string (option string) :=
  let* tree := delegated_tree in
  match tree with
  | None => mret None
  | Some parent =>
      let dir := parent +:+ "/rollout-tool-" +:+ name in
      let* _ := call (CreateDirAll dir) in
      let* _ := write_limit (dir +:+ "/memory.max") memory_max in
      let* _ := write_limit (dir +:+ "/pids.max") pids_max in
      mret (Some dir)
  end.

Definition join_pid (dir : string) (p : N) : M H string unit :=
  call (WriteFile (dir +:+ "/cgroup.procs") (pretty p)).

(** [impl Drop for CgroupSubtree]: when the scope that holds it ends, however it ends. *)
Definition dropping {A} (cgroup : option string) (m : M H failure A) : M H failure A := fun h =>
  let '(r, h') := m h in
  match cgroup with Some dir => (r, h' ++ [RemoveDir dir]) | None => (r, h') end.

(** [io::Error::other]: no errno, so the parent sees [EINVAL]. *)
Definition other_error (m : M H string unit) : M H string unit := fun h =>
  match m h with
  | (Ok a, h') => (Ok a, h')
  | (Err _, h') => (Err "Invalid argument (os error 22)", h')
  end.

(** One limit, soft and hard alike; the landlock rules: the temporary directory to be
    read and written, the binary and [/usr] to be read and executed, nothing else. *)
Definition set_rlimit (resource : Resource) (limit : N) : M H string unit := call (SetRlimit resource limit).
Definition apply_landlock (tempdir binary : string) : M H string unit := call (Landlock [tempdir] [binary; "/usr"]).

(** The [pre_exec] hook. *)
Definition pre_exec (tempdir binary : string) (limits : Rlimits) (bpf : SeccompFilter) : M H string unit :=
  let* _ := mcatch (call (Unshare NAMESPACE_FLAGS)) in
  let* _ := set_rlimit Cpu (cpu_secs limits) in
  let* _ := set_rlimit As (as_bytes limits) in
  let* _ := set_rlimit Nofile (nofile limits) in
  let* _ := set_rlimit Nproc (nproc limits) in
  let* _ := other_error (apply_landlock tempdir binary) in
  other_error (call (ApplyFilter bpf)).

(** [Command::spawn]: fork, the hook and [execve] in the child, whose failure the
    parent gets back. *)
Definition spawn (req : ExecRequest) (bpf : SeccompFilter) : M H string unit :=
  let* _ := call Fork in
  let* _ := pre_exec (exec_tempdir req) (exact_path req) (rlimits req) bpf in
  call (Exec (exact_path req) (drop 1 (argv req))
          [("PATH", "/usr/bin:/bin"); ("HOME", exec_tempdir req); ("TMPDIR", exec_tempdir req)] (exec_tempdir req)).

(** The polling loop of [wait_with_timeout], the [i]-th poll next. *)
Fixpoint wait_loop (fuel i : nat) (child : Child) (deadline : N) : M H failure (option Z * bool) :=
  match fuel with
  | O => mthrow (Unwound "out of fuel")
  | S fuel' =>
      match try_wait child i with
      | Ok (Some status) => mret (status, false)
      | Ok None =>
          if decide (deadline <= clock child (S i))%N then
            let* _ := fatal_of "" (mcatch (call Kill)) in
            match wait_killed child with
            | Ok s => mret (s, true)
            | Err e => mthrow (Failure (config_invalid ("wait after kill: " +:+ e)))
            end
          else wait_loop fuel' (S i) child deadline
      | Err e => mthrow (Failure (config_invalid ("try_wait: " +:+ e)))
      end
  end.

(** Polls five milliseconds apart until the deadline, and one more. *)
Definition poll_fuel (timeout : N) : nat := 2 + N.to_nat (timeout * 1000 / 5).

Definition wait_with_timeout (child : Child) (timeout : N) : M H failure ExecResult :=
  if decide (2 ^ 63 <= clock child 0 / 1000 + timeout)%N
  then mthrow (Unwound "overflow when adding duration to instant")
  else
    let deadline := (clock child 0 + timeout * 1000)%N in
    let* '(status, timed_out) := wait_loop (poll_fuel timeout) 0 child deadline in
    mret (mkExecResult (default (-1)%Z status) (out_pipe child) (err_pipe child) timed_out).

(** The child joins the subtree if its pid fits, whatever comes of it. *)
Definition join_cgroup (cgroup : option string) (child : Child) : M H failure unit :=
  match cgroup with
  | Some dir =>
      if decide (pid child < 2 ^ 31)%N
      then let* _ := fatal_of "" (mcatch (join_pid dir (pid child))) in mret tt
      else mret tt
  | None => mret tt
  end.

Definition launch (req : ExecRequest) : M H failure ExecResult :=
  let* cgroup := fatal_of "cgroup setup" (cgroup_create (pretty process_id) (memory_max req) (pids_max req)) in
  dropping cgroup (
    let* bpf := lift_err (mlift build_filter) in
    let* _ := fatal_of ("spawn " +:+ exact_path req) (spawn req bpf) in
    let* child := (fun h => (Ok (child_of h), h)) in
    let* _ := join_cgroup cgroup child in
    wait_with_timeout child (timeout_secs req)).

(** ** The poll loop ends *)
(** The clock goes forward by the sleep between two polls. *)
Definition ticks (child : Child) : Prop :=
  (clock child 0 <= clock child 1)%N /\ forall i, (clock child (S i) + 5 <= clock child (S (S i)))%N.

Lemma ticks_from child i : ticks child -> (clock child 0 + 5 * N.of_nat i <= clock child (S i))%N.
Proof. intros [H0 H5]. induction i as [|i IH]; [lia|]. specialize (H5 i). lia. Qed.

(** The child still ran at polls [i..k-1], none of them past the deadline. *)
Definition still_running (child : Child) (deadline : N) (i k : nat) : Prop :=
  forall j, i <= j < k -> try_wait child j = Ok None /\ (clock child (S j) < deadline)%N.

(** What the wait of a child answers, and what it does to it. *)
Definition waited {A} (child : Child) (deadline : N) (i : nat) (result_of : option Z -> bool -> A)
    (h : H) (r : result failure A) (h' : H) : Prop :=
  exists k, i <= k /\ still_running child deadline i k /\
    match try_wait child k with
    | Ok (Some status) => h' = h /\ r = Ok (result_of status false)
    | Ok None => h' = h ++ [Kill] /\ (deadline <= clock child (S k))%N /\
        match wait_killed child with
        | Ok s => r = Ok (result_of s true)
        | Err e => r = Err (Failure (config_invalid ("wait after kill: " +:+ e)))
        end
    | Err e => h' = h /\ r = Err (Failure (config_invalid ("try_wait: " +:+ e)))
    end.

Lemma wait_loop_spec child deadline fuel i h : ticks child ->
  (deadline <= clock child 0 + 5 * N.of_nat (i + fuel - 1))%N -> 0 < fuel ->
  wp (wait_loop fuel i child deadline) (fun r h' => waited child deadline i pair h r h') h.
Proof.
  intros Ht. revert i. induction fuel as [|fuel IH]; intros i Hd Hf; [lia|]. cbn [wait_loop].
  assert (Hnow : still_running child deadline i i) by (intros j ?; lia).
  destruct (try_wait child i) as [[status|]|e] eqn:Hw.
  - apply wp_ret. exists i. by rewrite Hw.
  - pose proof (ticks_from child i Ht) as Hi. case_decide as Hdl.
    + apply wp_bind. unfold wp, fatal_of, mcatch, call; cbn [fst snd].
      destruct (wait_killed child) eqn:Hk; exists i; by rewrite Hw, Hk.
    + destruct fuel as [|fuel].
      { exfalso. apply Hdl. replace (i + 1 - 1) with i in Hd by lia. lia. }
      eapply wp_mono; [apply (IH (S i)); [|lia]|].
      { replace (S i + S fuel - 1) with (i + S (S fuel) - 1) by lia. done. }
      intros r h' (k & Hk & Hrun & Hr). exists k. split; [lia|]. split; [|done].
      intros j Hj. destruct (decide (j = i)) as [->|]; [split; [done|lia]|]. apply Hrun. lia.
  - exists i. by rewrite Hw.
Qed.

Lemma poll_fuel_enough start timeout :
  (start + timeout * 1000 <= start + 5 * N.of_nat (0 + poll_fuel timeout - 1))%N.
Proof.
  unfold poll_fuel. pose proof (N.div_mod (timeout * 1000) 5 ltac:(lia)) as Hdm.
  pose proof (N.mod_upper_bound (timeout * 1000) 5 ltac:(lia)) as Hub.
  generalize dependent (timeout * 1000 / 5)%N. generalize dependent ((timeout * 1000) mod 5)%N. intros m Hm q Hq. lia.
Qed.

(** Waiting for a child always returns: with its exit code if it exits before
    the first poll past the deadline, and otherwise, killed, as timed out. *)
Theorem wait_with_timeout_returns child timeout h
    (Ht : ticks child) (Hclock : (clock child 0 / 1000 + timeout < 2 ^ 63)%N) :
  wp (wait_with_timeout child timeout) (fun r h' => exists k,
    (forall j, j < k -> try_wait child j = Ok None /\ (clock child (S j) < clock child 0 + timeout * 1000)%N) /\
    match try_wait child k with
    | Ok (Some status) => h' = h /\ r = Ok (mkExecResult (default (-1)%Z status) (out_pipe child) (err_pipe child) false)
    | Ok None => h' = h ++ [Kill] /\ (clock child 0 + timeout * 1000 <= clock child (S k))%N /\
        match wait_killed child with
        | Ok status => r = Ok (mkExecResult (default (-1)%Z status) (out_pipe child) (err_pipe child) true)
        | Err e => r = Err (Failure (config_invalid ("wait after kill: " +:+ e)))
        end
    | Err e => h' = h /\ r = Err (Failure (config_invalid ("try_wait: " +:+ e)))
    end) h.
Proof.
  unfold wait_with_timeout. rewrite decide_False by lia. apply wp_bind.
  eapply wp_mono; [apply wait_loop_spec; [done| |apply Nat.lt_0_succ]|].
  { apply poll_fuel_enough. }
  intros r h' (k & _ & Hrun & Hk).
  assert (forall j, j < k -> try_wait child j = Ok None /\ (clock child (S j) < clock child 0 + timeout * 1000)%N) as Hj
    by (intros j ?; apply Hrun; lia).
  destruct (try_wait child k) as [[status|]|e] eqn:Hw.
  - destruct Hk as [-> ->]. apply wp_ret. exists k. by rewrite Hw.
  - destruct Hk as (-> & Hd & Hr). destruct (wait_killed child) eqn:Hwk; subst r.
    + apply wp_ret. exists k. by rewrite Hw.
    + exists k. by rewrite Hw.
  - destruct Hk as [-> ->]. exists k. by rewrite Hw.
Qed.

(** ** What reaches [execve] *)
Definition quiet (ev : sys) : Prop := match ev with Fork | Exec _ _ _ _ => False | _ => True end.

(** A computation that only appends events of a kind. *)
Definition appends {E A} (P : sys -> Prop) (m : M H E A) : Prop :=
  forall h, wp m (fun _ h' => exists post, h' = h ++ post /\ Forall P post) h.

Lemma appends_ret {E A} P (a : A) : appends (E := E) P (mret a).
Proof. intros h. apply wp_ret. exists []. by rewrite app_nil_r. Qed.
Lemma appends_throw {E A} P (e : E) : appends (A := A) P (mthrow e).
Proof. intros h. exists []. simpl. by rewrite app_nil_r. Qed.
Lemma appends_bind {E A B} P (m : M H E A) (k : A -> M H E B) :
  appends P m -> (forall a, appends P (k a)) -> appends P (mbind_ m k).
Proof.
  intros Hm Hk h. apply wp_bind. eapply wp_mono; [apply Hm|]. intros [a|e] h1 (p1 & -> & H1); [|eauto].
  eapply wp_mono; [apply Hk|]. intros r h2 (p2 & -> & H2). exists (p1 ++ p2). rewrite <- app_assoc.
  split; [done|]. by apply Forall_app.
Qed.
Lemma appends_call (P : sys -> Prop) ev : P ev -> appends P (call ev).
Proof. intros HP h. exists [ev]. by rewrite Forall_singleton. Qed.
Lemma appends_catch {E A} P (m : M H E A) : appends P m -> appends P (mcatch m).
Proof. intros Hm h. apply wp_catch, Hm. Qed.
Lemma appends_fatal {A} P what (m : M H string A) : appends P m -> appends P (fatal_of what m).
Proof. intros Hm h. specialize (Hm h). unfold wp, fatal_of in *. by destruct (m h) as [[a|e] h']. Qed.

Lemma cgroup_create_quiet name m p : appends quiet (cgroup_create name m p).
Proof.
  unfold cgroup_create, delegated_tree, write_limit.
  apply appends_bind; [apply appends_bind; [by apply appends_catch, appends_call|intros; apply appends_ret]|].
  intros [parent|]; [|apply appends_ret]. cbv zeta.
  repeat (apply appends_bind; [|intros []]); try (by apply appends_call); try apply appends_ret.
  - destruct m; [by apply appends_call|apply appends_ret].
  - destruct p; [by apply appends_call|apply appends_ret].
Qed.

Lemma wait_quiet child timeout : appends quiet (wait_with_timeout child timeout).
Proof.
  unfold wait_with_timeout. case_decide; [apply appends_throw|]. apply appends_bind; [|intros []; apply appends_ret].
  generalize (clock child 0 + timeout * 1000)%N as d. generalize (poll_fuel timeout) as fuel, 0 as i.
  intros fuel i d. revert i. induction fuel as [|fuel IH]; intros i; cbn [wait_loop]; [apply appends_throw|].
  destruct (try_wait child i) as [[status|]|e]; [apply appends_ret| |apply appends_throw].
  case_decide; [|apply IH]. apply appends_bind; [by apply appends_fatal, appends_catch, appends_call|].
  intros _. destruct (wait_killed child); [apply appends_ret|apply appends_throw].
Qed.

Lemma after_spawn_quiet cgroup timeout : appends quiet (
  let* child := (fun h => (Ok (child_of h), h)) in
  let* _ := join_cgroup cgroup child in wait_with_timeout child timeout).
Proof.
  apply appends_bind; [intros h0; exists []; by rewrite app_nil_r|]. intros child.
  apply appends_bind; [|intros; apply wait_quiet]. destruct cgroup; [|apply appends_ret]. simpl.
  case_decide; [|apply appends_ret]. apply appends_bind; [by apply appends_fatal, appends_catch, appends_call|].
  intros; apply appends_ret.
Qed.

(** A sequence of calls, each with whether its failure is ignored. *)
Fixpoint run_plan (plan : list (sys * bool)) : M H string unit :=
  match plan with
  | [] => mret tt
  | (ev, ignored) :: plan' =>
      let* _ := (if ignored : bool then let* _ := mcatch (call ev) in mret tt else call ev) in run_plan plan'
  end.

Lemma run_plan_spec plan h :
  wp (run_plan plan) (fun r h' => exists k, k <= length plan /\ h' = h ++ take k (plan.*1) /\
    (is_ok r = true -> k = length plan) /\
    forall i ev, S i < k -> plan !! i = Some (ev, false) -> os (h ++ take i (plan.*1)) ev = Ok tt) h.
Proof.
  revert h. induction plan as [|[ev ignored] plan IH]; intros h; cbn [run_plan].
  { apply wp_ret. exists 0. rewrite take_0, app_nil_r. done. }
  apply wp_bind. assert (forall r1, wp (if ignored : bool then let* _ := mcatch (call ev) in mret tt else call ev) r1 h =
    r1 (if ignored then Ok tt else os h ev) (h ++ [ev])) as Hstep by (by destruct ignored).
  rewrite Hstep.
  destruct (if ignored then Ok tt else os h ev) as [[]|e] eqn:Hr.
  - eapply wp_mono; [apply IH|]. intros r h' (k & Hk & -> & Hok & Hall). exists (S k). simpl.
    split; [lia|]. split; [by rewrite <- app_assoc|]. split; [intros ?; f_equal; auto|].
    intros [|i] ev' Hi; simpl.
    + intros [= -> ->]. by rewrite app_nil_r.
    + intros Hl. specialize (Hall i ev' ltac:(lia) Hl). by rewrite <- app_assoc in Hall.
  - exists 1. simpl. rewrite take_0. split; [lia|]. split; [done|]. split; [done|]. intros i ev' Hi. lia.
Qed.

(** The calls of a spawn, in order; only the namespaces are best effort. *)
Definition spawn_plan (req : ExecRequest) (bpf : SeccompFilter) : list (sys * bool) :=
  [(Fork, false);
   (Unshare [NewUser; NewPid; NewNet; NewNs; NewUts; NewIpc], true);
   (SetRlimit Cpu (cpu_secs (rlimits req)), false); (SetRlimit As (as_bytes (rlimits req)), false);
   (SetRlimit Nofile (nofile (rlimits req)), false); (SetRlimit Nproc (nproc (rlimits req)), false);
   (Landlock [exec_tempdir req] [exact_path req; "/usr"], false); (ApplyFilter bpf, false);
   (Exec (exact_path req) (drop 1 (argv req))
      [("PATH", "/usr/bin:/bin"); ("HOME", exec_tempdir req); ("TMPDIR", exec_tempdir req)] (exec_tempdir req), false)].

(** A call with some continuation, whatever its error is turned into. *)
Lemma same_step (m m' : M H string unit) (k k' : M H string unit) h :
  snd (m h) = snd (m' h) -> is_ok (fst (m h)) = is_ok (fst (m' h)) ->
  (forall h1, snd (k h1) = snd (k' h1) /\ is_ok (fst (k h1)) = is_ok (fst (k' h1))) ->
  let a := (let* _ := m in k) h in let b := (let* _ := m' in k') h in
  snd a = snd b /\ is_ok (fst a) = is_ok (fst b).
Proof.
  intros Hs Ho Hk. unfold mbind_. destruct (m h) as [[[]|e] h1], (m' h) as [[[]|e'] h2]; simpl in *; try done.
  subst h2. apply Hk.
Qed.

Lemma same_other m h : snd (other_error m h) = snd (m h) /\ is_ok (fst (other_error m h)) = is_ok (fst (m h)).
Proof. unfold other_error. by destruct (m h) as [[]]. Qed.

Lemma mbind_assoc {A B C} (m : M H string A) (f : A -> M H string B) (g : B -> M H string C) h :
  mbind_ (mbind_ m f) g h = mbind_ m (fun a => mbind_ (f a) g) h.
Proof. unfold mbind_. by destruct (m h) as [[]]. Qed.

Lemma ignored_call {B} ev (k : result string unit -> M H string B) h :
  mbind_ (mcatch (call ev)) k h = k (os h ev) (h ++ [ev]).
Proof. done. Qed.

Lemma ret_call {B} (k : unit -> M H string B) h : mbind_ (mret tt) k h = k tt h.
Proof. done. Qed.

Lemma spawn_run_plan req bpf h :
  snd (spawn req bpf h) = snd (run_plan (spawn_plan req bpf) h) /\
  is_ok (fst (spawn req bpf h)) = is_ok (fst (run_plan (spawn_plan req bpf) h)).
Proof.
  unfold spawn, pre_exec, set_rlimit, apply_landlock, spawn_plan. cbn [run_plan].
  repeat (rewrite mbind_assoc || rewrite ignored_call || rewrite ret_call || (apply same_step;
    [first [reflexivity|apply same_other]|first [reflexivity|apply same_other]|intros ?])).
  unfold mbind_, call, mret. by case_match.
Qed.

(** C16: However the system answers, a launch executes at most one binary, the one
    requested, with its arguments, a cleared environment and the tempdir as its
    directory; and only as the last of a fixed sequence of calls in the child, every
    one of which has succeeded but the optional namespaces: the four resource limits,
    the landlock rules, and the seccomp filter last.  A launch that answers a result
    went through all of it. *)
Theorem launch_confined req h :
  wp (launch req) (fun r h' => exists pre done post,
    h' = h ++ pre ++ done ++ post /\ Forall quiet pre /\ Forall quiet post /\
    (done = [] \/ exists bpf k, build_filter = Ok bpf /\ done = take k ((spawn_plan req bpf).*1) /\
       forall i ev, S i < k -> spawn_plan req bpf !! i = Some (ev, false) ->
         os (h ++ pre ++ take i ((spawn_plan req bpf).*1)) ev = Ok tt) /\
    (is_ok r = true -> exists bpf, build_filter = Ok bpf /\ done = (spawn_plan req bpf).*1)) h.
Proof.
  unfold launch. apply wp_bind. eapply wp_mono; [apply appends_fatal, cgroup_create_quiet|].
  intros [cgroup|e] h1 (pre & -> & Hpre).
  2:{ exists pre, [], []. rewrite !app_nil_r. split_and!; try done. by left. }
  set (body := mbind_ _ _).
  assert (wp body (fun r h' => exists done post, h' = h ++ pre ++ done ++ post /\ Forall quiet post /\
    (done = [] \/ exists bpf k, build_filter = Ok bpf /\ done = take k ((spawn_plan req bpf).*1) /\
       forall i ev, S i < k -> spawn_plan req bpf !! i = Some (ev, false) ->
         os (h ++ pre ++ take i ((spawn_plan req bpf).*1)) ev = Ok tt) /\
    (is_ok r = true -> exists bpf, build_filter = Ok bpf /\ done = (spawn_plan req bpf).*1)) (h ++ pre)) as Hbody.
  { unfold body. apply wp_bind, wp_lift_err, wp_lift. destruct build_filter as [bpf|e] eqn:Hf.
    2:{ exists [], []. rewrite !app_nil_r. split_and!; try done. by left. }
    apply wp_bind. destruct (spawn_run_plan req bpf (h ++ pre)) as [Hs Hok].
    pose proof (run_plan_spec (spawn_plan req bpf) (h ++ pre)) as Hplan. unfold wp in Hplan. rewrite <- Hs, <- Hok in Hplan.
    unfold wp at 1, fatal_of. destruct (spawn req bpf (h ++ pre)) as [[[]|e] h2]; cbn [fst snd is_ok] in *;
      destruct Hplan as (k & Hk & -> & Hall & Hi).
    - specialize (Hall eq_refl). subst k.
      eapply wp_mono; [apply after_spawn_quiet|]. intros r h' (post & -> & Hpost).
      exists ((spawn_plan req bpf).*1), post. rewrite firstn_all2 in * by (by rewrite length_fmap).
      rewrite <- !app_assoc. split_and!; try done; [|eauto]. right. exists bpf, (length (spawn_plan req bpf)).
      rewrite firstn_all2 by (by rewrite length_fmap). split_and!; try done. intros i ev Hlt Hl. rewrite app_assoc. by apply Hi.
    - exists (take k ((spawn_plan req bpf).*1)), []. rewrite !app_nil_r, <- !app_assoc. split_and!; try done.
      right. exists bpf, k. split_and!; try done. intros i ev Hlt Hl. rewrite app_assoc. by apply Hi. }
  clearbody body. unfold wp, dropping in *. destruct (body (h ++ pre)) as [r h2]. cbn [fst snd] in Hbody.
  destruct Hbody as (done & post & -> & Hpost & Hdone & Hok). destruct cgroup as [dir|]; cbn [fst snd].
  - exists pre, done, (post ++ [RemoveDir dir]). rewrite <- !app_assoc. split_and!; try done.
    apply Forall_app. by rewrite Forall_singleton.
  - by exists pre, done, post.
Qed.

(** ** A launch over a clock that ticks does not unwind *)
Definition never_unwinds {A} (m : M H failure A) : Prop := forall h, wp m (fun r _ => forall msg, r <> Err (Unwound msg)) h.

Lemma never_unwinds_bind {A B} (m : M H failure A) (k : A -> M H failure B) :
  never_unwinds m -> (forall a, never_unwinds (k a)) -> never_unwinds (mbind_ m k).
Proof.
  intros Hm Hk h. apply wp_bind. eapply wp_mono; [apply Hm|]. intros [a|e] h1 H1; [apply Hk|].
  intros msg [= ->]. by apply (H1 msg).
Qed.
Lemma never_unwinds_fatal {A} what (m : M H string A) : never_unwinds (fatal_of what m).
Proof. intros h. unfold wp, fatal_of. by destruct (m h) as [[a|e] h']. Qed.

Lemma launch_never_unwinds req :
  (forall h, ticks (child_of h) /\ (clock (child_of h) 0 / 1000 + timeout_secs req < 2 ^ 63)%N) ->
  never_unwinds (launch req).
Proof.
  intros Hc. unfold launch. apply never_unwinds_bind; [apply never_unwinds_fatal|]. intros cgroup h.
  set (body := mbind_ _ _). assert (never_unwinds body) as Hb.
  { apply never_unwinds_bind; [intros h0; by destruct build_filter|]. intros bpf.
    apply never_unwinds_bind; [apply never_unwinds_fatal|]. intros _ h1. apply wp_bind. unfold wp at 1; cbn [fst snd].
    apply wp_bind. eapply wp_mono with (Q := fun r _ => r = Ok tt).
    - unfold join_cgroup. destruct cgroup as [dir|]; [|by apply wp_ret]. case_decide; [|by apply wp_ret].
      apply wp_bind. by unfold wp, fatal_of, mcatch, call; cbn [fst snd].
    - intros r h2 ->. destruct (Hc h1) as [Ht Hclock].
      assert (wp (wait_with_timeout (child_of h1) (timeout_secs req)) (fun r _ => forall msg, r <> Err (Unwound msg)) h2);
        [|done].
      unfold wait_with_timeout. rewrite decide_False by lia. apply wp_bind.
      eapply wp_mono; [apply wait_loop_spec; [done| |apply Nat.lt_0_succ]|].
      + apply poll_fuel_enough.
      + intros r h' (k & _ & _ & Hk). destruct (try_wait _ k) as [[st|]|e].
        * destruct Hk as [_ ->]. by apply wp_ret.
        * destruct Hk as (_ & _ & Hk). destruct (wait_killed _); subst r; done.
        * by destruct Hk as [_ ->]. }
  clearbody body. specialize (Hb h). unfold wp, dropping in *. destruct (body h) as [r h']. by destruct cgroup.
Qed.
End launcher.

Section sandbox_examples.
Lemma reject_escape_confines_witness : reject_escape "a/./b" = Ok tt /\
  exists names, foldl descend [dotdot] (components (bytes_of "a/./b")) = [dotdot] ++ names /\ Forall file_name names.
Proof.
  split; [vm_compute; reflexivity|]. apply (proj2 (reject_escape_confines "a/./b")). vm_compute. reflexivity.
Defined.

Definition built : SeccompFilter := mkFilter filter_rules (Errno 1) Allow.
Lemma seccomp_denies_by_default_witness : verdict built "clone" [0x10000000%N] = Errno 1 /\ verdict built "read" [] = Allow.
Proof.
  assert (build_filter (Ok tt) (fun _ => Ok tt) (fun _ => Ok tt) (fun _ => Ok tt) (fun _ => Ok tt) = Ok built) as Hb by reflexivity.
  destruct (seccomp_denies_by_default _ _ _ _ _ built Hb) as [Hv _]. rewrite !Hv. split; vm_compute; reflexivity.
Defined.

(** A child that is still running at its first two polls and exits before the third. *)
Definition quick_child : Child :=
  mkChild 100 (fun i => if decide (i < 2) then Ok None else Ok (Some (Some 3%Z))) (fun i => 5 * N.of_nat i)%N
    (Ok None) [x61] [].
Lemma wait_with_timeout_returns_witness :
  fst (wait_with_timeout (fun _ _ => Ok tt) quick_child 10 []) = Ok (mkExecResult 3 [x61] [] false).
Proof.
  assert (ticks quick_child) as Ht by (split; [vm_compute; discriminate|intros i; unfold quick_child; cbn [clock]; lia]).
  destruct (wait_with_timeout_returns (fun _ _ => Ok tt) quick_child 10 [] Ht eq_refl) as (k & Hk & Hr).
  assert (k = 2) as ->.
  { destruct (decide (k < 2)) as [Hlt|Hge].
    - exfalso. destruct k as [|[|k]]; [| |lia]; vm_compute in Hr; destruct Hr as (_ & Hr & _); by apply Hr.
    - destruct (decide (k = 2)) as [|Hne]; [done|]. exfalso. destruct (Hk 2 ltac:(lia)) as [H2 _]. vm_compute in H2. discriminate H2. }
  exact (proj2 Hr).
Defined.
End sandbox_examples.
