(* ===== verification/Tools.v ===== *)
(** The tool harness (rollout-harness-tool/src/lib.rs, tools/): the settings and the
    kernel gate, what it advertises, and how a batch of calls is dispatched to the
    sandboxed exec tools, the file tools and the filtered HTTP tools. *)
From stdpp Require Import base option list gmap strings pretty.
From S2P Require Import Prelude.
From S2P Require Import Text.
From S2P Require Import Json.
From S2P Require Import Core.
From S2P Require Import Http.
From S2P Require Import Sandbox.

(** ** The harness types (rollout-core/src/traits/harness.rs) *)
Inductive SideEffectClass : Type := Pure | Filesystem | Network | ExecEffect.
Inductive ToolOutcome : Type := ToolSuccess | ToolError | ToolTimedOut.
Record ToolSpec : Type := mkToolSpec {
  spec_name : string; description : string; input_schema : json; side_effects : SideEffectClass; spec_timeout : N;
}.
Record ToolCall : Type := mkCall {
  call_id : Ulid; tool : string; args : json; ctx_worker : WorkerId; ctx_episode : option Ulid;
}.
Record ToolResult : Type := mkToolResult {
  result_call : Ulid; outcome_of : ToolOutcome; output : json; result_stderr : option string; duration : N;
}.

(** ** Settings (lib.rs) *)
Record ToolSettings : Type := mkTools {
  require_landlock : bool;
  enable_python_exec : bool; enable_shell : bool; enable_file_read : bool; enable_file_write : bool;
  python_path : string; shell_allowlist : gmap string string;
  timeout_secs : N; rlimit_cpu_secs : N; rlimit_as_bytes : N; rlimit_nofile : N; rlimit_nproc : N;
  cgroup_memory_max : option N; cgroup_pids_max : option N;
  enable_http_get : bool; enable_http_post : bool; egress_allowlist : list IpAddr;
}.
Definition ToolSettings_default : ToolSettings :=
  mkTools true true true true true "/usr/bin/python3" ∅ 10 10 (512 * 1024 * 1024) 64 64
    (Some (512 * 1024 * 1024)%N) (Some 64%N) true true [].

(** The cargo features the HTTP tools are compiled under; [http_get] and [http_post]
    each bring [http] with them. *)
Record Features : Type := mkFeatures { http : bool; http_get : bool; http_post : bool }.
Definition features_wf (f : Features) : Prop := http_get f = true \/ http_post f = true -> http f = true.

Definition tool_spec (name desc : string) (class : SideEffectClass) (timeout : N) : ToolSpec :=
  mkToolSpec name desc (JObject [("type", JString "object")]) class timeout.

Definition specs (f : Features) (s : ToolSettings) : list ToolSpec :=
  let t := timeout_secs s in
  (if enable_python_exec s then [tool_spec "python_exec" "Run python3 -c <code> sandboxed" ExecEffect t] else []) ++
  (if enable_shell s then [tool_spec "shell" "Run an allowlisted command (argv vector)" ExecEffect t] else []) ++
  (if enable_file_read s then [tool_spec "file_read" "Read a file within the sandbox tempdir" Filesystem t] else []) ++
  (if enable_file_write s then [tool_spec "file_write" "Write a file within the sandbox tempdir" Filesystem t] else []) ++
  (if http_get f && enable_http_get s then [tool_spec "http_get" "HTTP GET via the SSRF-filtered connector" Network t] else []) ++
  (if http_post f && enable_http_post s then [tool_spec "http_post" "HTTP POST via the SSRF-filtered connector" Network t] else []).

Definition limits_of (s : ToolSettings) : Rlimits :=
  mkRlimits (rlimit_cpu_secs s) (rlimit_as_bytes s) (rlimit_nofile s) (rlimit_nproc s).
Definition egress_of (s : ToolSettings) : EgressConfig := mkEgress (egress_allowlist s) false.

(** ** The kernel gate *)

(** [CStr::to_str]: the lossy decoding changes exactly the invalid texts. *)
Definition to_str (bs : bytes) : option bytes := if decide (lossy None bs = bs) then Some bs else None.

Definition kernel_version (release : bytes) : option (N * N) :=
  text ← to_str release;
  match split (fun b => bool_decide (b = x2e \/ b = x2d)) text with
  | major :: minor :: _ =>
      maj ← parse_u32 (Byte.to_N <$> major); min ← parse_u32 (Byte.to_N <$> minor); Some (maj, min)
  | _ => None
  end.

(** [(maj, min) < (5, 13)]. *)
Definition too_old (v : N * N) : bool :=
  bool_decide (v.1 < 5)%N || (bool_decide (v.1 = 5)%N && bool_decide (v.2 < 13)%N).

Definition from_settings (s : ToolSettings) (release : bytes) : result CoreError ToolSettings :=
  if require_landlock s then
    match kernel_version release with
    | Some (maj, min) =>
        if too_old (maj, min)
        then Err (config_invalid ("landlock requires kernel >= 5.13, found " +:+ pretty maj +:+ "." +:+ pretty min))
        else Ok s
    | None => Ok s
    end
  else Ok s.

(** A harness is refused exactly when landlock is required and the kernel's
    release is a version below 5.13; a release that does not parse as a version
    passes. *)
Theorem kernel_gate s release :
  (exists e, from_settings s release = Err e) <->
  require_landlock s = true /\ exists maj min, kernel_version release = Some (maj, min) /\ (maj < 5 \/ maj = 5 /\ min < 13)%N.
Proof.
  unfold from_settings. destruct (require_landlock s); [|naive_solver].
  destruct (kernel_version release) as [[maj min]|]; [|naive_solver].
  assert (too_old (maj, min) = true <-> (maj < 5 \/ maj = 5 /\ min < 13)%N) as Ht.
  { unfold too_old; simpl. rewrite orb_true_iff, andb_true_iff, !bool_decide_eq_true. done. }
  destruct (too_old (maj, min)); split; try naive_solver.
Qed.

(** ** The capability directories: tempfile and cap-std *)
Class CapDirs (D : Type) : Type := {
  files : D -> string -> option (gmap string bytes);
  tempdir_new : M D string string;
  tempdir_drop : string -> D -> D;
  open_ambient_dir : string -> M D string unit;
  dir_read : string -> string -> M D string bytes;
  dir_write : string -> string -> bytes -> M D string unit;
}.
(** A new tempdir is empty, opening changes nothing, and nothing can be read in an
    empty directory. *)
Class CapDirsLaws (D : Type) `{CapDirs D} : Prop := {
  tempdir_law d : wp tempdir_new (fun r d' => forall root, r = Ok root -> files d' root = Some ∅) d;
  open_law root d : wp (open_ambient_dir root) (fun _ d' => files d' = files d) d;
  read_law root rel d : files d root = Some ∅ -> wp (dir_read root rel) (fun r _ => is_ok r = false) d;
}.

(** What a run works with: the system calls made, the directories, the network. *)
Record ToolWorld (D : Type) : Type := mkToolWorld { tw_sys : list sys; tw_dirs : D; tw_net : list event }.
Arguments mkToolWorld {D}. Arguments tw_sys {D}. Arguments tw_dirs {D}. Arguments tw_net {D}.

(** A normalized exec result. *)
Record ExecRun : Type := mkRun { run_exit : Z; run_stdout : bytes; run_stderr : bytes; run_timed_out : bool }.
Definition ExecRun_from (r : ExecResult) : ExecRun :=
  mkRun (exit_code r) (stdout r) (stderr r) (exec_timed_out r).

(** The structured output of a successful tool, its stderr and whether it timed out. *)
Abbreviation tool_output := (json * option string * bool)%type.

Definition exec_output (run : ExecRun) : tool_output :=
  let out := from_utf8_lossy (run_stdout run) in
  let err := from_utf8_lossy (run_stderr run) in
  (JObject [("exit_code", json_int (run_exit run)); ("stdout", JString out)],
   if decide (err = "") then None else Some err, run_timed_out run).

Section tools.
Context {D : Type} {CD : CapDirs D}.
(** [serde_json::from_value] of each tool's arguments. *)
Context (python_args : json -> result string string) (shell_args : json -> result string (list string)).
Context (read_args : json -> result string string) (write_args : json -> result string (string * string)).
Context (launch : ExecRequest -> M (list sys) failure ExecResult).
Context (fetch : Method -> string -> option bytes -> EgressConfig -> M (list event) HttpError (option HttpResponse)).
Context (elapsed : ToolWorld D -> N).
Context (features : Features).

Abbreviation World := (ToolWorld D).
Definition on_sys {A} (m : M (list sys) failure A) : M World failure A :=
  zoom tw_sys (fun h w => mkToolWorld h (tw_dirs w) (tw_net w)) m.
Definition on_dirs {E A} (m : M D E A) : M World E A :=
  zoom tw_dirs (fun d w => mkToolWorld (tw_sys w) d (tw_net w)) m.
Definition on_net {A} (m : M (list event) HttpError A) : M World HttpError A :=
  zoom tw_net (fun h w => mkToolWorld (tw_sys w) (tw_dirs w) h) m.

(** [.map_err(|e| config_invalid(format!("{what}: {e}")))]. *)
Definition invalid {A} (what : string) (r : result string A) : M World failure A :=
  mlift (match r with Ok a => Ok a | Err e => Err (Failure (config_invalid (what +:+ ": " +:+ e))) end).

(** *** tools/python_exec.rs, tools/shell.rs *)
Definition python_exec_run (s : ToolSettings) (a : json) (tempdir : string) : M World failure ExecRun :=
  let* code := invalid "python_exec args" (python_args a) in
  let req := mkExec (python_path s) [python_path s; "-I"; "-c"; code] (timeout_secs s) tempdir (limits_of s)
               (cgroup_memory_max s) (cgroup_pids_max s) in
  let* out := on_sys (launch req) in
  mret (ExecRun_from out).

Definition shell_run (s : ToolSettings) (a : json) (tempdir : string) : M World failure ExecRun :=
  let* argv := invalid "shell args" (shell_args a) in
  match argv with
  | [] => mthrow (Failure (config_invalid "shell argv must be non-empty"))
  | cmd :: rest =>
      match shell_allowlist s !! cmd with
      | None => mthrow (Failure (config_invalid ("command not in allowlist: " +:+ cmd)))
      | Some exact_path =>
          let req := mkExec exact_path (exact_path :: rest) (timeout_secs s) tempdir (limits_of s)
                       (cgroup_memory_max s) (cgroup_pids_max s) in
          let* out := on_sys (launch req) in
          mret (ExecRun_from out)
      end
  end.

(** *** sandbox/capfs.rs, tools/file_read.rs, tools/file_write.rs *)
Definition cap_fatal {A} (what path : string) (m : M D string A) : M World failure A := fun w =>
  match on_dirs m w with
  | (Ok a, w') => (Ok a, w')
  | (Err e, w') => (Err (Failure (config_invalid (what +:+ path +:+ ": " +:+ e))), w')
  end.

Definition cap_open (root : string) : M World failure unit :=
  cap_fatal "cap-std open root " root (open_ambient_dir root).
Definition cap_read (root rel : string) : M World failure bytes :=
  let* _ := lift_err (mlift (reject_escape rel)) in
  cap_fatal "cap-std read " rel (dir_read root rel).
Definition cap_write (root rel : string) (contents : bytes) : M World failure unit :=
  let* _ := lift_err (mlift (reject_escape rel)) in
  cap_fatal "cap-std write " rel (dir_write root rel contents).

Definition file_read_run (root : string) (a : json) : M World failure string :=
  let* path := invalid "file_read args" (read_args a) in
  let* _ := cap_open root in
  let* bs := cap_read root path in
  mret (from_utf8_lossy bs).

Definition file_write_run (root : string) (a : json) : M World failure nat :=
  let* '(path, contents) := invalid "file_write args" (write_args a) in
  let* _ := cap_open root in
  let bs := bytes_of contents in
  let* _ := cap_write root path bs in
  mret (length bs).

(** *** Dispatch (lib.rs) *)
Definition errored (call : ToolCall) (msg : string) : M World failure ToolResult := fun w =>
  (Ok (mkToolResult (call_id call) ToolError JNull (Some msg) (elapsed w)), w).

Definition unknown (name : string) : string := "unknown or disabled tool: " +:+ name.

(** The [match] on the tool's name. *)
Definition run_tool (s : ToolSettings) (call : ToolCall) (root : string) : M World failure tool_output :=
  if decide (tool call = "python_exec" /\ enable_python_exec s = true) then
    let* r := python_exec_run s (args call) root in mret (exec_output r)
  else if decide (tool call = "shell" /\ enable_shell s = true) then
    let* r := shell_run s (args call) root in mret (exec_output r)
  else if decide (tool call = "file_read" /\ enable_file_read s = true) then
    let* out := file_read_run root (args call) in mret (JObject [("contents", JString out)], None, false)
  else if decide (tool call = "file_write" /\ enable_file_write s = true) then
    let* n := file_write_run root (args call) in mret (JObject [("bytes_written", JU64 (N.of_nat n))], None, false)
  else mthrow (Failure (config_invalid (unknown (tool call)))).

(** A call on the directories whose error is looked at. *)
Definition try_dirs {A} (m : M D string A) : M World failure (result string A) := fun w =>
  let '(r, d) := m (tw_dirs w) in (Ok r, mkToolWorld (tw_sys w) d (tw_net w)).

(** The [TempDir] goes when its scope ends, however it ends. *)
Definition with_tempdir {A} (root : string) (m : M World failure A) : M World failure A := fun w =>
  let '(r, w') := m w in (r, mkToolWorld (tw_sys w') (tempdir_drop root (tw_dirs w')) (tw_net w')).

Definition dispatch (s : ToolSettings) (call : ToolCall) : M World failure ToolResult :=
  let* td := try_dirs tempdir_new in
  match td with
  | Err e => errored call ("tempdir: " +:+ e)
  | Ok root =>
      with_tempdir root (fun w =>
        match run_tool s call root w with
        | (Ok (out, err, timed_out), w') =>
            (Ok (mkToolResult (call_id call) (if timed_out : bool then ToolTimedOut else ToolSuccess) out err (elapsed w')), w')
        | (Err (Failure e), w') => errored call (CoreError_to_string e) w'
        | (Err (Unwound m), w') => (Err (Unwound m), w')
        end)
  end.

(** *** tools/http_get.rs, tools/http_post.rs *)
Definition url_arg (a : json) : result HttpError string :=
  match x ← json_get a "url"; as_text x with
  | Some url => Ok url
  | None => Err (BadUrl "missing string field `url`")
  end.
Definition http_output (resp : HttpResponse) : json :=
  JObject [("status", JU64 (status resp)); ("body", JString (from_utf8_lossy (body resp)))].

Definition http_get_run (a : json) (egress : EgressConfig) : M World HttpError (option json) :=
  let* url := mlift (url_arg a) in
  let* resp := on_net (fetch Get url None egress) in
  mret (http_output <$> resp).
Definition http_post_run (a : json) (egress : EgressConfig) : M World HttpError (option json) :=
  let* url := mlift (url_arg a) in
  let b := x ← json_get a "body"; t ← as_text x; Some (bytes_of t) in
  let* resp := on_net (fetch Post url b egress) in
  mret (http_output <$> resp).

Definition http_answer (call : ToolCall) (m : M World HttpError (option json)) : M World failure ToolResult := fun w =>
  match m w with
  | (Ok (Some out), w') => (Ok (mkToolResult (call_id call) ToolSuccess out None (elapsed w')), w')
  | (Ok None, w') => (Err (Unwound "out of fuel"), w')
  | (Err TimedOut, w') =>
      (Ok (mkToolResult (call_id call) ToolTimedOut JNull (Some (http_error_display TimedOut)) (elapsed w')), w')
  | (Err e, w') => errored call (http_error_display e) w'
  end.

Definition dispatch_http (s : ToolSettings) (call : ToolCall) : M World failure ToolResult :=
  if negb (http features) then errored call "http tools not compiled in"
  else if decide (http_get features = true /\ tool call = "http_get" /\ enable_http_get s = true) then
    http_answer call (http_get_run (args call) (egress_of s))
  else if decide (http_post features = true /\ tool call = "http_post" /\ enable_http_post s = true) then
    http_answer call (http_post_run (args call) (egress_of s))
  else errored call (unknown (tool call)).

Definition invoke_one (s : ToolSettings) (call : ToolCall) : M World failure ToolResult :=
  if decide (tool call = "http_get" \/ tool call = "http_post") then dispatch_http s call else dispatch s call.

Definition invoke (s : ToolSettings) (calls : list ToolCall) : M World failure (list ToolResult) :=
  mfold (fun results call => let* r := invoke_one s call in mret (results ++ [r])) [] calls.

(** ** Typed results *)
Definition exec_shape (out : json) : Prop :=
  exists code text, out = JObject [("exit_code", json_int code); ("stdout", JString text)].

(** What each tool answers when it succeeds. *)
Definition success_shape (name : string) (out : json) : Prop :=
  (name = "python_exec" \/ name = "shell") /\ exec_shape out \/
  name = "file_read" /\ (exists text, out = JObject [("contents", JString text)]) \/
  name = "file_write" /\ (exists n, out = JObject [("bytes_written", JU64 n)]) \/
  (name = "http_get" \/ name = "http_post") /\
    exists code text, out = JObject [("status", JU64 code); ("body", JString text)].

Definition well_typed (call : ToolCall) (r : ToolResult) : Prop :=
  result_call r = call_id call /\
  match outcome_of r with
  | ToolSuccess => success_shape (tool call) (output r)
  | ToolError => output r = JNull /\ is_Some (result_stderr r)
  | ToolTimedOut =>
      (tool call = "python_exec" \/ tool call = "shell") /\ exec_shape (output r) \/
      (tool call = "http_get" \/ tool call = "http_post") /\ output r = JNull /\
        result_stderr r = Some "request timed out"
  end.

(** The services never unwind, and the network keeps an invariant of its history. *)
Context (time_limit : N).
Context (Hlaunch : forall req h, Sandbox.timeout_secs req = time_limit -> wp (launch req) (fun r _ => forall m, r <> Err (Unwound m)) h).
Context (keeps : list event -> Prop) (egress_used : EgressConfig).
Context (Hfetch : forall method url b h, keeps h ->
  wp (fetch method url b egress_used) (fun r h' => keeps h' /\ r <> Ok None) h).

(** A call of a tool either fails with an error or answers; the network is left alone. *)
Definition answers {A} (P : A -> Prop) (m : M World failure A) : Prop := forall w,
  wp m (fun r w' => tw_net w' = tw_net w /\
    match r with Ok a => P a | Err (Failure _) => True | Err (Unwound _) => False end) w.

Lemma answers_bind {A B} (P : A -> Prop) (Q : B -> Prop) (m : M World failure A) (k : A -> M World failure B) :
  answers P m -> (forall a, P a -> answers Q (k a)) -> answers Q (mbind_ m k).
Proof.
  intros Hm Hk w. apply wp_bind. eapply wp_mono; [apply Hm|]. intros [a|[e|m']] w1 [Hn Hr]; [|done|done].
  eapply wp_mono; [by apply Hk|]. intros r w2 [Hn2 Hr2]. split; [congruence|done].
Qed.
Lemma answers_ret {A} (P : A -> Prop) a : P a -> answers P (mret a).
Proof. intros HP w. by apply wp_ret. Qed.
Lemma answers_throw {A} (P : A -> Prop) e : answers P (mthrow (Failure e)).
Proof. intros w. by apply wp_throw. Qed.
Lemma answers_invalid {A} what (r : result string A) : answers (fun _ => True) (invalid what r).
Proof. intros w. unfold invalid. apply wp_lift. by destruct r. Qed.
Lemma answers_cap {A} what path (m : M D string A) : answers (fun _ => True) (cap_fatal what path m).
Proof. intros w. unfold wp, cap_fatal, on_dirs, zoom. by destruct (m (tw_dirs w)) as [[a|e] d]. Qed.
Lemma answers_escape rel : answers (fun _ => True) (lift_err (mlift (reject_escape rel))).
Proof. intros w. unfold wp, lift_err, mlift. by destruct (reject_escape rel) as [[]|e]. Qed.
Lemma answers_launch req : Sandbox.timeout_secs req = time_limit -> answers (fun _ => True) (on_sys (launch req)).
Proof.
  intros Ht w. unfold wp, on_sys, zoom. specialize (Hlaunch req (tw_sys w) Ht). unfold wp in Hlaunch.
  destruct (launch req (tw_sys w)) as [[r|[e|m]] h]; simpl in *; [done|done|]. by destruct (Hlaunch m).
Qed.
Lemma answers_any {A} (m : M World failure A) : answers (fun _ => True) m -> answers (fun _ : A => True) m.
Proof. done. Qed.

Create HintDb tools.
Hint Resolve answers_ret answers_throw answers_invalid answers_cap answers_escape answers_launch I : tools.
Ltac tool_step := eapply answers_bind with (P := fun _ => True); [|intros ? _].

Lemma python_exec_answers s a root : timeout_secs s = time_limit -> answers (fun _ => True) (python_exec_run s a root).
Proof. intros Hs. unfold python_exec_run. repeat (tool_step; auto with tools). Qed.
Lemma shell_answers s a root : timeout_secs s = time_limit -> answers (fun _ => True) (shell_run s a root).
Proof.
  intros Hs. unfold shell_run. tool_step; [auto with tools|]. destruct a0 as [|cmd rest]; [auto with tools|].
  destruct (shell_allowlist s !! cmd); repeat (tool_step; auto with tools); auto with tools.
Qed.
Lemma file_read_answers a root : answers (fun _ => True) (file_read_run root a).
Proof. unfold file_read_run, cap_open, cap_read. repeat (tool_step; auto with tools). Qed.
Lemma file_write_answers a root : answers (fun _ => True) (file_write_run root a).
Proof.
  unfold file_write_run, cap_open, cap_write. tool_step; [auto with tools|]. destruct a0 as [path contents].
  repeat (tool_step; auto with tools).
Qed.

Lemma run_tool_typed s call root : timeout_secs s = time_limit ->
  answers (fun '(out, err, timed_out) =>
    if timed_out : bool then (tool call = "python_exec" \/ tool call = "shell") /\ exec_shape out
    else success_shape (tool call) out) (run_tool s call root).
Proof.
  intros Hs. assert (forall r, exec_shape (exec_output r).1.1) as Hshape by (intros r; by do 2 eexists).
  assert (forall name r, tool call = name -> name = "python_exec" \/ name = "shell" ->
    answers (fun '(out, err, timed_out) => if timed_out : bool then (tool call = "python_exec" \/ tool call = "shell") /\ exec_shape out
      else success_shape (tool call) out) (mret (exec_output r))) as Hexec.
  { intros name r <- Hn. apply answers_ret. specialize (Hshape r). destruct (exec_output r) as [[out err] t]. simpl in Hshape.
    destruct t; [done|]. left. done. }
  unfold run_tool.
  destruct (decide (tool call = "python_exec" /\ enable_python_exec s = true)) as [[Hn _]|_];
    [|destruct (decide (tool call = "shell" /\ enable_shell s = true)) as [[Hn _]|_];
    [|destruct (decide (tool call = "file_read" /\ enable_file_read s = true)) as [[Hn _]|_];
    [|destruct (decide (tool call = "file_write" /\ enable_file_write s = true)) as [[Hn _]|_]]]].
  - eapply answers_bind; [by apply python_exec_answers|]. intros r _. eapply Hexec; eauto.
  - eapply answers_bind; [by apply shell_answers|]. intros r _. eapply Hexec; eauto.
  - eapply answers_bind; [apply file_read_answers|]. intros out _. apply answers_ret. right; left. eauto.
  - eapply answers_bind; [apply file_write_answers|]. intros n _. apply answers_ret. right; right; left. eauto.
  - auto with tools.
Qed.

Lemma dispatch_typed s call w : timeout_secs s = time_limit ->
  wp (dispatch s call) (fun r w' => tw_net w' = tw_net w /\ exists res, r = Ok res /\ well_typed call res) w.
Proof.
  intros Hs. unfold dispatch. apply wp_bind. unfold wp at 1, try_dirs. destruct (tempdir_new (tw_dirs w)) as [[root|e] d]; cbn [fst snd].
  2:{ split; [done|]. eexists. split; [done|]. by split. }
  set (w1 := mkToolWorld _ _ _). pose proof (run_tool_typed s call root Hs w1) as Ht. unfold wp in Ht.
  unfold wp, with_tempdir. destruct (run_tool s call root w1) as [[[[out err] t]|[e|m]] w2]; cbn [fst snd tw_net] in *;
    destruct Ht as [Hn Ht]; [| |done].
  - split; [done|]. eexists. split; [done|]. split; [done|]. destruct t; simpl; [by left|done].
  - split; [done|]. eexists. split; [done|]. split; [done|]. simpl. eauto.
Qed.

Lemma http_run_typed call (m : M World HttpError (option json)) w :
  tool call = "http_get" \/ tool call = "http_post" -> keeps (tw_net w) ->
  wp m (fun r w' => keeps (tw_net w') /\ r <> Ok None /\
    forall out, r = Ok (Some out) -> exists code text, out = JObject [("status", JU64 code); ("body", JString text)]) w ->
  wp (http_answer call m) (fun r w' => keeps (tw_net w') /\ exists res, r = Ok res /\ well_typed call res) w.
Proof.
  intros Hname Hk Hm. unfold wp, http_answer in *. destruct (m w) as [[[out|]|e] w']; cbn [fst snd] in *; destruct Hm as (Hk' & Hn & Hs).
  - split; [done|]. eexists. split; [done|]. split; [done|]. do 3 right. split; [done|]. by apply Hs.
  - done.
  - destruct e; (split; [done|]; eexists; split; [done|]; split; [done|]; simpl; eauto).
Qed.

Lemma fetch_output method url b w : keeps (tw_net w) ->
  wp (let* resp := on_net (fetch method url b egress_used) in mret (http_output <$> resp)) (fun r w' =>
    keeps (tw_net w') /\ r <> Ok None /\
    forall out, r = Ok (Some out) -> exists code text, out = JObject [("status", JU64 code); ("body", JString text)]) w.
Proof.
  intros Hk. apply wp_bind, wp_zoom. eapply wp_mono; [by apply Hfetch|]. intros [resp|e] h' [Hk' Hn]; [|done].
  apply wp_ret. destruct resp as [resp|]; [|done]. split; [done|]. split; [done|]. intros out [= <-]. by do 2 eexists.
Qed.

Lemma dispatch_http_typed s call w : egress_of s = egress_used ->
  tool call = "http_get" \/ tool call = "http_post" -> keeps (tw_net w) ->
  wp (dispatch_http s call) (fun r w' => keeps (tw_net w') /\ exists res, r = Ok res /\ well_typed call res) w.
Proof.
  intros He Hname Hk. unfold dispatch_http.
  assert (forall msg, wp (errored call msg) (fun r w' => keeps (tw_net w') /\ exists res, r = Ok res /\ well_typed call res) w)
    as Herr by (intros msg; split; [done|]; eexists; by repeat split).
  destruct (negb (http features)); [apply Herr|]. rewrite He. repeat case_decide; [| |apply Herr];
    apply http_run_typed; try done; unfold http_get_run, http_post_run; apply wp_bind, wp_lift;
    (destruct (url_arg (args call)) as [url|e]; [by apply fetch_output|done]).
Qed.

Lemma invoke_typed_gen s calls w : timeout_secs s = time_limit -> egress_of s = egress_used -> keeps (tw_net w) ->
  wp (invoke s calls) (fun r w' => keeps (tw_net w') /\ exists rs, r = Ok rs /\ Forall2 well_typed calls rs) w.
Proof.
  intros Hs He. unfold invoke. cut (forall acc done, Forall2 well_typed done acc -> keeps (tw_net w) ->
    wp (mfold (fun results call => let* r := invoke_one s call in mret (results ++ [r])) acc calls)
       (fun r w' => keeps (tw_net w') /\ exists rs, r = Ok rs /\ Forall2 well_typed (done ++ calls) rs) w).
  { intros H. by apply (H [] []). }
  revert w. induction calls as [|call calls IH]; intros w acc done Hd Hk; cbn [mfold].
  { apply wp_ret. rewrite app_nil_r. eauto. }
  apply wp_bind, wp_bind.
  assert (wp (invoke_one s call) (fun r w' => keeps (tw_net w') /\ exists res, r = Ok res /\ well_typed call res) w) as Hone.
  { unfold invoke_one. case_decide; [by apply dispatch_http_typed|].
    eapply wp_mono; [by apply dispatch_typed|]. intros r w' [-> Hr]. done. }
  eapply wp_mono; [apply Hone|]. intros r w1 (Hk1 & res & -> & Hres). apply wp_ret.
  replace (done ++ call :: calls) with ((done ++ [call]) ++ calls) by (by rewrite <- app_assoc). apply IH; [|done]. apply Forall2_app; [done|]. by constructor.
Qed.

(** ** What is advertised *)
Lemma specs_names s name : name ∈ (spec_name <$> specs features s) <->
  name = "python_exec" /\ enable_python_exec s = true \/ name = "shell" /\ enable_shell s = true \/
  name = "file_read" /\ enable_file_read s = true \/ name = "file_write" /\ enable_file_write s = true \/
  name = "http_get" /\ http_get features = true /\ enable_http_get s = true \/
  name = "http_post" /\ http_post features = true /\ enable_http_post s = true.
Proof.
  assert (forall (b : bool) (sp : ToolSpec) (l : list ToolSpec),
    name ∈ (spec_name <$> (if b then [sp] else []) ++ l) <-> (name = spec_name sp /\ b = true) \/ name ∈ (spec_name <$> l)) as Hif.
  { intros b sp l. rewrite fmap_app, elem_of_app. destruct b; simpl.
    - rewrite list_elem_of_singleton. naive_solver.
    - split; [intros [H|?]; [by apply not_elem_of_nil in H|auto]|naive_solver]. }
  assert (forall (b : bool) (sp : ToolSpec),
    name ∈ (spec_name <$> (if b then [sp] else [])) <-> (name = spec_name sp /\ b = true)) as Hlast.
  { intros b sp. destruct b; simpl; [rewrite list_elem_of_singleton; naive_solver|].
    split; [intros H; by apply not_elem_of_nil in H|naive_solver]. }
  unfold specs. cbv zeta. rewrite !Hif, Hlast. simpl. rewrite !andb_true_iff. tauto.
Qed.

(** What the harness does not advertise it refuses: a call of such a name answers
    an error that says so, makes no system call and opens no connection. *)
Theorem unadvertised_is_refused s call w (Hun : tool call ∉ (spec_name <$> specs features s)) :
  wp (invoke_one s call) (fun r w' => tw_sys w' = tw_sys w /\ tw_net w' = tw_net w /\
    exists res msg, r = Ok res /\ result_call res = call_id call /\ outcome_of res = ToolError /\
      output res = JNull /\ result_stderr res = Some msg) w.
Proof.
  rewrite specs_names in Hun. unfold invoke_one. case_decide as Hname.
  - unfold dispatch_http. assert (forall msg, wp (errored call msg) (fun r w' => tw_sys w' = tw_sys w /\ tw_net w' = tw_net w /\
      exists res msg, r = Ok res /\ result_call res = call_id call /\ outcome_of res = ToolError /\
      output res = JNull /\ result_stderr res = Some msg) w) as Herr.
    { intros msg. split; [done|]. split; [done|]. by do 2 eexists. }
    destruct (negb (http features)); [apply Herr|]. rewrite !decide_False by (intros (? & ? & ?); apply Hun; naive_solver).
    apply Herr.
  - unfold dispatch. apply wp_bind. unfold wp at 1, try_dirs. destruct (tempdir_new (tw_dirs w)) as [[root|e] d]; cbn [fst snd].
    2:{ split; [done|]. split; [done|]. by do 2 eexists. }
    unfold wp, with_tempdir, run_tool. rewrite !decide_False by (intros (? & ?); apply Hun; naive_solver).
    unfold mthrow, errored. cbn [fst snd tw_sys tw_net]. split; [done|]. split; [done|]. by do 2 eexists.
Qed.

(** Every call gets a tempdir of its own, so [file_read] has nothing to read: it
    answers an error whatever the settings, the path and the calls before it. *)
Theorem file_read_never_succeeds {CL : CapDirsLaws D} s call w (Hread : tool call = "file_read") :
  wp (invoke_one s call) (fun r _ => exists res, r = Ok res /\ outcome_of res = ToolError) w.
Proof.
  unfold invoke_one. rewrite Hread, decide_False by (by intros [?|?]).
  unfold dispatch. apply wp_bind. unfold wp at 1, try_dirs. pose proof (tempdir_law (tw_dirs w)) as Htd. unfold wp in Htd.
  destruct (tempdir_new (tw_dirs w)) as [[root|e] d]; cbn [fst snd] in *; [|by eexists].
  specialize (Htd root eq_refl). unfold wp, with_tempdir, run_tool. rewrite Hread.
  rewrite (decide_False (P := "file_read" = "python_exec" /\ _)), (decide_False (P := "file_read" = "shell" /\ _))
    by (by intros [? _]).
  destruct (decide ("file_read" = "file_read" /\ enable_file_read s = true)) as [Hen|Hen]; [|by eexists].
  unfold file_read_run, cap_open, cap_read, invalid, mbind_, mlift, cap_fatal, on_dirs, zoom, lift_err. cbn [tw_dirs].
  destruct (read_args (args call)) as [path|e]; [|by eexists].
  pose proof (open_law root d) as Ho. unfold wp in Ho. destruct (open_ambient_dir root d) as [[[]|e] d2]; cbn [fst snd] in Ho; [|by eexists].
  destruct (reject_escape path) as [[]|e]; [|by eexists]. cbn [tw_dirs].
  pose proof (read_law root path d2) as Hr. rewrite Ho in Hr. specialize (Hr Htd). unfold wp in Hr.
  destruct (dir_read root path d2) as [[bs|e] d3]; [done|]. by eexists.
Qed.
End tools.

(** ** The harness over a system and a network *)
Section harness.
Context {D : Type} {CD : CapDirs D}.
Context (python_args : json -> result string string) (shell_args : json -> result string (list string)).
Context (read_args : json -> result string string) (write_args : json -> result string (string * string)).
Context (elapsed : ToolWorld D -> N) (features : Features).
Context (os : list sys -> sys -> result string unit) (child_of : list sys -> Child) (process_id : N).
Context (seccomp : result CoreError SeccompFilter).
Context (parse_uri : string -> result string Uri) (show_addr : SocketAddr -> string).
Context (resolve : list event -> string -> result string (list IpAddr)).
Context (net_connect : list event -> SocketAddr -> option (result string unit)).
Context (server_name_ok : string -> result string unit).
Context (net_tls : list event -> string -> option (result string unit)).
Context (net_handshake : list event -> option (result string unit)).
Context (build_error : HttpRequest -> option string).
Context (net_send : list event -> HttpRequest -> option (result string (N * option string))).
Context (net_collect : list event -> option (result string bytes)).

Definition harness_invoke (s : ToolSettings) (calls : list ToolCall) : M (ToolWorld D) failure (list ToolResult) :=
  invoke python_args shell_args read_args write_args (launch os child_of process_id seccomp)
    (fetch parse_uri show_addr resolve net_connect server_name_ok net_tls net_handshake build_error net_send net_collect)
    elapsed features s calls.

(** C15: A batch is always answered, one result per call in the order of the calls,
    each with its call's id and of its tool's type: an error has no output and a
    message; an exec tool answers an exit code and its stdout, also when it timed out; a
    file tool the contents or the bytes written; an HTTP tool the status and the body,
    or nothing when it timed out.  And over any number of batches every connection
    made is to an address just resolved and let through by the filter.  The launcher's
    clock is taken to tick, and its seconds with the timeout to stay below [2 ^ 63]. *)
Theorem invoke_well_typed s calls w
    (Hclock : forall h, ticks (child_of h) /\ (clock (child_of h) 0 / 1000 + timeout_secs s < 2 ^ 63)%N)
    (Hnet : pinned resolve (egress_of s) (tw_net w)) :
  wp (harness_invoke s calls) (fun r w' => pinned resolve (egress_of s) (tw_net w') /\
    exists rs, r = Ok rs /\ Forall2 well_typed calls rs) w.
Proof.
  apply (invoke_typed_gen _ _ _ _ _ _ _ _ (timeout_secs s)) with (egress_used := egress_of s); try done.
  - intros req h Ht. apply launch_never_unwinds. by rewrite Ht.
  - intros method url b h Hp. unfold fetch.
    eapply wp_mono; [by apply fetch_loop_pinned; [done|reflexivity|lia]|]. naive_solver.
Qed.
End harness.

Section tools_examples.
(** A store of directories: every tempdir is made under the same fresh name. *)
#[local] Instance map_dirs : CapDirs (gmap string (gmap string bytes)) := {
  files d root := d !! root;
  tempdir_new := fun d => (Ok "/tmp/.tmpA", <["/tmp/.tmpA" := ∅]> d);
  tempdir_drop root d := delete root d;
  open_ambient_dir root := fun d => (if d !! root then Ok tt else Err "No such file or directory", d);
  dir_read root rel := fun d =>
    (match m ← d !! root; m !! rel with Some bs => Ok bs | None => Err "No such file or directory" end, d);
  dir_write root rel bs := fun d => (Ok tt, alter <[rel := bs]> root d);
}.
#[local] Instance map_dirs_laws : CapDirsLaws (gmap string (gmap string bytes)).
Proof.
  split.
  - intros d root [= <-]. apply lookup_insert_eq.
  - done.
  - intros root rel d Hd. unfold wp; simpl. simpl in Hd. by rewrite Hd; simpl; rewrite lookup_empty.
Qed.

Definition tool_world : ToolWorld (gmap string (gmap string bytes)) := mkToolWorld [] ∅ [].
Definition call_of (id : N) (name : string) : ToolCall := mkCall id name (JObject []) 1 None.
Definition all_features : Features := mkFeatures true true true.
Definition harness_ex (calls : list ToolCall) :=
  harness_invoke (fun _ => Ok "print(1)") (fun _ => Ok []) (fun _ => Ok "notes.txt") (fun _ => Ok ("notes.txt", "hi"))
    (fun _ => 3%N) all_features (fun _ _ => Ok tt) (fun _ => quick_child) 77 (Ok built)
    (fun _ => Err "no url") (fun _ => "") (fun _ _ => Err "no dns") (fun _ _ => None) (fun _ => Ok tt) (fun _ _ => None)
    (fun _ => None) (fun _ => None) (fun _ _ => None) (fun _ => None) ToolSettings_default calls tool_world.

Lemma quick_child_ticks : ticks quick_child.
Proof. split; [vm_compute; discriminate|]. intros i. unfold quick_child; cbn [clock]. lia. Qed.

Lemma invoke_well_typed_witness :
  exists rs, fst (harness_ex [call_of 1 "python_exec"; call_of 2 "http_get"; call_of 3 "file_read"]) = Ok rs /\
    Forall2 well_typed [call_of 1 "python_exec"; call_of 2 "http_get"; call_of 3 "file_read"] rs.
Proof.
  refine (proj2 (invoke_well_typed _ _ _ _ _ _ _ _ _ _ _ _ _ _ _ _ _ _ _ _ _ _ tool_world _ _)).
  - intros _. split; [apply quick_child_ticks|reflexivity].
  - intros pre addr post Heq. destruct pre; discriminate Heq.
Defined.

Lemma unadvertised_is_refused_witness :
  wp (invoke_one (fun _ => Ok "") (fun _ => Ok []) (fun _ => Ok "") (fun _ => Ok ("", "")) (fun _ => mthrow (Unwound ""))
        (fun _ _ _ _ => mret None) (fun _ => 0%N) all_features ToolSettings_default (call_of 5 "rm"))
     (fun _ w' => tw_sys w' = []) tool_world.
Proof.
  eapply wp_mono; [apply unadvertised_is_refused|intros r w' H; exact (proj1 H)].
  vm_compute. intros H. repeat (apply elem_of_cons in H as [H|H]; [discriminate H|]). by apply not_elem_of_nil in H.
Defined.

(** Writing a file and reading it back in the next call. *)
Lemma file_read_never_succeeds_witness :
  wp (invoke_one (fun _ => Ok "") (fun _ => Ok []) (fun _ => Ok "notes.txt") (fun _ => Ok ("notes.txt", "hi"))
        (fun _ => mthrow (Unwound "")) (fun _ _ _ _ => mret None) (fun _ => 0%N) all_features ToolSettings_default
        (call_of 6 "file_read"))
     (fun r _ => exists res, r = Ok res /\ outcome_of res = ToolError) tool_world.
Proof. apply file_read_never_succeeds; first [apply map_dirs_laws|reflexivity]. Defined.
End tools_examples.
