(* ===== verification/TextEnv.v ===== *)
(** The text-completion environment (rollout-harness-text/src): the seeded
    generator, the episode store, and batched reset, step and close. *)
From stdpp Require Import base option list gmap strings.
From S2P Require Import Prelude.
From S2P Require Import Core.
From S2P Require Import Storage.

Open Scope N_scope.
Abbreviation EpisodeId := N.

(** ** episode.rs: SplitMix64 *)
Definition GOLDEN : N := 0x9E3779B97F4A7C15.
Definition MIX1 : N := 0xBF58476D1CE4E5B9.
Definition MIX2 : N := 0x94D049BB133111EB.

Definition advance (state : N) : N := wrap 64 (state + GOLDEN).
Definition mix (state : N) : N :=
  let z := state in
  let z := wrap 64 (N.lxor z (N.shiftr z 30) * MIX1) in
  let z := wrap 64 (N.lxor z (N.shiftr z 27) * MIX2) in
  N.lxor z (N.shiftr z 31).

(** [next_u64]: the value and the new state. *)
Definition next_u64 (state : N) : N * N := let state := advance state in (mix state, state).

Lemma xorshift_inj k x y : 0 < k -> N.lxor x (N.shiftr x k) = N.lxor y (N.shiftr y k) -> x = y.
Proof.
  intros Hk Heq. apply N.lxor_eq.
  assert (N.lxor x y = N.shiftr (N.lxor x y) k) as Hd.
  { apply N.bits_inj. intros n. apply (f_equal (fun v => N.testbit v n)) in Heq.
    rewrite N.shiftr_spec', !N.lxor_spec. rewrite !N.lxor_spec, !N.shiftr_spec' in Heq.
    destruct (N.testbit x n), (N.testbit y n), (N.testbit x (n + k)), (N.testbit y (n + k)); done. }
  rewrite N.shiftr_div_pow2 in Hd. destruct (N.eq_dec (N.lxor x y) 0) as [|Hne]; [done|].
  assert (N.lxor x y / 2 ^ k < N.lxor x y); [|lia].
  apply N.div_lt; [lia|]. apply N.pow_gt_1; lia.
Qed.

Lemma mul_inv_inj c inv x y : (c * inv) mod 2 ^ 64 = 1 -> x < 2 ^ 64 -> y < 2 ^ 64 ->
  wrap 64 (x * c) = wrap 64 (y * c) -> x = y.
Proof.
  unfold wrap. intros Hinv Hx Hy Heq. set (m := 2 ^ 64) in *. assert (m <> 0) as Hm by done.
  assert (forall z, z < m -> ((z * c) mod m * inv) mod m = z) as Hz.
  { intros z Hlt. rewrite N.Div0.mul_mod_idemp_l, <- N.mul_assoc, <- N.Div0.mul_mod_idemp_r, Hinv, N.mul_1_r.
    by apply N.mod_small. }
  rewrite <- (Hz x Hx), <- (Hz y Hy). by rewrite Heq.
Qed.

Lemma lxor_bound a b : a < 2 ^ 64 -> b < 2 ^ 64 -> N.lxor a b < 2 ^ 64.
Proof.
  intros Ha Hb. destruct (N.eq_dec (N.lxor a b) 0) as [->|Hne]; [done|].
  apply N.log2_lt_pow2; [lia|]. pose proof (N.log2_lxor a b) as Hl.
  assert (forall z, z < 2 ^ 64 -> N.log2 z < 64) as Hlog.
  { intros z Hz. destruct (N.eq_dec z 0) as [->|Hz0]; [done|]. apply N.log2_lt_pow2; [lia|done]. }
  pose proof (Hlog a Ha). pose proof (Hlog b Hb). lia.
Qed.

Lemma xorshift_bound k z : z < 2 ^ 64 -> N.lxor z (N.shiftr z k) < 2 ^ 64.
Proof.
  intros Hz. apply lxor_bound; [done|]. rewrite N.shiftr_div_pow2.
  eapply N.le_lt_trans; [apply N.Div0.div_le_upper_bound|exact Hz].
  pose proof (N.pow_nonzero 2 k). nia.
Qed.

Lemma mix_inj x y : x < 2 ^ 64 -> y < 2 ^ 64 -> mix x = mix y -> x = y.
Proof.
  intros Hx Hy. unfold mix. intros H%xorshift_inj; [|done].
  apply (mul_inv_inj MIX2 0x319642b2d24d8ec3) in H; [|vm_compute; reflexivity|by apply xorshift_bound, N.mod_lt..].
  apply xorshift_inj in H; [|done].
  apply (mul_inv_inj MIX1 0x96de1b173f119089) in H; [|vm_compute; reflexivity|by apply xorshift_bound..].
  by apply xorshift_inj in H.
Qed.

(** The state after [n] draws, and the value of the next one. *)
Definition draws (seed n : N) : N := wrap 64 (seed + n * GOLDEN).

Lemma draws_succ seed n : advance (draws seed n) = draws seed (N.succ n).
Proof.
  unfold advance, draws, wrap. rewrite N.Div0.add_mod_idemp_l. f_equal. lia.
Qed.

Lemma draws_inj seed n m : n < 2 ^ 64 -> m < 2 ^ 64 -> draws seed n = draws seed m -> n = m.
Proof.
  intros Hn Hm Heq. apply (mul_inv_inj GOLDEN 0xf1de83e19937733d); [vm_compute; reflexivity|done|done|].
  unfold draws, wrap in *. set (q := 2 ^ 64) in *. assert (q <> 0) as Hq by done.
  assert (forall v, (v * GOLDEN) mod q = ((seed + v * GOLDEN) mod q + (q - seed mod q)) mod q) as Hv.
  { intros v. rewrite N.Div0.add_mod_idemp_l.
    pose proof (N.mod_lt seed q Hq). pose proof (N.div_mod seed q Hq) as Hs.
    replace (seed + v * GOLDEN + (q - seed mod q)) with (v * GOLDEN + (seed / q + 1) * q) by lia.
    by rewrite N.Div0.mod_add. }
  by rewrite !Hv, Heq.
Qed.

(** The generator of an episode does not repeat itself: of the first 2^64
    values it draws no two are equal (its mixing step is a bijection of the 64-bit
    words and its state walks through all of them). *)
Theorem splitmix_never_repeats seed n m
    (Hn : n < 2 ^ 64) (Hm : m < 2 ^ 64)
    (Heq : fst (next_u64 (draws seed n)) = fst (next_u64 (draws seed m))) : n = m.
Proof.
  unfold next_u64 in Heq; cbn [fst] in Heq. rewrite !draws_succ in Heq.
  apply mix_inj in Heq; [|by apply N.mod_lt..].
  assert (forall v, advance (draws seed v) = draws seed (N.succ v)) as Hs by apply draws_succ.
  apply (draws_inj (seed + GOLDEN)); [done|done|]. unfold draws in *.
  replace (seed + GOLDEN + n * GOLDEN) with (seed + N.succ n * GOLDEN) by lia.
  by replace (seed + GOLDEN + m * GOLDEN) with (seed + N.succ m * GOLDEN) by lia.
Qed.

(** ** lib.rs and reward.rs.  A reward is the bits of its [f32]. *)
Record TextEnvSettings : Type := mkSettings { max_turns : N; echo_reward : option N; env_seed : option N }.
Definition TextEnvSettings_default : TextEnvSettings := mkSettings 1 None None.

Record EpisodeState : Type := mkEpisode { ep_prompt : string; turn : N; ep_max_turns : N; rng : N }.

Record RewardInput : Type := mkInput { in_prompt : string; completion : string }.

Record Episode : Type := mkNewEpisode { new_id : EpisodeId; new_observation : string }.
Record EpisodeStep : Type := mkStep { episode_id : EpisodeId; action : string }.

(** [info]: the error, or the turn and the draw. *)
Inductive step_info : Type :=
| Unknown
| TurnInfo (turn nonce : N).
Record StepResult : Type := mkResult {
  res_id : EpisodeId; observation : string; reward : option N; done_ : bool; info : step_info;
}.

Section text_env.
Context {RI : Codec RewardInput} {RW : Codec N}.
(** The plugin host and the state of the reward plugin behind it. *)
Context {P : Type} (plugin_call : bytes -> M P CoreError bytes).
(** The configured reward plugin's name, when there is one. *)
Context (settings : TextEnvSettings) (reward_handle : option string).

Record Env : Type := mkEnv { store : gmap EpisodeId EpisodeState; plugin : P }.

Definition on_plugin {A} (m : M P CoreError A) : M Env CoreError A := zoom plugin (fun p w => mkEnv (store w) p) m.

Definition episode_seed (idx : N) : N := N.lxor (default 0 (env_seed settings)) idx.

Fixpoint reset_loop (prompts : list string) (ids : list EpisodeId) (idx : N) (out : list Episode)
  : M Env CoreError (list Episode) :=
  match prompts, ids with
  | text :: prompts', id :: ids' => fun w =>
      reset_loop prompts' ids' (idx + 1) (out ++ [mkNewEpisode id text])
        (mkEnv (<[id := mkEpisode text 0 (max_turns settings) (episode_seed idx)]> (store w)) (plugin w))
  | _, _ => mret out
  end.

(** [ids] are the identifiers [Ulid::new] hands out. *)
Definition reset (prompts : list string) (ids : list EpisodeId) : M Env CoreError (list Episode) :=
  reset_loop prompts ids 0 [].

(** reward.rs [compute_reward]. *)
Definition plugin_reward (name prompt compl : string) : M Env CoreError N :=
  let payload := encode (mkInput prompt compl) in
  let* bs := on_plugin (plugin_call payload) in
  mlift (match decode bs with
         | Ok r => Ok r
         | Err e => Err (Fatal (PluginContract name ("decode Reward: " +:+ e)))
         end).

(** lib.rs [compute_reward]. *)
Definition compute_reward (prompt compl : string) : M Env CoreError (option N) :=
  match reward_handle with
  | Some name => let* r := plugin_reward name prompt compl in mret (Some r)
  | None => mret (echo_reward settings)
  end.

(** The closure run under the store's lock. *)
Definition take_turn (s : EpisodeState) : EpisodeState * N :=
  let '(nonce, rng') := next_u64 (rng s) in
  (mkEpisode (ep_prompt s) (wrap 32 (turn s + 1)) (ep_max_turns s) rng', nonce).

Definition with_episode {A} (id : EpisodeId) (f : EpisodeState -> EpisodeState * A)
  : M Env CoreError (option A) := fun w =>
  match store w !! id with
  | Some s => let '(s', a) := f s in (Ok (Some a), mkEnv (<[id := s']> (store w)) (plugin w))
  | None => (Ok None, w)
  end.

Definition step_one (out : list StepResult) (b : EpisodeStep) : M Env CoreError (list StepResult) :=
  let* snap := with_episode (episode_id b) (fun s => let '(s', nonce) := take_turn s in (s', (s', nonce))) in
  match snap with
  | None => mret (out ++ [mkResult (episode_id b) "" None true Unknown])
  | Some (s, nonce) =>
      let* rew := compute_reward (ep_prompt s) (action b) in
      mret (out ++ [mkResult (episode_id b) (action b) rew (bool_decide (ep_max_turns s <= turn s))
                      (TurnInfo (turn s) nonce)])
  end.

Definition step (batch : list EpisodeStep) : M Env CoreError (list StepResult) := mfold step_one [] batch.

Definition close (ids : list EpisodeId) : M Env CoreError unit := fun w =>
  (Ok tt, mkEnv (foldl (fun m id => delete id m) (store w) ids) (plugin w)).

(** ** What a step does *)

(** An episode after [n] steps. *)
Definition after (n : nat) (s : EpisodeState) : EpisodeState := Nat.iter n (fun s => fst (take_turn s)) s.
(** How often a batch steps an episode. *)
Definition visits (id : EpisodeId) (batch : list EpisodeStep) : nat :=
  length (filter (fun b => episode_id b = id) batch).

Lemma after_S n s : after (S n) s = fst (take_turn (after n s)).
Proof. done. Qed.

Lemma after_fields n s : turn s < 2 ^ 32 -> rng s < 2 ^ 64 ->
  ep_prompt (after n s) = ep_prompt s /\ ep_max_turns (after n s) = ep_max_turns s /\
  turn (after n s) = wrap 32 (turn s + N.of_nat n) /\ rng (after n s) = draws (rng s) (N.of_nat n).
Proof.
  intros Ht Hr. induction n as [|n (IH1 & IH2 & IH3 & IH4)].
  - simpl. unfold draws. rewrite !wrap_small by lia. split_and!; try done; lia.
  - rewrite after_S, Nat2N.inj_succ, <- draws_succ. split_and!; [done|done| |cbn; by rewrite <- IH4].
    change (wrap 32 (turn (after n s) + 1) = wrap 32 (turn s + N.succ (N.of_nat n))).
    rewrite IH3. unfold wrap. rewrite N.Div0.add_mod_idemp_l. f_equal. lia.
Qed.

Lemma visits_snoc id batch b :
  visits id (batch ++ [b]) = if decide (episode_id b = id) then S (visits id batch) else visits id batch.
Proof.
  unfold visits. rewrite filter_app, length_app. case_decide as Hb.
  - rewrite filter_cons_True by done. simpl. lia.
  - rewrite filter_cons_False by done. simpl. lia.
Qed.

(** The entry for the [j]-th step of a batch run from [st]. *)
Definition expected (st : gmap EpisodeId EpisodeState) (batch : list EpisodeStep) (j : nat) (b : EpisodeStep)
    (r : StepResult) : Prop :=
  res_id r = episode_id b /\
  match st !! episode_id b with
  | None => r = mkResult (episode_id b) "" None true Unknown
  | Some s =>
      let before := after (visits (episode_id b) (take j batch)) s in
      observation r = action b /\ info r = TurnInfo (wrap 32 (turn before + 1)) (fst (next_u64 (rng before))) /\
      done_ r = bool_decide (ep_max_turns s <= wrap 32 (turn before + 1)) /\
      (reward_handle = None -> reward r = echo_reward settings)
  end.

Lemma compute_reward_store prompt compl w :
  wp (compute_reward prompt compl) (fun r w' => store w' = store w /\
    (reward_handle = None -> r = Ok (echo_reward settings))) w.
Proof.
  unfold compute_reward. destruct reward_handle as [name|]; [|by apply wp_ret].
  apply wp_bind. unfold plugin_reward. apply wp_bind. unfold wp at 1, on_plugin, zoom.
  destruct (plugin_call _ (plugin w)) as [[bs|e] p]; cbn [fst snd]; [|done].
  apply wp_lift. destruct (decode bs); [by apply wp_ret|done].
Qed.

Definition stepped (st : gmap EpisodeId EpisodeState) (batch seen : list EpisodeStep) (out : list StepResult)
    (w : Env) : Prop :=
  length out = length seen /\
  (forall j b r, seen !! j = Some b -> out !! j = Some r -> expected st batch j b r) /\
  forall id, store w !! id = after (visits id seen) <$> st !! id.

Lemma step_one_spec st batch seen b rest out w :
  batch = seen ++ b :: rest -> stepped st batch seen out w ->
  wp (step_one out b) (fun r w' =>
    (forall id, store w' !! id = after (visits id (seen ++ [b])) <$> st !! id) /\
    match r with Ok out' => stepped st batch (seen ++ [b]) out' w' | Err _ => True end) w.
Proof.
  intros Hb (Hlen & Hexp & Hst). unfold step_one. apply wp_bind. unfold wp at 1, with_episode.
  assert (Htake : take (length seen) batch = seen) by (by rewrite Hb, take_app_length).
  assert (Hfin : forall r w', expected st batch (length seen) b r ->
    (forall id, store w' !! id = after (visits id (seen ++ [b])) <$> st !! id) ->
    stepped st batch (seen ++ [b]) (out ++ [r]) w').
  { intros r w' He Hw. split; [rewrite !length_app; simpl; lia|]. split; [|done]. intros j b' r' Hj Hr.
    apply lookup_app_Some in Hj as [Hj|[Hj1 Hj2]].
    - apply lookup_lt_Some in Hj as Hlt. rewrite lookup_app_l in Hr by lia. by eapply Hexp.
    - rewrite lookup_app_r in Hr by lia. rewrite Hlen in Hr.
      destruct (j - length seen)%nat as [|k] eqn:Hk; [|by destruct k]. injection Hj2 as <-. injection Hr as <-.
      by replace j with (length seen) by lia. }
  pose proof (Hst (episode_id b)) as Hid. destruct (store w !! episode_id b) as [s|] eqn:Hs.
  - destruct (st !! episode_id b) as [s0|] eqn:Hs0; [|done]. injection Hid as ->.
    set (before := after (visits (episode_id b) seen) s0) in *.
    change (take_turn before) with (fst (take_turn before), fst (next_u64 (rng before))).
    cbn [fst snd]. apply wp_bind. eapply wp_mono; [apply compute_reward_store|].
    intros r w' [Hw' Hrew]. cbn [store] in Hw'.
    assert (Hall : forall id, store w' !! id = after (visits id (seen ++ [b])) <$> st !! id).
    { intros id. rewrite Hw', visits_snoc. case_decide as Hi.
      - subst id. rewrite lookup_insert_eq, Hs0. done.
      - by rewrite lookup_insert_ne. }
    destruct r as [rew|e]; [|done]. apply wp_ret. split; [done|]. apply Hfin; [|done].
    split; [done|]. rewrite Hs0, Htake. cbn [observation info done_ reward].
    assert (ep_max_turns (fst (take_turn before)) = ep_max_turns s0) as ->.
    { unfold before. clear. induction (visits (episode_id b) seen) as [|n IH]; [done|]. exact IH. }
    split_and!; try done. intros Hn. specialize (Hrew Hn). congruence.
  - destruct (st !! episode_id b) as [s0|] eqn:Hs0; [done|]. cbn [fst snd]. apply wp_ret.
    assert (Hall : forall id, store w !! id = after (visits id (seen ++ [b])) <$> st !! id).
    { intros id. rewrite Hst, visits_snoc. case_decide as Hi; [|done]. subst id. by rewrite Hs0. }
    split; [done|]. apply Hfin; [|done]. split; [done|]. by rewrite Hs0.
Qed.

Lemma step_one_err out b w :
  wp (step_one out b) (fun r _ => match r with Err _ => reward_handle <> None | Ok _ => True end) w.
Proof.
  unfold step_one. apply wp_bind. unfold wp at 1, with_episode.
  destruct (store w !! episode_id b) as [s|]; [|done].
  destruct (take_turn s) as [s' nonce]; cbn [fst snd]. apply wp_bind.
  eapply wp_mono; [apply compute_reward_store|]. intros [x|e] w' [_ H]; [done|]. intros Hn. by specialize (H Hn).
Qed.

(** A batch answers one entry per step, in order: an unknown or closed
    episode gets its own error entry and disturbs no other; a live one advances
    exactly its own turn and generator, so what the [j]-th entry reports depends
    only on that episode and how often the batch stepped it before.  A failed
    reward call ends the batch after the turns it had already taken. *)
Theorem batch_step_spec batch w :
  wp (step batch) (fun r w' =>
    match r with
    | Ok out => length out = length batch /\
        (forall j b x, batch !! j = Some b -> out !! j = Some x -> expected (store w) batch j b x) /\
        forall id, store w' !! id = after (visits id batch) <$> store w !! id
    | Err _ => reward_handle <> None /\ exists seen rest, batch = seen ++ rest /\
        forall id, store w' !! id = after (visits id seen) <$> store w !! id
    end) w.
Proof.
  eapply wp_mono.
  { apply (wp_mfold step_one (fun out rest w' => exists seen, batch = seen ++ rest /\ stepped (store w) batch seen out w')
      (fun _ w' => reward_handle <> None /\ exists seen rest, batch = seen ++ rest /\
         forall id, store w' !! id = after (visits id seen) <$> store w !! id)).
    - intros out b rest w1 (seen & Hb & Hst). eapply wp_mono.
      { apply wp_and; [by apply (step_one_spec (store w) batch seen b rest)|].
        apply (step_one_err out b w1). }
      intros [out'|e] w2 [[H1 H2] H3].
      + exists (seen ++ [b]). by rewrite <- app_assoc.
      + split; [done|]. exists (seen ++ [b]), rest. by rewrite <- app_assoc.
    - exists []. split; [done|]. split; [done|]. split; [done|]. intros id. simpl. by destruct (store w !! id). }
  intros [out|e] w'; [|done]. intros (seen & Hb & Hl & He & Hs). rewrite app_nil_r in Hb. by subst seen.
Qed.

Lemma reset_loop_spec prompts ids idx out w :
  NoDup ids -> length ids = length prompts ->
  wp (reset_loop prompts ids idx out) (fun r w' => is_ok r = true /\
    (forall id, id ∉ ids -> store w' !! id = store w !! id) /\
    forall i id text, ids !! i = Some id -> prompts !! i = Some text ->
      store w' !! id = Some (mkEpisode text 0 (max_turns settings) (episode_seed (idx + N.of_nat i)))) w.
Proof.
  revert ids idx out w. induction prompts as [|p prompts IH]; intros [|id0 ids] idx out w Hnd Hlen; try done.
  apply NoDup_cons in Hnd as [Hin Hnd]. injection Hlen as Hlen. cbn [reset_loop]. unfold wp. cbv beta.
  set (w1 := mkEnv (<[id0 := mkEpisode p 0 (max_turns settings) (episode_seed idx)]> (store w)) (plugin w)). pose proof (IH ids (idx + 1) (out ++ [mkNewEpisode id0 p]) w1 Hnd Hlen) as H.
  unfold wp in H. destruct H as (Hok & Hframe & Hnew). split; [done|]. split.
  - intros id Hid. rewrite Hframe by set_solver. simpl. rewrite lookup_insert_ne; [done|set_solver].
  - intros [|i] id text Hi Hp; simpl in Hi, Hp.
    + injection Hi as <-. injection Hp as <-. rewrite Hframe by done. simpl. rewrite lookup_insert_eq.
      by rewrite N.add_0_r.
    + rewrite (Hnew i id text Hi Hp). by replace (idx + N.of_nat (S i)) with (idx + 1 + N.of_nat i) by lia.
Qed.

(** Deterministic replay: after a reset, what the environment reports for
    the [i]-th episode's [k]-th step (turn, draw, end of the episode, observation)
    is a function of the settings, [i], [k] and the action alone, whatever the
    fresh identifiers are, whatever else is stepped and whatever was in the store. *)
Theorem replay_is_seeded prompts ids batch w
    (Hnd : NoDup ids) (Hlen : length ids = length prompts)
    (Hseed : default 0 (env_seed settings) < 2 ^ 64) (Hprompts : N.of_nat (length prompts) < 2 ^ 64)
    (Hbatch : N.of_nat (length batch) < 2 ^ 32) :
  wp (let* _ := reset prompts ids in step batch) (fun r _ => forall out, r = Ok out ->
    forall j b x i, batch !! j = Some b -> out !! j = Some x -> ids !! i = Some (episode_id b) ->
      let k := N.of_nat (visits (episode_id b) (take j batch)) in
      info x = TurnInfo (k + 1) (fst (next_u64 (draws (episode_seed (N.of_nat i)) k))) /\
      done_ x = bool_decide (max_turns settings <= k + 1) /\ observation x = action b) w.
Proof.
  apply wp_bind. eapply wp_mono; [by apply reset_loop_spec|]. intros [eps|e] w1 (Hok & _ & Hnew); [|done].
  eapply wp_mono; [apply batch_step_spec|]. intros r w2 H out ->. destruct H as (_ & Hexp & _).
  intros j b x i Hj Hx Hi k. pose proof (Hexp j b x Hj Hx) as He.
  pose proof (lookup_lt_Some _ _ _ Hi) as Hlt. rewrite Hlen in Hlt.
  destruct (lookup_lt_is_Some_2 prompts i Hlt) as [text Htext].
  unfold expected in He. rewrite (Hnew i _ text Hi Htext) in He. destruct He as (_ & Hobs & Hinfo & Hdone & _).
  set (s0 := mkEpisode text 0 (max_turns settings) (episode_seed (0 + N.of_nat i))) in *.
  destruct (after_fields (visits (episode_id b) (take j batch)) s0) as (_ & _ & Hturn & Hrng).
  { simpl. lia. }
  { simpl. apply lxor_bound; [done|]. lia. }
  assert (k < N.of_nat (length batch)) as Hk.
  { unfold k, visits. apply lookup_lt_Some in Hj.
    pose proof (length_filter (fun b0 => episode_id b0 = episode_id b) (take j batch)) as Hf.
    rewrite length_take in Hf. lia. }
  rewrite Hturn, Hrng in Hinfo. rewrite Hturn in Hdone. simpl in Hinfo, Hdone. fold k in Hinfo, Hdone.
  assert (wrap 32 k = k /\ wrap 32 (k + 1) = k + 1) as [Hk1 Hk2] by (split; apply wrap_small; lia).
  rewrite !N.add_0_l in Hinfo, Hdone. rewrite Hk1, Hk2 in Hinfo, Hdone. done.
Qed.
End text_env.

Section text_env_examples.
#[local] Existing Instance bits_codec.
#[local] Instance RewardInput_eq_dec : EqDecision RewardInput.
Proof. solve_decision. Defined.
#[local] Program Instance RewardInput_countable : Countable RewardInput :=
  inj_countable' (fun i => (in_prompt i, completion i)) (fun '(p, c) => mkInput p c) _.
Next Obligation. by intros []. Qed.

Lemma splitmix_never_repeats_witness : fst (next_u64 (draws 0 0)) = 0xE220A8397B1DCDAF /\ 3 = 3.
Proof.
  split; [vm_compute; reflexivity|]. apply (splitmix_never_repeats 42 3 3); reflexivity.
Defined.

Definition echo_settings : TextEnvSettings := mkSettings 2 (Some 5) (Some 42).
Definition no_plugin (b : bytes) : M unit CoreError bytes := mret [].
Definition batch_ex : list EpisodeStep := [mkStep 8 "a"; mkStep 9 "b"; mkStep 3 "x"; mkStep 8 "c"].

Lemma batch_step_spec_witness :
  wp (step no_plugin echo_settings None [mkStep 3 "x"]) (fun r w' =>
    match r with
    | Ok out => length out = 1%nat
    | Err _ => True
    end) (mkEnv ∅ tt).
Proof.
  eapply wp_mono; [apply (batch_step_spec no_plugin echo_settings None [mkStep 3 "x"])|].
  intros [out|e] w'; [|done]. intros [H _]. exact H.
Defined.

Lemma replay_is_seeded_witness :
  NoDup [8; 9] /\
  wp (let* _ := reset echo_settings ["p"; "q"] [8; 9] in step no_plugin echo_settings None batch_ex)
     (fun r _ => forall out, r = Ok out -> forall x, out !! 3%nat = Some x ->
        info x = TurnInfo 2 (fst (next_u64 (draws 42 1))) /\ done_ x = true) (mkEnv ∅ tt).
Proof.
  assert (NoDup [8; 9]) as Hnd by (apply (bool_decide_eq_true_1 _); vm_compute; reflexivity).
  split; [exact Hnd|]. eapply wp_mono.
  - apply (replay_is_seeded no_plugin echo_settings None ["p"; "q"] [8; 9] batch_ex (mkEnv ∅ tt) Hnd eq_refl);
      vm_compute; reflexivity.
  - intros r w2 H out Hr x Hx. destruct (H out Hr 3%nat (mkStep 8 "c") x 0%nat eq_refl Hx eq_refl) as (H1 & H2 & _).
    split; [exact H1|exact H2].
Defined.
End text_env_examples.
