(* ===== verification/EvalSuites.v ===== *)
(** The bundled evaluation suites (rollout-harness-eval/src/suites/, datasets/mod.rs,
    backend.rs): the scorers of MMLU, IFEval and GSM8K, the pinned fixtures, and the
    deterministic backend they are run with. *)
From stdpp Require Import base option list gmap strings pretty.
From S2P Require Import Prelude.
From S2P Require Import Text.
From S2P Require Import Float.
From S2P Require Import Core.
From S2P Require Import Json.

Definition LM_EVAL_VERSION : string := "lm-eval-harness-v0.4.9".

Inductive Suite : Type := Mmlu | Ifeval | Gsm8k.
#[global] Instance Suite_eq_dec : EqDecision Suite.
Proof. solve_decision. Defined.

Definition suite_name (s : Suite) : string :=
  match s with Mmlu => "mmlu" | Ifeval => "ifeval" | Gsm8k => "gsm8k" end.

(** [[T; 4]]. *)
Record four (A : Type) : Type := Four { at0 : A; at1 : A; at2 : A; at3 : A }.
Arguments Four {A} at0 at1 at2 at3.
Arguments at0 {A} f.
Arguments at1 {A} f.
Arguments at2 {A} f.
Arguments at3 {A} f.

(** Reading at an index the loops keep below four. *)
Definition get4 {A} (v : four A) (i : nat) : A :=
  match i with 0 => at0 v | 1 => at1 v | 2 => at2 v | _ => at3 v end.

(** [v[i] = x]: panics out of bounds. *)
Definition set4 {A} (v : four A) (i : nat) (x : A) : outcome (four A) :=
  match i with
  | 0 => Value (Four x (at1 v) (at2 v) (at3 v))
  | 1 => Value (Four (at0 v) x (at2 v) (at3 v))
  | 2 => Value (Four (at0 v) (at1 v) x (at3 v))
  | 3 => Value (Four (at0 v) (at1 v) (at2 v) x)
  | _ => Panic "index out of bounds"
  end.

(** ** Rows (datasets/mod.rs) *)

Record MmluRow : Type := mkMmlu { mmlu_question : string; choices : four string; mmlu_answer : nat }.
Record Gsm8kRow : Type := mkGsm8k { question : string; answer : string }.
Record Instruction : Type := mkInstruction { instr_id : string; kwargs : json }.
Record IfevalRow : Type := mkIfeval { row_key : Z; prompt : string; instructions : list Instruction }.

Inductive Dataset : Type :=
| DsMmlu (rows : list MmluRow)
| DsIfeval (rows : list IfevalRow)
| DsGsm8k (rows : list Gsm8kRow).

Definition dataset_len (d : Dataset) : nat :=
  match d with DsMmlu r => length r | DsIfeval r => length r | DsGsm8k r => length r end.

(** ** MMLU (suites/mmlu.rs) *)
Module MmluSuite.

Definition CHOICES : four string := Four "A" "B" "C" "D".

Record MmluItemScore : Type := mkScore { acc : bool; acc_norm : bool }.

Definition format_prompt (row : MmluRow) : string :=
  let newline := String (Ascii.ascii_of_nat 10) "" in
  foldl (fun s i => s +:+ get4 CHOICES i +:+ ". " +:+ get4 (choices row) i +:+ newline)
        (mmlu_question row +:+ newline) [0; 1; 2; 3]
  +:+ "Answer:".

(** [for i in 1..4 { if v[i] > v[best] { best = i } }]. *)
Definition argmax4 (v : four f64) : nat :=
  foldl (fun best i => if f64_gt (get4 v i) (get4 v best) then i else best) 0 [1; 2; 3].

Definition normed (logprobs : four f64) (cont_lens : four nat) : four f64 :=
  let at_ i := f64_div (get4 logprobs i) (f64_of_nat (Nat.max (get4 cont_lens i) 1)) in
  Four (at_ 0) (at_ 1) (at_ 2) (at_ 3).

Definition score_item (logprobs : four f64) (cont_lens : four nat) (gold : nat) : MmluItemScore :=
  mkScore (bool_decide (argmax4 logprobs = gold))
          (bool_decide (argmax4 (normed logprobs cont_lens) = gold)).
End MmluSuite.

(** ** GSM8K (suites/gsm8k.rs) *)
Section gsm8k.
(** The matches of [GSM8K_FILTER_REGEX] in a text, by the regex crate. *)
Context (find_iter : string -> list string).

Definition gsm8k_noise (c : char) : bool := bool_decide (c ∈ [44; 36; 32; 9; 10]%N).

Definition parse_number (raw : list char) : option f64 :=
  let cleaned := filter (fun c => gsm8k_noise c = false) raw in
  parse_f64 (trim_end (fun c => bool_decide (c = 46%N)) cleaned).

(** [answer.rsplit("####").next()]: all of the answer when there is no marker. *)
Definition extract_gold (ans : string) : option f64 :=
  let tail := default (chars ans) (after_last (chars "####") (chars ans)) in
  parse_number (trim is_whitespace tail).

Definition extract_model_answer (generation : string) : option f64 :=
  m ← last (find_iter generation);
  parse_number (chars m).

(** [1e-6]. *)
Definition tolerance : f64 := f64_of_decimal false 1 (-6).

Definition gsm8k_score_item (gold_answer generation : string) : bool :=
  match extract_gold gold_answer, extract_model_answer generation with
  | Some g, Some m => f64_gt tolerance (SFabs (f64_sub g m))
  | _, _ => false
  end.
End gsm8k.

(** ** The backend without a GPU (backend.rs) *)

(** FNV-1a folded with the seed. *)
Definition det_hash (s : string) (seed : N) : N :=
  foldl (fun h b => wrap 64 (N.lxor h (Byte.to_N b) * 0x00000100000001b3))
        (N.lxor 0xcbf29ce484222325 seed) (bytes_of s).

Record MockEvalBackend : Type := mkBackend {
  completions : gmap string string;
  preferred_choice : gmap string nat;
}.

Definition generate (b : MockEvalBackend) (p : string) (seed : N) : string :=
  match completions b !! p with
  | Some c => c
  | None => "MOCK[" +:+ pretty seed +:+ "]:" +:+ pretty (det_hash p seed)
  end.

Definition choice_logprobs (b : MockEvalBackend) (p : string) (cs : four string) (seed : N)
  : outcome (four f64 * four nat) :=
  let preferred := default (N.to_nat (det_hash p seed mod 4)) (preferred_choice b !! p) in
  let low := f64_of_decimal true 10 0 in
  match set4 (Four low low low low) preferred (f64_of_decimal true 5 (-1)) with
  | Panic m => Panic m
  | Value lp => Value (lp, Four (String.length (at0 cs)) (String.length (at1 cs))
                                (String.length (at2 cs)) (String.length (at3 cs)))
  end.

(** ** IFEval (suites/ifeval.rs) *)

(** The Unicode tables behind [char] and [str], which agree with ASCII. *)
Class Unicode : Type := {
  is_alphabetic : char -> bool;
  is_lowercase : char -> bool;
  is_uppercase : char -> bool;
  to_lowercase : list char -> list char;
}.

Record IfevalScore : Type := mkIfScore {
  instruction_strict_acc : f64;
  prompt_strict_acc : f64;
  skipped_language : nat;
}.

Section ifeval.
Context {U : Unicode}.
(** [serde_json::from_str::<Value>(_).is_ok()]. *)
Context (json_parses : list char -> bool).

Definition SKIPPED_LANGUAGE_PREFIX : string := "language:".

Definition kw_usize (v : json) (key : string) : nat :=
  match x ← json_get v key; as_u64 x with Some n => N.to_nat n | None => 0 end.

(** The comparison an instruction names, ["at least"] unless it says otherwise. *)
Definition relation_holds (v : json) (count n : nat) : bool :=
  let relation := default "at least" (x ← json_get v "relation"; as_text x) in
  if decide (relation = "at least") then bool_decide (n <= count)
  else if decide (relation = "less than") then bool_decide (count < n)
  else if decide (relation = "at most") then bool_decide (count <= n)
  else false.

Definition strip_code_fence (s : list char) : list char :=
  let s := match strip_prefix (chars "```json") s with
           | Some t => t
           | None => default s (strip_prefix (chars "```") s)
           end in
  trim is_whitespace (default s (strip_suffix (chars "```") s)).

Definition count_occurrences (haystack needle : list char) : nat :=
  if decide (needle = []) then 0 else count_matches needle 0 haystack.

Fixpoint placeholders (depth count : nat) (l : list char) : nat :=
  match l with
  | [] => count
  | c :: l' =>
      if decide (c = 91%N) then placeholders (S depth) count l'
      else if decide (c = 93%N) then
        match depth with
        | S depth' => placeholders depth' (S count) l'
        | O => placeholders O count l'
        end
      else placeholders depth count l'
  end.
Definition count_placeholders (l : list char) : nat := placeholders 0 0 l.

Definition sentence_end (c : char) : bool := bool_decide (c ∈ [46; 33; 63]%N).

Definition is_bullet (l : list char) : bool :=
  let t := trim_start is_whitespace l in
  has_prefix (chars "* ") t || has_prefix (chars "- ") t.

Definition check_instruction (id : string) (kw : json) (resp : list char) : bool :=
  if decide (id = "length_constraints:number_words") then
    relation_holds kw (length (split_whitespace resp)) (kw_usize kw "num_words")
  else if decide (id = "length_constraints:number_sentences") then
    relation_holds kw (length (filter (fun s => trim is_whitespace s <> []) (split sentence_end resp)))
                   (kw_usize kw "num_sentences")
  else if decide (id = "detectable_format:number_bullet_lists") then
    bool_decide (length (filter (fun l => is_bullet l = true) (lines resp)) = kw_usize kw "num_bullets")
  else if decide (id = "detectable_format:json_format") then
    json_parses (strip_code_fence (trim is_whitespace resp))
  else if decide (id = "keywords:existence") then
    match x ← json_get kw "keywords"; as_array x with
    | Some kws => forallb (fun k => contains (to_lowercase (chars k)) (to_lowercase resp)) (omap as_text kws)
    | None => false
    end
  else if decide (id = "keywords:frequency") then
    let k := default "" (x ← json_get kw "keyword"; as_text x) in
    relation_holds kw (count_occurrences (to_lowercase resp) (to_lowercase (chars k))) (kw_usize kw "frequency")
  else if decide (id = "change_case:english_lowercase") then
    forallb is_lowercase (filter (fun c => is_alphabetic c = true) resp)
  else if decide (id = "change_case:english_capital") then
    forallb is_uppercase (filter (fun c => is_alphabetic c = true) resp)
  else if decide (id = "detectable_content:number_placeholders") then
    bool_decide (kw_usize kw "num_placeholders" <= count_placeholders resp)
  else false.

Definition is_language (i : Instruction) : bool :=
  has_prefix (bytes_of SKIPPED_LANGUAGE_PREFIX) (bytes_of (instr_id i)).

(** The loop over a prompt's instructions. *)
Fixpoint score_loop (resp : list char) (l : list Instruction) (satisfied total skipped : nat) (all_pass : bool)
  : nat * nat * nat * option bool :=
  match l with
  | [] => (satisfied, total, skipped, if decide (0 < total) then Some all_pass else None)
  | i :: l' =>
      if is_language i then score_loop resp l' satisfied total (S skipped) all_pass
      else if check_instruction (instr_id i) (kwargs i) resp
      then score_loop resp l' (S satisfied) (S total) skipped all_pass
      else score_loop resp l' satisfied (S total) skipped false
  end.

Definition score_prompt (row : IfevalRow) (response : string) : nat * nat * nat * option bool :=
  score_loop (chars response) (instructions row) 0 0 0 true.

Definition ratio (num den : nat) : f64 :=
  if decide (den = 0) then f64_zero else f64_div (f64_of_nat num) (f64_of_nat den).

(** The accumulators [sat], [tot], [skipped], [prompt_pass], [prompt_total]. *)
Fixpoint batch_loop (l : list (IfevalRow * string)) (sat tot skipped prompt_pass prompt_total : nat)
  : nat * nat * nat * nat * nat :=
  match l with
  | [] => (sat, tot, skipped, prompt_pass, prompt_total)
  | (row, resp) :: l' =>
      let '(s, t, sk, pass) := score_prompt row resp in
      batch_loop l' (sat + s) (tot + t) (skipped + sk)
        (match pass with Some true => S prompt_pass | _ => prompt_pass end)
        (match pass with Some _ => S prompt_total | None => prompt_total end)
  end.

Definition score_batch (rows : list IfevalRow) (responses : list string) : IfevalScore :=
  let '(sat, tot, skipped, prompt_pass, prompt_total) := batch_loop (zip rows responses) 0 0 0 0 0 in
  mkIfScore (ratio sat tot) (ratio prompt_pass prompt_total) skipped.
End ifeval.

(** ** The scorers' reference definitions *)

(** [gold] is the first of the greatest of four. *)
Definition first_best (v : four f64) (gold : nat) : Prop :=
  gold < 4 /\ (forall j, j < 4 -> f64_gt (get4 v j) (get4 v gold) = false) /\
  forall j, j < gold -> f64_gt (get4 v gold) (get4 v j) = true.

Definition no_nan (v : four f64) : Prop := forall i, get4 v i <> S754_nan.

(** The loop's invariant: the best of the first [n]. *)
Definition best_of (v : four f64) (n i : nat) : Prop :=
  i < n /\ (forall j, j < n -> f64_gt (get4 v j) (get4 v i) = false) /\
  forall j, j < i -> f64_gt (get4 v i) (get4 v j) = true.

Lemma best_of_step v n i : no_nan v -> best_of v n i ->
  best_of v (S n) (if f64_gt (get4 v n) (get4 v i) then n else i).
Proof.
  intros Hv (Hi & Hle & Hlt). destruct (f64_gt (get4 v n) (get4 v i)) eqn:E.
  - split; [lia|]. split.
    + intros j Hj. destruct (decide (j = n)) as [->|Hne]; [apply f64_gt_irrefl|].
      apply (f64_le_trans _ (get4 v i)); try apply Hv; [apply Hle; lia|by apply f64_gt_asym].
    + intros j Hj. destruct (f64_gt (get4 v n) (get4 v j)) eqn:Ej; [done|].
      rewrite (f64_le_trans (get4 v n) (get4 v j) (get4 v i)) in E; [done|apply Hv..|done|by apply Hle].
  - split; [lia|]. split; [|done]. intros j Hj.
    destruct (decide (j = n)) as [->|Hne]; [done|apply Hle; lia].
Qed.

Lemma best_of_unique v n i j : best_of v n i -> best_of v n j -> i = j.
Proof.
  intros (Hi & Hi1 & Hi2) (Hj & Hj1 & Hj2). destruct (decide (i = j)) as [|Hne]; [done|]. exfalso.
  destruct (decide (i < j)) as [Hlt|Hge].
  - specialize (Hj2 i Hlt). rewrite Hi1 in Hj2; [discriminate|done].
  - specialize (Hi2 j ltac:(lia)). rewrite Hj1 in Hi2; [discriminate|done].
Qed.

Lemma argmax4_best v : no_nan v -> first_best v (MmluSuite.argmax4 v).
Proof.
  intros Hv. assert (best_of v 1 0) as H1.
  { split; [lia|]. split; [|lia]. intros j Hj. replace j with 0 by lia. apply f64_gt_irrefl. }
  pose proof (best_of_step v 1 _ Hv H1) as H2. pose proof (best_of_step v 2 _ Hv H2) as H3.
  exact (best_of_step v 3 _ Hv H3).
Qed.

Lemma argmax4_iff v gold : no_nan v -> MmluSuite.argmax4 v = gold <-> first_best v gold.
Proof.
  intros Hv. split; [intros <-; by apply argmax4_best|]. intros Hg.
  eapply (best_of_unique v 4); [by apply argmax4_best|done].
Qed.

(** The lengths a continuation can have keep the normalisation a number. *)
Lemma normed_no_nan lp lens : no_nan lp -> (forall i, (N.of_nat (get4 lens i) < 2 ^ 53)%N) ->
  no_nan (MmluSuite.normed lp lens).
Proof.
  intros Hlp Hl i.
  assert (forall k, f64_div (get4 lp k) (f64_of_nat (Nat.max (get4 lens k) 1)) <> S754_nan) as H.
  { intros k. apply f64_div_not_nan; [apply Hlp|]. specialize (Hl k). lia. }
  destruct i as [|[|[|i]]]; simpl; apply (H 0) || apply (H 1) || apply (H 2) || apply (H 3).
Qed.

(** The two MMLU bits of an item: [acc] is set exactly when the gold choice is
    the first of those with the greatest log-likelihood, [acc_norm] exactly when
    it is the first with the greatest log-likelihood per byte (an empty choice
    counts one byte); a gold index out of range scores neither. *)
Theorem mmlu_score_item_spec lp lens gold
    (Hlp : no_nan lp) (Hlens : forall i, (N.of_nat (get4 lens i) < 2 ^ 53)%N) :
  (MmluSuite.acc (MmluSuite.score_item lp lens gold) = true <-> first_best lp gold) /\
  (MmluSuite.acc_norm (MmluSuite.score_item lp lens gold) = true <->
   first_best (Four (f64_div (at0 lp) (f64_of_nat (Nat.max (at0 lens) 1)))
                    (f64_div (at1 lp) (f64_of_nat (Nat.max (at1 lens) 1)))
                    (f64_div (at2 lp) (f64_of_nat (Nat.max (at2 lens) 1)))
                    (f64_div (at3 lp) (f64_of_nat (Nat.max (at3 lens) 1)))) gold).
Proof.
  unfold MmluSuite.score_item. simpl. rewrite !bool_decide_eq_true. split.
  - by apply argmax4_iff.
  - apply (argmax4_iff (MmluSuite.normed lp lens)). by apply normed_no_nan.
Qed.

(** The registered preference of the backend is what [acc] scores; an index past
    the last choice panics. *)
Theorem choice_logprobs_spec b p cs seed gold pref (Hp : preferred_choice b !! p = Some pref) :
  match choice_logprobs b p cs seed with
  | Value (lp, lens) => pref < 4 /\
      MmluSuite.acc (MmluSuite.score_item lp lens gold) = bool_decide (pref = gold) /\
      lens = Four (String.length (at0 cs)) (String.length (at1 cs))
                  (String.length (at2 cs)) (String.length (at3 cs))
  | Panic _ => 4 <= pref
  end.
Proof.
  unfold choice_logprobs. rewrite Hp. simpl.
  destruct pref as [|[|[|[|k]]]]; cbn [set4]; [..|lia]; (split; [lia|split; [|done]]).
  all: unfold MmluSuite.score_item; cbn [MmluSuite.acc]; by vm_compute MmluSuite.argmax4.
Qed.

Section gsm8k_proofs.
Context (find_iter : string -> list string).

Lemma after_last_none_free (p l : list char) : p <> [] -> contains p l = false -> after_last p l = None.
Proof.
  intros Hp. induction l as [|c l IH]; cbn [contains after_last]; [done|].
  rewrite orb_false_iff. intros [Hn Hc]. rewrite IH by done. unfold strip_prefix. by rewrite Hn.
Qed.

Lemma after_last_at (a p t : list char) : p <> [] -> after_last p (p ++ t) = Some t ->
  after_last p (a ++ p ++ t) = Some t.
Proof. intros Hp Ht. induction a as [|c a IH]; [done|]. simpl. by rewrite IH. Qed.

Lemma no_hash (t : list char) : contains [35]%N t = false -> filter (fun x => x = 35%N) t = [].
Proof.
  intros Ht. destruct (filter (fun x => x = 35%N) t) as [|x l] eqn:E; [done|]. exfalso.
  assert (x ∈ filter (fun x => x = 35%N) t) as [-> Hin]%list_elem_of_filter by (rewrite E; set_solver).
  apply not_true_iff_false in Ht. apply Ht, contains_spec.
  by apply list_elem_of_split in Hin.
Qed.

Lemma few_hashes k (t : list char) : contains [35]%N t = false -> k < 4 ->
  contains (chars "####") (replicate k 35%N ++ t) = false.
Proof.
  intros Ht Hk. apply not_true_iff_false. intros (a & b & Hab)%contains_spec.
  apply (f_equal (fun l => length (filter (fun x => x = 35%N) l))) in Hab.
  rewrite !filter_app, (no_hash t Ht), !length_app in Hab.
  pose proof (length_filter (fun x : char => x = 35%N) (replicate k 35%N)) as Hl.
  rewrite length_replicate in Hl. simpl in Hab. lia.
Qed.

Lemma after_last_hashes t : contains [35]%N t = false -> after_last (chars "####") (chars "####" ++ t) = Some t.
Proof.
  intros Ht. change (chars "####" ++ t) with (35%N :: (replicate 3 35%N ++ t)). cbn [after_last].
  rewrite after_last_none_free by (try apply few_hashes; done || lia). reflexivity.
Qed.

(** The gold number is what follows the last marker, read without commas,
    dollars and blanks; a generation scores exactly when its last match differs
    from it by less than a millionth, so a NaN or an infinity never does. *)
Theorem gsm8k_score_spec ans pre t generation
    (Hans : chars ans = pre ++ chars "####" ++ t) (Ht : contains [35]%N t = false) :
  (gsm8k_score_item find_iter ans generation = true) <->
  exists g m raw, parse_number (trim is_whitespace t) = Some g /\
    last (find_iter generation) = Some raw /\ parse_number (chars raw) = Some m /\
    f64_gt tolerance (SFabs (f64_sub g m)) = true.
Proof.
  unfold gsm8k_score_item, extract_gold, extract_model_answer.
  rewrite Hans, after_last_at by (try apply after_last_hashes; done). simpl.
  destruct (parse_number (trim _ t)) as [g|]; [|naive_solver].
  destruct (last (find_iter generation)) as [raw|]; simpl; [|naive_solver].
  destruct (parse_number (chars raw)) as [m|] eqn:Em; naive_solver.
Qed.

Lemma same_number_scores g : is_finite g = true -> f64_gt tolerance (SFabs (f64_sub g g)) = true.
Proof. intros Hg. by rewrite f64_sub_self, Hg. Qed.
End gsm8k_proofs.

(** ** IFEval: counts over the instructions that are not skipped *)
Section ifeval_proofs.
Context {U : Unicode} (json_parses : list char -> bool).

Definition language (i : Instruction) : Prop := bytes_of "language:" `prefix_of` bytes_of (instr_id i).
Definition passes (resp : string) (i : Instruction) : Prop :=
  check_instruction json_parses (instr_id i) (kwargs i) (chars resp) = true.
#[local] Instance language_dec i : Decision (language i).
Proof. unfold language. apply _. Defined.
#[local] Instance passes_dec resp i : Decision (passes resp i).
Proof. unfold passes. apply _. Defined.

(** A prompt's instructions that are scored. *)
Definition scored (row : IfevalRow) : list Instruction := filter (fun i => ~ language i) (instructions row).

Definition fraction (num den : nat) : f64 :=
  match den with O => f64_zero | _ => f64_div (f64_of_nat num) (f64_of_nat den) end.

Lemma is_language_spec i : is_language i = bool_decide (language i).
Proof. done. Qed.

Lemma score_loop_spec resp l s t k ap :
  score_loop json_parses (chars resp) l s t k ap =
  let kept := filter (fun i => ~ language i) l in
  (s + length (filter (passes resp) kept), t + length kept, k + (length l - length kept),
   if decide (0 < t + length kept) then Some (ap && bool_decide (Forall (passes resp) kept)) else None).
Proof.
  revert s t k ap. induction l as [|i l IH]; intros s t k ap; cbn zeta in *; cbn [score_loop].
  { simpl. rewrite !Nat.add_0_r, andb_true_r. done. }
  rewrite is_language_spec. pose proof (length_filter (fun i => ~ language i) l) as Hle.
  destruct (bool_decide_reflect (language i)) as [Hl|Hl].
  - rewrite IH, filter_cons_False by (intros H; exact (H Hl)). cbn [length].
    replace (S k + (length l - length (filter (fun i => ~ language i) l)))
      with (k + (S (length l) - length (filter (fun i => ~ language i) l))) by lia. done.
  - rewrite filter_cons_True by done. cbn [length Nat.sub].
    destruct (check_instruction json_parses (instr_id i) (kwargs i) (chars resp)) eqn:E.
    + rewrite IH, (filter_cons_True (passes resp)) by done. cbn [length].
      rewrite !Nat.add_succ_r. cbn [Nat.add]. f_equal. case_decide; [|done]. do 2 f_equal.
      apply bool_decide_ext. rewrite Forall_cons. unfold passes at 2. tauto.
    + rewrite IH, (filter_cons_False (passes resp)) by (unfold passes; congruence). cbn [length].
      rewrite !Nat.add_succ_r. cbn [Nat.add andb]. f_equal. case_decide; [|done]. f_equal.
      rewrite bool_decide_eq_false_2; [by rewrite andb_false_r|].
      rewrite Forall_cons. unfold passes at 1. intros [? _]. congruence.
Qed.

Lemma ratio_fraction num den : ratio num den = fraction num den.
Proof. by destruct den. Qed.

(** Whether a prompt counts, and whether it passes. *)
Definition counted (p : IfevalRow * string) : Prop := scored p.1 <> [].
Definition passing (p : IfevalRow * string) : Prop := counted p /\ Forall (passes p.2) (scored p.1).

Lemma batch_loop_spec l sat tot sk pp pt :
  batch_loop json_parses l sat tot sk pp pt =
  (sat + sum_list_with (fun p => length (filter (passes p.2) (scored p.1))) l,
   tot + sum_list_with (fun p => length (scored p.1)) l,
   sk + sum_list_with (fun p => length (instructions p.1) - length (scored p.1)) l,
   pp + length (filter passing l), pt + length (filter counted l)).
Proof.
  revert sat tot sk pp pt. induction l as [|[row resp] l IH]; intros sat tot sk pp pt; cbn [batch_loop].
  { simpl. by rewrite !Nat.add_0_r. }
  unfold score_prompt. rewrite score_loop_spec. cbv zeta beta iota. fold (scored row). rewrite IH.
  cbn [sum_list_with fst snd]. rewrite !filter_cons.
  assert (Hc : counted (row, resp) <-> scored row <> []) by done.
  assert (Hp : passing (row, resp) <-> scored row <> [] /\ Forall (passes resp) (scored row)) by done.
  destruct (decide (counted (row, resp))) as [H1|H1], (decide (passing (row, resp))) as [H2|H2];
    rewrite Hc in H1; rewrite Hp in H2; clear Hc Hp; destruct (scored row) as [|i ks]; try naive_solver; cbn [length].
  - rewrite bool_decide_eq_true_2, (decide_True (P := 0 < _)) by (naive_solver || lia).
    cbn [andb]. rewrite !pair_equal_spec. repeat split; lia.
  - rewrite bool_decide_eq_false_2, (decide_True (P := 0 < _)) by (naive_solver || lia).
    cbn [andb]. rewrite !pair_equal_spec. repeat split; lia.
  - rewrite (decide_False (P := 0 < _)) by lia. rewrite !pair_equal_spec. simpl. repeat split; lia.
Qed.

(** C24: The IFEval scores: skipped (language) instructions leave both
    denominators, a prompt all of whose instructions are skipped leaves the
    prompt-level one, the instruction score is the fraction of scored
    instructions that pass and the prompt score the fraction of counted prompts
    all of whose scored instructions pass; an empty denominator scores zero. *)
Theorem score_batch_spec rows responses :
  let ps := zip rows responses in
  score_batch json_parses rows responses =
  mkIfScore (fraction (sum_list_with (fun p => length (filter (passes p.2) (scored p.1))) ps)
                      (sum_list_with (fun p => length (scored p.1)) ps))
            (fraction (length (filter passing ps)) (length (filter counted ps)))
            (sum_list_with (fun p => length (instructions p.1) - length (scored p.1)) ps).
Proof.
  cbn zeta. unfold score_batch. rewrite batch_loop_spec. cbn [Nat.add].
  by rewrite !ratio_fraction.
Qed.
End ifeval_proofs.

Section eval_suites_examples.
Definition lp_ex : four f64 := Four (f64_of_decimal true 3 0) (f64_of_decimal true 2 0) (f64_of_decimal true 8 0) (f64_of_decimal true 9 0).
Definition lens_ex : four nat := Four 10 2 1 1.

Example lp_scores : MmluSuite.score_item lp_ex lens_ex 0 = MmluSuite.mkScore false true.
Proof. vm_compute. reflexivity. Qed.
Example gold_comma : extract_gold "Step one. #### 1,234" = Some (f64_of_nat 1234).
Proof. vm_compute. reflexivity. Qed.

Lemma mmlu_score_item_spec_witness :
  first_best lp_ex 1 /\ MmluSuite.acc (MmluSuite.score_item lp_ex lens_ex 1) = true.
Proof.
  assert (MmluSuite.acc (MmluSuite.score_item lp_ex lens_ex 1) = true) as H by (vm_compute; reflexivity).
  split; [|exact H]. refine (proj1 (proj1 (mmlu_score_item_spec lp_ex lens_ex 1 _ _)) H).
  - intros [|[|[|i]]]; vm_compute; discriminate.
  - intros [|[|[|i]]]; reflexivity.
Defined.
End eval_suites_examples.
