(* ===== verification/EvalJob.v ===== *)
(** An evaluation example as a work-queue job (rollout-harness-eval/src/job.rs) and
    the rows of finished reports (eval_reports.rs; the report types are those of
    rollout-core/src/traits/harness.rs). *)
From stdpp Require Import base option list gmap strings.
From S2P Require Import Prelude.
From S2P Require Import Text.
From S2P Require Import Float.
From S2P Require Import Core.
From S2P Require Import Backend.
From S2P Require Import Storage.
From S2P Require Import WorkItem.
From S2P Require Import ObjectStore.
From S2P Require Import EvalSuites.

Record ExampleResult : Type := mkExample { ex_idx : N; ex_score : f64 }.

Inductive MetricValue : Type := Scalar (x : f64).
Record TaskResult : Type := mkTask { task_id : string; task_score : f64 }.
Record EvalReport : Type := mkReport {
  eval_name : string;
  eval_version : string;
  model_ref : ModelRef;
  started_at : N;
  completed_at : N;
  metrics : gmap string MetricValue;
  per_task : list TaskResult;
}.
Record EvalReportRecord : Type := mkReportRecord { report_id : ContentId; report : EvalReport }.

#[global] Instance ExampleResult_eq_dec : EqDecision ExampleResult.
Proof. solve_decision. Defined.
#[global] Instance MetricValue_eq_dec : EqDecision MetricValue.
Proof. solve_decision. Defined.
#[global] Instance TaskResult_eq_dec : EqDecision TaskResult.
Proof. solve_decision. Defined.
#[global] Instance EvalReport_eq_dec : EqDecision EvalReport.
Proof. solve_decision. Defined.
#[global] Instance EvalReportRecord_eq_dec : EqDecision EvalReportRecord.
Proof. solve_decision. Defined.

Definition eval_report_key (run_id : RunId) (id : ContentId) : StorageKey :=
  mkKey "eval_reports" (Some run_id) ["report"; ContentId_to_string id].
Definition eval_report_prefix (run_id : RunId) : KeyRange :=
  mkRange (mkKey "eval_reports" (Some run_id) ["report"]) None.

Lemma eval_report_key_known run_id id : known (eval_report_key run_id id).
Proof. unfold known; simpl. set_solver. Qed.
#[global] Hint Resolve eval_report_key_known : core.

(** The two handles a job is given. *)
Record JobWorld (W O : Type) : Type := mkJob { j_store : W; j_objects : O }.
Arguments mkJob {W O} j_store j_objects.
Arguments j_store {W O} j.
Arguments j_objects {W O} j.

Section eval_job.
Context {W T : Type} {ST : Storage W T} {SL : StorageLaws W T} {WC : Codec WorkItemRecord}.
Context (content_id_of : bytes -> ContentId).
Context {O : Type} {OS : ObjectStore O content_id_of} {OL : ObjectStoreLaws O content_id_of}.
Context {EC : Codec ExampleResult} {TC : Codec (string * string * N * string)}.

Definition on_store {A} (m : M W CoreError A) : M (JobWorld W O) CoreError A :=
  zoom j_store (fun s w => mkJob s (j_objects w)) m.
Definition on_objects {A} (m : M O CoreError A) : M (JobWorld W O) CoreError A :=
  zoom j_objects (fun o w => mkJob (j_store w) o) m.

Definition example_work_id (suite : Suite) (suite_version : string) (idx : N) (model_id : string) : ContentId :=
  content_id_of (encode (suite_name suite, suite_version, idx, model_id)).

Definition decode_rec (bs : bytes) : result CoreError WorkItemRecord :=
  match decode bs with
  | Ok r => Ok r
  | Err e => Err (internal ("postcard decode: " +:+ e))
  end.

(** From the claim to the completion; each transition is a transaction of its own,
    committed when it won and aborted when it lost. *)
Definition claim_score_complete (run_id : RunId) (worker_id : WorkerId) (work_id : ContentId)
    (result : ExampleResult) (now_ms : N) : M (JobWorld W O) CoreError ContentId :=
  let* _ := on_store (run_op run_id (OpClaim (mkWork work_id Pending) worker_id now_ms)) in
  let* result_id := on_objects (o_put (encode result)) in
  let* _ := on_store (run_op run_id (OpComplete (mkWork work_id (Running worker_id now_ms)) result_id)) in
  mret result_id.

Definition run_example_job (run_id : RunId) (worker_id : WorkerId) (work_id : ContentId)
    (result : ExampleResult) (now_ms : N) : M (JobWorld W O) CoreError ContentId :=
  let key := work_key run_id work_id in
  let* row := on_store (Storage.get_bytes key) in
  match row with
  | Some bs =>
      let* rec := mlift (decode_rec bs) in
      match state rec with
      | Done result_id => mret result_id
      | _ => claim_score_complete run_id worker_id work_id result now_ms
      end
  | None =>
      let* _ := on_store (put_row key (encode (mkWork work_id Pending))) in
      claim_score_complete run_id worker_id work_id result now_ms
  end.

(** ** What a job leaves of its item *)

(** The row after the claim and after the completion, if the calls succeed. *)
Definition after_claim (work_id : ContentId) (worker_id : WorkerId) (now_ms : N) (row : option bytes) : option bytes :=
  if decide (row = Some (encode (mkWork work_id Pending)))
  then Some (encode (mkWork work_id (Running worker_id now_ms))) else row.
Definition after_complete (work_id : ContentId) (worker_id : WorkerId) (now_ms : N) (result_id : ContentId)
    (row : option bytes) : option bytes :=
  if decide (row = Some (encode (mkWork work_id (Running worker_id now_ms))))
  then Some (encode (mkWork work_id (Done result_id))) else row.

Definition healthy_job (w : JobWorld W O) : Prop :=
  healthy (j_store w) /\ forall b o, o_valid o -> is_ok (fst (o_put b o)) = true.

Lemma wp_result {S A} (m : M S CoreError A) s : wp m (fun r s' => m s = (r, s')) s.
Proof. unfold wp. by destruct (m s). Qed.

(** A transition: what it does to its row, on every branch, and to no other. *)
Lemma run_op_row run_id op s :
  wp (run_op run_id op) (fun r s' =>
    (healthy s -> healthy s') /\
    (forall k, k <> op_row run_id op -> contents s' !! k = contents s !! k) /\
    match r with
    | Ok _ => contents s' !! op_row run_id op =
        if decide (contents s !! op_row run_id op = Some (encode (op_record op)))
        then match op_next op (WorkItem.state (op_record op)) with
             | Some st => Some (encode (mkWork (op_id op) st))
             | None => contents s !! op_row run_id op
             end
        else contents s !! op_row run_id op
    | Err _ => ~ healthy s /\ contents s' !! op_row run_id op = contents s !! op_row run_id op
    end) s.
Proof.
  eapply wp_mono; [apply run_op_spec|]. intros [[]|e] s' [Hh Hr].
  - destruct Hr as (Hrow & st & Hn & ->). split; [done|]. split; [intros k Hk; by rewrite lookup_insert_ne|].
    by rewrite lookup_insert_eq, decide_True, Hn.
  - destruct Hr as (-> & Hr). split; [done|]. split; [done|]. case_decide; [|done].
    destruct Hr as [Hr|Hr]; [done|]. by rewrite Hr.
  - destruct Hr as (-> & ?). done.
Qed.

(** The two transitions of a job, at the item's key. *)
Lemma claim_row run_id wid id now s :
  wp (run_op run_id (OpClaim (mkWork id Pending) wid now)) (fun r s' =>
    (healthy s -> healthy s') /\
    (forall k, k <> work_key run_id id -> contents s' !! k = contents s !! k) /\
    match r with
    | Ok _ => contents s' !! work_key run_id id = after_claim id wid now (contents s !! work_key run_id id)
    | Err _ => ~ healthy s /\ contents s' !! work_key run_id id = contents s !! work_key run_id id
    end) s.
Proof. exact (run_op_row run_id (OpClaim (mkWork id Pending) wid now) s). Qed.

Lemma complete_row run_id wid id now rid s :
  wp (run_op run_id (OpComplete (mkWork id (Running wid now)) rid)) (fun r s' =>
    (healthy s -> healthy s') /\
    (forall k, k <> work_key run_id id -> contents s' !! k = contents s !! k) /\
    match r with
    | Ok _ => contents s' !! work_key run_id id = after_complete id wid now rid (contents s !! work_key run_id id)
    | Err _ => ~ healthy s /\ contents s' !! work_key run_id id = contents s !! work_key run_id id
    end) s.
Proof. exact (run_op_row run_id (OpComplete (mkWork id (Running wid now)) rid) s). Qed.

Lemma claim_score_complete_spec run_id wid id result now w :
  o_valid (j_objects w) ->
  wp (claim_score_complete run_id wid id result now) (fun r w' =>
    let row := contents (j_store w) !! work_key run_id id in
    let row' := contents (j_store w') !! work_key run_id id in
    (healthy_job w -> healthy_job w' /\ is_ok r = true) /\ o_valid (j_objects w') /\
    (forall k, k <> work_key run_id id -> contents (j_store w') !! k = contents (j_store w) !! k) /\
    (forall i, ContentId_wf i -> is_Some (blobs (j_objects w) i) -> is_Some (blobs (j_objects w') i)) /\
    match r with
    | Ok result_id => result_id = content_id_of (encode result) /\
        is_Some (blobs (j_objects w') result_id) /\
        row' = after_complete id wid now result_id (after_claim id wid now row)
    | Err _ => row' = row \/ row' = after_claim id wid now row
    end) w.
Proof.
  intros Hv. unfold claim_score_complete. apply wp_bind, wp_zoom.
  eapply wp_mono; [apply claim_row|].
  intros [won|e] s1 (Hh1 & Hf1 & Hr1); cbn [j_store j_objects].
  2:{ destruct Hr1 as [Hn Hr1]. split_and!; try done; [intros [? _]; done|by left]. }
  apply wp_bind, wp_zoom. eapply wp_mono; [apply wp_and; [by apply o_put_law|apply wp_result]|]. cbn [j_objects].
  intros r o1 [[Hv1 Hr2] Hput]. assert (healthy_job w -> is_ok r = true) as Hok.
  { intros [_ Hp]. specialize (Hp (encode result) _ Hv). by rewrite Hput in Hp. }
  assert (forall i, ContentId_wf i -> is_Some (blobs (j_objects w) i) -> is_Some (blobs o1 i)) as Hb.
  { intros i Hi [b Hbi]. destruct r as [rid|e]; [|apply Hr2; [done|by eexists]].
    destruct Hr2 as (_ & Ho & b' & Hb' & _). destruct (decide (i = rid)) as [->|Hne]; [by eexists|].
    rewrite Ho by done. by eexists. }
  destruct r as [rid|e]; cbn [j_store j_objects].
  2:{ split_and!; try done; [intros Hh; by specialize (Hok Hh)|]. right. exact Hr1. }
  destruct Hr2 as (-> & _ & b' & Hb' & _).
  apply wp_bind, wp_zoom. eapply wp_mono; [apply complete_row|]. cbn [j_store].
  intros [won2|e] s2 (Hh2 & Hf2 & Hr3); cbn [j_store j_objects].
  - apply wp_ret. cbn [j_store j_objects]. split; [intros [Hh Hp]; split; [split; auto|done]|]. split; [done|].
    split; [intros k Hk; rewrite Hf2 by done; by apply Hf1|]. split; [done|]. split; [done|]. split; [by eexists|].
    by rewrite Hr3, Hr1.
  - destruct Hr3 as [Hn Hr3]. split; [intros [Hh _]; exfalso; auto|]. split; [done|].
    split; [intros k Hk; rewrite Hf2 by done; by apply Hf1|]. split; [done|]. right. rewrite Hr3. exact Hr1.
Qed.

Lemma final_row id wid now rid row :
  after_complete id wid now rid (after_claim id wid now (from_option Some (Some (encode (mkWork id Pending))) row)) =
  if decide (row = None \/ row = Some (encode (mkWork id Pending)) \/ row = Some (encode (mkWork id (Running wid now))))
  then Some (encode (mkWork id (Done rid))) else row.
Proof.
  unfold after_complete, after_claim. destruct row as [bs|]; simpl.
  - destruct (decide (Some bs = Some (encode (mkWork id Pending)))) as [Hp|Hp].
    + repeat case_decide; naive_solver.
    + repeat case_decide; naive_solver.
  - repeat case_decide; naive_solver.
Qed.

(** What a job leaves: the frame, success in a healthy world, and its row. *)
Definition job_post (run_id : RunId) (wid : WorkerId) (id : ContentId) (res : ExampleResult) (now : N)
    (w : JobWorld W O) (r : result CoreError ContentId) (w' : JobWorld W O) : Prop :=
  let row := contents (j_store w) !! work_key run_id id in
  let row' := contents (j_store w') !! work_key run_id id in
  let pending := encode (mkWork id Pending) in
  let running := encode (mkWork id (Running wid now)) in
  o_valid (j_objects w') /\
  (forall k, k <> work_key run_id id -> contents (j_store w') !! k = contents (j_store w) !! k) /\
  (forall i, ContentId_wf i -> is_Some (blobs (j_objects w) i) -> is_Some (blobs (j_objects w') i)) /\
  (healthy_job w -> healthy_job w' /\
     (is_ok r = false -> exists bs e, row = Some bs /\ decode (A := WorkItemRecord) bs = Err e)) /\
  match r with
  | Ok rid =>
      (exists bs rec, row = Some bs /\ decode bs = Ok rec /\ WorkItem.state rec = Done rid /\
         row' = row /\ j_objects w' = j_objects w) \/
      ((forall bs rec r0, row = Some bs -> decode bs = Ok rec -> WorkItem.state rec <> Done r0) /\
       rid = content_id_of (encode res) /\ is_Some (blobs (j_objects w') rid) /\
       row' = if decide (row = None \/ row = Some pending \/ row = Some running)
              then Some (encode (mkWork id (Done rid))) else row)
  | Err _ => row' = row \/ row' = Some pending \/ row' = Some running
  end.

(** The claim-to-completion part, from a row that is not done. *)
Lemma claim_case run_id wid id res now w w1 : o_valid (j_objects w1) ->
  (forall k, k <> work_key run_id id -> contents (j_store w1) !! k = contents (j_store w) !! k) ->
  (forall i, ContentId_wf i -> is_Some (blobs (j_objects w) i) -> is_Some (blobs (j_objects w1) i)) ->
  (healthy_job w -> healthy_job w1) ->
  (contents (j_store w1) !! work_key run_id id =
   from_option Some (Some (encode (mkWork id Pending))) (contents (j_store w) !! work_key run_id id)) ->
  (forall bs rec r0, contents (j_store w) !! work_key run_id id = Some bs -> decode bs = Ok rec ->
     WorkItem.state rec <> Done r0) ->
  wp (claim_score_complete run_id wid id res now) (job_post run_id wid id res now w) w1.
Proof.
  intros Hv1 Hf Hb1 Hh Hrow Hnd. eapply wp_mono; [by apply claim_score_complete_spec|].
  intros r w' (Hh' & Hv' & Hf' & Hb' & Hr'). rewrite Hrow in Hr'. unfold job_post.
  split; [done|]. split; [intros k Hk; rewrite Hf' by done; by apply Hf|]. split; [auto|].
  split. { intros H. destruct (Hh' (Hh H)) as [? Hok]. split; [done|]. congruence. }
  destruct r as [rid|e].
  - destruct Hr' as (Hrid & Hb & ->). right. rewrite final_row. done.
  - destruct (contents (j_store w) !! work_key run_id id) as [bs|]; simpl in Hr'; [|].
    + unfold after_claim in Hr'. case_decide; destruct Hr' as [-> | ->]; auto.
    + unfold after_claim in Hr'. rewrite decide_True in Hr' by done. destruct Hr' as [-> | ->]; auto.
Qed.

(** One example as a job, on every branch.  A [Done] item answers its stored
    result and nothing is written.  Otherwise the result blob is stored and its
    id answered, and the item is [Done] with that id exactly when it was absent,
    pending, or already running under this worker's own claim; an item another
    claim holds, or one that failed, is left as it is although a result is
    answered.  An error leaves the item absent, pending, claimed or as it was, and
    no other row is touched.  With healthy stores a job whose row decodes succeeds. *)
Theorem run_example_job_spec run_id wid id res now w (Hv : o_valid (j_objects w)) :
  wp (run_example_job run_id wid id res now) (job_post run_id wid id res now w) w.
Proof.
  unfold run_example_job. apply wp_bind, wp_zoom. eapply wp_mono; [by apply get_law|].
  intros [row|e] s1 ((Hc1 & _ & Hh1) & Hr1); cbn [j_store j_objects].
  2:{ unfold job_post. cbn [j_store j_objects]. simpl in Hr1. rewrite Hc1.
      split_and!; try done; [|by left]. intros [? _]. done. }
  simpl in Hr1. subst row. destruct (contents (j_store w) !! work_key run_id id) as [bs|] eqn:Hrow.
  - apply wp_bind, wp_lift. unfold decode_rec.
    assert (Hsame : forall r, (forall e, r = Err e -> exists e', decode (A := WorkItemRecord) bs = Err e') ->
      (forall rid, r = Ok rid -> exists rec, decode bs = Ok rec /\ WorkItem.state rec = Done rid) ->
      job_post run_id wid id res now w r (mkJob s1 (j_objects w))).
    { intros r He Hok. unfold job_post. cbn [j_store j_objects]. rewrite Hc1, Hrow. split; [done|]. split; [done|]. split; [done|].
      split; [intros [? ?]; split; [split; auto|]; intros Hr; exists bs; destruct r as [|e]; [done|]; by destruct (He e eq_refl) as [e' ?]; exists e'|].
      destruct r as [rid|e]; [|by left]. destruct (Hok rid eq_refl) as (rec & ? & ?). left. eauto 10. }
    destruct (decode bs) as [rec|e] eqn:Hdec; cbn [result_bind].
    2:{ apply Hsame; [naive_solver|done]. }
    destruct (WorkItem.state rec) as [|w0 t0|rid|m] eqn:Hst; [| |apply wp_ret, Hsame; naive_solver|].
    all: apply claim_case; cbn [j_store j_objects]; try done; rewrite ?Hc1, ?Hrow; try done;
      [by intros [? ?]; split; [cbn; auto|]
      |intros bs' rec' r0 [= <-]; rewrite Hdec; intros [= <-]; congruence].
  - apply wp_bind, wp_zoom. cbn [j_store j_objects].
    eapply wp_mono; [apply wp_and; [apply put_row_spec; done|apply wp_result]|].
    intros r s2 [Hc2 Hput]. cbn [j_store j_objects].
    assert (Hlive : healthy (j_store w) -> r = Ok tt /\ healthy s2).
    { intros Hh. pose proof (put_row_healthy (work_key run_id id) (encode (mkWork id Pending)) s1
        (work_key_known _ _) (Hh1 Hh)) as H. unfold wp in H. rewrite Hput in H. tauto. }
    destruct r as [[]|e].
    + apply claim_case; cbn [j_store j_objects]; try done; rewrite ?Hc2, ?Hc1, ?Hrow.
      * intros k Hk. by rewrite lookup_insert_ne.
      * intros [Hh Hp]. split; [cbn; by apply Hlive|done].
      * by rewrite lookup_insert_eq.
      * done.
    + unfold job_post. cbn [j_store j_objects]. rewrite Hc2, Hc1. split_and!; try done; [|by left].
      intros [Hh _]. destruct (Hlive Hh). done.
Qed.
End eval_job.

Section eval_job_examples.
#[local] Existing Instance bits_codec.
#[local] Program Instance ExampleResult_countable : Countable ExampleResult :=
  inj_countable' (fun r => (ex_idx r, ex_score r)) (fun '(i, x) => mkExample i x) _.
Next Obligation. by intros []. Qed.

Definition scored_one : ExampleResult := mkExample 0 (f64_of_bool true).
(** An item claimed by another worker, as a crash leaves it. *)
Definition stuck : JobWorld Mem.World (gmap ContentId bytes) :=
  mkJob (Mem.mkWorld {[ work_key 1 [x0a] := encode (mkWork [x0a] (Running 9 3)) ]} [] []) ∅.

Lemma run_example_job_spec_witness :
  wp (run_example_job pad 1 7 [x0a] scored_one 4) (fun r w' => is_ok r = true /\
    contents (j_store w') !! work_key 1 [x0a] = Some (encode (mkWork [x0a] (Running 9 3)))) stuck.
Proof.
  assert (o_valid (ObjectStore := map_objects pad) (j_objects stuck)) as Hv by (intros i b Hib; discriminate Hib).
  eapply wp_mono; [exact (run_example_job_spec pad 1 7 [x0a] scored_one 4 stuck Hv)|].
  intros r w' (_ & _ & _ & Hlive & Hr).
  assert (Hh : healthy_job pad stuck) by (split; [constructor|done]).
  destruct (Hlive Hh) as [_ Hok].
  assert (decode (A := WorkItemRecord) (encode (mkWork [x0a] (Running 9 3))) = Ok (mkWork [x0a] (Running 9 3))) as Hdec
    by apply decode_encode.
  assert (contents (j_store stuck) !! work_key 1 [x0a] = Some (encode (mkWork [x0a] (Running 9 3)))) as Hrow
    by (vm_compute; reflexivity).
  rewrite Hrow in *. destruct r as [rid|e].
  - split; [done|]. destruct Hr as [(bs & rec & [= <-] & Hd & Hs & Hr & _)|(_ & _ & _ & Hr)].
    + pose proof (eq_trans (eq_sym Hdec) Hd) as E. injection E as <-. discriminate Hs.
    + rewrite Hr, decide_False; [done|]. intros [?|[Hp|Hp]]; [done| |]; vm_compute in Hp; discriminate Hp.
  - destruct (Hok eq_refl) as (bs & e' & [= <-] & Hd). pose proof (eq_trans (eq_sym Hdec) Hd) as E. discriminate E.
Defined.
End eval_job_examples.
