(* ===== verification/EvalRun.v ===== *)
(** The bundled evaluation harness (rollout-harness-eval/src/lib.rs) and the loader
    of its pinned datasets (datasets/mod.rs). *)
From stdpp Require Import base option list gmap strings pretty.
From S2P Require Import Prelude.
From S2P Require Import Text.
From S2P Require Import Float.
From S2P Require Import Core.
From S2P Require Import Backend.
From S2P Require Import Json.
From S2P Require Import Storage.
From S2P Require Import WorkItem.
From S2P Require Import ObjectStore.
From S2P Require Import EvalSuites.
From S2P Require Import EvalJob.

(** ** The loader (datasets/mod.rs) *)
Definition MMLU_TEST_BLAKE3 : string := "1ca8bbda8a66fe1592ec3f2978a0e8a7d7437e7e2be71c486b4cdc80b869bb7a".
Definition IFEVAL_TEST_BLAKE3 : string := "d7eb173c556005ce979248315c0746e1110de4d4946594f40dc73088c395f669".
Definition GSM8K_TEST_BLAKE3 : string := "3abe754c7cf22ed2911fc7bc2bebf2818bd66a91e2a91fd7a6e9b548ec26d29a".

(** A batch of an arrow table: its typed columns, [None] when the column is missing
    or of another type. *)
Record RecordBatch : Type := mkBatch {
  num_rows : nat;
  col_utf8 : string -> option (nat -> string);
  col_i32 : string -> option (nat -> Z);
  col_i64 : string -> option (nat -> Z);
  col_list : string -> option (nat -> option (list string));
}.

(** A loop that pushes what [f] gives for each element and stops at an error. *)
Fixpoint try_map {E A B} (f : A -> result E B) (l : list A) : result E (list B) :=
  match l with
  | [] => Ok []
  | x :: l' => let? y := f x in let? ys := try_map f l' in Ok (y :: ys)
  end.

Section datasets.
(** The environment, the file system, the hash, the parquet reader and the JSON
    reader of the instructions column. *)
Context (env : string -> option string).
Context (read_file : string -> string -> result string bytes).
Context (content_id_of : bytes -> ContentId).
Context (read_batches : bytes -> result CoreError (list RecordBatch)).
Context (parse_instructions : string -> result string (list Instruction)).

Definition online_requested (var : string) : bool :=
  match env var with
  | Some v => bool_decide (v = "0") || bool_decide (to_ascii_lowercase v = bytes_of "false")
  | None => false
  end.

Definition is_offline : bool := negb (online_requested "HF_OFFLINE") && negb (online_requested "HF_HUB_OFFLINE").

Definition ok_or {A} (o : option A) (msg : string) : result CoreError A :=
  match o with Some a => Ok a | None => Err (internal msg) end.

Definition col_str (b : RecordBatch) (name : string) : result CoreError (nat -> string) :=
  ok_or (col_utf8 b name) ("missing Utf8 column `" +:+ name +:+ "`").

Definition mmlu_row (questions : nat -> string) (answers : nat -> Z) (choices : nat -> option (list string)) (i : nat)
  : result CoreError MmluRow :=
  let? vals := ok_or (choices i) "mmlu: `choices` elements must be Utf8" in
  match vals with
  | [a; b; c; d] =>
      Ok (mkMmlu (questions i) (Four a b c d) (if decide (0 <= answers i)%Z then Z.to_nat (answers i) else 0))
  | _ => Err (internal ("mmlu row " +:+ pretty (N.of_nat i) +:+ ": expected 4 choices, got "
                        +:+ pretty (N.of_nat (length vals))))
  end.

Definition parse_mmlu (bs : bytes) : result CoreError (list MmluRow) :=
  let? batches := read_batches bs in
  let? rows := try_map (fun b =>
    let? questions := col_str b "question" in
    let? answers := ok_or (col_i32 b "answer") "mmlu: missing Int32 column `answer`" in
    let? choices := ok_or (col_list b "choices") "mmlu: missing List column `choices`" in
    try_map (mmlu_row questions answers choices) (seq 0 (num_rows b))) batches in
  Ok (concat rows).

Definition parse_gsm8k (bs : bytes) : result CoreError (list Gsm8kRow) :=
  let? batches := read_batches bs in
  let? rows := try_map (fun b =>
    let? questions := col_str b "question" in
    let? answers := col_str b "answer" in
    Ok ((fun i => mkGsm8k (questions i) (answers i)) <$> seq 0 (num_rows b))) batches in
  Ok (concat rows).

Definition ifeval_row (keys : nat -> Z) (prompts instrs : nat -> string) (i : nat) : result CoreError IfevalRow :=
  match parse_instructions (instrs i) with
  | Ok parsed => Ok (mkIfeval (keys i) (prompts i) parsed)
  | Err e => Err (internal ("ifeval row " +:+ pretty (N.of_nat i) +:+ ": bad instructions json: " +:+ e))
  end.

Definition parse_ifeval (bs : bytes) : result CoreError (list IfevalRow) :=
  let? batches := read_batches bs in
  let? rows := try_map (fun b =>
    let? keys := ok_or (col_i64 b "key") "ifeval: missing Int64 column `key`" in
    let? prompts := col_str b "prompt" in
    let? instrs := col_str b "instructions" in
    try_map (ifeval_row keys prompts instrs) (seq 0 (num_rows b))) batches in
  Ok (concat rows).

Definition load_online (s : Suite) : result CoreError Dataset :=
  Err (internal ("online dataset download for " +:+ suite_name s
    +:+ " requires HF network + ObjectStore cache (07-05); unset HF_OFFLINE=0 (offline is the default) to use the vendored fixture")).

Definition fixture (s : Suite) : string * string :=
  match s with
  | Mmlu => ("mmlu_10.parquet", MMLU_TEST_BLAKE3)
  | Ifeval => ("ifeval_10.parquet", IFEVAL_TEST_BLAKE3)
  | Gsm8k => ("gsm8k_10.parquet", GSM8K_TEST_BLAKE3)
  end.

Definition load (s : Suite) (fixtures_dir : string) : result CoreError Dataset :=
  if negb is_offline then load_online s
  else
    let '(file, expected) := fixture s in
    match read_file fixtures_dir file with
    | Err e => Err (internal ("read fixture " +:+ fixtures_dir +:+ "/" +:+ file +:+ ": " +:+ e))
    | Ok bs =>
        let got := ContentId_to_string (content_id_of bs) in
        if decide (got <> expected) then
          Err (internal ("fixture " +:+ file +:+ " blake3 drift: expected " +:+ expected +:+ ", got " +:+ got))
        else
          match s with
          | Mmlu => let? rows := parse_mmlu bs in Ok (DsMmlu rows)
          | Ifeval => let? rows := parse_ifeval bs in Ok (DsIfeval rows)
          | Gsm8k => let? rows := parse_gsm8k bs in Ok (DsGsm8k rows)
          end
    end.

(** The dataset of a suite. *)
Definition dataset_suite (d : Dataset) : Suite :=
  match d with DsMmlu _ => Mmlu | DsIfeval _ => Ifeval | DsGsm8k _ => Gsm8k end.

(** The pinned hash of a suite's fixture. *)
Definition pinned (s : Suite) : string :=
  match s with
  | Mmlu => "1ca8bbda8a66fe1592ec3f2978a0e8a7d7437e7e2be71c486b4cdc80b869bb7a"
  | Ifeval => "d7eb173c556005ce979248315c0746e1110de4d4946594f40dc73088c395f669"
  | Gsm8k => "3abe754c7cf22ed2911fc7bc2bebf2818bd66a91e2a91fd7a6e9b548ec26d29a"
  end.

(** A dataset is loaded only from bytes with the pinned hash, only offline, and
    it is always one of the suite asked for, so the harness's mismatch arm is
    dead. *)
Theorem load_spec s dir d (Hload : load s dir = Ok d) :
  dataset_suite d = s /\
  (forall v, env "HF_OFFLINE" = Some v \/ env "HF_HUB_OFFLINE" = Some v -> v <> "0" /\ v <> "false") /\
  exists file bs, read_file dir file = Ok bs /\ ContentId_to_string (content_id_of bs) = pinned s.
Proof.
  unfold load in Hload. destruct is_offline eqn:Hoff; simpl in Hload; [|done].
  assert (forall var v, online_requested var = false -> env var = Some v -> v <> "0" /\ v <> "false") as Hvar.
  { intros var v. unfold online_requested. intros Ho Hv. rewrite Hv in Ho.
    rewrite orb_false_iff, !bool_decide_eq_false in Ho. destruct Ho as [H0 Hf]. split; [done|]. intros ->. by apply Hf. }
  unfold is_offline in Hoff. rewrite andb_true_iff, !negb_true_iff in Hoff. destruct Hoff as [Ho1 Ho2].
  destruct (fixture s) as [file expected] eqn:Hfix.
  destruct (read_file dir file) as [bs|e] eqn:Hread; [|done].
  destruct (decide (ContentId_to_string (content_id_of bs) <> expected)) as [Hne|Hne%dec_stable]; [done|].
  split; [|split; [intros v [Hv|Hv]; [exact (Hvar _ v Ho1 Hv)|exact (Hvar _ v Ho2 Hv)]|]].
  - destruct s; [destruct (parse_mmlu bs)|destruct (parse_ifeval bs)|destruct (parse_gsm8k bs)];
      simpl in Hload; try done; by injection Hload as <-.
  - exists file, bs. split; [done|]. rewrite Hne. destruct s; injection Hfix as _ <-; done.
Qed.
End datasets.

(** ** The harness (lib.rs) *)

Record EvalContext : Type := mkCtx { seed : N }.

Record MetricSpec : Type := mkSpec { metric_name : string; higher_is_better : bool }.
Record EvalDescriptor : Type := mkDescriptor {
  d_name : string;
  d_version : string;
  d_metrics : list MetricSpec;
  task_count : option N;
}.

Definition spec (name : string) : MetricSpec := mkSpec name true.

Definition descriptor (s : Suite) : EvalDescriptor :=
  mkDescriptor (suite_name s) LM_EVAL_VERSION
    match s with
    | Mmlu => [spec "acc"; spec "acc_norm"]
    | Ifeval => [spec "inst_strict_acc"; spec "prompt_strict_acc"]
    | Gsm8k => [spec "acc"]
    end None.

(** [f64::from(u32::try_from(n.max(1)).unwrap_or(u32::MAX))]. *)
Definition mean_denom (n : nat) : f64 :=
  let m := N.of_nat (Nat.max n 1) in f64_of_N (if decide (m < 2 ^ 32)%N then m else 2 ^ 32 - 1)%N.

Section eval_run.
Context {W T : Type} {ST : Storage W T} {SL : StorageLaws W T} {WC : Codec WorkItemRecord}.
Context (content_id_of : bytes -> ContentId).
Context {O : Type} {OS : ObjectStore O content_id_of} {OL : ObjectStoreLaws O content_id_of}.
Context {EC : Codec ExampleResult} {TC : Codec (string * string * N * string)}.
Context {RC : Codec EvalReport} {RRC : Codec EvalReportRecord}.
Context {U : Unicode} (json_parses : list char -> bool) (find_iter : string -> list string).
(** The harness's backend. *)
Context (backend : MockEvalBackend).

Section one_run.
Context (ctx : EvalContext) (run_id : RunId) (worker : WorkerId) (model_id : string).

Definition record (s : Suite) (idx : nat) (score : f64) : M (JobWorld W O) failure unit :=
  let work_id := example_work_id content_id_of s LM_EVAL_VERSION (N.of_nat idx) model_id in
  let* _ := lift_err (run_example_job content_id_of run_id worker work_id (mkExample (N.of_nat idx) score)
                        (N.of_nat idx + seed ctx)) in
  mret tt.

Fixpoint mmlu_loop (idx : nat) (rows : list MmluRow) (acc_sum norm_sum : f64) (per_task : list TaskResult)
  : M (JobWorld W O) failure (f64 * f64 * list TaskResult) :=
  match rows with
  | [] => mret (acc_sum, norm_sum, per_task)
  | row :: rows' =>
      match choice_logprobs backend (MmluSuite.format_prompt row) (choices row) (seed ctx) with
      | Panic m => mthrow (Unwound m)
      | Value (lp, lens) =>
          let s := MmluSuite.score_item lp lens (mmlu_answer row) in
          let item := f64_of_bool (MmluSuite.acc s) in
          let* _ := record Mmlu idx item in
          mmlu_loop (S idx) rows' (f64_add acc_sum item) (f64_add norm_sum (f64_of_bool (MmluSuite.acc_norm s)))
                    (per_task ++ [mkTask (pretty (N.of_nat idx)) item])
      end
  end.

Definition run_mmlu (rows : list MmluRow) : M (JobWorld W O) failure (gmap string MetricValue * list TaskResult) :=
  let* '(acc_sum, norm_sum, tasks) := mmlu_loop 0 rows f64_zero f64_zero [] in
  let n := mean_denom (length rows) in
  mret (<["acc_norm" := Scalar (f64_div norm_sum n)]> (<["acc" := Scalar (f64_div acc_sum n)]> ∅), tasks).

Fixpoint gsm8k_loop (idx : nat) (rows : list Gsm8kRow) (sum : f64) (per_task : list TaskResult)
  : M (JobWorld W O) failure (f64 * list TaskResult) :=
  match rows with
  | [] => mret (sum, per_task)
  | row :: rows' =>
      let gen := generate backend (question row) (seed ctx) in
      let item := f64_of_bool (gsm8k_score_item find_iter (answer row) gen) in
      let* _ := record Gsm8k idx item in
      gsm8k_loop (S idx) rows' (f64_add sum item) (per_task ++ [mkTask (pretty (N.of_nat idx)) item])
  end.

Definition run_gsm8k (rows : list Gsm8kRow) : M (JobWorld W O) failure (gmap string MetricValue * list TaskResult) :=
  let* '(sum, tasks) := gsm8k_loop 0 rows f64_zero [] in
  mret (<["acc" := Scalar (f64_div sum (mean_denom (length rows)))]> ∅, tasks).

Fixpoint ifeval_loop (idx : nat) (l : list (IfevalRow * string)) (per_task : list TaskResult)
  : M (JobWorld W O) failure (list TaskResult) :=
  match l with
  | [] => mret per_task
  | (row, resp) :: l' =>
      let '(_, total, _, pass) := score_prompt json_parses row resp in
      let item := f64_of_bool (bool_decide (pass = Some true)) in
      let* _ := record Ifeval idx item in
      ifeval_loop (S idx) l'
        (per_task ++ [mkTask (pretty (N.of_nat idx)) (if decide (total = 0) then f64_of_decimal true 1 0 else item)])
  end.

Definition run_ifeval (rows : list IfevalRow) : M (JobWorld W O) failure (gmap string MetricValue * list TaskResult) :=
  let responses := (fun r => generate backend (prompt r) (seed ctx)) <$> rows in
  let score := score_batch json_parses rows responses in
  let* tasks := ifeval_loop 0 (zip rows responses) [] in
  mret (<["prompt_strict_acc" := Scalar (prompt_strict_acc score)]>
          (<["inst_strict_acc" := Scalar (instruction_strict_acc score)]> ∅), tasks).
End one_run.

(** [run]: the dataset is the loader's answer, the run and worker ids are fresh and
    the two clock readings are given. *)
Definition run (suite : Suite) (dataset : result CoreError Dataset) (model : ModelRef) (ctx : EvalContext)
    (run_id : RunId) (worker : WorkerId) (started completed : N) : M (JobWorld W O) failure EvalReport :=
  let* ds := lift_err (mlift dataset) in
  let* '(metrics, per_task) :=
    match suite, ds with
    | Mmlu, DsMmlu rows => run_mmlu ctx run_id worker (uri model) rows
    | Gsm8k, DsGsm8k rows => run_gsm8k ctx run_id worker (uri model) rows
    | Ifeval, DsIfeval rows => run_ifeval ctx run_id worker (uri model) rows
    | _, _ => mthrow (Failure (internal "suite/dataset mismatch"))
    end in
  let rep := mkReport (suite_name suite) LM_EVAL_VERSION model started completed metrics per_task in
  let* id := lift_err (on_objects (o_put (encode rep))) in
  let* _ := lift_err (on_store (put_row (eval_report_key run_id id) (encode (mkReportRecord id rep)))) in
  mret rep.
(** ** What a run reports, as a function of the rows *)
Definition count_true (l : list bool) : nat := length (filter (fun b => b = true) l).

(** The two bits of an MMLU row, the bit of a GSM8K row and the bit of an IFEval row. *)
Definition mmlu_bits (ctx : EvalContext) (row : MmluRow) : bool * bool :=
  match choice_logprobs backend (MmluSuite.format_prompt row) (choices row) (seed ctx) with
  | Value (lp, lens) => let s := MmluSuite.score_item lp lens (mmlu_answer row) in (MmluSuite.acc s, MmluSuite.acc_norm s)
  | Panic _ => (false, false)
  end.
Definition gsm8k_bit (ctx : EvalContext) (row : Gsm8kRow) : bool :=
  gsm8k_score_item find_iter (answer row) (generate backend (question row) (seed ctx)).
Definition ifeval_response (ctx : EvalContext) (row : IfevalRow) : string := generate backend (prompt row) (seed ctx).
Definition ifeval_total (ctx : EvalContext) (row : IfevalRow) : nat :=
  let '(_, total, _, _) := score_prompt json_parses row (ifeval_response ctx row) in total.
Definition ifeval_bit (ctx : EvalContext) (row : IfevalRow) : bool :=
  let '(_, _, _, pass) := score_prompt json_parses row (ifeval_response ctx row) in bool_decide (pass = Some true).

(** The recorded score of each example, and the score its task line shows. *)
Definition recorded (ctx : EvalContext) (ds : Dataset) : list f64 :=
  match ds with
  | DsMmlu rows => (fun r => f64_of_bool (mmlu_bits ctx r).1) <$> rows
  | DsGsm8k rows => (fun r => f64_of_bool (gsm8k_bit ctx r)) <$> rows
  | DsIfeval rows => (fun r => f64_of_bool (ifeval_bit ctx r)) <$> rows
  end.
Definition shown (ctx : EvalContext) (ds : Dataset) : list f64 :=
  match ds with
  | DsIfeval rows =>
      (fun r => match ifeval_total ctx r with 0 => f64_of_decimal true 1 0 | _ => f64_of_bool (ifeval_bit ctx r) end) <$> rows
  | _ => recorded ctx ds
  end.
(** The mean of the bits: correct answers over examples, one example at least. *)
Definition mean_of (l : list bool) : MetricValue :=
  Scalar (f64_div (f64_of_nat (count_true l)) (f64_of_nat (Nat.max (length l) 1))).
Definition reported (ctx : EvalContext) (ds : Dataset) : gmap string MetricValue :=
  match ds with
  | DsMmlu rows => <["acc_norm" := mean_of ((fun r => (mmlu_bits ctx r).2) <$> rows)]>
                     {["acc" := mean_of ((fun r => (mmlu_bits ctx r).1) <$> rows)]}
  | DsGsm8k rows => {["acc" := mean_of (gsm8k_bit ctx <$> rows)]}
  | DsIfeval rows =>
      let score := score_batch json_parses rows (ifeval_response ctx <$> rows) in
      <["prompt_strict_acc" := Scalar (prompt_strict_acc score)]> {["inst_strict_acc" := Scalar (instruction_strict_acc score)]}
  end.

(** [f idx x] for each element, from index [i]. *)
Fixpoint tasks_from (i : nat) (l : list f64) : list TaskResult :=
  match l with [] => [] | x :: l' => mkTask (pretty (N.of_nat i)) x :: tasks_from (S i) l' end.

Lemma choice_logprobs_value ctx row :
  (forall p i, preferred_choice backend !! p = Some i -> i < 4) ->
  exists lp lens, choice_logprobs backend (MmluSuite.format_prompt row) (choices row) (seed ctx) = Value (lp, lens) /\
    mmlu_bits ctx row = (MmluSuite.acc (MmluSuite.score_item lp lens (mmlu_answer row)),
                         MmluSuite.acc_norm (MmluSuite.score_item lp lens (mmlu_answer row))).
Proof.
  intros Hp. unfold mmlu_bits.
  assert (forall i (v : four f64) x, i < 4 -> exists v', set4 v i x = Value v') as Hset.
  { intros [|[|[|[|i]]]] v x Hi; [by eexists..|lia]. }
  assert (exists v, choice_logprobs backend (MmluSuite.format_prompt row) (choices row) (seed ctx) = Value v) as [[lp lens] Hv].
  { unfold choice_logprobs. set (i := default _ _). assert (i < 4) as Hi.
    { unfold i. destruct (preferred_choice backend !! _) as [j|] eqn:E; simpl; [by eapply Hp|].
      pose proof (N.mod_lt (det_hash (MmluSuite.format_prompt row) (seed ctx)) 4). lia. }
    match goal with |- context [set4 ?v i ?x] => destruct (Hset i v x Hi) as [v' ->] end. by eexists. }
  exists lp, lens. by rewrite Hv.
Qed.

Section completion.
Context (of_wf : forall b, ContentId_wf (content_id_of b)).
Context (ctx : EvalContext) (run_id : RunId) (worker : WorkerId) (s : Suite) (model_id : string).

Definition item_key (idx : nat) : StorageKey :=
  work_key run_id (example_work_id content_id_of s LM_EVAL_VERSION (N.of_nat idx) model_id).

(** Example [idx] is done, with the stored result of score [x]. *)
Definition example_done (w : JobWorld W O) (idx : nat) (x : f64) : Prop :=
  let id := example_work_id content_id_of s LM_EVAL_VERSION (N.of_nat idx) model_id in
  let rid := content_id_of (encode (mkExample (N.of_nat idx) x)) in
  contents (j_store w) !! item_key idx = Some (encode (mkWork id (Done rid))) /\
  is_Some (blobs (j_objects w) rid).

(** The examples of a prefix are done, the items of the rest are absent. *)
Definition progress (n : nat) (scores : list f64) (w : JobWorld W O) : Prop :=
  healthy_job content_id_of w /\ o_valid (j_objects w) /\
  (forall i x, scores !! i = Some x -> example_done w i x) /\
  forall i, length scores <= i < n -> contents (j_store w) !! item_key i = None.

Definition keys_distinct (n : nat) : Prop :=
  forall i j, i < n -> j < n -> item_key i = item_key j -> i = j.

Lemma record_progress n scores x w : keys_distinct n -> length scores < n -> progress n scores w ->
  wp (record ctx run_id worker model_id s (length scores) x) (fun r w' =>
    r = Ok tt /\ progress n (scores ++ [x]) w') w.
Proof.
  intros Hd Hn (Hh & Hv & Hdone & Hrest). unfold record. apply wp_bind, wp_lift_err.
  eapply wp_mono; [by apply (run_example_job_spec content_id_of)|].
  intros r w' (Hv' & Hf & Hb & Hlive & Hr). fold (item_key (length scores)) in *.
  pose proof (Hrest (length scores) ltac:(lia)) as Hnone. rewrite Hnone in *.
  destruct (Hlive Hh) as [Hh' Hok]. destruct r as [rid|e].
  2:{ destruct (Hok eq_refl) as (? & ? & ? & ?). discriminate. }
  apply wp_ret. split; [done|]. destruct Hr as [(bs & ? & ? & _)|(_ & -> & Hrid & Hrow)]; [discriminate|].
  rewrite decide_True in Hrow by auto. split; [done|]. split; [done|]. split.
  - intros i y Hi. apply lookup_app_Some in Hi as [Hi|[Hi1 Hi2]].
    + destruct (Hdone i y Hi) as [H1 H2]. apply lookup_lt_Some in Hi. split; [|by apply Hb].
      rewrite Hf; [done|]. intros Hk. apply Hd in Hk; lia.
    + destruct (i - length scores) as [|k] eqn:E; [|by destruct k]. injection Hi2 as <-.
      replace i with (length scores) by lia. by split.
  - intros i Hi. rewrite length_app in Hi. simpl in Hi. rewrite Hf; [apply Hrest; lia|].
    intros Hk. apply Hd in Hk; lia.
Qed.

Lemma count_true_cons b l : count_true (b :: l) = (if b then 1 else 0) + count_true l.
Proof. unfold count_true. rewrite filter_cons. by destruct b. Qed.

Lemma count_true_le l : count_true l <= length l.
Proof. apply length_filter. Qed.
End completion.

Section loops.
Context (of_wf : forall b, ContentId_wf (content_id_of b)).
Context (ctx : EvalContext) (run_id : RunId) (worker : WorkerId) (model_id : string) (n : nat).

Lemma mean_denom_nat (l : nat) : (N.of_nat l < 2 ^ 32)%N -> mean_denom l = f64_of_nat (Nat.max l 1).
Proof. intros Hl. unfold mean_denom. by rewrite decide_True by lia. Qed.

Lemma sum_step c b k : (N.of_nat (c + S k) < 2 ^ 53)%N ->
  f64_add (f64_of_nat c) (f64_of_bool b) = f64_of_nat (c + if b then 1 else 0).
Proof. intros Hk. rewrite f64_of_bool_add by lia. destruct b; f_equal; lia. Qed.

(** One iteration of a loop: the example is recorded, then the rest runs. *)
Lemma loop_step {A} s scores x (k : M (JobWorld W O) failure A) Q w :
  keys_distinct run_id s model_id n -> length scores < n -> progress run_id s model_id n scores w ->
  (forall w', progress run_id s model_id n (scores ++ [x]) w' -> wp k Q w') ->
  wp (mbind_ (record ctx run_id worker model_id s (length scores) x) (fun _ => k)) Q w.
Proof.
  intros Hd Hn Hp Hk. apply wp_bind. eapply wp_mono; [by apply (record_progress of_wf ctx run_id worker)|].
  intros r w' [-> Hp']. by apply Hk.
Qed.

Lemma length_snoc {A} (l : list A) x : length (l ++ [x]) = S (length l).
Proof. rewrite length_app. simpl. lia. Qed.

Lemma gsm8k_loop_done rows scores c tasks w :
  keys_distinct run_id Gsm8k model_id n -> length scores + length rows = n ->
  (N.of_nat (c + length rows) < 2 ^ 53)%N -> progress run_id Gsm8k model_id n scores w ->
  wp (gsm8k_loop ctx run_id worker model_id (length scores) rows (f64_of_nat c) tasks) (fun r w' =>
    r = Ok (f64_of_nat (c + count_true (gsm8k_bit ctx <$> rows)),
            tasks ++ tasks_from (length scores) (recorded ctx (DsGsm8k rows))) /\
    progress run_id Gsm8k model_id n (scores ++ recorded ctx (DsGsm8k rows)) w') w.
Proof.
  revert scores c tasks w. induction rows as [|row rows IH]; intros scores c tasks w Hd Hn Hc Hp.
  { apply wp_ret. simpl. by rewrite Nat.add_0_r, !app_nil_r. }
  cbn [gsm8k_loop]. simpl in Hn, Hc. apply loop_step; [done|lia|done|]. intros w' Hp'.
  change (gsm8k_score_item find_iter (answer row) (generate backend (question row) (seed ctx))) with (gsm8k_bit ctx row) in *.
  rewrite (sum_step c _ (length rows)) by lia. rewrite <- (length_snoc scores (f64_of_bool (gsm8k_bit ctx row))).
  eapply wp_mono; [apply IH; try done; rewrite ?length_snoc; try destruct (gsm8k_bit ctx row); lia|].
  intros r w2 [-> Hp2]. rewrite <- !app_assoc in *. rewrite length_snoc. cbn [fmap list_fmap recorded].
  rewrite count_true_cons, Nat.add_assoc. done.
Qed.

Lemma mmlu_loop_done rows scores c d tasks w :
  (forall p i, preferred_choice backend !! p = Some i -> i < 4) ->
  keys_distinct run_id Mmlu model_id n -> length scores + length rows = n ->
  (N.of_nat (c + length rows) < 2 ^ 53)%N -> (N.of_nat (d + length rows) < 2 ^ 53)%N ->
  progress run_id Mmlu model_id n scores w ->
  wp (mmlu_loop ctx run_id worker model_id (length scores) rows (f64_of_nat c) (f64_of_nat d) tasks) (fun r w' =>
    r = Ok (f64_of_nat (c + count_true ((fun r => (mmlu_bits ctx r).1) <$> rows)),
            f64_of_nat (d + count_true ((fun r => (mmlu_bits ctx r).2) <$> rows)),
            tasks ++ tasks_from (length scores) (recorded ctx (DsMmlu rows))) /\
    progress run_id Mmlu model_id n (scores ++ recorded ctx (DsMmlu rows)) w') w.
Proof.
  intros Hpref. revert scores c d tasks w. induction rows as [|row rows IH]; intros scores c d tasks w Hd Hn Hc Hc2 Hp.
  { apply wp_ret. simpl. by rewrite !Nat.add_0_r, !app_nil_r. }
  cbn [mmlu_loop]. simpl in Hn, Hc, Hc2.
  destruct (choice_logprobs_value ctx row Hpref) as (lp & lens & Hv & Hbits). rewrite Hv.
  replace (MmluSuite.acc (MmluSuite.score_item lp lens (mmlu_answer row))) with (mmlu_bits ctx row).1 by (by rewrite Hbits).
  replace (MmluSuite.acc_norm (MmluSuite.score_item lp lens (mmlu_answer row))) with (mmlu_bits ctx row).2 by (by rewrite Hbits).
  apply loop_step; [done|lia|done|]. intros w' Hp'.
  rewrite (sum_step c _ (length rows)), (sum_step d _ (length rows)) by lia.
  rewrite <- (length_snoc scores (f64_of_bool (mmlu_bits ctx row).1)).
  eapply wp_mono; [apply IH; try done; rewrite ?length_snoc; try destruct (mmlu_bits ctx row) as [[] []]; simpl; lia|].
  intros r w2 [-> Hp2]. rewrite <- !app_assoc in *. rewrite length_snoc. cbn [fmap list_fmap recorded].
  rewrite !count_true_cons, !Nat.add_assoc. done.
Qed.

Lemma ifeval_loop_done rows scores tasks w :
  keys_distinct run_id Ifeval model_id n -> length scores + length rows = n ->
  progress run_id Ifeval model_id n scores w ->
  wp (ifeval_loop ctx run_id worker model_id (length scores) (zip rows (ifeval_response ctx <$> rows)) tasks) (fun r w' =>
    r = Ok (tasks ++ tasks_from (length scores) (shown ctx (DsIfeval rows))) /\
    progress run_id Ifeval model_id n (scores ++ recorded ctx (DsIfeval rows)) w') w.
Proof.
  revert scores tasks w. induction rows as [|row rows IH]; intros scores tasks w Hd Hn Hp.
  { apply wp_ret. simpl. by rewrite !app_nil_r. }
  cbn [ifeval_loop fmap list_fmap zip zip_with]. simpl in Hn.
  pose proof (eq_refl (ifeval_bit ctx row)) as Hb. unfold ifeval_bit in Hb at 1.
  pose proof (eq_refl (ifeval_total ctx row)) as Ht. unfold ifeval_total in Ht at 1.
  destruct (score_prompt json_parses row (ifeval_response ctx row)) as [[[sat total] sk] pass]. rewrite Hb, Ht.
  apply loop_step; [done|lia|done|]. intros w' Hp'.
  rewrite <- (length_snoc scores (f64_of_bool (ifeval_bit ctx row))).
  eapply wp_mono; [apply IH; try done; rewrite ?length_snoc; lia|].
  intros r w2 [-> Hp2]. rewrite <- !app_assoc in *. rewrite length_snoc. split; [|exact Hp2].
  cbn [fmap list_fmap shown tasks_from app]. do 4 f_equal. by destruct (ifeval_total ctx row).
Qed.
(** The loops in one: what a suite's part of the run answers. *)
Lemma suite_done s ds w :
  (forall p i, preferred_choice backend !! p = Some i -> i < 4) -> dataset_suite ds = s -> dataset_len ds = n ->
  keys_distinct run_id s model_id n -> (N.of_nat n < 2 ^ 32)%N -> progress run_id s model_id n [] w ->
  wp (match s, ds with
      | Mmlu, DsMmlu rows => run_mmlu ctx run_id worker model_id rows
      | Gsm8k, DsGsm8k rows => run_gsm8k ctx run_id worker model_id rows
      | Ifeval, DsIfeval rows => run_ifeval ctx run_id worker model_id rows
      | _, _ => mthrow (Failure (internal "suite/dataset mismatch"))
      end) (fun r w' => r = Ok (reported ctx ds, tasks_from 0 (shown ctx ds)) /\
                        progress run_id s model_id n (recorded ctx ds) w') w.
Proof.
  intros Hpref <- Hlen Hd Hn Hp. destruct ds as [rows|rows|rows]; cbn [dataset_suite dataset_len] in *.
  - unfold run_mmlu. apply wp_bind. eapply wp_mono.
    { apply (mmlu_loop_done rows [] 0 0 [] w Hpref Hd); simpl; (done || lia). }
    intros r w' [-> Hp']. apply wp_ret. split; [|done]. rewrite mean_denom_nat by lia. cbn [Nat.add app length].
    unfold reported, mean_of. rewrite !length_fmap. by rewrite insert_empty.
  - unfold run_ifeval. apply wp_bind. eapply wp_mono.
    { by apply (ifeval_loop_done rows [] [] w Hd). }
    intros r w' [-> Hp']. apply wp_ret. split; [|done]. unfold reported. by rewrite insert_empty.
  - unfold run_gsm8k. apply wp_bind. eapply wp_mono.
    { apply (gsm8k_loop_done rows [] 0 [] w Hd); simpl; (done || lia). }
    intros r w' [-> Hp']. apply wp_ret. split; [|done]. rewrite mean_denom_nat by lia. cbn [Nat.add app length].
    unfold reported, mean_of. rewrite length_fmap. by rewrite insert_empty.
Qed.
End loops.

(** The answer of a run that did everything. *)
Definition completed_run (s : Suite) (ds : Dataset) (model : ModelRef) (ctx : EvalContext) (run_id : RunId) (started completed : N)
    (r : result failure EvalReport) (w' : JobWorld W O) : Prop := exists rep,
  r = Ok rep /\ rep = mkReport (suite_name s) "lm-eval-harness-v0.4.9" model started completed
                        (reported ctx ds) (tasks_from 0 (shown ctx ds)) /\
  (forall i, i < dataset_len ds -> exists x, recorded ctx ds !! i = Some x /\
     example_done run_id s (uri model) w' i x) /\
  contents (j_store w') !! eval_report_key run_id (content_id_of (encode rep)) =
    Some (encode (mkReportRecord (content_id_of (encode rep)) rep)) /\
  is_Some (blobs (j_objects w') (content_id_of (encode rep))).

Lemma run_done s ds model ctx run_id worker started completed w
    (of_wf : forall b, ContentId_wf (content_id_of b))
    (Hpref : forall p i, preferred_choice backend !! p = Some i -> i < 4)
    (Hds : dataset_suite ds = s) (Hlen : (N.of_nat (dataset_len ds) < 2 ^ 32)%N)
    (Hh : healthy_job content_id_of w) (Hv : o_valid (j_objects w))
    (Hfresh : forall id, contents (j_store w) !! work_key run_id id = None)
    (Hids : forall i j, i < dataset_len ds -> j < dataset_len ds ->
       example_work_id content_id_of s LM_EVAL_VERSION (N.of_nat i) (uri model) =
       example_work_id content_id_of s LM_EVAL_VERSION (N.of_nat j) (uri model) -> i = j) :
  wp (run s (Ok ds) model ctx run_id worker started completed) (completed_run s ds model ctx run_id started completed) w.
Proof.
  unfold run. apply wp_bind, wp_lift_err, wp_lift. apply wp_bind. eapply wp_mono.
  { apply (suite_done of_wf ctx run_id worker (uri model) (dataset_len ds) s ds w Hpref Hds eq_refl); [|done|].
    - intros i j Hi Hj Hk. apply work_key_inj in Hk. by apply Hids.
    - split; [done|]. split; [done|]. split; [done|]. intros i _. apply Hfresh. }
  intros r w1 [-> (Hh1 & Hv1 & Hdone & _)].
  set (rep := mkReport _ _ _ _ _ _ _). apply wp_bind, wp_lift_err, wp_zoom.
  eapply wp_mono; [apply wp_and; [by apply o_put_law|apply wp_result]|]. intros r o1 [[Hv2 Hr] Hput].
  destruct Hh1 as [Hh1 Hp]. specialize (Hp (encode rep) _ Hv1) as Hok. rewrite Hput in Hok.
  destruct r as [id|e]; [|done]. destruct Hr as (-> & Hframe & b' & Hb' & _).
  apply wp_bind, wp_lift_err, wp_zoom. cbn [j_store j_objects].
  eapply wp_mono; [by apply put_row_healthy|]. intros r s2 (-> & Hh2 & Hc2). apply wp_ret.
  exists rep. split; [done|]. split; [done|]. cbn [j_store j_objects]. split; [|split].
  - intros i Hi. assert (length (recorded ctx ds) = dataset_len ds) as Hl by (destruct ds; apply length_fmap).
    destruct (lookup_lt_is_Some_2 (recorded ctx ds) i) as [x Hx]; [lia|]. exists x. split; [done|].
    destruct (Hdone i x Hx) as [H1 H2]. split; cbn [j_store j_objects].
    + rewrite Hc2, lookup_insert_ne by (intros [=]). exact H1.
    + set (rid := content_id_of (encode (mkExample _ _))) in *.
      destruct (decide (rid = content_id_of (encode rep))) as [->|Hne]; [by eexists|].
      rewrite Hframe by (done || apply of_wf). exact H2.
  - by rewrite Hc2, lookup_insert_eq.
  - by eexists.
Qed.

(** C10: Every example of a run gets done: over stores without faults, for a fresh
    run, a dataset of the suite and a backend whose preferences are choices, the
    run answers a report; its metrics are the means of the rows' bits (correct
    answers over examples) and its task lines the rows' scores; then every example's
    item is [Done] with a stored result holding exactly its score, and the report
    itself is stored and has its row. *)
Theorem eval_run_completes s ds model ctx run_id worker started completed w
    (of_wf : forall b, ContentId_wf (content_id_of b))
    (Hpref : forall p i, preferred_choice backend !! p = Some i -> i < 4)
    (Hds : dataset_suite ds = s) (Hlen : (N.of_nat (dataset_len ds) < 2 ^ 32)%N)
    (Hh : healthy_job content_id_of w) (Hv : o_valid (j_objects w))
    (Hfresh : forall id, contents (j_store w) !! work_key run_id id = None)
    (Hids : forall i j, i < dataset_len ds -> j < dataset_len ds ->
       example_work_id content_id_of s LM_EVAL_VERSION (N.of_nat i) (uri model) =
       example_work_id content_id_of s LM_EVAL_VERSION (N.of_nat j) (uri model) -> i = j) :
  wp (run s (Ok ds) model ctx run_id worker started completed) (fun r w' => exists rep,
    r = Ok rep /\ rep = mkReport (suite_name s) "lm-eval-harness-v0.4.9" model started completed
                          (reported ctx ds) (tasks_from 0 (shown ctx ds)) /\
    (forall i, i < dataset_len ds -> exists x, recorded ctx ds !! i = Some x /\
       example_done run_id s (uri model) w' i x) /\
    contents (j_store w') !! eval_report_key run_id (content_id_of (encode rep)) =
      Some (encode (mkReportRecord (content_id_of (encode rep)) rep)) /\
    is_Some (blobs (j_objects w') (content_id_of (encode rep)))) w.
Proof. by apply run_done. Qed.

End eval_run.

Section eval_run_examples.
#[local] Existing Instance bits_codec.
#[local] Program Instance ExampleResult_countable : Countable ExampleResult :=
  inj_countable' (fun r => (ex_idx r, ex_score r)) (fun '(i, x) => mkExample i x) _.
Next Obligation. by intros []. Qed.
#[local] Program Instance ModelRef_countable : Countable ModelRef :=
  inj_countable' (fun m => (uri m, model_content m, tokenizer m)) (fun '(u, c, t) => mkModel u c t) _.
Next Obligation. by intros []. Qed.
#[local] Program Instance MetricValue_countable : Countable MetricValue :=
  inj_countable' (fun m => match m with Scalar x => x end) Scalar _.
Next Obligation. by intros []. Qed.
#[local] Program Instance TaskResult_countable : Countable TaskResult :=
  inj_countable' (fun r => (task_id r, task_score r)) (fun '(i, x) => mkTask i x) _.
Next Obligation. by intros []. Qed.
#[local] Program Instance EvalReport_countable : Countable EvalReport :=
  inj_countable' (fun r => (eval_name r, eval_version r, model_ref r, started_at r, completed_at r, metrics r, per_task r))
                 (fun '(n, v, m, s, c, me, p) => mkReport n v m s c me p) _.
Next Obligation. by intros []. Qed.
#[local] Program Instance EvalReportRecord_countable : Countable EvalReportRecord :=
  inj_countable' (fun r => (report_id r, report r)) (fun '(i, r) => mkReportRecord i r) _.
Next Obligation. by intros []. Qed.
#[local] Instance no_unicode : Unicode := {|
  is_alphabetic _ := false; is_lowercase _ := false; is_uppercase _ := false; to_lowercase l := l;
|}.

(** A checksum of all its input, as a digest. *)
Definition checksum (b : bytes) : ContentId :=
  pad [default x00 (Byte.of_N (foldl (fun h x => ((h * 31 + Byte.to_N x + 7) mod 251))%N 1%N b))].
Lemma checksum_wf b : ContentId_wf (checksum b).
Proof. apply pad_wf. Qed.

Definition answers42 : MockEvalBackend := mkBackend {[ "6*7?" := "42" ]} ∅.
Definition two_rows : Dataset := DsGsm8k [mkGsm8k "6*7?" "#### 42"; mkGsm8k "1+1?" "#### 2"].
Definition one_model : ModelRef := mkModel "m" None None.
Definition fresh_world : JobWorld Mem.World (gmap ContentId bytes) := mkJob (Mem.mkWorld ∅ [] []) ∅.

Lemma eval_run_completes_witness :
  wp (run checksum (fun _ => true) (fun s => [s]) answers42 Gsm8k (Ok two_rows) one_model (mkCtx 7) 1 2 10 20)
     (fun r w' => exists rep, r = Ok rep /\
        metrics rep = {["acc" := Scalar (f64_div (f64_of_nat 1) (f64_of_nat 2))]} /\
        exists x, example_done checksum 1 Gsm8k "m" w' 0 x) fresh_world.
Proof.
  eapply wp_mono.
  - apply (eval_run_completes checksum (fun _ => true) (fun s => [s]) answers42 Gsm8k two_rows one_model (mkCtx 7) 1 2 10 20 fresh_world
             checksum_wf).
    + intros p i Hp. discriminate Hp.
    + reflexivity.
    + reflexivity.
    + split; [constructor|done].
    + intros i b Hi. discriminate Hi.
    + intros id. reflexivity.
    + intros [|[|i]] [|[|j]] Hi Hj Hid; try reflexivity; try (simpl in Hi, Hj; lia);
        vm_compute in Hid; discriminate Hid.
  - intros r w' (rep & Hr & Hrep & Hdone & _). exists rep. split; [exact Hr|]. split.
    + rewrite Hrep. vm_compute. reflexivity.
    + destruct (Hdone 0 ltac:(simpl; lia)) as (x & _ & Hx). by exists x.
Defined.

Definition pinned_hash (_ : bytes) : ContentId :=
  match ContentId_from_str (bytes_of GSM8K_TEST_BLAKE3) with Value (Ok id) => id | _ => [] end.

Lemma load_spec_witness : exists file bs, (fun dir f => if decide (f = "gsm8k_10.parquet") then Ok [x2a] else Err "no such file") "fixtures" file = Ok bs /\
  ContentId_to_string (pinned_hash bs) = pinned Gsm8k.
Proof.
  refine (proj2 (proj2 (load_spec (fun _ => None)
    (fun _ f => if decide (f = "gsm8k_10.parquet") then Ok [x2a] else Err "no such file")
    pinned_hash (fun _ => Ok []) (fun _ => Ok []) Gsm8k "fixtures" (DsGsm8k []) _))).
  vm_compute. reflexivity.
Defined.
End eval_run_examples.
