(* ===== verification/Cloud.v ===== *)
(** What the cloud backends share (rollout-core/src/config/cloud.rs and
    traits/cloud.rs, the error modules of rollout-cloud-aws and rollout-cloud-gcp):
    the provider configuration and its bounds, the classification of SDK errors, the
    sharded keys, the secret stores and the compute hints. *)
From stdpp Require Import base option list gmap strings pretty.
From S2P Require Import Prelude.
From S2P Require Import Text.
From S2P Require Import Core.

(** ** Configuration (config/cloud.rs) *)
Definition FIVE_MIB : N := 5 * 1024 * 1024.
Definition TEN_GIB : N := 10 * 1024 * 1024 * 1024.

Record AwsS3Config : Type := mkS3Config {
  s3_bucket : string; s3_prefix : option string; multipart_chunk_bytes : N; s3_max_snapshot_part_bytes : N;
}.
Record AwsSqsConfig : Type := mkSqsConfig { queue_url : string; visibility_timeout_secs : N }.
Record AwsConfig : Type := mkAws { region : string; s3 : AwsS3Config; sqs : AwsSqsConfig; aws_secrets : list string }.
Record GcpGcsConfig : Type := mkGcsConfig {
  gcs_bucket : string; gcs_prefix : option string; resumable_chunk_bytes : N; gcs_max_snapshot_part_bytes : N;
}.
Record GcpPubSubConfig : Type := mkPubSubConfig { subscription : string; topic_id : string; ack_deadline_secs : N }.
Record GcpConfig : Type := mkGcp { project : string; gcs : GcpGcsConfig; pubsub : GcpPubSubConfig; gcp_secrets : list string }.
Inductive CloudConfig : Type := Local | Aws (c : AwsConfig) | Gcp (c : GcpConfig).

(** The fields' defaults. *)
Definition default_multipart_chunk : N := 16 * 1024 * 1024.
Definition default_max_snapshot_part : N := 5 * 1024 * 1024 * 1024.
Definition default_visibility_timeout : N := 300.
Definition default_ack_deadline_secs : N := 30.

Definition invalid (msg : string) : CoreError := Fatal (ConfigInvalid msg).

Definition validate_cross_fields (c : CloudConfig) : result CoreError unit :=
  match c with
  | Aws aws =>
      if decide (TEN_GIB < s3_max_snapshot_part_bytes (s3 aws))%N
      then Err (invalid "cloud.aws.s3.max_snapshot_part_bytes exceeds 10 GiB hard cap (D-SNAP-03)")
      else if decide (multipart_chunk_bytes (s3 aws) < FIVE_MIB)%N
      then Err (invalid "cloud.aws.s3.multipart_chunk_bytes below S3 5 MiB minimum")
      else Ok tt
  | Gcp gcp =>
      if decide (TEN_GIB < gcs_max_snapshot_part_bytes (gcs gcp))%N
      then Err (invalid "cloud.gcp.gcs.max_snapshot_part_bytes exceeds 10 GiB hard cap (D-SNAP-03)")
      else if decide (resumable_chunk_bytes (gcs gcp) < FIVE_MIB)%N
      then Err (invalid "cloud.gcp.gcs.resumable_chunk_bytes below 5 MiB minimum")
      else Ok tt
  | Local => Ok tt
  end.

(** ** Error classification (error.rs of both backends) *)
Definition backoff : RetryHint := Backoff 200 30000.

(** [r.contains(..) || ..] on the lower-cased text. *)
Definition mentions (rendered : string) (signs : list string) : bool :=
  existsb (fun s => contains (bytes_of s) (to_ascii_lowercase rendered)) signs.

Definition fatal_internal (msg : string) : CoreError := Fatal (Internal msg).
Definition recoverable_transient (msg : string) : CoreError := Recoverable (Transient msg backoff).

Module AwsError.
Definition is_throttle (rendered : string) : bool := mentions rendered
  ["slowdown"; "throttl"; "too many requests"; "toomanyrequests"; "requestlimitexceeded"; "503"; "429";
   "serviceunavailable"; "service unavailable"].
Definition is_transient (rendered : string) : bool := mentions rendered
  ["timeout"; "timed out"; "connection"; "dispatch"; "io error"; "500"; "502"; "504"; "internalerror";
   "internal server error"].

Definition map_sdk_error (op err : string) : CoreError :=
  let rendered := op +:+ ": " +:+ err in
  if is_throttle rendered then Recoverable (Throttled backoff)
  else if is_transient rendered then Recoverable (Transient rendered backoff)
  else Fatal (Internal rendered).

Definition map_s3_sdk_error (err : string) : CoreError := map_sdk_error "s3" err.
Definition map_sqs_sdk_error (err : string) : CoreError :=
  let rendered := "sqs: " +:+ err in
  if mentions rendered ["receipthandle"] then Recoverable (Transient rendered Never)
  else map_sdk_error "sqs" err.
Definition map_sm_sdk_error (err : string) : CoreError :=
  let rendered := "secretsmanager: " +:+ err in
  if mentions rendered ["resourcenotfound"] || mentions rendered ["can't find the specified secret"]
  then Fatal (ConfigInvalid ("secret not found: " +:+ rendered))
  else map_sdk_error "secretsmanager" err.

(** An [SdkError]: what a service answered, if it did, and its [Display] text. *)
Record SdkError : Type := mkSdk { service_error : option (option string * option string); sdk_display : string }.

Definition render_sdk (e : SdkError) : string :=
  match service_error e with
  | Some (code, message) =>
      sdk_display e +:+ " (code=" +:+ default "Unknown" code +:+ ", message=" +:+ default "<none>" message +:+ ")"
  | None => sdk_display e
  end.
End AwsError.

Module GcpError.
Definition is_throttle (rendered : string) : bool := mentions rendered
  ["resourceexhausted"; "resource exhausted"; "ratelimit"; "rate limit"; "too many requests"; "429"; "503"].
Definition is_transient (rendered : string) : bool := mentions rendered
  ["unavailable"; "timeout"; "timed out"; "deadline"; "connection"; "connect"; "aborted"; "500"; "502"; "504";
   "internal server error"].
Definition is_config (rendered : string) : bool := mentions rendered
  ["permissiondenied"; "permission denied"; "unauthenticated"; "401"; "403"].

Definition map_sdk_error (op err : string) : CoreError :=
  let rendered := op +:+ ": " +:+ err in
  if is_throttle rendered then Recoverable (Throttled backoff)
  else if is_transient rendered then Recoverable (Transient rendered backoff)
  else if is_config rendered then Fatal (ConfigInvalid rendered)
  else Fatal (Internal rendered).

Definition map_gcs_error (err : string) : CoreError := map_sdk_error "gcs" err.
Definition map_pubsub_error (err : string) : CoreError := map_sdk_error "pubsub" err.
Definition map_sm_error (err : string) : CoreError :=
  let rendered := "secretmanager: " +:+ err in
  if mentions rendered ["notfound"] || mentions rendered ["not found"] || mentions rendered ["404"]
  then Fatal (ConfigInvalid ("secret not found: " +:+ rendered))
  else map_sdk_error "secretmanager" err.
Definition map_mds_error (err : string) : CoreError := map_sdk_error "mds" err.
End GcpError.

(** The classes of the table: where an error ends up is decided by the first sign
    that the lower-cased text holds, throttling before transience. *)
Lemma aws_classes op err : exists rendered, rendered = op +:+ ": " +:+ err /\
  (AwsError.map_sdk_error op err = Recoverable (Throttled backoff) <-> AwsError.is_throttle rendered = true) /\
  (AwsError.map_sdk_error op err = Fatal (Internal rendered) <->
     AwsError.is_throttle rendered = false /\ AwsError.is_transient rendered = false).
Proof.
  exists (op +:+ ": " +:+ err). split; [done|]. unfold AwsError.map_sdk_error.
  destruct (AwsError.is_throttle _), (AwsError.is_transient _); naive_solver.
Qed.

(** ** Keys ([sharded_key] of both stores) *)
Definition sub (s : string) (n m : nat) : string := String.substring n m s.
Definition sharded_key (prefix : string) (id : ContentId) : string :=
  let hex := ContentId_to_string id in
  prefix +:+ "cas/" +:+ sub hex 0 2 +:+ "/" +:+ sub hex 2 2 +:+ "/" +:+ hex.
Definition temp_key_for (prefix fresh : string) : string := prefix +:+ "temp/pending-" +:+ fresh.


(** ** Reading a stream in chunks.  A stream is the results of the reads to come;
    an empty read, like the end of the list, is the end of the stream. *)
Abbreviation reads := (list (result string bytes)).

(** [stream.read(&mut buf[filled..])] into a space of [cap] bytes. *)
Definition read (cap : N) (s : reads) : result string bytes * reads :=
  match s with
  | [] => (Ok [], [])
  | Err e :: s' => (Err e, s')
  | Ok b :: s' =>
      if decide (N.of_nat (length b) <= cap)%N then (Ok b, s')
      else (Ok (take (N.to_nat cap) b), Ok (drop (N.to_nat cap) b) :: s')
  end.

(** What the stream delivers before it ends or fails, and how it fails. *)
Fixpoint stream_bytes (s : reads) : bytes :=
  match s with Ok (x :: b) :: s' => x :: b ++ stream_bytes s' | _ => [] end.
Fixpoint stream_error (s : reads) : option string :=
  match s with Ok (x :: b) :: s' => stream_error s' | Err e :: _ => Some e | _ => None end.
Fixpoint stream_size (s : reads) : nat :=
  match s with [] => 0 | Ok b :: s' => S (length b + stream_size s') | Err _ :: s' => S (stream_size s') end.

Section chunk_loop.
Context {W A : Type} (chunk_size : N).
(** What a store does with a full chunk, and with the last, shorter one. *)
Context (full flush : A -> bytes -> M W CoreError A).

Definition read_failed (e : string) : CoreError := recoverable_transient ("stream read: " +:+ e).
(** The value of a loop that was not given enough fuel; see [chunk_loop_chunks]. *)
Definition out_of_fuel : CoreError := fatal_internal "out of fuel".

(** The loop of both [put_stream_impl]s: fill the buffer, send it when it is full. *)
Fixpoint chunk_loop (fuel : nat) (buf : bytes) (s : reads) (acc : A) : M W CoreError A :=
  match fuel with
  | O => mthrow out_of_fuel
  | S fuel' =>
      match read (chunk_size - N.of_nat (length buf)) s with
      | (Err e, _) => mthrow (read_failed e)
      | (Ok [], _) => flush acc buf
      | (Ok b, s') =>
          let buf' := buf ++ b in
          if decide (N.of_nat (length buf') = chunk_size)
          then let* acc' := full acc buf' in chunk_loop fuel' [] s' acc'
          else chunk_loop fuel' buf' s' acc
      end
  end.

(** The reference: cut the bytes, send the full chunks in order, then flush. *)
Fixpoint cut (fuel : nat) (l : bytes) : list bytes * bytes :=
  match fuel with
  | O => ([], l)
  | S fuel' =>
      if decide (N.of_nat (length l) < chunk_size)%N then ([], l)
      else let '(cs, r) := cut fuel' (drop (N.to_nat chunk_size) l) in (take (N.to_nat chunk_size) l :: cs, r)
  end.
Definition chunks (l : bytes) : list bytes * bytes := cut (length l) l.

Definition send_all (acc : A) (l : bytes) (error : option string) : M W CoreError A :=
  let '(cs, r) := chunks l in
  let* acc' := mfold full acc cs in
  match error with Some e => mthrow (read_failed e) | None => flush acc' r end.
End chunk_loop.

Lemma stream_read_spec cap s : (0 < cap)%N ->
  match read cap s with
  | (Err e, _) => stream_bytes s = [] /\ stream_error s = Some e
  | (Ok [], _) => stream_bytes s = [] /\ stream_error s = None
  | (Ok b, s') => stream_bytes s = b ++ stream_bytes s' /\ stream_error s = stream_error s' /\
                  (N.of_nat (length b) <= cap)%N /\ stream_size s' < stream_size s
  end.
Proof.
  intros Hcap. destruct s as [|[b|e] s']; simpl; [done| |done].
  destruct (decide (N.of_nat (length b) <= cap)%N) as [Hle|Hgt].
  - destruct b as [|x b]; simpl in *; [done|]. repeat split; lia.
  - set (n := N.to_nat cap). destruct (take n b) as [|x b1] eqn:Et.
    { apply (f_equal length) in Et. rewrite length_take in Et. simpl in Et. lia. }
    assert (b = (x :: b1) ++ drop n b) as Hb by (rewrite <- Et; by rewrite take_drop).
    assert (length (x :: b1) = n) as Hl by (rewrite <- Et, length_take; lia).
    destruct (drop n b) as [|y b2] eqn:Ed.
    { rewrite app_nil_r in Hb. subst b. lia. }
    subst b. simpl in *. rewrite length_app in *. simpl in *. rewrite <- app_assoc. repeat split; lia.
Qed.

Section chunk_facts.
Context (chunk_size : N).
Hypothesis chunk_pos : (0 < chunk_size)%N.

Lemma cut_fuel fuel l : length l <= fuel -> cut chunk_size fuel l = chunks chunk_size l.
Proof.
  unfold chunks. revert l. enough (forall n l fuel, length l <= n -> length l <= fuel ->
    cut chunk_size fuel l = cut chunk_size n l) as Hall by (intros l Hl; by apply Hall).
  intros n. induction n as [|n IH]; intros l f Hn Hf.
  - destruct l; [|simpl in Hn; lia]. destruct f; simpl; [done|].
    destruct (decide _) as [|H]; [done|]. exfalso. apply H. exact chunk_pos.
  - destruct f as [|f]; simpl.
    + destruct l; [|simpl in Hf; lia]. destruct (decide _) as [|H]; [done|]. exfalso. apply H. exact chunk_pos.
    + destruct (decide _) as [|H]; [done|]. rewrite (IH _ f); [done| |]; rewrite length_drop; lia.
Qed.

Lemma chunks_small l : (N.of_nat (length l) < chunk_size)%N -> chunks chunk_size l = ([], l).
Proof. unfold chunks. destruct l; simpl; [done|]. intros H. by rewrite decide_True. Qed.

Lemma chunks_app c l : N.of_nat (length c) = chunk_size ->
  chunks chunk_size (c ++ l) = (c :: (chunks chunk_size l).1, (chunks chunk_size l).2).
Proof.
  intros Hc. assert (N.to_nat chunk_size = length c) as Hn by lia.
  unfold chunks at 1. rewrite length_app. destruct c as [|x c]; [simpl in *; lia|].
  change (length (x :: c) + length l) with (S (length c + length l)).
  cbn [cut]. rewrite decide_False by (rewrite length_app; lia).
  rewrite Hn, drop_app_length, take_app_length, cut_fuel by lia.
  by destruct (chunks chunk_size l).
Qed.

(** What the reference cuts: full chunks and a shorter rest, which are the bytes. *)
Lemma chunks_spec l :
  l = mjoin (chunks chunk_size l).1 ++ (chunks chunk_size l).2 /\
  Forall (fun c => N.of_nat (length c) = chunk_size) (chunks chunk_size l).1 /\
  (N.of_nat (length (chunks chunk_size l).2) < chunk_size)%N.
Proof.
  remember (length l) as n eqn:Hn. revert l Hn. induction n as [n IH] using lt_wf_ind. intros l ->.
  destruct (decide (N.of_nat (length l) < chunk_size)%N) as [Hlt|Hge].
  { rewrite chunks_small by done. simpl. auto. }
  set (k := N.to_nat chunk_size). rewrite <- (take_drop k l).
  assert (N.of_nat (length (take k l)) = chunk_size) as Hk by (rewrite length_take; lia).
  rewrite chunks_app by done. simpl.
  destruct (IH (length (drop k l)) ltac:(rewrite length_drop; lia) _ eq_refl) as (Hj & Hf & Hr).
  rewrite <- app_assoc, <- Hj. auto.
Qed.

Context {W A : Type} (full flush : A -> bytes -> M W CoreError A).

Lemma send_all_small acc l e w : (N.of_nat (length l) < chunk_size)%N ->
  send_all chunk_size full flush acc l e w =
  (match e with Some e => mthrow (read_failed e) | None => flush acc l end) w.
Proof. intros H. unfold send_all. by rewrite chunks_small. Qed.

Lemma send_all_full acc c l e w : N.of_nat (length c) = chunk_size ->
  send_all chunk_size full flush acc (c ++ l) e w =
  (let* acc' := full acc c in send_all chunk_size full flush acc' l e) w.
Proof.
  intros H. unfold send_all. rewrite chunks_app by done. destruct (chunks chunk_size l) as [cs r].
  cbn [fst snd mfold]. unfold mbind_. by destruct (full acc c w) as [[acc'|err] w'].
Qed.

(** The loop over short reads is the reference over the bytes they deliver, and
    more fuel than the size of the stream is enough. *)
Theorem chunk_loop_chunks fuel buf s acc w :
  stream_size s < fuel -> (N.of_nat (length buf) < chunk_size)%N ->
  chunk_loop chunk_size full flush fuel buf s acc w =
  send_all chunk_size full flush acc (buf ++ stream_bytes s) (stream_error s) w.
Proof.
  revert buf s acc w. induction fuel as [|fuel IH]; intros buf s acc w Hf Hb; [lia|].
  simpl. pose proof (stream_read_spec (chunk_size - N.of_nat (length buf)) s ltac:(lia)) as Hr.
  destruct (read _ s) as [[[|x b]|e] s'].
  - destruct Hr as [-> ->]. rewrite app_nil_r. by rewrite send_all_small.
  - destruct Hr as (-> & -> & Hle & Hs). rewrite app_assoc.
    destruct (decide (N.of_nat (length (buf ++ x :: b)) = chunk_size)) as [Heq|Hne].
    + rewrite send_all_full by done. unfold mbind_.
      destruct (full acc (buf ++ x :: b) w) as [[acc'|err] w']; [|done].
      rewrite IH by (simpl; lia). done.
    + apply IH; [lia|]. rewrite length_app in *. lia.
  - destruct Hr as [-> ->]. rewrite app_nil_r. by rewrite send_all_small.
Qed.
End chunk_facts.

(** ** The defaults of the [ObjectStore] trait: streams through memory *)
Section object_defaults.
Context {W : Type}.

(** [read_to_end], then [put_bytes]. *)
Definition default_put_stream (put : bytes -> M W CoreError ContentId) (s : reads) : M W CoreError ContentId :=
  match stream_error s with
  | Some e => mthrow (Recoverable (Transient ("ObjectStore::put_stream default buffer read failed: " +:+ e) (After 1000)))
  | None => put (stream_bytes s)
  end.
Definition default_get_stream (get : ContentId -> M W CoreError bytes) (id : ContentId) : M W CoreError reads :=
  let* buf := get id in mret [Ok buf].
End object_defaults.

(** ** The objects of a bucket, as both SDKs serve them.  Paths are [bucket/key];
    [objects] is the view the laws speak about. *)
Class Bucket (W Er : Type) : Type := {
  objects : W -> string -> option bytes;
  put_object : string -> bytes -> M W Er unit;
  copy_object : string -> string -> M W Er unit;
  delete_object : string -> M W Er unit;
}.

Definition at_ (bucket key : string) : string := bucket +:+ "/" +:+ key.

(** An object is replaced whole or not at all; a failed call may have taken effect. *)
Definition writes {W Er A} {B : Bucket W Er} (path : string) (v : option bytes) (s : W) (r : result Er A) (s' : W) : Prop :=
  (forall p, p <> path -> objects s' p = objects s p) /\
  match r with
  | Ok _ => objects s' path = v
  | Err _ => objects s' path = objects s path \/ objects s' path = v
  end.

Class BucketLaws (W Er : Type) {B : Bucket W Er} : Prop := {
  put_object_law path b s : wp (put_object path b) (writes path (Some b) s) s;
  copy_object_law dst src b s : objects s src = Some b -> wp (copy_object dst src) (writes dst (Some b) s) s;
  delete_object_law path s : wp (delete_object path) (writes path None s) s;
}.

(** ** The keys never collide *)
Lemma string_app_inv (a b c : string) : a +:+ b = a +:+ c -> b = c.
Proof. induction a as [|x a IH]; simpl; [done|]. intros [= H]. auto. Qed.

Lemma string_app_inj (a a' b b' : string) : String.length a = String.length a' ->
  a +:+ b = a' +:+ b' -> a = a' /\ b = b'.
Proof.
  revert a'. induction a as [|x a IH]; intros [|x' a'] Hl; simpl in *; try done.
  intros [= -> Heq]. destruct (IH a' ltac:(lia) Heq) as [-> ->]. done.
Qed.

Lemma length_sub s n m : n + m <= String.length s -> String.length (sub s n m) = m.
Proof.
  unfold sub. revert n m. induction s as [|x s IH]; intros n m Hl.
  - simpl in Hl. destruct n, m; simpl in *; lia || done.
  - destruct n as [|n]; simpl in *.
    + destruct m as [|m]; simpl; [done|]. f_equal. apply (IH 0 m). lia.
    + apply (IH n m). lia.
Qed.

Lemma length_hex id : ContentId_wf id -> String.length (ContentId_to_string id) = 64.
Proof.
  unfold ContentId_wf, ContentId_to_string. intros H.
  assert (forall l, String.length (String.string_of_list_byte l) = length l) as Hlen
    by (induction l as [|b l IH]; [done|]; simpl; f_equal; exact IH).
  rewrite Hlen, ContentId_display_length. lia.
Qed.

Lemma sharded_key_inj prefix id id' : ContentId_wf id -> ContentId_wf id' ->
  sharded_key prefix id = sharded_key prefix id' -> id = id'.
Proof.
  unfold sharded_key. intros H%length_hex H'%length_hex Heq.
  do 2 apply string_app_inv in Heq.
  apply string_app_inj in Heq as [_ Heq]; [|rewrite !length_sub; lia]. apply string_app_inv in Heq.
  apply string_app_inj in Heq as [_ Heq]; [|rewrite !length_sub; lia]. apply string_app_inv in Heq.
  by apply ContentId_to_string_inj.
Qed.

Lemma at_inj bucket k k' : at_ bucket k = at_ bucket k' -> k = k'.
Proof. unfold at_. intros Heq. by do 2 apply string_app_inv in Heq. Qed.

(** The object of a content id in a bucket. *)
Definition cas_path (bucket prefix : string) (id : ContentId) : string := at_ bucket (sharded_key prefix id).

Lemma cas_path_inj bucket prefix id id' : ContentId_wf id -> ContentId_wf id' ->
  cas_path bucket prefix id = cas_path bucket prefix id' -> id = id'.
Proof. intros H H' Heq%at_inj. by eapply sharded_key_inj. Qed.

Lemma temp_not_cas bucket prefix fresh id : at_ bucket (temp_key_for prefix fresh) <> cas_path bucket prefix id.
Proof. unfold cas_path, at_, temp_key_for, sharded_key. intros Heq. by do 3 apply string_app_inv in Heq. Qed.

(** ** Content addressing in a bucket *)
Section addressed.
Context {C Er : Type} {B : Bucket C Er}.
Context (content_id_of : bytes -> ContentId) (bucket prefix : string).
Hypothesis of_wf : forall b, ContentId_wf (content_id_of b).
Let path := cas_path bucket prefix.

Definition addressed_objects (c : C) : Prop := forall id b, ContentId_wf id ->
  objects c (cas_path bucket prefix id) = Some b -> content_id_of b = id.

(** A write of one content id's object, with bytes of that id, keeps it, and keeps
    every blob there. *)
Lemma writes_addressed {A} b c (r : result Er A) c' :
  writes (path (content_id_of b)) (Some b) c r c' -> addressed_objects c ->
  addressed_objects c' /\
  (forall id, ContentId_wf id -> id <> content_id_of b -> objects c' (path id) = objects c (path id)) /\
  (forall id, ContentId_wf id -> is_Some (objects c (path id)) -> is_Some (objects c' (path id))).
Proof.
  intros [Hf Hr] Ha.
  assert (forall id, ContentId_wf id -> id <> content_id_of b -> objects c' (path id) = objects c (path id)) as Hne.
  { intros id Hid Hn. apply Hf. intros Heq. by apply cas_path_inj in Heq. }
  assert (objects c' (path (content_id_of b)) = objects c (path (content_id_of b)) \/
          objects c' (path (content_id_of b)) = Some b) as Heq by (destruct r; auto).
  split; [|split; [done|]]; intros id; destruct (decide (id = content_id_of b)) as [->|Hn].
  - intros b' Hid. fold path. destruct Heq as [-> | ->]; [by apply Ha|]. by intros [= <-].
  - intros b' Hid. fold path. rewrite Hne by done. by apply Ha.
  - intros _ Hs. destruct Heq as [-> | ->]; [done|]. by eexists.
  - intros Hid. by rewrite Hne.
Qed.
End addressed.

(** ** The configured chunk sizes fit the provider's limits *)
(** With a configuration that [validate_cross_fields] accepts, a blob of at most
    [max_snapshot_part_bytes] is uploaded in at most 2049 parts, each but the last of
    at least 5 MiB: within the 10 000 parts and the minimum part size of S3, and far
    from the range of the [i32] part number. *)
Theorem validated_parts_fit (aws : AwsConfig) (l : bytes) :
  validate_cross_fields (Aws aws) = Ok tt ->
  (N.of_nat (length l) <= s3_max_snapshot_part_bytes (s3 aws))%N ->
  let '(cs, r) := chunks (N.max (multipart_chunk_bytes (s3 aws)) FIVE_MIB) l in
  l = mjoin cs ++ r /\ Forall (fun c => FIVE_MIB <= N.of_nat (length c))%N cs /\
  N.max (multipart_chunk_bytes (s3 aws)) FIVE_MIB = multipart_chunk_bytes (s3 aws) /\
  length cs + 1 <= 2049.
Proof.
  intros Hv Hl. simpl in Hv. destruct (decide _) as [|Hmax] in Hv; [done|].
  destruct (decide _) as [|Hmin] in Hv; [done|].
  set (n := N.max _ _). assert (FIVE_MIB <= n)%N as Hn by lia.
  assert (n = multipart_chunk_bytes (s3 aws)) as Heq by lia.
  destruct (chunks_spec n ltac:(unfold FIVE_MIB in *; lia) l) as (Hj & Hf & _).
  destruct (chunks n l) as [cs r]. cbn [fst snd] in *. split; [done|]. split; [|split; [done|]].
  { eapply Forall_impl; [exact Hf|]. simpl. lia. }
  assert (N.of_nat (length cs) * n <= N.of_nat (length l))%N as Hc.
  { rewrite Hj, length_app. clear -Hf. induction Hf as [|c cs Hc Hf IH]; simpl; [lia|].
    rewrite length_app. lia. }
  unfold FIVE_MIB, TEN_GIB in *. nia.
Qed.

Lemma validated_parts_fit_witness :
  validate_cross_fields (Aws (mkAws "us-east-1" (mkS3Config "b" None default_multipart_chunk default_max_snapshot_part)
                                    (mkSqsConfig "q" 300) [])) = Ok tt /\
  let '(cs, r) := chunks (N.max default_multipart_chunk FIVE_MIB) [x61] in length cs + 1 <= 2049.
Proof.
  split; [reflexivity|].
  pose proof (validated_parts_fit (mkAws "us-east-1" (mkS3Config "b" None default_multipart_chunk default_max_snapshot_part)
    (mkSqsConfig "q" 300) []) [x61] eq_refl ltac:(by vm_compute)) as H.
  cbn [s3 multipart_chunk_bytes] in H. destruct (chunks _ [x61]) as [cs r]. apply H.
Defined.
