(* ===== verification/S3.v ===== *)
(** The S3 object store (rollout-cloud-aws/src/s3): single-shot puts and gets, and
    the streaming multipart upload with its abort guard. *)
From stdpp Require Import base option list gmap strings pretty.
From S2P Require Import Prelude.
From S2P Require Import Text.
From S2P Require Import Core.
From S2P Require Import ObjectStore.
From S2P Require Import Cloud.
Import AwsError.

(** ** The S3 client: its documented calls, by [bucket/key] and upload id.  A part
    is kept with the entity tag the service gave it. *)
Record upload : Type := mkUpload { up_path : string; up_parts : gmap N (string * bytes) }.

Class S3 (C : Type) {B : Bucket C SdkError} : Type := {
  uploads : C -> string -> option upload;
  (** The service answers and no call fails on its own account. *)
  serving : C -> Prop;
  (** The response, and its body as it is collected. *)
  get_object : string -> M C SdkError (result string bytes);
  head_object : string -> M C SdkError unit;
  create_multipart_upload : string -> string -> M C SdkError (option string);
  upload_part : string -> string -> N -> bytes -> M C SdkError (option string);
  complete_multipart_upload : string -> string -> list (string * N) -> M C SdkError unit;
  abort_multipart_upload : string -> string -> M C SdkError unit;
}.

(** The service's limits: part numbers, the minimum size of all parts but the last,
    and the largest object a copy takes. *)
Definition MAX_PARTS : N := 10000.
Definition MAX_COPY : N := 5 * 1024 * 1024 * 1024.

Fixpoint parts_acceptable (bs : list bytes) : Prop :=
  match bs with
  | [] => False
  | [_] => True
  | b :: bs' => (FIVE_MIB <= N.of_nat (length b))%N /\ parts_acceptable bs'
  end.

Section s3_laws.
Context {C : Type} {B : Bucket C SdkError} {SC : S3 C}.

Definition same_objects (c c' : C) : Prop := objects c' = objects c.
Definition same_uploads_but (u : string) (c c' : C) : Prop := forall u', u' <> u -> uploads c' u' = uploads c u'.
Definition same_uploads (c c' : C) : Prop := forall u, uploads c' u = uploads c u.

(** The parts a completion lists, with the tags it names, hold these bodies. *)
Definition listed_parts (up : upload) (ps : list (string * N)) (bs : list bytes) : Prop :=
  Forall2 (fun p b => up_parts up !! p.2 = Some (p.1, b)) ps bs.
Definition numbered (ps : list (string * N)) : Prop :=
  forall i p, ps !! i = Some p -> p.2 = N.of_nat (i + 1).
End s3_laws.

Class S3Laws (C : Type) {B : Bucket C SdkError} {L : BucketLaws C SdkError} {SC : S3 C} : Prop := {
  s3_put_law path b c : wp (put_object path b) (fun _ c' => same_uploads c c') c;
  s3_copy_law dst src b c : objects c src = Some b ->
    wp (copy_object dst src) (fun r c' => same_uploads c c' /\
      (serving c -> serving c' /\ ((N.of_nat (length b) <= MAX_COPY)%N -> r = Ok tt))) c;
  s3_delete_law path c :
    wp (delete_object path) (fun r c' => same_uploads c c' /\ (serving c -> serving c' /\ r = Ok tt)) c;
  s3_get_law path c : wp (get_object path) (fun r c' => same_objects c c' /\
    match r with Ok (Ok b) => objects c path = Some b | _ => True end) c;
  s3_head_law path c : wp (head_object path) (fun r c' => same_objects c c' /\
    match r with Ok _ => is_Some (objects c path) | Err _ => True end) c;
  s3_create_law path ct c :
    wp (create_multipart_upload path ct) (fun r c' => same_objects c c' /\
      (serving c -> serving c' /\ exists u, r = Ok (Some u)) /\
      match r with
      | Ok (Some u) => uploads c u = None /\ uploads c' u = Some (mkUpload path ∅) /\ same_uploads_but u c c'
      | _ => forall u, is_Some (uploads c u) -> uploads c' u = uploads c u
      end) c;
  s3_part_law path u parts n b c : uploads c u = Some (mkUpload path parts) ->
    wp (upload_part path u n b) (fun r c' => same_objects c c' /\ same_uploads_but u c c' /\
      (serving c -> serving c' /\
         ((1 <= n <= MAX_PARTS)%N -> exists tag, r = Ok (Some tag) /\
            uploads c' u = Some (mkUpload path (<[n := (tag, b)]> parts)))) /\
      match r with
      | Ok _ => exists tag, uploads c' u = Some (mkUpload path (<[n := (tag, b)]> parts))
      | Err _ => exists parts', uploads c' u = Some (mkUpload path parts')
      end) c;
  s3_complete_law path u up ps c : uploads c u = Some up -> up_path up = path ->
    wp (complete_multipart_upload path u ps) (fun r c' => same_uploads_but u c c' /\
      (serving c -> serving c' /\
         (forall bs, listed_parts up ps bs -> numbered ps -> parts_acceptable bs -> r = Ok tt)) /\
      match r with
      | Ok _ => uploads c' u = None /\
          exists bs, listed_parts up ps bs /\
                     (forall p, p <> path -> objects c' p = objects c p) /\ objects c' path = Some (mjoin bs)
      | Err _ => forall p, p <> path -> objects c' p = objects c p
      end) c;
  s3_abort_law path u c :
    wp (abort_multipart_upload path u) (fun r c' => same_objects c c' /\ same_uploads_but u c c' /\
      match r with Ok _ => uploads c' u = None | Err _ => True end) c;
}.

(** ** The store *)
Section s3_store.
Context {C : Type} {B : Bucket C SdkError} {SC : S3 C}.
Context (content_id_of : bytes -> ContentId).

(** The process's side: its client, whether the async runtime still accepts tasks,
    and the aborts the guards have spawned. *)
Record World : Type := mkWorld { client : C; runtime_up : bool; spawned : list (string * string) }.
Definition set_client (c : C) (w : World) : World := mkWorld c (runtime_up w) (spawned w).

Record S3ObjectStore : Type := mkS3 { bucket : string; prefix : string; multipart_chunk : N }.

(** [.send().await.map_err(conv)?]. *)
Definition send {A} (conv : SdkError -> CoreError) (op : M C SdkError A) : M World CoreError A :=
  zoom client set_client (map_err conv op).
(** [map_s3_sdk_error] of the error itself, and of its rendered text. *)
Definition raw (e : SdkError) : CoreError := map_s3_sdk_error (sdk_display e).
Definition rendered (e : SdkError) : CoreError := map_s3_sdk_error (render_sdk e).

Context (store : S3ObjectStore).

(** [bucket] and [key_for(id)], as one path. *)
Definition object_path (id : ContentId) : string := cas_path (bucket store) (prefix store) id.

Definition put_bytes (b : bytes) : M World CoreError ContentId :=
  let id := content_id_of b in
  let* _ := send raw (put_object (object_path id) b) in
  mret id.

Definition says (rendered : string) (sign : string) : bool := contains (bytes_of sign) (bytes_of rendered).

Definition not_found_or (conv : SdkError -> CoreError) (text : SdkError -> string) (id : ContentId)
    (e : SdkError) : CoreError :=
  if says (text e) "NoSuchKey" || says (text e) "404"
  then fatal_internal ("object not found: " +:+ ContentId_to_string id) else conv e.

Definition get_bytes (id : ContentId) : M World CoreError bytes :=
  let* body := send (not_found_or raw sdk_display id) (get_object (object_path id)) in
  match body with
  | Ok b => mret b
  | Err e => mthrow (fatal_internal ("s3 body collect: " +:+ e))
  end.

(** [get_stream_impl]: the body is handed on as it arrives. *)
Definition get_stream (id : ContentId) : M World CoreError (result string bytes) :=
  send (not_found_or rendered render_sdk id) (get_object (object_path id)).

Definition exists_ (id : ContentId) : M World CoreError bool := fun w =>
  let '(r, c) := head_object (object_path id) (client w) in
  (match r with
   | Ok _ => Ok true
   | Err e => if says (render_sdk e) "NotFound" || says (render_sdk e) "404" then Ok false else Err (rendered e)
   end, set_client c w).

(** ** [MultipartGuard]: dropped before its commit, it spawns an abort, unless the
    runtime is gone, and then the upload is left to the bucket's lifecycle. *)
Definition drop_guard (path uid : string) (w : World) : World :=
  if runtime_up w then mkWorld (client w) true (spawned w ++ [(path, uid)]) else w.
Definition guarded {A} (path uid : string) (m : M World CoreError A) : M World CoreError A := fun w =>
  match m w with
  | (Ok a, w') => (Ok a, w')
  | (Err e, w') => (Err e, drop_guard path uid w')
  end.
Definition commit (path uid : string) (ps : list (string * N)) : M World CoreError unit :=
  send rendered (complete_multipart_upload path uid ps).

(** One of the spawned tasks: its failure is only logged. *)
Definition run_abort (w : World) : World :=
  match spawned w with
  | [] => w
  | (path, uid) :: rest => mkWorld (abort_multipart_upload path uid (client w)).2 (runtime_up w) rest
  end.

(** ** [put_stream_impl] *)
Record Sent : Type := mkSent { part_number : N; parts : list (string * N); hashed : bytes }.

Definition upload_one_part (path uid : string) (acc : Sent) (chunk : bytes) : M World CoreError Sent :=
  let* tag := send rendered (upload_part path uid (part_number acc) chunk) in
  mret (mkSent (part_number acc) (parts acc ++ [(default "" tag, part_number acc)]) (hashed acc ++ chunk)).

Definition full_chunk (path uid : string) (acc : Sent) (chunk : bytes) : M World CoreError Sent :=
  let* acc' := upload_one_part path uid acc chunk in
  mret (mkSent (part_number acc' + 1) (parts acc') (hashed acc')).
Definition last_chunk (path uid : string) (acc : Sent) (rest : bytes) : M World CoreError Sent :=
  if bool_decide (0 < length rest) || bool_decide (part_number acc = 1)%N
  then upload_one_part path uid acc rest else mret acc.

Definition chunk_size : N := N.max (multipart_chunk store) FIVE_MIB.

Definition put_stream (fresh : string) (s : reads) (content_type : option string) : M World CoreError ContentId :=
  let temp := at_ (bucket store) (temp_key_for (prefix store) fresh) in
  let* created := send rendered (create_multipart_upload temp (default "application/octet-stream" content_type)) in
  match created with
  | None => mthrow (fatal_internal "CreateMultipartUpload missing upload_id")
  | Some uid =>
      let* sent := guarded temp uid (
        let* sent := chunk_loop chunk_size (full_chunk temp uid) (last_chunk temp uid) (S (stream_size s)) [] s
                       (mkSent 1 [] []) in
        let* _ := commit temp uid (parts sent) in
        mret sent) in
      let id := content_id_of (hashed sent) in
      let* _ := send rendered (copy_object (object_path id) temp) in
      let* _ := send rendered (delete_object temp) in
      mret id
  end.
End s3_store.

(** ** The contract of the store *)
Section s3_facts.
Context {C : Type} {B : Bucket C SdkError} {L : BucketLaws C SdkError} {SC : S3 C} {SL : S3Laws C}.
Context (content_id_of : bytes -> ContentId) (store : S3ObjectStore).
Hypothesis of_wf : forall b, ContentId_wf (content_id_of b).
Abbreviation World := (World (C := C)).

Lemma wp_send {A} conv (op : M C SdkError A) (Q : result CoreError A -> World -> Prop) w :
  wp op (fun r c => Q (match r with Ok a => Ok a | Err e => Err (conv e) end) (set_client c w)) (client w) ->
  wp (send conv op) Q w.
Proof. intros H. by apply wp_zoom, wp_map_err. Qed.

Abbreviation addressed w := (addressed_objects content_id_of (bucket store) (prefix store) (client w)).

Definition s3_objects : ObjectStore World content_id_of := {|
  blobs w id := objects (client w) (object_path store id);
  o_valid w := addressed w;
  o_put := put_bytes content_id_of store;
  o_get := get_bytes store;
|}.

(** The S3 store keeps the contract the other components rely on. *)
Lemma s3_objects_laws : ObjectStoreLaws World content_id_of (OS := s3_objects).
Proof.
  split; simpl.
  - intros b w Ha. unfold put_bytes. apply wp_bind, wp_send.
    eapply wp_mono; [apply put_object_law|]. intros r c' Hw.
    destruct (writes_addressed _ _ _ of_wf _ _ _ _ Hw Ha) as (Ha' & Hne & Hkept). destruct Hw as [_ Hr].
    destruct r as [[]|e]; [apply wp_ret|]; simpl; split; try done.
    split; [done|]. split; [done|]. by exists b.
  - intros id w Ha. unfold get_bytes. apply wp_bind, wp_send.
    eapply wp_mono; [apply s3_get_law|]. intros r c' [Ho Hr]. red in Ho.
    assert (addressed (set_client c' w)) as Ha' by (unfold addressed_objects; simpl; by rewrite Ho).
    destruct r as [[b|e]|e]; simpl; rewrite ?Ho; try (by auto).
    + apply wp_ret. simpl. rewrite Ho. split; [done|]. split; [done|]. split; [done|]. intros Hid. by apply Ha.
    + apply wp_throw. simpl. by rewrite Ho.
Qed.

(** ** The multipart upload *)
Definition same_process (w w' : World) : Prop := runtime_up w' = runtime_up w /\ spawned w' = spawned w.

(** While parts are sent, all that changes is the upload. *)
Definition untouched (uid : string) (w0 w : World) : Prop :=
  same_process w0 w /\ same_objects (client w0) (client w) /\ same_uploads_but uid (client w0) (client w).

Definition sending (path uid : string) (w0 : World) (bs : list bytes) (acc : Sent) (w : World) : Prop :=
  untouched uid w0 w /\ hashed acc = mjoin bs /\ length (parts acc) = length bs /\ numbered (parts acc) /\
  exists m, uploads (client w) uid = Some (mkUpload path m) /\
    (forall i b, bs !! i = Some b -> exists tag, m !! N.of_nat (i + 1) = Some (tag, b)) /\
    (serving (client w0) -> serving (client w) /\
       ((N.of_nat (length bs) <= MAX_PARTS)%N -> listed_parts (mkUpload path m) (parts acc) bs)).

Lemma numbered_snoc ps t : numbered ps -> numbered (ps ++ [(t, N.of_nat (length ps + 1))]).
Proof.
  intros H i p. rewrite lookup_app_Some, list_lookup_singleton_Some.
  intros [Hi|(Hl & Hi & <-)]; [by apply H|]. simpl. lia.
Qed.

Lemma sending_start path uid w0 : uploads (client w0) uid = Some (mkUpload path ∅) ->
  sending path uid w0 [] (mkSent 1 [] []) w0.
Proof.
  intros Hu. split; [done|]. split; [done|]. split; [done|]. split; [intros i p; simpl; by rewrite lookup_nil|].
  exists ∅. split; [done|]. split; [intros i b; by rewrite lookup_nil|]. intros Hs. split; [done|]. constructor.
Qed.

Lemma upload_one_part_spec path uid w0 bs acc w chunk :
  sending path uid w0 bs acc w -> part_number acc = N.of_nat (length bs + 1) ->
  wp (upload_one_part path uid acc chunk) (fun r w' =>
    match r with
    | Ok acc' => sending path uid w0 (bs ++ [chunk]) acc' w' /\ part_number acc' = part_number acc
    | Err _ => untouched uid w0 w' /\ (serving (client w0) -> (MAX_PARTS < N.of_nat (length bs + 1))%N)
    end) w.
Proof.
  intros ((Hp & Ho & Hu) & Hh & Hl & Hn & m & Hm & Hb & Hs) Hpn.
  unfold upload_one_part. apply wp_bind, wp_send.
  eapply wp_mono; [by apply s3_part_law|]. cbv beta. intros r c' (Ho' & Hu' & Hs' & Hr).
  assert (untouched uid w0 (set_client c' w)) as Hun.
  { split; [done|]. split; [by red; simpl; rewrite Ho'|]. intros u Hne. simpl. rewrite Hu' by done. by apply Hu. }
  destruct r as [tag|e].
  2:{ split; [done|]. intros H0. destruct (Hs H0) as [Hs1 _]. destruct (Hs' Hs1) as [_ Hlim].
      destruct (decide (N.of_nat (length bs + 1) <= MAX_PARTS)%N) as [Hle|]; [|lia].
      rewrite Hpn in Hlim. destruct Hlim as (tag & Hbad & _); [lia|done]. }
  apply wp_ret. split; [|done]. split; [done|]. split; [simpl; by rewrite Hh, join_app; simpl; rewrite app_nil_r|].
  split; [simpl; by rewrite !length_app, Hl|]. split; [simpl; rewrite Hpn, <- Hl; by apply numbered_snoc|].
  destruct Hr as [tag' Hm']. exists (<[part_number acc := (tag', chunk)]> m). split; [done|]. split.
  { intros i b. rewrite lookup_app_Some, list_lookup_singleton_Some. intros [Hi|(Hle & Hi & <-)].
    - rewrite lookup_insert_ne; [by apply Hb|]. apply lookup_lt_Some in Hi. lia.
    - exists tag'. rewrite Hpn. replace i with (length bs) by lia. apply lookup_insert_eq. }
  intros H0. destruct (Hs H0) as [Hs1 Hlp]. destruct (Hs' Hs1) as [Hs2 Hlim]. split; [done|].
  rewrite length_app. simpl. intros Hle. rewrite Hpn in Hlim.
  destruct Hlim as (tag0 & [= ->] & Hm0); [lia|]. rewrite Hm' in Hm0.
  assert (tag' = tag0) as ->.
  { injection Hm0 as Heq. apply (f_equal (fun m => m !! N.of_nat (length bs + 1))) in Heq.
    rewrite Hpn, !lookup_insert_eq in Heq. congruence. }
  apply Forall2_app; [|constructor; [by rewrite Hpn; apply lookup_insert_eq|constructor]].
  assert (numbered (parts acc)) as Hnum by done.
  apply Forall2_same_length_lookup. split; [done|]. intros i [t n] b Hi Hbi.
  pose proof (Hnum i _ Hi) as Hni. simpl in Hni |- *. subst n.
  rewrite lookup_insert_ne by (apply lookup_lt_Some in Hbi; lia).
  assert (listed_parts (mkUpload path m) (parts acc) bs) as Hall by (apply Hlp; lia).
  by apply (Forall2_lookup_lr _ _ _ i _ _ Hall Hi Hbi).
Qed.

Lemma parts_acceptable_snoc cs r : Forall (fun c => FIVE_MIB <= N.of_nat (length c))%N cs ->
  parts_acceptable (cs ++ [r]).
Proof.
  induction 1 as [|c cs Hc Hf IH]; [done|]. simpl. destruct (cs ++ [r]) as [|c' cs'] eqn:Heq; [|done].
  by destruct cs.
Qed.

Lemma chunk_size_min : (FIVE_MIB <= chunk_size store)%N.
Proof. unfold chunk_size. lia. Qed.

(** The parts of a stream of bytes: how many there are, and that the service takes them. *)
Lemma chunks_acceptable l : let '(cs, r) := chunks (chunk_size store) l in
  l = mjoin (cs ++ [r]) /\ parts_acceptable (cs ++ [r]) /\ (cs <> [] -> r = [] -> parts_acceptable cs) /\
  ((N.of_nat (length l) <= MAX_COPY)%N -> (N.of_nat (length cs) < MAX_PARTS)%N).
Proof.
  pose proof chunk_size_min as Hmin.
  destruct (chunks_spec (chunk_size store) ltac:(unfold FIVE_MIB in *; lia) l) as (Hj & Hf & _).
  destruct (chunks (chunk_size store) l) as [cs r]. cbn [fst snd] in *.
  assert (Forall (fun c => FIVE_MIB <= N.of_nat (length c))%N cs) as Hf5.
  { eapply Forall_impl; [exact Hf|]. simpl. lia. }
  split; [by rewrite join_app; simpl; rewrite app_nil_r|]. split; [by apply parts_acceptable_snoc|]. split.
  - intros Hne _. destruct cs as [|c cs'] using rev_ind; [done|].
    apply Forall_app in Hf5 as [Hf5 _]. by apply parts_acceptable_snoc.
  - assert (N.of_nat (length cs) * FIVE_MIB <= N.of_nat (length l))%N as Hc.
    { rewrite Hj, length_app. clear -Hf5. induction Hf5 as [|c cs Hc Hf IH]; simpl; [lia|].
      rewrite length_app. lia. }
    unfold FIVE_MIB, MAX_COPY, MAX_PARTS in *. lia.
Qed.

(** All full chunks are sent, in order. *)
Lemma s3_full_chunks_spec path uid w0 cs : uploads (client w0) uid = Some (mkUpload path ∅) ->
  wp (mfold (full_chunk path uid) (mkSent 1 [] []) cs) (fun r w' =>
    match r with
    | Ok acc => sending path uid w0 cs acc w' /\ part_number acc = N.of_nat (length cs + 1)
    | Err _ => untouched uid w0 w' /\ (serving (client w0) -> (MAX_PARTS <= N.of_nat (length cs))%N)
    end) w0.
Proof.
  intros Hu. eapply wp_mono.
  - apply (wp_mfold (full_chunk path uid) (fun acc rest w => exists bs, sending path uid w0 bs acc w /\
      part_number acc = N.of_nat (length bs + 1) /\ cs = bs ++ rest)
      (fun _ w' => untouched uid w0 w' /\ (serving (client w0) -> (MAX_PARTS <= N.of_nat (length cs))%N))).
    + intros acc x rest w (bs & Hs & Hn & ->). unfold full_chunk. apply wp_bind.
      eapply wp_mono; [by apply upload_one_part_spec|]. intros [acc'|e] w'.
      * intros [Hs' Hn']. apply wp_ret. exists (bs ++ [x]). split; [exact Hs'|].
        split; [simpl; rewrite Hn', Hn, length_app; simpl; lia|]. by rewrite <- app_assoc.
      * intros [Hun Hlim]. split; [done|]. intros H0. specialize (Hlim H0). rewrite length_app. simpl. lia.
    + exists []. split; [by apply sending_start|]. done.
  - intros [acc|e] w'; [|done]. intros (bs & Hs & Hn & ->). by rewrite app_nil_r.
Qed.

Lemma s3_send_all_spec path uid w0 l e : uploads (client w0) uid = Some (mkUpload path ∅) ->
  wp (send_all (chunk_size store) (full_chunk path uid) (last_chunk path uid) (mkSent 1 [] []) l e) (fun r w' =>
    match r with
    | Ok acc => e = None /\ exists bs, sending path uid w0 bs acc w' /\ l = mjoin bs /\ parts_acceptable bs /\
        ((N.of_nat (length l) <= MAX_COPY)%N -> (N.of_nat (length bs) <= MAX_PARTS)%N)
    | Err _ => untouched uid w0 w' /\
        (serving (client w0) -> e = None -> (MAX_COPY < N.of_nat (length l))%N)
    end) w0.
Proof.
  intros Hu. unfold send_all. pose proof (chunks_acceptable l) as Hc.
  destruct (chunks (chunk_size store) l) as [cs r]. destruct Hc as (Hj & Ha & Ha' & Hlim).
  apply wp_bind. eapply wp_mono; [by apply s3_full_chunks_spec|]. intros [acc|err] w' Hr; cbv beta iota.
  2:{ destruct Hr as [Hun Hbig]. split; [done|]. intros H0 _. specialize (Hbig H0).
      destruct (decide (N.of_nat (length l) <= MAX_COPY)%N) as [Hle|]; [|lia]. specialize (Hlim Hle). lia. }
  destruct Hr as [Hs Hn]. destruct e as [e|]; [apply wp_throw; split; [apply Hs|done]|].
  unfold last_chunk. destruct (bool_decide (0 < length r) || bool_decide (part_number acc = 1%N)) eqn:Hlast.
  - eapply wp_mono; [by apply upload_one_part_spec|]. intros [acc'|err] w''; cbv beta iota.
    + intros [Hs' _]. split; [done|]. exists (cs ++ [r]). split; [done|]. split; [done|]. split; [done|].
      intros Hle. specialize (Hlim Hle). rewrite length_app. simpl. lia.
    + intros [Hun Hbig]. split; [done|]. intros H0 _. specialize (Hbig H0).
      destruct (decide (N.of_nat (length l) <= MAX_COPY)%N) as [Hle|]; [|lia]. specialize (Hlim Hle). lia.
  - apply orb_false_iff in Hlast as [Hr Hp]. apply bool_decide_eq_false in Hr, Hp.
    assert (r = []) as -> by (destruct r; [done|simpl in Hr; lia]).
    apply wp_ret. split; [done|]. exists cs. split; [done|].
    split; [rewrite Hj, join_app; simpl; by rewrite app_nil_r|].
    split; [apply Ha'; [|done]; destruct cs; [simpl in Hn; lia|done]|]. intros Hle. specialize (Hlim Hle). lia.
Qed.

Lemma wp_guarded {A} path uid (m : M World CoreError A) (Q : result CoreError A -> World -> Prop) w :
  wp m (fun r w' => match r with Ok a => Q (Ok a) w' | Err e => Q (Err e) (drop_guard path uid w') end) w ->
  wp (guarded path uid m) Q w.
Proof. unfold wp, guarded. by destruct (m w) as [[a|e] w']. Qed.

(** The parts a completion lists are the ones sent. *)
Lemma sending_listed path uid w0 bs acc w bs' up : sending path uid w0 bs acc w ->
  uploads (client w) uid = Some up -> listed_parts up (parts acc) bs' -> bs' = bs.
Proof.
  intros (_ & _ & Hl & Hn & m & Hm & Hb & _) Hup Hlist. rewrite Hm in Hup. injection Hup as <-.
  apply list_eq. intros i. apply option_eq. intros b.
  assert (length bs' = length bs) as Hlen by (rewrite <- Hl; symmetry; by eapply Forall2_length).
  assert (forall b1 b2, bs' !! i = Some b1 -> bs !! i = Some b2 -> b1 = b2) as Hagree.
  { intros b1 b2 H1 H2. destruct (lookup_lt_is_Some_2 (parts acc) i) as [p Hp].
    { rewrite Hl. by eapply lookup_lt_Some. }
    pose proof (Forall2_lookup_lr _ _ _ i _ _ Hlist Hp H1) as Hp1. simpl in Hp1. rewrite (Hn i p Hp) in Hp1.
    destruct (Hb i b2 H2) as [tag Hp2]. congruence. }
  split; intros Hi.
  - destruct (lookup_lt_is_Some_2 bs i) as [b2 H2]; [rewrite <- Hlen; by eapply lookup_lt_Some|].
    by rewrite (Hagree b b2 Hi H2).
  - destruct (lookup_lt_is_Some_2 bs' i) as [b1 H1]; [rewrite Hlen; by eapply lookup_lt_Some|].
    by rewrite <- (Hagree b1 b H1 Hi).
Qed.

Definition others_kept (path : string) (w w' : World) : Prop :=
  forall p, p <> path -> objects (client w') p = objects (client w) p.
Definition abort_owed (path uid : string) (w w' : World) : Prop :=
  runtime_up w' = runtime_up w /\
  spawned w' = if runtime_up w then spawned w ++ [(path, uid)] else spawned w.

(** The guarded part: the parts and their completion, or an abort. *)
Lemma upload_stage path uid w0 s : uploads (client w0) uid = Some (mkUpload path ∅) ->
  wp (guarded path uid (
        let* sent := chunk_loop (chunk_size store) (full_chunk path uid) (last_chunk path uid) (S (stream_size s)) [] s
                       (mkSent 1 [] []) in
        let* _ := commit path uid (parts sent) in mret sent)) (fun r w' =>
    same_uploads_but uid (client w0) (client w') /\ others_kept path w0 w' /\
    match r with
    | Ok sent => hashed sent = stream_bytes s /\ stream_error s = None /\ same_process w0 w' /\
        uploads (client w') uid = None /\ objects (client w') path = Some (stream_bytes s) /\
        (serving (client w0) -> serving (client w'))
    | Err _ => abort_owed path uid w0 w' /\
        (serving (client w0) -> stream_error s = None -> (MAX_COPY < N.of_nat (length (stream_bytes s)))%N)
    end) w0.
Proof.
  intros Hu. pose proof chunk_size_min as Hmin. apply wp_guarded, wp_bind.
  assert (forall w', untouched uid w0 w' -> same_uploads_but uid (client w0) (client (drop_guard path uid w')) /\
    others_kept path w0 (drop_guard path uid w') /\ abort_owed path uid w0 (drop_guard path uid w')) as Hdrop.
  { intros w' ((Hr & Hsp) & Ho & Hun). red in Ho. unfold drop_guard, others_kept, abort_owed. rewrite <- Hr, <- Hsp.
    destruct (runtime_up w') eqn:Hup; simpl; rewrite ?Ho, ?Hup; done. }
  unfold wp at 1. rewrite chunk_loop_chunks by (simpl; unfold FIVE_MIB in *; lia). simpl ([] ++ _).
  eapply wp_mono; [by apply s3_send_all_spec|]. intros [acc|e] w'.
  2:{ intros [Hun Hbig]. destruct (Hdrop w' Hun) as (H1 & H2 & H3). done. }
  intros (He & bs & Hs & Hj & Hacc & Hlim). unfold commit. apply wp_bind, wp_send.
  destruct Hs as (((Hr & Hsp) & Ho & Hun) & Hh & Hl & Hn & m & Hm & Hb & Hserv) eqn:Hsd.
  eapply wp_mono; [by apply (s3_complete_law path uid (mkUpload path m))|]. cbv beta. clear Hsd.
  red in Ho. intros r c' (Hun' & Hs' & Hcase).
  assert (same_uploads_but uid (client w0) c') as Hu'.
  { intros u Hne. rewrite Hun' by done. by apply Hun. }
  destruct r as [[]|e].
  - destruct Hcase as (Hgone & bs' & Hlist & Hp & Hpath).
    assert (bs' = bs) as -> by (by eapply (sending_listed path uid w0 bs acc w')).
    apply wp_ret. split; [done|]. split; [intros p Hpp; simpl; by rewrite Hp, Ho|].
    split; [by rewrite Hh|]. split; [done|]. split; [done|]. split; [done|]. split; [simpl; by rewrite Hj|].
    intros H0. simpl. by apply Hs', Hserv.
  - unfold drop_guard, others_kept, abort_owed. simpl. rewrite <- Hr, <- Hsp.
    assert (forall p, p <> path -> objects c' p = objects (client w0) p) as Hkept
      by (intros p Hpp; by rewrite Hcase, Ho).
    assert (serving (client w0) -> stream_error s = None -> (MAX_COPY < N.of_nat (length (stream_bytes s)))%N) as Hbig.
    { intros H0 _. destruct (Hserv H0) as [Hs1 Hlist]. destruct (Hs' Hs1) as [_ Hok].
      destruct (decide (N.of_nat (length (stream_bytes s)) <= MAX_COPY)%N) as [Hle|]; [|lia].
      specialize (Hok bs (Hlist (Hlim Hle)) Hn Hacc). done. }
    destruct (runtime_up w') eqn:Hup; simpl; rewrite ?Hup; done.
Qed.

(** A streaming put to its end; stated below. *)
Lemma s3_put_stream_done fresh s ct w :
  let temp := at_ (bucket store) (temp_key_for (prefix store) fresh) in
  let data := stream_bytes s in
  let final := object_path store (content_id_of data) in
  wp (put_stream content_id_of store fresh s ct) (fun r w' =>
    (forall p, p <> temp -> p <> final -> objects (client w') p = objects (client w) p) /\
    (objects (client w') final = objects (client w) final \/ objects (client w') final = Some data) /\
    runtime_up w' = runtime_up w /\
    (forall u, is_Some (uploads (client w) u) -> uploads (client w') u = uploads (client w) u) /\
    match r with
    | Ok id => id = content_id_of data /\ stream_error s = None /\
        objects (client w') final = Some data /\ objects (client w') temp = None /\
        same_uploads (client w) (client w') /\ spawned w' = spawned w
    | Err _ =>
        (objects (client w') = objects (client w) /\ spawned w' = spawned w) \/
        (same_uploads (client w) (client w') /\ spawned w' = spawned w /\ stream_error s = None) \/
        (exists uid, uploads (client w) uid = None /\ same_uploads_but uid (client w) (client w') /\
           abort_owed temp uid w w')
    end /\
    (serving (client w) -> stream_error s = None -> (N.of_nat (length data) <= MAX_COPY)%N -> is_ok r = true)) w.
Proof.
  intros temp data final. unfold put_stream. fold temp. apply wp_bind, wp_send.
  eapply wp_mono; [apply s3_create_law|]. cbv beta. intros r c0 (Ho0 & Hs0 & Hr0). red in Ho0.
  assert (temp <> final) as Htf by apply temp_not_cas.
  destruct r as [[uid|]|e]; [| |].
  2,3: unfold wp; simpl; rewrite ?Ho0; split; [done|]; split; [by left|]; split; [done|]; split; [done|]; split; [by left|];
    intros H; destruct (Hs0 H) as (_ & u & Hu); done.
  destruct Hr0 as (Hfresh & Hu0 & Hun0). set (w0 := set_client c0 w).
  apply wp_bind. eapply wp_mono; [by apply (upload_stage temp uid w0 s)|]. cbv beta.
  intros r w1 (Hun1 & Hk1 & Hr1). unfold others_kept in Hk1. simpl in Hun1, Hk1.
  assert (same_uploads_but uid (client w) (client w1)) as Hu1.
  { intros u Hne. rewrite Hun1 by done. by apply Hun0. }
  assert (forall u, is_Some (uploads (client w) u) -> uploads (client w1) u = uploads (client w) u) as Hold.
  { intros u [up Hup]. apply Hu1. intros ->. congruence. }
  destruct r as [sent|e].
  2:{ destruct Hr1 as [Hab Hbig]. split; [intros p Hp _; by rewrite Hk1, Ho0|].
      split; [left; by rewrite Hk1, Ho0|]. split; [apply Hab|]. split; [done|].
      split; [right; right; exists uid; done|]. intros H He Hle.
      specialize (Hbig (proj1 (Hs0 H)) He). fold data in Hbig. lia. }
  destruct Hr1 as (Hh & He & (Hrt1 & Hsp1) & Hgone & Htemp & Hserv1). rewrite Hh. fold data. fold final.
  assert (same_uploads (client w) (client w1)) as Hsame.
  { intros u. destruct (decide (u = uid)) as [->|Hne]; [by rewrite Hgone|by apply Hu1]. }
  apply wp_bind, wp_send. eapply wp_mono; [apply wp_and; [by apply copy_object_law|by apply s3_copy_law]|].
  cbv beta. intros r c2 [[Hk2 Hf2] [Hup2 Hs2]].
  assert (same_uploads (client w) c2) as Hsame2 by (intros u; by rewrite Hup2).
  assert (forall p, p <> temp -> p <> final -> objects c2 p = objects (client w) p) as Hobj2.
  { intros p H1 H2. by rewrite Hk2, Hk1, Ho0. }
  destruct r as [[]|e].
  2:{ simpl. split; [done|]. split; [destruct Hf2 as [-> | ->]; [left; by rewrite Hk1, Ho0|by right]|].
      split; [done|]. split; [intros u _; apply Hsame2|]. split; [by right; left|].
      intros H _ Hle. destruct (Hs2 (Hserv1 (proj1 (Hs0 H)))) as [_ Hok]. specialize (Hok Hle). done. }
  apply wp_bind, wp_send. eapply wp_mono; [apply wp_and; [apply delete_object_law|apply s3_delete_law]|].
  cbv beta. simpl (client (set_client _ _)). intros r c3 [[Hk3 Hf3] [Hup3 Hs3]].
  assert (same_uploads (client w) c3) as Hsame3 by (intros u; by rewrite Hup3).
  assert (objects c3 final = Some data) as Hfin by (by rewrite Hk3).
  destruct r as [[]|e]; [apply wp_ret|]; simpl.
  - split; [intros p H1 H2; rewrite Hk3 by done; by apply Hobj2|]. split; [by right|]. split; [done|].
    split; [intros u _; apply Hsame3|]. split; [done|done].
  - split; [intros p H1 H2; rewrite Hk3 by done; by apply Hobj2|]. split; [by right|]. split; [done|].
    split; [intros u _; apply Hsame3|]. split; [by right; left|].
    intros H _ Hle. destruct (Hs2 (Hserv1 (proj1 (Hs0 H)))) as [Hs2' _].
    destruct (Hs3 Hs2') as [_ Hok]. done.
Qed.

(** C13: A streaming put, for every way the client and the stream can behave: when it
    returns an id, the stream ended without an error, the id is the hash of exactly
    the bytes it delivered, the object at that id's key holds them, the temporary
    object and the upload are gone and no abort is owed; whatever happens, no object
    but the temporary one and that one changes, and a failure before the completion
    leaves the upload to an abort task.  A serving client and a blob that one copy can
    move make it succeed. *)
Theorem s3_put_stream_spec fresh s ct w :
  let temp := at_ (bucket store) (temp_key_for (prefix store) fresh) in
  let data := stream_bytes s in
  let final := object_path store (content_id_of data) in
  wp (put_stream content_id_of store fresh s ct) (fun r w' =>
    (forall p, p <> temp -> p <> final -> objects (client w') p = objects (client w) p) /\
    (objects (client w') final = objects (client w) final \/ objects (client w') final = Some data) /\
    runtime_up w' = runtime_up w /\
    (forall u, is_Some (uploads (client w) u) -> uploads (client w') u = uploads (client w) u) /\
    match r with
    | Ok id => id = content_id_of data /\ stream_error s = None /\
        objects (client w') final = Some data /\ objects (client w') temp = None /\
        same_uploads (client w) (client w') /\ spawned w' = spawned w
    | Err _ =>
        (objects (client w') = objects (client w) /\ spawned w' = spawned w) \/
        (same_uploads (client w) (client w') /\ spawned w' = spawned w /\ stream_error s = None) \/
        (exists uid, uploads (client w) uid = None /\ same_uploads_but uid (client w) (client w') /\
           abort_owed temp uid w w')
    end /\
    (serving (client w) -> stream_error s = None -> (N.of_nat (length data) <= MAX_COPY)%N -> is_ok r = true)) w.
Proof. apply s3_put_stream_done. Qed.
End s3_facts.

(** ** A client in memory, with the service's limits *)
#[global] Instance parts_acceptable_dec bs : Decision (parts_acceptable bs).
Proof.
  induction bs as [|b [|b' bs] IH]; [right; tauto|left; exact I|].
  refine (if decide (FIVE_MIB <= N.of_nat (length b))%N then if IH then left _ else right _ else right _);
    cbn [parts_acceptable]; tauto.
Defined.

Record Mem : Type := mkMem { m_objects : gmap string bytes; m_uploads : gmap string upload }.

Definition service_error (code : string) : SdkError := mkSdk (Some (Some code, None)) "service error".

Definition stored_part (up : upload) (p : string * N) : option bytes :=
  match up_parts up !! p.2 with
  | Some (t, b) => if decide (t = p.1) then Some b else None
  | None => None
  end.

#[global] Instance mem_bucket : Bucket Mem SdkError := {
  objects c p := m_objects c !! p;
  put_object path b := fun c => (Ok tt, mkMem (<[path := b]> (m_objects c)) (m_uploads c));
  copy_object dst src := fun c =>
    match m_objects c !! src with
    | Some b => if decide (N.of_nat (length b) <= MAX_COPY)%N
                then (Ok tt, mkMem (<[dst := b]> (m_objects c)) (m_uploads c))
                else (Err (service_error "InvalidRequest"), c)
    | None => (Err (service_error "NoSuchKey"), c)
    end;
  delete_object path := fun c => (Ok tt, mkMem (delete path (m_objects c)) (m_uploads c));
}.

#[global] Instance mem_s3 : S3 Mem := {
  uploads c u := m_uploads c !! u;
  serving _ := True;
  get_object path := fun c => match m_objects c !! path with
                              | Some b => (Ok (Ok b), c)
                              | None => (Err (service_error "NoSuchKey"), c)
                              end;
  head_object path := fun c => match m_objects c !! path with
                               | Some b => (Ok tt, c)
                               | None => (Err (service_error "NotFound"), c)
                               end;
  create_multipart_upload path _ := fun c =>
    let u := fresh (dom (m_uploads c)) in
    (Ok (Some u), mkMem (m_objects c) (<[u := mkUpload path ∅]> (m_uploads c)));
  upload_part path u n b := fun c =>
    match m_uploads c !! u with
    | Some up =>
        if decide (1 <= n <= MAX_PARTS)%N
        then (Ok (Some (pretty n)),
              mkMem (m_objects c) (<[u := mkUpload path (<[n := (pretty n, b)]> (up_parts up))]> (m_uploads c)))
        else (Err (service_error "InvalidArgument"), c)
    | None => (Err (service_error "NoSuchUpload"), c)
    end;
  complete_multipart_upload path u ps := fun c =>
    match m_uploads c !! u with
    | Some up =>
        match mapM (stored_part up) ps with
        | Some bs =>
            if decide (parts_acceptable bs)
            then (Ok tt, mkMem (<[path := mjoin bs]> (m_objects c)) (delete u (m_uploads c)))
            else (Err (service_error "EntityTooSmall"), c)
        | None => (Err (service_error "InvalidPart"), c)
        end
    | None => (Err (service_error "NoSuchUpload"), c)
    end;
  abort_multipart_upload path u := fun c => (Ok tt, mkMem (m_objects c) (delete u (m_uploads c)));
}.

#[global] Instance mem_bucket_laws : BucketLaws Mem SdkError.
Proof.
  split; unfold wp, writes; simpl.
  - intros path b c. split; [intros p Hp; by rewrite lookup_insert_ne|by rewrite lookup_insert_eq].
  - intros dst src b c ->. destruct (decide _); simpl; [|by auto].
    split; [intros p Hp; by rewrite lookup_insert_ne|by rewrite lookup_insert_eq].
  - intros path c. split; [intros p Hp; by rewrite lookup_delete_ne|by rewrite lookup_delete_eq].
Qed.

Lemma stored_part_spec up p b : stored_part up p = Some b <-> up_parts up !! p.2 = Some (p.1, b).
Proof.
  unfold stored_part. destruct (up_parts up !! p.2) as [[t b']|]; [|done]. destruct (decide (t = p.1)); naive_solver.
Qed.

Lemma mapM_listed up ps bs : mapM (stored_part up) ps = Some bs <-> listed_parts up ps bs.
Proof.
  unfold listed_parts. rewrite mapM_Some. split; intros H; (eapply Forall2_impl; [exact H|]); intros p b; apply stored_part_spec.
Qed.

#[global] Instance mem_s3_laws : S3Laws Mem.
Proof.
  split; unfold wp, same_uploads, same_objects, same_uploads_but; simpl; try done.
  - intros dst src b c ->. destruct (decide _); simpl; [done|]. split; [done|]. intros _. split; [done|]. done.
  - intros path c. by destruct (m_objects c !! path).
  - intros path c. destruct (m_objects c !! path); simpl; [|done]. split; [done|]. by eexists.
  - intros path ct c. split; [done|]. split; [split; [done|]; by eexists|].
    split; [apply not_elem_of_dom, is_fresh|]. split; [by rewrite lookup_insert_eq|].
    intros u' Hu. by rewrite lookup_insert_ne.
  - intros path u parts n b c Hu. rewrite Hu. destruct (decide _); simpl.
    + split; [done|]. split; [intros u' Hu'; by rewrite lookup_insert_ne|]. rewrite lookup_insert_eq.
      split; [intros _; split; [done|]; intros _; by eexists|by eexists].
    + split; [done|]. split; [done|]. split; [intros _; split; [done|]; intros; contradiction|by exists parts].
  - intros path u up ps c Hu <-. rewrite Hu. destruct (mapM (stored_part up) ps) as [bs|] eqn:Hm; simpl.
    + assert (listed_parts up ps bs) as Hl by (by apply mapM_listed). destruct (decide _) as [Hacc|Hacc]; simpl.
      * split; [intros u' Hu'; by rewrite lookup_delete_ne|]. split; [done|]. split; [by rewrite lookup_delete_eq|].
        exists bs. split; [done|]. split; [intros p Hp; by rewrite lookup_insert_ne|by rewrite lookup_insert_eq].
      * split; [done|]. split; [|done]. intros _. split; [done|]. intros bs' Hl' _ Hacc'.
        apply mapM_listed in Hl'. congruence.
    + split; [done|]. split; [|done]. intros _. split; [done|]. intros bs' Hl' _ _.
      apply mapM_listed in Hl'. congruence.
  - intros path u c. split; [done|]. split; [intros u' Hu; by rewrite lookup_delete_ne|by rewrite lookup_delete_eq].
Qed.

Lemma s3_put_stream_spec_witness :
  let r := put_stream (C := Mem) (fun b => b) (mkS3 "b" "" 0) "01" [Ok [x61]; Ok [x62]] None
             (mkWorld (mkMem ∅ ∅) true []) in
  is_ok r.1 = true /\ m_objects (client r.2) !! "b/cas/61/62/6162" = Some [x61; x62].
Proof.
  split.
  - destruct (s3_put_stream_spec (C := Mem) (fun b => b) (mkS3 "b" "" 0) "01" [Ok [x61]; Ok [x62]] None
      (mkWorld (mkMem ∅ ∅) true [])) as (_ & _ & _ & _ & _ & Hok).
    apply Hok; [exact I|reflexivity|vm_compute; discriminate].
  - vm_compute. reflexivity.
Defined.

(** A missing object: [get_bytes] reads the text that has no code in it, so it does not
    recognise what [get_stream] does. *)
Lemma get_bytes_misses_no_such_key id (w : World (C := Mem)) :
  m_objects (client w) !! object_path (mkS3 "b" "" 0) id = None ->
  (get_bytes (C := Mem) (mkS3 "b" "" 0) id w).1 = Err (fatal_internal "s3: service error") /\
  (get_stream (C := Mem) (mkS3 "b" "" 0) id w).1 =
    Err (fatal_internal ("object not found: " +:+ ContentId_to_string id)).
Proof.
  intros H. unfold get_bytes, get_stream, send, zoom, map_err, mbind_. simpl. rewrite H. split; reflexivity.
Qed.
