(* ===== verification/Gcs.v ===== *)
(** The GCS object store (rollout-cloud-gcp/src/gcs): single-shot puts and gets, and
    the streaming upload through a resumable session. *)
From stdpp Require Import base option list gmap strings pretty.
From S2P Require Import Prelude.
From S2P Require Import Text.
From S2P Require Import Core.
From S2P Require Import ObjectStore.
From S2P Require Import Cloud.
Import GcpError.

(** ** The GCS client *)
(** The client's error: the service's answer with its HTTP status, or another one. *)
Inductive GcsError : Type := Response (code : N) (text : string) | Other (text : string).
Definition GcsError_to_string (e : GcsError) : string :=
  match e with Response _ text => text | Other text => text end.

(** [ChunkSize]: the Content-Range of a chunk. *)
Record ChunkSize : Type := mkChunk { first_byte : N; last_byte : N; total_size : option N }.
Inductive UploadStatus : Type := Finalized | ResumeIncomplete.

Class Gcs (C : Type) {B : Bucket C GcsError} : Type := {
  (** The sessions in progress: the object's path and the bytes persisted so far. *)
  sessions : C -> string -> option (string * bytes);
  serving : C -> Prop;
  download_object : string -> M C GcsError bytes;
  get_object : string -> M C GcsError unit;
  prepare_resumable_upload : string -> string -> M C GcsError string;
  upload_multiple_chunk : string -> bytes -> ChunkSize -> M C GcsError UploadStatus;
}.

Definition RESUMABLE_MULTIPLE : N := 256 * 1024.

(** A range that describes its chunk and continues what was persisted; chunks but the
    last come in multiples of 256 KiB. *)
Definition range_valid (got b : bytes) (sz : ChunkSize) : Prop :=
  first_byte sz = N.of_nat (length got) /\ (first_byte sz <= last_byte sz)%N /\
  (last_byte sz + 1 = first_byte sz + N.of_nat (length b))%N /\
  match total_size sz with
  | None => (N.of_nat (length b) mod RESUMABLE_MULTIPLE = 0)%N
  | Some t => t = (last_byte sz + 1)%N
  end.

(** The service may persist less of a chunk than it was sent, and then it does not
    accept what comes after the gap. *)
Class GcsLaws (C : Type) {B : Bucket C GcsError} {L : BucketLaws C GcsError} {G : Gcs C} : Prop := {
  gcs_copy_law dst src b c : objects c src = Some b ->
    wp (copy_object dst src) (fun r c' => serving c -> serving c' /\ r = Ok tt) c;
  gcs_delete_law path c : wp (delete_object path) (fun r c' => serving c -> serving c' /\ r = Ok tt) c;
  gcs_download_law path c : wp (download_object path) (fun r c' => objects c' = objects c /\
    match r with Ok b => objects c path = Some b | Err _ => True end) c;
  gcs_get_law path c : wp (get_object path) (fun r c' => objects c' = objects c /\
    match r with Ok _ => is_Some (objects c path) | Err _ => True end) c;
  gcs_prepare_law path ct c :
    wp (prepare_resumable_upload path ct) (fun r c' => objects c' = objects c /\
      (serving c -> serving c' /\ is_ok r = true) /\
      match r with Ok u => sessions c' u = Some (path, []) | Err _ => True end) c;
  gcs_chunk_law u path got b sz c :
    sessions c u = Some (path, got) -> (N.of_nat (length got) <= first_byte sz)%N ->
    wp (upload_multiple_chunk u b sz) (fun r c' =>
      (forall p, p <> path -> objects c' p = objects c p) /\
      (serving c -> serving c' /\ (range_valid got b sz ->
         match total_size sz with
         | None => r = Ok ResumeIncomplete /\ sessions c' u = Some (path, got ++ b)
         | Some _ => r = Ok Finalized
         end)) /\
      match r with
      | Ok Finalized => total_size sz <> None /\ first_byte sz = N.of_nat (length got) /\
          objects c' path = Some (got ++ b)
      | Ok ResumeIncomplete => exists n, sessions c' u = Some (path, got ++ take n b) /\
          (first_byte sz <> N.of_nat (length got) -> n = 0)
      | Err _ => True
      end) c;
}.

(** ** The store *)
Section gcs_store.
Context {C : Type} {B : Bucket C GcsError} {G : Gcs C}.
Context (content_id_of : bytes -> ContentId).

Record GcsObjectStore : Type := mkGcs { bucket : string; prefix : string; resumable_chunk : N }.

Definition mapped (e : GcsError) : CoreError := map_gcs_error (GcsError_to_string e).

Definition is_not_found (e : GcsError) : bool :=
  match e with
  | Response code _ => bool_decide (code = 404)%N
  | Other text => mentions text ["404"] || mentions text ["not found"]
  end.

Context (store : GcsObjectStore).

(** [bucket] and [key_for(id)], as one path. *)
Definition object_path (id : ContentId) : string := cas_path (bucket store) (prefix store) id.

Definition put_bytes (b : bytes) : M C CoreError ContentId :=
  let id := content_id_of b in
  let* _ := map_err mapped (put_object (object_path id) b) in
  mret id.

Definition not_found_or (id : ContentId) (e : GcsError) : CoreError :=
  if is_not_found e then fatal_internal ("object not found: " +:+ ContentId_to_string id) else mapped e.

Definition get_bytes (id : ContentId) : M C CoreError bytes :=
  map_err (not_found_or id) (download_object (object_path id)).

(** [get_stream_impl]: the same request, with the body handed on as it arrives. *)
Definition get_stream (id : ContentId) : M C CoreError bytes :=
  map_err (not_found_or id) (download_object (object_path id)).

Definition exists_ (id : ContentId) : M C CoreError bool := fun c =>
  let '(r, c') := get_object (object_path id) c in
  (match r with
   | Ok _ => Ok true
   | Err e => if is_not_found e then Ok false else Err (mapped e)
   end, c').

(** ** [put_stream_impl] *)
Definition chunk_size : N := N.max (resumable_chunk store / RESUMABLE_MULTIPLE) 1 * RESUMABLE_MULTIPLE.

Record Sent : Type := mkSent { offset : N; hashed : bytes }.

Definition full_chunk (session : string) (acc : Sent) (chunk : bytes) : M C CoreError Sent :=
  let size := mkChunk (offset acc) (offset acc + N.of_nat (length chunk) - 1) None in
  let* _ := map_err mapped (upload_multiple_chunk session chunk size) in
  mret (mkSent (offset acc + N.of_nat (length chunk)) (hashed acc ++ chunk)).

Definition last_range (offset filled : N) : ChunkSize :=
  let total := (offset + filled)%N in
  mkChunk offset (if decide (total = 0)%N then 0 else total - 1)%N (Some total).

Definition last_chunk (session : string) (acc : Sent) (rest : bytes) : M C CoreError Sent :=
  let* status := map_err mapped (upload_multiple_chunk session rest (last_range (offset acc) (N.of_nat (length rest)))) in
  match status with
  | Finalized => mret (mkSent (offset acc) (hashed acc ++ rest))
  | ResumeIncomplete => mthrow (fatal_internal "resumable upload did not finalize after final chunk")
  end.

Definition put_stream (fresh : string) (s : reads) (content_type : option string) : M C CoreError ContentId :=
  let temp := at_ (bucket store) (temp_key_for (prefix store) fresh) in
  let* session := map_err mapped (prepare_resumable_upload temp (default "application/octet-stream" content_type)) in
  let* sent := chunk_loop chunk_size (full_chunk session) (last_chunk session) (S (stream_size s)) [] s (mkSent 0 []) in
  let id := content_id_of (hashed sent) in
  let* _ := map_err mapped (copy_object (object_path id) temp) in
  let* _ := map_err mapped (delete_object temp) in
  mret id.
End gcs_store.

(** ** The contract of the store *)
Section gcs_facts.
Context {C : Type} {B : Bucket C GcsError} {L : BucketLaws C GcsError} {G : Gcs C} {GL : GcsLaws C}.
Context (content_id_of : bytes -> ContentId) (store : GcsObjectStore).
Hypothesis of_wf : forall b, ContentId_wf (content_id_of b).

Definition gcs_objects : ObjectStore C content_id_of := {|
  blobs c id := objects c (object_path store id);
  o_valid := addressed_objects content_id_of (bucket store) (prefix store);
  o_put := put_bytes content_id_of store;
  o_get := get_bytes store;
|}.

(** The GCS store keeps the contract the other components rely on. *)
Lemma gcs_objects_laws : ObjectStoreLaws C content_id_of (OS := gcs_objects).
Proof.
  split; simpl.
  - intros b c Ha. unfold put_bytes. apply wp_bind, wp_map_err.
    eapply wp_mono; [apply put_object_law|]. intros r c' Hw.
    destruct (writes_addressed _ _ _ of_wf _ _ _ _ Hw Ha) as (Ha' & Hne & Hkept). destruct Hw as [_ Hr].
    destruct r as [[]|e]; [apply wp_ret|]; simpl; split; try done.
    split; [done|]. split; [done|]. by exists b.
  - intros id c Ha. unfold get_bytes. apply wp_map_err.
    eapply wp_mono; [apply gcs_download_law|]. intros r c' [Ho Hr].
    assert (addressed_objects content_id_of (bucket store) (prefix store) c') as Ha'
      by (unfold addressed_objects; by rewrite Ho).
    destruct r as [b|e]; rewrite Ho; [|done]. split; [done|]. split; [done|]. split; [done|]. intros Hid. by apply Ha.
Qed.

(** ** The resumable upload *)
Definition others_kept (path : string) (c c' : C) : Prop := forall p, p <> path -> objects c' p = objects c p.

Definition sending (path u : string) (c0 : C) (acc : Sent) (c : C) : Prop :=
  others_kept path c0 c /\ offset acc = N.of_nat (length (hashed acc)) /\
  exists got, sessions c u = Some (path, got) /\ (got = hashed acc \/ length got < length (hashed acc)) /\
    (serving c0 -> serving c /\ got = hashed acc).

Lemma chunk_size_multiple : (0 < chunk_size store)%N /\ (chunk_size store mod RESUMABLE_MULTIPLE = 0)%N.
Proof. unfold chunk_size. split; [unfold RESUMABLE_MULTIPLE; lia|]. by apply N.Div0.mod_mul. Qed.

Lemma sending_offset path u c0 acc c : sending path u c0 acc c -> exists got,
  sessions c u = Some (path, got) /\ (N.of_nat (length got) <= offset acc)%N.
Proof. intros (_ & Ho & got & Hs & Hg & _). exists got. split; [done|]. destruct Hg as [->|Hg]; lia. Qed.

(** A full chunk: its range describes it, so a serving client takes all of it. *)
Lemma full_chunk_spec path u c0 acc c chunk :
  sending path u c0 acc c -> N.of_nat (length chunk) = chunk_size store ->
  wp (full_chunk u acc chunk) (fun r c' =>
    match r with
    | Ok acc' => sending path u c0 acc' c' /\ hashed acc' = hashed acc ++ chunk
    | Err _ => others_kept path c0 c' /\ ~ serving c0
    end) c.
Proof.
  intros Hs Hl. destruct (sending_offset _ _ _ _ _ Hs) as (got & Hgot & Hle).
  destruct Hs as (Hk & Ho & got' & Hgot' & Hg & Hserv). rewrite Hgot' in Hgot. injection Hgot as ->.
  unfold full_chunk. set (sz := mkChunk _ _ None). apply wp_bind, wp_map_err.
  eapply wp_mono; [by apply (gcs_chunk_law u path got chunk sz)|]. cbv beta. intros r c' (Hk' & Hs' & Hr).
  assert (others_kept path c0 c') as Hkept by (intros p Hp; rewrite Hk' by done; by apply Hk).
  assert (serving c0 -> serving c' /\ r = Ok ResumeIncomplete /\ sessions c' u = Some (path, got ++ chunk)) as Hgood.
  { intros H0. destruct (Hserv H0) as [Hsc ->]. destruct (Hs' Hsc) as [Hsc' Hval]. split; [done|].
    destruct chunk_size_multiple as [Hpos Hmod]. apply Hval. unfold sz, range_valid. simpl.
    rewrite Hl. split; [done|]. split; [lia|]. split; [lia|done]. }
  destruct r as [[|]|e]; cbv beta iota.
  - destruct Hr as [Hbad _]. done.
  - apply wp_ret. split; [|done]. destruct Hr as (n & Hn & Hgap). split; [done|].
    simpl. split; [rewrite length_app; lia|]. eexists. split; [exact Hn|]. simpl in Hgap. split.
    + destruct Hg as [->|Hg].
      * destruct (decide (length chunk <= n)) as [Hge|Hlt]; [left; by rewrite take_ge by lia|].
        right. rewrite !length_app, length_take. lia.
      * rewrite (Hgap ltac:(lia)). right. simpl. rewrite app_nil_r, length_app. lia.
    + intros H0. destruct (Hgood H0) as (Hsc & _ & Hfull). split; [done|].
      rewrite Hn in Hfull. injection Hfull as Hfull. rewrite Hfull. by destruct (Hserv H0) as [_ ->].
  - split; [done|]. intros H0. destruct (Hgood H0) as (_ & Hbad & _). done.
Qed.

(** The final chunk: nothing but a session without gaps is finalized. *)
Lemma last_chunk_spec path u c0 acc c rest : sending path u c0 acc c ->
  wp (last_chunk u acc rest) (fun r c' =>
    others_kept path c0 c' /\
    match r with
    | Ok acc' => hashed acc' = hashed acc ++ rest /\ objects c' path = Some (hashed acc') /\ (serving c0 -> serving c')
    | Err _ => serving c0 -> rest = []
    end) c.
Proof.
  intros Hs. destruct (sending_offset _ _ _ _ _ Hs) as (got & Hgot & Hle).
  destruct Hs as (Hk & Ho & got' & Hgot' & Hg & Hserv). rewrite Hgot' in Hgot. injection Hgot as ->.
  unfold last_chunk. set (sz := last_range _ _). apply wp_bind, wp_map_err.
  eapply wp_mono; [by apply (gcs_chunk_law u path got rest sz)|]. cbv beta. intros r c' (Hk' & Hs' & Hr).
  assert (others_kept path c0 c') as Hkept by (intros p Hp; rewrite Hk' by done; by apply Hk).
  assert (serving c0 -> rest <> [] -> r = Ok Finalized) as Hgood.
  { intros H0 Hne. destruct (Hserv H0) as [Hsc ->]. destruct (Hs' Hsc) as [_ Hval]. apply Hval.
    assert (0 < N.of_nat (length rest))%N as Hpos by (destruct rest; [done|simpl; lia]).
    unfold sz, last_range, range_valid. simpl. rewrite decide_False by lia. lia. }
  assert (forall e, r = e -> e <> Ok Finalized -> serving c0 -> rest = []) as Hempty.
  { intros e -> Hne H0. destruct (decide (rest = [])) as [|Hn]; [done|]. by destruct Hne; apply Hgood. }
  destruct r as [[|]|e]; cbv beta iota.
  - destruct Hr as (_ & Hf & Hobj). apply wp_ret. split; [done|]. simpl. split; [done|].
    split; [|intros H0; by apply Hs', Hserv]. simpl in Hf. destruct Hg as [->|Hg]; [done|lia].
  - apply wp_throw. split; [done|]. by apply (Hempty _ eq_refl).
  - split; [done|]. by apply (Hempty _ eq_refl).
Qed.

Lemma gcs_full_chunks_spec path u c0 cs : sessions c0 u = Some (path, []) ->
  Forall (fun x => N.of_nat (length x) = chunk_size store) cs ->
  wp (mfold (full_chunk u) (mkSent 0 []) cs) (fun r c' =>
    match r with
    | Ok acc => sending path u c0 acc c' /\ hashed acc = mjoin cs
    | Err _ => others_kept path c0 c' /\ ~ serving c0
    end) c0.
Proof.
  intros Hu Hf. eapply wp_mono.
  - apply (wp_mfold (full_chunk u) (fun acc rest c => exists sent, sending path u c0 acc c /\
      hashed acc = mjoin sent /\ cs = sent ++ rest) (fun _ c' => others_kept path c0 c' /\ ~ serving c0)).
    + intros acc x rest c (sent & Hs & Hh & ->). apply Forall_app in Hf as [_ Hf%Forall_cons]. destruct Hf as [Hx _].
      eapply wp_mono; [by eapply full_chunk_spec|]. intros [acc'|err] c'; [|done]. intros [Hs' Hh'].
      exists (sent ++ [x]). split; [done|]. split; [by rewrite Hh', Hh, join_app; simpl; rewrite app_nil_r|].
      by rewrite <- app_assoc.
    + exists []. split; [|done]. split; [done|]. split; [done|]. exists []. split; [done|]. split; [by left|done].
  - intros [acc|err] c'; [|done]. intros (sent & Hs & Hh & ->). by rewrite app_nil_r.
Qed.

(** The rest is empty exactly when the length is a multiple of the chunk size. *)
Lemma rest_empty l : (N.of_nat (length l) mod chunk_size store = 0)%N <-> (chunks (chunk_size store) l).2 = [].
Proof.
  destruct chunk_size_multiple as [Hpos _].
  destruct (chunks_spec (chunk_size store) Hpos l) as (Hj & Hf & Hr).
  destruct (chunks (chunk_size store) l) as [cs r]. cbn [fst snd] in *.
  assert (N.of_nat (length l) mod chunk_size store = N.of_nat (length r))%N as ->.
  { rewrite Hj, length_app, Nat2N.inj_add, N.Div0.add_mod.
    assert (N.of_nat (length (mjoin cs)) mod chunk_size store = 0)%N as ->.
    { clear -Hf. induction Hf as [|x sent Hx Hf IH]; simpl; [by apply N.Div0.mod_0_l|].
      rewrite length_app, Nat2N.inj_add, Hx. rewrite N.Div0.add_mod, N.Div0.mod_same, IH. by apply N.Div0.mod_0_l. }
    rewrite N.add_0_l, N.Div0.mod_mod. by apply N.mod_small. }
  destruct r; simpl; [done|]. split; [lia|done].
Qed.

Lemma gcs_send_all_spec path u c0 l e : sessions c0 u = Some (path, []) ->
  wp (send_all (chunk_size store) (full_chunk u) (last_chunk u) (mkSent 0 []) l e) (fun r c' =>
    others_kept path c0 c' /\
    match r with
    | Ok acc => e = None /\ hashed acc = l /\ objects c' path = Some l /\ (serving c0 -> serving c')
    | Err _ => serving c0 -> e = None -> (N.of_nat (length l) mod chunk_size store = 0)%N
    end) c0.
Proof.
  intros Hu. destruct chunk_size_multiple as [Hpos _]. unfold send_all. pose proof (proj2 (rest_empty l)) as Hrest.
  destruct (chunks_spec (chunk_size store) Hpos l) as (Hj & Hf & _).
  destruct (chunks (chunk_size store) l) as [cs r]. cbn [fst snd] in *. apply wp_bind.
  eapply wp_mono; [by apply gcs_full_chunks_spec|]. intros [acc|err] c'; cbv beta iota; [|by intros [Hk Hn]].
  intros [Hs Hh]. destruct e as [e|]; [apply wp_throw; split; [apply Hs|done]|].
  eapply wp_mono; [by apply last_chunk_spec|]. intros [acc'|err] c''; cbv beta iota.
  - intros (Hk & Hh' & Hobj & Hserv). rewrite Hh', Hh, <- Hj in *. done.
  - intros [Hk Hempty]. split; [done|]. intros H0 _. by apply Hrest, Hempty.
Qed.

(** A streaming put, for every way the client and the stream can behave: when it
    returns an id, the stream ended without an error, the id is the hash of exactly
    the bytes delivered, the object at that id's key holds them and the temporary
    object is gone; no object but these two ever changes.  A serving client makes it
    succeed, provided the length is not a multiple of the chunk size. *)
Theorem gcs_put_stream_spec fresh s ct c :
  let temp := at_ (bucket store) (temp_key_for (prefix store) fresh) in
  let data := stream_bytes s in
  let final := object_path store (content_id_of data) in
  wp (put_stream content_id_of store fresh s ct) (fun r c' =>
    (forall p, p <> temp -> p <> final -> objects c' p = objects c p) /\
    (objects c' final = objects c final \/ objects c' final = Some data) /\
    match r with
    | Ok id => id = content_id_of data /\ stream_error s = None /\
        objects c' final = Some data /\ objects c' temp = None
    | Err _ => True
    end /\
    (serving c -> stream_error s = None -> (N.of_nat (length data) mod chunk_size store <> 0)%N -> is_ok r = true)) c.
Proof.
  intros temp data final. destruct chunk_size_multiple as [Hpos _]. unfold put_stream. fold temp.
  apply wp_bind, wp_map_err. eapply wp_mono; [apply gcs_prepare_law|]. cbv beta. intros r c0 (Ho0 & Hs0 & Hr0).
  assert (temp <> final) as Htf by apply temp_not_cas.
  destruct r as [u|e].
  2:{ rewrite Ho0. split; [done|]. split; [by left|]. split; [done|]. intros H. by destruct (Hs0 H). }
  apply wp_bind. unfold wp at 1. rewrite chunk_loop_chunks by (simpl; lia). simpl ([] ++ _).
  eapply wp_mono; [by apply (gcs_send_all_spec temp u c0)|]. cbv beta. intros r c1 [Hk1 Hr1].
  unfold others_kept in Hk1. rewrite Ho0 in Hk1.
  destruct r as [sent|e].
  2:{ split; [intros p Hp _; by apply Hk1|]. split; [left; by apply Hk1|]. split; [done|].
      intros H He Hm. destruct Hm. by apply Hr1; [apply Hs0|]. }
  destruct Hr1 as (He & Hh & Htemp & Hserv1). rewrite Hh. fold data. fold final.
  apply wp_bind, wp_map_err. eapply wp_mono; [apply wp_and; [by apply copy_object_law|by eapply gcs_copy_law]|].
  cbv beta. intros r c2 [[Hk2 Hf2] Hs2].
  assert (forall p, p <> temp -> p <> final -> objects c2 p = objects c p) as Hobj2.
  { intros p H1 H2. rewrite Hk2 by done. by apply Hk1. }
  destruct r as [[]|e].
  2:{ split; [done|]. split; [destruct Hf2 as [-> | ->]; [left; by apply Hk1|by right]|]. split; [done|].
      intros H _ _. by destruct (Hs2 (Hserv1 (proj1 (Hs0 H)))). }
  apply wp_bind, wp_map_err. eapply wp_mono; [apply wp_and; [apply delete_object_law|apply gcs_delete_law]|].
  cbv beta. intros r c3 [[Hk3 Hf3] Hs3].
  assert (objects c3 final = Some data) as Hfin by (by rewrite Hk3).
  destruct r as [[]|e]; [apply wp_ret|].
  - split; [intros p H1 H2; rewrite Hk3 by done; by apply Hobj2|]. split; [by right|]. done.
  - split; [intros p H1 H2; rewrite Hk3 by done; by apply Hobj2|]. split; [by right|]. split; [done|].
    intros H _ _. destruct (Hs2 (Hserv1 (proj1 (Hs0 H)))) as [Hs2' _]. by destruct (Hs3 Hs2').
Qed.

(** A stream whose length is a multiple of the chunk size, the empty one among them,
    ends with a range that describes no chunk ([0-0/0], or one whose last byte is
    before its first): with a service that refuses such ranges, it is never stored. *)
Theorem gcs_exact_multiple_fails fresh s ct c :
  (forall u path got b sz c', sessions c' u = Some (path, got) -> ~ range_valid got b sz ->
     (upload_multiple_chunk u b sz c').1 <> Ok Finalized) ->
  (N.of_nat (length (stream_bytes s)) mod chunk_size store = 0)%N ->
  is_ok (put_stream content_id_of store fresh s ct c).1 = false.
Proof.
  intros Hstrict Hm. destruct chunk_size_multiple as [Hpos _].
  change (wp (put_stream content_id_of store fresh s ct) (fun r _ => is_ok r = false) c).
  unfold put_stream. set (temp := at_ _ _). apply wp_bind, wp_map_err.
  eapply wp_mono; [apply gcs_prepare_law|]. cbv beta. intros [u|e] c0 (_ & _ & Hu); [|done].
  apply wp_bind. unfold wp at 1. rewrite chunk_loop_chunks by (simpl; lia). simpl ([] ++ _). unfold send_all.
  apply rest_empty in Hm.
  destruct (chunks_spec (chunk_size store) Hpos (stream_bytes s)) as (_ & Hf & _).
  destruct (chunks (chunk_size store) (stream_bytes s)) as [cs r]. cbn [fst snd] in *. subst r.
  apply (wp_bind (mfold _ _ _)). eapply wp_mono; [by apply (gcs_full_chunks_spec temp u c0)|].
  intros [acc|e] c1; [|done]. intros [(_ & Ho & got & Hgot & _) _]. destruct (stream_error s) as [e|]; [done|].
  unfold last_chunk. apply wp_bind, wp_map_err. set (sz := last_range _ _).
  assert ((upload_multiple_chunk u [] sz c1).1 <> Ok Finalized) as Hno.
  { apply (Hstrict u temp got); [done|]. unfold sz, last_range, range_valid. simpl. rewrite N.add_0_r.
    destruct (decide (offset acc = 0%N)) as [->|Hne]; lia. }
  unfold wp. destruct (upload_multiple_chunk u [] sz c1) as [[[|]|e] c2]; simpl in *; done.
Qed.
End gcs_facts.

(** ** A client in memory, which refuses ranges that describe no chunk *)
#[global] Instance range_valid_dec got b sz : Decision (range_valid got b sz).
Proof. unfold range_valid. destruct (total_size sz); apply _. Defined.

Record Mem : Type := mkMem { m_objects : gmap string bytes; m_sessions : gmap string (string * bytes) }.

#[global] Instance mem_bucket : Bucket Mem GcsError := {
  objects c p := m_objects c !! p;
  put_object path b := fun c => (Ok tt, mkMem (<[path := b]> (m_objects c)) (m_sessions c));
  copy_object dst src := fun c =>
    match m_objects c !! src with
    | Some b => (Ok tt, mkMem (<[dst := b]> (m_objects c)) (m_sessions c))
    | None => (Err (Response 404 "not found"), c)
    end;
  delete_object path := fun c => (Ok tt, mkMem (delete path (m_objects c)) (m_sessions c));
}.

#[global] Instance mem_gcs : Gcs Mem := {
  sessions c u := m_sessions c !! u;
  serving _ := True;
  download_object path := fun c =>
    (match m_objects c !! path with Some b => Ok b | None => Err (Response 404 "not found") end, c);
  get_object path := fun c =>
    (match m_objects c !! path with Some b => Ok tt | None => Err (Response 404 "not found") end, c);
  prepare_resumable_upload path _ := fun c =>
    let u := fresh (dom (m_sessions c)) in (Ok u, mkMem (m_objects c) (<[u := (path, [])]> (m_sessions c)));
  upload_multiple_chunk u b sz := fun c =>
    match m_sessions c !! u with
    | Some (path, got) =>
        if decide (range_valid got b sz) then
          match total_size sz with
          | None => (Ok ResumeIncomplete, mkMem (m_objects c) (<[u := (path, got ++ b)]> (m_sessions c)))
          | Some _ => (Ok Finalized, mkMem (<[path := got ++ b]> (m_objects c)) (delete u (m_sessions c)))
          end
        else (Err (Response 400 "invalid range"), c)
    | None => (Err (Response 404 "not found"), c)
    end;
}.

#[global] Instance gcs_mem_bucket_laws : BucketLaws Mem GcsError.
Proof.
  split; unfold wp, writes; simpl.
  - intros path b c. split; [intros p Hp; by rewrite lookup_insert_ne|by rewrite lookup_insert_eq].
  - intros dst src b c ->. simpl. split; [intros p Hp; by rewrite lookup_insert_ne|by rewrite lookup_insert_eq].
  - intros path c. split; [intros p Hp; by rewrite lookup_delete_ne|by rewrite lookup_delete_eq].
Qed.

#[global] Instance gcs_mem_laws : GcsLaws Mem.
Proof.
  split; unfold wp; simpl.
  - intros dst src b c Hb. by rewrite Hb.
  - done.
  - intros path c. by destruct (m_objects c !! path).
  - intros path c. destruct (m_objects c !! path); [|done]. split; [done|]. by eexists.
  - intros path ct c. split; [done|]. split; [done|]. by rewrite lookup_insert_eq.
  - intros u path got b sz c Hu Hle. rewrite Hu. destruct (decide (range_valid got b sz)) as [Hv|Hv]; simpl.
    2:{ split; [done|]. split; [|done]. intros _. by split. }
    pose proof Hv as (Hf & _). destruct (total_size sz) as [t|]; simpl.
    + split; [intros p Hp; by rewrite lookup_insert_ne|]. split; [done|]. by rewrite lookup_insert_eq.
    + rewrite lookup_insert_eq. split; [done|]. split; [done|].
      exists (length b). by rewrite firstn_all.
Qed.

Lemma gcs_put_stream_spec_witness :
  let c := mkMem ∅ ∅ in
  let r := put_stream (C := Mem) (fun b => b) (mkGcs "b" "" 0) "01" [Ok [x61]; Ok [x62]] None c in
  is_ok r.1 = true /\ m_objects r.2 !! "b/cas/61/62/6162" = Some [x61; x62].
Proof.
  split.
  - destruct (gcs_put_stream_spec (C := Mem) (fun b => b) (mkGcs "b" "" 0) "01" [Ok [x61]; Ok [x62]] None
      (mkMem ∅ ∅)) as (_ & _ & _ & Hok).
    apply Hok; [exact I|reflexivity|vm_compute; discriminate].
  - vm_compute. reflexivity.
Defined.

(** The empty stream, for one, is not stored. *)
Lemma gcs_empty_stream_fails :
  is_ok (put_stream (C := Mem) (fun b => b) (mkGcs "b" "" 0) "01" [] None (mkMem ∅ ∅)).1 = false.
Proof.
  apply gcs_exact_multiple_fails; [|reflexivity].
  intros u path got b sz c Hu Hv. simpl in *. rewrite Hu. by rewrite decide_False.
Qed.
