(* ===== verification/CloudQueues.v ===== *)
(** The cloud work queues (rollout-cloud-aws/src/sqs, rollout-cloud-gcp/src/pubsub):
    the in-flight tables that turn a queue item back into the receipt the service
    wants, and the identifiers of rollout-core/src/traits/cloud.rs. *)
From stdpp Require Import base option list gmap strings pretty.
From S2P Require Import Prelude.
From S2P Require Import Text.
From S2P Require Import Core.
From S2P Require Import Cloud.

Abbreviation QueueItemId := Ulid.
(** [LeaseToken(pub Vec<u8>)]. *)
Abbreviation LeaseToken := bytes.

(** [i32::try_from(..).unwrap_or(default)]. *)
Definition i32_or (dflt n : N) : N := if decide (n < 2 ^ 31)%N then n else dflt.
(** [Duration::as_secs] of whole milliseconds. *)
Definition as_secs (ms : N) : N := (ms / 1000)%N.

(** ** The services *)
Class Broker (C Er Body : Type) : Type := {
  (** The messages not yet acknowledged, by message id, and the message each receipt
      was given for. *)
  messages : C -> gmap string Body;
  receipts : C -> gmap string string;
  acknowledge : string -> M C Er unit;
  set_deadline : string -> N -> M C Er unit;
}.

(** Acknowledging deletes at most the receipt's message (an expired receipt deletes
    nothing); deadlines delete nothing. *)
Class BrokerLaws (C Er Body : Type) {B : Broker C Er Body} : Prop := {
  acknowledge_law h c : wp (acknowledge h) (fun _ c' => receipts c' = receipts c /\
    (messages c' = messages c \/
     exists mid, receipts c !! h = Some mid /\ messages c' = delete mid (messages c))) c;
  set_deadline_law h secs c : wp (set_deadline h secs) (fun _ c' =>
    receipts c' = receipts c /\ messages c' = messages c) c;
}.

Record Message : Type := mkMessage { receipt_handle : option string; message_id : option string; body : option string }.

Class Sqs (C : Type) {B : Broker C AwsError.SdkError string} : Type := {
  send_message : string -> M C AwsError.SdkError (option string);
  (** The visibility timeout; the wait and the batch size are fixed. *)
  receive_message : N -> M C AwsError.SdkError (option (list Message));
}.

(** What a send or a receive may change: messages are added, receipts are given out. *)
Definition grows {C Er Body} {B : Broker C Er Body} (c c' : C) : Prop :=
  messages c ⊆ messages c' /\ receipts c ⊆ receipts c'.

(** A Rust [String] is UTF-8. *)
Definition is_utf8 (s : string) : Prop := from_utf8 (bytes_of s) = Ok s.

Class SqsLaws (C : Type) {B : Broker C AwsError.SdkError string} {BL : BrokerLaws C AwsError.SdkError string}
    {Q : Sqs C} : Prop := {
  send_law b c : wp (send_message b) (fun r c' => grows c c' /\
    match r with
    | Ok (Some mid) => messages c !! mid = None /\ messages c' !! mid = Some b
    | _ => True
    end) c;
  receive_law secs c : wp (receive_message secs) (fun r c' => grows c c' /\
    match r with
    | Ok (Some ms) => Forall (fun m => forall h mid, receipt_handle m = Some h -> message_id m = Some mid ->
        is_utf8 h /\ receipts c' !! h = Some mid /\
        forall b, body m = Some b -> messages c' !! mid = Some b) ms
    | _ => True
    end) c;
}.

(** [ReceivedMessage]. *)
Record Received : Type := mkReceived { ack_id : string; pub_id : string; pub_data : bytes }.

Class PubSub (C : Type) {B : Broker C string bytes} : Type := {
  publish : bytes -> M C string string;
  pull : M C string (list Received);
}.

Class PubSubLaws (C : Type) {B : Broker C string bytes} {BL : BrokerLaws C string bytes} {P : PubSub C} : Prop := {
  publish_law b c : wp (publish b) (fun r c' => grows c c' /\
    match r with Ok mid => messages c !! mid = None /\ messages c' !! mid = Some b | Err _ => True end) c;
  pull_law c : wp pull (fun r c' => grows c c' /\
    match r with
    | Ok ms => Forall (fun m => receipts c' !! ack_id m = Some (pub_id m) /\
                                messages c' !! pub_id m = Some (pub_data m)) ms
    | Err _ => True
    end) c;
}.

(** ** A queue: the client and the table of what was delivered here *)
Record CloudQueue (C T : Type) : Type := mkCloudQueue { client : C; inflight : gmap QueueItemId T }.
Arguments mkCloudQueue {C T} client inflight.
Arguments client {C T} _.
Arguments inflight {C T} _.

Section queues.
Context {C T Er : Type}.
Abbreviation queue := (CloudQueue C T).

Definition call {A} (conv : Er -> CoreError) (op : M C Er A) : M queue CoreError A :=
  zoom client (fun c q => mkCloudQueue c (inflight q)) (map_err conv op).
Definition with_inflight {A} (f : gmap QueueItemId T -> A * gmap QueueItemId T) : M queue CoreError A := fun q =>
  let '(a, t) := f (inflight q) in (Ok a, mkCloudQueue (client q) t).
Definition register_inflight (id : QueueItemId) (t : T) : M queue CoreError unit :=
  with_inflight (fun table => (tt, <[id := t]> table)).
(** [inflight.lock().await.remove(&id)]. *)
Definition take_inflight (id : QueueItemId) : M queue CoreError (option T) :=
  with_inflight (fun table => (table !! id, delete id table)).
End queues.

Section cloud_queues.
Context {UT : UlidText} (blake3 : bytes -> bytes).

(** [QueueItemId::from_message_id_string]. *)
Definition from_message_id_string (mid : string) : QueueItemId := from_be_bytes (take 16 (blake3 (bytes_of mid))).

Definition item_debug (id : QueueItemId) : string := "QueueItemId(" +:+ ulid_string id +:+ ")".

Definition not_in_flight (op : string) (id : QueueItemId) : CoreError :=
  Recoverable (Transient (op +:+ ": QueueItemId " +:+ item_debug id
                          +:+ " not in-flight (lease expired or never dequeued)") Never).

(** ** SQS *)
Section sqs.
Context {C : Type} {B : Broker C AwsError.SdkError string} {Q : Sqs C}.
(** The base64 crate: encoding, and decoding with its error. *)
Context (base64_encode : bytes -> string) (base64_decode : string -> result string bytes).
Abbreviation queue := (CloudQueue C string).

Definition raw (e : AwsError.SdkError) : CoreError := AwsError.map_sqs_sdk_error (AwsError.sdk_display e).
Definition rendered (e : AwsError.SdkError) : CoreError := AwsError.map_sqs_sdk_error (AwsError.render_sdk e).

Definition visibility_default (configured : N) : N := i32_or 300 configured.
Context (default_visibility : N).

Definition missing (what : string) : M queue CoreError string := mthrow (fatal_internal what).
Definition required (what : string) (o : option string) : M queue CoreError string :=
  match o with Some s => mret s | None => missing what end.

(** The table keeps_messages the receipt's text. *)
Definition sqs_register (id : QueueItemId) (token : LeaseToken) : M queue CoreError unit :=
  register_inflight id (match from_utf8 token with Ok s => s | Err _ => "" end).

Definition dequeue_internal (secs : N) : M queue CoreError (option (QueueItemId * bytes * LeaseToken)) :=
  let* ms := call raw (receive_message secs) in
  match default [] ms with
  | [] => mret None
  | msg :: _ =>
      let* receipt := required "ReceiveMessage missing receipt_handle" (receipt_handle msg) in
      let* mid := required "ReceiveMessage missing message_id" (message_id msg) in
      let* body_b64 := required "ReceiveMessage missing body" (body msg) in
      match base64_decode body_b64 with
      | Err e => mthrow (fatal_internal ("base64 decode: " +:+ e))
      | Ok payload =>
          let id := from_message_id_string mid in
          let token := bytes_of receipt in
          let* _ := sqs_register id token in
          mret (Some (id, payload, token))
      end
  end.

Definition sqs_enqueue (payload : bytes) : M queue CoreError QueueItemId :=
  let* mid := call raw (send_message (base64_encode payload)) in
  let* mid := required "SendMessage missing message_id" mid in
  mret (from_message_id_string mid).

Definition sqs_dequeue : M queue CoreError (option (QueueItemId * bytes)) :=
  let* item := dequeue_internal default_visibility in
  mret ((fun x : QueueItemId * bytes * LeaseToken => x.1) <$> item).

Definition sqs_ack (id : QueueItemId) : M queue CoreError unit :=
  let* receipt := take_inflight id in
  match receipt with
  | None => mthrow (not_in_flight "ack" id)
  | Some receipt => call raw (acknowledge receipt)
  end.

Definition sqs_nack (id : QueueItemId) : M queue CoreError unit :=
  let* receipt := take_inflight id in
  match receipt with
  | None => mthrow (not_in_flight "nack" id)
  | Some receipt => call raw (set_deadline receipt 0)
  end.

Definition sqs_dequeue_with_lease (lease_ms : N) : M queue CoreError (option (QueueItemId * bytes * LeaseToken)) :=
  dequeue_internal (i32_or default_visibility (as_secs lease_ms)).

Definition sqs_extend_lease (token : LeaseToken) (extend_by_ms : N) : M queue CoreError unit :=
  match from_utf8 token with
  | Err e => mthrow (fatal_internal ("LeaseToken not UTF-8: " +:+ e))
  | Ok receipt => call rendered (set_deadline receipt (i32_or default_visibility (as_secs extend_by_ms)))
  end.
End sqs.

(** ** Pub/Sub *)
Section pubsub.
Context {C : Type} {B : Broker C string bytes} {P : PubSub C}.
Abbreviation queue := (CloudQueue C Received).

Definition deadline_default (configured : N) : N := i32_or 30 configured.
Context (default_deadline : N).

Definition pull_one (lease_secs : N) : M queue CoreError (option (QueueItemId * bytes * LeaseToken)) :=
  let* ms := call GcpError.map_pubsub_error pull in
  match last ms with
  | None => mret None
  | Some msg =>
      let* _ := (if decide (lease_secs = default_deadline) then mret tt
                 else call GcpError.map_pubsub_error (set_deadline (ack_id msg) lease_secs)) in
      let id := from_message_id_string (pub_id msg) in
      let* _ := register_inflight id msg in
      mret (Some (id, pub_data msg, bytes_of (ack_id msg)))
  end.

Definition ps_enqueue (payload : bytes) : M queue CoreError QueueItemId :=
  let* mid := call GcpError.map_pubsub_error (publish payload) in
  mret (from_message_id_string mid).

Definition ps_dequeue : M queue CoreError (option (QueueItemId * bytes)) :=
  let* item := pull_one default_deadline in
  mret ((fun x : QueueItemId * bytes * LeaseToken => x.1) <$> item).

Definition ps_ack (id : QueueItemId) : M queue CoreError unit :=
  let* msg := take_inflight id in
  match msg with
  | None => mthrow (not_in_flight "ack" id)
  | Some msg => call GcpError.map_pubsub_error (acknowledge (ack_id msg))
  end.

Definition ps_nack (id : QueueItemId) : M queue CoreError unit :=
  let* msg := take_inflight id in
  match msg with
  | None => mthrow (not_in_flight "nack" id)
  | Some msg => call GcpError.map_pubsub_error (set_deadline (ack_id msg) 0)
  end.

Definition ps_dequeue_with_lease (lease_ms : N) : M queue CoreError (option (QueueItemId * bytes * LeaseToken)) :=
  pull_one (i32_or default_deadline (as_secs lease_ms)).

(** The token must be the one of the delivery in flight. *)
Definition ps_extend_lease (id : QueueItemId) (token : LeaseToken) (extend_by_ms : N) : M queue CoreError unit :=
  let secs := i32_or default_deadline (as_secs extend_by_ms) in
  let* msg := with_inflight (fun table => (table !! id, table)) in
  match msg with
  | None => mthrow (recoverable_transient ("extend_lease: QueueItemId " +:+ item_debug id
                                           +:+ " not in-flight (lease expired or never dequeued)"))
  | Some msg =>
      if decide (bytes_of (ack_id msg) = token)
      then call GcpError.map_pubsub_error (set_deadline (ack_id msg) secs)
      else mthrow (recoverable_transient ("extend_lease: stale LeaseToken for QueueItemId " +:+ item_debug id))
  end.
End pubsub.
End cloud_queues.

(** ** The calls on a queue, and what they may lose *)
Inductive QueueOp : Type :=
| OpEnqueue (payload : bytes)
| OpDequeue
| OpDequeueWithLease (lease_ms : N)
| OpAck (id : QueueItemId)
| OpNack (id : QueueItemId)
| OpExtendLease (id : QueueItemId) (token : LeaseToken) (extend_by_ms : N).

Definition acked (op : QueueOp) : option QueueItemId := match op with OpAck id => Some id | _ => None end.

Definition ignore {W E A} (m : M W E A) : M W E unit := let* _ := m in mret tt.

Lemma wp_ignore {W E A} (m : M W E A) (P : W -> Prop) w :
  wp m (fun _ w' => P w') w -> P (ignore m w).2.
Proof. unfold wp, ignore, mbind_. by destruct (m w) as [[a|e] w']. Qed.

Definition run_ops {W} (perform : QueueOp -> M W CoreError unit) (ops : list QueueOp) (w : W) : W :=
  fold_left (fun w op => (perform op w).2) ops w.

Section table.
Context {C Er Body T : Type} {B : Broker C Er Body} {BL : BrokerLaws C Er Body}.
Context (blake3 : bytes -> bytes) (receipt_of : T -> string).
Abbreviation item := (from_message_id_string blake3).
Abbreviation queue := (CloudQueue C T).

(** Every entry of the table is a receipt of the message its key is derived from. *)
Definition tabled (q : queue) : Prop := forall id t, inflight q !! id = Some t ->
  exists mid, receipts (client q) !! receipt_of t = Some mid /\ item mid = id.

(** Nothing is deleted but a message whose item was acknowledged. *)
Definition keeps_messages (ack : option QueueItemId) (q q' : queue) : Prop :=
  tabled q' /\ forall mid b, messages (client q) !! mid = Some b ->
    messages (client q') !! mid = Some b \/ ack = Some (item mid).

Lemma keeps_refl ack q : tabled q -> keeps_messages ack q q.
Proof. intros H. split; [done|]. auto. Qed.

Lemma keeps_grows ack (q : queue) c' : tabled q -> grows (client q) c' ->
  keeps_messages ack q (mkCloudQueue c' (inflight q)).
Proof.
  intros Ht [Hm Hr]. split; simpl.
  - intros id t Hid. destruct (Ht id t Hid) as (mid & Hmid & Hi). exists mid. split; [|done].
    simpl. by eapply lookup_weaken.
  - intros mid b Hb. left. by eapply lookup_weaken.
Qed.

(** Entries may go. *)
Lemma tabled_delete id (q : queue) : tabled q -> tabled (mkCloudQueue (client q) (delete id (inflight q))).
Proof. intros Ht id' t. simpl. rewrite lookup_delete_Some. intros [_ Hid]. by apply Ht. Qed.

Lemma keeps_insert ack mid t (q q' : queue) : keeps_messages ack q q' -> receipts (client q') !! receipt_of t = Some mid ->
  keeps_messages ack q (mkCloudQueue (client q') (<[item mid := t]> (inflight q'))).
Proof.
  intros [Ht Hm] Hr. split; [|done]. intros id t'. simpl.
  destruct (decide (item mid = id)) as [<-|Hne].
  - rewrite lookup_insert_eq. intros [= <-]. by exists mid.
  - rewrite lookup_insert_ne by done. apply Ht.
Qed.

Lemma wp_call {A} conv (op : M C Er A) (Q : result CoreError A -> queue -> Prop) q :
  wp op (fun r c => Q (match r with Ok a => Ok a | Err e => Err (conv e) end) (mkCloudQueue c (inflight q))) (client q) ->
  wp (call conv op) Q q.
Proof. intros H. by apply wp_zoom, wp_map_err. Qed.

Lemma keeps_set_deadline ack conv h secs q : tabled q ->
  wp (call conv (set_deadline h secs)) (fun _ q' => keeps_messages ack q q') q.
Proof.
  intros Ht. apply wp_call. eapply wp_mono; [apply set_deadline_law|]. intros r c' [Hr Hm].
  apply keeps_grows; [done|]. unfold grows. by rewrite Hr, Hm.
Qed.

(** Taking an entry out and calling the service with its receipt: [ack] and [nack]. *)
Lemma keeps_ack conv id err q : tabled q ->
  wp (let* t := take_inflight id in
      match t with None => mthrow err | Some t => call conv (acknowledge (receipt_of t)) end)
    (fun _ q' => keeps_messages (Some id) q q') q.
Proof.
  intros Ht. apply wp_bind. unfold wp at 1, take_inflight, with_inflight. simpl.
  pose proof (tabled_delete id q Ht) as Ht'.
  destruct (inflight q !! id) as [t|] eqn:Hid; [|split; simpl; [done|auto]].
  apply wp_call. eapply wp_mono; [apply acknowledge_law|]. simpl. intros r c' [Hr Hm].
  destruct (Ht id t Hid) as (mid & Hmid & Hi). split.
  - intros id' t' Hid'. simpl in *. rewrite Hr. by apply Ht'.
  - simpl. intros mid' b Hb. destruct Hm as [-> | (mid2 & Hmid2 & ->)]; [by left|].
    assert (mid2 = mid) as -> by congruence.
    destruct (decide (mid = mid')) as [<-|Hne]; [right; by rewrite Hi|left; by rewrite lookup_delete_ne].
Qed.

Lemma keeps_nack conv id err q : tabled q ->
  wp (let* t := take_inflight id in
      match t with None => mthrow err | Some t => call conv (set_deadline (receipt_of t) 0) end)
    (fun _ q' => keeps_messages None q q') q.
Proof.
  intros Ht. apply wp_bind. unfold wp at 1, take_inflight, with_inflight. simpl.
  pose proof (tabled_delete id q Ht) as Ht'.
  destruct (inflight q !! id) as [t|] eqn:Hid; [|split; simpl; [done|auto]].
  by apply (keeps_set_deadline None conv (receipt_of t) 0 (mkCloudQueue (client q) (delete id (inflight q)))).
Qed.

(** No sequence of calls loses a message that none of them acknowledged. *)
Lemma run_ops_keeps (perform : QueueOp -> M queue CoreError unit) :
  (forall op q, tabled q -> keeps_messages (acked op) q (perform op q).2) ->
  forall ops q mid b, tabled q -> messages (client q) !! mid = Some b -> OpAck (item mid) ∉ ops ->
  tabled (run_ops perform ops q) /\ messages (client (run_ops perform ops q)) !! mid = Some b.
Proof.
  intros Hp. induction ops as [|op ops IH]; intros q mid b Ht Hm Hn; simpl; [done|].
  apply not_elem_of_cons in Hn as [Hop Hn]. destruct (Hp op q Ht) as [Ht' Hk].
  apply IH; [done| |done]. destruct (Hk mid b Hm) as [|Ha]; [done|].
  destruct op; try done. injection Ha as ->. done.
Qed.
End table.

(** ** SQS: what is enqueued is delivered until it is acknowledged *)
Section sqs_facts.
Context {UT : UlidText} {C : Type} {B : Broker C AwsError.SdkError string}.
Context {BL : BrokerLaws C AwsError.SdkError string} {Q : Sqs C} {QL : SqsLaws C}.
Context (blake3 : bytes -> bytes).
Context (base64_encode : bytes -> string) (base64_decode : string -> result string bytes).
Context (default_visibility : N).
Abbreviation item := (from_message_id_string blake3).
Abbreviation queue := (CloudQueue C string).
Abbreviation tabled := (tabled blake3 (fun h : string => h)).
Abbreviation keeps_messages := (keeps_messages blake3 (fun h : string => h)).

Definition sqs_perform (op : QueueOp) : M queue CoreError unit :=
  match op with
  | OpEnqueue p => ignore (sqs_enqueue blake3 base64_encode p)
  | OpDequeue => ignore (sqs_dequeue blake3 base64_decode default_visibility)
  | OpDequeueWithLease ms => ignore (sqs_dequeue_with_lease blake3 base64_decode default_visibility ms)
  | OpAck id => sqs_ack id
  | OpNack id => sqs_nack id
  | OpExtendLease _ token ms => sqs_extend_lease default_visibility token ms
  end.

Lemma sqs_enqueue_spec p q : tabled q ->
  wp (sqs_enqueue blake3 base64_encode p) (fun r q' => keeps_messages None q q' /\ inflight q' = inflight q /\
    match r with
    | Ok id => exists mid, id = item mid /\ messages (client q') !! mid = Some (base64_encode p)
    | Err _ => True
    end) q.
Proof.
  intros Ht. unfold sqs_enqueue. apply wp_bind, wp_call. eapply wp_mono; [apply send_law|].
  intros [[mid|]|e] c' [Hg Hr]; (split; [by apply keeps_grows|split; [done|]]); [|done|done].
  exists mid. by destruct Hr.
Qed.

Lemma dequeue_internal_spec secs q : tabled q ->
  wp (dequeue_internal blake3 base64_decode secs) (fun r q' => keeps_messages None q q' /\
    match r with
    | Ok (Some (id, p, token)) => exists mid receipt b,
        id = item mid /\ token = bytes_of receipt /\ inflight q' = <[id := receipt]> (inflight q) /\
        receipts (client q') !! receipt = Some mid /\
        messages (client q') !! mid = Some b /\ base64_decode b = Ok p
    | _ => inflight q' = inflight q
    end) q.
Proof.
  intros Ht. unfold dequeue_internal. apply wp_bind, wp_call. eapply wp_mono; [apply receive_law|].
  intros [oms|e] c' [Hg Hr]; [|split; [by apply keeps_grows|done]].
  pose proof (keeps_grows blake3 (fun h : string => h) None q c' Ht Hg) as Hk. cbv beta iota.
  destruct oms as [[|[h mid b] ms]|]; simpl; [by split| |by split].
  apply Forall_cons in Hr as [Hm _]. simpl in Hm.
  apply wp_bind. destruct h as [h|]; [apply wp_ret|by split].
  apply wp_bind. destruct mid as [mid|]; [apply wp_ret|by split].
  apply wp_bind. destruct b as [b|]; [apply wp_ret|by split].
  destruct (base64_decode b) as [p|e] eqn:Hd; [|split; [exact Hk|reflexivity]].
  destruct (Hm h mid eq_refl eq_refl) as (Hutf & Hrec & Hb). specialize (Hb b eq_refl).
  unfold sqs_register. red in Hutf. rewrite Hutf.
  unfold wp, register_inflight, with_inflight, mbind_, mret. simpl. split.
  - by apply (keeps_insert blake3 (fun h : string => h) None mid h q (mkCloudQueue c' (inflight q))).
  - by exists mid, h, b.
Qed.

Lemma sqs_perform_keeps op q : tabled q -> keeps_messages (acked op) q (sqs_perform op q).2.
Proof.
  intros Ht. destruct op as [p| |ms|id|id|id token ms]; simpl.
  - apply wp_ignore. eapply wp_mono; [by apply sqs_enqueue_spec|]. by intros r q' [Hk _].
  - apply wp_ignore, wp_bind. eapply wp_mono; [by apply dequeue_internal_spec|]. by intros [a|e] q' [Hk _].
  - apply wp_ignore. eapply wp_mono; [by apply dequeue_internal_spec|]. by intros r q' [Hk _].
  - by apply (keeps_ack blake3 (fun h : string => h)).
  - by apply (keeps_nack blake3 (fun h : string => h)).
  - unfold sqs_extend_lease. destruct (from_utf8 token) as [h|e]; [|by apply keeps_refl].
    by apply (keeps_set_deadline blake3 (fun h : string => h) None rendered h).
Qed.

(** C14: At-least-once delivery over SQS: after an enqueue that returned an item, and
    any sequence of calls without an acknowledgement of that item, the message is
    still at the service with the payload's encoding; and a delivery of that item then
    yields the payload that was enqueued, with a table entry that acknowledges this
    very message. *)
Theorem sqs_delivers_until_acked p q id q1 ops :
  (forall b, base64_decode (base64_encode b) = Ok b) -> tabled q ->
  sqs_enqueue blake3 base64_encode p q = (Ok id, q1) -> OpAck id ∉ ops ->
  let q2 := run_ops sqs_perform ops q1 in
  (exists mid, id = item mid /\ messages (client q2) !! mid = Some (base64_encode p)) /\
  forall secs p' token q3,
    dequeue_internal blake3 base64_decode secs q2 = (Ok (Some (id, p', token)), q3) ->
    (forall m1 m2, m1 ∈ dom (messages (client q3)) -> m2 ∈ dom (messages (client q3)) -> item m1 = item m2 -> m1 = m2) ->
    p' = p /\ exists receipt mid, token = bytes_of receipt /\ inflight q3 !! id = Some receipt /\
      receipts (client q3) !! receipt = Some mid /\ id = item mid.
Proof.
  intros Hb64 Ht Henq Hops q2.
  destruct (wp_elim _ _ _ _ _ (sqs_enqueue_spec p q Ht) Henq) as ((Ht1 & _) & _ & mid & -> & Hm).
  destruct (run_ops_keeps blake3 (fun h : string => h) sqs_perform sqs_perform_keeps ops q1 mid _ Ht1 Hm Hops) as [Ht2 Hm2].
  fold q2 in Ht2, Hm2. split; [by exists mid|].
  intros secs p' token q3 Hdq Hdist.
  destruct (wp_elim _ _ _ _ _ (dequeue_internal_spec secs q2 Ht2) Hdq)
    as ([_ Hk] & mid' & receipt & b & Hid & -> & Hin & Hrec & Hb & Hd).
  destruct (Hk mid _ Hm2) as [Hm3|]; [|done].
  assert (mid' = mid) as ->.
  { symmetry. apply Hdist; [by apply elem_of_dom|by apply elem_of_dom|done]. }
  rewrite Hm3 in Hb. injection Hb as <-. rewrite Hb64 in Hd. split; [congruence|].
  exists receipt, mid. rewrite Hin, lookup_insert_eq. done.
Qed.

(** An acknowledgement takes the table's entry before it calls the service: whatever
    the service answers, a second one finds the item not in flight and calls nothing. *)
Theorem ack_is_at_most_once id q :
  inflight (sqs_ack id q).2 !! id = None /\
  (inflight q !! id = None -> sqs_ack id q = (Err (not_in_flight "ack" id), q)) /\
  sqs_ack id (sqs_ack id q).2 = (Err (not_in_flight "ack" id), (sqs_ack id q).2).
Proof.
  assert (forall q : queue, inflight q !! id = None -> sqs_ack id q = (Err (not_in_flight "ack" id), q)) as Hnone.
  { intros [c t] Hid. unfold sqs_ack, take_inflight, with_inflight, mbind_. simpl in *. rewrite Hid.
    unfold mthrow. do 2 f_equal. by apply delete_id. }
  assert (inflight (sqs_ack id q).2 !! id = None) as Hgone.
  { unfold sqs_ack, take_inflight, with_inflight, mbind_. simpl.
    destruct (inflight q !! id); simpl; [|apply lookup_delete_eq].
    unfold call, zoom. destruct (map_err _ _ _). simpl. apply lookup_delete_eq. }
  split; [done|]. split; [apply Hnone|by apply Hnone].
Qed.
End sqs_facts.

(** ** Pub/Sub *)
Section pubsub_facts.
Context {UT : UlidText} {C : Type} {B : Broker C string bytes}.
Context {BL : BrokerLaws C string bytes} {P : PubSub C} {PL : PubSubLaws C}.
Context (blake3 : bytes -> bytes) (default_deadline : N).
Abbreviation item := (from_message_id_string blake3).
Abbreviation queue := (CloudQueue C Received).
Abbreviation tabled := (tabled blake3 ack_id).
Abbreviation keeps_messages := (keeps_messages blake3 ack_id).

Definition ps_perform (op : QueueOp) : M queue CoreError unit :=
  match op with
  | OpEnqueue p => ignore (ps_enqueue blake3 p)
  | OpDequeue => ignore (ps_dequeue blake3 default_deadline)
  | OpDequeueWithLease ms => ignore (ps_dequeue_with_lease blake3 default_deadline ms)
  | OpAck id => ps_ack id
  | OpNack id => ps_nack id
  | OpExtendLease id token ms => ps_extend_lease default_deadline id token ms
  end.

Lemma ps_enqueue_spec p q : tabled q ->
  wp (ps_enqueue blake3 p) (fun r q' => keeps_messages None q q' /\ inflight q' = inflight q /\
    match r with
    | Ok id => exists mid, id = item mid /\ messages (client q') !! mid = Some p
    | Err _ => True
    end) q.
Proof.
  intros Ht. unfold ps_enqueue. apply wp_bind, wp_call. eapply wp_mono; [apply publish_law|].
  intros [mid|e] c' [Hg Hr]; (split; [by apply keeps_grows|split; [done|]]); [|done].
  exists mid. by destruct Hr.
Qed.

Lemma pull_one_spec secs q : tabled q ->
  wp (pull_one blake3 default_deadline secs) (fun r q' => keeps_messages None q q' /\
    match r with
    | Ok (Some (id, p, token)) => exists msg,
        id = item (pub_id msg) /\ token = bytes_of (ack_id msg) /\ p = pub_data msg /\
        inflight q' = <[id := msg]> (inflight q) /\ receipts (client q') !! ack_id msg = Some (pub_id msg) /\
        messages (client q') !! pub_id msg = Some p
    | _ => inflight q' = inflight q
    end) q.
Proof.
  intros Ht. unfold pull_one. apply wp_bind, wp_call. eapply wp_mono; [apply pull_law|].
  intros [ms|e] c' [Hg Hr]; [|split; [by apply keeps_grows|done]].
  pose proof (keeps_grows blake3 ack_id None q c' Ht Hg) as Hk. cbv beta iota.
  destruct (last ms) as [msg|] eqn:Hl; [|by apply wp_ret].
  rewrite last_lookup in Hl. rewrite Forall_lookup in Hr. destruct (Hr _ _ Hl) as [Hrec Hmsg].
  assert (forall c2, receipts c2 = receipts c' -> messages c2 = messages c' ->
    wp (let* _ := register_inflight (item (pub_id msg)) msg in
        mret (Some (item (pub_id msg), pub_data msg, bytes_of (ack_id msg)))) (fun r q' => keeps_messages None q q' /\
      match r with
      | Ok (Some (id, p, token)) => exists msg,
          id = item (pub_id msg) /\ token = bytes_of (ack_id msg) /\ p = pub_data msg /\
          inflight q' = <[id := msg]> (inflight q) /\ receipts (client q') !! ack_id msg = Some (pub_id msg) /\
          messages (client q') !! pub_id msg = Some p
      | _ => inflight q' = inflight q
      end) (mkCloudQueue c2 (inflight q))) as Hend.
  { intros c2 H1 H2. unfold wp, register_inflight, with_inflight, mbind_, mret. simpl. rewrite H1, H2. split.
    - apply (keeps_insert blake3 ack_id None (pub_id msg) msg q (mkCloudQueue c2 (inflight q))); [|by simpl; rewrite H1].
      apply keeps_grows; [done|]. unfold grows. rewrite H1, H2. exact Hg.
    - by exists msg. }
  apply wp_bind. destruct (decide (secs = default_deadline)); [apply wp_ret; by apply Hend|].
  apply wp_call. eapply wp_mono; [apply set_deadline_law|]. cbv beta. intros r c2 [H1 H2].
  destruct r as [[]|e]; [by apply Hend|]. split; [|done].
  apply (keeps_grows blake3 ack_id None q c2); [done|]. unfold grows. simpl in H1, H2. rewrite H1, H2. exact Hg.
Qed.

Lemma ps_extend_lease_spec id token ms q :
  match inflight q !! id with
  | Some msg => bytes_of (ack_id msg) <> token ->
      ps_extend_lease default_deadline id token ms q =
        (Err (recoverable_transient ("extend_lease: stale LeaseToken for QueueItemId " +:+ item_debug id)), q)
  | None =>
      ps_extend_lease default_deadline id token ms q =
        (Err (recoverable_transient ("extend_lease: QueueItemId " +:+ item_debug id
                                     +:+ " not in-flight (lease expired or never dequeued)")), q)
  end.
Proof.
  destruct q as [c t]. unfold ps_extend_lease, with_inflight, mbind_. simpl.
  destruct (t !! id) as [msg|]; [|done]. intros Hne. by rewrite decide_False.
Qed.

Lemma ps_perform_keeps op q : tabled q -> keeps_messages (acked op) q (ps_perform op q).2.
Proof.
  intros Ht. destruct op as [p| |ms|id|id|id token ms]; simpl.
  - apply wp_ignore. eapply wp_mono; [by apply ps_enqueue_spec|]. by intros r q' [Hk _].
  - apply wp_ignore, wp_bind. eapply wp_mono; [by apply pull_one_spec|]. by intros [a|e] q' [Hk _].
  - apply wp_ignore. eapply wp_mono; [by apply pull_one_spec|]. by intros r q' [Hk _].
  - by apply (keeps_ack blake3 ack_id).
  - by apply (keeps_nack blake3 ack_id).
  - pose proof (ps_extend_lease_spec id token ms q) as Hsp. destruct (inflight q !! id) as [msg|] eqn:Hid.
    + destruct (decide (bytes_of (ack_id msg) = token)) as [Heq|Hne]; [|rewrite Hsp by done; by apply keeps_refl].
      destruct q as [c t]. simpl in Hid.
      unfold ps_extend_lease, with_inflight, mbind_. simpl. rewrite Hid, decide_True by done.
      by apply (keeps_set_deadline blake3 ack_id None GcpError.map_pubsub_error (ack_id msg) _ (mkCloudQueue c t)).
    + rewrite Hsp. by apply keeps_refl.
Qed.

(** At-least-once delivery over Pub/Sub: a published message stays with the
    service through any sequence of calls that does not acknowledge its item, and a
    delivery of that item yields the published payload, with a table entry whose
    [ack_id] is the token. *)
Theorem pubsub_delivers_until_acked p q id q1 ops : tabled q ->
  ps_enqueue blake3 p q = (Ok id, q1) -> OpAck id ∉ ops ->
  let q2 := run_ops ps_perform ops q1 in
  (exists mid, id = item mid /\ messages (client q2) !! mid = Some p) /\
  forall secs p' token q3,
    pull_one blake3 default_deadline secs q2 = (Ok (Some (id, p', token)), q3) ->
    (forall m1 m2, m1 ∈ dom (messages (client q3)) -> m2 ∈ dom (messages (client q3)) -> item m1 = item m2 -> m1 = m2) ->
    p' = p /\ exists msg, inflight q3 !! id = Some msg /\ token = bytes_of (ack_id msg) /\
      receipts (client q3) !! ack_id msg = Some (pub_id msg) /\ id = item (pub_id msg).
Proof.
  intros Ht Henq Hops q2.
  destruct (wp_elim _ _ _ _ _ (ps_enqueue_spec p q Ht) Henq) as ((Ht1 & _) & _ & mid & -> & Hm).
  destruct (run_ops_keeps blake3 ack_id ps_perform ps_perform_keeps ops q1 mid _ Ht1 Hm Hops) as [Ht2 Hm2].
  fold q2 in Ht2, Hm2. split; [by exists mid|].
  intros secs p' token q3 Hdq Hdist.
  destruct (wp_elim _ _ _ _ _ (pull_one_spec secs q2 Ht2) Hdq)
    as ([_ Hk] & msg & Hid & -> & -> & Hin & Hrec & Hb).
  destruct (Hk mid _ Hm2) as [Hm3|]; [|done].
  assert (pub_id msg = mid) as Heq.
  { symmetry. apply Hdist; [by apply elem_of_dom|by apply elem_of_dom|done]. }
  rewrite Heq in Hb. split; [congruence|]. exists msg. rewrite Hin, lookup_insert_eq. done.
Qed.
End pubsub_facts.

(** ** A broker in memory: every message pending can be received, its id is its receipt *)
Record MemBroker (Body : Type) : Type := mkMemBroker { mb_messages : gmap string Body; mb_receipts : gmap string string }.
Arguments mkMemBroker {Body} _ _.
Arguments mb_messages {Body} _.
Arguments mb_receipts {Body} _.

#[global] Instance mem_broker Er Body : Broker (MemBroker Body) Er Body := {
  messages := mb_messages;
  receipts := mb_receipts;
  acknowledge h := fun c =>
    (Ok tt, match mb_receipts c !! h with
            | Some mid => mkMemBroker (delete mid (mb_messages c)) (mb_receipts c)
            | None => c
            end);
  set_deadline _ _ := fun c => (Ok tt, c);
}.

#[global] Instance mem_broker_laws Er Body : BrokerLaws (MemBroker Body) Er Body.
Proof.
  split; unfold wp; simpl; [|done]. intros h c. destruct (mb_receipts c !! h) as [mid|]; simpl; eauto.
Qed.

(** The next message id: one that neither a message nor a receipt has. *)
Definition next_id {Body} (c : MemBroker Body) : string := fresh (dom (mb_messages c) ∪ dom (mb_receipts c)).
Definition add_message {Body} (b : Body) (c : MemBroker Body) : MemBroker Body :=
  mkMemBroker (<[next_id c := b]> (mb_messages c)) (<[next_id c := next_id c]> (mb_receipts c)).

Lemma add_message_spec {Er Body} (b : Body) (c : MemBroker Body) :
  grows (B := mem_broker Er Body) c (add_message b c) /\
  mb_messages c !! next_id c = None /\ mb_messages (add_message b c) !! next_id c = Some b.
Proof.
  assert (next_id c ∉ dom (mb_messages c) ∪ dom (mb_receipts c)) as Hf by apply is_fresh.
  apply not_elem_of_union in Hf as [H1%not_elem_of_dom H2%not_elem_of_dom].
  split; [split; simpl; by apply insert_subseteq|]. split; [done|]. simpl. apply lookup_insert_eq.
Qed.

#[global] Instance mem_sqs : Sqs (MemBroker string) := {
  send_message b := fun c => (Ok (Some (next_id c)), add_message b c);
  receive_message _ := fun c =>
    (Ok ((fun kv : string * string => [mkMessage (Some kv.1) (Some kv.1) (Some kv.2)]) <$>
           head (filter (fun kv : string * string => from_utf8 (bytes_of kv.1) = Ok kv.1 /\
                                                     mb_receipts c !! kv.1 = Some kv.1)
                        (map_to_list (mb_messages c)))), c);
}.

#[global] Instance mem_sqs_laws : SqsLaws (MemBroker string).
Proof.
  split; unfold wp; simpl.
  - intros b c. apply (add_message_spec (Er := AwsError.SdkError) b c).
  - intros _ c. split; [done|]. destruct (filter _ _) as [|[k b] l] eqn:Hf; simpl; [done|].
    constructor; [|done]. simpl. intros h mid [= <-] [= <-].
    assert ((k, b) ∈ filter (fun kv : string * string => from_utf8 (bytes_of kv.1) = Ok kv.1 /\
      mb_receipts c !! kv.1 = Some kv.1) (map_to_list (mb_messages c))) as Hin by (rewrite Hf; set_solver).
    apply list_elem_of_filter in Hin as [[Hu Hr] Hin]. apply elem_of_map_to_list in Hin.
    split; [done|]. split; [done|]. by intros b' [= <-].
Qed.

Lemma sqs_delivers_until_acked_witness :
  let q0 : CloudQueue (MemBroker string) string := mkCloudQueue (mkMemBroker ∅ ∅) ∅ in
  let e := sqs_enqueue (fun b => b) String.string_of_list_byte [x68] q0 in
  exists id, e.1 = Ok id /\ exists mid,
  messages (Er := AwsError.SdkError)
    (client (run_ops (sqs_perform (UT := unary_ulids) (fun b => b) String.string_of_list_byte (fun s => Ok (bytes_of s)) 300)
               [OpDequeue; OpNack id] e.2)) !! mid = Some "h".
Proof.
  set (q0 := mkCloudQueue (mkMemBroker ∅ ∅) ∅ : CloudQueue (MemBroker string) string).
  cbv zeta. destruct (sqs_enqueue (fun b => b) String.string_of_list_byte [x68] q0) as [[id|err] q1] eqn:He;
    [|vm_compute in He; discriminate].
  exists id. split; [reflexivity|].
  destruct (sqs_delivers_until_acked (UT := unary_ulids) (fun b => b) String.string_of_list_byte
    (fun s => Ok (bytes_of s)) 300 [x68] q0 id q1 [OpDequeue; OpNack id]) as [(mid & _ & Hm) _].
  - intros b. by rewrite String.list_byte_of_string_of_list_byte.
  - intros i t Hi. unfold q0 in Hi. simpl in Hi. rewrite lookup_empty in Hi. discriminate.
  - exact He.
  - set_solver.
  - exists mid. exact Hm.
Defined.

#[global] Instance mem_pubsub : PubSub (MemBroker bytes) := {
  publish b := fun c => (Ok (next_id c), add_message b c);
  pull := fun c =>
    (Ok ((fun kv : string * bytes => mkReceived kv.1 kv.1 kv.2) <$>
           filter (fun kv : string * bytes => mb_receipts c !! kv.1 = Some kv.1) (map_to_list (mb_messages c))), c);
}.

#[global] Instance mem_pubsub_laws : PubSubLaws (MemBroker bytes).
Proof.
  split; unfold wp; simpl.
  - intros b c. apply (add_message_spec (Er := string) b c).
  - intros c. split; [done|]. apply Forall_fmap, Forall_forall. intros [k b] Hin.
    apply list_elem_of_filter in Hin as [Hr Hin]. by apply elem_of_map_to_list in Hin.
Qed.

Lemma pubsub_delivers_until_acked_witness :
  let q0 : CloudQueue (MemBroker bytes) Received := mkCloudQueue (mkMemBroker ∅ ∅) ∅ in
  let e := ps_enqueue (fun b => b) [x68] q0 in
  exists id, e.1 = Ok id /\ exists mid,
  messages (Er := string)
    (client (run_ops (ps_perform (UT := unary_ulids) (fun b => b) 30) [OpDequeue; OpNack id] e.2)) !! mid = Some [x68].
Proof.
  set (q0 := mkCloudQueue (mkMemBroker ∅ ∅) ∅ : CloudQueue (MemBroker bytes) Received).
  cbv zeta. destruct (ps_enqueue (fun b => b) [x68] q0) as [[id|err] q1] eqn:He;
    [|vm_compute in He; discriminate].
  exists id. split; [reflexivity|].
  destruct (pubsub_delivers_until_acked (UT := unary_ulids) (fun b => b) 30 [x68] q0 id q1 [OpDequeue; OpNack id])
    as [(mid & _ & Hm) _].
  - intros i t Hi. unfold q0 in Hi. simpl in Hi. rewrite lookup_empty in Hi. discriminate.
  - exact He.
  - set_solver.
  - exists mid. exact Hm.
Defined.

(** ** The defaults of the [Queue] trait, for backends without leases *)
Section queue_defaults.
Context {UT : UlidText} {W : Type}.

Definition from_queue_item_id (id : QueueItemId) : LeaseToken := to_be_bytes id.

Definition default_dequeue_with_lease (dequeue : M W CoreError (option (QueueItemId * bytes))) (lease_ms : N)
  : M W CoreError (option (QueueItemId * bytes * LeaseToken)) :=
  let* item := dequeue in
  mret (match item with
        | None => None
        | Some (id, payload) => Some (id, payload, from_queue_item_id id)
        end).

Definition default_extend_lease (id : QueueItemId) (token : LeaseToken) (extend_by_ms : N) : M W CoreError unit :=
  mthrow (Recoverable (Transient
    "Queue::extend_lease not implemented for this backend (override in cloud impls)" Never)).

(** The token names the item: the 128-bit id is read back from it. *)
Lemma token_item id : (id < 2 ^ 128)%N -> from_be_bytes (from_queue_item_id id) = id.
Proof. intros H. by apply (from_be_bytes_be 16). Qed.
End queue_defaults.
