(* ===== verification/Secrets.v ===== *)
(** Secret stores and compute hints of the three backends (rollout-cloud-local/src/
    secrets.rs and hints, rollout-cloud-aws/src/secrets_manager and imds,
    rollout-cloud-gcp/src/secret_manager and mds). *)
From stdpp Require Import base option list strings pretty.
From S2P Require Import Prelude.
From S2P Require Import Text.
From S2P Require Import Core.
From S2P Require Import Cloud.

Definition bad_config (msg : string) : CoreError := Fatal (ConfigInvalid msg).

(** [allowlist.contains(name)] and [allowlist.iter().any(|a| a == name)]. *)
Definition allowlisted (allowlist : list string) (name : string) : bool := existsb (fun a => bool_decide (a = name)) allowlist.

Section secrets.
(** The state of the world a request may change; a call that is not made leaves it. *)
Context {C : Type}.

(** ** [EnvSecretStore] *)
Section env.
(** [std::env::var], where the variable is set to valid text. *)
Context (env_var : string -> option string).

Definition env_get (allowlist : list string) (name : string) : M C CoreError string :=
  if negb (allowlisted allowlist name)
  then mthrow (bad_config ("secret '" +:+ name +:+ "' is not in the cloud-local allowlist"))
  else
    let var := "ROLLOUT_SECRET_" +:+ name in
    match env_var var with
    | Some v => mret v
    | None => mthrow (Recoverable (Transient ("env var " +:+ var +:+ " is not set") Never))
    end.
End env.
(** [put] of the local store; [name] and [value] are ignored. *)
Definition env_put (name value : string) : M C CoreError unit :=
  mthrow (bad_config "EnvSecretStore is read-only — use a cloud-backed SecretStore to write secrets").

(** ** AWS Secrets Manager *)
Section aws.
(** [get_secret_value().send()], and the answer's [secret_string]. *)
Context (get_secret_value : string -> M C AwsError.SdkError (option string)).

Definition aws_get (allowlist : list string) (name : string) : M C CoreError string :=
  if negb (allowlisted allowlist name)
  then mthrow (bad_config ("secret name " +:+ str_debug name
         +:+ " not in allowlist (configured via [cloud.aws.secrets].allowlist)"))
  else
    let* resp := map_err (fun e => AwsError.map_sm_sdk_error (AwsError.render_sdk e)) (get_secret_value name) in
    match resp with
    | Some secret => mret secret
    | None => mthrow (fatal_internal
        "SecretsManager returned a binary secret; only UTF-8 SecretString is supported in v1.1")
    end.
End aws.
Definition aws_put (name value : string) : M C CoreError unit :=
  mthrow (bad_config
    "AWS SecretStore is read-only in v1.1; provision secrets via aws secretsmanager create-secret").

(** ** GCP Secret Manager, over its REST interface *)
(** An HTTP answer: its status, as a number and as text, and its body read as text or
    as the JSON of an [AccessResponse] (the base64 of the secret). *)
Record Reply : Type := mkReply {
  status : N; status_text : string; text : result string string; access : result string string;
}.
Definition is_success (r : Reply) : bool := bool_decide (200 <= status r < 300)%N.

Record SecretManagerSecretStore : Type := mkSecretManager {
  endpoint : string; project : string; allowlist : list string; bearer_token : option string;
}.

Definition production_endpoint : string := "https://secretmanager.googleapis.com".
Definition sm_new (project : string) (allowlist : list string) (bearer : option string) : SecretManagerSecretStore :=
  mkSecretManager production_endpoint project allowlist bearer.

(** [strip_prefix("Bearer ").unwrap_or(&header)]. *)
Definition strip_bearer (header : string) : string :=
  from_option String.string_of_list_byte header (strip_prefix (bytes_of "Bearer ") (bytes_of header)).

(** The credential chain: loading the provider, then asking it for a header. *)
Definition from_adc (provider : M C string unit) (token : M C string string)
    (project : string) (allowlist : list string) : M C CoreError SecretManagerSecretStore :=
  let* _ := map_err (fun e => bad_config ("Secret Manager ADC load failed: " +:+ e)) provider in
  let* header := map_err (fun e => bad_config ("Secret Manager ADC token fetch failed: " +:+ e)) token in
  mret (sm_new project allowlist (Some (strip_bearer header))).

Definition trim_slashes (s : string) : string :=
  String.string_of_list_byte (trim_end (fun b => bool_decide (b = x2f)) (bytes_of s)).
Definition sm_with_endpoint (endpoint project : string) (allowlist : list string) : SecretManagerSecretStore :=
  mkSecretManager (trim_slashes endpoint) project allowlist None.

Section gcp.
(** [http.get(url)], with a bearer token when there is one; and the base64 crate. *)
Context (http_get : string -> option string -> M C string Reply).
Context (base64_decode : string -> result string bytes).

Definition gcp_get (store : SecretManagerSecretStore) (name : string) : M C CoreError string :=
  if negb (allowlisted (allowlist store) name)
  then mthrow (bad_config ("secret name " +:+ str_debug name
         +:+ " not in allowlist (configured via [cloud.gcp.secrets].allowlist)"))
  else
    let url := endpoint store +:+ "/v1/projects/" +:+ project store +:+ "/secrets/" +:+ name
               +:+ "/versions/latest:access" in
    let* resp := map_err GcpError.map_sm_error (http_get url (bearer_token store)) in
    if decide (status resp = 404)%N then mthrow (bad_config ("secret not found: " +:+ name))
    else if negb (is_success resp)
    then mthrow (GcpError.map_sm_error ("HTTP " +:+ status_text resp +:+ ": "
                   +:+ match text resp with Ok body => body | Err _ => "" end))
    else
      let* data := map_err GcpError.map_sm_error (mlift (access resp)) in
      match base64_decode data with
      | Err e => mthrow (fatal_internal ("secret payload base64 decode: " +:+ e))
      | Ok bytes =>
          match from_utf8 bytes with
          | Ok secret => mret secret
          | Err e => mthrow (fatal_internal
              ("secret is not valid UTF-8; only UTF-8 secrets are supported in v1.1: " +:+ e))
          end
      end.
End gcp.
Definition gcp_put (name value : string) : M C CoreError unit :=
  mthrow (bad_config "GCP SecretStore is read-only in v1.1; provision via gcloud secrets create").
End secrets.

(** ** Compute hints *)
Record GpuInfo : Type := mkGpu { vendor : string; model : string; gpu_memory_mib : N }.
Record ComputeInventory : Type := mkInventory {
  cpu_count : N; memory_mib : N; gpus : list GpuInfo; instance_type : option string;
}.

(** [u32::try_from(n).unwrap_or(u32::MAX)]. *)
Definition u32_or_max (n : N) : N := if decide (n < 2 ^ 32)%N then n else (2 ^ 32 - 1)%N.

Section linux.
(** [read_to_string(..).ok()] of the three files, and what [sysinfo] reports: the
    processors and the bytes of memory. *)
Context (proc_cpuinfo proc_meminfo dmi_product : option string) (sysinfo_cpus sysinfo_memory : N).

Definition cpu_count_from_proc : option N :=
  text ← proc_cpuinfo;
  let n := N.of_nat (length (List.filter (fun l => has_prefix (chars "processor") l) (lines (chars text)))) in
  if decide (n = 0)%N then None else if decide (n < 2 ^ 32)%N then Some n else None.

Fixpoint mem_total (ls : list (list char)) : option N :=
  match ls with
  | [] => None
  | line :: ls' =>
      match strip_prefix (chars "MemTotal:") line with
      | Some rest => kb ← head (split_whitespace (trim is_whitespace rest)) ≫= parse_u64; Some (kb / 1024)%N
      | None => mem_total ls'
      end
  end.
Definition memory_mib_from_proc : option N := text ← proc_meminfo; mem_total (lines (chars text)).

Definition instance_type_from_dmi : option string :=
  text ← dmi_product;
  let t := str_trim text in if decide (t = "") then None else Some t.

(** The NVML crate: [None] without the feature; else its initialisation, its device
    count, and each device with its name and memory. *)
Context (nvml : option (option (option (list (option (option string * option N)))))).

Definition nvml_device (d : option (option string * option N)) : option GpuInfo :=
  '(name, memory) ← d; Some (mkGpu "nvidia" (default "unknown" name) (from_option (fun m => m / 1024 / 1024)%N 0%N memory)).
Definition nvml_gpu_inventory : list GpuInfo :=
  match nvml with
  | Some (Some (Some devices)) => omap nvml_device devices
  | _ => []
  end.

Definition linux_inventory : result CoreError ComputeInventory :=
  Ok (mkInventory (default (u32_or_max sysinfo_cpus) cpu_count_from_proc)
                  (default (sysinfo_memory / 1024 / 1024)%N memory_mib_from_proc)
                  nvml_gpu_inventory instance_type_from_dmi).

Definition macos_inventory : result CoreError ComputeInventory :=
  Ok (mkInventory (u32_or_max sysinfo_cpus) (sysinfo_memory / 1024 / 1024)%N [] None).
End linux.
(** On a local host there is no preemption notice. *)
Definition local_preemption_signal : result CoreError (option N) := Ok None.

Definition with_instance_type (i : ComputeInventory) (t : option string) : ComputeInventory :=
  mkInventory (cpu_count i) (memory_mib i) (gpus i) t.

Section metadata.
Context {C : Type} (local_inventory : M C CoreError ComputeInventory).

(** *** EC2, over the SDK's IMDS client *)
Context (imds_get : string -> M C string string).

Definition ec2_inventory : M C CoreError ComputeInventory :=
  let* t := mcatch (map_err fatal_internal (imds_get "/latest/meta-data/instance-type")) in
  let* inv := local_inventory in
  mret (with_instance_type inv (match t with Ok t => Some t | Err _ => None end)).

Definition ec2_preemption_signal : M C CoreError (option N) :=
  let* action := mcatch (map_err fatal_internal (imds_get "/latest/meta-data/spot/instance-action")) in
  mret (match action with Ok _ => Some 120000%N | Err _ => None end).

(** *** GCE, over HTTP *)
(** [http.get(url).header(METADATA_FLAVOR_KEY, METADATA_GOOGLE)]. *)
Context (mds_http_get : string -> M C string Reply) (host : string).

Definition GCE_PREEMPT_LEAD : N := 30000.

Definition get_attr (suffix : string) : M C CoreError (option string) :=
  let url := "http://" +:+ host +:+ "/computeMetadata/v1/" +:+ suffix in
  let* resp := map_err GcpError.map_mds_error (mds_http_get url) in
  if decide (status resp = 404)%N then mret None
  else if negb (is_success resp)
  then mthrow (GcpError.map_mds_error ("MDS HTTP " +:+ status_text resp +:+ " for " +:+ suffix))
  else
    let* body := map_err GcpError.map_mds_error (mlift (text resp)) in
    mret (Some (str_trim body)).

(** [mt.rsplit('/').next().unwrap_or(&mt)]. *)
Definition leaf (s : string) : string :=
  from_option String.string_of_list_byte s (after_last [x2f] (bytes_of s)).

Definition gce_inventory : M C CoreError ComputeInventory :=
  let* mt := mcatch (get_attr "instance/machine-type") in
  let* inv := local_inventory in
  mret (with_instance_type inv (match mt with Ok (Some mt) => Some (leaf mt) | _ => None end)).

Definition eq_ignore_ascii_case (a b : string) : bool := bool_decide (to_ascii_lowercase a = to_ascii_lowercase b).

Definition gce_preemption_signal : M C CoreError (option N) :=
  let* v := mcatch (get_attr "instance/preempted") in
  mret (match v with
        | Ok (Some v) => if eq_ignore_ascii_case v "true" then Some GCE_PREEMPT_LEAD else None
        | _ => None
        end).
End metadata.

Fixpoint trim_http (fuel : nat) (b : bytes) : bytes :=
  match fuel with
  | O => b
  | S fuel' => match strip_prefix (bytes_of "http://") b with Some b' => trim_http fuel' b' | None => b end
  end.
(** The host of [with_host]: [trim_start_matches("http://")], then the slashes. *)
Definition mds_host (host : string) : string :=
  trim_slashes (String.string_of_list_byte (trim_http (String.length host) (bytes_of host))).

(** ** What the stores promise *)
Definition refused {A} (r : result CoreError A) : Prop := exists msg, r = Err (bad_config msg).

Section secret_facts.
Context {C : Type} (env_var : string -> option string).
Context (get_secret_value : string -> M C AwsError.SdkError (option string)).
Context (http_get : string -> option string -> M C string Reply) (base64_decode : string -> result string bytes).

(** No store resolves a name that its allowlist does not have: the answer is
    [ConfigInvalid] and no request is made (the world's state is the one before), for
    every client; and every store is read-only. *)
Theorem unlisted_secrets_never_requested names name value store (c : C) :
  (allowlisted names name = false -> allowlisted (allowlist store) name = false ->
     refused (env_get env_var names name c).1 /\ (env_get env_var names name c).2 = c /\
     refused (aws_get get_secret_value names name c).1 /\ (aws_get get_secret_value names name c).2 = c /\
     refused (gcp_get http_get base64_decode store name c).1 /\
     (gcp_get http_get base64_decode store name c).2 = c) /\
  (refused (env_put name value c).1 /\ (env_put name value c).2 = c) /\
  (refused (aws_put name value c).1 /\ (aws_put name value c).2 = c) /\
  (refused (gcp_put name value c).1 /\ (gcp_put name value c).2 = c).
Proof.
  split; [|repeat split; by eexists]. intros H1 H2. unfold env_get, aws_get, gcp_get. rewrite H1, H2.
  repeat split; by eexists.
Qed.

(** A secret that is returned is the decoded payload of a successful answer, for a
    allowlisted name. *)
Lemma gcp_get_returns store name c v c' : gcp_get http_get base64_decode store name c = (Ok v, c') ->
  allowlisted (allowlist store) name = true /\ exists r data bytes,
  (http_get (endpoint store +:+ "/v1/projects/" +:+ project store +:+ "/secrets/" +:+ name
             +:+ "/versions/latest:access") (bearer_token store) c) = (Ok r, c') /\
  is_success r = true /\ access r = Ok data /\ base64_decode data = Ok bytes /\ from_utf8 bytes = Ok v.
Proof.
  unfold gcp_get. destruct (allowlisted _ name); [|done]. intros H. split; [done|]. revert H. cbn [negb].
  unfold mbind_, map_err, mlift. destruct (http_get _ _ c) as [[r|e] c1]; [|done].
  destruct (decide _); [done|]. destruct (is_success r) eqn:Hs; [|done]. cbn [negb].
  destruct (access r) as [data|e] eqn:Ha; [|done].
  destruct (base64_decode data) as [b|e] eqn:Hb; [|done].
  destruct (from_utf8 b) as [s|e] eqn:Hu; [|done]. intros [= <- <-]. by exists r, data, b.
Qed.
End secret_facts.

Ltac no_notice :=
  exists None; split; [reflexivity|]; split; [by left|]; split; [discriminate|];
  intros (? & ? & ? & ? & ? & ?); simplify_eq; first [lia|congruence].

Section hint_facts.
Context {C : Type} (imds_get : string -> M C string string) (mds_get : string -> M C string Reply) (host : string).

(** Asking for a preemption notice never fails, whatever the metadata service
    does: EC2 reports two minutes exactly when the instance action could be read, GCE
    half a minute exactly when the service answered success with a body that is TRUE
    in any case of its letters, white space aside; anything else is no notice. *)
Theorem preemption_signals_never_fail (c : C) :
  let action := (imds_get "/latest/meta-data/spot/instance-action" c).1 in
  let reply := (mds_get ("http://" +:+ host +:+ "/computeMetadata/v1/instance/preempted") c).1 in
  (ec2_preemption_signal imds_get c).1 = Ok (if is_ok action then Some 120000%N else None) /\
  exists notice, (gce_preemption_signal mds_get host c).1 = Ok notice /\
    (notice = None \/ notice = Some 30000%N) /\
    (notice = Some 30000%N <-> exists r body, reply = Ok r /\ (200 <= status r < 300)%N /\ text r = Ok body /\
       to_ascii_lowercase (str_trim body) = to_ascii_lowercase "true").
Proof.
  intros action reply. split.
  - unfold action, ec2_preemption_signal, mbind_, mcatch, map_err.
    by destruct (imds_get _ c) as [[a|e] c'].
  - unfold reply, gce_preemption_signal, get_attr, mbind_, mcatch, map_err, mlift.
    change ("/computeMetadata/v1/" +:+ "instance/preempted") with "/computeMetadata/v1/instance/preempted".
    destruct (mds_get _ c) as [[r|e] c']; simpl; [|no_notice].
    destruct (decide (status r = 404%N)) as [H4|H4]; simpl; [no_notice|].
    unfold is_success. destruct (bool_decide (200 <= status r < 300)%N) eqn:Hs; simpl;
      [apply bool_decide_eq_true in Hs|apply bool_decide_eq_false in Hs; no_notice].
    destruct (text r) as [body|e] eqn:Ht; simpl; [|no_notice].
    unfold eq_ignore_ascii_case. destruct (bool_decide _) eqn:Hb; eexists; (split; [reflexivity|]).
    + apply bool_decide_eq_true in Hb. split; [by right|]. split; [|done]. intros _. by exists r, body.
    + apply bool_decide_eq_false in Hb. split; [by left|]. split; [done|].
      intros (? & ? & [= <-] & _ & Hb' & Heq). congruence.
Qed.
End hint_facts.

Lemma unlisted_secrets_never_requested_witness :
  refused (env_get (C := unit) (fun _ => Some "v") ["a"] "b" tt).1.
Proof.
  refine (proj1 (proj1 (unlisted_secrets_never_requested (C := unit) (fun _ => Some "v") (fun _ => mret (Some "s"))
    (fun _ _ => mthrow "down") (fun _ => Err "bad") ["a"] "b" "x" (sm_new "p" ["a"] None) tt) _ _)); reflexivity.
Defined.

Example meminfo : memory_mib_from_proc (Some "MemFree: 1 kB
MemTotal:       16384000 kB
") = Some 16000%N.
Proof. vm_compute. reflexivity. Qed.
Example secret_debug : str_debug "a b" = quote +:+ "a b" +:+ quote.
Proof. reflexivity. Qed.
