(* ===== verification/Jsonl.v ===== *)
(** JSON lines: the loaders of the training crates (rollout-algo-sft/src/data.rs,
    rollout-algo-rm/src/data.rs) and the reader and writer of the batch runtime
    (rollout-runtime-batch/src/io.rs). *)
From stdpp Require Import base option list gmap strings pretty.
From S2P Require Import Prelude.
From S2P Require Import Text.
From S2P Require Import Core.
From S2P Require Import Json.
From S2P Require Import ObjectStore.

Definition invalid (msg : string) : CoreError := Fatal (ConfigInvalid msg).

(** [line.trim().is_empty()]. *)
Definition is_blank (line : string) : bool := bool_decide (trim is_whitespace (chars line) = []).

(** ** The loop of the three readers: the answers of [next_line], an error or the next
    line, until the end; blank lines are counted but not parsed. *)
Section lines_loop.
Context {A : Type} (read_error : string -> CoreError) (parse_line : nat -> string -> result CoreError A).

Fixpoint lines_loop (next : list (result string string)) (lineno : nat) (out : list A) : result CoreError (list A) :=
  match next with
  | [] => Ok out
  | Err e :: _ => Err (read_error e)
  | Ok line :: next' =>
      let lineno := S lineno in
      if is_blank line then lines_loop next' lineno out
      else let? row := parse_line lineno line in lines_loop next' lineno (out ++ [row])
  end.

(** The reference: number the lines, drop the blank ones, parse the rest in order. *)
Fixpoint traverse (l : list (nat * string)) : result CoreError (list A) :=
  match l with
  | [] => Ok []
  | (n, line) :: l' => let? row := parse_line n line in let? rows := traverse l' in Ok (row :: rows)
  end.
Definition numbered_from (start : nat) (ls : list string) : list (nat * string) :=
  filter (fun nl : nat * string => is_blank nl.2 = false) (imap (fun i l => (start + S i, l)) ls).

Lemma numbered_cons start l ls :
  numbered_from start (l :: ls) =
  (if is_blank l then [] else [(S start, l)]) ++ numbered_from (S start) ls.
Proof.
  unfold numbered_from. simpl. rewrite filter_cons. simpl.
  replace (start + 1) with (S start) by lia.
  assert (imap ((fun i l => (start + S i, l)) ∘ S) ls = imap (fun i l => (S start + S i, l)) ls) as ->
    by (apply imap_ext; intros i x _; simpl; f_equal; lia).
  destruct (is_blank l); [by rewrite decide_False|by rewrite decide_True].
Qed.

Lemma lines_loop_traverse ls lineno out :
  lines_loop (Ok <$> ls) lineno out =
  let? rows := traverse (numbered_from lineno ls) in Ok (out ++ rows).
Proof.
  revert lineno out. induction ls as [|l ls IH]; intros lineno out; simpl; [by rewrite app_nil_r|].
  rewrite numbered_cons. destruct (is_blank l); simpl; [apply IH|].
  destruct (parse_line (S lineno) l) as [row|e]; simpl; [|done]. rewrite IH.
  destruct (traverse _) as [rows|e]; simpl; [|done]. by rewrite <- app_assoc.
Qed.

(** A read error after lines that parse is what the loader returns. *)
Lemma lines_loop_read_error ls e rest lineno out rows :
  traverse (numbered_from lineno ls) = Ok rows ->
  lines_loop ((Ok <$> ls) ++ Err e :: rest) lineno out = Err (read_error e).
Proof.
  revert lineno out rows. induction ls as [|l ls IH]; intros lineno out rows; simpl; [done|].
  rewrite numbered_cons. destruct (is_blank l); simpl; [apply IH|].
  destruct (parse_line (S lineno) l) as [row|e']; simpl; [|done].
  destruct (traverse _) as [rows'|e'] eqn:Ht; simpl; [|done]. intros _. by eapply IH.
Qed.
End lines_loop.

(** What a loader finds at a path: an open error, or the answers of [next_line]. *)
Abbreviation text_file := (result string (list (result string string))).

Definition located (path : string) (lineno : nat) (msg : string) : string :=
  path +:+ ":" +:+ pretty lineno +:+ ": " +:+ msg.

(** [load_jsonl] and [load_pairs], up to the row parser. *)
Definition load_rows {A} (parse_row : nat -> string -> result CoreError A) (path : string) (file : text_file)
  : result CoreError (list A) :=
  match file with
  | Err e => Err (invalid ("open " +:+ path +:+ ": " +:+ e))
  | Ok next => lines_loop (fun e => invalid ("read line: " +:+ e)) parse_row next 0 []
  end.

(** ** SFT rows (rollout-algo-sft/src/data.rs) *)
Record DataRow : Type := mkDataRow { prompt : string; assistant : string }.
Record RawMsg : Type := mkRawMsg { msg_role : string; msg_content : string }.
Inductive RawRow : Type :=
| PromptCompletion (prompt completion : string)
| Messages (messages : list RawMsg).

Definition is_assistant (m : RawMsg) : bool := bool_decide (msg_role m = "assistant").
Definition prompt_part (m : RawMsg) : string := "[" +:+ msg_role m +:+ "] " +:+ msg_content m.

Definition multi_turn : string := "multi-turn (>1 assistant) not yet supported in Phase 4".
Definition no_assistant : string := "messages must contain at least one assistant turn".

Fixpoint messages_loop (path : string) (lineno : nat) (ms : list RawMsg) (prompt_parts : list string)
    (assistant : option string) : result CoreError (list string * option string) :=
  match ms with
  | [] => Ok (prompt_parts, assistant)
  | m :: ms' =>
      if is_assistant m then
        match assistant with
        | Some _ => Err (invalid (located path lineno multi_turn))
        | None => messages_loop path lineno ms' prompt_parts (Some (msg_content m))
        end
      else messages_loop path lineno ms' (prompt_parts ++ [prompt_part m]) assistant
  end.

Definition line_feed : string := String (Ascii.ascii_of_nat 10) "".

Definition row_from_raw (raw : RawRow) (lineno : nat) (path : string) : result CoreError DataRow :=
  match raw with
  | PromptCompletion prompt completion => Ok (mkDataRow prompt completion)
  | Messages messages =>
      let? st := messages_loop path lineno messages [] None in
      match st.2 with
      | None => Err (invalid (located path lineno no_assistant))
      | Some a => Ok (mkDataRow (String.concat line_feed st.1) a)
      end
  end.

Section loaders.
(** [serde_json::from_str] at the three row types. *)
Context (parse_raw : string -> result string RawRow).

Definition sft_line (path : string) (lineno : nat) (line : string) : result CoreError DataRow :=
  match parse_raw line with
  | Err e => Err (invalid (located path lineno e))
  | Ok raw => row_from_raw raw lineno path
  end.
Definition load_jsonl (path : string) (file : text_file) : result CoreError (list DataRow) :=
  load_rows (sft_line path) path file.

(** Preference pairs (rollout-algo-rm/src/data.rs). *)
Record PairRow : Type := mkPair { pair_prompt : string; chosen : string; rejected : string }.
Context (parse_pair : string -> result string PairRow).

Definition pair_line (path : string) (lineno : nat) (line : string) : result CoreError PairRow :=
  match parse_pair line with
  | Err e => Err (invalid (located path lineno e))
  | Ok row => Ok row
  end.
Definition load_pairs (path : string) (file : text_file) : result CoreError (list PairRow) :=
  load_rows (pair_line path) path file.

(** ** The batch runtime's rows (rollout-runtime-batch/src/io.rs) *)
Record JsonlInput : Type := mkInput { in_id : option string; in_prompt : string; in_extras : list (string * json) }.
Record JsonlOutput : Type := mkOutput {
  out_id : string; out_prompt : string; completion : string; sampling_params : json; model_uri : string;
  finish_reason : string; model_content_id : string; completion_blob_id : string; generated_at : string;
  out_extras : list (string * json);
}.
Context (parse_input : string -> result string JsonlInput) (output_text : JsonlOutput -> result string string).

Definition io_error (e : string) : CoreError := internal e.

Definition input_line (path : string) (lineno : nat) (line : string) : result CoreError JsonlInput :=
  match parse_input (str_trim line) with
  | Err e => Err (Fatal (SchemaViolation (located path lineno e)))
  | Ok row => Ok row
  end.
Definition read_jsonl (path : string) (file : text_file) : result CoreError (list JsonlInput) :=
  match file with
  | Err e => Err (io_error e)
  | Ok next => lines_loop io_error (input_line path) next 0 []
  end.

Definition write_row (p : fspath) (u : unit) (row : JsonlOutput) : M Fs CoreError unit :=
  let* s := mlift (match output_text row with
                   | Ok s => Ok s
                   | Err e => Err (internal ("serialize JsonlOutput: " +:+ e))
                   end) in
  let* _ := fs_append io_error p (bytes_of s) in
  fs_append io_error p [x0a].

(** [File::create] truncates; the parent directory is made when there is one. *)
Definition write_jsonl (p : fspath) (rows : list JsonlOutput) : M Fs CoreError unit :=
  let* _ := (if decide (length p <= 1) then mret tt else create_dir_all io_error) in
  let* _ := fs_write io_error p [] in
  let* _ := mfold (write_row p) tt rows in
  fs_flush io_error.
End loaders.

(** ** What the loaders return *)

(** A conversation is a row exactly when one message is the assistant's: its prompt is
    the other messages, in order. *)
Lemma messages_loop_spec path lineno ms parts a :
  messages_loop path lineno ms parts a =
  match option_list a ++ (msg_content <$> filter (fun m => is_assistant m = true) ms) with
  | [] => Ok (parts ++ (prompt_part <$> filter (fun m => is_assistant m = false) ms), None)
  | [x] => Ok (parts ++ (prompt_part <$> filter (fun m => is_assistant m = false) ms), Some x)
  | _ => Err (invalid (located path lineno multi_turn))
  end.
Proof.
  revert parts a. induction ms as [|m ms IH]; intros parts a; simpl.
  - rewrite !app_nil_r. by destruct a.
  - rewrite !filter_cons. destruct (is_assistant m) eqn:E.
    + rewrite decide_True, decide_False by congruence. destruct a as [a|]; simpl.
      * by destruct (msg_content <$> _).
      * rewrite IH. done.
    + rewrite decide_False, decide_True by congruence. rewrite IH. simpl. by rewrite <- app_assoc.
Qed.

Theorem row_from_raw_spec path lineno ms :
  row_from_raw (Messages ms) lineno path =
  match filter (fun m => is_assistant m = true) ms with
  | [] => Err (invalid (located path lineno no_assistant))
  | [m] => Ok (mkDataRow (String.concat line_feed (prompt_part <$> filter (fun m => is_assistant m = false) ms))
                         (msg_content m))
  | _ => Err (invalid (located path lineno multi_turn))
  end.
Proof.
  unfold row_from_raw. rewrite messages_loop_spec. simpl.
  by destruct (filter (fun m => is_assistant m = true) ms) as [|m [|m' l]].
Qed.

(** The SFT loader returns the rows of the non-blank lines, in order, each parsed
    with the number of its line in the file (blank lines counted), or the first error;
    an unreadable file and a failed read are configuration errors. *)
Theorem load_jsonl_spec parse_raw path ls :
  load_jsonl parse_raw path (Ok (Ok <$> ls)) = traverse (sft_line parse_raw path) (numbered_from 0 ls) /\
  (forall e, load_jsonl parse_raw path (Err e) = Err (invalid ("open " +:+ path +:+ ": " +:+ e))) /\
  (forall e rest rows, traverse (sft_line parse_raw path) (numbered_from 0 ls) = Ok rows ->
     load_jsonl parse_raw path (Ok ((Ok <$> ls) ++ Err e :: rest)) = Err (invalid ("read line: " +:+ e))).
Proof.
  unfold load_jsonl, load_rows. split; [|split; [done|]].
  - rewrite lines_loop_traverse. by destruct (traverse _ _).
  - intros e rest rows Ht. exact (lines_loop_read_error (fun e => invalid ("read line: " +:+ e)) _ ls e rest 0 [] rows Ht).
Qed.

(** What a completed write leaves: each row's text and a line feed, in order. *)
Fixpoint output_bytes (output_text : JsonlOutput -> result string string) (rows : list JsonlOutput) : bytes :=
  match rows with
  | [] => []
  | r :: rows' => match output_text r with Ok s => bytes_of s ++ [x0a] | Err _ => [] end ++ output_bytes output_text rows'
  end.

Lemma output_bytes_app f a b : output_bytes f (a ++ b) = output_bytes f a ++ output_bytes f b.
Proof. induction a as [|r a IH]; simpl; [done|]. by rewrite IH, app_assoc. Qed.

Lemma fs_append_ok p b fs (Q : result CoreError unit -> Fs -> Prop) :
  (forall fs', files fs' = <[p := default [] (files fs !! p) ++ b]> (files fs) -> Q (Ok tt) fs') ->
  (forall e fs', (forall q, q <> p -> files fs' !! q = files fs !! q) -> Q (Err e) fs') ->
  wp (fs_append io_error p b) Q fs.
Proof.
  intros H1 H2. unfold fs_append. apply io_spec.
  - intros fs' Hf. by apply H1.
  - intros e partial fs' Hf. apply H2. intros q Hq. rewrite Hf. by rewrite lookup_insert_ne.
Qed.

Definition others_same (p : fspath) (fs fs' : Fs) : Prop := forall q, q <> p -> files fs' !! q = files fs !! q.

Lemma write_row_spec f p row fs :
  wp (write_row f p tt row) (fun r fs' => others_same p fs fs' /\
    match r with
    | Ok _ => exists s, f row = Ok s /\ files fs' !! p = Some (default [] (files fs !! p) ++ bytes_of s ++ [x0a])
    | Err _ => True
    end) fs.
Proof.
  unfold write_row. apply wp_bind, wp_lift. destruct (f row) as [s|e]; [|by split].
  apply wp_bind, fs_append_ok; [|by split].
  intros fs1 H1. apply fs_append_ok.
  - intros fs2 H2. split.
    + intros q Hq. rewrite H2, lookup_insert_ne, H1, lookup_insert_ne; done.
    + exists s. split; [done|]. rewrite H2, lookup_insert_eq, H1, lookup_insert_eq. simpl. by rewrite <- app_assoc.
  - intros e fs2 H2. split; [|done]. intros q Hq. rewrite H2, H1, lookup_insert_ne; done.
Qed.

(** The writer: no file but its own changes, and when it succeeds the file holds
    exactly one line per row, in order, whatever was there. *)
Theorem write_jsonl_spec f p rows fs :
  wp (write_jsonl f p rows) (fun r fs' => others_same p fs fs' /\
    match r with
    | Ok _ => files fs' !! p = Some (output_bytes f rows) /\ Forall (fun row => is_ok (f row) = true) rows
    | Err _ => True
    end) fs.
Proof.
  unfold write_jsonl. apply wp_bind.
  assert (forall fs0, files fs0 = files fs ->
    wp (let* _ := fs_write io_error p [] in let* _ := mfold (write_row f p) tt rows in fs_flush io_error)
      (fun r fs' => others_same p fs fs' /\ match r with
        | Ok _ => files fs' !! p = Some (output_bytes f rows) /\ Forall (fun row => is_ok (f row) = true) rows
        | Err _ => True end) fs0) as Hmain.
  { intros fs0 H0. apply wp_bind. unfold fs_write. apply io_spec; simpl; rewrite H0.
    2:{ intros e partial fs1 H1. split; [|done]. intros q Hq. by rewrite H1, lookup_insert_ne. }
    intros fs1 H1. apply wp_bind. eapply wp_mono.
    - apply (wp_mfold (write_row f p) (fun _ rest w => exists sent, rows = sent ++ rest /\ others_same p fs w /\
        files w !! p = Some (output_bytes f sent) /\ Forall (fun row => is_ok (f row) = true) sent)
        (fun _ w => others_same p fs w)).
      + intros [] row rest w (sent & -> & Ho & Hc & Hf). eapply wp_mono; [apply write_row_spec|].
        intros [u|e] w' [Ho' Hr].
        * destruct Hr as (s & Hs & Hc'). exists (sent ++ [row]). split; [by rewrite <- app_assoc|].
          split; [intros q Hq; rewrite Ho' by done; by apply Ho|].
          split; [rewrite Hc', Hc, output_bytes_app; simpl; by rewrite Hs, app_nil_r|].
          apply Forall_app. split; [done|]. constructor; [by rewrite Hs|done].
        * intros q Hq. rewrite Ho' by done. by apply Ho.
      + exists []. split; [done|]. split; [intros q Hq; by rewrite H1, lookup_insert_ne|].
        split; [by rewrite H1, lookup_insert_eq|done].
    - intros [u|e] w; [|done]. intros (sent & -> & Ho & Hc & Hf). rewrite app_nil_r.
      unfold fs_flush. apply io_spec; simpl.
      + intros w' Hw. rewrite Hw. split; [intros q Hq; rewrite Hw; by apply Ho|done].
      + intros e partial w' Hw. split; [|done]. intros q Hq. rewrite Hw. by apply Ho. }
  destruct (decide (length p <= 1)); [apply wp_ret; by apply Hmain|].
  unfold create_dir_all. apply io_spec; simpl.
  - intros fs1 H1. by apply Hmain.
  - intros e partial fs1 H1. split; [|done]. intros q Hq. by rewrite H1.
Qed.

Lemma load_jsonl_spec_witness :
  load_jsonl (fun l => Ok (PromptCompletion l "a")) "d" (Ok (Ok <$> ["q"; " "; "r"])) = Ok [mkDataRow "q" "a"; mkDataRow "r" "a"] /\
  load_jsonl (fun l => Ok (PromptCompletion l "a")) "d" (Ok ((Ok <$> ["q"]) ++ [Err "disk"])) =
    Err (invalid "read line: disk").
Proof.
  split.
  - exact (eq_trans (proj1 (load_jsonl_spec (fun l => Ok (PromptCompletion l "a")) "d" ["q"; " "; "r"])) eq_refl).
  - apply (proj2 (proj2 (load_jsonl_spec (fun l => Ok (PromptCompletion l "a")) "d" ["q"])) "disk" [] [mkDataRow "q" "a"]).
    vm_compute. reflexivity.
Defined.
