(* ===== verification/Training.v ===== *)
(** Training: the SFT and reward-model algorithms (rollout-algo-sft/src/algo.rs,
    rollout-algo-rm/src/algo.rs and loss.rs), the settings they take
    (rollout-core/src/config/training.rs) and the deterministic backend of the resume proofs
    (rollout-runtime-batch/src/mock_backend.rs). *)
From stdpp Require Import base option list strings pretty.
From S2P Require Import Prelude.
From S2P Require Import Text.
From S2P Require Import Float.
From S2P Require Import Core.
From S2P Require Import Json.
From S2P Require Import Backend.
From S2P Require Import Snapshots.
From S2P Require Import Jsonl.

(** ** Settings (config/training.rs) *)
Record TrainingBudget : Type := mkBudget { max_steps : option N; max_tokens : option N; max_walltime : option N }.
Inductive DatasetRef : Type := JsonlPath (path : string) | OtherDataset (name : string).
Inductive PackingKind : Type := Concat | Bucketed | Off.
Record PackingPolicy : Type := mkPacking { packing_kind : PackingKind; max_seq_len : N }.
Record SftSettings : Type := mkSft {
  sft_model : ModelRef; sft_optimizer : OptimizerSettings; sft_budget : TrainingBudget; sft_dataset : DatasetRef;
  packing : PackingPolicy; loss_on : LossScope; sft_minibatch : N; gradient_accumulation : N;
}.
Inductive RmHeadKind : Type := BradleyTerry | PairwiseLogistic.
Record RmSettings : Type := mkRm {
  rm_model : ModelRef; rm_optimizer : OptimizerSettings; rm_budget : TrainingBudget; rm_dataset : DatasetRef;
  head : RmHeadKind; rm_minibatch : N;
}.

(** ** Algorithms (traits/algorithm.rs) *)
Inductive RunOutcome : Type := Completed | Preempted.
Record ConfigViolation : Type := mkViolation { locator : string; message : string }.

(** The algorithm's own counter beside the backend it shares with others. *)
Record TrainWorld (B : Type) : Type := mkTrain { backend : B; step : N }.
Arguments mkTrain {B} backend step.
Arguments backend {B} _.
Arguments step {B} _.

Section algorithms.
Context {B : Type} {TB : TrainableBackend B} {JT : JsonText}.
Abbreviation world := (TrainWorld B).

Definition on_backend {A} (m : M B CoreError A) : M world CoreError A :=
  zoom backend (fun b w => mkTrain b (step w)) m.
Definition bump : M world CoreError unit := fun w => (Ok tt, mkTrain (backend w) (u64_add (step w) 1)).

Definition sft_step_once (s : SftSettings) : M world CoreError unit :=
  let batch := mkBatch 1 16 ["[mock-row]"] in
  let* loss := on_backend (forward_with_loss batch (loss_on s)) in
  let* _ := on_backend (optimizer_step (grad_handle loss) (sft_optimizer s)) in
  bump.

Definition rm_step_once (s : RmSettings) : M world CoreError unit :=
  let batch := mkBatch 2 32 ["[chosen]"; "[rejected]"] in
  let* loss := on_backend (forward_with_loss batch Full) in
  let* _ := on_backend (optimizer_step (grad_handle loss) (rm_optimizer s)) in
  bump.

(** [lr <= 0.0]. *)
Definition lr_not_positive (o : OptimizerSettings) : bool := SFleb (lr o) f64_zero.

Definition violation_if (b : bool) (v : ConfigViolation) : list ConfigViolation := if b then [v] else [].
Definition verdict (vs : list ConfigViolation) : result (list ConfigViolation) unit :=
  match vs with [] => Ok tt | _ => Err vs end.

Definition sft_validate_plan (s : SftSettings) : result (list ConfigViolation) unit :=
  verdict (
    violation_if (bool_decide (sft_minibatch s = 0)%N)
      (mkViolation "algorithm.sft.minibatch_size" "minibatch_size must be >= 1") ++
    violation_if (lr_not_positive (sft_optimizer s))
      (mkViolation "algorithm.sft.optimizer.lr" "lr must be > 0")).

Definition is_bradley_terry (h : RmHeadKind) : bool := match h with BradleyTerry => true | PairwiseLogistic => false end.

Definition rm_validate_plan (s : RmSettings) : result (list ConfigViolation) unit :=
  verdict (
    violation_if (negb (is_bradley_terry (head s)))
      (mkViolation "algorithm.rm.head"
        "RmHeadKind::PairwiseLogistic lands in Phase 9 (RL-*); Phase 4 supports BradleyTerry only") ++
    violation_if (bool_decide (rm_minibatch s = 0)%N)
      (mkViolation "algorithm.rm.minibatch_size" "minibatch_size must be >= 1") ++
    violation_if (lr_not_positive (rm_optimizer s))
      (mkViolation "algorithm.rm.optimizer.lr" "lr must be > 0")).

(** The loop of both [run]s: the [i]-th look at the cancellation token, then a step. *)
Fixpoint train_loop (cancelled : nat -> bool) (step_once : M world CoreError unit) (i k : nat)
  : M world CoreError RunOutcome :=
  match k with
  | O => mret Completed
  | S k' =>
      if cancelled i then mret Preempted
      else let* _ := step_once in train_loop cancelled step_once (S i) k'
  end.

Definition other_dataset : CoreError := invalid "DatasetRef::Other lands in Phase 7 (HARNESS-*)".
Definition steps_of (b : TrainingBudget) : nat := N.to_nat (default 0%N (max_steps b)).

(** [files]: what the loader finds at a path. *)
Definition sft_run (parse_raw : string -> result string RawRow) (files : string -> text_file)
    (cancelled : nat -> bool) (s : SftSettings) : M world CoreError RunOutcome :=
  match sft_dataset s with
  | OtherDataset _ => mthrow other_dataset
  | JsonlPath path =>
      let* _ := mlift (load_jsonl parse_raw path (files path)) in
      train_loop cancelled (sft_step_once s) 0 (steps_of (sft_budget s))
  end.

Definition rm_run (parse_pair : string -> result string PairRow) (files : string -> text_file)
    (cancelled : nat -> bool) (s : RmSettings) : M world CoreError RunOutcome :=
  match rm_dataset s with
  | OtherDataset _ => mthrow other_dataset
  | JsonlPath path =>
      let* _ := mlift (load_pairs parse_pair path (files path)) in
      train_loop cancelled (rm_step_once s) 0 (steps_of (rm_budget s))
  end.

Definition snapshot_meta (step : N) (weights_id : string) : json :=
  JObject [("step", JU64 step); ("weights_id", JString weights_id)].

(** The snapshot both algorithms save: a fresh run id and the time are inputs. *)
Definition save_snapshot (algorithm : string) (run_id : RunId) (now : N) : M world CoreError Snapshot := fun w =>
  (let* weights_id := on_backend save_weights in
   mret (mkSnapshot weights_id TrainState run_id now None [mkPart "weights" weights_id 0] algorithm
           (json_text (snapshot_meta (step w) (ContentId_to_string weights_id))))) w.
Definition sft_snapshot_save : RunId -> N -> M world CoreError Snapshot := save_snapshot "sft".
Definition rm_snapshot_save : RunId -> N -> M world CoreError Snapshot := save_snapshot "rm".

Definition restore_step (plugin : string) (snapshot : Snapshot) : M world CoreError unit := fun w =>
  match (v ← json_of_text (meta snapshot); n ← json_get v "step"; as_u64 n) with
  | Some n => (Ok tt, mkTrain (backend w) n)
  | None => (Err (Fatal (PluginContract plugin
               ("snapshot.meta.step missing or not a u64: " +:+ meta snapshot))), w)
  end.
Definition sft_snapshot_restore : Snapshot -> M world CoreError unit := restore_step "rollout-algo-sft".
Definition rm_snapshot_restore : Snapshot -> M world CoreError unit := restore_step "rollout-algo-rm".
End algorithms.

(** ** The Bradley-Terry loss (loss.rs); [exp] and [ln_1p] are the platform's. *)
Section loss.
Context (exp ln_1p : f32 -> f32).
Definition f32_zero : f32 := S754_zero false.
Definition f32_add : f32 -> f32 -> f32 := SFadd 24 128.

Definition logsigmoid (x : f32) : f32 :=
  if SFleb f32_zero x then SFopp (ln_1p (exp (SFopp x))) else f32_sub x (ln_1p (exp x)).
Definition bradley_terry_loss (r_chosen r_rejected : f32) : f32 := SFopp (logsigmoid (f32_sub r_chosen r_rejected)).
(** The iterator's sum starts from negative zero. *)
Definition bradley_terry_batch_mean (pairs : list (f32 * f32)) : f32 :=
  match pairs with
  | [] => f32_zero
  | _ => f32_div (fold_left f32_add ((fun p => bradley_terry_loss p.1 p.2) <$> pairs) (S754_zero true))
                 (f32_of_N (N.of_nat (length pairs)))
  end.
End loss.

(** ** [MockBackend]: SGD over eight fake weights *)
Record TrainState : Type := mkState { weights : list f32; state_step : N; seed : N }.
Record MockBackend : Type := mkMock { train_state : option TrainState }.

Definition mock_new : MockBackend := mkMock None.
Definition new_train_with_weights (seed : N) (weights : list f32) : MockBackend :=
  mkMock (Some (mkState weights 0 seed)).
Definition new_train (seed : N) : MockBackend :=
  new_train_with_weights seed (replicate 8 (f32_div (f32_of_N seed) (f32_of_N 1000))).

(** The test helpers panic outside of train mode. *)
Definition not_train_mode : string := "not in train mode".
Definition weights_snapshot (b : MockBackend) : outcome (list f32) :=
  match train_state b with Some st => Value (weights st) | None => Panic not_train_mode end.
Definition mock_step (b : MockBackend) : outcome N :=
  match train_state b with Some st => Value (state_step st) | None => Panic not_train_mode end.
Definition set_step (n : N) (b : MockBackend) : outcome MockBackend :=
  match train_state b with
  | Some st => Value (mkMock (Some (mkState (weights st) n (seed st))))
  | None => Panic not_train_mode
  end.

Definition not_in_train : CoreError := Fatal (PluginContract "MockBackend"
  "set_train_mode(true) was not called or MockBackend::new_train wasn't used").

Definition in_train {A} (f : TrainState -> result CoreError A * TrainState) : M MockBackend CoreError A := fun b =>
  match train_state b with
  | Some st => let '(r, st') := f st in (r, mkMock (Some st'))
  | None => (Err not_in_train, b)
  end.

(** 0.5. *)
Definition half : f32 := S754_finite false 8388608 (-24).

Definition mock_forward (batch : TrainBatch) (scope : LossScope) : M MockBackend CoreError LossOutput :=
  in_train (fun st => (Ok (mkLoss half (u64_add (state_step st) 1) (n_tokens batch)), st)).

(** [(seed.wrapping_add(grads.step)) as f32 * opt.lr as f32]. *)
Definition sgd_delta (seed gstep : N) (lr : f64) : f32 := f32_mul (f32_of_N (u64_add seed gstep)) (f32_of_f64 lr).

Definition mock_optimizer_step (grads : GradHandle) (opt : OptimizerSettings) : M MockBackend CoreError unit :=
  in_train (fun st =>
    let delta := sgd_delta (seed st) grads (lr opt) in
    (Ok tt, mkState ((fun w => f32_sub w delta) <$> weights st) grads (seed st))).

Section mock.
Context (content_id_of : bytes -> ContentId) (postcard : list f32 -> result string bytes).

Definition mock_save_weights : M MockBackend CoreError ContentId :=
  in_train (fun st =>
    (match postcard (weights st) with
     | Ok b => Ok (content_id_of b)
     | Err e => Err (internal ("postcard encode weights: " +:+ e))
     end, st)).
(** A no-op. *)
Definition mock_load_weights (weights_id : ContentId) : M MockBackend CoreError unit := mret tt.

Definition mock_trainable : TrainableBackend MockBackend := {|
  set_train_mode := fun enabled => mret tt;
  forward_with_loss := mock_forward;
  optimizer_step := mock_optimizer_step;
  save_weights := mock_save_weights;
  load_weights := mock_load_weights;
|}.
(** Inference: each prompt's answer, after the configured sleep. *)
Definition mock_completion (prompt : string) : Completion :=
  mkCompletion ("MOCK:" +:+ prompt) "stop" 0
    (let n := N.of_nat (String.length prompt) in if decide (n < 2 ^ 32)%N then n else 2 ^ 32 - 1)%N.
Definition mock_inference : InferenceBackend MockBackend := {|
  init := fun model => mret tt;
  generate := fun prompts params => mret (mock_completion <$> prompts);
  model_id := fun b => content_id_of (bytes_of "mock");
  shutdown := mret tt;
|}.
End mock.

(** ** The run: as many steps as the budget and the token allow *)
Fixpoint mrepeat {W E} (k : nat) (m : M W E unit) : M W E unit :=
  match k with O => mret tt | S k' => let* _ := m in mrepeat k' m end.

Lemma mrepeat_add {W E} a b (m : M W E unit) w :
  mrepeat (a + b) m w = (let* _ := mrepeat a m in mrepeat b m) w.
Proof.
  revert w. induction a as [|a IH]; intros w; [done|]. simpl. unfold mbind_.
  destruct (m w) as [[[]|e] w']; [apply IH|done].
Qed.

(** How many of [k] steps run before a look at the token finds it cancelled. *)
Fixpoint stop_at (cancelled : nat -> bool) (i k : nat) : nat :=
  match k with O => 0 | S k' => if cancelled i then 0 else S (stop_at cancelled (S i) k') end.

Lemma stop_at_spec cancelled i k : stop_at cancelled i k <= k /\
  (forall j, j < stop_at cancelled i k -> cancelled (i + j) = false) /\
  (stop_at cancelled i k < k -> cancelled (i + stop_at cancelled i k) = true).
Proof.
  revert i. induction k as [|k IH]; intros i; simpl; [repeat split; lia|].
  destruct (cancelled i) eqn:E; simpl.
  - split; [lia|]. split; [intros j; lia|]. by rewrite Nat.add_0_r.
  - destruct (IH (S i)) as (H1 & H2 & H3). split; [lia|]. split.
    + intros [|j] Hj; [by rewrite Nat.add_0_r|]. rewrite Nat.add_succ_r. apply (H2 j). lia.
    + intros Hlt. rewrite Nat.add_succ_r. apply H3. lia.
Qed.

Section run_facts.
Context {B : Type} {TB : TrainableBackend B}.

Lemma train_loop_repeat cancelled step_once i k (w : TrainWorld B) :
  train_loop cancelled step_once i k w =
  (let* _ := mrepeat (stop_at cancelled i k) step_once in
   mret (if decide (stop_at cancelled i k = k) then Completed else Preempted)) w.
Proof.
  revert i w. induction k as [|k IH]; intros i w; [done|]. simpl.
  unfold mbind_. destruct (cancelled i); cbn [mrepeat]; [unfold mret; case_decide; [lia|done]|].
  unfold mbind_.
  destruct (step_once w) as [[[]|e] w']; [|done]. rewrite IH. unfold mbind_.
  destruct (mrepeat _ _ w') as [[[]|e] w'']; [|done].
  unfold mret. repeat case_decide; done || lia.
Qed.

(** A training run of either algorithm, over every backend: a dataset it cannot
    read ends it before any step; otherwise it runs exactly the steps of the budget, or
    those before the first look that finds the token cancelled, answering [Completed]
    or [Preempted] accordingly, and a failing step ends it with its error. *)
Theorem training_run_spec parse_raw parse_pair files cancelled (s : SftSettings) (r : RmSettings) (w : TrainWorld B) :
  let k := stop_at cancelled 0 (steps_of (sft_budget s)) in
  let k' := stop_at cancelled 0 (steps_of (rm_budget r)) in
  sft_run parse_raw files cancelled s w =
    match sft_dataset s with
    | OtherDataset _ => (Err other_dataset, w)
    | JsonlPath path =>
        match load_jsonl parse_raw path (files path) with
        | Err e => (Err e, w)
        | Ok _ => match mrepeat k (sft_step_once s) w with
                  | (Err e, w') => (Err e, w')
                  | (Ok _, w') => (Ok (if decide (k = steps_of (sft_budget s)) then Completed else Preempted), w')
                  end
        end
    end /\
  rm_run parse_pair files cancelled r w =
    match rm_dataset r with
    | OtherDataset _ => (Err other_dataset, w)
    | JsonlPath path =>
        match load_pairs parse_pair path (files path) with
        | Err e => (Err e, w)
        | Ok _ => match mrepeat k' (rm_step_once r) w with
                  | (Err e, w') => (Err e, w')
                  | (Ok _, w') => (Ok (if decide (k' = steps_of (rm_budget r)) then Completed else Preempted), w')
                  end
        end
    end.
Proof.
  cbv zeta. split.
  - unfold sft_run. destruct (sft_dataset s) as [path|name]; [|done].
    destruct (load_jsonl _ path _) as [rows|e] eqn:Hl; unfold mbind_ at 1, mlift; [|done].
    rewrite train_loop_repeat. unfold mbind_. by destruct (mrepeat _ _ w) as [[[]|e] w'].
  - unfold rm_run. destruct (rm_dataset r) as [path|name]; [|done].
    destruct (load_pairs _ path _) as [rows|e] eqn:Hl; unfold mbind_ at 1, mlift; [|done].
    rewrite train_loop_repeat. unfold mbind_. by destruct (mrepeat _ _ w) as [[[]|e] w'].
Qed.
End run_facts.

(** The plans the checks accept: a learning rate that is no number among them. *)
Lemma sft_validate_plan_spec s :
  sft_validate_plan s = Ok tt <-> sft_minibatch s <> 0%N /\ lr_not_positive (sft_optimizer s) = false.
Proof.
  unfold sft_validate_plan, verdict, violation_if.
  destruct (bool_decide _) eqn:E; [apply bool_decide_eq_true in E|apply bool_decide_eq_false in E];
    destruct (lr_not_positive _); simpl; naive_solver.
Qed.
Lemma lr_nan_accepted o : lr o = S754_nan -> lr_not_positive o = false.
Proof. unfold lr_not_positive. by intros ->. Qed.

(** ** Resuming on the deterministic backend *)
Section resume.
Context {JT : JsonText} (content_id_of : bytes -> ContentId) (postcard : list f32 -> result string bytes).
#[local] Instance mock_backend_instance : TrainableBackend MockBackend := mock_trainable content_id_of postcard.

Definition mock_world (ws : list f32) (n seed a : N) : TrainWorld MockBackend :=
  mkTrain (mkMock (Some (mkState ws n seed))) a.

(** One step, whatever the algorithm: all it takes is the optimizer. *)
Definition advances (step_once : M (TrainWorld MockBackend) CoreError unit) (rate : f64) : Prop :=
  forall ws n seed a, step_once (mock_world ws n seed a) =
    (Ok tt, mock_world ((fun w => f32_sub w (sgd_delta seed (u64_add n 1) rate)) <$> ws) (u64_add n 1) seed (u64_add a 1)).

Lemma sft_advances s : advances (sft_step_once s) (lr (sft_optimizer s)).
Proof. intros ws n sd a. reflexivity. Qed.
Lemma rm_advances s : advances (rm_step_once s) (lr (rm_optimizer s)).
Proof. intros ws n sd a. reflexivity. Qed.

Lemma advances_repeat step_once rate k ws n sd a : advances step_once rate ->
  exists ws' n' a', mrepeat k step_once (mock_world ws n sd a) = (Ok tt, mock_world ws' n' sd a').
Proof.
  intros H. revert ws n a. induction k as [|k IH]; intros ws n a; simpl; [by eexists _, _, _|].
  unfold mbind_. rewrite H. apply IH.
Qed.

(** What a resumption does: a backend with the weights that were read, its counter set
    back, and an algorithm whose counter is restored from the snapshot. *)
Definition resumed (restore : Snapshot -> M (TrainWorld MockBackend) CoreError unit) (sd : N) (ws : list f32) (n : N)
    (snap : Snapshot) : option (TrainWorld MockBackend) :=
  match set_step n (new_train_with_weights sd ws) with
  | Panic _ => None
  | Value b => match restore snap (mkTrain b 0) with (Ok _, w) => Some w | (Err _, _) => None end
  end.

Hypothesis postcard_total : forall ws, is_ok (postcard ws) = true.
Hypothesis json_law : forall n id, json_of_text (json_text (snapshot_meta n id)) = Some (snapshot_meta n id).

Lemma resume_identical step_once rate algorithm plugin k j sd run_id now : advances step_once rate ->
  exists w1 snap ws n,
    mrepeat k step_once (mkTrain (new_train sd) 0) = (Ok tt, w1) /\
    save_snapshot algorithm run_id now w1 = (Ok snap, w1) /\
    weights_snapshot (backend w1) = Value ws /\ mock_step (backend w1) = Value n /\
    resumed (restore_step plugin) sd ws n snap = Some w1 /\
    mrepeat j step_once w1 = mrepeat (k + j) step_once (mkTrain (new_train sd) 0).
Proof.
  intros Ha. unfold new_train, new_train_with_weights. set (ws0 := replicate 8 _).
  destruct (advances_repeat step_once rate k ws0 0%N sd 0%N Ha) as (ws & n & a & Hrun).
  destruct (postcard ws) as [b|e] eqn:Hp; [|by specialize (postcard_total ws); rewrite Hp in postcard_total].
  eexists (mock_world ws n sd a), _, ws, n. split; [exact Hrun|].
  split; [unfold save_snapshot, on_backend, zoom, save_weights, mock_backend_instance, mock_trainable,
    mock_save_weights, in_train, mbind_; simpl; rewrite Hp; reflexivity|].
  split; [done|]. split; [done|]. split.
  - unfold resumed, restore_step. simpl. rewrite json_law. reflexivity.
  - rewrite mrepeat_add. unfold mbind_. unfold mock_world in Hrun. by rewrite Hrun.
Qed.

(** C12: Resuming is bit-identical, for both algorithms, every seed, learning rate and
    step counts: after [k] steps the snapshot can be saved, a backend rebuilt from the
    weights and the counter read there and an algorithm restored from the snapshot are
    exactly the world that was left, and [j] more steps from it end where [k + j]
    uninterrupted steps end: the same weights, counters and errors. *)
Theorem resume_is_bit_identical (s : SftSettings) (r : RmSettings) k j sd run_id now :
  (exists w1 snap ws n,
    mrepeat k (sft_step_once s) (mkTrain (new_train sd) 0) = (Ok tt, w1) /\
    sft_snapshot_save run_id now w1 = (Ok snap, w1) /\
    weights_snapshot (backend w1) = Value ws /\ mock_step (backend w1) = Value n /\
    resumed sft_snapshot_restore sd ws n snap = Some w1 /\
    mrepeat j (sft_step_once s) w1 = mrepeat (k + j) (sft_step_once s) (mkTrain (new_train sd) 0)) /\
  (exists w1 snap ws n,
    mrepeat k (rm_step_once r) (mkTrain (new_train sd) 0) = (Ok tt, w1) /\
    rm_snapshot_save run_id now w1 = (Ok snap, w1) /\
    weights_snapshot (backend w1) = Value ws /\ mock_step (backend w1) = Value n /\
    resumed rm_snapshot_restore sd ws n snap = Some w1 /\
    mrepeat j (rm_step_once r) w1 = mrepeat (k + j) (rm_step_once r) (mkTrain (new_train sd) 0)).
Proof.
  split.
  - exact (resume_identical _ _ "sft" "rollout-algo-sft" k j sd run_id now (sft_advances s)).
  - exact (resume_identical _ _ "rm" "rollout-algo-rm" k j sd run_id now (rm_advances r)).
Qed.
End resume.

(** A text for the metadata: the step in unary, a comma, the id. *)
Fixpoint cut_ones (s : string) : option (nat * string) :=
  match s with
  | EmptyString => None
  | String c s' =>
      if decide (c = Ascii.ascii_of_nat 49) then prod_map S id <$> cut_ones s' else Some (0, s')
  end.
Lemma cut_ones_spec n s : cut_ones (ones n +:+ "," +:+ s) = Some (n, s).
Proof. induction n as [|n IH]; simpl in *; [done|]. by rewrite IH. Qed.

#[local] Instance unary_meta : JsonText := {
  json_text v := match v with
                 | JObject [(_, JU64 n); (_, JString id)] => ones (N.to_nat n) +:+ "," +:+ id
                 | _ => ""
                 end;
  json_of_text s := '(n, id) ← cut_ones s; Some (snapshot_meta (N.of_nat n) id);
}.

Definition tiny_sft (rate : f64) : SftSettings :=
  mkSft (mkModel "mock://" None None) (mkOptimizer Sgd rate f64_zero (f64_zero, f64_zero) f64_zero 0 Constant)
    (mkBudget (Some 3%N) None None) (JsonlPath "d") (mkPacking Off 512) Full 1 1.
Definition tiny_rm (rate : f64) : RmSettings :=
  mkRm (mkModel "mock://" None None) (mkOptimizer Sgd rate f64_zero (f64_zero, f64_zero) f64_zero 0 Constant)
    (mkBudget (Some 3%N) None None) (JsonlPath "d") BradleyTerry 1.
(** 0.01. *)
Definition hundredth : f64 := f64_of_decimal false 1 (-2).

Lemma resume_is_bit_identical_witness :
  let TB := mock_trainable (fun b => b) (fun _ => Ok [x00]) in
  exists w1,
    mrepeat 5 (sft_step_once (tiny_sft hundredth)) (mkTrain (new_train 42) 0) = (Ok tt, w1) /\
    mrepeat 5 (sft_step_once (tiny_sft hundredth)) w1 =
      mrepeat 10 (sft_step_once (tiny_sft hundredth)) (mkTrain (new_train 42) 0).
Proof.
  destruct (resume_is_bit_identical (JT := unary_meta) (fun b => b) (fun _ => Ok [x00])
    (fun _ => eq_refl) (fun n id => ltac:(simpl; rewrite cut_ones_spec; simpl; rewrite N2Nat.id; reflexivity))
    (tiny_sft hundredth) (tiny_rm hundredth) 5 5 42 0 0) as [(w1 & snap & ws & n & H1 & _ & _ & _ & _ & H2) _].
  exists w1. split; [exact H1|exact H2].
Defined.

(** Without setting the backend's counter back, the resumed run repeats the first
    steps' deltas and ends elsewhere. *)
Lemma resume_needs_the_counter :
  let TB := mock_trainable (fun b => b) (fun _ => Ok [x00]) in
  let run k w := (mrepeat k (sft_step_once (tiny_sft hundredth)) w).2 in
  let w1 := run 5 (mkTrain (new_train 42) 0) in
  match weights_snapshot (backend w1) with
  | Value ws => weights_snapshot (backend (run 5 (mkTrain (new_train_with_weights 42 ws) 5))) <>
                weights_snapshot (backend (run 5 w1))
  | Panic _ => False
  end.
Proof. vm_compute. intros Heq. discriminate Heq. Qed.

(** ** The loss is never negative *)
Definition negative (x : f32) : bool :=
  match x with S754_finite s _ _ | S754_infinity s => s | _ => false end.
Definition positive (x : f32) : bool :=
  match x with S754_finite s _ _ | S754_infinity s => negb s | _ => false end.

Lemma ltb_zero x : SFltb x f32_zero = negative x.
Proof. by destruct x as [[]|[]| |[]]. Qed.

Lemma round_aux_sign s m e l : positive (binary_round_aux 24 128 s m e l) = true -> s = false.
Proof.
  unfold binary_round_aux. destruct (shr_fexp _ _ _ _ _) as [r1 e1]. destruct (shr_fexp _ _ _ _ _) as [r2 e2].
  destruct (shr_m r2); simpl; try done. destruct (Z.leb _ _); simpl; by destruct s.
Qed.
Lemma round_aux_sign' s m e l : negative (binary_round_aux 24 128 s m e l) = true -> s = true.
Proof.
  unfold binary_round_aux. destruct (shr_fexp _ _ _ _ _) as [r1 e1]. destruct (shr_fexp _ _ _ _ _) as [r2 e2].
  destruct (shr_m r2); simpl; try done. by destruct (Z.leb _ _).
Qed.

(** A sum that is not positive rounds to what is not positive, and the other way. *)
Lemma normalize_not_positive m e : (m <= 0)%Z -> positive (binary_normalize 24 128 m e false) = false.
Proof.
  intros Hm. destruct m as [|m|m]; simpl; [done|lia|]. unfold binary_round. destruct (shl_align _ _ _) as [mz ez].
  apply not_true_is_false. intros H. by apply round_aux_sign in H.
Qed.
Lemma normalize_not_negative m e : (0 <= m)%Z -> negative (binary_normalize 24 128 m e false) = false.
Proof.
  intros Hm. destruct m as [|m|m]; simpl; [done| |lia]. unfold binary_round. destruct (shl_align _ _ _) as [mz ez].
  apply not_true_is_false. intros H. by apply round_aux_sign' in H.
Qed.

Lemma sub_not_positive x y : positive x = false -> negative y = false -> positive (f32_sub x y) = false.
Proof.
  destruct x as [[]|[]| |[] mx ex], y as [[]|[]| |[] my ey]; intros Hx Hy; try done.
  unfold f32_sub, SFsub. apply normalize_not_positive. unfold cond_Zopp. lia.
Qed.
Lemma add_not_negative x y : negative x = false -> negative y = false -> negative (f32_add x y) = false.
Proof.
  destruct x as [[]|[]| |[] mx ex], y as [[]|[]| |[] my ey]; intros Hx Hy; try done.
  unfold f32_add, SFadd. apply normalize_not_negative. unfold cond_Zopp. lia.
Qed.
Definition sign_bit (x : f32) : bool :=
  match x with S754_zero s | S754_finite s _ _ | S754_infinity s => s | S754_nan => false end.

Lemma of_N_sign n : sign_bit (f32_of_N n) = false.
Proof.
  unfold f32_of_N, binary_normalize. destruct (Z.of_N n) as [|m|m] eqn:E; [done| |lia].
  unfold binary_round. destruct (shl_align _ _ _) as [mz ez]. unfold binary_round_aux.
  destruct (shr_fexp _ _ _ _ _) as [r1 e1]. destruct (shr_fexp _ _ _ _ _) as [r2 e2].
  destruct (shr_m r2); simpl; try done. by destruct (Z.leb _ _).
Qed.

Lemma div_not_negative x n : negative x = false -> negative (f32_div x (f32_of_N n)) = false.
Proof.
  intros Hx. pose proof (of_N_sign n) as Hn.
  destruct (f32_of_N n) as [[]|[]| |[] my ey]; try done; destruct x as [[]|[]| |[] mx ex]; try done.
  unfold f32_div, SFdiv. destruct (SFdiv_core_binary 24 128 (Zpos mx) ex (Zpos my) ey) as [[mz ez] lz].
  apply not_true_is_false. intros H. by apply round_aux_sign' in H.
Qed.

Section loss_sign.
Context (exp ln_1p : f32 -> f32).
(** The library's [ln_1p] of an exponential is not negative. *)
Hypothesis softplus_not_negative : forall y, SFltb (ln_1p (exp y)) f32_zero = false.

Lemma bradley_terry_loss_sign c r : negative (bradley_terry_loss exp ln_1p c r) = false.
Proof.
  unfold bradley_terry_loss, logsigmoid. set (x := f32_sub c r).
  destruct (SFleb f32_zero x) eqn:Hx.
  - pose proof (softplus_not_negative (SFopp x)) as Hs. rewrite ltb_zero in Hs.
    destruct (ln_1p (exp (SFopp x))) as [[]|[]| |[]]; done.
  - pose proof (softplus_not_negative x) as Hs. rewrite ltb_zero in Hs.
    assert (positive (f32_sub x (ln_1p (exp x))) = false) as Hp.
    { apply sub_not_positive; [|done]. by destruct x as [[]|[]| |[]]. }
    destruct (f32_sub x (ln_1p (exp x))) as [[]|[]| |[]]; done.
Qed.

(** C23: The reward model's loss, of one pair and of a batch, is never below zero,
    whatever the rewards, rounding included; and the empty batch has loss zero. *)
Theorem bradley_terry_never_negative c r pairs :
  SFltb (bradley_terry_loss exp ln_1p c r) f32_zero = false /\
  SFltb (bradley_terry_batch_mean exp ln_1p pairs) f32_zero = false /\
  bradley_terry_batch_mean exp ln_1p [] = f32_zero.
Proof.
  rewrite !ltb_zero. split; [apply bradley_terry_loss_sign|]. split; [|done].
  destruct pairs as [|p pairs]; [done|]. unfold bradley_terry_batch_mean. apply div_not_negative.
  generalize (p :: pairs). intros l.
  assert (negative (S754_zero true) = false) as Hz by done. revert Hz. generalize (S754_zero true).
  induction l as [|q l IH]; intros acc Hacc; [done|]. simpl. apply IH. apply add_not_negative; [done|].
  apply bradley_terry_loss_sign.
Qed.
End loss_sign.

(** With a softplus that is zero, for instance. *)
Lemma bradley_terry_never_negative_witness :
  SFltb (bradley_terry_loss (fun x => x) (fun _ => f32_zero) (f32_of_N 1) (f32_of_N 3)) f32_zero = false.
Proof.
  exact (proj1 (bradley_terry_never_negative (fun x => x) (fun _ => f32_zero) (fun _ => eq_refl)
    (f32_of_N 1) (f32_of_N 3) [])).
Defined.
