(* ===== verification/Vllm.v ===== *)
(** The vLLM backend (rollout-backend-vllm/src/): the tasks of the dedicated Python
    thread (engine.rs), what it calls in Python (engine.rs, train.rs, python_glue.rs)
    and the backend's methods, which send tasks over a bounded channel and await the
    replies (backend.rs).  Python is a function of everything asked of it so far. *)
From stdpp Require Import base option list strings pretty.
From S2P Require Import Prelude.
From S2P Require Import Text.
From S2P Require Import Float.
From S2P Require Import Core.
From S2P Require Import Backend.

(** ** Errors (errors.rs) *)
Definition PLUGIN : string := "rollout-backend-vllm".
Definition py_to_core (e : string) : CoreError := Fatal (PluginContract PLUGIN e).
Definition transient (msg : string) : CoreError := Recoverable (Transient msg Never).
Definition wave2_stub : CoreError := Fatal (PluginContract PLUGIN
  "vllm engine not wired in default features (Wave 2 stub); rebuild with --features vllm and set ROLLOUT_VLLM_AVAILABLE=1 for the live AsyncLLMEngine").
Definition streaming_rejected : CoreError :=
  Fatal (ConfigInvalid "streaming generation is Phase 8 (INFER-01); set stream = false").
(** train.rs has its own. *)
Definition train_py_to_core (e : string) : CoreError :=
  Fatal (PluginContract "rollout-backend-vllm/train" ("python error: " +:+ e)).

(** ** Python *)

(** A value passed into Python. *)
Inductive PyArg : Type :=
| AStr (s : string)
| AF32 (x : f32)
| AF64 (x : f64)
| AInt (z : Z)
| AStrs (l : list string)
| ADict (l : list (string * N)).
Abbreviation kwargs := (list (string * PyArg)).

(** What the thread asks of the interpreter. *)
Inductive PyCall : Type :=
| Import (module : string)
| GetAttr (module attr : string)
| SetEnv (key value : string)
| Call (module method : string) (args : list PyArg) (kw : kwargs).

#[global] Instance PyArg_eq_dec : EqDecision PyArg.
Proof. solve_decision. Defined.
#[global] Instance PyCall_eq_dec : EqDecision PyCall.
Proof. solve_decision. Defined.

(** The interpreter and its binding: an answer to each call, after any others, or the
    text of the exception; what a value converts to. *)
Class Python : Type := {
  Obj : Type;
  py_answer : list PyCall -> PyCall -> result string Obj;
  set_item : kwargs -> string -> PyArg -> result string kwargs;
  extract_str : Obj -> result string string;
  extract_u32 : Obj -> result string N;
  extract_u64 : Obj -> result string N;
  extract_f32 : Obj -> result string f32;
  cast_dict : Obj -> result string Obj;
  dict_get : Obj -> string -> result string (option Obj);
  obj_get : Obj -> string -> result string Obj;
}.

(** ** The worker thread's state *)
Inductive ActiveMode : Type := NoMode | Inference | Training.
#[global] Instance ActiveMode_eq_dec : EqDecision ActiveMode.
Proof. solve_decision. Defined.

Record PyWorker : Type := mkWorker {
  history : list PyCall; inference_module : bool; inference_import_err : option string; active_mode : ActiveMode;
}.
Definition worker_new : PyWorker := mkWorker [] false None NoMode.

(** ** Tasks; the training ones exist under the [train] feature only *)
Inductive VllmTask : bool -> Type -> Type :=
| Init {train} (model : ModelRef) : VllmTask train string
| Generate {train} (prompt : string) (params : SamplingParams) (request_id : string) : VllmTask train Completion
| Shutdown {train} : VllmTask train unit
| SetTrainMode (enabled : bool) (model_uri : string) : VllmTask true unit
| ForwardWithLoss (rows : list string) (scope : LossScope) : VllmTask true LossOutput
| OptimizerStep (grads : GradHandle) (opt : OptimizerSettings) : VllmTask true unit
| SaveWeights (target_dir : string) : VllmTask true ContentId
| LoadWeights (src_dir : string) : VllmTask true unit.

Definition is_shutdown {train A} (t : VllmTask train A) : bool :=
  match t with Shutdown => true | _ => false end.

(** What a worker does on a task; the reply is the result. *)
Class Worker (train : bool) (W : Type) : Type := { work : forall A, VllmTask train A -> M W CoreError A }.
Arguments work {train W _ A} t.

Definition engine_py : string := "rollout.backends.vllm.engine".
Definition train_py : string := "rollout.backends.vllm.train".

Section python_worker.
Context {PY : Python} (content_id_of : bytes -> ContentId) (core_debug : CoreError -> string).

(** Ask Python: the call is remembered whatever it answers. *)
Definition py (c : PyCall) : M PyWorker string Obj := fun w =>
  (py_answer (history w) c,
   mkWorker (history w ++ [c]) (inference_module w) (inference_import_err w) (active_mode w)).

(** *** Inference *)
Definition import_engine (secret_token : option string) : M PyWorker string Obj :=
  let* _ := match secret_token with
            | Some token =>
                let* _ := py (Import "os") in
                let* _ := py (GetAttr "os" "environ") in
                let* _ := py (SetEnv "HF_TOKEN" token) in
                mret tt
            | None => mret tt
            end in
  py (Import engine_py).

Definition import_inference (secret_token : option string) (w : PyWorker) : PyWorker :=
  if inference_module w || bool_decide (is_Some (inference_import_err w)) then w
  else match import_engine secret_token w with
       | (Ok _, w') => mkWorker (history w') true (inference_import_err w') (active_mode w')
       | (Err e, w') => mkWorker (history w') (inference_module w') (Some e) (active_mode w')
       end.

Definition run_init (model : ModelRef) : M PyWorker CoreError string :=
  let* kw := mlift (match tokenizer model with
                    | Some tok => match set_item [] "tokenizer" (AStr tok) with
                                  | Ok kw => Ok kw
                                  | Err e => Err (py_to_core e)
                                  end
                    | None => Ok []
                    end) in
  let* res := map_err py_to_core (py (Call engine_py "init" [AStr (uri model)] kw)) in
  map_err py_to_core (mlift (extract_str res)).

(** [d.set_item(k, v).map_err(py_to_core)?]. *)
Definition put_kw (k : string) (v : PyArg) (d : result CoreError kwargs) : result CoreError kwargs :=
  let? d := d in match set_item d k v with Ok d' => Ok d' | Err e => Err (py_to_core e) end.

Definition samplingparams_to_pydict (p : SamplingParams) : result CoreError kwargs :=
  let d := put_kw "temperature" (AF32 (temperature p)) (Ok []) in
  let d := put_kw "top_p" (AF32 (top_p p)) d in
  let d := put_kw "top_k" (AInt (top_k p)) d in
  let d := put_kw "max_tokens" (AInt (Z.of_N (max_tokens p))) d in
  let d := match sampling_seed p with Some seed => put_kw "seed" (AInt (Z.of_N seed)) d | None => d end in
  put_kw "stop" (AStrs (stop p)) d.

(** [dict.get_item(k)?.ok_or_else(..)?.extract()?]. *)
Definition dict_field {A} (extract : Obj -> result string A) (dict : Obj) (k : string) : result CoreError A :=
  match dict_get dict k with
  | Err e => Err (py_to_core e)
  | Ok None => Err (internal ("generate_one returned dict without `" +:+ k +:+ "`"))
  | Ok (Some v) => match extract v with Ok a => Ok a | Err e => Err (py_to_core e) end
  end.

Definition completion_of (out : Obj) : result CoreError Completion :=
  match cast_dict out with
  | Err e => Err (py_to_core e)
  | Ok dict =>
      let? text := dict_field extract_str dict "text" in
      let? finish_reason := dict_field extract_str dict "finish_reason" in
      let? prompt_tokens := dict_field extract_u32 dict "prompt_tokens" in
      let? completion_tokens := dict_field extract_u32 dict "completion_tokens" in
      Ok (mkCompletion text finish_reason prompt_tokens completion_tokens)
  end.

Definition run_generate (prompt : string) (params : SamplingParams) (request_id : string) : M PyWorker CoreError Completion :=
  let* kw := map_err (fun e => internal ("samplingparams_to_pydict: " +:+ core_debug e))
                     (mlift (samplingparams_to_pydict params)) in
  let* out := map_err py_to_core (py (Call engine_py "generate_one_sync" [AStr prompt; AStr request_id] kw)) in
  mlift (completion_of out).

(** Both inference arms: import lazily, then the call or the remembered failure; the
    third arm of the code's match is unreachable. *)
Definition with_engine {A} (secret_token : option string) (call : M PyWorker CoreError A) : M PyWorker CoreError A := fun w =>
  let w := import_inference secret_token w in
  if inference_module w then call w
  else match inference_import_err w with
       | Some e => (Err (transient ("vllm module import failed: " +:+ e)), w)
       | None => (Err (internal "unreachable"), w)
       end.

(** *** Training (train.rs) *)
Definition import_train_module (secret_token : option string) : M PyWorker CoreError Obj :=
  map_err train_py_to_core (
    let* _ := py (Import "os") in
    let* _ := py (GetAttr "os" "environ") in
    let* _ := py (SetEnv "CUBLAS_WORKSPACE_CONFIG" ":4096:8") in
    let* _ := py (SetEnv "PYTHONHASHSEED" "0") in
    let* _ := match secret_token with
              | Some token => let* _ := py (SetEnv "HF_TOKEN" token) in mret tt
              | None => mret tt
              end in
    py (Import train_py)).

Definition set_mode (m : ActiveMode) : M PyWorker CoreError unit := fun w =>
  (Ok tt, mkWorker (history w) (inference_module w) (inference_import_err w) m).

Definition phase9 : CoreError := Fatal (PluginContract PLUGIN
  "set_train_mode(true) after inference engine started is Phase 9; Phase 4 supports single-mode runs only").

Definition run_set_train_mode (enabled : bool) (secret_token : option string) (model_uri : string) : M PyWorker CoreError unit := fun w =>
  (match active_mode w, enabled with
   | (NoMode | Training), true =>
       let* _ := import_train_module secret_token in
       let* _ := map_err train_py_to_core (py (Call train_py "configure_train" [AStr model_uri] [])) in
       set_mode Training
   | Training, false =>
       let* _ := map_err train_py_to_core (py (Import train_py)) in
       let* _ := map_err train_py_to_core (py (Call train_py "teardown_train" [] [])) in
       set_mode NoMode
   | Inference, true => mthrow phase9
   | _, _ => mret tt
   end) w.

Definition scope_str (loss_scope : LossScope) : result CoreError string :=
  match loss_scope with
  | AssistantOnly => Ok "assistant_only"
  | Full => Ok "full"
  | Custom => Err (Fatal (ConfigInvalid "LossScope::Custom lands in Phase 7 (HARNESS-*)"))
  end.

(** [bound.get_item(k)?.extract()?]. *)
Definition item {A} (extract : Obj -> result string A) (o : Obj) (k : string) : result string A :=
  let? v := obj_get o k in extract v.

Definition loss_of (r : Obj) : result string LossOutput :=
  let? loss := item extract_f32 r "loss" in
  let? n_tokens := item extract_u32 r "n_tokens" in
  let? handle := obj_get r "grad_handle" in
  let? grad_step := item extract_u64 handle "step" in
  Ok (mkLoss loss grad_step n_tokens).

(** The module is imported once outside and once inside the detached call. *)
Definition run_forward_with_loss (rows : list string) (loss_scope : LossScope) : M PyWorker CoreError LossOutput :=
  let* scope := mlift (scope_str loss_scope) in
  map_err train_py_to_core (
    let* _ := py (Import train_py) in
    let* _ := py (Import train_py) in
    let* r := py (Call train_py "forward_with_loss" [AStrs rows; AStr scope] []) in
    mlift (loss_of r)).

Definition run_optimizer_step (grads : GradHandle) (opt : OptimizerSettings) : M PyWorker CoreError unit :=
  map_err train_py_to_core (
    let* _ := py (Import train_py) in
    let* _ := py (Call train_py "optimizer_step" [ADict [("step", grads)]; AF64 (lr opt)] []) in
    mret tt).

Definition run_save_weights (target_dir : string) : M PyWorker CoreError ContentId :=
  let* _ := map_err train_py_to_core (
    let* _ := py (Import train_py) in
    py (Call train_py "save_weights" [AStr target_dir] [])) in
  mret (content_id_of (bytes_of target_dir)).

Definition run_load_weights (src_dir : string) : M PyWorker CoreError unit :=
  map_err train_py_to_core (
    let* _ := py (Import train_py) in
    let* _ := py (Call train_py "load_weights" [AStr src_dir] []) in
    mret tt).

(** *** The arms of [worker_main_vllm] *)
Definition vllm_work (secret_token : option string) {train A} (t : VllmTask train A) : M PyWorker CoreError A :=
  match t with
  | Init model => with_engine secret_token (run_init model)
  | Generate prompt params request_id => with_engine secret_token (run_generate prompt params request_id)
  | Shutdown => fun w =>
      if inference_module w then (Ok tt, (py (Call engine_py "shutdown" [] []) w).2) else (Ok tt, w)
  | SetTrainMode enabled model_uri => run_set_train_mode enabled secret_token model_uri
  | ForwardWithLoss rows loss_scope => run_forward_with_loss rows loss_scope
  | OptimizerStep grads opt => run_optimizer_step grads opt
  | SaveWeights target_dir => run_save_weights target_dir
  | LoadWeights src_dir => run_load_weights src_dir
  end.

Definition vllm_worker (secret_token : option string) (train : bool) : Worker train PyWorker := {|
  work A t := vllm_work secret_token t;
|}.
End python_worker.

(** The default features' worker stays_in no state. *)
Definition stub_work {train A} (t : VllmTask train A) : train = false -> M unit CoreError A :=
  match t in VllmTask tr B return tr = false -> M unit CoreError B with
  | Init model => fun _ => mret (uri model)
  | Generate _ _ _ => fun _ => mthrow wave2_stub
  | Shutdown => fun _ => mret tt
  | SetTrainMode _ _ | ForwardWithLoss _ _ | OptimizerStep _ _ | SaveWeights _ | LoadWeights _ =>
      fun H => match Bool.diff_true_false H with end
  end.
#[global] Instance stub_worker : Worker false unit := {| work A t := stub_work t eq_refl |}.

(** ** The engine: a channel of 64 tasks into the thread *)
Record Message (train : bool) : Type := mkMessage { reply_type : Type; task : VllmTask train reply_type }.
Arguments mkMessage {train reply_type} task.
Arguments reply_type {train} m.
Arguments task {train} m.

(** What other holders of the backend send before one of our sends, and whether a send
    after the thread has left still finds its channel open. *)
Record Turn (train : bool) : Type := mkTurn { others : list (Message train); still_open : bool }.
Arguments mkTurn {train} others still_open.
Arguments others {train} t.
Arguments still_open {train} t.

(** Beside the thread's own state: whether it has left its loop, and how many sends have
    been made so far, which dates the others' turns. *)
Record Engine (W : Type) : Type := mkEngine { worker : W; stopped : bool; sends : nat }.
Arguments mkEngine {W} worker stopped sends.
Arguments worker {W} e.
Arguments stopped {W} e.
Arguments sends {W} e.

Definition is_stop {train} (m : Message train) : bool := is_shutdown (task m).
Definition engine_closed : CoreError := transient "vllm engine thread closed".
Definition request_id (i : nat) : string := "req-" +:+ pretty i +:+ "-0".
(** A oneshot receiver: nothing when the thread left without answering. *)
Abbreviation handle A := (option (result CoreError A)).

Definition recv_reply {A} (dropped : string) (h : handle A) : result CoreError A :=
  match h with Some r => r | None => Err (transient dropped) end.

Fixpoint await_all {A} (dropped : string) (handles : list (handle A)) : result CoreError (list A) :=
  match handles with
  | [] => Ok []
  | h :: handles' => let? a := recv_reply dropped h in let? out := await_all dropped handles' in Ok (a :: out)
  end.

Section engine.
Context {train : bool} {W : Type} {WK : Worker train W} (turns : nat -> Turn train).

(** [while let Some(task) = rx.blocking_recv()] over the tasks of the queue, first come
    first served: the state after them, and whether the loop was left. *)
Fixpoint worker_main (q : list (Message train)) (w : W) : W * bool :=
  match q with
  | [] => (w, false)
  | m :: q' =>
      let w' := (work (task m) w).2 in
      if is_stop m then (w', true) else worker_main q' w'
  end.

(** A task is taken in the order of the channel, which is the order of the sends; its
    reply is awaited later. *)
Definition send {A} (t : VllmTask train A) : M (Engine W) CoreError (handle A) := fun e =>
  let turn := turns (sends e) in
  let '(w, gone) := if stopped e then (worker e, true) else worker_main (others turn) (worker e) in
  if gone then ((if still_open turn then Ok None else Err engine_closed), mkEngine w true (S (sends e)))
  else let '(r, w') := work t w in (Ok (Some r), mkEngine w' (is_shutdown t) (S (sends e))).

Fixpoint send_all (params : SamplingParams) (i : nat) (prompts : list Prompt) : M (Engine W) CoreError (list (handle Completion)) :=
  match prompts with
  | [] => mret []
  | p :: prompts' =>
      let* h := send (Generate p params (request_id i)) in
      let* handles := send_all params (S i) prompts' in
      mret (h :: handles)
  end.

(** [Drop]: the channel's own sender is alive until the join returns. *)
Definition channel_capacity : nat := 64.
Definition try_send (q : list (Message train)) (m : Message train) : list (Message train) :=
  if decide (length q < channel_capacity) then q ++ [m] else q.
(** Whether dropping the engine returns, with [q] waiting in the channel. *)
Definition drop_joins (exited : bool) (q : list (Message train)) (w : W) : bool :=
  exited || (worker_main (try_send q (mkMessage Shutdown)) w).2.
End engine.

(** ** The backend (backend.rs) *)
Record VllmBackend (W : Type) : Type := mkBackend { engine : Engine W; vllm_model_id : ContentId; model_uri : string }.
Arguments mkBackend {W} engine vllm_model_id model_uri.
Arguments engine {W} v.
Arguments vllm_model_id {W} v.
Arguments model_uri {W} v.

Section backend.
Context (content_id_of : bytes -> ContentId).

(** [spawned]: the error of a thread the OS refuses to start. *)
Definition with_secret_token {W} (spawned : option string) (engine_id : string) (w0 : W) : result CoreError (VllmBackend W) :=
  match spawned with
  | Some e => Err (internal ("spawn rollout-py-vllm thread: " +:+ e))
  | None => Ok (mkBackend (mkEngine w0 false 0) (content_id_of (bytes_of engine_id)) "")
  end.

Context {train : bool} {W : Type} {WK : Worker train W} (turns : nat -> Turn train).

Definition on_engine {A} (m : M (Engine W) CoreError A) : M (VllmBackend W) CoreError A :=
  zoom engine (fun e b => mkBackend e (vllm_model_id b) (model_uri b)) m.

(** Send a task and await its reply. *)
Definition call {A} (dropped : string) (t : VllmTask train A) : M (VllmBackend W) CoreError A :=
  let* h := on_engine (send turns t) in mlift (recv_reply dropped h).

Definition vllm_init (model : ModelRef) : M (VllmBackend W) CoreError unit :=
  let* sha := call "vllm init reply dropped" (Init model) in
  fun b => (Ok tt, mkBackend (engine b) (content_id_of (bytes_of sha)) (model_uri b)).

Definition vllm_generate (prompts : list Prompt) (params : SamplingParams) : M (VllmBackend W) CoreError (list Completion) :=
  if stream params then mthrow streaming_rejected
  else let* handles := on_engine (send_all turns params 0 prompts) in
       mlift (await_all "vllm generate reply dropped" handles).

Definition vllm_shutdown : M (VllmBackend W) CoreError unit :=
  let* _ := mcatch (on_engine (send turns Shutdown)) in mret tt.

#[local] Instance vllm_inference : InferenceBackend (VllmBackend W) := {|
  init := vllm_init;
  generate := vllm_generate;
  model_id := vllm_model_id;
  shutdown := vllm_shutdown;
|}.
End backend.

Section trainable.
Context (content_id_of : bytes -> ContentId) {W : Type} {WK : Worker true W} (turns : nat -> Turn true).
(** The temporary directory and the identifiers minted for it. *)
Context (temp_dir : string) (ulid : nat -> string).

Definition set_train_model_uri (uri : string) (b : VllmBackend W) : VllmBackend W := mkBackend (engine b) (vllm_model_id b) uri.

Definition vllm_set_train_mode (enabled : bool) : M (VllmBackend W) CoreError unit := fun b =>
  call turns "set_train_mode reply dropped" (SetTrainMode enabled (model_uri b)) b.
Definition vllm_forward_with_loss (batch : TrainBatch) (loss_scope : LossScope) : M (VllmBackend W) CoreError LossOutput :=
  call turns "forward_with_loss reply dropped" (ForwardWithLoss (rows batch) loss_scope).
Definition vllm_optimizer_step (grads : GradHandle) (opt : OptimizerSettings) : M (VllmBackend W) CoreError unit :=
  call turns "optimizer_step reply dropped" (OptimizerStep grads opt).
Definition vllm_save_weights : M (VllmBackend W) CoreError ContentId := fun b =>
  let target_dir := temp_dir +:+ "/rollout-vllm-train-snapshot-" +:+ ulid (sends (engine b)) in
  call turns "save_weights reply dropped" (SaveWeights target_dir) b.
(** A no-op. *)
Definition vllm_load_weights (weights_id : ContentId) : M (VllmBackend W) CoreError unit := mret tt.

#[local] Instance vllm_trainable : TrainableBackend (VllmBackend W) := {|
  set_train_mode := vllm_set_train_mode;
  forward_with_loss := vllm_forward_with_loss;
  optimizer_step := vllm_optimizer_step;
  save_weights := vllm_save_weights;
  load_weights := vllm_load_weights;
|}.
End trainable.

(** ** What a queue leaves behind *)
Lemma worker_main_app {train W} {WK : Worker train W} q q' (w : W) :
  worker_main (q ++ q') w =
    if (worker_main q w).2 then worker_main q w else worker_main q' (worker_main q w).1.
Proof.
  revert w. induction q as [|m q IH]; intros w; simpl; [done|].
  destruct (is_stop m); [done|]. apply IH.
Qed.

Lemma worker_main_left {train W} {WK : Worker train W} q (w : W) :
  (worker_main q w).2 = existsb is_stop q.
Proof.
  revert w. induction q as [|m q IH]; intros w; simpl; [done|].
  destruct (is_stop m); simpl; [done|apply IH].
Qed.

(** Dropping the backend returns exactly when the thread has already left, a shutdown
    is waiting in the channel or there is room for one: with 64 tasks waiting the shutdown
    is not sent, the channel stays open and the join never returns. *)
Theorem drop_joins_spec {train W} {WK : Worker train W} exited (q : list (Message train)) (w : W) :
  drop_joins exited q w = true <->
    exited = true \/ length q < channel_capacity \/ exists m, m ∈ q /\ is_stop m = true.
Proof.
  unfold drop_joins, try_send. rewrite orb_true_iff, worker_main_left, existsb_exists.
  setoid_rewrite <- list_elem_of_In. case_decide as Hq.
  - split; [auto|]. intros _. right. exists (mkMessage Shutdown). split; [set_solver|done].
  - naive_solver.
Qed.

(** ** Generation *)
Section generation.
Context {train : bool} {W : Type} {WK : Worker train W} (turns : nat -> Turn train).

(** Nobody else shuts the engine down. *)
Definition peaceful : Prop := forall k, existsb is_stop (others (turns k)) = false.

(** The queue the thread takes for a batch sent from the [k]-th send on. *)
Definition batch_queue (params : SamplingParams) (k i : nat) (prompts : list Prompt) : list (Message train) :=
  concat (imap (fun j p => others (turns (k + j)) ++ [mkMessage (Generate p params (request_id (i + j)))]) prompts).

(** What the prompts are answered one after the other. *)
Fixpoint served (params : SamplingParams) (k i : nat) (prompts : list Prompt) (w : W) : list (result CoreError Completion) :=
  match prompts with
  | [] => []
  | p :: prompts' =>
      let w1 := (worker_main (others (turns k)) w).1 in
      let '(r, w2) := work (Generate p params (request_id i)) w1 in
      r :: served params (S k) (S i) prompts' w2
  end.

Lemma batch_queue_cons params k i p prompts :
  batch_queue params k i (p :: prompts) =
  others (turns k) ++ mkMessage (Generate p params (request_id i)) :: batch_queue params (S k) (S i) prompts.
Proof.
  unfold batch_queue. simpl. rewrite !Nat.add_0_r, <- app_assoc. do 3 f_equal.
  apply imap_ext. intros j x _. simpl. by rewrite !Nat.add_succ_r.
Qed.

Lemma send_all_peaceful params i prompts (e : Engine W) : peaceful -> stopped e = false ->
  send_all turns params i prompts e =
    (Ok (Some <$> served params (sends e) i prompts (worker e)),
     mkEngine (worker_main (batch_queue params (sends e) i prompts) (worker e)).1 false (sends e + length prompts)).
Proof.
  intros Hp. revert i e. induction prompts as [|p prompts IH]; intros i [w b k] Hs; simpl in Hs; subst b.
  { simpl. by rewrite Nat.add_0_r. }
  cbn [send_all]. unfold mbind_ at 1, send. cbn [stopped sends worker].
  rewrite batch_queue_cons, worker_main_app, worker_main_left, (Hp k). cbn [served worker_main task reply_type].
  pose proof (worker_main_left (others (turns k)) w) as Hk. rewrite (Hp k) in Hk.
  destruct (worker_main (others (turns k)) w) as [w1 g]. cbn [fst snd] in *. subst g.
  change (is_stop _) with false. cbv iota.
  destruct (work (Generate p params (request_id i)) w1) as [r w2]. cbn [is_shutdown fst snd].
  unfold mbind_ at 1. rewrite IH by done. cbn [sends worker]. unfold mret.
  do 2 f_equal. cbn [length]; lia.
Qed.

Lemma served_length params k i prompts w : length (served params k i prompts w) = length prompts.
Proof.
  revert k i w. induction prompts as [|p ps IH]; intros k i w; [done|]. cbn [served length].
  destruct (work _ _) as [r w2]. simpl. by rewrite IH.
Qed.

Lemma await_all_spec {A} dropped (l : list (result CoreError A)) :
  match await_all dropped (Some <$> l) with
  | Ok out => l = Ok <$> out
  | Err e => exists pre post, l = (Ok <$> pre) ++ Err e :: post
  end.
Proof.
  induction l as [|[a|e] l IH]; simpl; [done| |by exists [], l].
  destruct (await_all _ _) as [out|e]; simpl; [by f_equal|].
  destruct IH as (pre & post & ->). by exists (a :: pre), post.
Qed.

(** Whatever other holders of the backend interleave, short of a shutdown: a batch is
    taken as one queue with the prompts in their order, request ids [req-0-0], [req-1-0],
    ... and the others' tasks between; every prompt is served even when an earlier one
    fails; the answer is all completions in the prompts' order, or the error of the first
    prompt that failed.  A streaming request sends nothing. *)
Theorem generate_in_order prompts params (b : VllmBackend W) : peaceful -> stopped (engine b) = false ->
  let k := sends (engine b) in
  let replies := served params k 0 prompts (worker (engine b)) in
  let '(r, b') := vllm_generate turns prompts params b in
  if stream params then r = Err streaming_rejected /\ b' = b
  else
    length replies = length prompts /\
    engine b' = mkEngine (worker_main (batch_queue params k 0 prompts) (worker (engine b))).1 false (k + length prompts) /\
    vllm_model_id b' = vllm_model_id b /\
    match r with
    | Ok out => replies = Ok <$> out
    | Err e => exists pre post, replies = (Ok <$> pre) ++ Err e :: post
    end.
Proof.
  intros Hp Hs k replies. unfold vllm_generate. destruct (stream params); [done|].
  unfold on_engine, zoom, mbind_. rewrite (send_all_peaceful params 0 prompts _ Hp Hs). unfold mlift.
  split; [apply served_length|]. split; [done|]. split; [done|]. apply await_all_spec.
Qed.
End generation.

(** ** What the thread asks of Python *)

(** The history grows by calls of [P]; what inference remembers and the mode stay. *)
Definition grows (P : PyCall -> Prop) (w w' : PyWorker) : Prop :=
  (exists seg, history w' = history w ++ seg /\ Forall P seg) /\
  inference_module w' = inference_module w /\ inference_import_err w' = inference_import_err w.

#[global] Instance grows_preorder P : PreOrder (grows P).
Proof.
  split.
  - intros w. split; [exists []; by rewrite app_nil_r|done].
  - intros w1 w2 w3 ((s1 & H1 & F1) & H2 & H3) ((s2 & H4 & F2) & H5 & H6).
    split; [|split; congruence]. exists (s1 ++ s2). rewrite H4, H1, app_assoc. split; [done|by apply Forall_app].
Qed.

Definition same_mode (w w' : PyWorker) : Prop := active_mode w' = active_mode w.
#[global] Instance same_mode_preorder : PreOrder same_mode.
Proof. split; [done|]. intros w1 w2 w3. unfold same_mode. congruence. Qed.

Definition on_module (name : string) (c : PyCall) : Prop :=
  match c with Import m | Call m _ _ _ => m = name | GetAttr _ _ | SetEnv _ _ => False end.
#[global] Instance on_module_dec name c : Decision (on_module name c).
Proof. destruct c; simpl; apply _. Defined.

Section python_facts.
Context {PY : Python} (content_id_of : bytes -> ContentId) (core_debug : CoreError -> string).

Lemma stays_py_grows (P : PyCall -> Prop) c : P c -> stays_in (grows P) (py c).
Proof. intros Hc w. split; [exists [c]; simpl; auto|done]. Qed.
Lemma stays_py_mode c : stays_in same_mode (py c).
Proof. by intros w. Qed.
Lemma stays_set_mode P m : stays_in (grows P) (set_mode m).
Proof. intros w. split; [exists []; by rewrite app_nil_r|done]. Qed.
End python_facts.

(** Walk through a computation, leaving the calls' side conditions. *)
Ltac stay_walk := repeat first
  [ apply stays_ret; apply _ | apply stays_throw; apply _ | apply stays_lift; apply _
  | apply stays_set_mode | apply stays_py_mode
  | apply stays_bind; [apply _| |intros ?]
  | apply stays_map_err
  | apply stays_py_grows; simpl; try first [done | exact id | discriminate]
  | match goal with |- stays_in _ (match ?o with Some _ => _ | None => _ end) => destruct o end ].

Section inference_facts.
Context {PY : Python} (content_id_of : bytes -> ContentId) (core_debug : CoreError -> string).
Context (secret_token : option string) {train : bool}.
#[local] Instance vllm_worker_instance : Worker train PyWorker := vllm_worker content_id_of core_debug secret_token train.

Definition quiet (c : PyCall) : Prop := ~ on_module engine_py c.
Definition no_import (c : PyCall) : Prop := c <> Import engine_py.
Definition env_writes : list PyCall :=
  match secret_token with
  | Some token => [Import "os"; GetAttr "os" "environ"; SetEnv "HF_TOKEN" token]
  | None => []
  end.

(** The module was imported once, right after the token was written, and is not used
    unless the import succeeded. *)
Definition imported_once (w : PyWorker) : Prop := exists pre post,
  history w = pre ++ env_writes ++ Import engine_py :: post /\ Forall quiet pre /\ Forall no_import post /\
  (inference_module w = false -> Forall quiet post).
Definition never_imported (w : PyWorker) : Prop := Forall quiet (history w) /\ inference_module w = false.
Definition import_inv (w : PyWorker) : Prop :=
  never_imported w \/ imported_once w /\ (inference_module w = true \/ is_Some (inference_import_err w)).

Lemma quiet_no_import l : Forall quiet l -> Forall no_import l.
Proof. intros H. eapply Forall_impl; [exact H|]. intros c Hc ->. by apply Hc. Qed.

(** Steps that leave the module alone keep the invariant; those that call it need it. *)
Lemma import_inv_quiet w w' : import_inv w -> grows quiet w w' -> import_inv w'.
Proof.
  intros Hi ((seg & Hh & Hq) & Hm & He). unfold import_inv, never_imported, imported_once in *. rewrite Hh, Hm, He.
  destruct Hi as [[H1 H2]|[(pre & post & -> & H1 & H2 & H3) H4]].
  - left. split; [by apply Forall_app|done].
  - right. split; [|done]. exists pre, (post ++ seg). rewrite <- !app_assoc. split; [done|].
    repeat split; [done|apply Forall_app; auto using quiet_no_import|].
    intros Hf. apply Forall_app; auto.
Qed.

Lemma import_inv_keeps {A} (m : M PyWorker CoreError A) w : stays_in (grows quiet) m -> import_inv w -> import_inv (m w).2.
Proof. intros Hm Hi. eapply import_inv_quiet; [exact Hi|apply Hm]. Qed.

Lemma import_inv_call w w' : import_inv w -> inference_module w = true -> grows no_import w w' -> import_inv w'.
Proof.
  intros Hi Ht ((seg & Hh & Hq) & Hm & He). unfold import_inv, never_imported, imported_once in *. rewrite Hh, Hm, He.
  destruct Hi as [[H1 H2]|[(pre & post & -> & H1 & H2 & H3) H4]]; [congruence|].
  right. split; [|done]. exists pre, (post ++ seg). rewrite <- !app_assoc. split; [done|].
  repeat split; [done|by apply Forall_app|congruence].
Qed.

(** The calls of the import: the writes, cut short by one that fails, or all of them
    and the import. *)
Lemma import_engine_history w : let '(r, w') := import_engine secret_token w in
  (exists seg, history w' = history w ++ seg /\ Forall quiet seg /\ exists e, r = Err e) \/
  history w' = history w ++ env_writes ++ [Import engine_py].
Proof.
  unfold import_engine, env_writes, quiet, mbind_, mret, py.
  destruct secret_token as [token|]; [|by right].
  destruct (py_answer _ (Import "os")) as [o|e]; simpl.
  2: { left. eexists. split; [done|]. split; [|eauto]. repeat constructor. naive_solver. }
  destruct (py_answer _ (GetAttr _ _)) as [o'|e]; simpl.
  2: { left. eexists. rewrite <- app_assoc. split; [done|]. split; [|eauto]. repeat constructor; naive_solver. }
  destruct (py_answer _ (SetEnv _ _)) as [o''|e]; simpl.
  2: { left. eexists. rewrite <- !app_assoc. split; [done|]. split; [|eauto]. repeat constructor; naive_solver. }
  right. by rewrite <- !app_assoc.
Qed.

Lemma import_engine_keeps w : let w' := (import_engine secret_token w).2 in
  inference_module w' = inference_module w /\ inference_import_err w' = inference_import_err w /\
  active_mode w' = active_mode w.
Proof.
  assert (stays_in (grows (fun _ => True)) (import_engine secret_token)) as Hg by (unfold import_engine; stay_walk).
  assert (stays_in same_mode (import_engine secret_token)) as Hm by (unfold import_engine; stay_walk).
  destruct (Hg w) as (_ & H1 & H2). repeat split; [done|done|apply Hm].
Qed.

Lemma import_inference_inv w : import_inv w ->
  import_inv (import_inference secret_token w) /\
  (inference_module (import_inference secret_token w) = true \/
   inference_module (import_inference secret_token w) = false /\ is_Some (inference_import_err (import_inference secret_token w))).
Proof.
  intros Hi. unfold import_inference.
  destruct (inference_module w) eqn:Em; simpl; [auto|]. case_bool_decide as He; [by auto|].
  assert (never_imported w) as [Hq _].
  { destruct Hi as [?|[_ [?|?]]]; congruence || done. }
  pose proof (import_engine_history w) as Hh. destruct (import_engine_keeps w) as (Hm & Hr & _).
  destruct (import_engine secret_token w) as [r w'] eqn:E. simpl in *.
  destruct Hh as [(seg & Hh & Hseg & e & ->)|Hh].
  - split; [|right; simpl; split; [congruence|eauto]]. left. split; simpl; [rewrite Hh; by apply Forall_app|congruence].
  - split; [|destruct r; simpl; [by left|right; split; [congruence|done]]].
    right. assert (forall b e, (b = true \/ is_Some e) ->
      imported_once (mkWorker (history w') b e (active_mode w')) /\ (b = true \/ is_Some e)) as H.
    { intros b e Hb. split; [|done]. exists (history w), []. auto. }
    destruct r; apply H; simpl; auto.
Qed.

Lemma with_engine_inv {A} (m : M PyWorker CoreError A) w : stays_in (grows no_import) m ->
  import_inv w -> import_inv (with_engine secret_token m w).2.
Proof.
  intros Hm Hi. unfold with_engine. destruct (import_inference_inv w Hi) as [Hi' [Ht|[Hf [e He]]]].
  - rewrite Ht. by eapply import_inv_call; [exact Hi'| |apply Hm].
  - by rewrite Hf, He.
Qed.

Lemma work_import_inv {A} (t : VllmTask train A) w : import_inv w -> import_inv (work t w).2.
Proof.
  intros Hi. change (import_inv (vllm_work content_id_of core_debug secret_token t w).2).
  destruct t; cbn [vllm_work].
  - apply with_engine_inv; [|done]. unfold run_init. stay_walk. 
  - apply with_engine_inv; [|done]. unfold run_generate. stay_walk.
  - destruct (inference_module w) eqn:E; [|done]. eapply import_inv_call; [exact Hi|done|]. by apply stays_py_grows.
  - unfold run_set_train_mode. destruct (active_mode w), enabled; (apply import_inv_keeps; [|done]);
      unfold import_train_module, quiet; stay_walk.
  - apply import_inv_keeps; [|done]. unfold run_forward_with_loss, quiet. stay_walk.
  - apply import_inv_keeps; [|done]. unfold run_optimizer_step, quiet. stay_walk.
  - apply import_inv_keeps; [|done]. unfold run_save_weights, quiet. stay_walk.
  - apply import_inv_keeps; [|done]. unfold run_load_weights, quiet. stay_walk.
Qed.
End inference_facts.

(** What the mode should be after a task and its reply. *)
Definition next_mode {train A} (t : VllmTask train A) (replied_ok : bool) (m : ActiveMode) : ActiveMode :=
  match t with
  | SetTrainMode enabled _ => if replied_ok then (if enabled then Training else NoMode) else m
  | _ => m
  end.

Section python_theorems.
Context {PY : Python} (content_id_of : bytes -> ContentId) (core_debug : CoreError -> string).
Context (secret_token : option string) {train : bool}.
#[local] Instance vllm_worker_instance' : Worker train PyWorker := vllm_worker content_id_of core_debug secret_token train.

Lemma worker_main_ind (P : PyWorker -> Prop) :
  (forall A (t : VllmTask train A) w, P w -> P (work t w).2) ->
  forall q w, P w -> P (worker_main q w).1.
Proof.
  intros Hstep q. induction q as [|m q IH]; intros w Hw; simpl; [done|].
  destruct (is_stop m); [by apply Hstep|apply IH, Hstep, Hw].
Qed.

(** The token reaches Python before the engine does, whatever tasks are queued and
    whatever Python answers: either the inference module was never asked for, or it was
    imported exactly once, after nothing of it was used, with the writes of [HF_TOKEN]
    immediately before when there is a token; and when that import failed nothing of it
    is ever called. *)
Theorem engine_imported_once_after_token (q : list (Message train)) :
  let w := (worker_main q worker_new).1 in
  Forall quiet (history w) /\ inference_module w = false \/
  exists pre post, history w = pre ++ env_writes secret_token ++ Import engine_py :: post /\
    Forall quiet pre /\ Forall no_import post /\ (inference_module w = false -> Forall quiet post).
Proof.
  assert (import_inv secret_token (worker_main q worker_new).1) as [H|[H _]]; [|by left|by right].
  apply worker_main_ind; [|by left; split].
  intros A t w. apply (work_import_inv content_id_of core_debug secret_token (train := train)).
Qed.

Lemma import_inference_mode w : active_mode (import_inference secret_token w) = active_mode w.
Proof.
  unfold import_inference. destruct (_ || _); [done|].
  destruct (import_engine_keeps secret_token w) as (_ & _ & Hm).
  by destruct (import_engine secret_token w) as [[o|e] w'].
Qed.

Lemma with_engine_mode {A} (m : M PyWorker CoreError A) : stays_in same_mode m -> stays_in same_mode (with_engine secret_token m).
Proof.
  intros Hm w. unfold with_engine, same_mode. rewrite <- (import_inference_mode w).
  destruct (inference_module _); [apply Hm|]. by destruct (inference_import_err _).
Qed.

(** Errors that come from Python. *)
Definition python_errors {A} (m : M PyWorker CoreError A) : Prop :=
  forall w e, (m w).1 = Err e -> exists s, e = train_py_to_core s.
Lemma python_errors_map_err {A} (m : M PyWorker string A) : python_errors (map_err train_py_to_core m).
Proof. intros w e. unfold map_err. destruct (m w) as [[a|s] w']; simpl; [done|]. intros [= <-]. eauto. Qed.
Lemma python_errors_bind {A B} (m : M PyWorker CoreError A) (k : A -> M PyWorker CoreError B) :
  python_errors m -> (forall a, python_errors (k a)) -> python_errors (mbind_ m k).
Proof.
  intros Hm Hk w e. specialize (Hm w). unfold mbind_. destruct (m w) as [[a|e'] w']; simpl in *; [apply Hk|].
  intros [= ->]. by apply Hm.
Qed.

(** The calls of a switch, then the new mode: it is taken on success only. *)
Lemma switch_spec {A B} (m1 : M PyWorker CoreError A) (m2 : M PyWorker CoreError B) mode w :
  stays_in same_mode m1 -> stays_in same_mode m2 -> python_errors m1 -> python_errors m2 ->
  let '(r, w') := (let* _ := m1 in let* _ := m2 in set_mode mode) w in
  active_mode w' = (if is_ok r then mode else active_mode w) /\ r <> Err phase9.
Proof.
  intros K1 K2 E1 E2. specialize (K1 w). specialize (E1 w). unfold mbind_.
  destruct (m1 w) as [[a|e] w1]; simpl in *.
  2: { split; [done|]. intros [= ->]. destruct (E1 _ eq_refl) as [s Hs]. discriminate Hs. }
  specialize (K2 w1). specialize (E2 w1). destruct (m2 w1) as [[b|e] w2]; simpl in *; unfold same_mode in *; [done|].
  split; [congruence|]. intros [= ->]. destruct (E2 _ eq_refl) as [s Hs]. discriminate Hs.
Qed.

Lemma work_mode {A} (t : VllmTask train A) w : active_mode w <> Inference ->
  let '(r, w') := work t w in
  active_mode w' = next_mode t (is_ok r) (active_mode w) /\
  match t with SetTrainMode _ _ => r <> Err phase9 | _ => True end.
Proof.
  intros Hw. change (let '(r, w') := vllm_work content_id_of core_debug secret_token t w in
    active_mode w' = next_mode t (is_ok r) (active_mode w) /\
    match t with SetTrainMode _ _ => r <> Err phase9 | _ => True end).
  assert (forall B (m : M PyWorker CoreError B) (n : bool -> ActiveMode), (forall b, n b = active_mode w) ->
    stays_in same_mode m -> let '(r, w') := m w in active_mode w' = n (is_ok r) /\ True) as Hsame.
  { intros B m n Hn Hm. specialize (Hm w). destruct (m w) as [r w']. by rewrite Hn. }
  destruct t; cbn [vllm_work next_mode].
  - apply (Hsame _ _ (fun _ => _)); [done|]. apply with_engine_mode. unfold run_init. stay_walk.
  - apply (Hsame _ _ (fun _ => _)); [done|]. apply with_engine_mode. unfold run_generate. stay_walk.
  - by destruct (inference_module w).
  - unfold run_set_train_mode. destruct (active_mode w) eqn:E, enabled; [| | | | |]; try done.
    + rewrite <- E. apply switch_spec; try apply python_errors_map_err; unfold import_train_module; stay_walk.
    + rewrite <- E. apply switch_spec; try apply python_errors_map_err; unfold import_train_module; stay_walk.
    + rewrite <- E. apply switch_spec; try apply python_errors_map_err; stay_walk.
  - apply (Hsame _ _ (fun _ => _)); [done|]. unfold run_forward_with_loss. stay_walk.
  - apply (Hsame _ _ (fun _ => _)); [done|]. unfold run_optimizer_step. stay_walk.
  - apply (Hsame _ _ (fun _ => _)); [done|]. unfold run_save_weights. stay_walk.
  - apply (Hsame _ _ (fun _ => _)); [done|]. unfold run_load_weights. stay_walk.
Qed.

(** The mode is that of the last switch Python went through with, whatever else is
    queued, and [Inference] is never reached: a switch to training is never refused
    because generation has started. *)
Theorem training_mode_spec (q : list (Message train)) {A} (t : VllmTask train A) :
  let w := (worker_main q worker_new).1 in
  let '(r, w') := work t w in
  active_mode w <> Inference /\
  active_mode w' = next_mode t (is_ok r) (active_mode w) /\
  match t with SetTrainMode _ _ => r <> Err phase9 | _ => True end.
Proof.
  cbv zeta. assert (active_mode (worker_main q worker_new).1 <> Inference) as Hw.
  { apply (worker_main_ind (fun w => active_mode w <> Inference)); [|done].
    intros B u w Hw. pose proof (work_mode u w Hw) as H. destruct (work u w) as [r w']. destruct H as [H _].
    simpl. rewrite H. clear H. destruct u; simpl; try done. by destruct (is_ok r), enabled. }
  pose proof (work_mode t _ Hw) as H. by destruct (work t _).
Qed.
End python_theorems.

(** ** After a shutdown *)
Section shutdown_facts.
Context (content_id_of : bytes -> ContentId) {W : Type} {WK : Worker true W} (turns : nat -> Turn true).
Context (temp_dir : string) (ulid : nat -> string).

(** The thread is gone and the backend is otherwise as it was. *)
Definition left_as (b b' : VllmBackend W) : Prop :=
  worker (engine b') = worker (engine b) /\ stopped (engine b') = true /\
  vllm_model_id b' = vllm_model_id b /\ model_uri b' = model_uri b.
Definition refused {A} (m : M (VllmBackend W) CoreError A) (b : VllmBackend W) : Prop :=
  exists msg b', m b = (Err (transient msg), b') /\ left_as b b'.

Lemma send_stopped {A} (t : VllmTask true A) (e : Engine W) : stopped e = true ->
  exists r, send turns t e = (r, mkEngine (worker e) true (S (sends e))) /\
  (r = Ok None \/ r = Err engine_closed).
Proof. intros Hs. unfold send. rewrite Hs. eexists. split; [reflexivity|]. destruct (still_open _); auto. Qed.

Lemma call_stopped {A} dropped (t : VllmTask true A) b : stopped (engine b) = true -> refused (call turns dropped t) b.
Proof.
  intros Hs. destruct (send_stopped t (engine b) Hs) as (r & Hr & Hor).
  unfold refused, call, on_engine, zoom, mbind_, mlift. rewrite Hr.
  destruct Hor as [-> | ->]; simpl; eexists _, _; (split; [reflexivity|done]).
Qed.

Lemma refused_bind {A B} (m : M (VllmBackend W) CoreError A) (k : A -> M (VllmBackend W) CoreError B) b :
  refused m b -> refused (mbind_ m k) b.
Proof. intros (msg & b' & Hm & Hl). exists msg, b'. unfold mbind_. by rewrite Hm. Qed.

Lemma send_all_cons params i p prompts :
  send_all turns params i (p :: prompts) =
    let* h := send turns (Generate p params (request_id i)) in
    let* handles := send_all turns params (S i) prompts in
    mret (h :: handles).
Proof. reflexivity. Qed.

Lemma send_all_stopped params i p prompts (e : Engine W) : stopped e = true ->
  exists r n, send_all turns params i (p :: prompts) e = (r, mkEngine (worker e) true n) /\
  (r = Err engine_closed \/ exists handles, r = Ok (None :: handles)).
Proof.
  revert i p e. induction prompts as [|p' prompts IH]; intros i p e Hs;
    destruct (send_stopped (Generate p params (request_id i)) e Hs) as (r & Hr & Hor);
    rewrite send_all_cons; unfold mbind_ at 1; rewrite Hr; destruct Hor as [-> | ->]; try (eexists _, _; split; [reflexivity|by left]).
  - eexists _, _. split; [reflexivity|]. eauto.
  - destruct (IH (S i) p' (mkEngine (worker e) true (S (sends e))) eq_refl) as (r & n & Heq & Hor).
    unfold mbind_ at 1. rewrite Heq. destruct Hor as [-> | [handles ->]]; eexists _, _; (split; [reflexivity|]); [by left|].
    right. eauto.
Qed.

Lemma generate_stopped p prompts params b : stopped (engine b) = true -> stream params = false ->
  refused (vllm_generate turns (p :: prompts) params) b.
Proof.
  intros Hs Hp. destruct (send_all_stopped params 0 p prompts (engine b) Hs) as (r & n & Hr & Hor).
  unfold refused, vllm_generate, on_engine, zoom, mbind_, mlift. rewrite Hp, Hr.
  destruct Hor as [-> | [handles ->]]; simpl; eexists _, _; (split; [reflexivity|done]).
Qed.

(** After [shutdown], which always succeeds, even twice, every call that needs the
    thread fails with a transient error that is never retried and leaves the backend as it
    was: nothing hangs, nothing is silently done and the model id stays. *)
Theorem after_shutdown_calls_fail (b0 : VllmBackend W) :
  let '(r, b) := vllm_shutdown turns b0 in
  r = Ok tt /\ stopped (engine b) = true /\ vllm_model_id b = vllm_model_id b0 /\
  (exists b', vllm_shutdown turns b = (Ok tt, b') /\ left_as b b') /\
  (forall model, refused (vllm_init content_id_of turns model) b) /\
  (forall p prompts params, stream params = false -> refused (vllm_generate turns (p :: prompts) params) b) /\
  (forall enabled, refused (vllm_set_train_mode turns enabled) b) /\
  (forall batch loss_scope, refused (vllm_forward_with_loss turns batch loss_scope) b) /\
  (forall grads opt, refused (vllm_optimizer_step turns grads opt) b) /\
  refused (vllm_save_weights turns temp_dir ulid) b.
Proof.
  destruct (vllm_shutdown turns b0) as [r b] eqn:E.
  assert (r = Ok tt /\ stopped (engine b) = true /\ vllm_model_id b = vllm_model_id b0) as (H1 & H2 & H3).
  { revert E. unfold vllm_shutdown, on_engine, zoom, mcatch, mbind_, send, mret.
    destruct (if stopped _ then _ else _) as [w [|]]; simpl; [by intros [= <- <-]|].
    destruct (work Shutdown w) as [u w']. by intros [= <- <-]. }
  repeat match goal with |- _ /\ _ => split; [try done|] end.
  - clear E. destruct (send_stopped Shutdown (engine b) H2) as (r' & Hr & _).
    eexists. split; [unfold vllm_shutdown, on_engine, zoom, mcatch, mbind_; rewrite Hr; reflexivity|done].
  - intros model. by apply refused_bind, call_stopped.
  - intros p prompts params Hp. by apply generate_stopped.
  - intros enabled. by apply call_stopped.
  - intros batch loss_scope. by apply call_stopped.
  - intros grads opt. by apply call_stopped.
  - by apply call_stopped.
Qed.
End shutdown_facts.

(** ** A model of Python for the examples: it answers every call *)
#[local] Instance toy_python : Python := {
  Obj := string;
  py_answer h c := match c with Call _ m (AStr p :: _) _ => Ok (m +:+ ":" +:+ p) | _ => Ok "" end;
  set_item kw k v := Ok (kw ++ [(k, v)]);
  extract_str o := Ok o;
  extract_u32 o := Ok 3%N;
  extract_u64 o := Ok 7%N;
  extract_f32 o := Ok (f32_of_N 1);
  cast_dict o := if decide (o = "generate_one_sync:bad") then Err "not a dict" else Ok o;
  dict_get o k := Ok (Some (if decide (k = "text") then o else "stop"));
  obj_get o k := Ok o;
}.
Definition toy_worker : Worker true PyWorker := vllm_worker (fun b => b) (fun _ => "") (Some "hf_x") true.
Definition toy_backend : VllmBackend PyWorker := mkBackend (mkEngine worker_new false 0) [] "".
(** Another holder generates in between. *)
Definition busy (k : nat) : Turn true := mkTurn [mkMessage (Generate "other" SamplingParams_default "req-0-0")] true.

Lemma generate_in_order_witness :
  (vllm_generate (WK := toy_worker) busy ["a"; "b"] SamplingParams_default toy_backend).1 =
    Ok [mkCompletion "generate_one_sync:a" "stop" 3 3; mkCompletion "generate_one_sync:b" "stop" 3 3] /\
  served (WK := toy_worker) busy SamplingParams_default 0 0 ["a"; "bad"; "b"] worker_new =
    [Ok (mkCompletion "generate_one_sync:a" "stop" 3 3); Err (py_to_core "not a dict");
     Ok (mkCompletion "generate_one_sync:b" "stop" 3 3)] /\
  length (served (WK := toy_worker) busy SamplingParams_default 0 0 ["a"; "bad"; "b"] worker_new) = 3.
Proof.
  split; [vm_compute; reflexivity|]. split; [vm_compute; reflexivity|].
  pose proof (generate_in_order (WK := toy_worker) busy ["a"; "bad"; "b"] SamplingParams_default toy_backend
    (fun k => eq_refl) eq_refl) as H.
  cbv zeta in H. destruct (vllm_generate _ _ _ _) as [r b']. exact (proj1 H).
Defined.

(** A forward pass without a switch imports the training module without the writes that
    make it deterministic. *)
Lemma forward_without_switch_skips_env : let w := (worker_main (WK := toy_worker) [mkMessage (ForwardWithLoss [] Full)] worker_new).1 in
  Import train_py ∈ history w /\ forall k v, SetEnv k v ∉ history w.
Proof. vm_compute. split; [left|]. intros k v H. repeat (inversion H as [|? ? ? H']; subst; clear H; rename H' into H). Qed.

(** Between two prompts of a batch nothing else is in flight in Python: each is one
    blocking call. *)
Lemma prompts_run_one_at_a_time :
  history (worker_main (WK := toy_worker) (batch_queue (fun _ => mkTurn [] true) SamplingParams_default 0 0 ["a"; "b"]) worker_new).1 =
  env_writes (Some "hf_x") ++ Import engine_py ::
  [Call engine_py "generate_one_sync" [AStr "a"; AStr "req-0-0"]
     [("temperature", AF32 (f32_of_N 1)); ("top_p", AF32 (f32_of_N 1)); ("top_k", AInt (-1)); ("max_tokens", AInt 16); ("stop", AStrs [])];
   Call engine_py "generate_one_sync" [AStr "b"; AStr "req-1-0"]
     [("temperature", AF32 (f32_of_N 1)); ("top_p", AF32 (f32_of_N 1)); ("top_k", AInt (-1)); ("max_tokens", AInt 16); ("stop", AStrs [])]].
Proof. vm_compute. reflexivity. Qed.
