(* ===== verification/Civil.v ===== *)
(** Calendar dates (rollout-cli/src/infer.rs): days since 1970-01-01 to a Gregorian date
    and the timestamps of output rows, with the calendar itself as the reference. *)
From stdpp Require Import base option list strings pretty.
From Stdlib Require Import ZArith.
From S2P Require Import Prelude.
#[local] Open Scope Z_scope.

(** ** The code *)
Definition as_i32 (z : Z) : Z := (z + 2 ^ 31) mod 2 ^ 32 - 2 ^ 31.
Definition as_u32 (z : Z) : Z := z mod 2 ^ 32.

Definition civil_from_days (days : Z) : Z * Z * Z :=
  let z := days + 719468 in
  let era := z / 146097 in
  let doe := z mod 146097 in
  let yoe := (doe - doe / 1460 + doe / 36524 - doe / 146096) / 365 in
  let year_civil := yoe + era * 400 in
  let doy := doe - (365 * yoe + yoe / 4 - yoe / 100) in
  let mp := (5 * doy + 2) / 153 in
  let day := doy - (153 * mp + 2) / 5 + 1 in
  let month := if decide (mp < 10) then mp + 3 else mp - 9 in
  let year_final := if decide (month <= 2) then year_civil + 1 else year_civil in
  (as_i32 year_final, as_u32 month, as_u32 day).

(** [{n:0w}] of a number that is not negative. *)
Definition pad (w : nat) (n : N) : string :=
  let s := pretty n in
  String.string_of_list_byte (replicate (w - String.length s) (Byte.x30)) +:+ s.

Definition format_unix_ms (unix_ms : N) : string :=
  let secs := (unix_ms / 1000)%N in
  let millis := (unix_ms `mod` 1000)%N in
  let days := Z.of_N (secs / 86400)%N in
  let rem := (secs `mod` 86400)%N in
  let hour := (rem / 3600)%N in
  let minute := (rem `mod` 3600 / 60)%N in
  let second := (rem `mod` 60)%N in
  let '(year, month, day) := civil_from_days days in
  pad 4 (Z.to_N year) +:+ "-" +:+ pad 2 (Z.to_N month) +:+ "-" +:+ pad 2 (Z.to_N day) +:+ "T" +:+
  pad 2 hour +:+ ":" +:+ pad 2 minute +:+ ":" +:+ pad 2 second +:+ "." +:+ pad 3 millis +:+ "Z".

(** ** The calendar *)
Definition leap (y : Z) : bool :=
  bool_decide (y mod 4 = 0) && (negb (bool_decide (y mod 100 = 0)) || bool_decide (y mod 400 = 0)).
Definition days_in_month (y m : Z) : Z :=
  if decide (m = 2) then (if leap y then 29 else 28)
  else if decide (m = 4 \/ m = 6 \/ m = 9 \/ m = 11) then 30 else 31.
Definition next_date (date : Z * Z * Z) : Z * Z * Z :=
  let '(y, m, d) := date in
  if decide (d < days_in_month y m) then (y, m, d + 1)
  else if decide (m < 12) then (y, m + 1, 1) else (y + 1, 1, 1).

(** ** Years that start in March *)

(** The day of the era its [y]-th year starts on. *)
Definition start (y : Z) : Z := 365 * y + y / 4 - y / 100 + y / 400.
Definition year_len (y : Z) : Z := if leap (y + 1) then 366 else 365.
Definition year_of (doe : Z) : Z := (doe - doe / 1460 + doe / 36524 - doe / 146096) / 365.
Definition month_day (doy : Z) : Z * Z :=
  let mp := (5 * doy + 2) / 153 in
  (if decide (mp < 10) then mp + 3 else mp - 9, doy - (153 * mp + 2) / 5 + 1).
Definition date_of (era y doy : Z) : Z * Z * Z :=
  let '(m, d) := month_day doy in ((if decide (m <= 2) then y + era * 400 + 1 else y + era * 400), m, d).

Lemma leap_era y k : leap (y + k * 400) = leap y.
Proof.
  unfold leap. replace ((y + k * 400) mod 4) with (y mod 4) by (replace (k * 400) with (k * 100 * 4) by lia; symmetry; apply Z.mod_add; lia).
  replace ((y + k * 400) mod 100) with (y mod 100) by (replace (k * 400) with (k * 4 * 100) by lia; symmetry; apply Z.mod_add; lia).
  by rewrite Z.mod_add.
Qed.

(** The years of one era, by evaluation. *)
Definition years : list Z := seqZ 0 400.
Lemma years_check : forallb (fun y =>
    bool_decide (start (y + 1) = start y + year_len y) &&
    bool_decide (year_of (start y) = y) && bool_decide (year_of (start (y + 1) - 1) = y)) years = true.
Proof. vm_compute. reflexivity. Qed.

Lemma year_facts y : 0 <= y < 400 ->
  start (y + 1) = start y + year_len y /\ year_of (start y) = y /\ year_of (start (y + 1) - 1) = y.
Proof.
  intros Hy. pose proof years_check as H. rewrite forallb_forall in H.
  specialize (H y). rewrite <- list_elem_of_In in H. specialize (H (proj2 (elem_of_seqZ 0 400 y) ltac:(lia))).
  rewrite !andb_true_iff, !bool_decide_eq_true in H. tauto.
Qed.

Lemma year_of_mono a b : 0 <= a <= b -> b < 146097 -> year_of a <= year_of b.
Proof. intros Hab Hb. unfold year_of. apply Z.div_le_mono; [lia|]. Z.to_euclidean_division_equations. lia. Qed.

Lemma year_of_spec y doe : 0 <= y < 400 -> start y <= doe < start (y + 1) -> year_of doe = y.
Proof.
  intros Hy Hd. destruct (year_facts y Hy) as (_ & H1 & H2).
  assert (0 <= start y) by (unfold start; Z.to_euclidean_division_equations; lia).
  assert (start (y + 1) <= 146097) by (unfold start; Z.to_euclidean_division_equations; lia).
  pose proof (year_of_mono (start y) doe ltac:(lia) ltac:(lia)).
  pose proof (year_of_mono doe (start (y + 1) - 1) ltac:(lia) ltac:(lia)). lia.
Qed.

(** Every day of an era is a day of one of its years. *)
Lemma year_exists doe : 0 <= doe < 146097 ->
  exists y, 0 <= y < 400 /\ start y <= doe < start (y + 1).
Proof.
  intros Hd. assert (forall n : nat, (n <= 400)%nat -> doe < start (Z.of_nat n) ->
    exists y, 0 <= y < 400 /\ start y <= doe < start (y + 1)) as H.
  { induction n as [|n IH]; intros Hn Hlt; [change (start (Z.of_nat 0)) with 0 in Hlt; lia|].
    destruct (decide (doe < start (Z.of_nat n))); [apply IH; lia|].
    exists (Z.of_nat n). rewrite Nat2Z.inj_succ in Hlt. unfold Z.succ in Hlt. lia. }
  apply (H 400%nat); [lia|]. change (start (Z.of_nat 400)) with 146097. lia.
Qed.

(** The code without its final casts. *)
Definition raw_civil (z : Z) : Z * Z * Z :=
  let doe := z mod 146097 in
  date_of (z / 146097) (year_of doe) (doe - (365 * year_of doe + year_of doe / 4 - year_of doe / 100)).

Lemma raw_civil_at era y doy : 0 <= y < 400 -> 0 <= doy < year_len y ->
  raw_civil (146097 * era + start y + doy) = date_of era y doy.
Proof.
  intros Hy Hd. destruct (year_facts y Hy) as (Hs & _ & _).
  assert (0 <= start y + doy < 146097) as Hdoe.
  { assert (0 <= start y) by (unfold start; Z.to_euclidean_division_equations; lia).
    assert (start (y + 1) <= 146097) by (unfold start; Z.to_euclidean_division_equations; lia). lia. }
  unfold raw_civil. replace (146097 * era + start y + doy) with (start y + doy + era * 146097) by lia.
  rewrite Z.mod_add, Z.div_add, Z.mod_small, Z.div_small, Z.add_0_l by lia.
  rewrite (year_of_spec y) by lia. f_equal.
  unfold start. replace (y / 400) with 0 by (symmetry; apply Z.div_small; lia). lia.
Qed.

(** The days of one year, by evaluation, in common and leap years. *)
Definition next_month_day (lp : bool) (md : Z * Z) : Z * Z :=
  let '(m, d) := md in
  let len := if decide (m = 2) then (if lp then 29 else 28)
             else if decide (m = 4 \/ m = 6 \/ m = 9 \/ m = 11) then 30 else 31 in
  if decide (d < len) then (m, d + 1) else if decide (m < 12) then (m + 1, 1) else (1, 1).

Lemma days_check : forallb (fun doy =>
  bool_decide (month_day (doy + 1) = next_month_day (bool_decide (doy = 364)) (month_day doy))) (seqZ 0 365) = true.
Proof. vm_compute. reflexivity. Qed.
Lemma leap_matters_in_february : forallb (fun doy =>
  bool_decide (next_month_day true (month_day doy) = next_month_day false (month_day doy)) || bool_decide (364 <= doy)) (seqZ 0 366) = true.
Proof. vm_compute. reflexivity. Qed.

Lemma next_month_day_step (lp : bool) doy : 0 <= doy < (if lp then 365 else 364) ->
  month_day (doy + 1) = next_month_day lp (month_day doy).
Proof.
  intros Hd. pose proof days_check as H. pose proof leap_matters_in_february as H'.
  rewrite forallb_forall in H, H'. specialize (H doy). specialize (H' doy).
  rewrite <- list_elem_of_In, elem_of_seqZ in H, H'.
  specialize (H ltac:(destruct lp; lia)). specialize (H' ltac:(destruct lp; lia)).
  rewrite bool_decide_eq_true in H. rewrite orb_true_iff, !bool_decide_eq_true in H'.
  rewrite H. destruct (decide (doy = 364)) as [Hl|Hl].
  - rewrite bool_decide_true by done. destruct lp; [done|lia].
  - rewrite bool_decide_false by done. destruct lp; [|done]. destruct H'; [congruence|lia].
Qed.

(** Equal tuples of equal integers. *)
Ltac pair_lia := repeat lazymatch goal with |- (_, _) = (_, _) => f_equal end; lia.

(** The date of a day of a March year, and its successor. *)
Lemma date_of_year era y doy : let '(m, d) := month_day doy in
  date_of era y doy = (y + era * 400 + (if decide (m <= 2) then 1 else 0), m, d).
Proof. unfold date_of. destruct (month_day doy) as [m d]. case_decide; pair_lia. Qed.

Lemma month_day_bounds doy : 0 <= doy < 366 -> let '(m, d) := month_day doy in
  1 <= m <= 12 /\ 1 <= d <= 31 /\ (m <= 2 <-> 306 <= doy).
Proof.
  intros Hd. unfold month_day. destruct (decide _) as [Hmp|Hmp]; Z.to_euclidean_division_equations; lia.
Qed.

Lemma next_within era y doy : 0 <= y < 400 -> 0 <= doy -> doy + 1 < year_len y ->
  next_date (date_of era y doy) = date_of era y (doy + 1).
Proof.
  intros Hy H0 Hd. unfold year_len in Hd.
  pose proof (next_month_day_step (leap (y + 1)) doy ltac:(destruct (leap (y + 1)); lia)) as Hn.
  pose proof (month_day_bounds doy ltac:(destruct (leap (y + 1)); lia)) as Hb.
  pose proof (month_day_bounds (doy + 1) ltac:(destruct (leap (y + 1)); lia)) as Hb'.
  pose proof (date_of_year era y doy) as E. pose proof (date_of_year era y (doy + 1)) as E'.
  destruct (month_day doy) as [m d], (month_day (doy + 1)) as [m' d']. rewrite E, E'. clear E E'.
  unfold next_month_day in Hn. unfold next_date, days_in_month.
  assert (m = 2 -> leap (y + era * 400 + (if decide (m <= 2) then 1 else 0)) = leap (y + 1)) as Hl.
  { intros ->. rewrite decide_True by lia. rewrite <- (leap_era (y + 1) era). f_equal. lia. }
  destruct (decide (m = 2)) as [Hm|Hm]; [rewrite (Hl Hm)|];
    repeat case_decide; injection Hn as -> ->; pair_lia.
Qed.

Lemma next_year era y : 0 <= y < 400 ->
  next_date (date_of era y (year_len y - 1)) = (y + 1 + era * 400, 3, 1).
Proof.
  intros Hy. assert (leap (y + era * 400 + 1) = leap (y + 1)) as Hl.
  { rewrite <- (leap_era (y + 1) era). f_equal. lia. }
  unfold year_len. destruct (leap (y + 1)) eqn:E.
  - change (date_of era y (366 - 1)) with (y + era * 400 + 1, 2, 29). unfold next_date, days_in_month. simpl. rewrite Hl.
    simpl. pair_lia.
  - change (date_of era y (365 - 1)) with (y + era * 400 + 1, 2, 28). unfold next_date, days_in_month. simpl. rewrite Hl.
    simpl. pair_lia.
Qed.

Lemma raw_civil_next z : raw_civil (z + 1) = next_date (raw_civil z).
Proof.
  destruct (year_exists (z mod 146097)) as (y & Hy & Hd); [by apply Z.mod_pos_bound|].
  destruct (year_facts y Hy) as (Hs & _ & _).
  set (era := z / 146097). set (doy := z mod 146097 - start y).
  assert (z = 146097 * era + start y + doy) as Hz by (unfold era, doy; pose proof (Z.div_mod z 146097); lia).
  assert (0 <= doy < year_len y) as Hdoy by (unfold doy; lia).
  rewrite Hz at 2. rewrite raw_civil_at by done.
  destruct (decide (doy + 1 < year_len y)).
  - rewrite next_within by lia. rewrite Hz. rewrite <- Z.add_assoc. by apply raw_civil_at; lia.
  - replace doy with (year_len y - 1) by lia. rewrite next_year by done.
    destruct (decide (y = 399)) as [->|].
    + replace (z + 1) with (146097 * (era + 1) + start 0 + 0) by (change (start 0) with 0; change (start (399 + 1)) with 146097 in Hs; lia).
      rewrite raw_civil_at by (change (year_len 0) with 365; lia). unfold date_of. simpl. pair_lia.
    + replace (z + 1) with (146097 * era + start (y + 1) + 0) by lia.
      rewrite raw_civil_at by (unfold year_len; destruct (leap (y + 1 + 1)); lia). unfold date_of. simpl. pair_lia.
Qed.

(** The casts keep every date a [u64] of milliseconds can name. *)
Definition max_days : Z := 2 ^ 64 / 86400000.

Lemma civil_from_days_raw days : 0 <= days <= max_days + 1 -> civil_from_days days = raw_civil (days + 719468).
Proof.
  intros Hd. change (max_days + 1) with 213503982335 in Hd. set (z := days + 719468).
  destruct (year_exists (z mod 146097)) as (y & Hy & Hdoe); [by apply Z.mod_pos_bound|].
  destruct (year_facts y Hy) as (Hs & _ & _).
  assert (z = 146097 * (z / 146097) + start y + (z mod 146097 - start y)) as Hz by (pose proof (Z.div_mod z 146097); lia).
  assert (0 <= z / 146097 <= 1461400) as He by (unfold z in *; Z.to_euclidean_division_equations; lia).
  pose proof (raw_civil_at (z / 146097) y (z mod 146097 - start y) Hy ltac:(lia)) as Hraw. rewrite <- Hz in Hraw.
  pose proof (date_of_year (z / 146097) y (z mod 146097 - start y)) as Hdate.
  pose proof (month_day_bounds (z mod 146097 - start y) ltac:(unfold year_len in Hs; destruct (leap (y + 1)); lia)) as Hb.
  destruct (month_day _) as [m d]. rewrite <- Hraw in Hdate.
  assert (civil_from_days days = let '(a, b, c) := raw_civil z in (as_i32 a, as_u32 b, as_u32 c)) as ->.
  { unfold civil_from_days, raw_civil, date_of, month_day, year_of. fold z. reflexivity. }
  rewrite Hdate. unfold as_i32, as_u32. case_decide; rewrite !Z.mod_small by lia; pair_lia.
Qed.

(** C32: The dates are those of the Gregorian calendar: day 0 is 1970-01-01 and the day
    after is the calendar's next date, leap years included, through the last day a
    millisecond count of 64 bits reaches; no cast cuts a year. *)
Theorem civil_from_days_is_the_calendar days : 0 <= days <= max_days ->
  civil_from_days 0 = (1970, 1, 1) /\
  civil_from_days (days + 1) = next_date (civil_from_days days).
Proof.
  intros Hd. split; [reflexivity|]. rewrite !civil_from_days_raw by lia.
  rewrite <- raw_civil_next. f_equal. lia.
Qed.

Lemma civil_from_days_is_the_calendar_witness :
  civil_from_days 19782 = (2024, 2, 29) /\ civil_from_days 19783 = (2024, 3, 1) /\
  civil_from_days (19782 + 1) = next_date (civil_from_days 19782).
Proof.
  split; [vm_compute; reflexivity|]. split; [vm_compute; reflexivity|].
  apply civil_from_days_is_the_calendar. split; vm_compute; congruence.
Defined.

Lemma format_unix_ms_epoch : format_unix_ms 0 = "1970-01-01T00:00:00.000Z".
Proof. vm_compute. reflexivity. Qed.
Lemma format_unix_ms_known : format_unix_ms 1704067200000 = "2024-01-01T00:00:00.000Z".
Proof. vm_compute. reflexivity. Qed.
