(* ===== verification/Infer.v ===== *)
(** [rollout infer batch] (rollout-cli/src/infer.rs and infer_config.rs, the
    configuration of rollout-runtime-batch/src/config.rs): validation, the input rows,
    the run id on disk, the choice of a backend, the run of the pool (Pool.v) over the
    batch runtime and the rows that are written. *)
From stdpp Require Import base option list gmap strings pretty.
From S2P Require Import Prelude.
From S2P Require Import Text.
From S2P Require Import Core.
From S2P Require Import Json.
From S2P Require Import Backend.
From S2P Require Import Storage.
From S2P Require Import ObjectStore.
From S2P Require Import Batch.
From S2P Require Import Pool.
From S2P Require Import Jsonl.
From S2P Require Import Training.
From S2P Require Import Vllm.
From S2P Require Import Civil.

Definition cfg_err (msg : string) : CoreError := Fatal (ConfigInvalid msg).

(** ** Configuration and flags *)
Record InferBatchConfig : Type := mkInferConfig {
  cfg_model : ModelRef; cfg_sampling : SamplingParams; input_glob : string; output_dir : fspath; workers_count : N;
}.
Record BatchArgs : Type := mkArgs { resume : option string; workers : option N; dry_run : bool }.

(** [load_from_file]: [read] and [parse] are the file system's and the TOML crate's. *)
Definition load_from_file (path : string) (read : result string string)
    (parse : string -> result string InferBatchConfig) : result CoreError InferBatchConfig :=
  match read with
  | Err e => Err (cfg_err ("read " +:+ path +:+ ": " +:+ e))
  | Ok text => match parse text with
               | Ok cfg => Ok cfg
               | Err e => Err (cfg_err ("parse " +:+ path +:+ ": " +:+ e))
               end
  end.

Definition validate (cfg : InferBatchConfig) : result CoreError unit :=
  if stream (cfg_sampling cfg) then Err (cfg_err "streaming generation is Phase 8 (INFER-01)")
  else if decide (Backend.max_tokens (cfg_sampling cfg) = 0)%N then Err (cfg_err "sampling.max_tokens must be > 0")
  else if decide (workers_count cfg < 1)%N then Err (cfg_err "workers.count must be >= 1")
  else if is_blank (input_glob cfg) then Err (cfg_err "input.glob must be non-empty")
  else Ok tt.

(** ** Inputs: the order of paths is that of their components *)
Inductive Component : Type := RootDir | CurDir | ParentDir | Normal (name : bytes).

Definition component_of (piece : bytes) : option Component :=
  if decide (piece = [] \/ piece = [x2e]) then None
  else if decide (piece = [x2e; x2e]) then Some ParentDir else Some (Normal piece).
(** A leading root or current directory is a component; other dots and empty pieces
    are not. *)
Definition components (path : bytes) : list Component :=
  let pieces := split (fun b => bool_decide (b = x2f)) path in
  match pieces with
  | [] :: _ :: _ => [RootDir]
  | [x2e] :: _ => [CurDir]
  | _ => []
  end ++ omap component_of pieces.

Fixpoint lex_cmp {A} (cmp : A -> A -> comparison) (l l' : list A) : comparison :=
  match l, l' with
  | [], [] => Eq
  | [], _ :: _ => Lt
  | _ :: _, [] => Gt
  | x :: t, x' :: t' => match cmp x x' with Eq => lex_cmp cmp t t' | c => c end
  end.
Definition byte_cmp (a b : byte) : comparison := (Byte.to_N a ?= Byte.to_N b)%N.
Definition rank (c : Component) : N := match c with RootDir => 0 | CurDir => 1 | ParentDir => 2 | Normal _ => 3 end.
Definition component_cmp (a b : Component) : comparison :=
  match a, b with
  | Normal n, Normal n' => lex_cmp byte_cmp n n'
  | _, _ => (rank a ?= rank b)%N
  end.
Definition path_order (a b : string) : bool :=
  match lex_cmp component_cmp (components (bytes_of a)) (components (bytes_of b)) with Gt => false | _ => true end.

Section inputs.
(** The glob crate: a pattern is refused, or its entries, some of them unreadable; what
    a path holds; serde_json at the input rows. *)
Context (glob : string -> result string (list (result string string))) (file_at : string -> text_file).
Context (parse_input : string -> result string JsonlInput).

Definition is_pattern (s : string) : bool :=
  existsb (fun b => bool_decide (b = x2a \/ b = x3f)) (bytes_of s).
Definition result_ok {E A} (r : result E A) : option A := match r with Ok a => Some a | Err _ => None end.

Definition input_files (pattern : string) : result CoreError (list string) :=
  let? files := if is_pattern pattern then
                  match glob pattern with
                  | Err e => Err (cfg_err ("glob " +:+ str_debug pattern +:+ ": " +:+ e))
                  | Ok entries => Ok (omap result_ok entries)
                  end
                else Ok [pattern] in
  Ok (sort_by path_order files).

Definition push_row (st : list InputItem * N) (r : JsonlInput) : list InputItem * N :=
  (st.1 ++ [Batch.mkInput st.2 (bytes_of (in_prompt r))], u64_add st.2 1).

Fixpoint files_loop (files : list string) (st : list InputItem * N) : result CoreError (list InputItem) :=
  match files with
  | [] => Ok st.1
  | path :: files' =>
      let? rows := read_jsonl parse_input path (file_at path) in
      files_loop files' (fold_left push_row rows st)
  end.

Definition glob_inputs (pattern : string) : result CoreError (list InputItem) :=
  let? files := input_files pattern in files_loop files ([], 0%N).
End inputs.

(** ** The token and the backend *)
Definition has_prefix_str (p s : string) : bool := has_prefix (bytes_of p) (bytes_of s).

(** [env]: the variables that are set and are text. *)
Definition read_hf_token_if_required (env : string -> option string) (model_uri : string) : option string :=
  if has_prefix_str "meta-llama/" model_uri || has_prefix_str "mistralai/" model_uri
  then env "ROLLOUT_SECRET_HF_TOKEN" else None.

(** The crate's two backend features. *)
Record Features : Type := mkFeatures { test_mock_backend : bool; vllm : bool }.
Inductive Selected (W : Type) : Type := SelMock (b : MockBackend) | SelVllm (b : VllmBackend W).
Arguments SelMock {W} b.
Arguments SelVllm {W} b.

Section select.
Context (content_id_of : bytes -> ContentId).
(** A thread spawned with a token: the error of the spawn, and the worker it runs. *)
Context {train : bool} {W : Type} {WK : option string -> Worker train W} (turns : nat -> Turn train) (w0 : W).
Context (spawned : option string) (ulid_text : string).

Definition select_backend (f : Features) (env : string -> option string) (model : ModelRef) (hf_token : option string)
  : result CoreError (Selected W) :=
  if test_mock_backend f && bool_decide (env "ROLLOUT_TEST_MOCK_BACKEND" = Some "1") then
    let '(r, b) := @init _ (mock_inference content_id_of) model mock_new in
    let? _ := r in Ok (SelMock b)
  else if vllm f then
    let? b := with_secret_token content_id_of spawned ("cli-" +:+ ulid_text) w0 in
    let '(r, b') := vllm_init (WK := WK hf_token) content_id_of turns model b in
    let? _ := r in Ok (SelVllm b')
  else Err (cfg_err "rollout-cli was built without the `vllm` feature; rebuild with --features vllm").

Definition selected_id (s : Selected W) : ContentId :=
  match s with
  | SelMock b => @model_id _ (mock_inference content_id_of) b
  | SelVllm b => vllm_model_id b
  end.
End select.

(** ** The pool *)
Section run_pool.
Context {W T : Type} {ST : Storage W T} {SL : StorageLaws W T} {SC : Codec SampleRecord}.
Context {Q : Type} {QU : Queue Q} {QL : QueueLaws Q}.
Context (content_id_of : bytes -> ContentId).
Context {O : Type} {OS : ObjectStore O content_id_of} {OL : ObjectStoreLaws O content_id_of}.
Context {UT : UlidText} (ulid_error : string -> string).
Abbreviation shared_world := (@Batch.World W Q O).

Record InferWorld : Type := mkInfer { shared : shared_world; disk : Fs }.
Definition on_shared {A} (m : M shared_world CoreError A) : M InferWorld CoreError A :=
  zoom shared (fun s w => mkInfer s (disk w)) m.
Definition on_disk {A} (m : M Fs CoreError A) : M InferWorld CoreError A :=
  zoom disk (fun d w => mkInfer (shared w) d) m.

(** *** The run id *)
Definition run_id_path (dir : fspath) : fspath := dir ++ ["run-id"].
Definition run_id_tmp (dir : fspath) : fspath := dir ++ ["run-id.tmp"].

Definition parse_run_id (s : string) : result string RunId :=
  match ulid_parse s with Some u => Ok u | None => Err (ulid_error s) end.

(** [tokio::fs::read_to_string]. *)
Definition read_to_string (conv : string -> CoreError) (p : fspath) : M Fs CoreError string :=
  let* contents := io conv (fun m => (m !! p, m)) (fun _ m => m) in
  mlift (match contents with
         | None => Err (conv "No such file or directory (os error 2)")
         | Some b => match from_utf8 b with
                     | Ok s => Ok s
                     | Err _ => Err (conv "stream did not contain valid UTF-8")
                     end
         end).

(** [try_exists(..).unwrap_or(false)]. *)
Definition exists_or_false (p : fspath) : M Fs CoreError bool := fun d =>
  let '(r, d') := try_exists internal p d in (Ok (match r with Ok b => b | Err _ => false end), d').

Definition persist_run_id (dir : fspath) (fresh : RunId) : M Fs CoreError RunId :=
  let* _ := fs_write (fun e => cfg_err ("write run-id: " +:+ e)) (run_id_tmp dir) (bytes_of (ulid_string fresh)) in
  let* _ := fs_rename (fun e => cfg_err ("rename run-id: " +:+ e)) (run_id_tmp dir) (run_id_path dir) in
  mret fresh.

Definition resolve_run_id (resume : option string) (dir : fspath) (dir_text : string) (fresh : RunId) : M Fs CoreError RunId :=
  match resume with
  | Some explicit =>
      mlift (match parse_run_id (str_trim explicit) with
             | Ok id => Ok id
             | Err e => Err (cfg_err ("invalid --resume " +:+ str_debug explicit +:+ ": " +:+ e))
             end)
  | None =>
      let* present := exists_or_false (run_id_path dir) in
      if (present : bool) then
        let* s := read_to_string (fun e => cfg_err ("read run-id: " +:+ e)) (run_id_path dir) in
        mlift (match parse_run_id (str_trim s) with
               | Ok id => Ok id
               | Err e => Err (cfg_err ("parse run-id " +:+ dir_text +:+ "/run-id: " +:+ e))
               end)
      else persist_run_id dir fresh
  end.

Context (worker_ids : nat -> WorkerId) (generate : bytes -> result string (list bytes)).

(** *** The rows *)
Context (cfg : InferBatchConfig) (sampling_json : json) (output_text : JsonlOutput -> result string string).

Definition out_of_bounds (idx : N) (len : nat) : CoreError :=
  internal ("Done record input_idx " +:+ pretty idx +:+ " out of bounds (len=" +:+ pretty len +:+ ")").

Definition emit_row (inputs : list InputItem) (model_cid : ContentId) (rows : list JsonlOutput) (rec : SampleRecord)
  : M shared_world CoreError (list JsonlOutput) :=
  match inputs !! N.to_nat (input_idx rec) with
  | None => mthrow (out_of_bounds (input_idx rec) (length inputs))
  | Some input =>
      match sample_state rec with
      | Done completion_blob finished_at_ms =>
          let* completion_bytes := on_objects (o_get completion_blob) in
          let* completion_text := mlift (match from_utf8 completion_bytes with
                                         | Ok s => Ok s
                                         | Err e => Err (internal ("completion blob not UTF-8: " +:+ e))
                                         end) in
          mret (rows ++ [mkOutput (ContentId_to_string (sample_rec_id rec)) (String.string_of_list_byte (item_prompt input))
                           completion_text sampling_json (uri (cfg_model cfg)) "stop" (ContentId_to_string model_cid)
                           (ContentId_to_string completion_blob) (format_unix_ms finished_at_ms) []])
      | _ => mret rows
      end
  end.

(** [ROLLOUT_TEST_STALE_AFTER_MS]. *)
Definition coord_stale_after (env : string -> option string) : N :=
  default DEFAULT_STALE_AFTER_MS (s ← env "ROLLOUT_TEST_STALE_AFTER_MS"; parse_u64 (chars s)).

(** What opening the three stores answers. *)
Record Opens : Type := mkOpens { open_storage : result CoreError unit; open_objects : result CoreError unit; open_queue : result CoreError unit }.

Definition run_pool (env : string -> option string) (resume : option string) (dir_text : string) (opens : Opens) (fresh : RunId)
    (scan_now : N) (params : bytes) (model_cid : ContentId) (inputs : list InputItem) (workers_count : N)
    (schedule : list PoolTurn) : M InferWorld CoreError (option (list JsonlOutput)) :=
  let* _ := on_disk (create_dir_all (fun e => cfg_err ("create output.dir: " +:+ e))) in
  let* _ := mlift (open_storage opens) in
  let* _ := mlift (open_objects opens) in
  let* _ := mlift (open_queue opens) in
  let* run_id := on_disk (resolve_run_id resume (output_dir cfg) dir_text fresh) in
  let* _ := on_shared (scan_and_enqueue content_id_of run_id (coord_stale_after env) scan_now inputs model_cid params) in
  let* st := on_shared (pool content_id_of worker_ids generate run_id workers_count schedule) in
  match first_error st with
  | Some e => mthrow e
  | None =>
      if forallb is_finished (slots st) then
        let* done := on_shared (on_store (collect_done_records run_id)) in
        let* rows := on_shared (mfold (emit_row inputs model_cid) [] done) in
        let* _ := on_disk (write_jsonl output_text (output_dir cfg ++ ["completions.jsonl"]) rows) in
        mret (Some rows)
      else mret None   (* the schedule ended before the workers did *)
  end.
End run_pool.

(** ** The command *)
Section run_infer_batch.
Context {W T : Type} {ST : Storage W T} {SC : Codec SampleRecord} {Q : Type} {QU : Queue Q}.
Context (content_id_of : bytes -> ContentId) {O : Type} {OS : ObjectStore O content_id_of} {UT : UlidText} (ulid_error : string -> string).
Context (glob : string -> result string (list (result string string))) (file_at : string -> text_file).
Context (parse_input : string -> result string JsonlInput) (output_text : JsonlOutput -> result string string).
Context (env : string -> option string) (features : Features).
(** The engine the backend would drive, and how a selected backend answers a prompt. *)
Context {V : Type} {WK : option string -> Worker false V} (turns : nat -> Turn false) (v0 : V) (spawned : option string).
Context (answers : Selected V -> bytes -> result string (list bytes)).
Context (worker_ids : nat -> WorkerId) (schedule : list PoolTurn).
(** serde_json and postcard of the sampling parameters. *)
Context (sampling_json : SamplingParams -> json) (sampling_bytes : SamplingParams -> bytes).

Inductive InferOutcome : Type :=
| DryRun (inputs : nat) (workers : N)
| Wrote (rows : option (list JsonlOutput)).

(** What is checked before anything is built: the effective workers and the inputs. *)
Definition plan_infer (args : BatchArgs) (cfg : InferBatchConfig) : result CoreError (N * list InputItem) :=
  let? _ := validate cfg in
  let effective_workers := default (workers_count cfg) (workers args) in
  if decide (effective_workers < 1)%N then Err (cfg_err "workers.count must be >= 1")
  else
    let? inputs := glob_inputs glob file_at parse_input (input_glob cfg) in
    if decide (inputs = []) then Err (cfg_err ("no input rows matched glob " +:+ str_debug (input_glob cfg)))
    else Ok (effective_workers, inputs).

Definition run_infer_batch (args : BatchArgs) (loaded : result CoreError InferBatchConfig) (dir_text ulid_text : string)
    (opens : Opens) (fresh : RunId) (scan_now : N) : M (@InferWorld W Q O) CoreError InferOutcome :=
  let* cfg := mlift loaded in
  let* '(effective_workers, inputs) := mlift (plan_infer args cfg) in
  let hf_token := read_hf_token_if_required env (uri (cfg_model cfg)) in
  if dry_run args then mret (DryRun (length inputs) effective_workers)
  else
    let* backend := mlift (select_backend (WK := WK) content_id_of turns v0 spawned ulid_text features env (cfg_model cfg) hf_token) in
    let* rows := run_pool content_id_of ulid_error worker_ids (answers backend) cfg (sampling_json (cfg_sampling cfg)) output_text
      env (resume args) dir_text opens fresh scan_now (sampling_bytes (cfg_sampling cfg)) (selected_id content_id_of backend)
      inputs effective_workers schedule in
    mret (Wrote rows).
End run_infer_batch.

(** ** The inputs are numbered in the order of their files and lines *)

(** A comparison that is a total order. *)
Record good_cmp {A} (cmp : A -> A -> comparison) : Prop := {
  cmp_sym a b : cmp b a = CompOpp (cmp a b);
  cmp_eq a b : cmp a b = Eq -> a = b;
  cmp_trans a b c : cmp a b = Lt -> cmp b c = Lt -> cmp a c = Lt;
}.

Lemma N_cmp_good : good_cmp N.compare.
Proof.
  split.
  - intros a b. apply N.compare_antisym.
  - intros a b. apply N.compare_eq.
  - intros a b c. rewrite !N.compare_lt_iff. lia.
Qed.

Lemma byte_cmp_good : good_cmp byte_cmp.
Proof.
  unfold byte_cmp. destruct N_cmp_good as [H1 H2 H3]. split.
  - intros a b. apply H1.
  - intros a b Hab. apply H2 in Hab. apply (f_equal Byte.of_N) in Hab. rewrite !Byte.of_to_N in Hab. congruence.
  - intros a b c. apply H3.
Qed.

Lemma cmp_refl {A} (cmp : A -> A -> comparison) a : good_cmp cmp -> cmp a a = Eq.
Proof. intros G. pose proof (cmp_sym cmp G a a) as H. by destruct (cmp a a). Qed.

Lemma lex_cmp_good {A} (cmp : A -> A -> comparison) : good_cmp cmp -> good_cmp (lex_cmp cmp).
Proof.
  intros G. split.
  - intros a. induction a as [|x a IH]; intros [|y b]; simpl; try done.
    rewrite (cmp_sym cmp G x y). destruct (cmp x y); simpl; auto.
  - intros a. induction a as [|x a IH]; intros [|y b]; simpl; try done.
    destruct (cmp x y) eqn:E; try done. intros H. by rewrite (cmp_eq cmp G x y E), (IH b H).
  - intros a. induction a as [|x a IH]; intros [|y b] [|z c]; simpl; try done.
    destruct (cmp x y) eqn:E1, (cmp y z) eqn:E2; try done.
    + rewrite (cmp_eq cmp G x y E1), E2. apply IH.
    + rewrite (cmp_eq cmp G x y E1), E2. done.
    + rewrite <- (cmp_eq cmp G y z E2), E1. done.
    + by rewrite (cmp_trans cmp G x y z E1 E2).
Qed.

Lemma component_cmp_good : good_cmp component_cmp.
Proof.
  pose proof (lex_cmp_good byte_cmp byte_cmp_good) as [H1 H2 H3]. split.
  - intros [] []; try reflexivity. apply H1.
  - intros [] []; try done. intros H. by rewrite (H2 _ _ H).
  - intros [] [] []; try done. apply H3.
Qed.

Lemma path_order_total a b : path_order a b = false -> path_order b a = true.
Proof.
  unfold path_order. rewrite (cmp_sym _ (lex_cmp_good _ component_cmp_good) (components (bytes_of a)) (components (bytes_of b))).
  by destruct (lex_cmp _ _ _).
Qed.
Lemma path_order_trans a b c : path_order a b = true -> path_order b c = true -> path_order a c = true.
Proof.
  pose proof (lex_cmp_good _ component_cmp_good) as G. unfold path_order.
  destruct (lex_cmp component_cmp (components (bytes_of a)) (components (bytes_of b))) eqn:E1; [| |done];
  destruct (lex_cmp component_cmp (components (bytes_of b)) (components (bytes_of c))) eqn:E2; try done; intros _ _.
  - by rewrite (cmp_eq _ G _ _ E1), E2.
  - by rewrite (cmp_eq _ G _ _ E1), E2.
  - by rewrite <- (cmp_eq _ G _ _ E2), E1.
  - by rewrite (cmp_trans _ G _ _ _ E1 E2).
Qed.

Section inputs_facts.
Context (glob : string -> result string (list (result string string))) (file_at : string -> text_file).
Context (parse_input : string -> result string JsonlInput).

(** The reference: the files' rows one after the other. *)
Fixpoint rows_of (files : list string) : result CoreError (list JsonlInput) :=
  match files with
  | [] => Ok []
  | path :: files' =>
      let? rows := read_jsonl parse_input path (file_at path) in
      let? rest := rows_of files' in Ok (rows ++ rest)
  end.
Definition number_from (k : nat) (rows : list JsonlInput) : list InputItem :=
  imap (fun i r => Batch.mkInput (wrap 64 (N.of_nat (k + i))) (bytes_of (in_prompt r))) rows.

Lemma next_ordinal n : u64_add (wrap 64 (N.of_nat n)) 1 = wrap 64 (N.of_nat (S n)).
Proof. unfold u64_add, wrap. rewrite N.Div0.add_mod_idemp_l. f_equal. lia. Qed.

Lemma number_from_app k a b : number_from k (a ++ b) = number_from k a ++ number_from (k + length a) b.
Proof.
  unfold number_from. rewrite imap_app. f_equal. apply imap_ext. intros i x _. simpl. do 3 f_equal. lia.
Qed.

Lemma push_rows k out rows :
  fold_left push_row rows (out, wrap 64 (N.of_nat k)) =
  (out ++ number_from k rows, wrap 64 (N.of_nat (k + length rows))).
Proof.
  revert k out. induction rows as [|r rows IH]; intros k out; cbn [fold_left length].
  { unfold number_from. simpl. by rewrite app_nil_r, Nat.add_0_r. }
  unfold push_row at 2. cbn [fst snd]. rewrite next_ordinal, IH, <- app_assoc. f_equal; [|do 2 f_equal; lia].
  f_equal. change (r :: rows) with ([r] ++ rows). rewrite number_from_app. unfold number_from at 2. simpl.
  by rewrite Nat.add_0_r, Nat.add_1_r.
Qed.

Lemma files_loop_spec files k out :
  files_loop file_at parse_input files (out, wrap 64 (N.of_nat k)) =
  let? rows := rows_of files in Ok (out ++ number_from k rows).
Proof.
  revert k out. induction files as [|f files IH]; intros k out; simpl; [by rewrite app_nil_r|].
  destruct (read_jsonl _ f _) as [rows|e]; simpl; [|done]. rewrite push_rows, IH.
  destruct (rows_of files) as [rest|e]; simpl; [|done]. by rewrite number_from_app, app_assoc.
Qed.

(** The inputs of a run are the rows of the files the pattern selects, or of the path
    itself, files in the order of their path components, numbered 0, 1, 2, ... across
    files (modulo 2^64); a pattern the glob crate refuses and the first file that cannot be
    read or parsed are the error. *)
Theorem glob_inputs_spec pattern :
  glob_inputs glob file_at parse_input pattern =
    match input_files glob pattern with
    | Err e => Err e
    | Ok files => let? rows := rows_of files in Ok (number_from 0 rows)
    end /\
  (forall files, input_files glob pattern = Ok files ->
     files ≡ₚ (if is_pattern pattern then match glob pattern with Ok es => omap result_ok es | Err _ => [] end else [pattern]) /\
     StronglySorted (fun a b => path_order a b = true) files).
Proof.
  split.
  - unfold glob_inputs. destruct (input_files glob pattern) as [files|e]; simpl; [|done].
    exact (files_loop_spec files 0 []).
  - unfold input_files. intros files.
    destruct (is_pattern pattern); [destruct (glob pattern) as [es|e]|]; simpl; try done; intros [= <-];
      (split; [apply sort_by_perm || reflexivity|]);
      first [apply sort_by_sorted; [exact path_order_total|exact path_order_trans] | repeat constructor].
Qed.
End inputs_facts.

(** ** The run id *)
Section run_id_facts.
Context {UT : UlidText} (ulid_error : string -> string).
(** The crate prints identifiers in printable characters. *)
Context (ulid_plain : forall u, plain (ulid_string u)).

Lemma run_id_tmp_ne dir : run_id_tmp dir <> run_id_path dir.
Proof. unfold run_id_tmp, run_id_path. intros H. by apply app_inj_tail in H as [_ ?]. Qed.

Lemma parse_printed u : parse_run_id ulid_error (str_trim (ulid_string u)) = Ok u.
Proof. unfold parse_run_id. by rewrite str_trim_plain, ulid_parse_string. Qed.

(** No run of the command, however its disk fails, leaves a partial identifier. *)
Lemma resolve_run_id_atomic explicit dir dir_text fresh d :
  wp (resolve_run_id ulid_error explicit dir dir_text fresh) (fun _ d' =>
    files d' !! run_id_path dir = files d !! run_id_path dir \/
    files d' !! run_id_path dir = Some (bytes_of (ulid_string fresh))) d.
Proof.
  pose proof (run_id_tmp_ne dir) as Hne.
  unfold resolve_run_id. destruct explicit as [e|]; [by apply wp_lift; left|].
  apply wp_bind. unfold exists_or_false, wp at 1.
  assert (wp (try_exists internal (run_id_path dir)) (fun _ d' => files d' = files d) d) as He.
  { unfold try_exists. by apply io_spec. }
  unfold wp in He. destruct (try_exists _ _ d) as [r d1]. simpl in He |- *.
  destruct (match r with Ok b => b | Err _ => false end).
  - unfold read_to_string. apply wp_bind, wp_bind. apply io_spec; simpl; intros; [|left; congruence].
    apply wp_lift. repeat case_match; try apply wp_lift; left; congruence.
  - unfold persist_run_id, fs_write, fs_rename. apply wp_bind, io_spec; simpl.
    + intros d2 H2. apply wp_bind, io_spec; simpl.
      * intros d3 H3. apply wp_ret. right. by rewrite H3, H2, !lookup_insert_eq.
      * intros e partial d3 H3. left. rewrite H3, H2, lookup_insert_ne, He; done.
    + intros e partial d2 H2. left. rewrite H2, lookup_insert_ne, He; done.
Qed.

(** A run keeps its identifier.  On a disk that does not fail: [--resume] decides
    alone and writes nothing; without it the identifier on disk decides, and where there
    is none the fresh one is persisted; and every later start without [--resume] in the
    same directory, whatever it would mint, resolves to the same run. *)
Theorem resolve_run_id_spec explicit dir dir_text fresh d : fs_faults d = [] ->
  let '(r, d') := resolve_run_id ulid_error explicit dir dir_text fresh d in
  match explicit with
  | Some e => d' = d /\ forall id, r = Ok id <-> ulid_parse (str_trim e) = Some id
  | None =>
      match files d !! run_id_path dir with
      | Some b => d' = d /\ forall id, r = Ok id <-> exists s, from_utf8 b = Ok s /\ ulid_parse (str_trim s) = Some id
      | None => r = Ok fresh /\
          files d' = <[run_id_path dir := bytes_of (ulid_string fresh)]> (delete (run_id_tmp dir) (files d))
      end /\
      forall id fresh', r = Ok id -> resolve_run_id ulid_error None dir dir_text fresh' d' = (Ok id, d')
  end.
Proof.
  intros Hf. pose proof (run_id_tmp_ne dir) as Hne. destruct d as [m fl]. simpl in Hf. subst fl.
  destruct explicit as [e|].
  { unfold resolve_run_id, mlift, parse_run_id. split; [done|]. intros id. destruct (ulid_parse _) as [u|]; split; congruence. }
  assert (forall m' fresh', resolve_run_id ulid_error None dir dir_text fresh' (mkFs m' []) =
    match m' !! run_id_path dir with
    | Some b => (match from_utf8 b with
                 | Ok s => match parse_run_id ulid_error (str_trim s) with
                           | Ok id => Ok id
                           | Err e => Err (cfg_err ("parse run-id " +:+ dir_text +:+ "/run-id: " +:+ e))
                           end
                 | Err _ => Err (cfg_err ("read run-id: " +:+ "stream did not contain valid UTF-8"))
                 end, mkFs m' [])
    | None => (Ok fresh', mkFs (<[run_id_path dir := bytes_of (ulid_string fresh')]> (delete (run_id_tmp dir) m')) [])
    end) as Hr.
  { intros m' fresh'. unfold resolve_run_id, mbind_ at 1, exists_or_false, try_exists, io. simpl.
    destruct (m' !! run_id_path dir) as [b|] eqn:E; simpl.
    - unfold read_to_string, mbind_, io. simpl. rewrite E. unfold mlift. by destruct (from_utf8 b).
    - unfold persist_run_id, mbind_, fs_write, fs_rename, io, mret. simpl. rewrite lookup_insert_eq.
      by rewrite delete_insert_eq. }
  rewrite Hr. cbn [files]. destruct (m !! run_id_path dir) as [b|] eqn:E.
  - split.
    + split; [done|]. intros id. unfold parse_run_id. destruct (from_utf8 b) as [s|e]; [|naive_solver].
      destruct (ulid_parse (str_trim s)) as [u|] eqn:Eu; naive_solver.
    + intros id fresh' Hid. rewrite Hr, E. by rewrite Hid.
  - split; [done|]. intros id fresh' [= <-]. rewrite Hr. cbn [files]. rewrite lookup_insert_eq.
    rewrite from_utf8_plain, parse_printed by done. done.
Qed.
End run_id_facts.

(** ** What a run leaves behind *)
Section output_facts.
Context {W T : Type} {ST : Storage W T} {SL : StorageLaws W T} {SC : Codec SampleRecord}.
Context {Q : Type} {QU : Queue Q} {QL : QueueLaws Q}.
Context (content_id_of : bytes -> ContentId).
Context {O : Type} {OS : ObjectStore O content_id_of} {OL : ObjectStoreLaws O content_id_of}.
Context {UT : UlidText} (ulid_error : string -> string).
Context (worker_ids : nat -> WorkerId) (generate : bytes -> result string (list bytes)).
Context (cfg : InferBatchConfig) (sampling_json : json) (output_text : JsonlOutput -> result string string).
Abbreviation shared_world := (Batch.World (W := W) (Q := Q) (O := O)).

(** The object store stays one. *)
Definition objects_valid (w w' : shared_world) : Prop := o_valid (b_objects w) -> o_valid (b_objects w').
#[local] Instance objects_valid_preorder : PreOrder objects_valid.
Proof. split; [intros w Hv; exact Hv|]. intros w1 w2 w3 H1 H2 Hv. by apply H2, H1. Qed.
















End output_facts.

(** ** Examples *)
Section infer_examples.
#[local] Existing Instance bits_codec.
#[local] Existing Instance unary_ulids.

(** A digest that tells the prompts of the examples apart: in a sample's preimage the
    prompt follows the version and the 32 bytes of the model. *)
Definition prompt_hash (b : bytes) : ContentId := replicate 32 (default x00 (b !! 33)).
Definition blob_hash (b : bytes) : ContentId := if decide (length b <= 33) then tiny_hash b else prompt_hash b.
Definition small_cfg : InferBatchConfig := mkInferConfig (mkModel "m" None None) SamplingParams_default "in.jsonl" ["out"] 1.
Definition all_open : Opens := mkOpens (Ok tt) (Ok tt) (Ok tt).
Definition small_world : @InferWorld Mem.World (N * list (Ulid * bytes)) (gmap ContentId bytes) :=
  mkInfer w_start (mkFs ∅ []).
Definition one_worker (n : nat) : list PoolTurn := (fun k => mkPoolTurn 0 (N.of_nat k)) <$> seq 2 n.
Definition run_small (inputs : list InputItem) :=
  run_pool blob_hash (fun s => s) (fun _ => 7%N) echo small_cfg (JString "p") (fun row => Ok (out_prompt row +:+ ">" +:+ completion row))
    (fun _ => None) None "out" all_open 5 1 [] (replicate 32 x00) inputs 1 (one_worker 18).

Lemma ones_plain n : plain (ones n).
Proof. induction n as [|n IH]; [constructor|]. constructor; [vm_compute; split; congruence|exact IH]. Qed.

Lemma resolve_run_id_spec_witness :
  let '(r, d') := resolve_run_id (fun s => s) None ["out"] "out" 3 (mkFs ∅ []) in
  r = Ok 3%N /\ resolve_run_id (fun s => s) None ["out"] "out" 9 d' = (Ok 3%N, d').
Proof.
  pose proof (resolve_run_id_spec (fun s => s) (fun u => ones_plain (N.to_nat u)) None ["out"] "out" 3 (mkFs ∅ []) eq_refl) as H.
  destruct (resolve_run_id _ None _ _ 3 _) as [r d'] eqn:E. destruct H as [_ H].
  assert (r = Ok 3%N) as Hr by (apply (f_equal fst) in E; vm_compute in E; symmetry; exact E).
  split; [exact Hr|]. exact (H 3%N 9%N Hr).
Defined.

Lemma glob_inputs_spec_witness :
  glob_inputs (fun _ => Ok [Ok "d/b"; Err "denied"; Ok "d//a"]) (fun p => Ok [Ok p; Ok " "]) (fun l => Ok (Jsonl.mkInput None l [])) "d/*" =
    Ok [Batch.mkInput 0 (bytes_of "d//a"); Batch.mkInput 1 (bytes_of "d/b")] /\
  StronglySorted (fun a b => path_order a b = true) ["d//a"; "d/b"].
Proof.
  split; [vm_compute; reflexivity|].
  apply (proj2 (glob_inputs_spec (fun _ => Ok [Ok "d/b"; Err "denied"; Ok "d//a"]) (fun p => Ok [Ok p; Ok " "])
    (fun l => Ok (Jsonl.mkInput None l [])) "d/*") ["d//a"; "d/b"]).
  vm_compute. reflexivity.
Defined.


(** The run id outlives the inputs: invoked again in the same directory after the input
    at an ordinal changed, the command writes the old sample's completion beside the new
    prompt, and once more for the new sample. *)
Lemma edited_input_takes_old_completion :
  let w1 := (run_small [Batch.mkInput 0 [x61]] small_world).2 in
  match (run_small [Batch.mkInput 0 [x62]] w1).1 with
  | Ok (Some rows) => (fun row => (out_prompt row, completion row)) <$> rows = [("b", "b"); ("b", "a")]
  | _ => False
  end.
Proof. vm_compute. reflexivity. Qed.
End infer_examples.
