(* ===== verification/Commands.v ===== *)
(** The commands over training, snapshots and evaluation (rollout-cli/src/train.rs,
    snapshot.rs and eval.rs, the [RunConfig] of rollout-core/src/config/mod.rs): what each
    checks before it starts, which stores it opens and what it leaves in them. *)
From stdpp Require Import base option list gmap strings pretty functions.
From S2P Require Import Prelude.
From S2P Require Import Text.
From S2P Require Import Float.
From S2P Require Import Core.
From S2P Require Import Json.
From S2P Require Import Backend.
From S2P Require Import Storage.
From S2P Require Import Embedded.
From S2P Require Import ObjectStore.
From S2P Require Import WorkItem.
From S2P Require Import LocalQueue.
From S2P Require Import Snapshots.
From S2P Require Import EvalSuites.
From S2P Require Import EvalJob.
From S2P Require Import EvalRun.
From S2P Require Import Jsonl.
From S2P Require Import Training.
From S2P Require Import Vllm.
From S2P Require Import Infer.

(** ** The run's configuration *)
Record RunMetadata : Type := mkMetadata { run_name : option string; tags : list string }.
Inductive StorageConfig : Type := EmbeddedAt (path : string) | PostgresAt (url : string).
Record PpoSettings : Type := mkPpo { kl_coef_init : option f64 }.
Inductive AlgorithmConfig : Type := Sft (s : SftSettings) | Rm (s : RmSettings) | Ppo (s : PpoSettings).
(** [cloud] is the configuration Cloud.v checks; no command here looks at it. *)
Record RunConfig (C : Type) : Type := mkRunConfig {
  schema_version : N; run_metadata : RunMetadata; storage_config : StorageConfig; algorithm : AlgorithmConfig; cloud : C;
}.
Arguments algorithm {C} r.

(** ** Paths, by their components *)
Abbreviation cpath := (list Component).
#[global] Instance Component_eq_dec : EqDecision Component.
Proof. solve_decision. Defined.

Definition path_of (s : string) : cpath := components (bytes_of s).
(** [parent]: nothing above a root or an empty path. *)
Definition parent_dir (p : cpath) : option cpath :=
  match last p with
  | None | Some RootDir => None
  | Some _ => Some (take (pred (length p)) p)
  end.
Definition work_dir (config_path : string) : cpath := default [CurDir] (parent_dir (path_of config_path)).
Definition join_name (dir : cpath) (name : string) : cpath := dir ++ [Normal (bytes_of name)].

(** ** The process: the databases it holds open, what their files hold, the blobs *)
Record CliWorld (W O : Type) : Type := mkCli { held : list cpath; dbs : cpath -> W; objects : O }.
Arguments mkCli {W O} held dbs objects.
Arguments held {W O} c.
Arguments dbs {W O} c.
Arguments objects {W O} c.

Section storage_handles.
Context {W O : Type}.
(** [redb::Database::create] when the process already holds some files open. *)
Context (refuses : list cpath -> cpath -> option string).

(** [EmbeddedStorage::open(p)], the rest of the function that owns the handle, and the
    drop that closes the file. *)
Definition with_storage {A} (p : cpath) (m : M (CliWorld W O) failure A) : M (CliWorld W O) failure A := fun w =>
  match refuses (held w) p with
  | Some e => (Err (Failure (internal ("Database::create: " +:+ e))), w)
  | None => let '(r, w') := m (mkCli (p :: held w) (dbs w) (objects w)) in (r, mkCli (held w) (dbs w') (objects w'))
  end.

Definition on_db {A} (p : cpath) (m : M W CoreError A) : M (CliWorld W O) failure A :=
  lift_err (zoom (fun w => dbs w p) (fun s w => mkCli (held w) (<[p := s]> (dbs w)) (objects w)) m).

(** [FsObjectStore::open]: it makes the root directory. *)
Definition open_objects (mkdir : result string unit) : M (CliWorld W O) failure unit :=
  mlift (match mkdir with Ok _ => Ok tt | Err e => Err (Failure (internal e)) end).

Definition fail {A} (r : result CoreError A) : M (CliWorld W O) failure A :=
  mlift (match r with Ok a => Ok a | Err e => Err (Failure e) end).

(** [ContentId::from_str] and the message its error goes into. *)
Definition parse_content_id (what : string) (s : string) : M (CliWorld W O) failure ContentId :=
  mlift (match ContentId_from_str (bytes_of s) with
         | Panic m => Err (Unwound m)
         | Value (Ok id) => Ok id
         | Value (Err e) => Err (Failure (cfg_err ("invalid " +:+ what +:+ " " +:+ str_debug s +:+ ": " +:+ e)))
         end).
End storage_handles.

(** ** [rollout train] *)
Record TrainArgs : Type := mkTrainArgs { train_config : string; train_resume : option string; train_dry_run : bool }.

Definition validate_sft (s : SftSettings) : result CoreError unit :=
  if decide (sft_minibatch s = 0)%N then Err (cfg_err "algorithm.sft.minibatch_size must be >= 1")
  else if lr_not_positive (sft_optimizer s) then Err (cfg_err "algorithm.sft.optimizer.lr must be > 0")
  else Ok tt.
Definition validate_rm (s : RmSettings) : result CoreError unit :=
  if decide (rm_minibatch s = 0)%N then Err (cfg_err "algorithm.rm.minibatch_size must be >= 1")
  else if lr_not_positive (rm_optimizer s) then Err (cfg_err "algorithm.rm.optimizer.lr must be > 0")
  else Ok tt.

Definition validate_dataset_exists (exists_at : string -> bool) (d : DatasetRef) : result CoreError unit :=
  match d with
  | JsonlPath path => if exists_at path then Ok tt else Err (cfg_err ("dataset not found: " +:+ path))
  | OtherDataset s => Err (cfg_err ("DatasetRef::Other(" +:+ s +:+ ") lands in Phase 7 (HARNESS-*)"))
  end.
Definition describe_dataset (d : DatasetRef) : string :=
  match d with JsonlPath path => path | OtherDataset s => "other(" +:+ s +:+ ")" end.
Definition algorithm_kind_name (a : AlgorithmConfig) : string :=
  match a with Sft _ => "sft" | Rm _ => "rm" | Ppo _ => "ppo" end.

Definition violation_debug (v : ConfigViolation) : string :=
  "ConfigViolation { locator: " +:+ str_debug (locator v) +:+ ", message: " +:+ str_debug (message v) +:+ " }".
Definition violations_debug (vs : list ConfigViolation) : string :=
  "[" +:+ String.concat ", " (violation_debug <$> vs) +:+ "]".

Definition load_config {C} (path : string) (read : result string string) (parse : string -> result string C) : result CoreError C :=
  match read with
  | Err e => Err (cfg_err ("read " +:+ path +:+ ": " +:+ e))
  | Ok text => match parse text with
               | Ok c => Ok c
               | Err e => Err (cfg_err ("parse TOML " +:+ path +:+ ": " +:+ e))
               end
  end.

(** The crate's two features that bring a backend to train with. *)
Record TrainFeatures : Type := mkTrainFeatures { train_mock : bool; train_vllm : bool }.

Section selected.
Context (content_id_of : bytes -> ContentId) (postcard : list f32 -> result string bytes).
Context {V : Type} {WK : option string -> Worker true V} (turns : nat -> Turn true) (temp_dir : string) (ulid : nat -> string).
Context (hf_token : option string).

Definition on_selected {A} (mock : M MockBackend CoreError A) (vllm : M (VllmBackend V) CoreError A)
  : M (Selected V) CoreError A := fun s =>
  match s with
  | SelMock b => let '(r, b') := mock b in (r, SelMock b')
  | SelVllm b => let '(r, b') := vllm b in (r, SelVllm b')
  end.

(** [Arc<dyn TrainableBackend>]. *)
#[local] Instance mock_b : TrainableBackend MockBackend := mock_trainable content_id_of postcard.
#[local] Instance vllm_b : TrainableBackend (VllmBackend V) := @vllm_trainable V (WK hf_token) turns temp_dir ulid.
Definition selected_trainable : TrainableBackend (Selected V) := {|
  set_train_mode enabled := on_selected (set_train_mode enabled) (set_train_mode enabled);
  forward_with_loss batch scope := on_selected (forward_with_loss batch scope) (forward_with_loss batch scope);
  optimizer_step grads opt := on_selected (optimizer_step grads opt) (optimizer_step grads opt);
  save_weights := on_selected save_weights save_weights;
  load_weights id := on_selected (load_weights id) (load_weights id);
|}.
End selected.

Section train.
Context {W T : Type} {ST : Storage W T} {JC : Codec Snapshot} {JT : JsonText} {O C V : Type}.
Context (content_id_of : bytes -> ContentId) (postcard : list f32 -> result string bytes).
Context {WK : option string -> Worker true V} (turns : nat -> Turn true) (v0 : V) (spawned : option string) (ulid_text : string).
Context (temp_dir : string) (ulid : nat -> string).
Context (refuses : list cpath -> cpath -> option string) (mkdir : result string unit).
(** What is at a path: the configuration's text, whether a dataset exists and its lines. *)
Context (read : string -> result string string) (parse : string -> result string (RunConfig C)).
Context (exists_at : string -> bool) (data_files : string -> text_file).
Context (parse_raw : string -> result string RawRow) (parse_pair : string -> result string PairRow).
Context (features : TrainFeatures) (env : string -> option string).

Definition train_token : option string := env "ROLLOUT_SECRET_HF_TOKEN".
#[local] Instance train_worker : Worker true V := WK train_token.
#[local] Instance train_backend : TrainableBackend (Selected V) :=
  selected_trainable (WK := WK) content_id_of postcard turns temp_dir ulid train_token.

Definition select_train_backend (uri : string) : result CoreError (Selected V) :=
  if train_mock features && bool_decide (env "ROLLOUT_TEST_MOCK_BACKEND" = Some "1") then Ok (SelMock (new_train 42))
  else if train_vllm features then
    let? b := with_secret_token content_id_of spawned ("cli-train-" +:+ ulid_text) v0 in
    let '(r, b') := vllm_set_train_mode turns true (set_train_model_uri uri b) in
    let? _ := r in Ok (SelVllm b')
  else if train_mock features then
    Err (cfg_err "no train backend selected — set ROLLOUT_TEST_MOCK_BACKEND=1 to use the mock, or rebuild with --features train for vllm")
  else
    Err (cfg_err "rollout-cli was built without `train` or `test-mock-backend`; rebuild with --features train (production) or --features test-mock-backend (CI/tests)").

(** A command's answer: the line it prints. *)
Inductive TrainReply : Type := DryRunOk (line : string) | Outcome (o : RunOutcome) (final : TrainWorld (Selected V)).
Abbreviation process := (CliWorld W O).

(** [load_snapshot] opens the storage again. *)
Definition load_snapshot (snapshot_id_hex config_path : string) : M process failure Snapshot :=
  let* target := parse_content_id "--resume" snapshot_id_hex in
  let storage_path := join_name (work_dir config_path) "rollout.db" in
  with_storage refuses storage_path (
    let* found := on_db storage_path (read_meta target) in
    match found with
    | Some snap => mret snap
    | None => mthrow (Failure (cfg_err ("snapshot not found: " +:+ snapshot_id_hex)))
    end).

(** [build_deps] and what holds its handles: the algorithm, to the end of the command. *)
Definition with_deps {A} (config_path : string) (m : M process failure A) : M process failure A :=
  with_storage refuses (join_name (work_dir config_path) "rollout.db") (let* _ := open_objects mkdir in m).

(** The command from the choice of a backend on, with the methods of its algorithm. *)
Definition train_with (args : TrainArgs) (uri : string) (plan : result (list ConfigViolation) unit)
    (restore : Snapshot -> M (TrainWorld (Selected V)) CoreError unit) (run : M (TrainWorld (Selected V)) CoreError RunOutcome)
  : M process failure TrainReply :=
  let* backend := fail (select_train_backend uri) in
  with_deps (train_config args) (
    let* _ := fail (match plan with
                    | Ok _ => Ok tt
                    | Err vs => Err (cfg_err ("validate_plan failed: " +:+ violations_debug vs))
                    end) in
    let* algo := match train_resume args with
                 | None => mret (mkTrain backend 0)
                 | Some id =>
                     let* snap := load_snapshot id (train_config args) in
                     let '(r, algo) := restore snap (mkTrain backend 0) in
                     let* _ := fail r in mret algo
                 end in
    let '(r, final) := run algo in
    let* outcome := fail r in mret (Outcome outcome final)).

(** The token is made for this run and nothing cancels it. *)
Definition never_cancelled (look : nat) : bool := false.

Definition run_train_sft (args : TrainArgs) : M process failure TrainReply :=
  let* config := fail (load_config (train_config args) (read (train_config args)) parse) in
  match algorithm config with
  | Sft s =>
      let* _ := fail (validate_sft s) in
      let* _ := fail (validate_dataset_exists exists_at (sft_dataset s)) in
      if train_dry_run args then
        mret (DryRunOk ("dry-run OK: algorithm=sft model=" +:+ uri (sft_model s) +:+ " minibatch=" +:+ pretty (sft_minibatch s)
                        +:+ " dataset=" +:+ describe_dataset (sft_dataset s)))
      else train_with args (uri (sft_model s)) (sft_validate_plan s) sft_snapshot_restore
             (sft_run parse_raw data_files never_cancelled s)
  | other => mthrow (Failure (cfg_err ("expected [algorithm] kind = " +:+ str_debug "sft" +:+ ", got " +:+ algorithm_kind_name other)))
  end.

Definition run_train_rm (args : TrainArgs) : M process failure TrainReply :=
  let* config := fail (load_config (train_config args) (read (train_config args)) parse) in
  match algorithm config with
  | Rm s =>
      let* _ := fail (validate_rm s) in
      let* _ := fail (validate_dataset_exists exists_at (rm_dataset s)) in
      if train_dry_run args then
        mret (DryRunOk ("dry-run OK: algorithm=rm model=" +:+ uri (rm_model s) +:+ " minibatch=" +:+ pretty (rm_minibatch s)
                        +:+ " dataset=" +:+ describe_dataset (rm_dataset s)))
      else train_with args (uri (rm_model s)) (rm_validate_plan s) rm_snapshot_restore
             (rm_run parse_pair data_files never_cancelled s)
  | other => mthrow (Failure (cfg_err ("expected [algorithm] kind = " +:+ str_debug "rm" +:+ ", got " +:+ algorithm_kind_name other)))
  end.

Inductive TrainAction : Type := TrainSft (a : TrainArgs) | TrainRm (a : TrainArgs).
Definition train_dispatch (action : TrainAction) : M process failure TrainReply :=
  match action with TrainSft a => run_train_sft a | TrainRm a => run_train_rm a end.
End train.
Arguments DryRunOk {V} line.
Arguments Outcome {V} o final.

(** ** [rollout snapshot] *)
Record SnapshotListArgs : Type := mkListArgs { list_storage : string; list_run : option string; list_kind : option string; list_limit : option N }.
Record SnapshotShowArgs : Type := mkShowArgs { show_storage : string; show_id : string }.
Record SnapshotPruneArgs : Type := mkPruneArgs { prune_storage : string; prune_run : string; prune_keep_last : N; prune_keep_labeled : bool }.

Definition parse_kind (s : string) : result CoreError SnapshotKind :=
  if decide (s = "train_state") then Ok Snapshots.TrainState
  else if decide (s = "buffer") then Ok Buffer
  else if decide (s = "process") then Ok Process
  else if decide (s = "episodic_memory") then Ok EpisodicMemory
  else Err (cfg_err ("unknown snapshot kind: " +:+ s)).

(** [opt.map(f).transpose()]. *)
Definition transpose {A B} (f : A -> result CoreError B) (o : option A) : result CoreError (option B) :=
  match o with None => Ok None | Some a => let? b := f a in Ok (Some b) end.

Section snapshot_commands.
Context {W T : Type} {ST : Storage W T} {JC : Codec Snapshot} {UT : UlidText} (ulid_error : string -> string) {O : Type}.
Context (refuses : list cpath -> cpath -> option string) (mkdir : result string unit).
(** serde_json's pretty printer. *)
Context (json_list : list Snapshot -> result string string) (json_one : Snapshot -> result string string).

Definition json_err (e : string) : CoreError := internal ("json: " +:+ e).
Definition printed (r : result string string) : result CoreError string :=
  match r with Ok s => Ok s | Err e => Err (json_err e) end.

Definition parse_cli_run_id (s : string) : result CoreError RunId :=
  match parse_run_id ulid_error (str_trim s) with
  | Ok id => Ok id
  | Err e => Err (cfg_err ("invalid run id " +:+ str_debug s +:+ ": " +:+ e))
  end.

(** [open_snapper]: both stores, held to the end of the command. *)
Definition with_snapper {A} (storage_path : string) (m : M (CliWorld W O) failure A) : M (CliWorld W O) failure A :=
  with_storage refuses (path_of storage_path) (let* _ := open_objects mkdir in m).

Definition run_snapshot_list (a : SnapshotListArgs) : M (CliWorld W O) failure string :=
  with_snapper (list_storage a) (
    let* run := fail (transpose parse_cli_run_id (list_run a)) in
    let* kind := fail (transpose parse_kind (list_kind a)) in
    let* snapshots := on_db (path_of (list_storage a)) (list_snapshots (mkFilter run kind None (N.to_nat <$> list_limit a))) in
    fail (printed (json_list snapshots))).

Definition run_snapshot_show (a : SnapshotShowArgs) : M (CliWorld W O) failure string :=
  with_snapper (show_storage a) (
    let* want := parse_content_id "snapshot id" (show_id a) in
    let* found := on_db (path_of (show_storage a)) (read_meta want) in
    match found with
    | Some snap => fail (printed (json_one snap))
    | None => mthrow (Failure (cfg_err ("snapshot not found: " +:+ show_id a)))
    end).

Definition run_snapshot_prune (now : N) (a : SnapshotPruneArgs) : M (CliWorld W O) failure string :=
  with_snapper (prune_storage a) (
    let* run := fail (parse_cli_run_id (prune_run a)) in
    let* deleted := on_db (path_of (prune_storage a))
                      (apply_prune run (mkRetention (N.to_nat (prune_keep_last a)) (prune_keep_labeled a) None) now) in
    mret ("pruned " +:+ pretty (N.of_nat deleted) +:+ " snapshots")).

Inductive SnapshotAction : Type := List (a : SnapshotListArgs) | Show (a : SnapshotShowArgs) | Prune (a : SnapshotPruneArgs).
Definition snapshot_dispatch (now : N) (action : SnapshotAction) : M (CliWorld W O) failure string :=
  match action with
  | List a => run_snapshot_list a
  | Show a => run_snapshot_show a
  | Prune a => run_snapshot_prune now a
  end.
End snapshot_commands.

(** ** [rollout eval] *)
Record EvalCmd : Type := mkEvalCmd {
  eval_suite : Suite; checkpoint : string; eval_storage : string; eval_seed : N; eval_dry_run : bool;
}.

Section eval_command.
Context {W T : Type} {ST : Storage W T} {JC : Codec Snapshot} {WC : Codec WorkItemRecord} {UT : UlidText}.
Context (content_id_of : bytes -> ContentId) {O : Type} {OS : ObjectStore O content_id_of}.
Context {EC : Codec ExampleResult} {TC : Codec (string * string * N * string)} {RC : Codec EvalReport} {RRC : Codec EvalReportRecord}.
Context {U : Unicode} (json_parses : list char -> bool) (find_iter : string -> list string).
Context (refuses : list cpath -> cpath -> option string) (mkdir : result string unit).
(** [tokio::fs::try_exists] at the storage path; the dataset the loader finds. *)
Context (db_exists : result string bool) (dataset : Suite -> result CoreError Dataset).
Context (run_id : RunId) (worker : WorkerId) (started completed : N) (json_report : EvalReport -> result string string).

Definition lookup_snapshot (storage_path : string) (want : ContentId) : M (CliWorld W O) failure (option Snapshot) :=
  if match db_exists with Ok b => b | Err _ => false end then
    with_storage refuses (path_of storage_path) (on_db (path_of storage_path) (read_meta want))
  else mret None.

Definition is_tar (p : SnapshotPart) : bool := bool_decide (role p = "tar").
(** The first part with the role, or else the first. *)
Definition weights_part (s : Snapshot) : option SnapshotPart :=
  match List.find is_tar (Snapshots.parts s) with Some p => Some p | None => list.head (Snapshots.parts s) end.

Definition resolve_checkpoint (text storage_path : string) : M (CliWorld W O) failure ModelRef :=
  let* target := parse_content_id "--checkpoint" text in
  let* found := lookup_snapshot storage_path target in
  match found with
  | Some snap =>
      match weights_part snap with
      | Some w => mret (mkModel ("snapshot:" +:+ ContentId_to_string (snap_id snap)) (Some (content w)) None)
      | None => mthrow (Failure (cfg_err "snapshot has no parts"))
      end
  | None => mret (mkModel ("checkpoint:" +:+ text) (Some target) None)
  end.

Definition on_job {A} (p : cpath) (m : M (JobWorld W O) failure A) : M (CliWorld W O) failure A :=
  zoom (fun w => mkJob (dbs w p) (objects w))
       (fun j w => mkCli (held w) (<[p := j_store j]> (dbs w)) (j_objects j)) m.

(** The harness is made over [MockEvalBackend::new()]: no preferences, no answers. *)
Definition MockEvalBackend_new : MockEvalBackend := EvalSuites.mkBackend ∅ ∅.

Inductive EvalReply : Type := EvalDryRunOk (line : string) | EvalReported (r : EvalReport) (json : string).

Definition run_eval (cmd : EvalCmd) : M (CliWorld W O) failure EvalReply :=
  let* model := resolve_checkpoint (checkpoint cmd) (eval_storage cmd) in
  if eval_dry_run cmd then
    mret (EvalDryRunOk ("dry-run OK: suite=" +:+ suite_name (eval_suite cmd) +:+ " checkpoint=" +:+ checkpoint cmd
            +:+ " content_id=" +:+ from_option ContentId_to_string "<none>" (model_content model)))
  else
    with_storage refuses (path_of (eval_storage cmd)) (
      let* _ := open_objects mkdir in
      let* _ := on_db (path_of (eval_storage cmd)) (LocalQueue.open tt) in
      let* report := on_job (path_of (eval_storage cmd))
                       (run content_id_of json_parses find_iter MockEvalBackend_new (eval_suite cmd) (dataset (eval_suite cmd))
                          model (mkCtx (eval_seed cmd)) run_id worker started completed) in
      let* json := fail (match json_report report with
                         | Ok s => Ok s
                         | Err e => Err (internal ("serialize EvalReport: " +:+ e))
                         end) in
      mret (EvalReported report json)).
End eval_command.

(** ** What the commands do *)
Section storage_facts.
Context {W O : Type} (refuses : list cpath -> cpath -> option string).
(** redb: a file this process already has open is not opened again ([DatabaseAlreadyOpen]). *)
Hypothesis already_open : forall opened p, p ∈ opened -> is_Some (refuses opened p).

Lemma with_storage_held {A} p (m : M (CliWorld W O) failure A) w : p ∈ held w ->
  exists e, with_storage refuses p m w = (Err e, w).
Proof. intros Hp. destruct (already_open _ _ Hp) as [e He]. unfold with_storage. rewrite He. by eexists. Qed.
End storage_facts.

Lemma fail_bind {W O A B} (r : result CoreError A) (k : A -> M (CliWorld W O) failure B) w :
  (let* x := fail r in k x) w = match r with Ok x => k x w | Err e => (Err (Failure e), w) end.
Proof. by destruct r. Qed.

Lemma CliWorld_eta {W O} (w : CliWorld W O) : mkCli (held w) (dbs w) (objects w) = w.
Proof. by destruct w. Qed.

Lemma stop_at_never i k : stop_at never_cancelled i k = k.
Proof. revert i. induction k as [|k IH]; intros i; [done|]. simpl. by rewrite IH. Qed.

Lemma train_loop_never {B} {TB : TrainableBackend B} step_once i k (w : TrainWorld B) :
  train_loop never_cancelled step_once i k w = (let* _ := mrepeat k step_once in mret Completed) w.
Proof. rewrite train_loop_repeat, stop_at_never. by rewrite decide_True by done. Qed.

Section train_facts.
Context {W T : Type} {ST : Storage W T} {JC : Codec Snapshot} {JT : JsonText} {O C V : Type}.
Context (content_id_of : bytes -> ContentId) (postcard : list f32 -> result string bytes).
Context {WK : option string -> Worker true V} (turns : nat -> Turn true) (v0 : V) (spawned : option string) (ulid_text : string).
Context (temp_dir : string) (ulid : nat -> string).
Context (refuses : list cpath -> cpath -> option string) (mkdir : result string unit).
Context (read : string -> result string string) (parse : string -> result string (RunConfig C)).
Context (exists_at : string -> bool) (data_files : string -> text_file).
Context (parse_raw : string -> result string RawRow) (parse_pair : string -> result string PairRow).
Context (features : TrainFeatures) (env : string -> option string).
Abbreviation process := (CliWorld W O).
Abbreviation train := (train_dispatch (T := T) content_id_of postcard (WK := WK) turns v0 spawned ulid_text temp_dir ulid
  refuses mkdir read parse exists_at data_files parse_raw parse_pair features env).
Abbreviation selected_for := (select_train_backend content_id_of (WK := WK) turns v0 spawned ulid_text features env).
#[local] Instance train_backend_here : TrainableBackend (Selected V) :=
  selected_trainable (WK := WK) content_id_of postcard turns temp_dir ulid (train_token env).

Definition action_args (a : TrainAction) : TrainArgs := match a with TrainSft a | TrainRm a => a end.
Definition storage_of (a : TrainArgs) : cpath := join_name (work_dir (train_config a)) "rollout.db".

Lemma train_with_fresh args uri plan restore run (w : process) : train_resume args = None ->
  train_with (T := T) content_id_of (WK := WK) turns v0 spawned ulid_text refuses mkdir features env args uri plan restore run w =
  (match selected_for uri with
   | Err e => Err (Failure e)
   | Ok b =>
       match refuses (held w) (storage_of args), mkdir, plan with
       | Some e, _, _ => Err (Failure (internal ("Database::create: " +:+ e)))
       | None, Err e, _ => Err (Failure (internal e))
       | None, Ok _, Err vs => Err (Failure (cfg_err ("validate_plan failed: " +:+ violations_debug vs)))
       | None, Ok _, Ok _ => match (run (mkTrain b 0)) with
                             | (Ok o, final) => Ok (Outcome o final)
                             | (Err e, _) => Err (Failure e)
                             end
       end
   end, w).
Proof.
  intros Hr. unfold train_with, with_deps, with_storage, open_objects, fail, mbind_, mlift. fold (storage_of args). rewrite Hr.
  destruct (selected_for uri) as [b|e]; [|done].
  destruct (refuses _ _) as [e|]; [done|]. destruct mkdir as [u|e], plan as [u'|vs]; cbn; rewrite ?CliWorld_eta; try done.
  destruct (run (mkTrain b 0)) as [[o|e] final]; cbn; by rewrite CliWorld_eta.
Qed.

Lemma train_with_resume args uri plan restore run (w : process) id
    (already_open : forall opened p, p ∈ opened -> is_Some (refuses opened p)) : train_resume args = Some id ->
  exists e, train_with (T := T) content_id_of (WK := WK) turns v0 spawned ulid_text refuses mkdir features env args uri plan restore run w = (Err e, w).
Proof.
  intros Hr. unfold train_with, with_deps, with_storage at 1, open_objects, fail, mbind_ at 1, mlift. fold (storage_of args). rewrite Hr.
  destruct (selected_for uri) as [b|e]; [|by eexists].
  destruct (refuses (held w) _) as [e|]; [by eexists|]. unfold mbind_ at 1.
  destruct mkdir as [u|e]; cbn; [|rewrite CliWorld_eta; by eexists]. unfold mbind_ at 1.
  destruct plan as [u'|vs]; cbn; [|rewrite CliWorld_eta; by eexists].
  set (w1 := mkCli _ _ _). unfold mbind_ at 1.
  assert (exists e, load_snapshot refuses id (train_config args) w1 = (Err e, w1)) as [e He].
  { unfold load_snapshot, parse_content_id, mbind_, mlift.
    destruct (ContentId_from_str _) as [[target|e]|m]; [|by eexists|by eexists].
    apply with_storage_held; [done|]. apply list_elem_of_here. }
  unfold mbind_ at 1. rewrite He. eexists. cbn. by rewrite CliWorld_eta.
Qed.

(** [rollout train --resume] cannot succeed, with either algorithm, any backend
    and any snapshot: the command holds the run's database open for its algorithm when
    it opens the same file again to look the snapshot up, and a database that is open
    is not opened twice.  It fails before the first step and leaves everything as it was. *)
Theorem train_resume_never_succeeds action id (w : process)
    (already_open : forall opened p, p ∈ opened -> is_Some (refuses opened p))
    (Hresume : train_resume (action_args action) = Some id) (Hdry : train_dry_run (action_args action) = false) :
  exists e, train action w = (Err e, w).
Proof.
  destruct action as [args|args]; cbn [action_args train_dispatch] in *;
    unfold run_train_sft, run_train_rm; rewrite Hdry; unfold mbind_ at 1, fail at 1, mlift at 1;
    (destruct (load_config _ _ _) as [c|e]; [|by eexists]); destruct (algorithm c) as [s|s|s]; try (by eexists);
    unfold mbind_ at 1, fail at 1, mlift at 1;
    [destruct (validate_sft s); [|by eexists]|destruct (validate_rm s); [|by eexists]];
    unfold mbind_ at 1, fail at 1, mlift at 1; (destruct (validate_dataset_exists _ _); [|by eexists]);
    by eapply train_with_resume.
Qed.

Lemma validate_sft_ok s : validate_sft s = Ok tt <-> sft_validate_plan s = Ok tt.
Proof.
  rewrite sft_validate_plan_spec. unfold validate_sft.
  destruct (decide _), (lr_not_positive _); naive_solver.
Qed.
Lemma validate_rm_ok s : rm_validate_plan s = Ok tt <-> validate_rm s = Ok tt /\ head s = BradleyTerry.
Proof.
  unfold rm_validate_plan, validate_rm, verdict, violation_if.
  destruct (head s), (lr_not_positive _); simpl; repeat case_bool_decide; repeat case_decide; naive_solver.
Qed.
Lemma unit_ok {E} (r : result E unit) : is_ok r = true <-> r = Ok tt.
Proof. destruct r as [[]|e]; naive_solver. Qed.

(** What a run needs: its stores, and a dataset that is there and parses. *)
Definition stores_open (a : TrainArgs) (w : process) : Prop := refuses (held w) (storage_of a) = None /\ mkdir = Ok tt.
Definition dataset_there (d : DatasetRef) : Prop := exists path, d = JsonlPath path /\ exists_at path = true.
Definition dataset_loads {R} (load : string -> text_file -> result CoreError R) (d : DatasetRef) : Prop :=
  exists path rows, d = JsonlPath path /\ load path (data_files path) = Ok rows.

Lemma dataset_there_ok d : validate_dataset_exists exists_at d = Ok tt <-> dataset_there d.
Proof.
  unfold dataset_there. destruct d as [path|name]; simpl; [|split; [done|by intros (? & [=] & _)]].
  destruct (exists_at path) eqn:E; split; intros H; try done; [by exists path|].
  destruct H as (p & [= <-] & Hp). congruence.
Qed.

Lemma sft_run_never s (w : TrainWorld (Selected V)) o final :
  sft_run parse_raw data_files never_cancelled s w = (Ok o, final) <->
  o = Completed /\ dataset_loads (load_jsonl parse_raw) (sft_dataset s) /\
  mrepeat (steps_of (sft_budget s)) (sft_step_once s) w = (Ok tt, final).
Proof.
  unfold sft_run, dataset_loads.
  destruct (sft_dataset s) as [path|name]; [|split; [done|by intros (_ & (? & ? & [=] & _) & _)]].
  unfold mbind_ at 1, mlift. destruct (load_jsonl _ path _) as [rows|e] eqn:El;
    [|split; [done|intros (_ & (p & rows & [= <-] & H) & _); congruence]].
  rewrite train_loop_never. unfold mbind_, mret. destruct (mrepeat _ _ w) as [[[]|e] w']; split.
  - intros [= <- <-]. split; [done|]. split; [by exists path, rows|done].
  - intros (-> & _ & [= ->]). done.
  - done.
  - by intros (_ & _ & [=]).
Qed.
Lemma rm_run_never s (w : TrainWorld (Selected V)) o final :
  rm_run parse_pair data_files never_cancelled s w = (Ok o, final) <->
  o = Completed /\ dataset_loads (load_pairs parse_pair) (rm_dataset s) /\
  mrepeat (steps_of (rm_budget s)) (rm_step_once s) w = (Ok tt, final).
Proof.
  unfold rm_run, dataset_loads.
  destruct (rm_dataset s) as [path|name]; [|split; [done|by intros (_ & (? & ? & [=] & _) & _)]].
  unfold mbind_ at 1, mlift. destruct (load_pairs _ path _) as [rows|e] eqn:El;
    [|split; [done|intros (_ & (p & rows & [= <-] & H) & _); congruence]].
  rewrite train_loop_never. unfold mbind_, mret. destruct (mrepeat _ _ w) as [[[]|e] w']; split.
  - intros [= <- <-]. split; [done|]. split; [by exists path, rows|done].
  - intros (-> & _ & [= ->]). done.
  - done.
  - by intros (_ & _ & [=]).
Qed.

Lemma train_with_outcome args uri plan restore run (w : process) o final : train_resume args = None ->
  let out := train_with (T := T) content_id_of (WK := WK) turns v0 spawned ulid_text refuses mkdir features env args uri plan restore run w in
  out.2 = w /\
  (out.1 = Ok (Outcome o final) <-> stores_open args w /\ plan = Ok tt /\
     exists b, selected_for uri = Ok b /\ run (mkTrain b 0) = (Ok o, final)).
Proof.
  intros Hr. cbv zeta. rewrite train_with_fresh by done. split; [done|]. cbn [fst]. unfold stores_open.
  destruct (selected_for uri) as [b|e]; [|split; [done|by intros (_ & _ & b & [=] & _)]].
  destruct (refuses _ _) as [e|]; [split; [done|by intros ([[=] _] & _)]|].
  destruct mkdir as [[]|e]; [|split; [done|by intros ([_ [=]] & _)]].
  destruct plan as [[]|vs]; [|split; [done|by intros (_ & [=] & _)]].
  destruct (run (mkTrain b 0)) as [[o'|e] w'] eqn:Er; split.
  - intros [= -> ->]. repeat split. by exists b.
  - intros (_ & _ & b' & [= <-] & H). rewrite Er in H. by injection H as -> ->.
  - done.
  - intros (_ & _ & b' & [= <-] & H). by rewrite Er in H.
Qed.

(** C29: What [rollout train] does without [--resume]: it reports an outcome exactly when
    the configuration parses and passes the checks, the dataset is there and parses, a
    backend is selected, the stores open and every step of the budget succeeds; the
    outcome is then always [Completed], after exactly the budget's steps on that backend.
    It leaves the database and the blobs as they were: the trained state it ends in
    ([final]) is neither stored nor snapshotted. *)
Theorem train_runs_its_budget action (w : process) o final
    (Hresume : train_resume (action_args action) = None) (Hdry : train_dry_run (action_args action) = false) :
  let a := action_args action in
  (train action w).2 = w /\
  ((train action w).1 = Ok (Outcome o final) <->
   o = Completed /\ stores_open a w /\ exists c b, load_config (train_config a) (read (train_config a)) parse = Ok c /\
     match action, algorithm c with
     | TrainSft _, Sft s =>
         sft_validate_plan s = Ok tt /\ dataset_there (sft_dataset s) /\ dataset_loads (load_jsonl parse_raw) (sft_dataset s) /\
         selected_for (uri (sft_model s)) = Ok b /\
         mrepeat (steps_of (sft_budget s)) (sft_step_once s) (mkTrain b 0) = (Ok tt, final)
     | TrainRm _, Rm s =>
         rm_validate_plan s = Ok tt /\ dataset_there (rm_dataset s) /\ dataset_loads (load_pairs parse_pair) (rm_dataset s) /\
         selected_for (uri (rm_model s)) = Ok b /\
         mrepeat (steps_of (rm_budget s)) (rm_step_once s) (mkTrain b 0) = (Ok tt, final)
     | _, _ => False
     end).
Proof.
  destruct action as [args|args]; cbn [action_args train_dispatch] in *; cbv zeta;
    unfold run_train_sft, run_train_rm; rewrite Hdry, fail_bind;
    (destruct (load_config _ _ _) as [c|e]; [|split; [done|split; [done|by intros (_ & _ & c' & b & [=] & _)]]]);
    destruct (algorithm c) as [s|s|s] eqn:Ea; try (split; [done|split; [done|];
      intros (_ & _ & c' & b & [= <-] & H); by rewrite Ea in H]); rewrite fail_bind.
  - destruct (validate_sft s) as [[]|e] eqn:Hv.
    2:{ split; [done|]. split; [done|]. intros (_ & _ & c' & b & [= <-] & H). rewrite Ea in H. destruct H as [H _].
        apply validate_sft_ok in H. congruence. }
    rewrite fail_bind. destruct (validate_dataset_exists _ _) as [[]|e] eqn:Hd.
    2:{ split; [done|]. split; [done|]. intros (_ & _ & c' & b & [= <-] & H). rewrite Ea in H. destruct H as (_ & H & _).
        apply dataset_there_ok in H. congruence. }
    destruct (train_with_outcome args (uri (sft_model s)) (sft_validate_plan s) sft_snapshot_restore
                (sft_run parse_raw data_files never_cancelled s) w o final Hresume) as [H1 H2]. split; [exact H1|].
    rewrite H2. apply validate_sft_ok in Hv. apply dataset_there_ok in Hd. split.
    + intros (Ho & Hp & b & Hb & Hr). apply sft_run_never in Hr as (-> & Hl & Hr). split; [done|]. split; [done|]. exists c, b. by rewrite Ea.
    + intros (-> & Ho & c' & b & [= <-] & H). rewrite Ea in H. destruct H as (Hp & _ & Hl & Hb & Hr).
      split; [done|]. split; [done|]. exists b. split; [done|]. by apply sft_run_never.
  - destruct (validate_rm s) as [[]|e] eqn:Hv.
    2:{ split; [done|]. split; [done|]. intros (_ & _ & c' & b & [= <-] & H). rewrite Ea in H. destruct H as [H _].
        apply validate_rm_ok in H as [H _]. congruence. }
    rewrite fail_bind. destruct (validate_dataset_exists _ _) as [[]|e] eqn:Hd.
    2:{ split; [done|]. split; [done|]. intros (_ & _ & c' & b & [= <-] & H). rewrite Ea in H. destruct H as (_ & H & _).
        apply dataset_there_ok in H. congruence. }
    destruct (train_with_outcome args (uri (rm_model s)) (rm_validate_plan s) rm_snapshot_restore
                (rm_run parse_pair data_files never_cancelled s) w o final Hresume) as [H1 H2]. split; [exact H1|].
    rewrite H2. apply dataset_there_ok in Hd. split.
    + intros (Ho & Hp & b & Hb & Hr). apply rm_run_never in Hr as (-> & Hl & Hr). split; [done|]. split; [done|]. exists c, b. by rewrite Ea.
    + intros (-> & Ho & c' & b & [= <-] & H). rewrite Ea in H. destruct H as (Hp & _ & Hl & Hb & Hr).
      split; [done|]. split; [done|]. exists b. split; [done|]. by apply rm_run_never.
Qed.
(** A dry run opens no store and selects no backend: it succeeds exactly when the
    configuration parses, is of the command's algorithm and passes the checks, and the
    dataset is there, and it leaves everything as it was. *)
Theorem train_dry_run_checks action (w : process) (Hdry : train_dry_run (action_args action) = true) :
  let a := action_args action in
  (train action w).2 = w /\
  (is_ok (train action w).1 = true <-> exists c, load_config (train_config a) (read (train_config a)) parse = Ok c /\
     match action, algorithm c with
     | TrainSft _, Sft s => sft_validate_plan s = Ok tt /\ dataset_there (sft_dataset s)
     | TrainRm _, Rm s => validate_rm s = Ok tt /\ dataset_there (rm_dataset s)
     | _, _ => False
     end).
Proof.
  destruct action as [args|args]; cbn [action_args train_dispatch] in *; cbv zeta;
    unfold run_train_sft, run_train_rm; rewrite Hdry, fail_bind;
    (destruct (load_config _ _ _) as [c|e]; [|split; [done|split; [done|by intros (c & [=] & _)]]]);
    destruct (algorithm c) as [s|s|s] eqn:Ea; try (split; [done|split; [done|];
      intros (c' & [= <-] & H); by rewrite Ea in H]); rewrite fail_bind.
  - pose proof (validate_sft_ok s) as Hv. pose proof (dataset_there_ok (sft_dataset s)) as Hd.
    destruct (validate_sft s) as [[]|e].
    + rewrite fail_bind. destruct (validate_dataset_exists _ _) as [[]|e]; (split; [done|split; [intros H|done || intros (c' & [= <-] & H)]]).
      * exists c. rewrite Ea. tauto.
      * done.
      * rewrite Ea in H. by destruct H as [_ H%Hd].
    + split; [done|]. split; [done|]. intros (c' & [= <-] & H). rewrite Ea in H. by destruct H as [H%Hv _].
  - pose proof (dataset_there_ok (rm_dataset s)) as Hd. destruct (validate_rm s) as [[]|e] eqn:Hv.
    + rewrite fail_bind. destruct (validate_dataset_exists _ _) as [[]|e]; (split; [done|split; [intros H|done || intros (c' & [= <-] & H)]]).
      * exists c. rewrite Ea. tauto.
      * done.
      * rewrite Ea in H. by destruct H as [_ H%Hd].
    + split; [done|]. split; [done|]. intros (c' & [= <-] & H). rewrite Ea in H. destruct H as [H _]. congruence.
Qed.
End train_facts.

(** ** Looking things up without changing them *)
Section lookup_facts.
Context {W T : Type} {ST : Storage W T} {SL : StorageLaws W T} {WS : WildcardScan W T} {JC : Codec Snapshot} {O : Type}.
Abbreviation process := (CliWorld W O).
Context (refuses : list cpath -> cpath -> option string).

(** The process as far as a reader can tell: the same handles, rows and blobs. *)
Definition same_process (w w' : process) : Prop :=
  held w' = held w /\ objects w' = objects w /\ forall p, contents (dbs w' p) = contents (dbs w p) /\ (healthy (dbs w p) -> healthy (dbs w' p)).
#[global] Instance same_process_preorder : PreOrder same_process.
Proof.
  split.
  - intros w. by repeat split.
  - intros w1 w2 w3 (H1 & H2 & H3) (G1 & G2 & G3). split; [congruence|]. split; [congruence|].
    intros p. destruct (H3 p), (G3 p). split; [congruence|auto].
Qed.

Lemma wp_on_db {A} p (m : M W CoreError A) (Q : result CoreError A -> W -> Prop) w :
  wp m (fun r s => same (dbs w p) s /\ Q r s) (dbs w p) ->
  wp (on_db p m) (fun r w' => same_process w w' /\ exists r0, Q r0 (dbs w' p) /\
    r = match r0 with Ok a => Ok a | Err e => Err (Failure e) end) w.
Proof.
  intros H. apply wp_lift_err, wp_zoom. eapply wp_mono; [exact H|]. intros r s [Hs Hq]; cbn [dbs held objects].
  split.
  - split; [done|]. split; [done|]. intros q. cbn [dbs]. destruct (decide (q = p)) as [->|Hne].
    + rewrite fn_lookup_insert. by destruct Hs as (? & _ & ?).
    + by rewrite fn_lookup_insert_ne.
  - exists r. split; [by rewrite fn_lookup_insert|done].
Qed.

Lemma wp_with_storage {A} p (m : M process failure A) (Q : result failure A -> process -> Prop) w :
  match refuses (held w) p with
  | Some e => Q (Err (Failure (internal ("Database::create: " +:+ e)))) w
  | None => wp m (fun r w' => Q r (mkCli (held w) (dbs w') (objects w'))) (mkCli (p :: held w) (dbs w) (objects w))
  end -> wp (with_storage refuses p m) Q w.
Proof.
  unfold wp, with_storage. destruct (refuses _ _) as [e|]; [done|]. by destruct (m _) as [r w'].
Qed.

(** A snapshot of the database's file with the id, or the news that it holds none. *)
Definition stored_snapshot (w : process) (p : cpath) (id : ContentId) (found : option Snapshot) : Prop :=
  match found with
  | Some snap => snap_id snap = id /\ exists k bs, contents (dbs w p) !! k = Some bs /\ namespace k = "snapshots" /\ decode bs = Ok snap
  | None => forall k bs, contents (dbs w p) !! k = Some bs -> namespace k = "snapshots" -> exists snap, decode bs = Ok snap /\ snap_id snap <> id
  end.
Definition undecodable_row (w : process) (p : cpath) : Prop :=
  exists k bs, contents (dbs w p) !! k = Some bs /\ namespace k = "snapshots" /\ is_ok (decode (A := Snapshot) bs) = false.

Lemma read_meta_everywhere id s :
  wp (read_meta id) (fun r s' => same s s' /\ match r with
    | Ok found => forall (w : process) p, contents (dbs w p) = contents s -> stored_snapshot w p id found
    | Err _ => healthy s -> forall (w : process) p, contents (dbs w p) = contents s -> undecodable_row w p
    end) s.
Proof.
  unfold read_meta. apply wp_bind. eapply wp_mono; [apply scan_all_law; [unfold known; simpl; set_solver|done]|].
  intros [rows|e] s' [Hs Hr]; simpl in Hr; [|split; [done|]; by intros Hh].
  apply wp_lift. split; [done|].
  assert (forall k bs, (k, bs) ∈ rows <-> contents s !! k = Some bs /\ namespace k = "snapshots") as Hin.
  { intros k bs. rewrite Hr, list_elem_of_filter, elem_of_map_to_list. unfold in_all_runs. cbn [fst namespace path all_runs_prefix].
    rewrite andb_true_iff, bool_decide_eq_true. split; [tauto|]. intros [? ?]. by destruct (path k). }
  pose proof (find_meta_spec id rows) as H. destruct (find_meta id rows) as [[snap|]|e].
  - intros w p Hc. destruct H as (Hid & k & bs & Hk%Hin & Hd). split; [done|]. exists k, bs. rewrite Hc. tauto.
  - intros w p Hc k bs. rewrite Hc. intros Hk Hns. apply (H k bs), Hin. tauto.
  - intros _ w p Hc. destruct H as (k & bs & Hk%Hin & Hd). exists k, bs. rewrite Hc. tauto.
Qed.

Lemma read_meta_at id p w :
  wp (on_db p (read_meta id)) (fun r w' => same_process w w' /\ match r with
    | Ok found => stored_snapshot w p id found
    | Err _ => healthy (dbs w p) -> undecodable_row w p
    end) w.
Proof.
  eapply wp_mono; [apply (wp_on_db p (read_meta id)); eapply wp_mono; [apply read_meta_everywhere|]|].
  - intros r s H. exact (conj (proj1 H) (proj2 H)).
  - intros r w' [Hs (r0 & H & ->)]. split; [done|]. destruct r0 as [found|e]; [by apply H|]. intros Hh. by apply H.
Qed.
End lookup_facts.

Lemma weights_part_spec s part : weights_part s = Some part ->
  part ∈ Snapshots.parts s /\ (role part = "tar" \/ forall q, q ∈ Snapshots.parts s -> role q <> "tar").
Proof.
  unfold weights_part. destruct (List.find is_tar _) as [q|] eqn:Ef.
  - intros [= <-]. apply List.find_some in Ef as [Hin Ht]. split; [by apply list_elem_of_In|]. left. by apply bool_decide_eq_true in Ht.
  - intros Hh. split.
    + destruct (Snapshots.parts s) as [|q l]; [done|]. injection Hh as <-. apply list_elem_of_here.
    + right. intros q Hq Hr. apply list_elem_of_In in Hq. pose proof (List.find_none _ _ Ef q Hq) as Hn.
      unfold is_tar in Hn. by rewrite bool_decide_eq_false in Hn.
Qed.

Section eval_facts.
Context {W T : Type} {ST : Storage W T} {SL : StorageLaws W T} {WS : WildcardScan W T} {JC : Codec Snapshot} {WC : Codec WorkItemRecord} {UT : UlidText}.
Context (content_id_of : bytes -> ContentId) {O : Type} {OS : ObjectStore O content_id_of} {OL : ObjectStoreLaws O content_id_of}.
Context {EC : Codec ExampleResult} {TC : Codec (string * string * N * string)} {RC : Codec EvalReport} {RRC : Codec EvalReportRecord}.
Context {U : Unicode} (json_parses : list char -> bool) (find_iter : string -> list string).
Context (refuses : list cpath -> cpath -> option string) (mkdir : result string unit).
Context (db_exists : result string bool) (dataset : Suite -> result CoreError Dataset).
Context (run_id : RunId) (worker : WorkerId) (started completed : N) (json_report : EvalReport -> result string string).
Abbreviation process := (CliWorld W O).
Abbreviation checkpoint_at := (resolve_checkpoint (T := T) refuses db_exists).
Abbreviation eval := (run_eval (T := T) content_id_of json_parses find_iter refuses mkdir db_exists dataset run_id worker started completed json_report).

(** The model a checkpoint's id stands for: the weights of the stored snapshot with that
    id (its tar part, or its first part when it has none), and when no snapshot has the
    id, the id itself. *)
Definition checkpoint_model (w : process) (p : cpath) (text : string) (target : ContentId) (model : ModelRef) : Prop :=
  (exists snap part, stored_snapshot w p target (Some snap) /\ part ∈ Snapshots.parts snap /\
     (role part = "tar" \/ forall q, q ∈ Snapshots.parts snap -> role q <> "tar") /\
     model = mkModel ("snapshot:" +:+ ContentId_to_string target) (Some (content part)) None) \/
  (stored_snapshot w p target None \/ db_exists <> Ok true) /\ model = mkModel ("checkpoint:" +:+ text) (Some target) None.

Lemma resolve_checkpoint_same text storage_path (w : process) : same_process w (checkpoint_at text storage_path w).2.
Proof.
  change (wp (checkpoint_at text storage_path) (fun _ w' => same_process w w') w).
  unfold resolve_checkpoint, parse_content_id. apply wp_bind, wp_lift.
  destruct (ContentId_from_str _) as [[target|e]|m]; [|done|done]. apply wp_bind. unfold lookup_snapshot.
  destruct (match db_exists with Ok b => b | Err _ => false end); [|by apply wp_ret, wp_ret].
  apply wp_with_storage. destruct (refuses _ _) as [e|]; [done|].
  eapply wp_mono; [apply read_meta_at|]. intros r w' [(Hh & Ho & Hd) _]. cbn [held dbs objects] in *.
  destruct r as [[snap|]|e]; [destruct (weights_part snap)|..]; by split.
Qed.

(** Resolving [--checkpoint] changes nothing, and answers the model the id stands
    for; it fails only for a text that is no content id, a database that does not open or
    cannot be read, a row of the namespace that does not decode, and a snapshot with no
    parts. *)
Theorem resolve_checkpoint_spec text storage_path (w : process) :
  wp (checkpoint_at text storage_path) (fun r w' => same_process w w' /\
    let p := path_of storage_path in
    match ContentId_from_str (bytes_of text), r with
    | Value (Ok target), Ok model => checkpoint_model w p text target model
    | Value (Ok target), Err _ => healthy (dbs w p) ->
        is_Some (refuses (held w) p) \/ undecodable_row w p \/
        exists snap, stored_snapshot w p target (Some snap) /\ Snapshots.parts snap = []
    | Value (Err e), _ => r = Err (Failure (cfg_err ("invalid --checkpoint " +:+ str_debug text +:+ ": " +:+ e)))
    | Panic m, _ => r = Err (Unwound m)
    end) w.
Proof.
  unfold resolve_checkpoint, parse_content_id. cbv zeta. set (p := path_of storage_path).
  apply wp_bind, wp_lift. destruct (ContentId_from_str _) as [[target|e]|m]; [|by split|by split].
  apply wp_bind. unfold lookup_snapshot.
  destruct (match db_exists with Ok b => b | Err _ => false end) eqn:Ex.
  2:{ apply wp_ret, wp_ret. split; [done|]. right. split; [|done]. right. by destruct db_exists as [[]|]. }
  apply wp_with_storage. fold p. destruct (refuses (held w) p) as [e|] eqn:Er; [split; [done|]; left; by eexists|].
  eapply wp_mono; [apply read_meta_at|]. intros r w' [(Hh & Ho & Hd) H]. cbn [held dbs objects] in *.
  assert (same_process w (mkCli (held w) (dbs w') (objects w'))) as Hs by (split; [done|split; [done|exact Hd]]).
  destruct r as [[snap|]|e].
  - destruct (weights_part snap) as [part|] eqn:Ep.
    + apply wp_ret. split; [exact Hs|]. left. apply weights_part_spec in Ep as [H1 H2].
      exists snap, part. split; [exact H|]. split; [done|]. split; [done|]. by destruct H as [-> _].
    + apply wp_throw. split; [exact Hs|]. intros _. right; right. exists snap. split; [exact H|].
      unfold weights_part in Ep. destruct (List.find _ _); [done|]. by destruct (Snapshots.parts snap).
  - apply wp_ret. split; [exact Hs|]. right. split; [|done]. left. exact H.
  - split; [exact Hs|]. intros Hhl. right. left. exact (H Hhl).
Qed.

Lemma queue_open_spec (s : W) : wp (LocalQueue.open tt) (fun r s' => same s s' /\ (healthy s -> is_ok r = true)) s.
Proof.
  unfold LocalQueue.open. apply wp_bind. eapply wp_mono; [apply scan_all_law; [unfold known; simpl; set_solver|done]|].
  intros [rows|e] s' [Hs Hr]; simpl in Hr; [by apply wp_ret|]. split; [done|]. by intros Hh.
Qed.

Lemma wp_on_job {A} p (m : M (JobWorld W O) failure A) (Q : result failure A -> process -> Prop) w :
  wp m (fun r j => Q r (mkCli (held w) (<[p := j_store j]> (dbs w)) (j_objects j))) (mkJob (dbs w p) (objects w)) -> wp (on_job p m) Q w.
Proof. intros H. by apply wp_zoom. Qed.

(** What [rollout eval] reports does not depend on the checkpoint: the harness is
    made over the mock backend with nothing registered, so whatever model the checkpoint
    resolves to, a run on working stores reports the metrics that backend gets on the
    suite's dataset, a function of the dataset and the seed alone, with a stored result
    for every example and the report's row beside them. *)
Theorem eval_reports_the_mock cmd ds (w : process)
    (of_wf : forall b, ContentId_wf (content_id_of b))
    (Hreal : eval_dry_run cmd = false) (Hds : dataset (eval_suite cmd) = Ok ds) (Hsuite : dataset_suite ds = eval_suite cmd)
    (Hlen : (N.of_nat (dataset_len ds) < 2 ^ 32)%N)
    (Hopen : refuses (held w) (path_of (eval_storage cmd)) = None) (Hmk : mkdir = Ok tt)
    (Hh : healthy_job content_id_of (mkJob (dbs w (path_of (eval_storage cmd))) (objects w))) (Hv : o_valid (objects w))
    (Hfresh : forall id, contents (dbs w (path_of (eval_storage cmd))) !! work_key run_id id = None)
    (Hids : forall model, (checkpoint_at (checkpoint cmd) (eval_storage cmd) w).1 = Ok model ->
       forall i j, i < dataset_len ds -> j < dataset_len ds ->
       example_work_id content_id_of (eval_suite cmd) LM_EVAL_VERSION (N.of_nat i) (uri model) =
       example_work_id content_id_of (eval_suite cmd) LM_EVAL_VERSION (N.of_nat j) (uri model) -> i = j) :
  wp (eval cmd) (fun r w' =>
    match (checkpoint_at (checkpoint cmd) (eval_storage cmd) w).1 with
    | Err e => r = Err e
    | Ok model => exists rep,
        metrics rep = reported json_parses find_iter MockEvalBackend_new (mkCtx (eval_seed cmd)) ds /\ model_ref rep = model /\
        completed_run content_id_of json_parses find_iter MockEvalBackend_new (eval_suite cmd) ds model (mkCtx (eval_seed cmd)) run_id
          started completed (Ok rep) (mkJob (dbs w' (path_of (eval_storage cmd))) (objects w')) /\
        r = match json_report rep with
            | Ok s => Ok (EvalReported rep s)
            | Err e => Err (Failure (internal ("serialize EvalReport: " +:+ e)))
            end
    end) w.
Proof.
  unfold run_eval. set (p := path_of (eval_storage cmd)) in *. apply wp_bind.
  assert (same_process w (checkpoint_at (checkpoint cmd) (eval_storage cmd) w).2) as (Hh1 & Ho1 & Hd1).
  { pose proof (resolve_checkpoint_same (checkpoint cmd) (eval_storage cmd) w) as H. exact H. }
  unfold wp at 1. destruct (checkpoint_at (checkpoint cmd) (eval_storage cmd) w) as [[model|e] w1]; cbn [fst snd] in *; [|done].
  rewrite Hreal. apply wp_with_storage. fold p. rewrite Hh1, Hopen.
  apply wp_bind. unfold open_objects. rewrite Hmk. apply wp_lift. apply wp_bind.
  eapply wp_mono; [apply (wp_on_db p (LocalQueue.open tt)); eapply wp_mono; [apply queue_open_spec|]|].
  { intros r s H. exact H. }
  intros r w2 [(Hh2 & Ho2 & Hd2) (r0 & Hok & ->)]. cbn [held dbs objects] in *.
  destruct (Hd1 p) as [Hc1 Hg1], (Hd2 p) as [Hc2 Hg2], Hh as [Hhs Hho].
  assert (is_ok r0 = true) as Hr0 by apply Hok, Hg1, Hhs.
  destruct r0 as [q|e]; [|done]. apply wp_bind, wp_on_job. rewrite Hds, Ho2, Ho1. eapply wp_mono.
  { apply (run_done (T := T) content_id_of json_parses find_iter MockEvalBackend_new (eval_suite cmd) ds model (mkCtx (eval_seed cmd)));
      try done; [split; [by apply Hg2, Hg1|done]| |by apply Hids].
    intros id. cbn [j_store]. by rewrite Hc2, Hc1. }
  intros r j Hrun. pose proof Hrun as (rep & -> & Hrep & _). cbv beta iota. apply wp_bind, wp_lift.
  assert (metrics rep = reported json_parses find_iter MockEvalBackend_new (mkCtx (eval_seed cmd)) ds /\ model_ref rep = model) as [Hm Hmod]
    by (by rewrite Hrep).
  destruct (json_report rep) as [text|e] eqn:Ej; [apply wp_ret|];
    exists rep; (split; [done|]); (split; [done|]); cbn [held dbs objects]; rewrite fn_lookup_insert;
    (split; [by destruct j|by rewrite Ej]).
Qed.
End eval_facts.

(** ** Examples *)
Section command_examples.
#[local] Existing Instances bits_codec unary_ulids unary_meta.

Definition redb_refuses (opened : list cpath) (p : cpath) : option string :=
  if decide (p ∈ opened) then Some "Database already open. Cannot acquire lock." else None.
Lemma redb_refuses_open opened p : p ∈ opened -> is_Some (redb_refuses opened p).
Proof. intros Hp. unfold redb_refuses. rewrite decide_True by done. by eexists. Qed.

(** A configuration file of each algorithm; the environment selects the mock. *)
Definition config_of (text : string) : result string (RunConfig unit) :=
  let cfg a := Ok (mkRunConfig unit 1 (mkMetadata None []) (EmbeddedAt "db") a tt) in
  if decide (text = "sft") then cfg (Sft (tiny_sft hundredth))
  else if decide (text = "rm") then cfg (Rm (tiny_rm hundredth))
  else if decide (text = "pairwise") then
    cfg (Rm (mkRm (mkModel "mock://" None None) (rm_optimizer (tiny_rm hundredth)) (mkBudget (Some 3%N) None None) (JsonlPath "d") PairwiseLogistic 1))
  else Err "unknown variant".
Definition idle_worker (token : option string) : Worker true unit := {| work A t := mthrow (transient "idle") |}.
Definition mock_env (v : string) : option string := if decide (v = "ROLLOUT_TEST_MOCK_BACKEND") then Some "1" else None.
Definition process_ex : CliWorld Mem.World unit := mkCli [] (fun _ => Mem.mkWorld ∅ [] []) tt.
Definition train_ex (action : TrainAction) : M (CliWorld Mem.World unit) failure (TrainReply (V := unit)) :=
  train_dispatch (T := Mem.Txn) (JC := bits_codec) (fun b => b) (fun _ => Ok [x00]) (WK := idle_worker) (fun _ => mkTurn [] true) tt None "1" "/tmp" ones
    redb_refuses (Ok tt) (fun path => Ok path) config_of (fun _ => true) (fun _ => Ok []) (fun _ => Err "no row") (fun _ => Err "no row")
    (mkTrainFeatures true false) mock_env action.

Lemma train_resume_never_succeeds_witness :
  train_ex (TrainSft (mkTrainArgs "sft" None false)) process_ex <> train_ex (TrainSft (mkTrainArgs "sft" (Some "ab") false)) process_ex /\
  exists e, train_ex (TrainSft (mkTrainArgs "sft" (Some "ab") false)) process_ex = (Err e, process_ex).
Proof.
  split; [|apply (train_resume_never_succeeds (T := Mem.Txn) (JC := bits_codec) (fun b => b) (fun _ => Ok [x00]) (WK := idle_worker) (fun _ => mkTurn [] true) tt None "1" "/tmp" ones
    redb_refuses (Ok tt) (fun path => Ok path) config_of (fun _ => true) (fun _ => Ok []) (fun _ => Err "no row") (fun _ => Err "no row")
    (mkTrainFeatures true false) mock_env (TrainSft (mkTrainArgs "sft" (Some "ab") false)) "ab"); [exact redb_refuses_open|reflexivity|reflexivity]].
  intros Heq. apply (f_equal (fun x => is_ok x.1)) in Heq. vm_compute in Heq. discriminate Heq.
Defined.

Lemma train_runs_its_budget_witness : exists final,
  train_ex (TrainRm (mkTrainArgs "rm" None false)) process_ex = (Ok (Outcome Completed final), process_ex) /\ step final = 3%N.
Proof.
  pose proof (train_runs_its_budget (T := Mem.Txn) (JC := bits_codec) (fun b => b) (fun _ => Ok [x00]) (WK := idle_worker) (fun _ => mkTurn [] true) tt None "1" "/tmp" ones
    redb_refuses (Ok tt) (fun path => Ok path) config_of (fun _ => true) (fun _ => Ok []) (fun _ => Err "no row") (fun _ => Err "no row")
    (mkTrainFeatures true false) mock_env (TrainRm (mkTrainArgs "rm" None false)) process_ex Completed) as H.
  cbv zeta in H.
  set (final := match mrepeat 3 (rm_step_once (TB := mock_trainable (fun b => b) (fun _ => Ok [x00])) (tiny_rm hundredth)) (mkTrain (new_train 42) 0) with
                | (_, w) => mkTrain (SelMock (W := unit) (backend w)) (step w) end).
  exists final. destruct (H final eq_refl eq_refl) as [Hw Ho]. split; [|vm_compute; reflexivity].
  rewrite (surjective_pairing (train_ex _ _)). apply pair_eq. split; [|exact Hw]. apply Ho.
  split; [reflexivity|]. split; [split; vm_compute; reflexivity|].
  eexists _, (SelMock (new_train 42)). split; [vm_compute; reflexivity|]. cbn [algorithm action_args].
  split; [vm_compute; reflexivity|]. split; [exists "d"; split; reflexivity|].
  split; [exists "d", []; split; reflexivity|]. split; [vm_compute; reflexivity|]. vm_compute. reflexivity.
Defined.

(** A reward model with the head that is not supported yet passes the dry run and is
    refused by the run. *)
Lemma pairwise_head_passes_dry_run :
  is_ok (train_ex (TrainRm (mkTrainArgs "pairwise" None true)) process_ex).1 = true /\
  is_ok (train_ex (TrainRm (mkTrainArgs "pairwise" None false)) process_ex).1 = false.
Proof. split; vm_compute; reflexivity. Qed.

Lemma train_dry_run_checks_witness : is_ok (train_ex (TrainSft (mkTrainArgs "sft" None true)) process_ex).1 = true.
Proof.
  apply (train_dry_run_checks (T := Mem.Txn) (JC := bits_codec) (fun b => b) (fun _ => Ok [x00]) (WK := idle_worker) (fun _ => mkTurn [] true) tt None "1" "/tmp" ones
    redb_refuses (Ok tt) (fun path => Ok path) config_of (fun _ => true) (fun _ => Ok []) (fun _ => Err "no row") (fun _ => Err "no row")
    (mkTrainFeatures true false) mock_env (TrainSft (mkTrainArgs "sft" None true)) process_ex); [reflexivity|].
  eexists. split; [vm_compute; reflexivity|]. cbn [algorithm]. split; [vm_compute; reflexivity|]. exists "d". split; reflexivity.
Defined.

(** The embedded backend, over tables that are maps, with one snapshot's row. *)
#[local] Existing Instances map_table map_table_laws payload_codec embedded_storage embedded_laws embedded_wildcard.
#[local] Existing Instances ExampleResult_countable ModelRef_countable MetricValue_countable TaskResult_countable
  EvalReport_countable EvalReportRecord_countable no_unicode.
Abbreviation redb := (@Embedded.World (gmap bytes bytes) map_table payload_codec).
Definition saved : Snapshot := mkSnapshot (replicate 32 xaa) Snapshots.TrainState 1 5 None [mkPart "log" (replicate 32 x01) 1; mkPart "tar" (replicate 32 x02) 9] "sft" "{}".
Definition saved_tables := table_insert "snapshots" (snapshot_key 1 (replicate 32 xaa)) (encode saved) no_tables.
Definition redb_of (tables : @Tables (gmap bytes bytes) map_table payload_codec) : CliWorld redb (gmap ContentId bytes) :=
  mkCli [] (fun _ => Embedded.mkWorld tables ∅ [] []) ∅.
Definition aa : string := ContentId_to_string (replicate 32 xaa).

Lemma resolve_checkpoint_spec_witness :
  (resolve_checkpoint (T := OpenTxn) redb_refuses (Ok true) aa "db" (redb_of saved_tables)).1 =
    Ok (mkModel ("snapshot:" +:+ aa) (Some (replicate 32 x02)) None) /\
  wp (resolve_checkpoint (T := OpenTxn) redb_refuses (Ok true) aa "db") (fun _ w' => same_process (redb_of saved_tables) w') (redb_of saved_tables).
Proof.
  split; [vm_compute; reflexivity|].
  eapply wp_mono; [apply (resolve_checkpoint_spec (T := OpenTxn) redb_refuses (Ok true) aa "db" (redb_of saved_tables))|].
  intros r w' H. exact (proj1 H).
Defined.

Definition eval_cmd_ex : EvalCmd := mkEvalCmd Gsm8k aa "db" 7 false.
Lemma eval_reports_the_mock_witness :
  wp (run_eval (T := OpenTxn) checksum (fun _ => true) (fun s => [s]) redb_refuses (Ok tt) (Ok true) (fun _ => Ok two_rows) 1 2 10 20 (fun _ => Ok "{}") eval_cmd_ex)
    (fun r _ => exists rep, metrics rep = {["acc" := Scalar (f64_div (f64_of_nat 0) (f64_of_nat 2))]} /\ r = Ok (EvalReported rep "{}"))
    (redb_of saved_tables).
Proof.
  eapply wp_mono.
  - apply (eval_reports_the_mock (T := OpenTxn) checksum (fun _ => true) (fun s => [s]) redb_refuses (Ok tt) (Ok true) (fun _ => Ok two_rows)
             1 2 10 20 (fun _ => Ok "{}") eval_cmd_ex two_rows (redb_of saved_tables) checksum_wf);
      try reflexivity.
    + split; [constructor|done].
    + intros i b Hi. discriminate Hi.
    + intros id. change (stored saved_tables !! work_key 1 id = None). rewrite lookup_stored. unfold table_get, tbl_of.
      change (namespace (work_key 1 id)) with "work".
      replace (tabs saved_tables !! "work") with (None (A := gmap bytes bytes)) by (vm_compute; reflexivity). reflexivity.
    + intros model Hm. vm_compute in Hm. injection Hm as <-.
      intros [|[|i]] [|[|j]] Hi Hj Hid; try reflexivity; try (simpl in Hi, Hj; lia); vm_compute in Hid; discriminate Hid.
  - intros r w' H.
    replace (resolve_checkpoint (T := OpenTxn) redb_refuses (Ok true) (checkpoint eval_cmd_ex) (eval_storage eval_cmd_ex) (redb_of saved_tables)).1
      with (Ok (E := failure) (mkModel ("snapshot:" +:+ aa) (Some (replicate 32 x02)) None)) in H by (vm_compute; reflexivity).
    destruct H as (rep & Hm & _ & _ & Hr). exists rep. split; [rewrite Hm; vm_compute; reflexivity|exact Hr].
Defined.
End command_examples.
