(* ===== verification/Postgres.v ===== *)
(** The Postgres backend (rollout-storage/src/postgres/mod.rs and listener.rs, the table and
    the notification of src/database/migrations): the statements it sends, and what the storage
    trait's operations make of their answers.

    sqlx and the server are not in the repository.  The server is a class: one operation per
    statement the code sends, with the laws Postgres documents for READ COMMITTED, the
    isolation level of a transaction that asks for none. *)
From stdpp Require Import base option list gmap strings.
From S2P Require Import Prelude.
From S2P Require Import Text.
From S2P Require Import Core.
From S2P Require Import Storage.
From S2P Require Import Snapshots.

(** ** Rows of the table [kv]: its unique index, with equal NULLs, is the key *)
Abbreviation Uuid := bytes.
Definition ulid_to_uuid (id : RunId) : Uuid := to_be_bytes id.
Definition uuid_to_ulid (u : Uuid) : RunId := from_be_bytes u.

Record RowKey : Type := mkRow { row_namespace : string; row_run : option Uuid; row_path : list string }.
#[global] Instance RowKey_eq_dec : EqDecision RowKey.
Proof. solve_decision. Defined.
#[global] Program Instance RowKey_countable : Countable RowKey :=
  inj_countable' (fun r => (row_namespace r, row_run r, row_path r)) (fun '(n, r, p) => mkRow n r p) _.
Next Obligation. by intros []. Qed.

Definition row_of_key (k : StorageKey) : RowKey := mkRow (namespace k) (ulid_to_uuid <$> key_run k) (path k).
Definition key_of_row (r : RowKey) : StorageKey := mkKey (row_namespace r) (uuid_to_ulid <$> row_run r) (row_path r).

Abbreviation rows := (gmap RowKey bytes).

(** ** The server *)
Class Postgres (D X : Type) : Type := {
  committed : D -> rows;
  (** A transaction in progress: what it wrote, and the rows it holds locks on. *)
  writes : D -> X -> gmap RowKey (option bytes);
  holder : D -> RowKey -> option X;
  up : D -> Prop;
  q_begin : M D string X;
  (** [SELECT value FROM kv WHERE namespace = $1 AND run_id IS NOT DISTINCT FROM $2 AND path = $3] *)
  q_select : RowKey -> M D string (option bytes);
  (** [SELECT .. WHERE namespace = $1 AND run_id IS NOT DISTINCT FROM $2 LIMIT $3] *)
  q_scan : string -> option Uuid -> N -> M D string (list (RowKey * bytes));
  (** the same with [AND path[1:array_length($3, 1)] = $3] *)
  q_scan_under : string -> option Uuid -> list string -> N -> M D string (list (RowKey * bytes));
  (** [SELECT value .. FOR UPDATE] *)
  q_select_for_update : X -> RowKey -> M D string (option bytes);
  (** [INSERT .. ON CONFLICT (namespace, run_id, path) DO UPDATE SET value = EXCLUDED.value ..] *)
  q_upsert : X -> RowKey -> bytes -> M D string unit;
  q_delete : X -> RowKey -> M D string unit;
  q_commit : X -> M D string unit;
  q_rollback : X -> M D string unit;
  q_one : M D string unit;
}.

Section laws_vocabulary.
Context `{PG : Postgres D X}.

(** What a statement of [x] sees: its own writes over the committed rows. *)
Definition visible (d : D) (x : X) (r : RowKey) : option bytes :=
  match writes d x !! r with Some v => v | None => committed d !! r end.
(** A statement that writes or locks a row another transaction holds waits for that
    transaction to end: it answers in a state where the row is free. *)
Definition free (d : D) (x : X) (r : RowKey) : Prop := forall y, holder d r = Some y -> y = x.

Definition unchanged (d d' : D) : Prop :=
  committed d' = committed d /\ writes d' = writes d /\ holder d' = holder d /\ (up d -> up d').
(** A statement of [x]: only its own writes and locks may change. *)
Definition own_step (x : X) (d d' : D) : Prop :=
  committed d' = committed d /\ (forall y, y <> x -> writes d' y = writes d y) /\
  (forall r, holder d' r = holder d r \/ holder d r = None /\ holder d' r = Some x) /\ (up d -> up d').
(** The end of [x]: its rows are free again. *)
Definition released (x : X) (d d' : D) : Prop := forall r,
  (holder d r = Some x \/ holder d r = None -> holder d' r = None) /\ (forall y, y <> x -> holder d r = Some y -> holder d' r = Some y).
Definition or_down (d : D) {A} (r : result string A) (P : A -> Prop) : Prop :=
  match r with Ok a => P a | Err _ => ~ up d end.
Definition limited {A} (lim : N) (all l : list A) : Prop := l = take (N.to_nat lim) all.
End laws_vocabulary.

Class PostgresLaws (D X : Type) `{PG : Postgres D X} : Prop := {
  begin_pg d : wp q_begin (fun r d' => committed d' = committed d /\ holder d' = holder d /\ (up d -> up d') /\
    or_down d r (fun x => writes d' x = ∅ /\ (forall y, y <> x -> writes d' y = writes d y) /\ forall k, holder d k <> Some x)) d;
  select_pg k d : wp (q_select k) (fun r d' => unchanged d d' /\ or_down d r (fun v => v = committed d !! k)) d;
  scan_pg ns run lim d : wp (q_scan ns run lim) (fun r d' => unchanged d d' /\ or_down d r (fun l => exists all,
    all ≡ₚ filter (fun kv => row_namespace kv.1 = ns /\ row_run kv.1 = run) (map_to_list (committed d)) /\ limited lim all l)) d;
  scan_under_pg ns run p lim d : wp (q_scan_under ns run p lim) (fun r d' => unchanged d d' /\ or_down d r (fun l => exists all,
    all ≡ₚ filter (fun kv => row_namespace kv.1 = ns /\ row_run kv.1 = run /\ p `prefix_of` row_path kv.1) (map_to_list (committed d)) /\
    limited lim all l)) d;
  (** The lock is on the row that is found: there is none to take on an absent row. *)
  select_for_update_pg x k d : free d x k -> wp (q_select_for_update x k) (fun r d' => own_step x d d' /\ writes d' x = writes d x /\
    or_down d r (fun v => v = visible d x k /\ match v with Some _ => holder d' k = Some x | None => holder d' = holder d end)) d;
  upsert_pg x k v d : free d x k -> wp (q_upsert x k v) (fun r d' => own_step x d d' /\
    or_down d r (fun _ => writes d' x = <[k := Some v]> (writes d x) /\ holder d' k = Some x)) d;
  delete_pg x k d : free d x k -> wp (q_delete x k) (fun r d' => own_step x d d' /\
    or_down d r (fun _ => match visible d x k with
                          | Some _ => writes d' x = <[k := None]> (writes d x) /\ holder d' k = Some x
                          | None => writes d' x = writes d x /\ holder d' = holder d
                          end)) d;
  (** The end of a transaction frees its rows; a failed commit may have committed. *)
  commit_pg x d : wp (q_commit x) (fun r d' => (forall y, y <> x -> writes d' y = writes d y) /\
    released x d d' /\ (up d -> up d') /\
    match r with
    | Ok _ => forall k, committed d' !! k = visible d x k
    | Err _ => ~ up d /\ (committed d' = committed d \/ forall k, committed d' !! k = visible d x k)
    end) d;
  rollback_pg x d : wp (q_rollback x) (fun r d' => committed d' = committed d /\ (forall y, y <> x -> writes d' y = writes d y) /\
    (up d -> up d') /\ or_down d r (fun _ => released x d d')) d;
}.

(** ** The backend *)
Definition transient (e : string) : CoreError := Recoverable (Transient e Never).
Definition fatal_config (msg : string) : CoreError := Fatal (ConfigInvalid msg).

(** [PostgresStorage::new], from what connecting and migrating answer. *)
Definition pool_connections (pool_size : N) : N := N.max pool_size 1.
Definition pg_new {P} (connect : N -> result string P) (migrate : P -> result string unit) (connect_watch : N -> result string P)
    (pool_size : N) : result CoreError (P * P) :=
  match connect (pool_connections pool_size) with
  | Err e => Err (transient e)
  | Ok pool =>
      match migrate pool with
      | Err e => Err (fatal_config ("migration failed: " +:+ e))
      | Ok _ => match connect_watch 4%N with
                | Err e => Err (transient e)
                | Ok watch_pool => Ok (pool, watch_pool)
                end
      end
  end.

Section backend.
Context `{PG : Postgres D X}.

(** The transaction is taken out of its handle by commit and abort. *)
Record PostgresTxn : Type := mkTxn { tx : option X }.
Definition tx_mut (t : PostgresTxn) : result CoreError X :=
  match tx t with Some x => Ok x | None => Err (internal "PostgresTxn used after commit/abort") end.

Definition pg_begin : M D CoreError PostgresTxn :=
  let* x := map_err transient q_begin in mret (mkTxn (Some x)).

Definition pg_get_bytes (k : StorageKey) : M D CoreError (option bytes) :=
  let* _ := mlift (validate_for_postgres k) in
  map_err transient (q_select (row_of_key k)).

Fixpoint validate_all (keys : list StorageKey) : result CoreError unit :=
  match keys with
  | [] => Ok tt
  | k :: keys' => let? _ := validate_for_postgres k in validate_all keys'
  end.
Definition get_next (out : list (option bytes)) (k : StorageKey) : M D CoreError (list (option bytes)) :=
  let* v := pg_get_bytes k in mret (out ++ [v]).
Definition pg_get_many_bytes (keys : list StorageKey) : M D CoreError (list (option bytes)) :=
  let* _ := mlift (validate_all keys) in mfold get_next [] keys.

(** [i64::try_from(limit.unwrap_or(usize::MAX / 2)).unwrap_or(i64::MAX)]. *)
Definition i64_max : N := 2 ^ 63 - 1.
Definition scan_limit (limit : option nat) : N := N.min (default i64_max (N.of_nat <$> limit)) i64_max.

Definition pg_scan_bytes (range : KeyRange) : M D CoreError (list (StorageKey * bytes)) :=
  let p := prefix range in
  let* _ := mlift (validate_for_postgres p) in
  let run := ulid_to_uuid <$> key_run p in
  let* found := match path p with
                | [] => map_err transient (q_scan (namespace p) run (scan_limit (limit range)))
                | _ => map_err transient (q_scan_under (namespace p) run (path p) (scan_limit (limit range)))
                end in
  mret ((fun kv => (key_of_row kv.1, kv.2)) <$> found).

Definition pg_watch (p : StorageKey) : result CoreError unit :=
  Err (Fatal (PluginContract "PostgresStorage"
    "PostgresStorage does not support in-process broadcast watch; use watch_stream for cross-process notification")).

Definition pg_ping : M D CoreError unit := map_err transient q_one.

Definition pg_put (t : PostgresTxn) (k : StorageKey) (v : bytes) : M D CoreError unit :=
  let* _ := mlift (validate_for_postgres k) in
  let* x := mlift (tx_mut t) in
  map_err transient (q_upsert x (row_of_key k) v).

Definition pg_delete (t : PostgresTxn) (k : StorageKey) : M D CoreError unit :=
  let* _ := mlift (validate_for_postgres k) in
  let* x := mlift (tx_mut t) in
  map_err transient (q_delete x (row_of_key k)).

(** [cas_bytes], up to the locking read and from there on. *)
Definition cas_read (t : PostgresTxn) (k : StorageKey) : M D CoreError (X * option bytes) :=
  let* _ := mlift (validate_for_postgres k) in
  let* x := mlift (tx_mut t) in
  let* current := map_err transient (q_select_for_update x (row_of_key k)) in
  mret (x, current).
Definition cas_write (x : X) (k : StorageKey) (current expected new : option bytes) : M D CoreError bool :=
  if decide (current <> expected) then mret false
  else
    let* _ := match expected, new with
              | _, Some value => map_err transient (q_upsert x (row_of_key k) value)
              | Some _, None => map_err transient (q_delete x (row_of_key k))
              | None, None => mret tt
              end in
    mret true.
Definition pg_cas (t : PostgresTxn) (k : StorageKey) (expected new : option bytes) : M D CoreError bool :=
  let* '(x, current) := cas_read t k in cas_write x k current expected new.

Definition pg_commit (t : PostgresTxn) : M D CoreError unit :=
  match tx t with
  | None => mthrow (internal "PostgresTxn::commit called after commit/abort")
  | Some x => map_err transient (q_commit x)
  end.
Definition pg_abort (t : PostgresTxn) : M D CoreError unit :=
  match tx t with None => mret tt | Some x => map_err transient (q_rollback x) end.
End backend.
Arguments PostgresTxn X : clear implicits.
Arguments mkTxn {X} tx.
Arguments tx {X} p.

(** ** Notifications: the trigger's payload and its reader *)
Section notifications.
(** [uuid::text] of the server, and [Uuid::parse_str]. *)
Context (uuid_text : Uuid -> string) (uuid_parse : string -> option Uuid).

Definition bar : byte := x7c.
Definition slash : byte := x2f.
Definition is_slash (b : byte) : bool := bool_decide (b = slash).
Fixpoint join (sep : byte) (l : list bytes) : bytes :=
  match l with [] => [] | [x] => x | x :: l' => x ++ sep :: join sep l' end.

(** [rollout_kv_notify]: the payload for a row, at most 7999 characters. *)
Definition full_payload (r : RowKey) : string :=
  from_option uuid_text "" (row_run r) +:+ "|" +:+ String.string_of_list_byte (join slash (bytes_of <$> row_path r)).
Definition kv_payload (r : RowKey) : string := of_chars (take 7999 (chars (full_payload r))).
Definition kv_channel (ns : string) : string := "rollout_watch_" +:+ ns.

(** [split_once]. *)
Fixpoint split_once (sep : byte) (l : bytes) : option (bytes * bytes) :=
  match l with
  | [] => None
  | b :: l' => if decide (b = sep) then Some ([], l') else prod_map (cons b) id <$> split_once sep l'
  end.

Definition parse_payload (payload : string) (p : StorageKey) : option StorageEvent :=
  '(run_text, path_text) ← split_once bar (bytes_of payload);
  let run := if decide (run_text = []) then None
             else uuid_to_ulid <$> uuid_parse (String.string_of_list_byte run_text) in
  let path := if decide (path_text = []) then []
              else String.string_of_list_byte <$> split is_slash path_text in
  if decide (is_Some (key_run p) /\ key_run p <> run) then None
  else if starts_with path (Core.path p) then Some (PutEvent (mkKey (namespace p) run path)) else None.

(** The stream: what each receive of the listener yields; a failed one is logged. *)
Definition watch_events (p : StorageKey) (received : list (result string string)) : list StorageEvent :=
  omap (fun r => match r with Ok payload => parse_payload payload p | Err _ => None end) received.

Definition pg_watch_stream (connect : result string unit) (listen : string -> result string unit) (p : StorageKey)
    (received : list (result string string)) : result CoreError (list StorageEvent) :=
  match connect with
  | Err e => Err (transient e)
  | Ok _ => match listen (kv_channel (namespace p)) with
            | Err e => Err (transient e)
            | Ok _ => Ok (watch_events p received)
            end
  end.
End notifications.

(** ** Identifiers and row keys *)
Definition key_wf (k : StorageKey) : Prop := match key_run k with Some u => (u < 2 ^ 128)%N | None => True end.

Lemma uuid_ulid u : (u < 2 ^ 128)%N -> uuid_to_ulid (ulid_to_uuid u) = u.
Proof. intros H. by apply (from_be_bytes_be 16). Qed.

(** Row keys and storage keys name the same rows. *)
Lemma key_of_row_of_key k : key_wf k -> key_of_row (row_of_key k) = k.
Proof. destruct k as [ns [u|] p]; unfold key_wf, key_of_row, row_of_key; simpl; [|done]. intros H. by rewrite uuid_ulid. Qed.
Lemma row_of_key_inj k k' : key_wf k -> key_wf k' -> row_of_key k = row_of_key k' -> k = k'.
Proof. intros H H' E. by rewrite <- (key_of_row_of_key k), <- (key_of_row_of_key k'), E. Qed.

Section backend_facts.
Context `{PL : PostgresLaws D X}.

Lemma validated {A} k (m : M D CoreError A) (Q : result CoreError A -> D -> Prop) d :
  (validate_for_postgres k = Ok tt -> wp m Q d) ->
  (forall e, validate_for_postgres k = Err e -> Q (Err e) d) ->
  wp (let* _ := mlift (validate_for_postgres k) in m) Q d.
Proof. intros H1 H2. apply wp_bind, wp_lift. destruct (validate_for_postgres k) as [[]|e]; auto. Qed.

(** What a statement's error becomes. *)
Lemma unchanged_refl d : unchanged d d.
Proof. by repeat split. Qed.
Lemma own_step_refl x d : own_step x d d.
Proof. repeat split; auto. Qed.

Definition answered {A} (d : D) (k : StorageKey) (r : result CoreError A) (P : A -> Prop) : Prop :=
  match r with Ok a => P a | Err e => validate_for_postgres k = Err e \/ ~ up d end.

(** What a scan selects: the run of the prefix, and no other when it has none. *)
Definition selects (p : StorageKey) (r : RowKey) : Prop :=
  row_namespace r = namespace p /\ row_run r = ulid_to_uuid <$> key_run p /\ path p `prefix_of` row_path r.
#[global] Instance selects_dec p r : Decision (selects p r).
Proof. unfold selects. apply _. Defined.

Lemma selects_in_range p k : key_wf p -> key_wf k -> selects p (row_of_key k) <-> in_range p k = true.
Proof.
  intros Hp Hk. unfold selects, in_range. rewrite !andb_true_iff, !bool_decide_eq_true, starts_with_prefix.
  assert (ulid_to_uuid <$> key_run k = ulid_to_uuid <$> key_run p <-> key_run k = key_run p) as Hr.
  { unfold key_wf in *. destruct (key_run k) as [a|], (key_run p) as [b|]; simpl; split; intros E; try done; [|by simplify_eq].
    assert (ulid_to_uuid a = ulid_to_uuid b) as E' by congruence. by rewrite <- (uuid_ulid a), <- (uuid_ulid b), E'. }
  simpl. rewrite Hr. tauto.
Qed.

Lemma pg_get_spec k d :
  wp (pg_get_bytes k) (fun r d' => unchanged d d' /\ answered d k r (fun v => v = committed d !! row_of_key k)) d.
Proof.
  unfold pg_get_bytes. apply validated; [|intros e He; split; [apply unchanged_refl|by left]].
  intros _. apply wp_map_err. eapply wp_mono; [apply select_pg|]. intros [v|e] d' [Hu Hr]; (split; [done|]); [done|by right].
Qed.

Lemma pg_scan_spec range d :
  wp (pg_scan_bytes range) (fun r d' => unchanged d d' /\ answered d (prefix range) r (fun l => exists all,
    all ≡ₚ filter (fun kv => selects (prefix range) kv.1) (map_to_list (committed d)) /\
    l = (fun kv => (key_of_row kv.1, kv.2)) <$> take (N.to_nat (scan_limit (limit range))) all)) d.
Proof.
  unfold pg_scan_bytes. generalize (scan_limit (limit range)). intros lim.
  apply validated; [|intros e He; split; [apply unchanged_refl|by left]]. intros _. apply wp_bind.
  destruct (path (prefix range)) as [|c p] eqn:Ep; apply wp_map_err; (eapply wp_mono; [apply scan_pg || apply scan_under_pg|]);
    intros [l|e] d' [Hu Hr]; try (by split; [done|right]); apply wp_ret; (split; [done|]);
    destruct Hr as (all & Hall & ->); exists all; (split; [|done]); rewrite Hall;
    apply Permutation_refl', list_filter_iff; intros [r v]; unfold selects; rewrite Ep; simpl; [|done].
  split; [intros [H1 H2]; repeat split; [done|done|apply prefix_nil]|tauto].
Qed.

Lemma get_many_loop keys out d : Forall (fun k => validate_for_postgres k = Ok tt) keys ->
  wp (mfold get_next out keys) (fun r d' => unchanged d d' /\
    match r with Ok vs => vs = out ++ ((fun k => committed d !! row_of_key k) <$> keys) | Err _ => ~ up d end) d.
Proof.
  revert out d. induction keys as [|k keys IH]; intros out d Hv; [apply wp_ret; split; [apply unchanged_refl|by rewrite app_nil_r]|].
  apply Forall_cons in Hv as [Hk Hv]. cbn [mfold]. apply wp_bind, wp_bind. eapply wp_mono; [apply pg_get_spec|].
  intros [v|e] d1 [(Hc & Hw & Hh & Hu) Hr]; [|split; [done|]; destruct Hr; [congruence|done]].
  apply wp_ret. eapply wp_mono; [by apply IH|]. intros [vs|e] d2 [(Hc2 & Hw2 & Hh2 & Hu2) H2]; (split; [split; [congruence|split; [congruence|split; [congruence|auto]]]|]).
  - rewrite H2, Hc, Hr, <- app_assoc. done.
  - intros Hup. by apply H2, Hu.
Qed.

Lemma validate_all_ok keys : validate_all keys = Ok tt <-> Forall (fun k => validate_for_postgres k = Ok tt) keys.
Proof.
  induction keys as [|k keys IH]; simpl; [by split|]. rewrite Forall_cons, <- IH.
  destruct (validate_for_postgres k) as [[]|e]; simpl; naive_solver.
Qed.

(** A read of the backend answers the committed row, a batched read the rows of its
    keys in order, and a scan the committed rows of the namespace and of exactly the
    prefix's run (a prefix without a run selects the rows without one) whose path starts
    with the prefix's, all of them or as many as the limit; none changes anything, and
    each fails only on a key Postgres cannot hold or a server that is down. *)
Theorem postgres_reads k keys range d :
  wp (pg_get_bytes k) (fun r d' => unchanged d d' /\ answered d k r (fun v => v = committed d !! row_of_key k)) d /\
  wp (pg_get_many_bytes keys) (fun r d' => unchanged d d' /\
    match r with
    | Ok vs => vs = (fun k => committed d !! row_of_key k) <$> keys
    | Err _ => ~ Forall (fun k => validate_for_postgres k = Ok tt) keys \/ ~ up d
    end) d /\
  wp (pg_scan_bytes range) (fun r d' => unchanged d d' /\ answered d (prefix range) r (fun l => exists all,
    all ≡ₚ filter (fun kv => selects (prefix range) kv.1) (map_to_list (committed d)) /\
    l = (fun kv => (key_of_row kv.1, kv.2)) <$> take (N.to_nat (scan_limit (limit range))) all)) d.
Proof.
  split; [apply pg_get_spec|]. split; [|apply pg_scan_spec].
  unfold pg_get_many_bytes. apply wp_bind, wp_lift. pose proof (validate_all_ok keys) as Hv.
  destruct (validate_all keys) as [[]|e].
  - eapply wp_mono; [by apply get_many_loop, Hv|]. intros [vs|e] d' [Hu Hr]; (split; [done|]); [done|by right].
  - split; [apply unchanged_refl|]. left. intros H%Hv. done.
Qed.

(** No snapshot is found across runs on Postgres: a snapshot's row is under its run,
    and the scan of all runs, which [read_meta] and an unfiltered list are made of, asks
    for rows without one. *)
Theorem snapshots_of_all_runs_are_missed d (Hup : up d)
    (Hrows : forall r v, committed d !! r = Some v -> row_namespace r = "snapshots" ->
       exists run id, r = row_of_key (Snapshots.snapshot_key run id)) :
  wp (pg_scan_bytes (mkRange Snapshots.all_runs_prefix None)) (fun r d' => r = Ok [] /\ unchanged d d') d.
Proof.
  eapply wp_mono; [apply pg_scan_spec|]. intros [l|e] d' [Hu Hr]; [|by destruct Hr as [[=]|]]. split; [|done]. f_equal.
  destruct Hr as (all & Hall & ->). assert (all = []) as ->; [|by rewrite take_nil].
  destruct all as [|[r v] all]; [done|exfalso].
  assert ((r, v) ∈ (r, v) :: all) as Hin by apply list_elem_of_here.
  rewrite Hall, list_elem_of_filter, elem_of_map_to_list in Hin. destruct Hin as [(Hns & Hrun & _) Hin].
  destruct (Hrows r v Hin Hns) as (run & id & ->). discriminate Hrun.
Qed.

(** *** Writing: what an operation stages in its transaction *)
(** The row as the transaction sees it is now [v], the others are as they were. *)
Definition staged_row (x : X) (r : RowKey) (v : option bytes) (d d' : D) : Prop :=
  forall r', visible d' x r' = if decide (r' = r) then v else visible d x r'.

Lemma own_step_trans x d1 d2 d3 : own_step x d1 d2 -> own_step x d2 d3 -> own_step x d1 d3.
Proof.
  intros (H1 & H2 & H3 & H4) (G1 & G2 & G3 & G4). split; [congruence|]. split; [|split; [|auto]].
  - intros y Hy. rewrite G2, H2; done.
  - intros r. destruct (G3 r) as [->|[HN HS]]; [apply H3|]. right. split; [|done]. destruct (H3 r) as [<-|[? HS']]; [done|congruence].
Qed.

Lemma visible_insert d d' x r v : committed d' = committed d -> writes d' x = <[r := v]> (writes d x) -> staged_row x r v d d'.
Proof.
  intros Hc Hw r'. unfold visible. rewrite Hc, Hw. case_decide as Hr; [subst; by rewrite lookup_insert_eq|by rewrite lookup_insert_ne].
Qed.
Lemma staged_same d d' x r : committed d' = committed d -> writes d' x = writes d x -> staged_row x r (visible d x r) d d'.
Proof. intros Hc Hw r'. unfold visible. rewrite Hc, Hw. by case_decide as Hr; [subst|]. Qed.

Lemma free_own_step x r d d' : own_step x d d' -> free d x r -> free d' x r.
Proof. intros (_ & _ & H & _) Hf y Hy. destruct (H r) as [E|[E E']]; rewrite ?E, ?E' in Hy; [by apply Hf|by injection Hy]. Qed.

Lemma upsert_staged x k v d : free d x (row_of_key k) ->
  wp (map_err transient (q_upsert x (row_of_key k) v)) (fun r d' => own_step x d d' /\
    match r with Ok _ => staged_row x (row_of_key k) (Some v) d d' | Err _ => ~ up d end) d.
Proof.
  intros Hf. apply wp_map_err. eapply wp_mono; [by apply upsert_pg|]. intros [[]|e] d' [Hs Hr]; (split; [done|]); [|done].
  destruct Hr as [Hw _]. apply visible_insert; [apply Hs|done].
Qed.
Lemma delete_staged x k d : free d x (row_of_key k) ->
  wp (map_err transient (q_delete x (row_of_key k))) (fun r d' => own_step x d d' /\
    match r with Ok _ => staged_row x (row_of_key k) None d d' | Err _ => ~ up d end) d.
Proof.
  intros Hf. apply wp_map_err. eapply wp_mono; [by apply delete_pg|]. intros [[]|e] d' [Hs Hr]; (split; [done|]); [|done]. simpl in Hr.
  destruct (visible d x (row_of_key k)) as [v|] eqn:Ev; destruct Hr as [Hw _]; [apply visible_insert; [apply Hs|done]|].
  rewrite <- Ev. apply staged_same; [apply Hs|done].
Qed.

Lemma cas_write_staged x k expected new current d : free d x (row_of_key k) -> current = visible d x (row_of_key k) ->
  wp (cas_write x k current expected new) (fun r d' => own_step x d d' /\
    match r with
    | Ok won => won = bool_decide (current = expected) /\ staged_row x (row_of_key k) (if won then new else current) d d'
    | Err _ => ~ up d
    end) d.
Proof.
  intros Hf Hc. unfold cas_write. case_decide as He.
  - apply wp_ret. split; [apply own_step_refl|]. rewrite bool_decide_eq_false_2 by done. split; [done|]. rewrite Hc. by apply staged_same.
  - rewrite bool_decide_eq_true_2 by done. destruct new as [v|].
    + apply wp_bind. destruct expected; (eapply wp_mono; [by apply upsert_staged|]); intros [[]|e] d' [Hs Hr]; try done; by apply wp_ret.
    + destruct expected as [e|]; apply wp_bind.
      * eapply wp_mono; [by apply delete_staged|]. intros [[]|e'] d' [Hs Hr]; [by apply wp_ret|done].
      * apply wp_ret, wp_ret. split; [apply own_step_refl|]. split; [done|]. rewrite <- He, Hc. by apply staged_same.
Qed.

Lemma cas_read_spec x k d : free d x (row_of_key k) ->
  wp (cas_read (mkTxn (Some x)) k) (fun r d' => own_step x d d' /\ writes d' x = writes d x /\ answered d k r (fun xc =>
    xc = (x, visible d x (row_of_key k)) /\
    match visible d x (row_of_key k) with Some _ => holder d' (row_of_key k) = Some x | None => holder d' = holder d end)) d.
Proof.
  intros Hf. unfold cas_read. apply validated; [|intros e He; split; [apply own_step_refl|by split; [|left]]].
  intros _. apply wp_bind, wp_lift. cbn [tx_mut tx]. apply wp_bind, wp_map_err.
  eapply wp_mono; [by apply select_for_update_pg|]. intros [v|e] d' (Hs & Hw & Hr); [|split; [done|by split; [|right]]].
  apply wp_ret. split; [done|]. split; [done|]. destruct Hr as [-> Hh]. done.
Qed.

Lemma postgres_stages_cas x k expected new d : free d x (row_of_key k) ->
  wp (pg_cas (mkTxn (Some x)) k expected new) (fun r d' => own_step x d d' /\
    answered d k r (fun won => won = bool_decide (visible d x (row_of_key k) = expected) /\
      staged_row x (row_of_key k) (if won then new else visible d x (row_of_key k)) d d')) d.
Proof.
  intros Hfree. unfold pg_cas. apply wp_bind. eapply wp_mono; [by apply cas_read_spec|].
  intros [[y current]|e] d1 (Hs & Hw & Hr); [|by split]. destruct Hr as [[= -> ->] _].
  assert (visible d1 x (row_of_key k) = visible d x (row_of_key k)) as Hv by (unfold visible; destruct Hs as (-> & _); by rewrite Hw).
  eapply wp_mono; [apply cas_write_staged; [by eapply free_own_step|done]|].
  intros [won|e] d2 [Hs2 Hr2]; (split; [by eapply own_step_trans|]).
  - destruct Hr2 as [-> Hst]. split; [done|]. intros r'. rewrite Hst. destruct (decide (r' = row_of_key k)); [done|].
    unfold visible. destruct Hs as (-> & _). by rewrite Hw.
  - right. intros Hu. apply Hr2. by apply Hs.
Qed.

Lemma postgres_stages_parts x k v d : free d x (row_of_key k) ->
  wp (pg_put (mkTxn (Some x)) k v) (fun r d' => own_step x d d' /\
    answered d k r (fun _ => staged_row x (row_of_key k) (Some v) d d')) d /\
  wp (pg_delete (mkTxn (Some x)) k) (fun r d' => own_step x d d' /\
    answered d k r (fun _ => staged_row x (row_of_key k) None d d')) d.
Proof.
  intros Hfree. split.
  - unfold pg_put. apply validated; [|intros e He; split; [apply own_step_refl|by left]]. intros _. apply wp_bind, wp_lift. cbn [tx_mut tx].
    eapply wp_mono; [by apply upsert_staged|]. intros [[]|e] d' [Hs Hr]; (split; [done|]); [done|by right].
  - unfold pg_delete. apply validated; [|intros e He; split; [apply own_step_refl|by left]]. intros _. apply wp_bind, wp_lift. cbn [tx_mut tx].
    eapply wp_mono; [by apply delete_staged|]. intros [[]|e] d' [Hs Hr]; (split; [done|]); [done|by right].
Qed.

(** Writing in a transaction that has its row: put, delete and compare-and-swap
    stage exactly the row they name, in the transaction's own view (the swap wins exactly
    when the view holds the expected bytes, and changes nothing when it loses); what is
    committed and what other transactions staged stay; they fail only on a key Postgres
    cannot hold or a server that is down. *)
Theorem postgres_stages x k v expected new d (Hfree : free d x (row_of_key k)) :
  wp (pg_put (mkTxn (Some x)) k v) (fun r d' => own_step x d d' /\
    answered d k r (fun _ => staged_row x (row_of_key k) (Some v) d d')) d /\
  wp (pg_delete (mkTxn (Some x)) k) (fun r d' => own_step x d d' /\
    answered d k r (fun _ => staged_row x (row_of_key k) None d d')) d /\
  wp (pg_cas (mkTxn (Some x)) k expected new) (fun r d' => own_step x d d' /\
    answered d k r (fun won => won = bool_decide (visible d x (row_of_key k) = expected) /\
      staged_row x (row_of_key k) (if won then new else visible d x (row_of_key k)) d d')) d.
Proof.
  destruct (postgres_stages_parts x k v d Hfree). split; [done|]. split; [done|]. by apply postgres_stages_cas.
Qed.

(** *** Two transactions that swap the same row *)
Lemma commit_spec x d : wp (pg_commit (mkTxn (Some x))) (fun r d' => (forall y, y <> x -> writes d' y = writes d y) /\
    released x d d' /\ (up d -> up d') /\
    match r with
    | Ok _ => forall k, committed d' !! k = visible d x k
    | Err _ => ~ up d /\ (committed d' = committed d \/ forall k, committed d' !! k = visible d x k)
    end) d.
Proof. apply wp_map_err. eapply wp_mono; [apply commit_pg|]. by intros [[]|e] d' H. Qed.

Lemma cas_write_absent x k v d : free d x (row_of_key k) ->
  wp (cas_write x k None None (Some v)) (fun r d' => own_step x d d' /\
    match r with Ok won => won = true /\ staged_row x (row_of_key k) (Some v) d d' | Err _ => ~ up d end) d.
Proof.
  intros Hf. unfold cas_write. rewrite decide_False by naive_solver. apply wp_bind.
  eapply wp_mono; [by apply upsert_staged|]. intros [[]|e] d' [Hs Hr]; [by apply wp_ret|done].
Qed.

(** The second transaction reads before the first has written: nothing stops it when the
    row is absent, since there is no row to lock.  Its write waits for the first to end. *)
Definition overlapping_swaps (k : StorageKey) (x y : X) (a b : bytes) : M D CoreError (bool * bool) :=
  let* '(x, cur_x) := cas_read (mkTxn (Some x)) k in
  let* '(y, cur_y) := cas_read (mkTxn (Some y)) k in
  let* won_x := cas_write x k cur_x None (Some a) in
  let* _ := pg_commit (mkTxn (Some x)) in
  let* won_y := cas_write y k cur_y None (Some b) in
  let* _ := pg_commit (mkTxn (Some y)) in
  mret (won_x, won_y).

(** A swap from absent has two winners on Postgres: for every row that is absent and
    unlocked, two transactions whose reads both come before the first write each answer
    that they swapped it, both commit, and the second's value replaces the first's. *)
Theorem absent_swap_has_two_winners k x y a b d
    (Hk : validate_for_postgres k = Ok tt) (Hup : up d) (Hxy : x <> y)
    (Habsent : committed d !! row_of_key k = None) (Hfree : holder d (row_of_key k) = None)
    (Hx : writes d x = ∅) (Hy : writes d y = ∅) :
  wp (overlapping_swaps k x y a b) (fun r d' => r = Ok (true, true) /\ committed d' !! row_of_key k = Some b) d.
Proof.
  set (r0 := row_of_key k) in *. unfold overlapping_swaps.
  assert (forall d1 z, committed d1 !! r0 = None -> writes d1 z = ∅ -> visible d1 z r0 = None) as Hvis.
  { intros d1 z Hc Hw. unfold visible. by rewrite Hw, lookup_empty. }
  assert (forall d1 z, holder d1 r0 = None -> free d1 z r0) as Hfr by (intros d1 z Hz w Hw; congruence).
  apply wp_bind. eapply wp_mono; [apply (cas_read_spec x k); by apply Hfr|].
  intros [xc|e] d1 (Hs1 & Hw1 & H1); [|destruct H1; [congruence|done]]. fold r0 in H1. rewrite (Hvis d x Habsent Hx) in H1. destruct H1 as [-> Hh1].
  destruct Hs1 as (Hc1 & Ho1 & _ & Hu1). specialize (Hu1 Hup). apply wp_bind.
  eapply wp_mono; [apply (cas_read_spec y k); apply Hfr; congruence|].
  assert (writes d1 y = ∅) as Hy1 by (rewrite Ho1; [done|congruence]).
  intros [yc|e] d2 (Hs2 & Hw2 & H2); [|destruct H2; [congruence|done]].
  fold r0 in H2. rewrite (Hvis d1 y) in H2; [|congruence|done]. destruct H2 as [-> Hh2].
  destruct Hs2 as (Hc2 & Ho2 & _ & Hu2). specialize (Hu2 Hu1). apply wp_bind.
  assert (holder d2 r0 = None) as Hn2 by congruence.
  eapply wp_mono; [apply cas_write_absent; by apply Hfr|].
  intros [won|e] d3 [(Hc3 & Ho3 & Hl3 & Hu3) H3]; [|done]. destruct H3 as [-> Hst3]. specialize (Hu3 Hu2). apply wp_bind.
  eapply wp_mono; [apply commit_spec|]. intros [[]|e] d4 (Ho4 & Hrel & Hu4 & H4); [|by destruct H4]. specialize (Hu4 Hu3). apply wp_bind.
  assert (holder d4 r0 = None) as Hn4.
  { apply Hrel. destruct (Hl3 r0) as [->|[_ ->]]; [by right|by left]. }
  eapply wp_mono; [apply cas_write_absent; by apply Hfr|].
  intros [won|e] d5 [(_ & _ & _ & Hu5) H5]; [|done]. destruct H5 as [-> Hst5]. specialize (Hu5 Hu4). apply wp_bind.
  eapply wp_mono; [apply commit_spec|]. intros [[]|e] d6 (_ & _ & _ & H6); [|by destruct H6].
  apply wp_ret. split; [done|]. rewrite H6, Hst5. by rewrite decide_True.
Qed.

(** A swap of a row that is there has one winner: once a transaction has read the row
    for its swap, no other can read it until it has ended, and a second swap that expects
    the same bytes then loses, unless the first wrote those bytes back. *)
Theorem present_swap_has_one_winner k x y old a b d
    (Hk : validate_for_postgres k = Ok tt) (Hup : up d) (Hxy : x <> y)
    (Hpresent : committed d !! row_of_key k = Some old) (Hfree : holder d (row_of_key k) = None)
    (Hx : writes d x = ∅) (Hy : writes d y = ∅) :
  wp (cas_read (mkTxn (Some x)) k) (fun r d' => r = Ok (x, Some old) /\ ~ free d' y (row_of_key k)) d /\
  wp (let* won_x := pg_cas (mkTxn (Some x)) k (Some old) (Some a) in
      let* _ := pg_commit (mkTxn (Some x)) in
      let* won_y := pg_cas (mkTxn (Some y)) k (Some old) b in mret (won_x, won_y))
     (fun r d' => r = Ok (true, bool_decide (a = old))) d.
Proof.
  set (r0 := row_of_key k) in *.
  assert (forall d1 z, holder d1 r0 = None -> free d1 z r0) as Hfr by (intros d1 z Hz w Hw; congruence).
  assert (visible d x r0 = Some old) as Hv by (unfold visible; by rewrite Hx, lookup_empty).
  split.
  - eapply wp_mono; [apply (cas_read_spec x k); by apply Hfr|].
    intros [xc|e] d1 (_ & _ & H1); [|destruct H1; [congruence|done]]. fold r0 in H1. rewrite Hv in H1. destruct H1 as [-> Hh].
    split; [done|]. intros Hf. by apply Hxy, Hf.
  - apply wp_bind. eapply wp_mono; [by apply (postgres_stages_cas x k); apply Hfr|].
    intros [won|e] d1 [(Hc1 & Ho1 & Hl1 & Hu1) H1]; [|destruct H1; [congruence|done]]. fold r0 in H1. rewrite Hv in H1.
    rewrite bool_decide_eq_true_2 in H1 by done. destruct H1 as [-> Hst]. specialize (Hu1 Hup). apply wp_bind.
    eapply wp_mono; [apply commit_spec|]. intros [[]|e] d2 (Ho2 & Hrel & Hu2 & H2); [|by destruct H2]. specialize (Hu2 Hu1). apply wp_bind.
    assert (holder d2 r0 = None) as Hn2 by (apply Hrel; destruct (Hl1 r0) as [->|[_ ->]]; [by right|by left]).
    assert (visible d2 y r0 = Some a) as Hvy.
    { unfold visible. rewrite Ho2, Ho1, Hy, lookup_empty, H2, Hst by congruence. by rewrite decide_True. }
    eapply wp_mono; [by apply (postgres_stages_cas y k); apply Hfr|].
    intros [won|e] d3 [_ H3]; [|destruct H3; [congruence|done]]. fold r0 in H3. rewrite Hvy in H3. destruct H3 as [-> _].
    apply wp_ret. f_equal. f_equal. apply bool_decide_ext. naive_solver.
Qed.

(** A key that Postgres cannot hold never reaches it: every operation on it answers
    the validation error and the server is exactly as it was. *)
Theorem invalid_keys_stay_out k e t v expected new range d (Hk : validate_for_postgres k = Err e) (Hrange : prefix range = k) :
  pg_get_bytes k d = (Err e, d) /\ pg_scan_bytes range d = (Err e, d) /\ pg_put t k v d = (Err e, d) /\
  pg_delete t k d = (Err e, d) /\ pg_cas t k expected new d = (Err e, d).
Proof.
  unfold pg_get_bytes, pg_scan_bytes, pg_put, pg_delete, pg_cas, cas_read, mbind_, mlift. rewrite Hrange, Hk. done.
Qed.
End backend_facts.

(** ** What a watcher hears *)
Lemma split_cons_free {A} (sep : A -> bool) c l :
  sep c = false -> split sep (c :: l) = match split sep l with [] => [[c]] | w :: ws => (c :: w) :: ws end.
Proof. intros H. simpl. by rewrite H. Qed.

Lemma split_app_free {A} (sep : A -> bool) x l : Forall (fun c => sep c = false) x ->
  split sep (x ++ l) = match split sep l with [] => [x] | w :: ws => (x ++ w) :: ws end.
Proof.
  induction 1 as [|c x Hc _ IH]; [simpl; pose proof (split_nonempty sep l); by destruct (split sep l)|].
  change ((c :: x) ++ l) with (c :: x ++ l). rewrite split_cons_free, IH by done.
  pose proof (split_nonempty sep l). by destruct (split sep l).
Qed.

Lemma split_join l : l <> [] -> Forall (Forall (fun b => is_slash b = false)) l -> split is_slash (join slash l) = l.
Proof.
  induction l as [|x l IH]; intros Hl Hf; [done|]. apply Forall_cons in Hf as [Hx Hf]. destruct l as [|y l].
  - simpl. rewrite <- (app_nil_r x) at 1. rewrite split_app_free by done. simpl. by rewrite app_nil_r.
  - change (join slash (x :: y :: l)) with (x ++ slash :: join slash (y :: l)). rewrite split_app_free by done.
    change (split is_slash (slash :: join slash (y :: l))) with ([] :: split is_slash (join slash (y :: l))).
    rewrite IH by done. by rewrite app_nil_r.
Qed.

Lemma join_nil l : join slash l = [] -> l = [] \/ l = [[]].
Proof. destruct l as [|x [|y l]]; simpl; [by left|by intros ->; right|by destruct x]. Qed.

Lemma split_once_first x l : Forall (fun b => b <> bar) x -> split_once bar (x ++ bar :: l) = Some (x, l).
Proof.
  induction 1 as [|b x Hb _ IH]; simpl; [done|]. by rewrite decide_False, IH.
Qed.

Lemma string_bytes l : bytes_of (String.string_of_list_byte l) = l.
Proof. apply String.list_byte_of_string_of_list_byte. Qed.
Lemma bytes_string s : String.string_of_list_byte (bytes_of s) = s.
Proof. apply String.string_of_list_byte_of_string. Qed.
Lemma strings_bytes (l : list string) : String.string_of_list_byte <$> (bytes_of <$> l) = l.
Proof. induction l as [|s l IH]; [done|]. by rewrite !fmap_cons, IH, bytes_string. Qed.

Section watch_facts.
Context (uuid_text : Uuid -> string) (uuid_parse : string -> option Uuid).
(** The text of a UUID: 36 hexadecimal digits and dashes. *)
Hypothesis uuid_round_trip : forall u, uuid_parse (uuid_text u) = Some u.
Hypothesis uuid_plain : forall u, bytes_of (uuid_text u) <> [] /\ Forall (fun b => Byte.to_N b < 128 /\ b <> bar)%N (bytes_of (uuid_text u)).

(** The run and path conditions of [parse_payload]. *)
Definition hears (p k : StorageKey) : bool :=
  (match key_run p with None => true | Some _ => bool_decide (key_run p = key_run k) end) && starts_with (path k) (path p).

Lemma bytes_app a b : bytes_of (a +:+ b) = bytes_of a ++ bytes_of b.
Proof. induction a as [|c a IH]; [done|]. simpl. unfold bytes_of in *. simpl. by rewrite IH. Qed.

Lemma join_ascii (l : list bytes) (P : byte -> Prop) : P slash -> Forall (Forall P) l -> Forall P (join slash l).
Proof.
  intros Hs. induction l as [|x l IH]; [constructor|]. intros [Hx Hl]%Forall_cons. destruct l as [|y l]; [done|].
  change (join slash (x :: y :: l)) with (x ++ slash :: join slash (y :: l)). apply Forall_app. split; [done|]. constructor; [done|by apply IH].
Qed.

(** What the watch stream makes of the notification for a row: over keys without a
    slash in a path segment, whose path is not one empty segment, and whose payload fits,
    the event of the payload is a put of that very key when the prefix's run (any, when it
    has none) and path match, and nothing otherwise. *)
Theorem watch_hears_the_key k p
    (Hwf : key_wf k) (Hvalid : validate_for_postgres k = Ok tt) (Hns : namespace k = namespace p)
    (Hslash : Forall (fun c => Forall (fun b => is_slash b = false) (bytes_of c)) (path k)) (Hempty : path k <> [""])
    (Hfits : length (bytes_of (full_payload uuid_text (row_of_key k))) <= 7999) :
  parse_payload uuid_parse (kv_payload uuid_text (row_of_key k)) p = if hears p k then Some (PutEvent k) else None.
Proof.
  set (path_text := join slash (bytes_of <$> path k)).
  set (run_text := match ulid_to_uuid <$> key_run k with Some u => bytes_of (uuid_text u) | None => [] end).
  assert (bytes_of (full_payload uuid_text (row_of_key k)) = run_text ++ bar :: path_text) as Hfull.
  { unfold full_payload, run_text. simpl. rewrite !bytes_app, string_bytes.
    destruct (key_run k); reflexivity. }
  assert (Forall (fun b => Byte.to_N b < 128)%N (run_text ++ bar :: path_text)) as Hascii.
  { apply Forall_app. split; [|constructor; [vm_compute; reflexivity|]].
    - unfold run_text. destruct (key_run k) as [u|]; simpl; [|constructor].
      eapply Forall_impl; [apply uuid_plain|]. by intros b [? _].
    - unfold path_text. apply join_ascii; [vm_compute; reflexivity|]. apply Forall_fmap. apply validate_path_ok in Hvalid.
      eapply Forall_impl; [exact Hvalid|]. intros c Hc. eapply Forall_impl; [exact Hc|].
      intros b Hb. unfold printable in Hb. rewrite bool_decide_eq_true in Hb. lia. }
  assert (bytes_of (kv_payload uuid_text (row_of_key k)) = run_text ++ bar :: path_text) as Hpay.
  { unfold kv_payload. rewrite chars_ascii by by rewrite Hfull. rewrite take_ge by by rewrite length_fmap.
    rewrite of_chars_ascii, string_bytes by by rewrite Hfull. exact Hfull. }
  unfold parse_payload. rewrite Hpay, split_once_first.
  2:{ unfold run_text. destruct (key_run k) as [u|]; simpl; [|constructor]. eapply Forall_impl; [apply uuid_plain|]. by intros b [_ ?]. }
  simpl. unfold id.
  assert ((if decide (run_text = []) then None else uuid_to_ulid <$> uuid_parse (String.string_of_list_byte run_text)) = key_run k) as ->.
  { unfold run_text, key_wf in *. destruct (key_run k) as [u|]; simpl; [|reflexivity].
    rewrite decide_False by apply uuid_plain. rewrite bytes_string, uuid_round_trip. simpl. by rewrite uuid_ulid. }
  assert ((if decide (path_text = []) then [] else String.string_of_list_byte <$> split is_slash path_text) = path k) as ->.
  { case_decide as Hp.
    - apply join_nil in Hp as [Hp|Hp].
      + by destruct (path k).
      + destruct (path k) as [|c [|c' l]]; try done. injection Hp as Hc. destruct Hempty. by rewrite <- (bytes_string c), Hc.
    - unfold path_text in *. rewrite split_join; [apply strings_bytes|by destruct (path k)|by apply Forall_fmap]. }
  unfold hears. destruct (key_run p) as [r|] eqn:Er; simpl.
  - destruct (decide (Some r = key_run k)) as [Hrk|Hrk].
    + rewrite decide_False by naive_solver. rewrite bool_decide_eq_true_2 by done. simpl.
      destruct (starts_with _ _); [|done]. rewrite <- Hns. by destruct k.
    + rewrite decide_True by done. by rewrite bool_decide_eq_false_2.
  - destruct (starts_with _ _); [|done]. rewrite <- Hns. by destruct k.
Qed.
End watch_facts.

(** ** A server of one process, and the theorems at concrete inputs *)
Module Toy.
Record Server : Type := mkServer { s_rows : rows; s_writes : gmap nat (gmap RowKey (option bytes)); s_holder : gmap RowKey nat }.

Definition s_visible (d : Server) (x : nat) (r : RowKey) : option bytes :=
  match default ∅ (s_writes d !! x) !! r with Some v => v | None => s_rows d !! r end.
Definition stage (x : nat) (r : RowKey) (v : option bytes) (d : Server) : Server :=
  mkServer (s_rows d) (<[x := <[r := v]> (default ∅ (s_writes d !! x))]> (s_writes d)) (<[r := x]> (s_holder d)).
Definition applied (ws : gmap RowKey (option bytes)) (m : rows) : rows :=
  merge (fun w c => match w with Some v => v | None => c end) ws m.
Definition free_rows (x : nat) (d : Server) (m : rows) : Server :=
  mkServer m (s_writes d) (filter (fun kv => kv.2 <> x) (s_holder d)).

#[export] Instance server : Postgres Server nat := {
  committed := s_rows;
  writes d x := default ∅ (s_writes d !! x);
  holder d r := s_holder d !! r;
  up _ := True;
  q_begin := fun d => let x := fresh (dom (s_writes d) ∪ map_to_set (fun _ x => x) (s_holder d) : gset nat) in
               (Ok x, mkServer (s_rows d) (<[x := ∅]> (s_writes d)) (s_holder d));
  q_select r := fun d => (Ok (s_rows d !! r), d);
  q_scan ns run lim := fun d =>
    (Ok (take (N.to_nat lim) (filter (fun kv => row_namespace kv.1 = ns /\ row_run kv.1 = run) (map_to_list (s_rows d)))), d);
  q_scan_under ns run p lim := fun d =>
    (Ok (take (N.to_nat lim) (filter (fun kv => row_namespace kv.1 = ns /\ row_run kv.1 = run /\ p `prefix_of` row_path kv.1) (map_to_list (s_rows d)))), d);
  q_select_for_update x r := fun d =>
    (Ok (s_visible d x r), match s_visible d x r with
                           | Some _ => mkServer (s_rows d) (s_writes d) (<[r := x]> (s_holder d))
                           | None => d
                           end);
  q_upsert x r v := fun d => (Ok tt, stage x r (Some v) d);
  q_delete x r := fun d => (Ok tt, match s_visible d x r with Some _ => stage x r None d | None => d end);
  q_commit x := fun d => (Ok tt, free_rows x d (applied (default ∅ (s_writes d !! x)) (s_rows d)));
  q_rollback x := fun d => (Ok tt, free_rows x d (s_rows d));
  q_one := mret tt;
}.

Lemma lock_own x r d d' : s_rows d' = s_rows d -> (forall y, y <> x -> default ∅ (s_writes d' !! y) = default ∅ (s_writes d !! y)) ->
  s_holder d' = <[r := x]> (s_holder d) -> free d x r -> own_step x d d'.
Proof.
  intros Hc Hw Hh Hf. split; [done|]. split; [done|]. split; [|done]. intros r'. simpl. rewrite Hh.
  destruct (decide (r' = r)) as [->|Hne]; [|left; by rewrite lookup_insert_ne]. rewrite lookup_insert_eq.
  destruct (s_holder d !! r) as [y|] eqn:E; [left|by right]. f_equal. symmetry. by apply Hf.
Qed.
Lemma stage_own x r v d : free d x r -> own_step x d (stage x r v d).
Proof. apply lock_own; [done| |done]. intros y Hy. simpl. by rewrite lookup_insert_ne. Qed.

Lemma free_rows_released x d m : released x d (free_rows x d m).
Proof.
  intros r. simpl. split.
  - intros [H|H]; apply map_lookup_filter_None; [right; intros y Hy|left]; naive_solver.
  - intros y Hy H. apply map_lookup_filter_Some. done.
Qed.

#[export] Instance server_laws : PostgresLaws Server nat.
Proof.
  split; unfold wp; simpl.
  - intros d. set (x := fresh _). split; [done|]. split; [done|]. split; [done|].
    pose proof (is_fresh (dom (s_writes d) ∪ map_to_set (fun _ x => x) (s_holder d) : gset nat)) as Hx. fold x in Hx.
    split; [by rewrite lookup_insert_eq|]. split; [intros y Hy; by rewrite lookup_insert_ne|].
    intros k Hk. apply Hx. apply elem_of_union_r, elem_of_map_to_set. by exists k, x.
  - done.
  - intros ns run lim d. split; [done|]. by eexists.
  - intros ns run p lim d. split; [done|]. by eexists.
  - intros x k d Hf. change (visible d x k) with (s_visible d x k). destruct (s_visible d x k) as [v|] eqn:E.
    + split; [by apply (lock_own x k)|]. split; [done|]. split; [done|]. simpl. apply lookup_insert_eq.
    + split; [apply own_step_refl|done].
  - intros x k v d Hf. split; [by apply stage_own|]. simpl. by rewrite !lookup_insert_eq.
  - intros x k d Hf. change (visible d x k) with (s_visible d x k). destruct (s_visible d x k) as [v|] eqn:E.
    + split; [by apply stage_own|]. simpl. by rewrite !lookup_insert_eq.
    + split; [apply own_step_refl|done].
  - intros x d. split; [done|]. split; [apply free_rows_released|]. split; [done|].
    intros k. unfold visible, applied. simpl. rewrite lookup_merge.
    destruct (default ∅ (s_writes d !! x) !! k) as [v|], (s_rows d !! k); done.
  - intros x d. split; [done|]. split; [done|]. split; [done|]. apply free_rows_released.
Qed.
End Toy.


Section postgres_examples.
Import Toy.
Definition lease_row : StorageKey := mkKey "coordinator_lease" (Some 5%N) [].
Definition empty_server : Server := mkServer ∅ (<[1 := ∅]> (<[2 := ∅]> ∅)) ∅.
Definition leased_server : Server := mkServer {[ row_of_key lease_row := [x00] ]} (<[1 := ∅]> (<[2 := ∅]> ∅)) ∅.

Lemma absent_swap_has_two_winners_witness :
  wp (overlapping_swaps lease_row 1 2 [x0a] [x0b]) (fun r d' => r = Ok (true, true) /\ s_rows d' !! row_of_key lease_row = Some [x0b]) empty_server.
Proof.
  eapply wp_mono; [apply (absent_swap_has_two_winners lease_row 1 2 [x0a] [x0b] empty_server); first [exact I | discriminate | vm_compute; reflexivity]|].
  intros r d' H. exact H.
Defined.

Lemma present_swap_has_one_winner_witness :
  wp (let* won_x := pg_cas (mkTxn (Some 1)) lease_row (Some [x00]) (Some [x0a]) in
      let* _ := pg_commit (mkTxn (Some 1)) in
      let* won_y := pg_cas (mkTxn (Some 2)) lease_row (Some [x00]) (Some [x0b]) in mret (won_x, won_y))
     (fun r d' => r = Ok (true, false)) leased_server.
Proof.
  eapply wp_mono; [apply (present_swap_has_one_winner lease_row 1 2 [x00] [x0a] (Some [x0b]) leased_server); first [exact I | discriminate | vm_compute; reflexivity]|].
  intros r d' ->. reflexivity.
Defined.

Lemma postgres_stages_witness :
  fst (pg_cas (mkTxn (Some 1)) lease_row (Some [x00]) None leased_server) = Ok true /\
  wp (pg_delete (mkTxn (Some 1)) lease_row) (fun r d' => visible d' 1 (row_of_key lease_row) = None) leased_server.
Proof.
  destruct (postgres_stages 1 lease_row [x0a] (Some [x00]) None leased_server) as (_ & H & _); [intros y Hy; discriminate Hy|].
  split; [vm_compute; reflexivity|]. eapply wp_mono; [exact H|].
  intros [[]|e] d' [Hs Hr]; [by rewrite (Hr (row_of_key lease_row)), decide_True|].
  destruct Hr as [Hr|Hr]; [discriminate Hr|by destruct Hr].
Defined.

Lemma postgres_reads_witness :
  fst (pg_scan_bytes (mkRange (mkKey "coordinator_lease" (Some 5%N) []) (Some 3)) leased_server) = Ok [(lease_row, [x00])] /\
  wp (pg_get_bytes lease_row) (fun r d' => r = Ok (Some [x00])) leased_server.
Proof.
  destruct (postgres_reads lease_row [lease_row] (mkRange lease_row None) leased_server) as (H & _ & _).
  split; [vm_compute; reflexivity|]. eapply wp_mono; [exact H|].
  intros [v|e] d' [_ Hr]; [by rewrite Hr|]. destruct Hr as [Hr|Hr]; [discriminate Hr|by destruct Hr].
Defined.

Definition snapshot_server : Server := mkServer {[ row_of_key (Snapshots.snapshot_key 5 (replicate 32 xaa)) := [x00] ]} ∅ ∅.
Lemma snapshots_of_all_runs_are_missed_witness :
  wp (pg_scan_bytes (mkRange Snapshots.all_runs_prefix None)) (fun r d' => r = Ok [] /\ unchanged snapshot_server d') snapshot_server.
Proof.
  apply (snapshots_of_all_runs_are_missed snapshot_server); [exact I|].
  intros r v Hr _. simpl in Hr. apply lookup_singleton_Some in Hr as [<- _]. by exists 5%N, (replicate 32 xaa).
Defined.

Lemma invalid_keys_stay_out_witness :
  pg_get_bytes (D := Server) (mkKey "work" None [String (Ascii.ascii_of_nat 10) ""]) empty_server =
    (Err (Fatal (ConfigInvalid (postgres_msg 0 x0a))), empty_server).
Proof.
  apply (invalid_keys_stay_out (D := Server) (mkKey "work" None [String (Ascii.ascii_of_nat 10) ""]) _ (mkTxn None) [] None None
    (mkRange (mkKey "work" None [String (Ascii.ascii_of_nat 10) ""]) None) empty_server); reflexivity.
Defined.

(** A UUID's text of the examples: a dash, then two letters per byte. *)
Definition letter (n : N) : byte := default x00 (Byte.of_N (97 + n)).
Definition hex_pair (b : byte) : bytes := [letter (Byte.to_N b / 16); letter (Byte.to_N b mod 16)].
Definition hex_text (u : Uuid) : string := String.string_of_list_byte (x2d :: (u ≫= hex_pair)).
Fixpoint unpair (l : bytes) : bytes :=
  match l with
  | a :: b :: l' => default x00 (Byte.of_N ((Byte.to_N a - 97) * 16 + (Byte.to_N b - 97))) :: unpair l'
  | _ => []
  end.
Definition hex_parse (s : string) : option Uuid := match bytes_of s with [] => None | _ :: l => Some (unpair l) end.

Lemma hex_round_trip u : hex_parse (hex_text u) = Some (u).
Proof.
  unfold hex_parse, hex_text. rewrite string_bytes. f_equal. induction u as [|b u IH]; [done|].
  rewrite bind_cons. simpl. rewrite IH. f_equal. by destruct b.
Qed.
Lemma hex_plain u : bytes_of (hex_text u) <> [] /\ Forall (fun b => Byte.to_N b < 128 /\ b <> bar)%N (bytes_of (hex_text u)).
Proof.
  unfold hex_text. rewrite string_bytes. split; [done|]. constructor; [done|].
  induction u as [|b u IH]; [constructor|]. rewrite bind_cons. apply Forall_app. split; [|done].
  repeat constructor; destruct b; vm_compute; congruence.
Qed.

Lemma watch_hears_the_key_witness :
  parse_payload hex_parse (kv_payload hex_text (row_of_key (mkKey "work" (Some 5%N) ["item"; "a"]))) (mkKey "work" None ["item"]) =
    Some (PutEvent (mkKey "work" (Some 5%N) ["item"; "a"])).
Proof.
  rewrite (watch_hears_the_key hex_text hex_parse hex_round_trip hex_plain (mkKey "work" (Some 5%N) ["item"; "a"]) (mkKey "work" None ["item"]));
    [reflexivity|done|reflexivity|reflexivity|repeat constructor|done|vm_compute; lia].
Defined.

(** A slash in a segment splits it for the watcher. *)
Lemma slash_splits_the_segment :
  parse_payload hex_parse (kv_payload hex_text (row_of_key (mkKey "work" None ["a/b"; "c"]))) (mkKey "work" None [])
  = Some (PutEvent (mkKey "work" None ["a"; "b"; "c"])).
Proof. vm_compute. reflexivity. Qed.
End postgres_examples.
