(* ===== verification/Backends.v ===== *)
(** The two storage backends side by side.  Anything proved against the [Storage]
    interface holds of the embedded backend (Embedded.v); this file shows how far it
    carries to Postgres (rollout-storage/src/postgres/mod.rs): as long as one
    transaction runs at a time, a client cannot tell the server from a store that
    keeps the interface's laws.  Postgres.v has what happens when two overlap. *)
From stdpp Require Import base option list gmap strings.
From S2P Require Import Prelude.
From S2P Require Import Core.
From S2P Require Import Storage.
From S2P Require Import Postgres.

(** ** What a client does with a store *)
Inductive TxnOp : Type :=
| TPut (k : StorageKey) (v : bytes)
| TDelete (k : StorageKey)
| TCas (k : StorageKey) (expected new : option bytes).
Inductive Action : Type :=
| Fetch (k : StorageKey)
| Scan (p : StorageKey)
| Transact (ops : list TxnOp) (keep : bool).
Inductive Answer : Type :=
| Fetched (v : option bytes)
| Scanned (rows : list (StorageKey * bytes))
| Transacted (wins : list bool).

(** The order of a scan's rows is the backend's own. *)
Definition same_answer (a b : Answer) : Prop :=
  match a, b with
  | Fetched v, Fetched v' => v = v'
  | Scanned l, Scanned l' => l ≡ₚ l'
  | Transacted ws, Transacted ws' => ws = ws'
  | _, _ => False
  end.

Definition op_key (op : TxnOp) : StorageKey := match op with TPut k _ | TDelete k | TCas k _ _ => k end.

(** What an operation makes of a view, and whether it won. *)
Definition set_row (k : StorageKey) (v : option bytes) (m : store) : store :=
  match v with Some v => <[k := v]> m | None => delete k m end.
Definition op_view (m : store) (op : TxnOp) : bool * store :=
  match op with
  | TPut k v => (true, <[k := v]> m)
  | TDelete k => (true, delete k m)
  | TCas k expected new => cas_view m k expected new
  end.
Fixpoint ops_view (m : store) (ops : list TxnOp) : list bool * store :=
  match ops with
  | [] => ([], m)
  | op :: ops' => let '(won, m1) := op_view m op in let '(wins, m2) := ops_view m1 ops' in (won :: wins, m2)
  end.

(** Keys every backend serves. *)
Definition good_key (k : StorageKey) : Prop := known k /\ key_wf k /\ validate_for_postgres k = Ok tt.
Definition good_action (a : Action) : Prop :=
  match a with
  | Fetch k => good_key k
  | Scan p => good_key p /\ is_Some (key_run p)
  | Transact ops _ => Forall (fun op => good_key (op_key op)) ops
  end.
Definition rows_added (a : Action) : nat := match a with Transact ops _ => length ops | _ => 0 end.

(** ** On a store with the interface's laws *)
Section on_store.
Context {W T : Type} {ST : Storage W T} {SL : StorageLaws W T}.

Definition store_op (acc : list bool * T) (op : TxnOp) : M W CoreError (list bool * T) :=
  let '(wins, t) := acc in
  match op with
  | TPut k v => let* t := put_bytes t k v in mret (wins ++ [true], t)
  | TDelete k => let* t := delete_key t k in mret (wins ++ [true], t)
  | TCas k expected new => let* '(won, t) := cas_bytes t k expected new in mret (wins ++ [won], t)
  end.
Definition store_act (a : Action) : M W CoreError Answer :=
  match a with
  | Fetch k => let* v := get_bytes k in mret (Fetched v)
  | Scan p => let* rows := scan_bytes (mkRange p None) in mret (Scanned rows)
  | Transact ops keep =>
      let* t := begin_txn in
      let* '(wins, t) := mfold store_op ([], t) ops in
      let* _ := (if keep then commit t else abort t) in
      mret (Transacted wins)
  end.
Definition store_history (acts : list Action) : M W CoreError (list Answer) :=
  mfold (fun acc a => let* r := store_act a in mret (acc ++ [r])) [] acts.

Lemma ops_view_cons m op ops :
  ops_view m (op :: ops) = ((op_view m op).1 :: (ops_view (op_view m op).2 ops).1, (ops_view (op_view m op).2 ops).2).
Proof. simpl. destruct (op_view m op) as [won m1]. simpl. by destruct (ops_view m1 ops). Qed.

Lemma store_op_spec wins t op w : healthy w -> known (op_key op) ->
  wp (store_op (wins, t) op) (fun r w' => contents w' = contents w /\ healthy w' /\
    exists t', r = Ok (wins ++ [(op_view (view t) op).1], t') /\ view t' = (op_view (view t) op).2) w.
Proof.
  intros Hh Hk. destruct op as [k v|k|k e n]; simpl in *.
  - wp_call put_law; [done|]. intros [t'|e] w' ((Hc & _ & Hh') & Ht); [|done]. apply wp_ret. destruct Ht as [Hv _].
    split_and!; [done|auto|]. by exists t'.
  - wp_call delete_law; [done|]. intros [t'|e] w' ((Hc & _ & Hh') & Ht); [|done]. apply wp_ret. destruct Ht as [Hv _].
    split_and!; [done|auto|]. by exists t'.
  - wp_call cas_law; [done|]. intros [[won t']|e'] w' ((Hc & _ & Hh') & Ht); [|done]. apply wp_ret. destruct Ht as [Hv _]. simpl in Hv.
    split_and!; [done|auto|]. exists t'. by rewrite <- Hv.
Qed.

Lemma store_ops_spec ops : forall wins t w, healthy w -> Forall (fun op => known (op_key op)) ops ->
  wp (mfold store_op (wins, t) ops) (fun r w' => contents w' = contents w /\ healthy w' /\
    exists t', r = Ok (wins ++ (ops_view (view t) ops).1, t') /\ view t' = (ops_view (view t) ops).2) w.
Proof.
  induction ops as [|op ops IH]; intros wins t w Hh Hk.
  { apply wp_ret. split_and!; [done..|]. exists t. by rewrite app_nil_r. }
  apply Forall_cons in Hk as [Hk Hks]. cbn [mfold]. apply wp_bind. eapply wp_mono; [by apply store_op_spec|].
  intros r w1 (Hc1 & Hh1 & t1 & -> & Hv1). eapply wp_mono; [by apply IH|].
  intros r w2 (Hc2 & Hh2 & t2 & -> & Hv2). split_and!; [congruence|done|]. exists t2.
  rewrite ops_view_cons. cbn [fst snd]. by rewrite <- app_assoc, Hv2, Hv1.
Qed.

Definition after (m : store) (a : Action) : store :=
  match a with Transact ops true => (ops_view m ops).2 | _ => m end.
Definition expected_answer (m : store) (a : Action) (r : Answer) : Prop :=
  match a, r with
  | Fetch k, Fetched v => v = m !! k
  | Scan p, Scanned rows => rows ≡ₚ filter (fun kv => in_range p kv.1 = true) (map_to_list m)
  | Transact ops _, Transacted wins => wins = (ops_view m ops).1
  | _, _ => False
  end.

Lemma store_act_spec a w : healthy w -> good_action a ->
  wp (store_act a) (fun r w' => healthy w' /\ contents w' = after (contents w) a /\
    exists ans, r = Ok ans /\ expected_answer (contents w) a ans) w.
Proof.
  intros Hh Ha. destruct a as [k|p|ops keep]; simpl in *.
  - wp_call get_law; [apply Ha|]. intros [v|e] w' ((Hc & _ & Hh') & Hr); [|done]. apply wp_ret. split_and!; [auto|done|].
    by exists (Fetched v).
  - wp_call scan_law; [apply Ha|apply Ha|]. intros [rows|e] w' ((Hc & _ & Hh') & Hr); [|done]. apply wp_ret.
    split_and!; [auto|done|]. by exists (Scanned rows).
  - wp_call begin_law. intros [t|e] w1 ((Hc1 & _ & Hh1) & Ht); [|done]. destruct Ht as [Hv _].
    apply wp_bind. eapply wp_mono; [apply store_ops_spec; [auto|]|].
    { eapply Forall_impl; [exact Ha|]. by intros op [Hk _]. }
    intros r w2 (Hc2 & Hh2 & t2 & -> & Hv2). apply wp_bind. destruct keep.
    + eapply wp_mono; [apply commit_law|]. intros [[]|e] w3 (Hh3 & Hr3); [|by destruct Hr3]. destruct Hr3 as [Hc3 _].
      apply wp_ret. split_and!; [auto|congruence|]. eexists. split; [done|]. simpl. congruence.
    + eapply wp_mono; [apply abort_law|]. intros [[]|e] w3 ((Hc3 & _ & Hh3) & Hr3); [|done].
      apply wp_ret. split_and!; [auto|congruence|]. eexists. split; [done|]. simpl. congruence.
Qed.
End on_store.

(** ** On Postgres, one transaction at a time *)
Section on_postgres.
Context {D X : Type} {PG : Postgres D X} {PL : PostgresLaws D X}.

Definition pg_op (t : PostgresTxn X) (wins : list bool) (op : TxnOp) : M D CoreError (list bool) :=
  match op with
  | TPut k v => let* _ := pg_put t k v in mret (wins ++ [true])
  | TDelete k => let* _ := pg_delete t k in mret (wins ++ [true])
  | TCas k expected new => let* won := pg_cas t k expected new in mret (wins ++ [won])
  end.
Definition pg_act (a : Action) : M D CoreError Answer :=
  match a with
  | Fetch k => let* v := pg_get_bytes k in mret (Fetched v)
  | Scan p => let* rows := pg_scan_bytes (mkRange p None) in mret (Scanned rows)
  | Transact ops keep =>
      let* t := pg_begin in
      let* wins := mfold (pg_op t) [] ops in
      let* _ := (if keep then pg_commit t else pg_abort t) in
      mret (Transacted wins)
  end.
Definition pg_history (acts : list Action) : M D CoreError (list Answer) :=
  mfold (fun acc a => let* r := pg_act a in mret (acc ++ [r])) [] acts.

(** The rows a reader sees are those of the abstract store, under the columns of
    their keys, and no others. *)
Definition represents (row : RowKey -> option bytes) (m : store) : Prop :=
  (forall k, key_wf k -> row (row_of_key k) = m !! k) /\
  (forall r v, row r = Some v -> exists k, key_wf k /\ r = row_of_key k) /\
  (forall k, is_Some (m !! k) -> key_wf k).

Lemma represents_ext row row' m : (forall r, row' r = row r) -> represents row m -> represents row' m.
Proof.
  intros He (H1 & H2 & H3). split_and!; [intros k Hk; by rewrite He, H1|intros r v; rewrite He; apply H2|done].
Qed.

Lemma lookup_set_row k v m k' : set_row k v m !! k' = if decide (k' = k) then v else m !! k'.
Proof.
  destruct v as [v|]; simpl; case_decide as Hk; subst;
    rewrite ?lookup_insert_eq, ?lookup_delete_eq, ?lookup_insert_ne, ?lookup_delete_ne by done; done.
Qed.

Lemma represents_set row row' m k v : represents row m -> key_wf k ->
  (forall r, row' r = if decide (r = row_of_key k) then v else row r) -> represents row' (set_row k v m).
Proof.
  intros (H1 & H2 & H3) Hk Hrow. split_and!.
  - intros k' Hk'. rewrite Hrow, lookup_set_row. destruct (decide (k' = k)) as [->|Hne]; [by rewrite decide_True|].
    rewrite decide_False; [by apply H1|]. intros Heq. by apply Hne, row_of_key_inj.
  - intros r w. rewrite Hrow. case_decide as Hr; [by exists k|]. apply H2.
  - intros k'. rewrite lookup_set_row. case_decide as Hkk; [by subst|apply H3].
Qed.

(** Nobody but [x] holds a row. *)
Definition alone (d : D) (x : X) : Prop := forall r y, holder d r = Some y -> y = x.
Definition quiet (d : D) : Prop := forall r, holder d r = None.

Lemma alone_own_step x d d' : own_step x d d' -> alone d x -> alone d' x.
Proof. intros Hs Ha r. apply (free_own_step x r d d' Hs). intros y. apply Ha. Qed.

Lemma good_answer {A} k d (r : result CoreError A) P : good_key k -> up d -> answered d k r P -> exists a, r = Ok a /\ P a.
Proof. intros (_ & _ & Hv) Hu Hr. destruct r as [a|e]; [by exists a|]. destruct Hr as [Hr|Hr]; [congruence|done]. Qed.

(** What staging one operation gives. *)
Definition staged (x : X) (m : store) (d d' : D) : Prop :=
  up d' /\ alone d' x /\ committed d' = committed d /\ represents (visible d' x) m.

Lemma staged_set x k v m d d' : own_step x d d' -> up d -> alone d x -> represents (visible d x) m -> key_wf k ->
  staged_row x (row_of_key k) v d d' -> staged x (set_row k v m) d d'.
Proof.
  intros Hs Hu Ha Hr Hk Hst. split_and!; [by apply Hs|by eapply alone_own_step|by destruct Hs|].
  by eapply represents_set.
Qed.

Lemma pg_op_spec x wins op m d : up d -> alone d x -> represents (visible d x) m -> good_key (op_key op) ->
  wp (pg_op (mkTxn (Some x)) wins op) (fun r d' => r = Ok (wins ++ [(op_view m op).1]) /\ staged x (op_view m op).2 d d') d.
Proof.
  intros Hu Ha Hr Hk. pose proof Hk as (_ & Hwf & _).
  destruct (postgres_stages_parts x (op_key op) (match op with TPut _ v => v | _ => [] end) d) as [Hput Hdel]; [intros y; apply Ha|].
  destruct op as [k v|k|k e n]; simpl in *; apply wp_bind.
  - eapply wp_mono; [apply Hput|]. intros r d' [Hs Hres]. destruct (good_answer k d r _ Hk Hu Hres) as ([] & -> & Hst).
    apply wp_ret. split; [done|]. by apply (staged_set x k (Some v)).
  - eapply wp_mono; [apply Hdel|]. intros r d' [Hs Hres]. destruct (good_answer k d r _ Hk Hu Hres) as ([] & -> & Hst).
    apply wp_ret. split; [done|]. by apply (staged_set x k None).
  - eapply wp_mono; [apply postgres_stages_cas; intros y; apply Ha|].
    intros r d' [Hs Hres]. destruct (good_answer k d r _ Hk Hu Hres) as (won & -> & -> & Hst). apply wp_ret.
    assert (visible d x (row_of_key k) = m !! k) as Hv by (by apply Hr). rewrite Hv in *. unfold cas_view.
    case_bool_decide as Hexp; [rewrite decide_True by done|rewrite decide_False by done]; (split; [done|]).
    + by apply (staged_set x k n).
    + split_and!; [by apply Hs|by eapply alone_own_step|by destruct Hs|].
      eapply represents_ext; [|exact Hr]. intros r. rewrite Hst. case_decide; [by subst|done].
Qed.

Lemma staged_trans x m m1 d d1 d2 : staged x m d d1 -> staged x m1 d1 d2 -> staged x m1 d d2.
Proof. intros (_ & _ & Hc & _) (Hu2 & Ha2 & Hc2 & Hr2). split_and!; [done|done|congruence|done]. Qed.

Lemma pg_ops_spec x ops : forall wins m d, up d -> alone d x -> represents (visible d x) m ->
  Forall (fun op => good_key (op_key op)) ops ->
  wp (mfold (pg_op (mkTxn (Some x))) wins ops) (fun r d' =>
    r = Ok (wins ++ (ops_view m ops).1) /\ staged x (ops_view m ops).2 d d') d.
Proof.
  induction ops as [|op ops IH]; intros wins m d Hu Ha Hr Hk.
  { apply wp_ret. rewrite app_nil_r. done. }
  apply Forall_cons in Hk as [Hk Hks]. cbn [mfold]. apply wp_bind. eapply wp_mono; [by apply pg_op_spec|].
  intros r d1 (-> & Hst). pose proof Hst as (Hu1 & Ha1 & _ & Hr1).
  eapply wp_mono; [by apply IH|]. intros r d2 (-> & Hst2). rewrite ops_view_cons. cbn [fst snd]. rewrite <- app_assoc.
  split; [done|]. by eapply staged_trans.
Qed.

(** A scan of the table and a scan of the abstract store give the same rows. *)
Lemma scan_rows p (C : rows) m : key_wf p -> represents (fun r => C !! r) m ->
  (fun kv => (key_of_row kv.1, kv.2)) <$> filter (fun kv => selects p kv.1) (map_to_list C)
  ≡ₚ filter (fun kv => in_range p kv.1 = true) (map_to_list m).
Proof.
  intros Hp (H1 & H2 & H3). apply NoDup_Permutation.
  - apply NoDup_fmap_2_strong; [|apply NoDup_filter, NoDup_map_to_list].
    intros [r v] [r' v'] (_ & Hr%elem_of_map_to_list)%list_elem_of_filter (_ & Hr'%elem_of_map_to_list)%list_elem_of_filter.
    cbn [fst snd]. intros [He ->]%pair_eq.
    destruct (H2 _ _ Hr) as (k & Hk & ->), (H2 _ _ Hr') as (k' & Hk' & ->). by rewrite !key_of_row_of_key in He by done; subst.
  - apply NoDup_filter, NoDup_map_to_list.
  - intros [k v]. rewrite list_elem_of_fmap, list_elem_of_filter, elem_of_map_to_list. cbn [fst]. split.
    + intros ([r v'] & [-> ->]%pair_eq & (Hsel & Hr%elem_of_map_to_list)%list_elem_of_filter).
      destruct (H2 _ _ Hr) as (k & Hk & ->). cbn [fst snd] in *. rewrite key_of_row_of_key by done.
      split; [by apply selects_in_range|]. by rewrite <- H1.
    + intros [Hin Hk]. assert (key_wf k) as Hwf by (apply H3; by eexists). exists (row_of_key k, v). cbn [fst snd].
      rewrite key_of_row_of_key by done. split; [done|]. apply list_elem_of_filter. split; [by apply selects_in_range|].
      apply elem_of_map_to_list. by rewrite H1.
Qed.

(** Between transactions: the table holds the abstract store, and no row is locked. *)
Definition serves (d : D) (m : store) : Prop := up d /\ quiet d /\ represents (fun r => committed d !! r) m.

Lemma serves_unchanged d d' m : serves d m -> unchanged d d' -> serves d' m.
Proof.
  intros (Hu & Hq & Hr) (Hc & _ & Hh & Hu'). split_and!; [auto|intros r; rewrite Hh; apply Hq|]. by rewrite Hc.
Qed.
Lemma serves_released x d d' m : alone d x -> released x d d' -> up d' -> represents (fun r => committed d' !! r) m -> serves d' m.
Proof.
  intros Ha Hrel Hu Hr. split_and!; [done| |done]. intros r. apply Hrel. destruct (holder d r) as [y|] eqn:E; [left|by right].
  by rewrite (Ha r y E).
Qed.

Lemma pg_scan_agrees p m d : serves d m -> good_key p -> (N.of_nat (size m) <= i64_max)%N ->
  wp (pg_scan_bytes (mkRange p None)) (fun r d' => unchanged d d' /\
    exists l, r = Ok l /\ l ≡ₚ filter (fun kv => in_range p kv.1 = true) (map_to_list m)) d.
Proof.
  intros (Hu & Hq & Hr) Hk Hsize. eapply wp_mono; [apply pg_scan_spec|]. intros r d' [Hun Hres]. split; [done|].
  cbn [prefix limit] in Hres. destruct (good_answer p d r _ Hk Hu Hres) as (l & -> & all & Hall & ->). exists ((fun kv => (key_of_row kv.1, kv.2)) <$> all).
  pose proof (scan_rows p (committed d) m ltac:(apply Hk) Hr) as Hrows.
  assert (length all <= size m) as Hlen.
  { rewrite Hall, <- (length_fmap (fun kv : RowKey * bytes => (key_of_row kv.1, kv.2))), Hrows, length_filter. by rewrite length_map_to_list. }
  split; [|by rewrite Hall, Hrows]. rewrite take_ge; [done|]. unfold scan_limit. simpl. rewrite N.min_id. lia.
Qed.

Lemma pg_transact_spec ops keep m d : serves d m -> good_action (Transact ops keep) ->
  wp (pg_act (Transact ops keep)) (fun r d' => r = Ok (Transacted (ops_view m ops).1) /\ serves d' (after m (Transact ops keep))) d.
Proof.
  intros (Hu & Hq & Hr) Hk. cbn [pg_act]. apply wp_bind. unfold pg_begin. apply wp_bind, wp_map_err.
  eapply wp_mono; [apply begin_pg|]. intros [x|e] d1 (Hc1 & Hh1 & Hu1 & Hres); [|done]. destruct Hres as (Hw1 & _ & _).
  specialize (Hu1 Hu). apply wp_ret, wp_bind.
  assert (alone d1 x) as Ha1 by (intros r y Hy; rewrite Hh1, Hq in Hy; done).
  eapply wp_mono; [apply (pg_ops_spec x ops [] m); [done|done| |exact Hk]|].
  { eapply represents_ext; [|exact Hr]. intros r. unfold visible. by rewrite Hw1, lookup_empty, Hc1. }
  intros r d2 (-> & Hu2 & Ha2 & Hc2 & Hr2). apply wp_bind. destruct keep.
  - eapply wp_mono; [apply commit_spec|]. intros [[]|e] d3 (_ & Hrel & Hu3 & H3); [|by destruct H3].
    apply wp_ret. split; [done|]. apply (serves_released x d2); [done|done|auto|]. by eapply represents_ext; [|exact Hr2].
  - cbn [pg_abort tx]. apply wp_map_err. eapply wp_mono; [apply rollback_pg|].
    intros [[]|e] d3 (Hc3 & _ & Hu3 & H3); [|done]. apply wp_ret. split; [done|].
    apply (serves_released x d2); [done|done|auto|]. eapply represents_ext; [|exact Hr]. intros r. by rewrite Hc3, Hc2, Hc1.
Qed.

Lemma pg_act_spec a m d : serves d m -> good_action a -> (N.of_nat (size m) <= i64_max)%N ->
  wp (pg_act a) (fun r d' => serves d' (after m a) /\ exists ans, r = Ok ans /\ expected_answer m a ans) d.
Proof.
  intros Hs Ha Hsize. pose proof Hs as (Hu & _ & Hr). destruct a as [k|p|ops keep].
  - cbn [pg_act]. apply wp_bind. eapply wp_mono; [apply pg_get_spec|]. intros r d' [Hun Hres].
    destruct (good_answer k d r _ Ha Hu Hres) as (v & -> & ->). apply wp_ret. split; [by eapply serves_unchanged|].
    eexists. split; [done|]. apply Hr, Ha.
  - cbn [pg_act]. apply wp_bind. eapply wp_mono; [apply pg_scan_agrees; [done|apply Ha|done]|].
    intros r d' (Hun & l & -> & Hl). apply wp_ret. split; [by eapply serves_unchanged|]. by eexists.
  - eapply wp_mono; [by apply pg_transact_spec|]. intros r d' [-> Hs']. split; [done|]. by eexists.
Qed.
End on_postgres.

(** ** Together *)
Lemma size_after m a : size (after m a) <= size m + rows_added a.
Proof.
  destruct a as [k|p|ops []]; simpl; try lia. revert m. induction ops as [|op ops IH]; intros m; [simpl; lia|].
  rewrite ops_view_cons. simpl. specialize (IH (op_view m op).2).
  assert (forall k v, size (set_row k v m) <= S (size m)) as Hset.
  { intros k [v|]; simpl; [rewrite map_size_insert|rewrite map_size_delete]; destruct (m !! k); simpl; lia. }
  assert (size (op_view m op).2 <= S (size m)); [|lia].
  destruct op as [k v|k|k e n]; simpl; [apply (Hset k (Some v))|apply (Hset k None)|].
  unfold cas_view. case_decide; simpl; [apply (Hset k n)|lia].
Qed.

Lemma expected_same m a r r' : expected_answer m a r -> expected_answer m a r' -> same_answer r r'.
Proof. destruct a, r, r'; simpl; try done; [by intros -> ->|by intros -> ->|by intros -> ->]. Qed.

Section together.
Context {W T D X : Type} {ST : Storage W T} {SL : StorageLaws W T} {PG : Postgres D X} {PL : PostgresLaws D X}.

Lemma answer_step {V A B} (act : A -> M V CoreError B) a acts pre ans v v' : act a v = (Ok ans, v') ->
  mfold (fun acc a => let* r := act a in mret (acc ++ [r])) pre (a :: acts) v =
  mfold (fun acc a => let* r := act a in mret (acc ++ [r])) (pre ++ [ans]) acts v'.
Proof. intros E. cbn [mfold]. unfold mbind_ at 1 2. by rewrite E. Qed.

Lemma histories_agree acts : forall pre_s pre_d w d, Forall good_action acts -> healthy w -> serves d (contents w) ->
  (N.of_nat (size (contents w) + sum_list (rows_added <$> acts)) <= i64_max)%N ->
  exists as_s as_d w' d',
    mfold (fun acc a => let* r := store_act a in mret (acc ++ [r])) pre_s acts w = (Ok (pre_s ++ as_s), w') /\
    mfold (fun acc a => let* r := pg_act a in mret (acc ++ [r])) pre_d acts d = (Ok (pre_d ++ as_d), d') /\
    Forall2 same_answer as_s as_d /\ healthy w' /\ serves d' (contents w').
Proof.
  induction acts as [|a acts IH]; intros pre_s pre_d w d Hg Hh Hs Hsize.
  { exists [], [], w, d. rewrite !app_nil_r. done. }
  apply Forall_cons in Hg as [Ha Hg]. rewrite fmap_cons in Hsize. simpl in Hsize.
  pose proof (store_act_spec a w Hh Ha) as H1. pose proof (pg_act_spec a (contents w) d Hs Ha ltac:(lia)) as H2.
  unfold wp in H1, H2. revert H1 H2. destruct (store_act a w) as [r1 w1] eqn:E1, (pg_act a d) as [r2 d1] eqn:E2.
  cbn [fst snd]. intros (Hh1 & Hc1 & ans1 & -> & Hans1) (Hs2 & ans2 & -> & Hans2). rewrite <- Hc1 in Hs2.
  pose proof (size_after (contents w) a) as Hsz. rewrite <- Hc1 in Hsz.
  destruct (IH (pre_s ++ [ans1]) (pre_d ++ [ans2]) w1 d1 Hg Hh1 Hs2 ltac:(lia)) as (l1 & l2 & w' & d' & F1 & F2 & HF & Hh' & Hs').
  exists (ans1 :: l1), (ans2 :: l2), w', d'. rewrite (answer_step store_act a acts pre_s ans1 w w1 E1), (answer_step pg_act a acts pre_d ans2 d d1 E2).
  rewrite F1, F2, <- !app_assoc. split_and!; [done|done| |done|done]. constructor; [by eapply expected_same|done].
Qed.

(** C2: Any history of reads, scans and transactions, one at a time, reads the same on
    Postgres as on any store with the interface's laws that holds the same rows: neither
    backend fails, the answers are equal one by one (a scan's rows up to their order),
    every swap is won on both or lost on both, and at the end both hold the same rows
    again and no row is locked.  The keys are the ones both backends accept, and the table
    stays below the limit an unlimited scan sends. *)
Theorem backends_agree acts w d (Hgood : Forall good_action acts) (Hhealthy : healthy w) (Hsim : serves d (contents w))
    (Hsize : (N.of_nat (size (contents w) + sum_list (rows_added <$> acts)) <= i64_max)%N) :
  exists as_s as_d w' d',
    store_history acts w = (Ok as_s, w') /\ pg_history acts d = (Ok as_d, d') /\
    Forall2 same_answer as_s as_d /\ healthy w' /\ serves d' (contents w').
Proof. by apply (histories_agree acts [] [] w d). Qed.
End together.

(** ** At a concrete history *)
Section backends_examples.
Import Toy.
Definition lease_store : store := {[ lease_row := [x00] ]}.
(** A takeover, a lost swap beside a put that is kept, an aborted delete; a read and a scan between. *)
Definition lease_history : list Action :=
  [Transact [TCas lease_row (Some [x00]) (Some [x0a])] true;
   Transact [TCas lease_row (Some [x00]) (Some [x0b]); TPut (mkKey "work" (Some 5%N) ["item"]) [x01]] true;
   Fetch lease_row; Transact [TDelete lease_row] false; Scan (mkKey "work" (Some 5%N) [])].

Lemma good_lease : good_key lease_row.
Proof. split_and!; [by apply list_elem_of_In; do 8 right; left|vm_compute; reflexivity|vm_compute; reflexivity]. Qed.
Lemma good_item p : p = [] \/ p = ["item"] -> good_key (mkKey "work" (Some 5%N) p).
Proof. by intros [-> | ->]; (split_and!; [apply list_elem_of_In; do 10 right; left|vm_compute; reflexivity|vm_compute; reflexivity]). Qed.

Lemma lease_server_serves : serves leased_server lease_store.
Proof.
  split_and!; [exact I|done|split_and!].
  - intros k Hk. unfold lease_store. change (({[ row_of_key lease_row := [x00] ]} : rows) !! row_of_key k = ({[ lease_row := [x00] ]} : store) !! k).
    destruct (decide (k = lease_row)) as [->|Hne]; [by rewrite !lookup_singleton_eq|].
    rewrite !lookup_singleton_ne; [done|done|]. intros E. by apply Hne, row_of_key_inj.
  - intros r v Hr. simpl in Hr. apply lookup_singleton_Some in Hr as [<- _]. by exists lease_row.
  - intros k [v Hk]. unfold lease_store in Hk. by apply lookup_singleton_Some in Hk as [<- _].
Qed.

Lemma backends_agree_witness :
  fst (pg_history (take 4 lease_history) leased_server) =
    Ok [Transacted [true]; Transacted [false; true]; Fetched (Some [x0a]); Transacted [true]] /\
  exists as_s as_d w' d',
    store_history lease_history (Mem.mkWorld lease_store [] []) = (Ok as_s, w') /\ pg_history lease_history leased_server = (Ok as_d, d') /\
    Forall2 same_answer as_s as_d /\ healthy w' /\ serves d' (contents w').
Proof.
  split; [vm_compute; reflexivity|].
  apply backends_agree; [|constructor|exact lease_server_serves|vm_compute; discriminate].
  repeat constructor; simpl; (apply good_lease || by apply good_item; auto) || (by eexists).
Defined.
End backends_examples.
