(* ===== verification/Plugins.v ===== *)
(** The plugin host (rollout-plugin-host/src, the types of rollout-core/src/traits/plugin.rs):
    manifests and their checks, the three loading modes, and the host that keeps the loaded
    plugins.  Dynamic libraries, Python and the sidecars' processes and sockets are classes:
    one operation per call the code makes. *)
From stdpp Require Import base option list gmap strings pretty.
From S2P Require Import Prelude.
From S2P Require Import Text.
From S2P Require Import Core.
From S2P Require Import Json.
From S2P Require Import Storage.

Definition contract (plugin msg : string) : CoreError := Fatal (PluginContract plugin msg).
Definition cfg_invalid (msg : string) : CoreError := Fatal (ConfigInvalid msg).

(** ** Manifests *)
Inductive PluginKind : Type :=
| EnvHarness | ToolHarness | EvalHarness | RewardModel | InferenceBackendKind | StorageKind | QueueKind | ObjectStoreKind | CustomKind (id : string).
Inductive PluginMode : Type := Pyo3Mode | SidecarMode | RustCdylib.
Inductive SidecarProtocol : Type := GrpcUds | FramedJsonUds.
Record RuntimeHints : Type := mkHints { python_min : option string; gpu : bool; memory_mib : N }.
Inductive EntrySpec : Type :=
| CdylibEntry (path symbol : string)
| Pyo3Entry (module factory : string)
| SidecarEntry (command : list string) (protocol : SidecarProtocol) (socket_template : string).
Record PluginManifest : Type := mkManifest {
  plugin_name : string; version : string; plugin_kind : PluginKind; trait_id : string; mode : PluginMode;
  runtime : RuntimeHints; entry : EntrySpec; config_schema_path : option string; network_allowlist : list string;
}.
Abbreviation PluginId := string.
Record PluginHandle : Type := mkHandle { handle_id : PluginId; manifest : PluginManifest }.

Definition trim_is_empty (s : string) : bool := bool_decide (str_trim s = "").
(** [s.split('.')], on characters; the code of the full stop is 46. *)
Definition dotted (v : string) : list (list char) := split (fun c => bool_decide (c = 46%N)) (chars v).

Definition bad_version (v : string) : CoreError := cfg_invalid ("python_min: bad version " +:+ v).
Definition require_python_311 (v : string) : result CoreError unit :=
  let parts := dotted v in
  match parts !! 0 ≫= parse_u32 with
  | None => Err (bad_version v)
  | Some major =>
      match parts !! 1 ≫= parse_u32 with
      | None => Err (bad_version v)
      | Some minor =>
          if decide (major < 3 \/ major = 3 /\ minor < 11)%N then
            Err (cfg_invalid ("python_min " +:+ v +:+ " below 3.11 (required for stdlib tomllib + PyO3 abi3)"))
          else Ok tt
      end
  end.

Definition validate_manifest (m : PluginManifest) : result CoreError unit :=
  if trim_is_empty (plugin_name m) then Err (cfg_invalid "manifest.name must be non-empty")
  else if trim_is_empty (version m) then Err (cfg_invalid "manifest.version must be non-empty")
  else match mode m with
       | Pyo3Mode => match python_min (runtime m) with
                     | None => Err (cfg_invalid "pyo3 plugins require runtime.python_min")
                     | Some py => require_python_311 py
                     end
       | SidecarMode | RustCdylib => Ok tt
       end.

Section parsing.
Context (toml : string -> result string PluginManifest).
Definition parse_manifest_str (s : string) : result CoreError PluginManifest :=
  match toml s with
  | Err e => Err (cfg_invalid ("manifest toml: " +:+ e))
  | Ok m => let? _ := validate_manifest m in Ok m
  end.
Definition parse_manifest (path : string) (read : result string string) : result CoreError PluginManifest :=
  match read with
  | Err e => Err (cfg_invalid ("read manifest " +:+ path +:+ ": " +:+ e))
  | Ok raw => parse_manifest_str raw
  end.
End parsing.

Definition mode_debug (m : PluginMode) : string :=
  match m with Pyo3Mode => "Pyo3" | SidecarMode => "Sidecar" | RustCdylib => "RustCdylib" end.
Definition protocol_debug (p : SidecarProtocol) : string := match p with GrpcUds => "GrpcUds" | FramedJsonUds => "FramedJsonUds" end.
Definition entry_debug (e : EntrySpec) : string :=
  match e with
  | CdylibEntry path symbol => "Cdylib { path: " +:+ str_debug path +:+ ", symbol: " +:+ str_debug symbol +:+ " }"
  | Pyo3Entry module factory => "Pyo3 { module: " +:+ str_debug module +:+ ", factory: " +:+ str_debug factory +:+ " }"
  | SidecarEntry command protocol template =>
      "Sidecar { command: [" +:+ String.concat ", " (str_debug <$> command) +:+ "], protocol: " +:+ protocol_debug protocol
      +:+ ", socket_template: " +:+ str_debug template +:+ " }"
  end.

(** ** Dynamic libraries *)
Definition ABI_VERSION : N := 1.
(** A buffer a plugin hands out: null, or the bytes at its pointer. *)
Abbreviation Buf := (option bytes).

Class Cdylibs (L : Type) : Type := {
  Vtable : Type;
  (** [Library::new], then the factory behind the symbol: null or a table. *)
  lib_open : string -> M L string unit;
  lib_factory : string -> string -> M L string (option Vtable);
  abi_version : Vtable -> N;
  vt_call : Vtable -> bytes -> bytes -> L -> Z * Buf * L;
  vt_free_buf : Vtable -> Buf -> L -> L;
}.

Section cdylib.
Context `{CL : Cdylibs L}.
Record CdylibState : Type := mkCdylib { vtable : option Vtable; cdylib_name : string }.

Definition cdylib_load (enabled : bool) (path symbol plugin : string) : M L CoreError CdylibState :=
  if enabled then
    let* _ := map_err (fun e => internal ("cdylib load " +:+ path +:+ ": " +:+ e)) (lib_open path) in
    let* vt := map_err (fun e => internal ("cdylib symbol " +:+ symbol +:+ ": " +:+ e)) (lib_factory path symbol) in
    match vt with
    | None => mthrow (contract plugin "cdylib factory returned null")
    | Some vt =>
        if decide (abi_version vt <> ABI_VERSION) then
          mthrow (contract plugin ("cdylib ABI mismatch: got " +:+ pretty (abi_version vt) +:+ ", expected " +:+ pretty ABI_VERSION))
        else mret (mkCdylib (Some vt) plugin)
    end
  else mthrow (contract plugin "cdylib feature disabled").

Definition for_tests_placeholder (plugin : string) : CdylibState := mkCdylib None plugin.

Definition cdylib_call (s : CdylibState) (method : string) (payload : bytes) : M L CoreError bytes := fun l =>
  match vtable s with
  | None => (Err (contract (cdylib_name s) "cdylib call on uninitialised handle"), l)
  | Some vt =>
      let '(rc, out, l') := vt_call vt (bytes_of method) payload l in
      if decide (rc <> 0)%Z then
        (Err (contract (cdylib_name s) ("cdylib call(" +:+ method +:+ ") rc=" +:+ pretty rc)), l')
      else match out with
           | None | Some [] => (Ok [], l')
           | Some copy => (Ok copy, vt_free_buf vt out l')
           end
  end.
End cdylib.

(** ** Python in the process *)
Class PluginPython (P : Type) : Type := {
  PyObj : Type;
  py_insert_path : string -> M P string unit;
  py_import : string -> M P string PyObj;
  py_getattr : PyObj -> string -> M P string PyObj;
  py_call0 : PyObj -> M P string PyObj;
  py_call_method : PyObj -> string -> bytes -> M P string PyObj;
  py_as_bytes : PyObj -> M P string bytes;
  py_reload : PyObj -> M P string PyObj;
}.

Section pyo3.
Context `{PP : PluginPython P}.
Inductive PyTask : Type := PyCall (method : string) (payload : bytes) | PyReload | PyShutdown.
(** The worker thread: its plugin object or the error of its start, and whether its loop
    has ended. *)
Record Pyo3State : Type := mkPyo3 { py_plugin : result string PyObj; py_gone : bool; py_module : string; py_factory : string; py_name : string }.
Inductive PyReply : Type := CallReply (r : result CoreError bytes) | ReloadReply (r : result CoreError unit) | NoReply.

(** [worker_main] up to its loop. *)
Definition start_plugin (python_path : list string) (module factory : string) : M P string PyObj :=
  let* _ := mfold (fun _ p => py_insert_path p) tt python_path in
  let* m := py_import module in
  let* f := py_getattr m factory in
  py_call0 f.

Definition init_failed (s : Pyo3State) (e : string) : CoreError := contract (py_name s) ("pyo3 init failed: " +:+ e).

Definition run_call (s : Pyo3State) (plugin : PyObj) (method : string) (payload : bytes) : M P CoreError bytes :=
  let* out := map_err (fun e => contract (py_name s) ("pyo3 call: " +:+ e)) (py_call_method plugin method payload) in
  map_err (fun e => contract (py_name s) ("pyo3 call return type: " +:+ e)) (py_as_bytes out).

Definition run_reload (s : Pyo3State) : M P CoreError PyObj :=
  let err what e := contract (py_name s) (what +:+ ": " +:+ e) in
  let* _ := map_err (err "importlib") (py_import "importlib") in
  let* m := map_err (err ("import " +:+ py_module s)) (py_import (py_module s)) in
  let* reloaded := map_err (err ("reload " +:+ py_module s)) (py_reload m) in
  let* f := map_err (err ("getattr " +:+ py_factory s)) (py_getattr reloaded (py_factory s)) in
  map_err (err "factory()") (py_call0 f).

(** One round of either loop of [worker_main]. *)
Definition serve (s : Pyo3State) (t : PyTask) (p : P) : PyReply * Pyo3State * P :=
  match py_plugin s, t with
  | _, PyShutdown => (NoReply, mkPyo3 (py_plugin s) true (py_module s) (py_factory s) (py_name s), p)
  | Err e, PyCall _ _ => (CallReply (Err (init_failed s e)), s, p)
  | Err e, PyReload => (ReloadReply (Err (init_failed s e)), s, p)
  | Ok plugin, PyCall method payload => let '(r, p') := run_call s plugin method payload p in (CallReply r, s, p')
  | Ok plugin, PyReload =>
      match run_reload s p with
      | (Ok fresh, p') => (ReloadReply (Ok tt), mkPyo3 (Ok fresh) false (py_module s) (py_factory s) (py_name s), p')
      | (Err e, p') => (ReloadReply (Err e), s, p')
      end
  end.

(** [Pyo3State::spawn] with the thread's start; [spawned] is the error of the spawn. *)
Definition pyo3_spawn (spawned : option string) (module factory : string) (python_path : list string) (plugin : string)
  : M P CoreError Pyo3State := fun p =>
  match spawned with
  | Some e => (Err (internal ("spawn pyo3 worker thread: " +:+ e)), p)
  | None => let '(r, p') := start_plugin python_path module factory p in (Ok (mkPyo3 r false module factory plugin), p')
  end.

(** A task sent and its reply awaited; the host serves one call at a time. *)
Definition ask (t : PyTask) (s : Pyo3State) (p : P) : option PyReply * Pyo3State * P :=
  if py_gone s then (None, s, p) else let '(r, s', p') := serve s t p in (Some r, s', p').
Definition gone (s : Pyo3State) : CoreError := contract (py_name s) "pyo3 worker thread gone".
Definition pyo3_call (method : string) (payload : bytes) (s : Pyo3State) (p : P) : result CoreError bytes * Pyo3State * P :=
  match ask (PyCall method payload) s p with
  | (Some (CallReply r), s', p') => (r, s', p')
  | (Some _, s', p') => (Err (contract (py_name s) "pyo3 reply dropped"), s', p')
  | (None, s', p') => (Err (gone s), s', p')
  end.
Definition pyo3_reload (s : Pyo3State) (p : P) : result CoreError unit * Pyo3State * P :=
  match ask PyReload s p with
  | (Some (ReloadReply r), s', p') => (r, s', p')
  | (Some _, s', p') => (Err (contract (py_name s) "pyo3 reload reply dropped"), s', p')
  | (None, s', p') => (Err (gone s), s', p')
  end.
Definition pyo3_shutdown (s : Pyo3State) (p : P) : result CoreError unit * Pyo3State * P :=
  let '(_, s', p') := ask PyShutdown s p in (Ok tt, s', p').
End pyo3.

(** ** Sidecar processes *)
Class SidecarOs (Y : Type) : Type := {
  Child : Type;
  Stream : Type;
  os_remove_file : string -> Y -> Y;
  os_mkdir : string -> M Y string unit;
  (** The command and its arguments, the socket's path last. *)
  os_spawn : string -> list string -> M Y string Child;
  os_connect : string -> M Y string Stream;
  os_clock : Y -> N;
  os_sleep : N -> Y -> Y;
  os_write : Stream -> bytes -> M Y string unit;
  os_flush : Stream -> M Y string unit;
  os_read_exact : Stream -> nat -> M Y string bytes;
  os_sigterm : Child -> Y -> Y;
  (** Wait for the child's end: false when the time runs out first. *)
  os_wait : N -> Child -> Y -> bool * Y;
  os_kill : Child -> Y -> Y;
  (** A socket dropped, a child dropped ([kill_on_drop]). *)
  os_close : Stream -> Y -> Y;
  os_drop : Child -> Y -> Y;
}.

(** What the standard library and the kernel say of those calls.  A child is [running]
    until it has been seen to end or has been killed. *)
Class Running (Y : Type) `{SidecarOs Y} : Type := running : Child -> Y -> Prop.
(** No child runs in [s'] that did not run in [s]. *)
Definition calmer `{Running Y} (s s' : Y) : Prop := forall c, running c s' -> running c s.
Class SidecarLaws (Y : Type) `{Running Y} : Prop := {
  remove_law p s : calmer s (os_remove_file p s);
  mkdir_law p : stays_in calmer (os_mkdir p);
  spawn_law p args s : match os_spawn p args s with
                       | (Ok c, s') => forall c', running c' s' -> running c' s \/ c' = c
                       | (Err _, s') => calmer s s'
                       end;
  connect_law p s : calmer s (os_connect p s).2 /\ (os_clock s <= os_clock (os_connect p s).2)%N;
  sleep_law n s : calmer s (os_sleep n s) /\ (os_clock s + n <= os_clock (os_sleep n s))%N;
  write_law st b : stays_in calmer (os_write st b);
  flush_law st : stays_in calmer (os_flush st);
  read_law st n : stays_in calmer (os_read_exact st n);
  sigterm_law c s : calmer s (os_sigterm c s);
  wait_law n c s : calmer s (os_wait n c s).2 /\ ((os_wait n c s).1 = true -> ~ running c (os_wait n c s).2);
  kill_law c s : calmer s (os_kill c s) /\ ~ running c (os_kill c s);
  close_law st s : calmer s (os_close st s);
  child_drop_law c s : calmer s (os_drop c s) /\ ~ running c (os_drop c s);
}.

(** [Path::parent] and [PathBuf::join] of the texts the host makes its socket paths from. *)
Definition str_starts (p s : string) : bool := has_prefix (bytes_of p) (bytes_of s).
Definition str_ends (p s : string) : bool := has_prefix (reverse (bytes_of p)) (reverse (bytes_of s)).
Definition path_join (root name : string) : string :=
  if str_starts "/" name then name
  else if bool_decide (root = "") || str_ends "/" root then root +:+ name else root +:+ "/" +:+ name.

Section sidecar.
Context {JT : JsonText} `{SO : SidecarOs Y} (parent_of : string -> option string).
Record SidecarState : Type := mkSidecar {
  child : option Child; sock : option Stream; command : list string; socket_path : string; sidecar_name : string;
}.

(** [connect_with_retry]: a try, and 50 ms later another, until the deadline has passed. *)
Fixpoint connect_until (fuel : nat) (deadline : N) (path : string) (s : Y) : option (result CoreError Stream * Y) :=
  match fuel with
  | O => None
  | S fuel' =>
      match os_connect path s with
      | (Ok st, s') => Some (Ok st, s')
      | (Err e, s') =>
          if decide (os_clock s' < deadline)%N then connect_until fuel' deadline path (os_sleep 50 s')
          else Some (Err (internal ("connect " +:+ path +:+ ": " +:+ e)), s')
      end
  end.
(** A try every 50 ms of the five seconds, both ends included. *)
Definition connect_fuel : nat := 101.
Definition connect_with_retry (path : string) : M Y CoreError Stream := fun s =>
  default (Err (internal "out of fuel"), s) (connect_until connect_fuel (os_clock s + 5000) path s).

Definition drop_child {A} (c : Child) (m : M Y CoreError A) : M Y CoreError A := fun s =>
  match m s with (Ok a, s') => (Ok a, s') | (Err e, s') => (Err e, os_drop c s') end.

Definition make_parent (path : string) : M Y CoreError unit :=
  match parent_of path with
  | Some parent => map_err (fun e => internal ("mkdir " +:+ parent +:+ ": " +:+ e)) (os_mkdir parent)
  | None => mret tt
  end.
Definition sidecar_spawn (command : list string) (socket_path plugin : string) : M Y CoreError SidecarState :=
  let* _ := (fun s => (Ok tt, os_remove_file socket_path s)) in
  let* _ := make_parent socket_path in
  match command with
  | [] => mthrow (internal "sidecar command is empty")
  | program :: args =>
      let* c := map_err (fun e => internal ("spawn sidecar " +:+ program +:+ ": " +:+ e)) (os_spawn program (args ++ [socket_path])) in
      let* st := drop_child c (connect_with_retry socket_path) in
      mret (mkSidecar (Some c) (Some st) command socket_path plugin)
  end.

(** A frame: the length in four bytes, then the body. *)
Definition frame (body : bytes) : bytes := be_bytes 4 (N.of_nat (length body)) ++ body.
Definition request_body (method : string) (payload : bytes) : bytes :=
  bytes_of (json_text (JObject [("method", JString method); ("payload", JString (from_utf8_lossy payload))])).

Definition sidecar_call (sc : SidecarState) (method : string) (payload : bytes) : M Y CoreError bytes :=
  let err what e := internal ("sidecar " +:+ what +:+ ": " +:+ e) in
  match sock sc with
  | None => mthrow (internal "sidecar stream not connected")
  | Some st =>
      let body := request_body method payload in
      if decide (2 ^ 32 <= N.of_nat (length body))%N then mthrow (internal "sidecar request too large")
      else
        let* _ := map_err (err "write len") (os_write st (be_bytes 4 (N.of_nat (length body)))) in
        let* _ := map_err (err "write body") (os_write st body) in
        let* _ := map_err (err "flush") (os_flush st) in
        let* hdr := map_err (err "read len") (os_read_exact st 4) in
        map_err (err "read body") (os_read_exact st (N.to_nat (from_be_bytes hdr)))
  end.

Definition shutdown_body : bytes := bytes_of (json_text (JObject [("method", JString "Shutdown")])).
Definition say_goodbye (st : Stream) : M Y string (result string unit) :=
  let* _ := mcatch (os_write st (be_bytes 4 (wrap 32 (N.of_nat (length shutdown_body))))) in
  let* _ := mcatch (os_write st shutdown_body) in
  mcatch (os_flush st).
(** Waits two seconds for the child, then kills it; whatever happens is ignored. *)
Definition reap (c : Child) (s : Y) : Y :=
  let '(ended, s') := os_wait 2000 c s in if (ended : bool) then os_drop c s' else os_drop c (os_kill c s').
Definition sidecar_shutdown (sc : SidecarState) (s : Y) : result CoreError unit * SidecarState * Y :=
  let s := match sock sc with
           | Some st => (say_goodbye st s).2
           | None => s
           end in
  let s := match child sc with Some c => reap c s | None => s end in
  let s := match sock sc with Some st => os_close st s | None => s end in
  (Ok tt, mkSidecar None None (command sc) (socket_path sc) (sidecar_name sc), os_remove_file (socket_path sc) s).

(** [respawn]; [sidecar]: the feature that sends the signal. *)
Definition sidecar_respawn (sidecar : bool) (sc : SidecarState) (s : Y) : result CoreError unit * SidecarState * Y :=
  let s := match child sc with
           | Some c => reap c (if sidecar then os_sigterm c s else s)
           | None => s
           end in
  let s := match sock sc with Some st => os_close st s | None => s end in
  let s := os_remove_file (socket_path sc) s in
  match sidecar_spawn (command sc) (socket_path sc) (sidecar_name sc) s with
  | (Ok fresh, s') => (Ok tt, mkSidecar (child fresh) (sock fresh) (command sc) (socket_path fresh) (sidecar_name sc), s')
  | (Err e, s') => (Err e, mkSidecar None None (command sc) (socket_path sc) (sidecar_name sc), s')
  end.
End sidecar.

(** ** The host *)
Record HostFeatures : Type := mkHostFeatures { f_cdylib : bool; f_pyo3 : bool; f_sidecar : bool; f_hot_reload : bool }.

Section host.
Context {JT : JsonText} {L P Y W T : Type} {CL : Cdylibs L} {PP : PluginPython P} {SO : SidecarOs Y} {ST : Storage W T}.
Context {MC : Codec PluginManifest} (parent_of : string -> option string) (features : HostFeatures).

Inductive HandleState : Type := CdylibH (s : CdylibState) | Pyo3H (s : Pyo3State) | SidecarH (s : SidecarState).

(** The host's table with the world behind it. *)
Record HostWorld : Type := mkHost { handles : gmap PluginId HandleState; libs : L; python : P; system : Y; rows : W }.
(** What a host is made with: [new] has no storage. *)
Record HostConfig : Type := mkHostConfig { with_rows : bool; python_path : list string; sidecar_root : string; process_id : N }.
Definition host_new (pid : N) : HostConfig := mkHostConfig false ["python/examples"] "./data/sidecars" pid.
Definition with_host_storage (pid : N) : HostConfig := mkHostConfig true ["python/examples"] "./data/sidecars" pid.

Definition on_libs {A} (m : M L CoreError A) : M HostWorld CoreError A :=
  zoom libs (fun l w => mkHost (handles w) l (python w) (system w) (rows w)) m.
Definition on_python {A} (m : M P CoreError A) : M HostWorld CoreError A :=
  zoom python (fun p w => mkHost (handles w) (libs w) p (system w) (rows w)) m.
Definition on_system {A} (m : M Y CoreError A) : M HostWorld CoreError A :=
  zoom system (fun y w => mkHost (handles w) (libs w) (python w) y (rows w)) m.
Definition on_rows {A} (m : M W CoreError A) : M HostWorld CoreError A :=
  zoom rows (fun r w => mkHost (handles w) (libs w) (python w) (system w) r) m.
Definition set_handle (id : PluginId) (st : HandleState) (w : HostWorld) : HostWorld :=
  mkHost (<[id := st]> (handles w)) (libs w) (python w) (system w) (rows w).

(** The state a table entry held is dropped when it is replaced: a sidecar's child is
    killed and its socket closed. *)
Definition drop_state (old : option HandleState) (w : HostWorld) : HostWorld :=
  match old with
  | Some (SidecarH sc) =>
      let y := match child sc with Some c => os_drop c (system w) | None => system w end in
      let y := match sock sc with Some st => os_close st y | None => y end in
      mkHost (handles w) (libs w) (python w) y (rows w)
  | _ => w
  end.

Definition persist_manifest (cfg : HostConfig) (m : PluginManifest) : M HostWorld CoreError unit :=
  if with_rows cfg then on_rows (put_row (mkKey "plugins" None [plugin_name m]) (encode m)) else mret tt.

Definition plugin_id (m : PluginManifest) : PluginId := plugin_name m +:+ "-" +:+ version m.
Definition sidecar_socket (cfg : HostConfig) (m : PluginManifest) : string :=
  path_join (sidecar_root cfg) (plugin_name m +:+ "-" +:+ pretty (process_id cfg) +:+ ".sock").

(** The match of [load]; [spawned]: the error of the Python thread's spawn. *)
Definition start (cfg : HostConfig) (spawned : option string) (m : PluginManifest) : M HostWorld CoreError HandleState :=
  let name := plugin_name m in
  match mode m, entry m with
  | RustCdylib, CdylibEntry path symbol =>
      let* s := on_libs (cdylib_load (f_cdylib features) path symbol name) in mret (CdylibH s)
  | Pyo3Mode, e =>
      if f_pyo3 features then
        match e with
        | Pyo3Entry module factory =>
            let* s := on_python (pyo3_spawn spawned module factory (python_path cfg) name) in mret (Pyo3H s)
        | _ => mthrow (contract name ("manifest mode " +:+ mode_debug Pyo3Mode +:+ " does not match entry " +:+ entry_debug e))
        end
      else mthrow (contract name "pyo3 feature disabled")
  | SidecarMode, SidecarEntry command _ _ =>
      let* s := on_system (sidecar_spawn parent_of command (sidecar_socket cfg m) name) in mret (SidecarH s)
  | md, e => mthrow (contract name ("manifest mode " +:+ mode_debug md +:+ " does not match entry " +:+ entry_debug e))
  end.

Definition load (cfg : HostConfig) (spawned : option string) (m : PluginManifest) : M HostWorld CoreError PluginHandle :=
  let* _ := mlift (validate_manifest m) in
  let id := plugin_id m in
  let* st := start cfg spawned m in
  let* _ := (fun w => (Ok tt, drop_state (handles w !! id) (set_handle id st w))) in
  let* _ := persist_manifest cfg m in
  mret (mkHandle id m).

Definition unknown (h : PluginHandle) : CoreError := contract (plugin_name (manifest h)) "unknown handle".

(** A method of the state behind a handle, which may replace it. *)
Definition on_sidecar {A} (f : SidecarState -> Y -> result CoreError A * SidecarState * Y) (id : PluginId) (sc : SidecarState)
  : M HostWorld CoreError A := fun w =>
  let '(r, sc', y) := f sc (system w) in
  (r, set_handle id (SidecarH sc') (mkHost (handles w) (libs w) (python w) y (rows w))).
Definition on_pyo3 {A} (f : Pyo3State -> P -> result CoreError A * Pyo3State * P) (id : PluginId) (s : Pyo3State)
  : M HostWorld CoreError A := fun w =>
  let '(r, s', p) := f s (python w) in
  (r, set_handle id (Pyo3H s') (mkHost (handles w) (libs w) p (system w) (rows w))).

Definition plugin_call (h : PluginHandle) (method : string) (payload : bytes) : M HostWorld CoreError bytes := fun w =>
  match handles w !! handle_id h with
  | None => (Err (unknown h), w)
  | Some (CdylibH s) => on_libs (cdylib_call s method payload) w
  | Some (Pyo3H s) => on_pyo3 (pyo3_call method payload) (handle_id h) s w
  | Some (SidecarH sc) => on_system (sidecar_call sc method payload) w
  end.

Definition reload (h : PluginHandle) : M HostWorld CoreError unit := fun w =>
  let name := plugin_name (manifest h) in
  match handles w !! handle_id h with
  | None => (Err (unknown h), w)
  | Some (CdylibH _) => (Err (contract name "cdylib reload unsupported per spec 03 §7"), w)
  | Some (Pyo3H s) =>
      if f_hot_reload features then on_pyo3 pyo3_reload (handle_id h) s w
      else (Err (contract name "pyo3 reload requires dev-hot-reload feature"), w)
  | Some (SidecarH sc) =>
      if f_hot_reload features then on_sidecar (sidecar_respawn parent_of (f_sidecar features)) (handle_id h) sc w
      else (Err (contract name "sidecar reload requires dev-hot-reload feature"), w)
  end.

Definition remove_handle (id : PluginId) (w : HostWorld) : HostWorld :=
  mkHost (delete id (handles w)) (libs w) (python w) (system w) (rows w).
Definition unload (h : PluginHandle) : M HostWorld CoreError unit := fun w =>
  match handles w !! handle_id h with
  | None => (Ok tt, w)
  | Some st =>
      let w := remove_handle (handle_id h) w in
      match st with
      | CdylibH _ => (Ok tt, w)
      | Pyo3H s => let '(r, _, p) := pyo3_shutdown s (python w) in (r, mkHost (handles w) (libs w) p (system w) (rows w))
      | SidecarH sc => let '(r, _, y) := sidecar_shutdown sc (system w) in (r, mkHost (handles w) (libs w) (python w) y (rows w))
      end
  end.
End host.


(** ** What a manifest must say *)
Lemma require_python_311_spec v :
  require_python_311 v = Ok tt <->
  exists major minor, dotted v !! 0 ≫= parse_u32 = Some major /\ dotted v !! 1 ≫= parse_u32 = Some minor /\
    (3 < major \/ major = 3 /\ 11 <= minor)%N.
Proof.
  unfold require_python_311. destruct (dotted v !! 0 ≫= parse_u32) as [major|];
    [|split; [done|intros (? & ? & ? & _); done]].
  destruct (dotted v !! 1 ≫= parse_u32) as [minor|]; [|split; [done|intros (? & ? & _ & ? & _); done]].
  case_decide as Hv.
  - split; [done|]. intros (a & b & [= <-] & [= <-] & Hn). lia.
  - split; [|done]. intros _. exists major, minor. repeat split. lia.
Qed.

(** A manifest passes validation exactly when its name and its version are not blank
    and, for a plugin of this process, [runtime.python_min] is there with a first and a
    second component that are numbers of at least 3.11, compared as numbers (so 3.9 is below
    3.11, and 4.0 above it). *)
Theorem validate_manifest_spec m :
  validate_manifest m = Ok tt <->
  str_trim (plugin_name m) <> "" /\ str_trim (version m) <> "" /\
  (mode m = Pyo3Mode -> exists py major minor, python_min (runtime m) = Some py /\
     dotted py !! 0 ≫= parse_u32 = Some major /\ dotted py !! 1 ≫= parse_u32 = Some minor /\
     (3 < major \/ major = 3 /\ 11 <= minor)%N).
Proof.
  unfold validate_manifest, trim_is_empty. case_bool_decide as Hn; [split; [done|by intros (? & _)]|].
  case_bool_decide as Hv; [split; [done|by intros (_ & ? & _)]|].
  destruct (mode m); [|by split..]. destruct (python_min (runtime m)) as [py|].
  - rewrite require_python_311_spec. split.
    + intros (major & minor & H). split; [done|]. split; [done|]. intros _. by exists py, major, minor.
    + intros (_ & _ & H). destruct (H eq_refl) as (py' & major & minor & [= <-] & H'). by exists major, minor.
  - split; [done|]. intros (_ & _ & H). by destruct (H eq_refl) as (? & ? & ? & ? & _).
Qed.

(** ** Dynamic libraries *)
Section cdylib_proofs.
Context `{CL : Cdylibs L}.

Lemma cdylib_load_spec enabled path symbol plugin l :
  wp (cdylib_load enabled path symbol plugin) (fun r _ =>
    match r with
    | Ok s => enabled = true /\ cdylib_name s = plugin /\ exists vt, vtable s = Some vt /\ abi_version vt = ABI_VERSION
    | Err _ => True
    end) l.
Proof.
  unfold cdylib_load. destruct enabled; [|by apply wp_throw].
  apply wp_bind. unfold wp at 1. destruct (map_err _ _ l) as [[[]|e] l']; [|done]. simpl.
  apply wp_bind. unfold wp at 1. destruct (map_err _ _ l') as [[[vt|]|e] l2]; [|by apply wp_throw|done]. simpl.
  case_decide as Hv; [by apply wp_throw|]. apply wp_ret. repeat split. exists vt. split; [done|].
  destruct (decide (abi_version vt = ABI_VERSION)); [done|contradiction].
Qed.

(** A call of a loaded library's method passes the method's bytes and the payload to the
    table's function.  A result code of zero with a buffer that is not empty returns the
    buffer's bytes and gives the buffer back to the library; zero with no buffer or an empty
    one returns no bytes, and no buffer is given back (an empty buffer that was allocated is
    lost); any other code is an error of the plugin that names the method and the code, and
    whatever buffer the function had filled in is lost. *)
Theorem cdylib_call_spec s vt method payload l : vtable s = Some vt ->
  let '(rc, out, l') := vt_call vt (bytes_of method) payload l in
  (rc <> 0%Z -> cdylib_call s method payload l =
     (Err (contract (cdylib_name s) ("cdylib call(" +:+ method +:+ ") rc=" +:+ pretty rc)), l')) /\
  (rc = 0%Z -> cdylib_call s method payload l =
     match out with
     | Some (b :: bs) => (Ok (b :: bs), vt_free_buf vt out l')
     | _ => (Ok [], l')
     end).
Proof.
  intros Hs. unfold cdylib_call. rewrite Hs. destruct (vt_call vt (bytes_of method) payload l) as [[rc out] l'].
  case_decide; split; try done. intros _. by destruct out as [[|b bs]|].
Qed.
End cdylib_proofs.

(** ** Plugins in Python *)
Section pyo3_proofs.
Context `{PP : PluginPython P}.

(** A worker that has not ended answers: a call leaves the plugin object it has, and a
    reload puts another in its place only when every step of it succeeds. *)
Lemma pyo3_call_spec method payload s p : py_gone s = false ->
  pyo3_call method payload s p =
    match py_plugin s with
    | Ok plugin => let '(r, p') := run_call s plugin method payload p in (r, s, p')
    | Err e => (Err (init_failed s e), s, p)
    end.
Proof.
  intros Hg. unfold pyo3_call, ask. rewrite Hg. unfold serve. destruct (py_plugin s) as [plugin|e]; [|done].
  by destruct (run_call s plugin method payload p).
Qed.
Lemma pyo3_reload_spec s p : py_gone s = false ->
  pyo3_reload s p =
    match py_plugin s with
    | Err e => (Err (init_failed s e), s, p)
    | Ok _ => match run_reload s p with
              | (Ok fresh, p') => (Ok tt, mkPyo3 (Ok fresh) false (py_module s) (py_factory s) (py_name s), p')
              | (Err e, p') => (Err e, s, p')
              end
    end.
Proof.
  intros Hg. unfold pyo3_reload, ask. rewrite Hg. unfold serve. destruct (py_plugin s) as [plugin|e]; [|done].
  by destruct (run_reload s p) as [[fresh|e] p'].
Qed.
Lemma pyo3_shutdown_spec s p :
  let '(r, s', p') := pyo3_shutdown s p in r = Ok tt /\ py_gone s' = true /\ p' = p /\
    forall method payload, (pyo3_call method payload s' p').1.1 = Err (gone s').
Proof.
  unfold pyo3_shutdown, ask. destruct (py_gone s) eqn:Hg.
  - repeat split; [done|]. intros. unfold pyo3_call, ask. by rewrite Hg.
  - unfold serve. by destruct (py_plugin s).
Qed.
End pyo3_proofs.

(** ** Sidecars *)
Section sidecar_proofs.
Context {JT : JsonText} {Y : Type} {SO : SidecarOs Y} {RU : Running Y} {SL : SidecarLaws Y} (parent_of : string -> option string).

#[local] Instance calmer_preorder : PreOrder (calmer (Y := Y)).
Proof. split; [by intros s c|]. intros a b c Hab Hbc x Hx. by apply Hab, Hbc. Qed.

Lemma connect_until_spec fuel deadline path s : (deadline - os_clock s + 50 <= 50 * N.of_nat fuel)%N ->
  exists r s', connect_until fuel deadline path s = Some (r, s') /\ calmer s s' /\
    match r with
    | Ok _ => True
    | Err e => (deadline <= os_clock s')%N /\ exists msg, e = internal ("connect " +:+ path +:+ ": " +:+ msg)
    end.
Proof.
  revert s. induction fuel as [|fuel IH]; intros s Hf; [lia|]. simpl.
  destruct (connect_law path s) as [Hc Ht]. destruct (os_connect path s) as [[st|e] s']; simpl in *.
  - by exists (Ok st), s'.
  - case_decide as Hd.
    + destruct (sleep_law 50 s') as [Hc2 Ht2]. destruct (IH (os_sleep 50 s')) as (r & s2 & -> & Hs2 & Hr); [lia|].
      exists r, s2. split; [done|]. split; [|done]. etransitivity; [exact Hc|]. by etransitivity.
    + eexists _, s'. split; [done|]. split; [done|]. split; [lia|by eexists].
Qed.

(** C28: The wait for a sidecar's socket ends: with 101 tries of fuel it is never cut short,
    whatever the connects do.  It returns a socket, or the error of a connect made at least
    five seconds after the first, and it starts no child. *)
Theorem connect_with_retry_ends path s :
  exists r s', connect_until connect_fuel (os_clock s + 5000) path s = Some (r, s') /\
  connect_with_retry path s = (r, s') /\ calmer s s' /\
  match r with
  | Ok _ => True
  | Err e => (os_clock s + 5000 <= os_clock s')%N /\ exists msg, e = internal ("connect " +:+ path +:+ ": " +:+ msg)
  end.
Proof.
  destruct (connect_until_spec connect_fuel (os_clock s + 5000) path s) as (r & s' & Hr & Hc & Hd); [unfold connect_fuel; lia|].
  exists r, s'. unfold connect_with_retry. by rewrite Hr.
Qed.

(** Started children: at most the one in the state that is returned, none with an error. *)
Definition started (s : Y) (r : result CoreError SidecarState) (s' : Y) : Prop :=
  match r with
  | Ok sc => exists c st, child sc = Some c /\ sock sc = Some st /\ forall c', running c' s' -> running c' s \/ c' = c
  | Err _ => calmer s s'
  end.
Lemma sidecar_spawn_started command path plugin s :
  wp (sidecar_spawn parent_of command path plugin) (fun r s' => started s r s' /\
    match r with
    | Ok sc => sc = mkSidecar (child sc) (sock sc) command path plugin /\ command <> []
    | Err _ => True
    end) s.
Proof.
  unfold sidecar_spawn. apply wp_bind. unfold wp at 1. simpl. pose proof (remove_law path s) as H0.
  set (s0 := os_remove_file path s) in *. apply wp_bind.
  assert (stays_in calmer (make_parent parent_of path)) as H1.
  { unfold make_parent. destruct (parent_of path); [apply (stays_map_err calmer), mkdir_law|apply (stays_ret calmer)]. }
  unfold wp at 1. specialize (H1 s0). destruct (make_parent parent_of path s0) as [[[]|e] s1]; simpl in *;
    [|split; [by etransitivity|done]].
  assert (calmer s s1) as H01 by by etransitivity.
  destruct command as [|program args]; [by apply wp_throw|].
  apply wp_bind, wp_map_err. unfold wp at 1. pose proof (spawn_law program (args ++ [path]) s1) as H2.
  destruct (os_spawn program (args ++ [path]) s1) as [[c|e] s2]; simpl in *; [|split; [by etransitivity|done]].
  apply wp_bind. unfold wp at 1, drop_child.
  destruct (connect_with_retry_ends path s2) as (r & s3 & _ & -> & H3 & _). destruct r as [st|e]; simpl.
  - apply wp_ret. split; [|done]. exists c, st. repeat split. intros c' Hc'.
    destruct (H2 c' (H3 c' Hc')) as [Hs|Hs]; [left; by apply H01|by right].
  - split; [|done]. intros c' Hc'. destruct (child_drop_law c s3) as [H4 H5].
    destruct (H2 c' (H3 c' (H4 c' Hc'))) as [Hs| ->]; [by apply H01|contradiction].
Qed.

Lemma reap_spec c s : calmer s (reap c s) /\ ~ running c (reap c s).
Proof.
  unfold reap. destruct (wait_law 2000 c s) as [Hw He]. destruct (os_wait 2000 c s) as [[|] s1]; simpl in *.
  - destruct (child_drop_law c s1) as [H1 H2]. split; [by etransitivity|done].
  - destruct (kill_law c s1) as [H1 _], (child_drop_law c (os_kill c s1)) as [H3 H4].
    split; [|done]. etransitivity; [exact Hw|]. by etransitivity.
Qed.

Lemma say_goodbye_calm st : stays_in calmer (say_goodbye st).
Proof.
  assert (forall A (m : M Y string A), stays_in calmer m -> stays_in calmer (mcatch (E := string) m)) as Hcatch.
  { intros A m Hm s. unfold mcatch. specialize (Hm s). by destruct (m s). }
  unfold say_goodbye. apply (stays_bind calmer); [apply Hcatch, write_law|]. intros _.
  apply (stays_bind calmer); [apply Hcatch, write_law|]. intros _. apply Hcatch, flush_law.
Qed.

(** The child of a sidecar that is shut down no longer runs. *)
Definition reaped (sc : SidecarState) (s s' : Y) : Prop :=
  calmer s s' /\ forall c, child sc = Some c -> ~ running c s'.
Lemma reaped_calm sc s s1 s2 : reaped sc s s1 -> calmer s1 s2 -> reaped sc s s2.
Proof. intros [H1 H2] H3. split; [by etransitivity|]. intros c Hc Hr. by apply (H2 c Hc), H3. Qed.

Lemma sidecar_shutdown_spec sc s :
  let '(r, sc', s') := sidecar_shutdown sc s in
  r = Ok tt /\ child sc' = None /\ sock sc' = None /\ reaped sc s s'.
Proof.
  unfold sidecar_shutdown.
  set (s1 := match sock sc with Some st => (say_goodbye st s).2 | None => s end).
  assert (calmer s s1) as H1 by (unfold s1; destruct (sock sc); [apply say_goodbye_calm|done]).
  set (s2 := match child sc with Some c => reap c s1 | None => s1 end).
  assert (reaped sc s s2) as H2.
  { unfold s2. destruct (child sc) as [c|] eqn:Hc; [|by split; [|congruence]].
    destruct (reap_spec c s1). split; [by etransitivity|congruence]. }
  repeat split; eapply reaped_calm; try exact H2.
  all: destruct (sock sc); [etransitivity; [apply close_law|]|]; apply remove_law.
Qed.

(** A respawn ends the child there was, whatever comes of the new one, and keeps the
    command, the path and the name. *)
Lemma sidecar_respawn_spec feature sc s :
  let '(r, sc', s') := sidecar_respawn parent_of feature sc s in
  command sc' = command sc /\ socket_path sc' = socket_path sc /\ sidecar_name sc' = sidecar_name sc /\
  match r with
  | Ok _ => exists c st, child sc' = Some c /\ sock sc' = Some st /\ command sc <> [] /\
              forall c', running c' s' -> (running c' s /\ child sc <> Some c') \/ c' = c
  | Err _ => child sc' = None /\ sock sc' = None /\ reaped sc s s'
  end.
Proof.
  unfold sidecar_respawn.
  set (s1 := match child sc with Some c => reap c (if feature then os_sigterm c s else s) | None => s end).
  assert (reaped sc s s1) as H1.
  { unfold s1. destruct (child sc) as [c|] eqn:Hc; [|by split; [|congruence]].
    assert (calmer s (if feature then os_sigterm c s else s)) by (destruct feature; [apply sigterm_law|done]).
    destruct (reap_spec c (if feature then os_sigterm c s else s)). split; [by etransitivity|congruence]. }
  set (s2 := os_remove_file (socket_path sc) (match sock sc with Some st => os_close st s1 | None => s1 end)).
  assert (reaped sc s s2) as H2.
  { eapply reaped_calm; [exact H1|]. unfold s2. destruct (sock sc); [etransitivity; [apply close_law|]|]; apply remove_law. }
  pose proof (sidecar_spawn_started (command sc) (socket_path sc) (sidecar_name sc) s2) as Hs. unfold wp in Hs.
  destruct (sidecar_spawn parent_of (command sc) (socket_path sc) (sidecar_name sc) s2) as [[fresh|e] s3]; simpl in *.
  - destruct Hs as [(c & st & Hc & Hst & Hrun) [Hf Hne]]. split; [done|]. split; [by rewrite Hf|]. split; [done|].
    exists c, st. repeat split; try done. intros c' Hc'. destruct (Hrun c' Hc') as [Hb|Hb]; [left|by right].
    split; [by apply H2|]. intros Hch. by apply (proj2 H2 c').
  - repeat split; try done; eapply reaped_calm; try exact H2; apply Hs.
Qed.

(** A respawn that succeeds holds a child and a socket it has just made: once the old
    child had ended, the command was spawned with the socket's path as its last
    argument, and the connects to that path ended in the socket. *)
Definition respawned (sc sc' : SidecarState) (s s' : Y) : Prop :=
  exists program args s1 c s2 st, command sc = program :: args /\ reaped sc s s1 /\
    os_spawn program (args ++ [socket_path sc]) s1 = (Ok c, s2) /\
    connect_with_retry (socket_path sc) s2 = (Ok st, s') /\
    sc' = mkSidecar (Some c) (Some st) (command sc) (socket_path sc) (sidecar_name sc).

Lemma sidecar_spawn_made command path plugin s sc s' :
  sidecar_spawn parent_of command path plugin s = (Ok sc, s') ->
  exists program args s1 c s2 st, command = program :: args /\ calmer s s1 /\
    os_spawn program (args ++ [path]) s1 = (Ok c, s2) /\ connect_with_retry path s2 = (Ok st, s') /\
    sc = mkSidecar (Some c) (Some st) command path plugin.
Proof.
  unfold sidecar_spawn, mbind_ at 1. pose proof (remove_law path s) as H0. set (s0 := os_remove_file path s) in *.
  assert (stays_in calmer (make_parent parent_of path)) as H1.
  { unfold make_parent. destruct (parent_of path); [apply (stays_map_err calmer), mkdir_law|apply (stays_ret calmer)]. }
  specialize (H1 s0). unfold mbind_ at 1. destruct (make_parent parent_of path s0) as [[[]|e] s1]; simpl in *; [|done].
  destruct command as [|program args]; [done|]. unfold mbind_ at 1, map_err.
  destruct (os_spawn program (args ++ [path]) s1) as [[c|e] s2] eqn:Hsp; [|done].
  unfold mbind_ at 1, drop_child. destruct (connect_with_retry path s2) as [[st|e] s3] eqn:Hco; [|done].
  intros [= <- <-]. exists program, args, s1, c, s2, st. repeat split; [|done..]. by etransitivity.
Qed.

Lemma sidecar_respawn_fresh feature sc s :
  let '(r, sc', s') := sidecar_respawn parent_of feature sc s in
  match r with
  | Ok _ => respawned sc sc' s s'
  | Err _ => sc' = mkSidecar None None (command sc) (socket_path sc) (sidecar_name sc) /\ reaped sc s s'
  end.
Proof.
  pose proof (sidecar_respawn_spec feature sc s) as Hspec. unfold sidecar_respawn in *.
  set (s1 := match child sc with Some c => reap c (if feature then os_sigterm c s else s) | None => s end) in *.
  assert (reaped sc s s1) as H1.
  { unfold s1. destruct (child sc) as [c|] eqn:Hc; [|by split; [|congruence]].
    assert (calmer s (if feature then os_sigterm c s else s)) by (destruct feature; [apply sigterm_law|done]).
    destruct (reap_spec c (if feature then os_sigterm c s else s)). split; [by etransitivity|congruence]. }
  set (s2 := os_remove_file (socket_path sc) (match sock sc with Some st => os_close st s1 | None => s1 end)) in *.
  assert (reaped sc s s2) as H2.
  { eapply reaped_calm; [exact H1|]. unfold s2. destruct (sock sc); [etransitivity; [apply close_law|]|]; apply remove_law. }
  destruct (sidecar_spawn parent_of (command sc) (socket_path sc) (sidecar_name sc) s2) as [[fresh|e] s3] eqn:Hsp;
    [|by destruct Hspec as (_ & _ & _ & _ & _ & ?)].
  apply sidecar_spawn_made in Hsp as (program & args & sa & c & sb & st & Hcmd & Hca & Hos & Hco & ->).
  exists program, args, sa, c, sb, st. repeat split; try done; by eapply reaped_calm.
Qed.

Lemma sidecar_call_calm sc method payload : stays_in calmer (sidecar_call sc method payload).
Proof.
  unfold sidecar_call. destruct (sock sc) as [st|]; [|apply (stays_throw calmer)].
  case_decide; [apply (stays_throw calmer)|].
  repeat (apply (stays_bind calmer); [|intros ?]); apply (stays_map_err calmer); eauto using write_law, flush_law, read_law.
Qed.
End sidecar_proofs.

(** ** The host *)
Section host_proofs.
Context {JT : JsonText} {L P Y W T : Type} {CL : Cdylibs L} {PP : PluginPython P} {ST : Storage W T} {STL : StorageLaws W T} {MC : Codec PluginManifest}.
Context {SO : SidecarOs Y} {RU : Running Y} {SL : SidecarLaws Y} (parent_of : string -> option string) (features : HostFeatures).
Abbreviation HostWorld := (HostWorld (L := L) (P := P) (Y := Y) (W := W)).
Abbreviation HandleState := (HandleState (CL := CL) (PP := PP) (SO := SO)).
Implicit Types w : HostWorld.

(** A consistent entry of the table: a library's table of functions is there, with the
    version of the host's interface; a Python worker has not ended; a sidecar has a
    command, and a socket exactly when it has a child. *)
Definition sound_state (st : HandleState) : Prop :=
  match st with
  | CdylibH s => exists vt, vtable s = Some vt /\ abi_version vt = ABI_VERSION
  | Pyo3H s => py_gone s = false
  | SidecarH sc => command sc <> [] /\ (child sc = None <-> sock sc = None)
  end.
(** A sidecar with its process. *)
Definition connected_state (st : HandleState) : Prop :=
  match st with SidecarH sc => child sc <> None | _ => True end.
(** Every child that runs is the child of a plugin of the table. *)
Definition owned w : Prop :=
  forall c, running c (system w) -> exists id sc, handles w !! id = Some (SidecarH sc) /\ child sc = Some c.
Definition sound_host w : Prop := map_Forall (fun _ => sound_state) (handles w) /\ owned w.

(** The mode of the manifest decides what is started. *)
Definition mode_of (st : HandleState) : PluginMode :=
  match st with CdylibH _ => RustCdylib | Pyo3H _ => Pyo3Mode | SidecarH _ => SidecarMode end.
Definition mode_enabled (md : PluginMode) : bool :=
  match md with RustCdylib => f_cdylib features | Pyo3Mode => f_pyo3 features | SidecarMode => true end.

Definition child_of (st : HandleState) : option Child := match st with SidecarH sc => child sc | _ => None end.
Ltac refused := apply wp_throw; split; [done|]; split; [done|by intros c].
Lemma start_spec cfg spawned m w :
  wp (start parent_of features cfg spawned m) (fun r w' => handles w' = handles w /\ rows w' = rows w /\
    match r with
    | Ok st => mode_of st = mode m /\ mode_enabled (mode m) = true /\ sound_state st /\ connected_state st /\
               forall c, running c (system w') -> running c (system w) \/ child_of st = Some c
    | Err _ => calmer (system w) (system w')
    end) w.
Proof.
  unfold start. destruct (mode m) eqn:Hm, (entry m) as [path symbol|module factory|command protocol template] eqn:He;
    try refused.
  all: try (destruct (f_pyo3 features) eqn:Hf; refused).
  - destruct (f_pyo3 features) eqn:Hf; [|refused]. apply wp_bind, wp_zoom. unfold wp at 1, pyo3_spawn.
    destruct spawned as [e|]; [by repeat split; intros c|]. destruct (start_plugin (python_path cfg) module factory (python w)) as [r p'].
    simpl. apply wp_ret. simpl. repeat split; eauto.
  - apply wp_bind, wp_zoom. eapply wp_mono; [apply sidecar_spawn_started|].
    intros [sc|e] y [Hs Hsc]; [|done]. destruct Hs as (c & st & Hc & Hst & Hrun), Hsc as [Heq Hne].
    apply wp_ret. simpl. repeat split; [by rewrite Heq|by rewrite Hc|by rewrite Hst|by rewrite Hc|].
    intros c' Hc'. destruct (Hrun c' Hc') as [Hb| ->]; [by left|by right].
  - apply wp_bind, wp_zoom. eapply wp_mono; [apply cdylib_load_spec|].
    intros [s|e] l H; [|by repeat split; intros c]. destruct H as (Hen & _ & Hvt). apply wp_ret. simpl. repeat split; eauto.
Qed.

Lemma drop_state_spec old w :
  handles (drop_state old w) = handles w /\ rows (drop_state old w) = rows w /\
  calmer (system w) (system (drop_state old w)) /\
  forall st c, old = Some st -> child_of st = Some c -> ~ running c (system (drop_state old w)).
Proof.
  destruct old as [[s|s|sc]|]; simpl.
  1, 2, 4: split; [done|]; split; [done|]; split; [by intros c|]; intros st c [=]; by subst st.
  set (y := match child sc with Some c => os_drop c (system w) | None => system w end).
  assert (calmer (system w) y /\ forall c, child sc = Some c -> ~ running c y) as [Hy Hc].
  { unfold y. destruct (child sc) as [c|]; [|by split; [intros c|]].
    destruct (child_drop_law c (system w)). split; [done|]. by intros c' [= <-]. }
  assert (calmer y (match sock sc with Some st => os_close st y | None => y end)) as Hst
    by (destruct (sock sc); [apply close_law|by intros c]).
  repeat split; [by intros c Hr; apply Hy, Hst|]. intros st c [= <-] Hch Hr. by apply (Hc c Hch), Hst.
Qed.

Definition manifest_key (m : PluginManifest) : StorageKey := mkKey "plugins" None [plugin_name m].
Lemma persist_manifest_spec cfg m w :
  wp (persist_manifest cfg m) (fun r w' => handles w' = handles w /\ system w' = system w /\
    contents (rows w') = match r with
                         | Ok _ => if with_rows cfg then <[manifest_key m := encode m]> (contents (rows w)) else contents (rows w)
                         | Err _ => contents (rows w)
                         end /\ (is_ok r = false -> with_rows cfg = true)) w.
Proof.
  unfold persist_manifest. destruct (with_rows cfg) eqn:Hr; [|by apply wp_ret].
  apply wp_zoom. eapply wp_mono; [apply put_row_spec; unfold known; simpl; set_solver|]. by intros [[]|e] r' H.
Qed.

(** What a load leaves behind: the plugin in the table under its identifier, unless it could
    not be started; then nothing has changed. *)
Definition entered (m : PluginManifest) w w' : Prop :=
  exists st, mode_of st = mode m /\ mode_enabled (mode m) = true /\ sound_state st /\ connected_state st /\
    handles w' = <[plugin_id m := st]> (handles w) /\
    forall c, running c (system w') ->
      running c (system w) /\ (forall old, handles w !! plugin_id m = Some old -> child_of old <> Some c) \/ child_of st = Some c.
Lemma load_effect cfg spawned m w :
  wp (load parent_of features cfg spawned m) (fun r w' =>
    match r with
    | Ok h => validate_manifest m = Ok tt /\ h = mkHandle (plugin_id m) m /\ entered m w w' /\
              contents (rows w') = if with_rows cfg then <[manifest_key m := encode m]> (contents (rows w)) else contents (rows w)
    | Err e => contents (rows w') = contents (rows w) /\
               (handles w' = handles w /\ calmer (system w) (system w') \/ entered m w w' /\ with_rows cfg = true)
    end) w.
Proof.
  unfold load. apply wp_bind, wp_lift. destruct (validate_manifest m) as [[]|e] eqn:Hv; [|by split; [|left; split; [|intros c]]].
  apply wp_bind. eapply wp_mono; [apply start_spec|]. intros [st|e] w1 (Hh & Hr1 & Hst); [|split; [by rewrite Hr1|by left]].
  destruct Hst as (Hm & He & Hs & Hcn & Hrun). apply wp_bind. unfold wp at 1. simpl.
  destruct (drop_state_spec (handles w1 !! plugin_id m) (set_handle (plugin_id m) st w1)) as (Hh2 & Hr2 & Hc2 & Hd2).
  set (w2 := drop_state (handles w1 !! plugin_id m) (set_handle (plugin_id m) st w1)) in *.
  assert (forall w', handles w' = handles w2 -> system w' = system w2 -> entered m w w') as Hent.
  { intros w' Hh' Hy'. exists st. rewrite Hh', Hh2, Hy', <-Hh. repeat split; try done.
    intros c Hc. destruct (Hrun c (Hc2 c Hc)) as [Hb|Hb]; [left|by right]. split; [done|].
    intros old Hold Hch. by apply (Hd2 old c). }
  apply wp_bind. eapply wp_mono; [apply persist_manifest_spec|]. intros [[]|e] w3 (Hh3 & Hy3 & Hr3 & Hw3).
  - apply wp_ret. split; [done|]. split; [done|]. split; [by apply Hent|]. rewrite Hr3, Hr2. simpl. by rewrite Hr1.
  - split; [rewrite Hr3, Hr2; simpl; by rewrite Hr1|]. right. split; [by apply Hent|]. by apply Hw3.
Qed.

(** Loading a manifest returns a handle, [name-version], only for a valid manifest whose
    entry is of the mode it declares and whose mode is compiled in; the plugin is then in the
    table and, with a storage, its manifest is in the row of its name.  A load that fails
    before the plugin is started, or in starting it, leaves the table and the rows as they
    were; one that fails in storing the manifest has the plugin in the table all the same. *)
Theorem plugin_load_spec cfg spawned m w :
  wp (load parent_of features cfg spawned m) (fun r w' =>
    match r with
    | Ok h => h = mkHandle (plugin_id m) m /\ validate_manifest m = Ok tt /\ mode_enabled (mode m) = true /\
              (exists st, mode_of st = mode m /\ handles w' = <[plugin_id m := st]> (handles w)) /\
              contents (rows w') = if with_rows cfg then <[manifest_key m := encode m]> (contents (rows w)) else contents (rows w)
    | Err e => contents (rows w') = contents (rows w) /\
               (handles w' = handles w \/
                with_rows cfg = true /\ exists st, mode_of st = mode m /\ handles w' = <[plugin_id m := st]> (handles w))
    end) w.
Proof.
  eapply wp_mono; [apply load_effect|]. intros [h|e] w' H.
  - destruct H as (Hv & -> & (st & Hm & He & _ & _ & Hh & _) & Hr). repeat split; eauto.
  - destruct H as (Hr & [[Hh _]|[(st & Hm & He & _ & _ & Hh & _) Hw]]); split; eauto.
Qed.

(** Methods of a sidecar and of a Python plugin in the table. *)
Lemma plugin_call_sound h method payload w : sound_host w ->
  let w' := (plugin_call h method payload w).2 in handles w' = handles w /\ sound_host w'.
Proof.
  intros [Hs Ho]. assert (forall w', handles w' = handles w -> calmer (system w) (system w') -> sound_host w') as Hsame.
  { intros w' Hh Hc. split; [by rewrite Hh|]. intros c Hr. rewrite Hh. by apply Ho, Hc. }
  unfold plugin_call. destruct (handles w !! handle_id h) as [[s|s|sc]|] eqn:Hl; simpl.
  - unfold on_libs, zoom. destruct (cdylib_call s method payload (libs w)). split; [done|]. by apply Hsame; [|intros c].
  - unfold on_pyo3. rewrite pyo3_call_spec by (apply (Hs _ _ Hl)).
    destruct (py_plugin s) as [plugin|e]; [destruct (run_call s plugin method payload (python w))|]; simpl;
      (split; [by rewrite insert_id|]); (apply Hsame; [by simpl; rewrite insert_id|by intros c]).
  - unfold on_system, zoom. pose proof (sidecar_call_calm sc method payload (system w)) as Hc.
    destruct (sidecar_call sc method payload (system w)). split; [done|]. by apply Hsame.
  - split; [done|]. by apply Hsame; [|intros c].
Qed.

Lemma set_sound id st w w' : sound_host w -> handles w' = <[id := st]> (handles w) -> sound_state st ->
  (forall c, running c (system w') ->
     running c (system w) /\ (forall old, handles w !! id = Some old -> child_of old <> Some c) \/ child_of st = Some c) ->
  sound_host w'.
Proof.
  intros [Hs Ho] Hh Hst Hrun. split; [rewrite Hh; by apply map_Forall_insert_2|].
  intros c Hc. destruct (Hrun c Hc) as [[Hb Hold]|Hb].
  - destruct (Ho c Hb) as (id' & sc & Hl & Hch). exists id', sc. split; [|done].
    rewrite Hh, lookup_insert_ne; [done|]. intros ->. by apply (Hold _ Hl).
  - destruct st as [s|s|sc]; [done..|]. exists id, sc. by rewrite Hh, lookup_insert_eq.
Qed.

Lemma reload_sound h w : sound_host w -> sound_host (reload parent_of features h w).2.
Proof.
  intros Hw. unfold reload. destruct (handles w !! handle_id h) as [[s|s|sc]|] eqn:Hl; [done| | |done].
  - destruct (f_hot_reload features); [|done]. unfold on_pyo3. destruct Hw as [Hs Ho]. pose proof (Hs _ _ Hl) as Hg.
    simpl in Hg. rewrite pyo3_reload_spec by done.
    assert (forall s' p, py_gone s' = false -> sound_host (set_handle (handle_id h) (Pyo3H s')
               (mkHost (handles w) (libs w) p (system w) (rows w)))) as Hset.
    { intros s' p Hg'. apply (set_sound (handle_id h) (Pyo3H s') w); [done..|]. intros c Hc. left.
      split; [done|]. by intros old [= <-]%(eq_trans (eq_sym Hl)). }
    destruct (py_plugin s) as [plugin|e]; [|by apply Hset].
    destruct (run_reload s (python w)) as [[fresh|e] p']; by apply Hset.
  - destruct (f_hot_reload features); [|done]. unfold on_sidecar.
    pose proof (sidecar_respawn_spec parent_of (f_sidecar features) sc (system w)) as H.
    destruct (sidecar_respawn parent_of (f_sidecar features) sc (system w)) as [[r sc'] y].
    destruct H as (Hcmd & _ & _ & Hr). pose proof (proj1 Hw _ _ Hl) as [Hne _].
    apply (set_sound (handle_id h) (SidecarH sc') w); [done|done| |].
    + split; [by rewrite Hcmd|]. destruct r; [destruct Hr as (? & ? & -> & -> & _)|destruct Hr as (-> & -> & _)]; done.
    + intros c Hc. destruct r as [[]|e].
      * destruct Hr as (c' & st & Hch & _ & _ & Hrun). destruct (Hrun c Hc) as [[Hb Hno]| ->]; [left|right; done].
        split; [done|]. by intros old [= <-]%(eq_trans (eq_sym Hl)).
      * destruct Hr as (_ & _ & Hcalm & Hno). left. split; [by apply Hcalm|].
        intros old [= <-]%(eq_trans (eq_sym Hl)) Hch. by apply (Hno c Hch).
Qed.

Lemma unload_sound h w : sound_host w ->
  let '(r, w') := unload h w in r = Ok tt /\ handles w' = delete (handle_id h) (handles w) /\ sound_host w'.
Proof.
  intros [Hs Ho]. assert (forall w' old, handles w' = delete (handle_id h) (handles w) -> handles w !! handle_id h = Some old ->
    calmer (system w) (system w') -> (forall c, child_of old = Some c -> ~ running c (system w')) -> sound_host w') as Hdel.
  { intros w' old Hh Hold Hc Hno. split; [rewrite Hh; by apply map_Forall_delete|]. intros c Hr.
    destruct (Ho c (Hc c Hr)) as (id & sc & Hl & Hch). exists id, sc. split; [|done]. rewrite Hh, lookup_delete_ne; [done|].
    intros <-. rewrite Hold in Hl. injection Hl as ->. by apply (Hno c). }
  unfold unload. destruct (handles w !! handle_id h) as [[s|s|sc]|] eqn:Hl.
  - split; [done|]. split; [done|]. by apply (Hdel _ (CdylibH s)); [..|intros c|].
  - pose proof (pyo3_shutdown_spec s (python (remove_handle (handle_id h) w))) as Hp.
    destruct (pyo3_shutdown s _) as [[r s'] p']. destruct Hp as (-> & _).
    split; [done|]. split; [done|]. by apply (Hdel _ (Pyo3H s)); [..|intros c|].
  - pose proof (sidecar_shutdown_spec sc (system (remove_handle (handle_id h) w))) as Hp.
    destruct (sidecar_shutdown sc _) as [[r sc'] y]. destruct Hp as (-> & _ & _ & Hc & Hno).
    split; [done|]. split; [done|]. apply (Hdel _ (SidecarH sc)); [done|done|exact Hc|exact Hno].
  - split; [done|]. by rewrite delete_id.
Qed.

(** One request to the host. *)
Inductive HostOp : Type :=
| LoadOp (spawned : option string) (m : PluginManifest)
| CallOp (h : PluginHandle) (method : string) (payload : bytes)
| ReloadOp (h : PluginHandle)
| UnloadOp (h : PluginHandle).
Definition host_op (cfg : HostConfig) (w : HostWorld) (op : HostOp) : HostWorld :=
  match op with
  | LoadOp spawned m => (load parent_of features cfg spawned m w).2
  | CallOp h method payload => (plugin_call h method payload w).2
  | ReloadOp h => (reload parent_of features h w).2
  | UnloadOp h => (unload h w).2
  end.

Lemma host_op_sound cfg op w : sound_host w -> sound_host (host_op cfg w op).
Proof.
  intros Hw. destruct op as [spawned m|h method payload|h|h]; simpl.
  - pose proof (load_effect cfg spawned m w) as Hl. unfold wp in Hl.
    assert (forall w', handles w' = handles w -> calmer (system w) (system w') -> sound_host w') as Hsame.
    { intros w' Hh Hc. destruct Hw as [Hs Ho]. split; [by rewrite Hh|]. intros c Hr. rewrite Hh. by apply Ho, Hc. }
    assert (forall w', entered m w w' -> sound_host w') as Hent.
    { intros w' (st & _ & _ & Hst & _ & Hh & Hrun). by apply (set_sound (plugin_id m) st w). }
    destruct (load parent_of features cfg spawned m w) as [[h|e] w']; simpl in *.
    + by apply Hent, Hl.
    + destruct Hl as [_ [[Hh Hc]|[He _]]]; [by apply Hsame|by apply Hent].
  - by apply plugin_call_sound.
  - by apply reload_sound.
  - pose proof (unload_sound h w Hw) as Hu. destruct (unload h w) as [r w']. apply Hu.
Qed.

(** The table's entry is a sidecar that has lost its process; its calls say so. *)
Definition disconnected (id : PluginId) w : Prop :=
  exists sc, handles w !! id = Some (SidecarH sc) /\ child sc = None.

Lemma disconnected_call h method payload w : sound_host w -> disconnected (handle_id h) w ->
  plugin_call h method payload w = (Err (internal "sidecar stream not connected"), w).
Proof.
  intros [Hs _] (sc & Hl & Hc). pose proof (Hs _ _ Hl) as [_ Hiff]. simpl in Hiff.
  unfold plugin_call. rewrite Hl. unfold on_system, zoom, sidecar_call. rewrite (proj1 Hiff Hc). by destruct w.
Qed.

(** Only a failed reload of its own disconnects a sidecar. *)
Lemma host_op_disconnected cfg op w id : sound_host w -> disconnected id (host_op cfg w op) ->
  disconnected id w \/ exists h, op = ReloadOp h /\ handle_id h = id /\ is_ok (reload parent_of features h w).1 = false.
Proof.
  intros Hw (sc & Hl & Hc). assert (forall w', handles w' = handles w -> handles w' !! id = Some (SidecarH sc) ->
    disconnected id w) as Hsame by (intros w' Hh Hl'; exists sc; by rewrite <-Hh).
  destruct op as [spawned m|h method payload|h|h]; simpl in Hl.
  - left. pose proof (load_effect cfg spawned m w) as He. unfold wp in He.
    assert (forall w', entered m w w' -> handles w' !! id = Some (SidecarH sc) -> disconnected id w) as Hent.
    { intros w' (st & _ & _ & _ & Hcn & Hh & _) Hl'. rewrite Hh in Hl'.
      apply lookup_insert_Some in Hl' as [[_ ->]|[_ Hl']]; [done|by exists sc]. }
    destruct (load parent_of features cfg spawned m w) as [[h|e] w']; simpl in *.
    + eapply Hent; [apply He|done].
    + destruct He as [_ [[Hh _]|[He _]]]; [by apply (Hsame w')|by apply (Hent w')].
  - left. by eapply Hsame; [apply plugin_call_sound|].
  - revert Hl. destruct (reload parent_of features h w) as [r w'] eqn:Hr.
    assert (is_ok (reload parent_of features h w).1 = is_ok r) as Hok by by rewrite Hr.
    unfold reload in Hr. simpl. intros Hl.
    destruct (handles w !! handle_id h) as [[s|s|sc0]|] eqn:Hh; simplify_eq; [left; by exists sc| | |left; by exists sc].
    + left. destruct (f_hot_reload features); simplify_eq; [|by exists sc]. unfold on_pyo3 in Hr.
      destruct (pyo3_reload s (python w)) as [[r0 s'] p]. simplify_eq. simpl in Hl.
      apply lookup_insert_Some in Hl as [[_ ?]|[_ Hl]]; [done|by exists sc].
    + destruct (f_hot_reload features); simplify_eq; [|left; by exists sc]. unfold on_sidecar in Hr.
      pose proof (sidecar_respawn_fresh parent_of (f_sidecar features) sc0 (system w)) as H.
      destruct (sidecar_respawn parent_of (f_sidecar features) sc0 (system w)) as [[r0 sc'] y]. simplify_eq. simpl in Hl.
      apply lookup_insert_Some in Hl as [[<- [= ->]]|[_ Hl]]; [|left; by exists sc].
      destruct r as [[]|e]; [destruct H as (? & ? & ? & ? & ? & ? & _ & _ & _ & _ & ->); done|].
      right. exists h. auto.
  - left. pose proof (unload_sound h w Hw) as Hu. destruct (unload h w) as [r w']. destruct Hu as (_ & Hh & _).
    simpl in Hl. rewrite Hh in Hl. apply lookup_delete_Some in Hl as [_ Hl]. by exists sc.
Qed.

Lemma host_disconnected cfg ops w id : sound_host w -> disconnected id (foldl (host_op cfg) w ops) ->
  disconnected id w \/ exists ops1 h ops2, ops = ops1 ++ ReloadOp h :: ops2 /\ handle_id h = id /\
    is_ok (reload parent_of features h (foldl (host_op cfg) w ops1)).1 = false.
Proof.
  revert w. induction ops as [|op ops IH]; intros w Hw Hd; [by left|].
  destruct (IH (host_op cfg w op)) as [Hd1|(ops1 & h & ops2 & -> & Hid & Hr)];
    [by apply host_op_sound|done| |right; by exists (op :: ops1), h, ops2].
  apply host_op_disconnected in Hd1 as [Hd1|(h & -> & Hid & Hr)]; [by left| |done].
  right. by exists [], h, ops.
Qed.

(** C25: Whatever requests the host serves, in any order and with any of them failing, its
    table stays consistent (a library's table of functions is there and has the version of
    the host's interface, a Python worker has not ended, a sidecar has a child exactly when
    it has a socket) and every sidecar process that runs is the child of a plugin of the
    table: a load that fails halfway, a replaced version, a reload and an unload leave no
    process behind.  A sidecar of the table is without its process only when a reload of
    its handle has failed (or it was so at the start), and then every call through it is
    the error that it is not connected. *)
Theorem host_stays_sound cfg ops w : sound_host w ->
  let w' := foldl (host_op cfg) w ops in
  sound_host w' /\
  forall id sc, handles w' !! id = Some (SidecarH sc) -> child sc = None ->
    (forall m method payload, plugin_call (mkHandle id m) method payload w' =
       (Err (internal "sidecar stream not connected"), w')) /\
    ((exists sc0, handles w !! id = Some (SidecarH sc0) /\ child sc0 = None) \/
     exists ops1 h ops2, ops = ops1 ++ ReloadOp h :: ops2 /\ handle_id h = id /\
       is_ok (reload parent_of features h (foldl (host_op cfg) w ops1)).1 = false).
Proof.
  intros Hw w'. assert (sound_host w') as Hw'.
  { unfold w'. clear w'. revert w Hw. induction ops as [|op ops IH]; intros w Hw; [done|]. by apply IH, host_op_sound. }
  split; [done|]. intros id sc Hl Hc. assert (disconnected id w') as Hd by by exists sc. split.
  - intros m method payload. by apply disconnected_call.
  - by apply host_disconnected.
Qed.

(** C27: An unload always succeeds; the handle is out of the table, every other one is still
    there, and a call or a reload through it is then an error of the plugin that changes
    nothing.  Through a handle that is in the table, a library is never reloaded; a reload
    without its feature is refused; with it, a Python plugin is replaced only when the whole
    reload succeeds and serves its old object when it does not.  A sidecar's reload ends the
    old process either way: when it succeeds, the table holds the child that was then
    spawned from the sidecar's command and the socket its path was then connected to; when
    it fails the sidecar is left without a process, and the next call says that it is not
    connected. *)
Theorem reload_and_unload_spec h method payload w : sound_host w ->
  (let '(r, w') := unload h w in
   r = Ok tt /\ handles w' = delete (handle_id h) (handles w) /\
   plugin_call h method payload w' = (Err (unknown h), w') /\ reload parent_of features h w' = (Err (unknown h), w')) /\
  match handles w !! handle_id h with
  | None => reload parent_of features h w = (Err (unknown h), w)
  | Some (CdylibH _) => (reload parent_of features h w).1 = Err (contract (plugin_name (manifest h)) "cdylib reload unsupported per spec 03 §7")
                        /\ (reload parent_of features h w).2 = w
  | Some (Pyo3H s) =>
      let '(r, w') := reload parent_of features h w in
      if f_hot_reload features then
        exists s', handles w' = <[handle_id h := Pyo3H s']> (handles w) /\
          match r with
          | Ok _ => exists fresh, (run_reload s (python w)).1 = Ok fresh /\ py_plugin s' = Ok fresh
          | Err _ => s' = s
          end
      else is_ok r = false /\ w' = w
  | Some (SidecarH sc) =>
      let '(r, w') := reload parent_of features h w in
      if f_hot_reload features then
        exists sc', handles w' = <[handle_id h := SidecarH sc']> (handles w) /\
          match r with
          | Ok _ => exists program args s1 c s2 st,
              command sc = program :: args /\ (forall old, child sc = Some old -> ~ running old s1) /\
              os_spawn program (args ++ [socket_path sc]) s1 = (Ok c, s2) /\
              connect_with_retry (socket_path sc) s2 = (Ok st, system w') /\
              sc' = mkSidecar (Some c) (Some st) (command sc) (socket_path sc) (sidecar_name sc)
          | Err _ => child sc' = None /\ (forall old, child sc = Some old -> ~ running old (system w')) /\
              (plugin_call h method payload w').1 = Err (internal "sidecar stream not connected")
          end
      else is_ok r = false /\ w' = w
  end.
Proof.
  intros Hw. split.
  - pose proof (unload_sound h w Hw) as Hu. destruct (unload h w) as [r w']. destruct Hu as (-> & Hh & _).
    split; [done|]. split; [done|]. unfold plugin_call, reload. by rewrite Hh, lookup_delete_eq.
  - unfold reload. destruct (handles w !! handle_id h) as [[s|s|sc]|] eqn:Hl; [done| | |done].
    + destruct (f_hot_reload features); [|done]. unfold on_pyo3. pose proof (proj1 Hw _ _ Hl) as Hg. simpl in Hg.
      rewrite pyo3_reload_spec by done. destruct (py_plugin s) as [plugin|e]; [|by exists s].
      destruct (run_reload s (python w)) as [[fresh|e] p']; [|by exists s]. eexists. split; [done|]. by exists fresh.
    + destruct (f_hot_reload features); [|done]. unfold on_sidecar.
      pose proof (sidecar_respawn_fresh parent_of (f_sidecar features) sc (system w)) as H.
      destruct (sidecar_respawn parent_of (f_sidecar features) sc (system w)) as [[[[]|e] sc'] y].
      * exists sc'. split; [done|].
        destruct H as (program & args & s1 & c & s2 & st & Hcmd & Hre & Hos & Hco & ->).
        exists program, args, s1, c, s2, st. repeat split; try done. by apply Hre.
      * exists sc'. split; [done|]. destruct H as [-> Hre]. split; [done|]. split; [by apply Hre|].
        unfold plugin_call. simpl. by rewrite lookup_insert_eq.
Qed.
End host_proofs.

(** ** A sidecar that keeps to the protocol *)
(** What a socket carries: the bytes written to it since the last flush, and the bytes that
    can be read from it. *)
Class Wires (Y : Type) `{SidecarOs Y} : Type := { wire_out : Stream -> Y -> bytes; wire_in : Stream -> Y -> bytes }.
(** Sockets that do not fail, with a peer that reads a whole frame once it has been flushed
    and replies with one frame. *)
Class HonestPeer (Y : Type) `{Wires Y} (answer : bytes -> bytes) : Prop := {
  peer_write st b s : wp (os_write st b) (fun r s' => r = Ok tt /\ wire_out st s' = wire_out st s ++ b /\ wire_in st s' = wire_in st s) s;
  peer_flush st body s : wire_out st s = frame body -> (N.of_nat (length body) < 2 ^ 32)%N ->
    wp (os_flush st) (fun r s' => r = Ok tt /\ wire_out st s' = [] /\ wire_in st s' = wire_in st s ++ frame (answer body)) s;
  peer_read st n s : n <= length (wire_in st s) ->
    wp (os_read_exact st n) (fun r s' => r = Ok (take n (wire_in st s)) /\ wire_out st s' = wire_out st s /\ wire_in st s' = drop n (wire_in st s)) s;
  peer_small body : (N.of_nat (length (answer body)) < 2 ^ 32)%N;
}.

Section protocol.
Context {JT : JsonText} {Y : Type} {SO : SidecarOs Y} {WI : Wires Y} (answer : bytes -> bytes) {HP : HonestPeer Y answer}.

Definition quiet (st : Stream) (s : Y) : Prop := wire_out st s = [] /\ wire_in st s = [].
Definition fits (method : string) (payload : bytes) : Prop := (N.of_nat (length (request_body method payload)) < 2 ^ 32)%N.

Lemma sidecar_call_reply sc st method payload s : sock sc = Some st -> quiet st s -> fits method payload ->
  wp (sidecar_call sc method payload) (fun r s' => r = Ok (answer (request_body method payload)) /\ quiet st s') s.
Proof.
  intros Hsc [Ho Hi] Hf. unfold sidecar_call. rewrite Hsc. case_decide as Hbig; [unfold fits in Hf; lia|].
  set (body := request_body method payload) in *. repeat (apply wp_bind || apply wp_map_err).
  eapply wp_mono; [apply peer_write|]. intros r s1 (-> & Ho1 & Hi1).
  repeat (apply wp_bind || apply wp_map_err). eapply wp_mono; [apply peer_write|]. intros r s2 (-> & Ho2 & Hi2).
  repeat (apply wp_bind || apply wp_map_err). eapply wp_mono; [apply (peer_flush st body s2)|].
  { by rewrite Ho2, Ho1, Ho. } { exact Hf. }
  intros r s3 (-> & Ho3 & Hi3). rewrite Hi2, Hi1, Hi in Hi3. cbn [app] in Hi3. unfold frame in Hi3.
  pose proof (peer_small body) as Hs. set (a := answer body) in *.
  assert (length (be_bytes 4 (N.of_nat (length a))) = 4) as Hl4 by done.
  repeat (apply wp_bind || apply wp_map_err). eapply wp_mono; [apply peer_read; rewrite Hi3, length_app; lia|].
  intros r s4 (-> & Ho4 & Hi4). rewrite Hi3, take_app_length' by done. rewrite Hi3, drop_app_length' in Hi4 by done.
  rewrite from_be_bytes_be by exact Hs. rewrite Nat2N.id. apply wp_map_err.
  eapply wp_mono; [apply peer_read; by rewrite Hi4|]. intros r s5 (-> & Ho5 & Hi5).
  rewrite Hi4, take_ge by done. split; [done|]. split; [congruence|]. by rewrite Hi5, Hi4, drop_ge by done.
Qed.

(** C26: Over a socket that works, to a sidecar that replies to each frame with a frame, any
    sequence of calls whose requests fit a frame's 32-bit length returns the replies to
    those calls in their order: each request is one frame that carries the method and the
    payload, each reply is read to its end and no byte of it is left for the next call. *)
Theorem sidecar_calls_in_order sc st reqs s : sock sc = Some st -> quiet st s -> Forall (fun q => fits q.1 q.2) reqs ->
  wp (mfold (fun acc q => let* out := sidecar_call sc q.1 q.2 in mret (acc ++ [out])) [] reqs)
     (fun r s' => r = Ok ((fun q => answer (request_body q.1 q.2)) <$> reqs) /\ quiet st s') s.
Proof.
  intros Hsc Hq Hf.
  apply (wp_mono _ (fun r s' => match r with Ok outs => outs = (fun q => answer (request_body q.1 q.2)) <$> reqs /\ quiet st s' | Err _ => False end));
    [|intros [outs|e] s'; [by intros [-> ?]|done]].
  eapply wp_mono.
  - apply (wp_mfold _ (fun acc rest s' => quiet st s' /\ Forall (fun q => fits q.1 q.2) rest /\ exists before,
             reqs = before ++ rest /\ acc = (fun q => answer (request_body q.1 q.2)) <$> before) (fun _ _ => False)).
    + intros acc q rest s' (Hq' & [Hfq Hf']%Forall_cons & before & Hreqs & ->). apply wp_bind.
      eapply wp_mono; [by apply sidecar_call_reply|]. intros r s2 [-> Hq2]. apply wp_ret.
      split; [done|]. split; [done|]. exists (before ++ [q]). rewrite <-app_assoc, fmap_app. by split.
    + split; [done|]. split; [done|]. by exists [].
  - intros [outs|e] s' H; [|done]. destruct H as (Hq' & _ & before & Hreqs & ->). rewrite app_nil_r in Hreqs. by subst.
Qed.

(** A request that does not fit in a frame is refused before a byte of it is written. *)
Lemma oversized_is_refused sc st method payload s : sock sc = Some st -> ~ fits method payload ->
  sidecar_call sc method payload s = (Err (internal "sidecar request too large"), s).
Proof. intros Hsc Hf. unfold sidecar_call. rewrite Hsc. case_decide as Hd; [done|]. unfold fits in Hf. lia. Qed.
End protocol.

(** ** Examples *)
Section plugin_examples.
#[local] Existing Instance bits_codec.
#[local] Instance PluginKind_eq : EqDecision PluginKind.
Proof. solve_decision. Defined.
#[local] Instance PluginMode_eq : EqDecision PluginMode.
Proof. solve_decision. Defined.
#[local] Instance SidecarProtocol_eq : EqDecision SidecarProtocol.
Proof. solve_decision. Defined.
#[local] Instance RuntimeHints_eq : EqDecision RuntimeHints.
Proof. solve_decision. Defined.
#[local] Instance EntrySpec_eq : EqDecision EntrySpec.
Proof. solve_decision. Defined.
#[local] Instance PluginManifest_eq : EqDecision PluginManifest.
Proof. solve_decision. Defined.
#[local] Instance PluginKind_countable : Countable PluginKind.
Proof.
  refine (  inj_countable' (fun k => match k with
      | EnvHarness => inl 0 | ToolHarness => inl 1 | EvalHarness => inl 2 | RewardModel => inl 3 | InferenceBackendKind => inl 4
      | StorageKind => inl 5 | QueueKind => inl 6 | ObjectStoreKind => inl 7 | CustomKind id => inr id end)
    (fun c => match c with
      | inl 0 => EnvHarness | inl 1 => ToolHarness | inl 2 => EvalHarness | inl 3 => RewardModel | inl 4 => InferenceBackendKind
      | inl 5 => StorageKind | inl 6 => QueueKind | inl _ => ObjectStoreKind | inr id => CustomKind id end) _).
  by intros [].
Defined.
#[local] Instance PluginMode_countable : Countable PluginMode.
Proof.
  refine (  inj_countable' (fun m => match m with Pyo3Mode => 0 | SidecarMode => 1 | RustCdylib => 2 end)
    (fun n => match n with 0 => Pyo3Mode | 1 => SidecarMode | _ => RustCdylib end) _).
  by intros [].
Defined.
#[local] Instance SidecarProtocol_countable : Countable SidecarProtocol.
Proof.
  refine (  inj_countable' (fun p => match p with GrpcUds => true | FramedJsonUds => false end) (fun b : bool => if b then GrpcUds else FramedJsonUds) _).
  by intros [].
Defined.
#[local] Instance RuntimeHints_countable : Countable RuntimeHints.
Proof.
  refine (  inj_countable' (fun r => (python_min r, gpu r, memory_mib r)) (fun '(p, g, m) => mkHints p g m) _).
  by intros [].
Defined.
#[local] Instance EntrySpec_countable : Countable EntrySpec.
Proof.
  refine (  inj_countable' (fun e => match e with
      | CdylibEntry a b => inl (a, b) | Pyo3Entry a b => inr (inl (a, b)) | SidecarEntry c p t => inr (inr (c, p, t)) end)
    (fun c => match c with
      | inl (a, b) => CdylibEntry a b | inr (inl (a, b)) => Pyo3Entry a b | inr (inr (c, p, t)) => SidecarEntry c p t end) _).
  by intros [].
Defined.
#[local] Instance PluginManifest_countable : Countable PluginManifest.
Proof.
  refine (  inj_countable' (fun m => (plugin_name m, version m, plugin_kind m, trait_id m, mode m, runtime m, entry m, config_schema_path m, network_allowlist m))
    (fun '(n, v, k, t, m, r, e, c, l) => mkManifest n v k t m r e c l) _).
  by intros [].
Defined.

(** Libraries whose one function returns its payload; the state is the buffers given back. *)
#[local] Instance echo_library : Cdylibs (list bytes) := {
  Vtable := N;
  lib_open path := if bool_decide (path = "gone.so") then mthrow "no such file" else mret tt;
  lib_factory _ symbol := mret (if bool_decide (symbol = "null") then None else Some (if bool_decide (symbol = "v2") then 2%N else 1%N));
  abi_version v := v;
  vt_call _ method payload l := (if bool_decide (method = bytes_of "fail") then 7%Z else 0%Z, Some payload, l);
  vt_free_buf _ out l := default [] out :: l;
}.
(** Python with one broken module; an object is the text of how it was made. *)
#[local] Instance text_python : PluginPython (list string) := {
  PyObj := string;
  py_insert_path p := fun l => (Ok tt, p :: l);
  py_import m := if bool_decide (m = "broken") then mthrow "SyntaxError" else mret m;
  py_getattr o a := mret (o +:+ "." +:+ a);
  py_call0 o := mret (o +:+ "()");
  py_call_method o m p := mret (o +:+ "." +:+ m);
  py_as_bytes o := mret (bytes_of o);
  py_reload o := mthrow "SyntaxError";
}.
(** A machine whose sidecars listen from a given time on and answer with the first eight
    bytes of the request. *)
Record Machine : Type := mkMachine { alive : gset nat; next_pid : nat; m_clock : N; up_at : N; m_out : bytes; m_in : bytes }.
Definition set_alive (f : gset nat -> gset nat) (s : Machine) : Machine :=
  mkMachine (f (alive s)) (next_pid s) (m_clock s) (up_at s) (m_out s) (m_in s).
Definition reply8 (body : bytes) : bytes := take 8 body.
#[local] Instance machine_os : SidecarOs Machine := {
  Child := nat;
  Stream := unit;
  os_remove_file _ s := s;
  os_mkdir _ := mret tt;
  os_spawn program _ := fun s =>
    if bool_decide (program = "absent") then (Err "No such file or directory", s)
    else (Ok (next_pid s), mkMachine ({[ next_pid s ]} ∪ alive s) (S (next_pid s)) (m_clock s) (up_at s) (m_out s) (m_in s));
  os_connect _ := fun s => (if bool_decide (up_at s <= m_clock s)%N then Ok tt else Err "Connection refused", s);
  os_clock := m_clock;
  os_sleep n s := mkMachine (alive s) (next_pid s) (m_clock s + n) (up_at s) (m_out s) (m_in s);
  os_write _ b := fun s => (Ok tt, mkMachine (alive s) (next_pid s) (m_clock s) (up_at s) (m_out s ++ b) (m_in s));
  os_flush _ := fun s => (Ok tt, mkMachine (alive s) (next_pid s) (m_clock s) (up_at s) [] (m_in s ++ frame (reply8 (drop 4 (m_out s)))));
  os_read_exact _ n := fun s =>
    if bool_decide (n <= length (m_in s)) then (Ok (take n (m_in s)), mkMachine (alive s) (next_pid s) (m_clock s) (up_at s) (m_out s) (drop n (m_in s)))
    else (Err "early eof", s);
  os_sigterm c := set_alive (.∖ {[ c ]});
  os_wait _ c s := (bool_decide (c ∉ alive s), s);
  os_kill c := set_alive (.∖ {[ c ]});
  os_close _ s := s;
  os_drop c := set_alive (.∖ {[ c ]});
}.
#[local] Instance machine_running : Running Machine := fun c s => c ∈ alive s.
#[local] Instance machine_laws : SidecarLaws Machine.
Proof.
  split; unfold calmer, stays_in, running, machine_running; cbn -[bool_decide].
  - done.
  - done.
  - intros program args s. case_bool_decide; simpl; set_solver.
  - intros _ s. split; [done|lia].
  - intros n s. split; [done|lia].
  - done.
  - done.
  - intros _ n s c. by case_bool_decide.
  - set_solver.
  - intros _ c s. split; [done|]. by rewrite bool_decide_eq_true.
  - set_solver.
  - done.
  - set_solver.
Qed.
#[local] Instance machine_wires : Wires Machine := { wire_out _ := m_out; wire_in _ := m_in }.
#[local] Instance machine_honest : HonestPeer Machine reply8.
Proof.
  split; unfold wp; simpl.
  - done.
  - intros _ body s Hout _. by rewrite Hout.
  - intros _ n s Hn. by rewrite bool_decide_eq_true_2 by done.
  - intros body. unfold reply8. rewrite length_take. lia.
Qed.
#[local] Instance name_json : JsonText := {
  json_text v := match v with JObject ((_, JString m) :: _) => "{" +:+ m +:+ "}" | _ => "" end;
  json_of_text _ := None;
}.

Definition all_features : HostFeatures := mkHostFeatures true true true true.
Abbreviation ToyHost := (HostWorld (L := list bytes) (P := list string) (Y := Machine) (W := Mem.World)).
Definition toy_host (s : Machine) : ToyHost := mkHost ∅ [] [] s (Mem.mkWorld ∅ [] []).
Definition toy_manifest (name : string) (md : PluginMode) (e : EntrySpec) : PluginManifest :=
  mkManifest name "1" EnvHarness "t" md (mkHints (Some "3.11") false 0) e None [].
Definition echo_manifest : PluginManifest := toy_manifest "echo" RustCdylib (CdylibEntry "echo.so" "factory").
Definition side_manifest : PluginManifest := toy_manifest "side" SidecarMode (SidecarEntry ["serve"] FramedJsonUds "").
Definition broken_manifest : PluginManifest := toy_manifest "py" Pyo3Mode (Pyo3Entry "broken" "make").
Definition no_parent : string -> option string := fun _ => None.
Definition machine_at (up : N) : Machine := mkMachine ∅ 0 0 up [] [].
Definition with_rows_cfg : HostConfig := with_host_storage 42.

Definition echo_handle : CdylibState := mkCdylib (CL := echo_library) (Some 1%N) "echo".
Lemma cdylib_call_spec_witness :
  cdylib_call echo_handle "m" [x01] [] = (Ok [x01], [[x01]]) /\
  cdylib_call echo_handle "fail" [x01] [] = (Err (contract "echo" "cdylib call(fail) rc=7"), []).
Proof.
  split.
  - destruct (cdylib_call_spec echo_handle (1%N : Vtable (Cdylibs := echo_library)) "m" [x01] [] eq_refl) as [_ H]. exact (H eq_refl).
  - destruct (cdylib_call_spec echo_handle (1%N : Vtable (Cdylibs := echo_library)) "fail" [x01] [] eq_refl) as [H _]. exact (H (fun E => ltac:(discriminate E))).
Defined.

Lemma connect_with_retry_ends_witness :
  exists r s', connect_with_retry "s" (machine_at 9000) = (r, s') /\ is_ok r = false /\ (5000 <= m_clock s')%N.
Proof.
  destruct (connect_with_retry_ends "s" (machine_at 9000)) as (r & s' & _ & H & _ & Hm). exists r, s'. split; [exact H|].
  assert (is_ok (connect_with_retry "s" (machine_at 9000)).1 = false) as Hr by (vm_compute; reflexivity).
  rewrite H in Hr. destruct r as [st|e]; [discriminate Hr|]. split; [reflexivity|exact (proj1 Hm)].
Defined.
(** One that listens in time is found. *)
Lemma late_sidecar_is_found : connect_with_retry "s" (machine_at 120) = (Ok tt, mkMachine ∅ 0 150 120 [] []).
Proof. vm_compute. reflexivity. Qed.

Abbreviation toy_load := (load (L := list bytes) (P := list string) (Y := Machine) (W := Mem.World) no_parent all_features with_rows_cfg None).
Lemma plugin_load_spec_witness :
  is_ok (toy_load echo_manifest (toy_host (machine_at 0))).1 = true /\
  wp (toy_load echo_manifest) (fun r _ => match r with Ok h => h = mkHandle "echo-1" echo_manifest | Err _ => True end)
     (toy_host (machine_at 0)).
Proof.
  split; [vm_compute; reflexivity|].
  eapply wp_mono; [exact (plugin_load_spec no_parent all_features with_rows_cfg None echo_manifest (toy_host (machine_at 0)))|].
  intros [h|e] w' H; [exact (proj1 H)|exact I].
Defined.

(** The manifest's row cannot be committed: the load is an error, and the plugin is in the
    table. *)
Lemma failed_load_stays_loaded :
  let w := mkHost ∅ [] [] (machine_at 0) (Mem.mkWorld ∅ [] [None; None; Some "disk full"]) in
  is_ok (toy_load echo_manifest w).1 = false /\ is_Some (handles (toy_load echo_manifest w).2 !! "echo-1") /\
  (plugin_call (mkHandle "echo-1" echo_manifest) "m" [x01] (toy_load echo_manifest w).2).1 = Ok [x01].
Proof. split; [vm_compute; reflexivity|]. split; [vm_compute; by eexists|vm_compute; reflexivity]. Qed.

(** A module that cannot be imported: the load succeeds and every call says why. *)
Lemma broken_module_loads :
  is_ok (toy_load broken_manifest (toy_host (machine_at 0))).1 = true /\
  (plugin_call (mkHandle "py-1" broken_manifest) "m" [] (toy_load broken_manifest (toy_host (machine_at 0))).2).1 =
    Err (contract "py" "pyo3 init failed: SyntaxError").
Proof. split; vm_compute; reflexivity. Qed.

(** Two plugins whose names and versions join to the same text share an identifier; the
    second replaces the first. *)
Lemma identifiers_collide :
  plugin_id (mkManifest "a-b" "c" EnvHarness "t" SidecarMode (mkHints None false 0) (SidecarEntry [] GrpcUds "") None []) =
  plugin_id (mkManifest "a" "b-c" EnvHarness "t" SidecarMode (mkHints None false 0) (SidecarEntry [] GrpcUds "") None []).
Proof. reflexivity. Qed.

Lemma toy_host_sound up : sound_host (toy_host (machine_at up)).
Proof. split; [apply map_Forall_empty|intros c Hc; exact (False_ind _ (not_elem_of_empty (C := gset nat) c Hc))]. Qed.

Definition side_handle : PluginHandle := mkHandle "side-1" side_manifest.
Lemma host_stays_sound_witness :
  sound_host (foldl (host_op no_parent all_features with_rows_cfg) (toy_host (machine_at 100))
    [LoadOp None side_manifest; CallOp side_handle "m" [x01]; LoadOp None echo_manifest;
     LoadOp None side_manifest; ReloadOp side_handle; UnloadOp (mkHandle "echo-1" echo_manifest)]).
Proof.
  exact (proj1 (host_stays_sound no_parent all_features with_rows_cfg _ (toy_host (machine_at 100)) (toy_host_sound 100))).
Defined.

Definition side_state (program : string) : SidecarState := mkSidecar (Some 0) (Some tt) [program] "s" "side".
Definition sidecar_host (program : string) (up : N) : ToyHost :=
  mkHost {[ "side-1" := SidecarH (side_state program) ]} [] []
    (mkMachine {[ 0 ]} 1 0 up [] []) (Mem.mkWorld ∅ [] []).
Lemma sidecar_host_sound program up : sound_host (sidecar_host program up).
Proof.
  split.
  - apply map_Forall_singleton. by repeat split.
  - intros c Hc. exists "side-1", (side_state program). split; [reflexivity|].
    change (c ∈ ({[ 0 ]} : gset nat)) in Hc. by apply elem_of_singleton in Hc as ->.
Qed.

(** A reload whose new process starts puts it in the table; one whose command is gone
    leaves the sidecar without a process. *)
Lemma reload_and_unload_spec_witness :
  (exists sc', handles (reload no_parent all_features side_handle (sidecar_host "serve" 100)).2 !! "side-1" = Some (SidecarH sc')
     /\ child sc' <> None) /\
  (plugin_call side_handle "m" [] (reload no_parent all_features side_handle (sidecar_host "absent" 0)).2).1 =
    Err (internal "sidecar stream not connected").
Proof.
  split.
  - destruct (reload_and_unload_spec no_parent all_features side_handle "m" [] (sidecar_host "serve" 100) (sidecar_host_sound _ _)) as [_ H].
    replace (handles (sidecar_host "serve" 100) !! handle_id side_handle)
      with (Some (A := HandleState) (SidecarH (side_state "serve"))) in H by reflexivity.
    assert (is_ok (reload no_parent all_features side_handle (sidecar_host "serve" 100)).1 = true) as Hok by (vm_compute; reflexivity).
    destruct (reload no_parent all_features side_handle (sidecar_host "serve" 100)) as [r w'] eqn:Hr.
    cbn [f_hot_reload all_features] in H. destruct H as (sc' & Hh & H). destruct r as [[]|e]; [|discriminate Hok].
    exists sc'. split; [cbn [snd]; rewrite Hh; reflexivity|].
    destruct H as (program & args & s1 & c & s2 & st & _ & _ & _ & _ & ->). discriminate.
  - destruct (reload_and_unload_spec no_parent all_features side_handle "m" [] (sidecar_host "absent" 0) (sidecar_host_sound _ _)) as [_ H].
    replace (handles (sidecar_host "absent" 0) !! handle_id side_handle)
      with (Some (A := HandleState) (SidecarH (side_state "absent"))) in H by reflexivity.
    assert (is_ok (reload no_parent all_features side_handle (sidecar_host "absent" 0)).1 = false) as Hok by (vm_compute; reflexivity).
    destruct (reload no_parent all_features side_handle (sidecar_host "absent" 0)) as [r w'] eqn:Hr.
    cbn [f_hot_reload all_features] in H. destruct H as (sc' & _ & H). destruct r as [[]|e]; [discriminate Hok|].
    exact (proj2 (proj2 H)).
Defined.

Lemma sidecar_calls_in_order_witness :
  let sc := mkSidecar (Some 0) (Some tt) ["serve"] "s" "side" in
  wp (mfold (fun acc q => let* out := sidecar_call sc q.1 q.2 in mret (acc ++ [out])) [] [("step", [x41]); ("observe", [x42])])
     (fun r _ => r = Ok [bytes_of "{step}"; bytes_of "{observe"]) (machine_at 0).
Proof.
  intros sc. eapply wp_mono.
  - apply (sidecar_calls_in_order reply8 sc tt); [reflexivity|split; reflexivity|]. repeat constructor.
  - intros r s' [Hr _]. rewrite Hr. reflexivity.
Defined.
End plugin_examples.
