(* ===== verification/Doctor.v ===== *)
(** [rollout cloud doctor] (rollout-cli/src/commands/cloud/doctor and cloud_factory.rs):
    the runtime built for the configured provider, the seven checks over it, the two reports
    and the exit code. *)
From stdpp Require Import base option list gmap strings pretty.
From S2P Require Import Prelude.
From S2P Require Import Text.
From S2P Require Import Core.
From S2P Require Import Json.
From S2P Require Import Cloud.
From S2P Require Import S3.
From S2P Require Import Gcs.
From S2P Require Import CloudQueues.
From S2P Require Import Secrets.

(** ** The arguments *)
Inductive ProviderArg : Type := AwsProvider | GcpProvider.
Inductive OutputFormat : Type := Human | JsonFormat.
Record DoctorArgs : Type := mkDoctorArgs { provider : ProviderArg; config : string; format : OutputFormat }.
Definition provider_debug (p : ProviderArg) : string := match p with AwsProvider => "Aws" | GcpProvider => "Gcp" end.

Section doctor_config.
(** The file's text and the run configuration's [\[cloud\]] block in it. *)
Context (read_file : string -> result string string) (toml : string -> result string CloudConfig).
Definition cloud_config_from_toml (path : string) : result string CloudConfig :=
  match read_file path with
  | Err e => Err ("read " +:+ path +:+ ": " +:+ e)
  | Ok s => match toml s with
            | Err e => Err ("toml parse: " +:+ e)
            | Ok cloud => match Cloud.validate_cross_fields cloud with
                          | Err e => Err ("config invalid: " +:+ CoreError_to_string e)
                          | Ok _ => Ok cloud
                          end
            end
  end.
End doctor_config.

Definition provider_matches (cfg : CloudConfig) (arg : ProviderArg) : bool :=
  match cfg, arg with
  | Aws _, AwsProvider | Gcp _, GcpProvider => true
  | _, _ => false
  end.

(** ** The runtime *)
(** The four trait objects, each over the state of its service.  A streaming put takes the
    name it stages under and the content type of its hint; what [get_stream] returns is read
    to its end. *)
Record CloudRuntime (O Q X H : Type) : Type := mkRuntime {
  rt_put_bytes : bytes -> M O CoreError ContentId;
  rt_get_bytes : ContentId -> M O CoreError bytes;
  rt_put_stream : string -> reads -> option string -> M O CoreError ContentId;
  rt_get_stream : ContentId -> M O CoreError (result string bytes);
  rt_enqueue : bytes -> M Q CoreError QueueItemId;
  rt_dequeue_with_lease : N -> M Q CoreError (option (QueueItemId * bytes * LeaseToken));
  rt_ack : QueueItemId -> M Q CoreError unit;
  rt_secret : string -> M X CoreError string;
  rt_inventory : M H CoreError ComputeInventory;
  rt_preemption_signal : M H CoreError (option N);
}.
Arguments rt_put_bytes {O Q X H}. Arguments rt_get_bytes {O Q X H}. Arguments rt_put_stream {O Q X H}.
Arguments rt_get_stream {O Q X H}. Arguments rt_enqueue {O Q X H}. Arguments rt_dequeue_with_lease {O Q X H}.
Arguments rt_ack {O Q X H}. Arguments rt_secret {O Q X H}. Arguments rt_inventory {O Q X H}.
Arguments rt_preemption_signal {O Q X H}.
Record Services (O Q X H : Type) : Type := mkServices { objects_of : O; queue_of : Q; secrets_of : X; hints_of : H }.
Arguments mkServices {O Q X H}. Arguments objects_of {O Q X H}. Arguments queue_of {O Q X H}.
Arguments secrets_of {O Q X H}. Arguments hints_of {O Q X H}.

(** A built runtime with the services behind it, whatever their types. *)
Record Built : Type := mkBuilt {
  b_o : Type; b_q : Type; b_x : Type; b_h : Type; b_runtime : CloudRuntime b_o b_q b_x b_h; b_services : Services b_o b_q b_x b_h;
}.

(** ** AWS *)
Section aws_runtime.
Context {UT : UlidText} (blake3 : bytes -> bytes) (base64_encode : bytes -> string) (base64_decode : string -> result string bytes).
Context {C : Type} {B : Bucket C AwsError.SdkError} {SC : S3 C}.
Context {QC : Type} {QB : Broker QC AwsError.SdkError string} {Q : Sqs QC}.
Context {XC HC : Type} (get_secret_value : string -> M XC AwsError.SdkError (option string)).
Context (local_inventory : M HC CoreError ComputeInventory) (imds_get : string -> M HC string string).

Definition aws_feature_missing : CoreError :=
  Fatal (ConfigInvalid "binary built without the `aws` feature; rebuild with --features aws").
(** How the SDK's clients are made. *)
Record AwsClients : Type := mkAwsClients {
  aws_region : string; endpoint_url : option string; test_credentials : bool; force_path_style : bool; checksums_when_required : bool;
}.
Definition aws_clients (env : string -> option string) (cfg : AwsConfig) : AwsClients :=
  let emulator := match env "AWS_ENDPOINT_URL" with Some e => Some e | None => env "LOCALSTACK_ENDPOINT" end in
  let on := bool_decide (is_Some emulator) in
  mkAwsClients (region cfg) emulator on on on.

Definition s3_of (cfg : AwsConfig) : S3ObjectStore :=
  mkS3 (s3_bucket (s3 cfg)) (default "" (s3_prefix (s3 cfg))) (multipart_chunk_bytes (s3 cfg)).
Definition build_aws_runtime (cfg : AwsConfig) : CloudRuntime (S3.World (C := C)) (CloudQueue QC string) XC HC :=
  let store := s3_of cfg in
  let visibility := visibility_default (visibility_timeout_secs (sqs cfg)) in
  mkRuntime _ _ _ _
    (S3.put_bytes blake3 store) (S3.get_bytes store) (S3.put_stream blake3 store) (S3.get_stream store)
    (sqs_enqueue blake3 base64_encode) (sqs_dequeue_with_lease blake3 base64_decode visibility) sqs_ack
    (aws_get get_secret_value (aws_secrets cfg))
    (ec2_inventory local_inventory imds_get) (ec2_preemption_signal imds_get).
(** With the services that clients made that way reach; a fresh queue has nothing in flight. *)
Definition aws_built (env : string -> option string) (connect : AwsClients -> C * QC * XC * HC) (cfg : AwsConfig) : result CoreError Built :=
  let '(c, q, x, h) := connect (aws_clients env cfg) in
  Ok (mkBuilt _ _ _ _ (build_aws_runtime cfg) (mkServices (S3.mkWorld c true []) (mkCloudQueue q ∅) x h)).
End aws_runtime.

(** ** GCP *)
Section gcp_runtime.
Context {UT : UlidText} (blake3 : bytes -> bytes) (base64_decode : string -> result string bytes).
Context {C : Type} {B : Bucket C GcsError} {G : Gcs C}.
Context {QC : Type} {QB : Broker QC string bytes} {P : PubSub QC}.
Context {XC HC : Type} (env : string -> option string) (http_get : string -> option string -> M XC string Reply).
Context (local_inventory : M HC CoreError ComputeInventory) (mds_get : string -> M HC string Reply) (host : string).
(** The fallible steps of the construction: the storage client's credentials, the Pub/Sub
    credentials and client, and the credential provider with its token. *)
Context (load_gcs_client : result CoreError unit) (pubsub_auth pubsub_client : result string unit).
Context (adc_provider : M XC string unit) (adc_token : M XC string string).

Definition gcp_feature_missing : CoreError :=
  Fatal (ConfigInvalid "binary built without the `gcp` feature; rebuild with --features gcp").
Definition gcs_of (cfg : GcpConfig) : GcsObjectStore :=
  mkGcs (gcs_bucket (gcs cfg)) (default "" (gcs_prefix (gcs cfg))) (resumable_chunk_bytes (gcs cfg)).
Definition pubsub_init : result CoreError unit :=
  let bad what e := Fatal (ConfigInvalid (what +:+ ": " +:+ e)) in
  let? _ := match env "PUBSUB_EMULATOR_HOST" with
            | Some _ => Ok tt
            | None => match pubsub_auth with Ok _ => Ok tt | Err e => Err (bad "pubsub ADC load failed" e) end
            end in
  match pubsub_client with Ok _ => Ok tt | Err e => Err (bad "pubsub client init" e) end.
(** The environment's secrets under an emulator, Secret Manager otherwise. *)
Definition gcp_secret_store (cfg : GcpConfig) : M XC CoreError (string -> M XC CoreError string) :=
  if bool_decide (is_Some (env "STORAGE_EMULATOR_HOST") \/ is_Some (env "PUBSUB_EMULATOR_HOST"))
  then mret (env_get env (gcp_secrets cfg))
  else let* sm := from_adc adc_provider adc_token (Cloud.project cfg) (gcp_secrets cfg) in mret (gcp_get http_get base64_decode sm).
Definition build_gcp_runtime (cfg : GcpConfig) : M XC CoreError (CloudRuntime C (CloudQueue QC Received) XC HC) :=
  let* _ := mlift (match env "STORAGE_EMULATOR_HOST" with Some _ => Ok tt | None => load_gcs_client end) in
  let* _ := mlift pubsub_init in
  let* secret := gcp_secret_store cfg in
  let store := gcs_of cfg in
  let deadline := deadline_default (ack_deadline_secs (pubsub cfg)) in
  mret (mkRuntime _ _ _ _
    (Gcs.put_bytes blake3 store) (Gcs.get_bytes store) (Gcs.put_stream blake3 store)
    (fun id => let* b := Gcs.get_stream store id in mret (Ok b))
    (ps_enqueue blake3) (ps_dequeue_with_lease blake3 deadline) ps_ack secret
    (gce_inventory local_inventory mds_get host) (gce_preemption_signal mds_get host)).
Definition gcp_built (c : C) (q : QC) (x : XC) (h : HC) (cfg : GcpConfig) : result CoreError Built :=
  let '(r, x') := build_gcp_runtime cfg x in
  match r with
  | Ok rt => Ok (mkBuilt _ _ _ _ rt (mkServices c (mkCloudQueue q ∅) x' h))
  | Err e => Err e
  end.
End gcp_runtime.

(** ** The checks *)
Inductive CheckStatus : Type := Pass | Fail.
Record CheckResult : Type := mkCheck { name : string; status : CheckStatus; latency_ms : N; error : option string }.
Definition failed (c : CheckResult) : bool := match status c with Pass => false | Fail => true end.

Definition fail (name msg : string) : CheckResult := mkCheck name Fail 0 (Some msg).
(** [timed] and [timed_async]: the latency is measured on either path. *)
Definition timed (name : string) (latency : N) (r : result string unit) : CheckResult :=
  match r with
  | Ok _ => mkCheck name Pass latency None
  | Err e => mkCheck name Fail latency (Some e)
  end.

(** [format!("{what}: {e}")] of a service's error. *)
Definition during {W A} (what : string) (m : M W CoreError A) : M W string A :=
  map_err (fun e => what +:+ ": " +:+ CoreError_to_string e) m.

Section checks.
Context {UT : UlidText} (blake3 : bytes -> bytes).
(** Built with the [_doctor] feature. *)
Context (doctor_feature : bool).
(** The parts of the TLS probe. *)
Context (server_name : string -> result string unit) (tcp_connect tls_connect : string -> result string unit).

Definition without_feature : string := "doctor built without a cloud feature; rebuild with --features aws or gcp".
Definition tcp_tls_probe (host : string) (port : N) : result string unit :=
  let peer := host +:+ ":" +:+ pretty port in
  if doctor_feature then
    match server_name host with
    | Err e => Err ("invalid server name " +:+ host +:+ ": " +:+ e)
    | Ok _ => match tcp_connect host with
              | Err e => Err ("tcp connect " +:+ peer +:+ ": " +:+ e)
              | Ok _ => match tls_connect host with
                        | Err e => Err ("tls handshake " +:+ peer +:+ ": " +:+ e)
                        | Ok _ => Ok tt
                        end
              end
    end
  else Err without_feature.

Definition check_reachability (p : ProviderArg) (cfg : CloudConfig) : result string unit :=
  match p, cfg with
  | AwsProvider, Aws aws => tcp_tls_probe ("s3." +:+ region aws +:+ ".amazonaws.com") 443
  | GcpProvider, Gcp _ => tcp_tls_probe "storage.googleapis.com" 443
  | _, _ => Err "provider/config mismatch"
  end.

Context {O Q X H : Type} (rt : CloudRuntime O Q X H).

Definition probe (u : Ulid) : bytes := bytes_of ("doctor-probe-" +:+ ulid_string u).

Definition check_auth : M H string unit :=
  let* _ := during "credential/inventory probe" (rt_inventory rt) in mret tt.

Definition check_object_store (u : Ulid) : M O string unit :=
  let* id := during "put_bytes" (rt_put_bytes rt (probe u)) in
  let* got := during "get_bytes" (rt_get_bytes rt id) in
  if decide (got <> probe u) then mthrow "object_store roundtrip mismatch" else mret tt.

Definition check_queue (u : Ulid) : M Q string unit :=
  let* _ := during "enqueue" (rt_enqueue rt (probe u)) in
  let* item := during "dequeue" (rt_dequeue_with_lease rt 30000) in
  match item with
  | None => mthrow "dequeue returned None"
  | Some (id, got, _) =>
      if decide (got <> probe u) then mthrow "queue roundtrip mismatch" else during "ack" (rt_ack rt id)
  end.

Definition first_secret (cfg : CloudConfig) : option string :=
  match cfg with Aws aws => head (aws_secrets aws) | Gcp gcp => head (gcp_secrets gcp) | Local => None end.
Definition check_secret_store (cfg : CloudConfig) : M X string unit :=
  match first_secret cfg with
  | None => mthrow "no secrets in allowlist; configure [cloud.*.secrets].allowlist to enable this check"
  | Some name => let* _ := during ("get_secret(" +:+ name +:+ ")") (rt_secret rt name) in mret tt
  end.

Definition check_compute_hint : M H string unit :=
  let* _ := during "inventory" (rt_inventory rt) in
  let* _ := during "preemption_signal" (rt_preemption_signal rt) in
  mret tt.

(** A byte of the 64 MiB pattern, and the round trip of a buffer. *)
Definition pattern (len : nat) : bytes := (fun i => byte_of (N.of_nat i mod 251)) <$> seq 0 len.
Definition probe_len : nat := N.to_nat (64 * 1024 * 1024).
Definition content_id_debug (id : ContentId) : string :=
  "ContentId([" +:+ String.concat ", " ((fun b => pretty (Byte.to_N b)) <$> id) +:+ "])".
Definition roundtrip (fresh : string) (buf : bytes) : M O string unit :=
  let expected := blake3 buf in
  let* id := during "put_stream" (rt_put_stream rt fresh [Ok buf] None) in
  if decide (id <> expected)
  then mthrow ("ContentId mismatch: got " +:+ content_id_debug id +:+ ", expected " +:+ content_id_debug expected)
  else
    let* stream := during "get_stream" (rt_get_stream rt id) in
    let* got := map_err (fun e => "get_stream read: " +:+ e) (mlift stream) in
    if decide (got <> buf) then mthrow "get_stream returned wrong bytes" else mret tt.
Definition check_content_id_roundtrip (fresh : string) : M O string unit :=
  if doctor_feature then roundtrip fresh (pattern probe_len) else mthrow without_feature.

(** ** The run *)
Abbreviation services := (Services O Q X H).
(** A check of one service, with its measured latency. *)
Definition on_hints (m : M H string unit) (s : services) : result string unit * services :=
  let '(r, h) := m (hints_of s) in (r, mkServices (objects_of s) (queue_of s) (secrets_of s) h).
Definition on_objects (m : M O string unit) (s : services) : result string unit * services :=
  let '(r, o) := m (objects_of s) in (r, mkServices o (queue_of s) (secrets_of s) (hints_of s)).
Definition on_queue (m : M Q string unit) (s : services) : result string unit * services :=
  let '(r, q) := m (queue_of s) in (r, mkServices (objects_of s) q (secrets_of s) (hints_of s)).
Definition on_secrets (m : M X string unit) (s : services) : result string unit * services :=
  let '(r, x) := m (secrets_of s) in (r, mkServices (objects_of s) (queue_of s) x (hints_of s)).

(** The values the run draws: two probe identifiers and the streaming put's staging name. *)
Record Draws : Type := mkDraws { object_probe : Ulid; queue_probe : Ulid; staging : string }.

(** The seven checks.  Checks 3 to 6 are joined: each uses a service of its own, so the
    order their steps take changes none of their results. *)
Definition run_checks (latency : string -> N) (d : Draws) (p : ProviderArg) (cfg : CloudConfig) (s : services) : list CheckResult * services :=
  let done name r := timed name (latency name) r in
  let reach := check_reachability p cfg in
  let '(auth, s) := on_hints check_auth s in
  let '(os, s) := on_objects (check_object_store (object_probe d)) s in
  let '(q, s) := on_queue (check_queue (queue_probe d)) s in
  let '(ss, s) := on_secrets (check_secret_store cfg) s in
  let '(ch, s) := on_hints check_compute_hint s in
  let '(rtp, s) := on_objects (check_content_id_roundtrip (staging d)) s in
  ([done "reachability" reach; done "auth" auth; done "object_store" os; done "queue" q; done "secret_store" ss;
    done "compute_hint" ch; done "content_id_roundtrip" rtp], s).
End checks.


Section doctor.
Context {UT : UlidText} {JT : JsonText} (blake3 : bytes -> bytes) (doctor_feature aws_feature gcp_feature : bool).
Context (server_name tcp_connect tls_connect : string -> result string unit) (latency : string -> N) (draws : Draws).
(** The providers' builders; the local one is not reached from this command. *)
Context (build_local : result CoreError Built) (build_aws : AwsConfig -> result CoreError Built) (build_gcp : GcpConfig -> result CoreError Built).

Definition build_cloud_runtime (cfg : CloudConfig) : result CoreError Built :=
  match cfg with
  | Local => build_local
  | Aws aws => if aws_feature then build_aws aws else Err aws_feature_missing
  | Gcp gcp => if gcp_feature then build_gcp gcp else Err gcp_feature_missing
  end.

Definition run_all_checks (p : ProviderArg) (cfg : CloudConfig) : list CheckResult :=
  match build_cloud_runtime cfg with
  | Err e => [fail "auth" ("runtime init: " +:+ CoreError_to_string e)]
  | Ok b => (run_checks blake3 doctor_feature server_name tcp_connect tls_connect (b_runtime b) latency draws p cfg (b_services b)).1
  end.

(** *** The reports *)
Definition passes (results : list CheckResult) : nat := length (filter (fun c => failed c = false) results).
Definition total_latency (results : list CheckResult) : N := foldr (fun c n => (latency_ms c + n)%N) 0%N results.
Definition newline : string := String (Ascii.ascii_of_nat 10) "".
Definition escape : string := String (Ascii.ascii_of_nat 27) "".
Definition spaces (n : nat) : string := String.string_of_list_byte (replicate n x20).
(** [{:30}] and [{:>7}] of ASCII text. *)
Definition pad_right (w : nat) (s : string) : string := s +:+ spaces (w - String.length s).
Definition pad_left (w : nat) (s : string) : string := spaces (w - String.length s) +:+ s.
Definition human_line (c : CheckResult) : string :=
  let icon := if failed c then escape +:+ "[31m✗" +:+ escape +:+ "[0m" else escape +:+ "[32m✓" +:+ escape +:+ "[0m" in
  "  " +:+ icon +:+ " " +:+ pad_right 30 (name c) +:+ " " +:+ pad_left 7 (pretty (latency_ms c)) +:+ "ms"
  +:+ match error c with Some e => "  " +:+ escape +:+ "[31m" +:+ e +:+ escape +:+ "[0m" | None => "" end
  +:+ newline.
Definition human_render (results : list CheckResult) : string :=
  let pass := passes results in
  String.concat "" (human_line <$> results) +:+ newline
  +:+ "  " +:+ pretty pass +:+ " pass, " +:+ pretty (length results - pass) +:+ " fail — total "
  +:+ pretty (total_latency results) +:+ "ms" +:+ newline.

Definition check_json (c : CheckResult) : json :=
  JObject ([("name", JString (name c)); ("status", JString (if failed c then "fail" else "pass")); ("latency_ms", JU64 (latency_ms c))]
           ++ match error c with Some e => [("error", JString e)] | None => [] end).
Definition json_report (results : list CheckResult) : json :=
  let pass := passes results in
  JObject [("checks", JArray (check_json <$> results));
           ("summary", JObject [("pass_count", JU64 (N.of_nat pass)); ("fail_count", JU64 (N.of_nat (length results - pass)));
                                ("total_latency_ms", JU64 (total_latency results))])].
Definition json_render (results : list CheckResult) : string := json_text (json_report results).

(** What the process writes and its exit code; it does not return. *)
Record Exit : Type := mkExit { stdout : string; stderr : string; code : N }.
Context (read_file : string -> result string string) (toml : string -> result string CloudConfig).
Definition doctor_run (args : DoctorArgs) : Exit :=
  match cloud_config_from_toml read_file toml (config args) with
  | Err e => mkExit "" ("Config error: " +:+ e +:+ newline) 2
  | Ok cfg =>
      if negb (provider_matches cfg (provider args)) then
        mkExit "" ("--provider " +:+ provider_debug (provider args) +:+ " does not match [cloud].provider in " +:+ config args +:+ newline) 2
      else
        let results := run_all_checks (provider args) cfg in
        let out := match format args with Human => human_render results | JsonFormat => json_render results +:+ newline end in
        mkExit out "" (if existsb failed results then 1 else 0)
  end.
End doctor.

Lemma stream_of_one b : stream_bytes [Ok b] = b.
Proof. destruct b as [|x b]; simpl; [done|]. by rewrite app_nil_r. Qed.
Lemma pattern_length len : length (pattern len) = len.
Proof. unfold pattern. by rewrite length_fmap, length_seq. Qed.
Lemma wp_during {W A} what (m : M W CoreError A) (Q : result string A -> W -> Prop) w :
  wp m (fun r w' => Q (match r with Ok a => Ok a | Err e => Err (what +:+ ": " +:+ CoreError_to_string e) end) w') w ->
  wp (during what m) Q w.
Proof. apply wp_map_err. Qed.

(** ** The exit code *)
Section exit_code.
Context {UT : UlidText} {JT : JsonText} (blake3 : bytes -> bytes) (doctor_feature aws_feature gcp_feature : bool).
Context (server_name tcp_connect tls_connect : string -> result string unit) (latency : string -> N) (draws : Draws).
Context (build_local : result CoreError Built) (build_aws : AwsConfig -> result CoreError Built) (build_gcp : GcpConfig -> result CoreError Built).
Context (read_file : string -> result string string) (toml : string -> result string CloudConfig).
Abbreviation checks_of cfg p := (run_all_checks blake3 doctor_feature aws_feature gcp_feature server_name tcp_connect tls_connect latency draws
  build_local build_aws build_gcp p cfg).
Abbreviation doctor args := (doctor_run blake3 doctor_feature aws_feature gcp_feature server_name tcp_connect tls_connect latency draws
  build_local build_aws build_gcp read_file toml args).

(** *** What the run finds *)
(** The configuration can be read, parsed and validated and is the provider's the operator
    named. *)
Definition within_bounds (largest_part chunk : N) : Prop := (largest_part <= 10 * 1024 ^ 3 /\ 5 * 1024 ^ 2 <= chunk)%N.
Definition usable (args : DoctorArgs) (cfg : CloudConfig) : Prop :=
  exists text, read_file (config args) = Ok text /\ toml text = Ok cfg /\
  match provider args with
  | AwsProvider => exists aws, cfg = Aws aws /\ within_bounds (s3_max_snapshot_part_bytes (s3 aws)) (multipart_chunk_bytes (s3 aws))
  | GcpProvider => exists gcp, cfg = Gcp gcp /\ within_bounds (gcs_max_snapshot_part_bytes (gcs gcp)) (resumable_chunk_bytes (gcs gcp))
  end.
(** The binary has the provider's feature and the clients can be made. *)
Definition runtime_built (cfg : CloudConfig) (b : Built) : Prop :=
  match cfg with
  | Local => False
  | Aws aws => aws_feature = true /\ build_aws aws = Ok b
  | Gcp gcp => gcp_feature = true /\ build_gcp gcp = Ok b
  end.

(** What each check has to find, in the calls made of the services and their answers. *)
Section findings.
Context {O Q X H : Type} (rt : CloudRuntime O Q X H) (s : Services O Q X H) (cfg : CloudConfig).
Definition small_payload (u : Ulid) : bytes := bytes_of ("doctor-probe-" +:+ ulid_string u).
Definition endpoint : string :=
  match cfg with Aws aws => "s3." +:+ region aws +:+ ".amazonaws.com" | _ => "storage.googleapis.com" end.
Definition found_reachable : Prop :=
  doctor_feature = true /\ server_name endpoint = Ok tt /\ tcp_connect endpoint = Ok tt /\ tls_connect endpoint = Ok tt.
Definition found_auth : Prop := exists inv, (rt_inventory rt (hints_of s)).1 = Ok inv.
Definition found_objects : Prop := exists id o,
  rt_put_bytes rt (small_payload (object_probe draws)) (objects_of s) = (Ok id, o) /\
  (rt_get_bytes rt id o).1 = Ok (small_payload (object_probe draws)).
Definition found_queue : Prop := exists own q id token q',
  rt_enqueue rt (small_payload (queue_probe draws)) (queue_of s) = (Ok own, q) /\
  rt_dequeue_with_lease rt 30000 q = (Ok (Some (id, small_payload (queue_probe draws), token)), q') /\
  (rt_ack rt id q').1 = Ok tt.
Definition found_secret : Prop := exists key rest value,
  match cfg with Aws aws => aws_secrets aws = key :: rest | Gcp gcp => gcp_secrets gcp = key :: rest | Local => False end /\
  (rt_secret rt key (secrets_of s)).1 = Ok value.
(** The hints are asked after the check [auth] asked them. *)
Definition found_hints : Prop := exists inv h notice,
  rt_inventory rt (rt_inventory rt (hints_of s)).2 = (Ok inv, h) /\ (rt_preemption_signal rt h).1 = Ok notice.
(** The object store the last check finds is the one the object check left. *)
Definition after_objects : O :=
  let '(r, o) := rt_put_bytes rt (small_payload (object_probe draws)) (objects_of s) in
  match r with Ok id => (rt_get_bytes rt id o).2 | Err _ => o end.
Definition found_streams : Prop := exists buf o stream,
  doctor_feature = true /\
  N.of_nat (length buf) = (64 * 1024 ^ 2)%N /\ (forall i b, buf !! i = Some b -> Byte.to_N b = (N.of_nat i mod 251)%N) /\
  rt_put_stream rt (staging draws) [Ok buf] None after_objects = (Ok (blake3 buf), o) /\
  (rt_get_stream rt (blake3 buf) o).1 = Ok stream /\ stream = Ok buf.
Definition the_seven : list (string * Prop) :=
  [("reachability", found_reachable); ("auth", found_auth); ("object_store", found_objects); ("queue", found_queue);
   ("secret_store", found_secret); ("compute_hint", found_hints); ("content_id_roundtrip", found_streams)].
End findings.

(** A report of [checks], each marked as it turned out, with the two counts, and the code. *)
Definition count (b : bool) (marks : list bool) : nat := length (filter (fun m => m = b) marks).
Definition tick (m : bool) : string :=
  if m then "  " +:+ escape +:+ "[32m✓" +:+ escape +:+ "[0m " else "  " +:+ escape +:+ "[31m✗" +:+ escape +:+ "[0m ".
Definition line_of (m : bool) (check line : string) : Prop := exists rest, line = tick m +:+ (check +:+ (rest +:+ newline)).
Definition object_of (m : bool) (check : string) (v : json) : Prop := exists rest,
  v = JObject (("name", JString check) :: ("status", JString (if m then "pass" else "fail")) :: rest).
Definition shown (fmt : OutputFormat) (names : list string) (marks : list bool) (out : string) : Prop :=
  match fmt with
  | Human => exists lines total, Forall3 line_of marks names lines /\
      out = String.concat "" lines +:+ newline +:+ "  " +:+ pretty (count true marks) +:+ " pass, "
            +:+ pretty (count false marks) +:+ " fail — total " +:+ pretty (total : N) +:+ "ms" +:+ newline
  | JsonFormat => exists objs total, Forall3 object_of marks names objs /\
      out = json_text (JObject [("checks", JArray objs);
        ("summary", JObject [("pass_count", JU64 (N.of_nat (count true marks))); ("fail_count", JU64 (N.of_nat (count false marks)));
                             ("total_latency_ms", JU64 total)])]) +:+ newline
  end.
Definition reports (args : DoctorArgs) (e : Exit) (checks : list (string * Prop)) : Prop :=
  exists marks, Forall2 (fun m c => m = true <-> c.2) marks checks /\
    shown (format args) checks.*1 marks (stdout e) /\ stderr e = "" /\
    code e = if decide (count false marks = 0) then 0%N else 1%N.

Lemma is_ok_spec {E A} (r : result E A) : is_ok r = true <-> exists a, r = Ok a.
Proof. destruct r as [a|e]; split; try done; [by exists a|by intros [a [=]]]. Qed.
Lemma within_bounds_valid aws : Cloud.validate_cross_fields (Aws aws) = Ok tt <->
  within_bounds (s3_max_snapshot_part_bytes (s3 aws)) (multipart_chunk_bytes (s3 aws)).
Proof. unfold within_bounds, Cloud.validate_cross_fields, TEN_GIB, FIVE_MIB. repeat case_decide; split; try done; lia. Qed.
Lemma within_bounds_valid_gcp gcp : Cloud.validate_cross_fields (Gcp gcp) = Ok tt <->
  within_bounds (gcs_max_snapshot_part_bytes (gcs gcp)) (resumable_chunk_bytes (gcs gcp)).
Proof. unfold within_bounds, Cloud.validate_cross_fields, TEN_GIB, FIVE_MIB. repeat case_decide; split; try done; lia. Qed.

Lemma usable_spec args cfg : usable args cfg <->
  cloud_config_from_toml read_file toml (config args) = Ok cfg /\ provider_matches cfg (provider args) = true.
Proof.
  unfold usable, cloud_config_from_toml. split.
  - intros (text & -> & -> & Hp). destruct (provider args); destruct Hp as (? & -> & Hb);
      [apply within_bounds_valid in Hb as ->|apply within_bounds_valid_gcp in Hb as ->]; done.
  - intros [Hc Hm]. destruct (read_file (config args)) as [text|]; [|done]. exists text. split; [done|].
    destruct (toml text) as [c|]; [|done]. destruct (Cloud.validate_cross_fields c) as [[]|] eqn:Hv; [|done].
    injection Hc as ->. split; [done|].
    destruct cfg, (provider args); try done; eexists; (split; [done|]); by first [apply within_bounds_valid|apply within_bounds_valid_gcp].
Qed.

Section found.
Context {O Q X H : Type} (rt : CloudRuntime O Q X H) (s : Services O Q X H) (cfg : CloudConfig).
Lemma reachability_finds p : provider_matches cfg p = true ->
  is_ok (check_reachability doctor_feature server_name tcp_connect tls_connect p cfg) = true <-> found_reachable cfg.
Proof.
  intros Hp. unfold found_reachable, check_reachability, tcp_tls_probe, endpoint. destruct p, cfg; try done;
    (destruct doctor_feature; [|naive_solver]);
    (destruct (server_name _) as [[]|]; [|naive_solver]); (destruct (tcp_connect _) as [[]|]; [|naive_solver]);
    destruct (tls_connect _) as [[]|]; naive_solver.
Qed.
Lemma auth_finds : is_ok (check_auth rt (hints_of s)).1 = true <-> found_auth rt s.
Proof.
  unfold check_auth, during, map_err, mbind_, found_auth.
  destruct (rt_inventory rt (hints_of s)) as [[inv|e] h]; simpl; naive_solver.
Qed.
Lemma auth_leaves : (check_auth rt (hints_of s)).2 = (rt_inventory rt (hints_of s)).2.
Proof. unfold check_auth, during, map_err, mbind_. by destruct (rt_inventory rt (hints_of s)) as [[inv|e] h]. Qed.
Lemma objects_finds : is_ok (check_object_store rt (object_probe draws) (objects_of s)).1 = true <-> found_objects rt s.
Proof.
  unfold check_object_store, during, map_err, mbind_, found_objects, small_payload. fold (probe (object_probe draws)).
  destruct (rt_put_bytes rt _ _) as [[id|e] o]; simpl; [|naive_solver].
  destruct (rt_get_bytes rt id o) as [[got|e] o'] eqn:Hg; [|split; [done|intros (? & ? & [= <- <-] & Hr); by rewrite Hg in Hr]].
  case_decide as Hd; simpl.
  - split; [done|]. intros (? & ? & [= <- <-] & Hr). rewrite Hg in Hr. by injection Hr.
  - split; [|done]. intros _. exists id, o. split; [done|]. rewrite Hg. simpl. f_equal. by destruct (decide (got = probe (object_probe draws))).
Qed.
Lemma objects_leaves : (check_object_store rt (object_probe draws) (objects_of s)).2 = after_objects rt s.
Proof.
  unfold check_object_store, during, map_err, mbind_, after_objects, small_payload. fold (probe (object_probe draws)).
  destruct (rt_put_bytes rt _ _) as [[id|e] o]; [|done]. destruct (rt_get_bytes rt id o) as [[got|e] o']; [|done]. by case_decide.
Qed.
Lemma queue_finds : is_ok (check_queue rt (queue_probe draws) (queue_of s)).1 = true <-> found_queue rt s.
Proof.
  unfold check_queue, during, map_err, mbind_, found_queue, small_payload. fold (probe (queue_probe draws)).
  destruct (rt_enqueue rt _ _) as [[own|e] q]; simpl; [|naive_solver].
  destruct (rt_dequeue_with_lease rt 30000 q) as [[[[[id got] token]|]|e] q'] eqn:Hg; simpl;
    [|split; [done|intros (? & ? & ? & ? & ? & [= <- <-] & Hr & _); congruence]..].
  case_decide as Hd.
  - split; [done|]. intros (? & ? & ? & ? & ? & [= <- <-] & Hr & _). congruence.
  - destruct (decide (got = probe (queue_probe draws))) as [->|]; [|done]. destruct (rt_ack rt id q') as [[[]|e] q2] eqn:Ha; simpl.
    + split; [|done]. intros _. exists own, q, id, token, q'. by rewrite Ha.
    + split; [done|]. intros (? & ? & ? & ? & ? & [= <- <-] & Hr & Hk). rewrite Hg in Hr. injection Hr as <- _ <-. by rewrite Ha in Hk.
Qed.
Lemma secret_finds : is_ok (check_secret_store rt cfg (secrets_of s)).1 = true <-> found_secret rt s cfg.
Proof.
  unfold check_secret_store, during, map_err, mbind_, found_secret, first_secret.
  destruct cfg as [|aws|gcp]; [naive_solver|destruct (aws_secrets aws) as [|key l]|destruct (gcp_secrets gcp) as [|key l]];
    simpl; try naive_solver; destruct (rt_secret rt key (secrets_of s)) as [[v|e] x] eqn:Hs; simpl;
    (split; [try done|intros (? & ? & ? & [= <- <-] & Hr); rewrite Hs in Hr; done]); intros _; exists key, l, v; by rewrite Hs.
Qed.
Lemma hints_finds : is_ok (check_compute_hint rt (rt_inventory rt (hints_of s)).2).1 = true <-> found_hints rt s.
Proof.
  unfold check_compute_hint, during, map_err, mbind_, found_hints.
  destruct (rt_inventory rt (rt_inventory rt (hints_of s)).2) as [[inv|e] h]; simpl; [|naive_solver].
  destruct (rt_preemption_signal rt h) as [[n|e] h'] eqn:Hn; simpl.
  - split; [|done]. intros _. exists inv, h, n. by rewrite Hn.
  - split; [done|]. intros (? & ? & ? & [= <- <-] & Hr). by rewrite Hn in Hr.
Qed.
End found.

Lemma timed_failed n l r : failed (timed n l r) = negb (is_ok r).
Proof. by destruct r. Qed.
Lemma timed_name n l r : name (timed n l r) = n.
Proof. by destruct r. Qed.

(** The checks that are joined give what each gives on the service it found: their order
    does not matter, nor what the others did. *)
Lemma joined_checks_independent {O Q X H} (rt : CloudRuntime O Q X H) p cfg s :
  let results := (run_checks blake3 doctor_feature server_name tcp_connect tls_connect rt latency draws p cfg s).1 in
  failed <$> results !! 2 = Some (negb (is_ok (check_object_store rt (object_probe draws) (objects_of s)).1)) /\
  failed <$> results !! 3 = Some (negb (is_ok (check_queue rt (queue_probe draws) (queue_of s)).1)) /\
  failed <$> results !! 4 = Some (negb (is_ok (check_secret_store rt cfg (secrets_of s)).1)) /\
  failed <$> results !! 5 = Some (negb (is_ok (check_compute_hint rt (check_auth rt (hints_of s)).2).1)) /\
  failed <$> results !! 6 = Some (negb (is_ok (check_content_id_roundtrip blake3 doctor_feature rt (staging draws)
                                                 (check_object_store rt (object_probe draws) (objects_of s)).2).1)).
Proof.
  unfold run_checks, on_hints, on_objects, on_queue, on_secrets.
  destruct (check_auth rt (hints_of s)) as [ra h]. simpl.
  destruct (check_object_store rt (object_probe draws) (objects_of s)) as [ro o]. simpl.
  destruct (check_queue rt (queue_probe draws) (queue_of s)) as [rq q]. simpl.
  destruct (check_secret_store rt cfg (secrets_of s)) as [rx x]. simpl. destruct (check_compute_hint rt h) as [rh h2]. simpl.
  destruct (check_content_id_roundtrip blake3 doctor_feature rt (staging draws) o) as [rr o2]. simpl.
  by destruct ro, rq, rx, rh, rr.
Qed.
Section found_streams.
Context {O Q X H : Type} (rt : CloudRuntime O Q X H).
Lemma roundtrip_finds fresh buf o :
  is_ok (roundtrip blake3 rt fresh buf o).1 = true <-> exists o' stream,
    rt_put_stream rt fresh [Ok buf] None o = (Ok (blake3 buf), o') /\ (rt_get_stream rt (blake3 buf) o').1 = Ok stream /\ stream = Ok buf.
Proof.
  unfold roundtrip, during, map_err, mbind_, mlift. cbv zeta.
  destruct (rt_put_stream rt fresh [Ok buf] None o) as [[id|e] o1]; [|naive_solver].
  case_decide as Hid; [naive_solver|]. destruct (decide (id = blake3 buf)) as [->|]; [|done].
  destruct (rt_get_stream rt (blake3 buf) o1) as [[stream|e] o2] eqn:Hg.
  2:{ split; [done|]. intros (? & ? & [= <-] & Hr & _). by rewrite Hg in Hr. }
  assert ((exists o' stream', (Ok (blake3 buf) : result CoreError ContentId, o1) = (Ok (blake3 buf), o') /\
    (rt_get_stream rt (blake3 buf) o').1 = Ok stream' /\ stream' = Ok buf) <-> stream = Ok buf) as ->.
  { split; [intros (? & ? & [= <-] & Hr & ->); rewrite Hg in Hr; by injection Hr|intros ->; exists o1; eexists; by rewrite Hg]. }
  destruct stream as [got|e]; [|done]. case_decide as Hgot; [naive_solver|].
  destruct (decide (got = buf)) as [->|]; done.
Qed.
Lemma pattern_spec len i b : pattern len !! i = Some b -> Byte.to_N b = (N.of_nat i mod 251)%N.
Proof.
  unfold pattern. rewrite list_lookup_fmap. intros (j & Hj & ->)%fmap_Some. apply lookup_seq in Hj as [-> _]. simpl.
  pose proof (byte_of_mod (N.of_nat i mod 251)) as Hm. rewrite N.mod_small in Hm; [exact Hm|].
  pose proof (N.mod_lt (N.of_nat i) 251 ltac:(done)). lia.
Qed.
Lemma pattern_only buf : (forall i b, buf !! i = Some b -> Byte.to_N b = (N.of_nat i mod 251)%N) -> buf = pattern (length buf).
Proof.
  intros Hb. eapply list_eq_same_length; [apply pattern_length|done|]. intros i x y _ Hx Hy.
  apply Hb in Hx. apply pattern_spec in Hy. rewrite <-Hy in Hx. apply (f_equal Byte.of_N) in Hx.
  rewrite !Byte.of_to_N in Hx. by injection Hx.
Qed.
Lemma streams_finds (s : Services O Q X H) :
  is_ok (check_content_id_roundtrip blake3 doctor_feature rt (staging draws) (after_objects rt s)).1 = true <-> found_streams rt s.
Proof.
  unfold check_content_id_roundtrip, found_streams. destruct doctor_feature; [|naive_solver]. rewrite roundtrip_finds. split.
  - intros (o & stream & Hr). exists (pattern probe_len), o, stream. split; [done|]. split; [|split; [apply pattern_spec|done]].
    rewrite pattern_length. unfold probe_len. rewrite N2Nat.id. reflexivity.
  - intros (buf & o & stream & _ & Hl & Hb & Hr). exists o, stream.
    assert (length buf = probe_len) as Hlen by (unfold probe_len; rewrite <-(Nat2N.id (length buf)), Hl; reflexivity).
    apply pattern_only in Hb. rewrite Hlen in Hb. by rewrite <-Hb.
Qed.
End found_streams.

Ltac on_services := cbn [fst snd objects_of queue_of secrets_of hints_of] in *.
Lemma checks_find {O Q X H} (rt : CloudRuntime O Q X H) p cfg s : provider_matches cfg p = true ->
  Forall2 (fun c found => name c = found.1 /\ (failed c = false <-> found.2))
    (run_checks blake3 doctor_feature server_name tcp_connect tls_connect rt latency draws p cfg s).1 (the_seven rt s cfg).
Proof.
  intros Hp.
  assert (forall n l r (P : Prop), (is_ok r = true <-> P) -> name (timed n l r) = n /\ (failed (timed n l r) = false <-> P)) as Htimed.
  { intros n l r P HP. rewrite timed_name, timed_failed, <-HP. by destruct (is_ok r). }
  pose proof (auth_finds rt s) as Ha. pose proof (auth_leaves rt s) as Hal. pose proof (objects_finds rt s) as Ho.
  pose proof (objects_leaves rt s) as Hol. pose proof (queue_finds rt s) as Hq. pose proof (secret_finds rt s cfg) as Hs.
  pose proof (hints_finds rt s) as Hh. pose proof (streams_finds rt s) as Hst.
  unfold run_checks, on_hints, on_objects, on_queue, on_secrets, the_seven.
  destruct (check_auth rt (hints_of s)) as [ra h]. on_services. destruct (check_object_store rt _ _) as [ro o]. on_services.
  destruct (check_queue rt _ _) as [rq q]. on_services. destruct (check_secret_store rt cfg _) as [rx x]. on_services.
  subst h o. destruct (check_compute_hint rt _) as [rh h2]. on_services.
  destruct (check_content_id_roundtrip blake3 doctor_feature rt _ _) as [rr o2]. on_services.
  repeat apply Forall2_cons_2; try apply Forall2_nil_2; apply Htimed; try done. by apply reachability_finds.
Qed.

(** *** The report *)
Definition marks_of (results : list CheckResult) : list bool := (fun c => negb (failed c)) <$> results.
Lemma count_true results : count true (marks_of results) = passes results.
Proof.
  unfold count, passes, marks_of. induction results as [|c l IH]; [done|]. rewrite fmap_cons, !filter_cons.
  destruct (failed c); simpl; by rewrite IH.
Qed.
Lemma count_both results : count true (marks_of results) + count false (marks_of results) = length results.
Proof.
  unfold count, marks_of. induction results as [|c l IH]; [done|]. rewrite fmap_cons, !filter_cons.
  destruct (failed c); simpl in *; lia.
Qed.
Lemma count_failures results : existsb failed results = negb (bool_decide (count false (marks_of results) = 0)).
Proof.
  unfold count, marks_of. induction results as [|c l IH]; [done|]. rewrite fmap_cons, filter_cons. simpl.
  destruct (failed c); simpl; [done|exact IH].
Qed.

Lemma string_app_assoc (a b c : string) : a +:+ (b +:+ c) = (a +:+ b) +:+ c.
Proof. induction a as [|x a IH]; [done|]. exact (f_equal (String x) IH). Qed.
Lemma human_line_shows c : line_of (negb (failed c)) (name c) (human_line c).
Proof.
  exists (spaces (30 - String.length (name c)) +:+ " " +:+ pad_left 7 (pretty (latency_ms c)) +:+ "ms"
    +:+ match error c with Some e => "  " +:+ escape +:+ "[31m" +:+ e +:+ escape +:+ "[0m" | None => "" end).
  unfold human_line, tick, pad_right. destruct (failed c); cbn [negb]; rewrite !string_app_assoc; reflexivity.
Qed.
Lemma check_json_shows c : object_of (negb (failed c)) (name c) (check_json c).
Proof. eexists. unfold check_json. by destruct (failed c). Qed.

Lemma rendered fmt results :
  shown fmt (name <$> results) (marks_of results) (match fmt with Human => human_render results | JsonFormat => json_render results +:+ newline end).
Proof.
  pose proof (count_true results) as Ht. pose proof (count_both results) as Hb.
  destruct fmt; simpl.
  - exists (human_line <$> results), (total_latency results). split.
    + induction results as [|c l IH]; [constructor|]. simpl. constructor; [apply human_line_shows|]. apply IH; [apply count_true|apply count_both].
    + unfold human_render. rewrite Ht. by replace (length results - passes results) with (count false (marks_of results)) by lia.
  - exists (check_json <$> results), (total_latency results). split.
    + induction results as [|c l IH]; [constructor|]. simpl. constructor; [apply check_json_shows|]. apply IH; [apply count_true|apply count_both].
    + unfold json_render, json_report. rewrite Ht. by replace (length results - passes results) with (count false (marks_of results)) by lia.
Qed.

Lemma doctor_reports args cfg checks : usable args cfg ->
  Forall2 (fun c found => name c = found.1 /\ (failed c = false <-> found.2)) (checks_of cfg (provider args)) checks ->
  reports args (doctor args) checks.
Proof.
  intros [Hc Hp]%usable_spec Hf. exists (marks_of (checks_of cfg (provider args))). unfold doctor_run. rewrite Hc, Hp. simpl.
  set (results := checks_of cfg (provider args)) in *.
  split; [|split; [|split; [done|]]].
  - unfold marks_of. apply Forall2_fmap_l. eapply Forall2_impl; [exact Hf|]. intros c [n P] [_ Hiff]. simpl in *. rewrite <-Hiff. by destruct (failed c).
  - replace checks.*1 with (name <$> results); [apply rendered|].
    apply list_eq_Forall2, Forall2_fmap. eapply Forall2_impl; [exact Hf|]. by intros c found [Hn _].
  - rewrite count_failures. case_bool_decide; by case_decide.
Qed.

Lemma reports_pass args e checks : reports args e checks -> Forall (fun c => c.2) checks -> code e = 0%N.
Proof.
  intros (marks & Hm & _ & _ & ->) Hall. rewrite decide_True; [done|]. clear args e. unfold count.
  induction Hm as [|m [n P] marks checks Hi _ IH]; [done|]. apply Forall_cons in Hall as [HP Hall]. simpl in *.
  rewrite (proj2 Hi HP). by apply IH.
Qed.
Lemma reports_fail args e checks : reports args e checks -> Exists (fun c => ~ c.2) checks -> code e = 1%N.
Proof.
  intros (marks & Hm & _ & _ & ->) Hbad. rewrite decide_False; [done|]. clear args e. unfold count.
  induction Hm as [|m [n P] marks checks Hi _ IH]; [by apply Exists_nil in Hbad|].
  apply Exists_cons in Hbad. simpl in *. rewrite filter_cons. destruct m; simpl; [|done].
  destruct Hbad as [HP|Hbad]; [by destruct HP, Hi; auto|by apply IH].
Qed.

(** C40: The doctor's exit code is 2, with nothing on the standard output, exactly when the
    configuration cannot be read, parsed or validated (the bounds of the upload sizes) or
    is not the provider's the operator named.  Otherwise it is 0 when each of the seven
    checks found what it has to find in the services' answers to its calls (the handshake
    made, the inventory read, its own payload read back, its own message received and
    acknowledged, the first allowed secret read, the notice asked for, 64 MiB of the pattern
    streamed in under its hash and read back), and 1 when one did not; a runtime that cannot
    be built is one failure, of the check [auth].  In both formats the report names the
    checks in order, each marked as it turned out, and counts both outcomes. *)
Theorem doctor_exit_code args :
  ((forall cfg, ~ usable args cfg) -> code (doctor args) = 2%N /\ stdout (doctor args) = "") /\
  (forall cfg, usable args cfg ->
     (forall b, runtime_built cfg b -> reports args (doctor args) (the_seven (b_runtime b) (b_services b) cfg)) /\
     ((forall b, ~ runtime_built cfg b) -> reports args (doctor args) [("auth", False)])).
Proof.
  split.
  - intros Hno. unfold doctor_run. destruct (cloud_config_from_toml read_file toml (config args)) as [cfg|e] eqn:Hc; [|done].
    destruct (provider_matches cfg (provider args)) eqn:Hp; [|done]. destruct (Hno cfg). by apply usable_spec.
  - intros cfg Hu. pose proof Hu as [_ Hp]%usable_spec.
    assert (forall b, build_cloud_runtime aws_feature gcp_feature build_local build_aws build_gcp cfg = Ok b <-> runtime_built cfg b) as Hb.
    { intros b. unfold build_cloud_runtime, runtime_built. destruct cfg; [by destruct (provider args)|destruct aws_feature|destruct gcp_feature]; naive_solver. }
    split; [intros b Hr|intros Hno]; apply (doctor_reports _ _ _ Hu); unfold run_all_checks.
    + apply Hb in Hr as ->. by apply checks_find.
    + destruct (build_cloud_runtime _ _ _ _ _ cfg) as [b|e]; [by destruct (Hno b); apply Hb|].
      constructor; [|constructor]. split; [done|]. simpl. naive_solver.
Qed.
End exit_code.

(** ** The probes on AWS *)
Section aws_probes.
Context {UT : UlidText} (blake3 : bytes -> bytes) (base64_encode : bytes -> string) (base64_decode : string -> result string bytes).
Context {C : Type} {B : Bucket C AwsError.SdkError} {BL : BucketLaws C AwsError.SdkError} {SC : S3 C} {SL : S3Laws C}.
Context {QC : Type} {QB : Broker QC AwsError.SdkError string} {QBL : BrokerLaws QC AwsError.SdkError string} {Q : Sqs QC} {QL : SqsLaws QC}.
Context {XC HC : Type} (get_secret_value : string -> M XC AwsError.SdkError (option string)).
Context (local_inventory : M HC CoreError ComputeInventory) (imds_get : string -> M HC string string).
Context (cfg : AwsConfig).
Abbreviation runtime := (build_aws_runtime blake3 base64_encode base64_decode get_secret_value local_inventory imds_get cfg).
Abbreviation waiting q := (messages (Er := AwsError.SdkError) (CloudQueues.client q)).

(** C39: The queue check on SQS never loses another's work: whatever the service answers, a
    message that was waiting is still there after the check, unless its payload is the
    check's own probe.  But the check takes whatever message comes first: on a queue in use
    it fails, and its probe is left on the queue for a worker to receive. *)
Theorem queue_check_loses_no_work u q : tabled blake3 (fun h : string => h) q ->
  wp (check_queue runtime u) (fun r q' =>
    (forall mid b, waiting q !! mid = Some b -> waiting q' !! mid = Some b \/ base64_decode b = Ok (probe u)) /\
    (r = Err "queue roundtrip mismatch" -> exists mid, waiting q' !! mid = Some (base64_encode (probe u)))) q.
Proof.
  intros Ht. unfold check_queue, build_aws_runtime. cbn [rt_enqueue rt_dequeue_with_lease rt_ack].
  apply wp_bind, wp_during. eapply wp_mono; [by apply (sqs_enqueue_spec blake3 base64_encode)|].
  intros [id|e] q1 ([Ht1 Hk1] & _ & Henq).
  2:{ split; [intros mid b Hb; left; by destruct (Hk1 mid b Hb)|done]. }
  apply wp_bind, wp_during. unfold sqs_dequeue_with_lease.
  eapply wp_mono; [by apply (dequeue_internal_spec blake3 base64_decode)|]. intros r q2 [[Ht2 Hk2] Hr].
  assert (forall mid b, waiting q !! mid = Some b -> waiting q2 !! mid = Some b) as Hkept.
  { intros mid b Hb. destruct (Hk1 mid b Hb) as [Hb1|]; [|done]. by destruct (Hk2 mid b Hb1). }
  assert (exists mid, waiting q2 !! mid = Some (base64_encode (probe u))) as Hprobe.
  { destruct Henq as (mid & _ & Hm). exists mid. by destruct (Hk2 mid _ Hm). }
  destruct r as [[[[id' got] token]|]|e]; [|split; [by left; auto|done]|split; [intros mid b Hb; left; auto|done]].
  case_decide as Hgot; [apply wp_throw; split; [intros mid b Hb; left; auto|done]|].
  destruct (decide (got = probe u)) as [->|]; [|done]. destruct Hr as (mid & receipt & b & -> & _ & Hin & Hrec & Hb & Hd).
  apply wp_during. unfold sqs_ack. apply wp_bind. unfold wp at 1, take_inflight, with_inflight. simpl.
  rewrite Hin, lookup_insert_eq. apply wp_call. eapply wp_mono; [apply acknowledge_law|]. simpl.
  intros r c' [_ Hm]. split; [|by destruct r]. intros mid' b' Hb'. apply Hkept in Hb'.
  destruct Hm as [-> | (mid2 & Hmid2 & ->)]; [by left|]. rewrite Hrec in Hmid2. injection Hmid2 as <-.
  destruct (decide (mid' = mid)) as [->|Hne]; [right|left; by rewrite lookup_delete_ne].
  rewrite Hb in Hb'. by injection Hb' as <-.
Qed.

(** The check [auth] on AWS: neither the build of the runtime nor the inventory it asks for
    needs credentials, so it passes whenever the machine can be described, whatever the
    metadata service answers. *)
Lemma aws_auth_needs_no_credentials h :
  (forall h', is_ok (local_inventory h').1 = true) -> is_ok (check_auth runtime h).1 = true.
Proof.
  intros Hl. change (wp (check_auth runtime) (fun r _ => is_ok r = true) h).
  unfold check_auth, build_aws_runtime, ec2_inventory. cbn [rt_inventory].
  apply wp_bind, wp_during, wp_bind. unfold wp at 1, mcatch. destruct (map_err _ _ h) as [t h1]. simpl.
  apply wp_bind. unfold wp at 1. specialize (Hl h1). by destruct (local_inventory h1) as [[inv|e] h2].
Qed.
End aws_probes.

(** ** The probes on GCP *)
Section gcp_probes.
Context {UT : UlidText} (blake3 : bytes -> bytes) (base64_decode : string -> result string bytes).
Context {C : Type} {B : Bucket C GcsError} {BL : BucketLaws C GcsError} {G : Gcs C} {GL : GcsLaws C}.
Context {QC : Type} {QB : Broker QC string bytes} {P : PubSub QC}.
Context {XC HC : Type} (env : string -> option string) (http_get : string -> option string -> M XC string Reply).
Context (local_inventory : M HC CoreError ComputeInventory) (mds_get : string -> M HC string Reply) (host : string).
Context (load_gcs_client : result CoreError unit) (pubsub_auth pubsub_client : result string unit).
Context (adc_provider : M XC string unit) (adc_token : M XC string string).
Context (doctor_feature : bool) (server_name tcp_connect tls_connect : string -> result string unit) (latency : string -> N).
Abbreviation built cfg := (build_gcp_runtime (G := G) (P := P) blake3 base64_decode env http_get local_inventory mds_get host
  load_gcs_client pubsub_auth pubsub_client adc_provider adc_token cfg).

Lemma built_puts cfg x rt x' : built cfg x = (Ok rt, x') -> rt_put_stream rt = Gcs.put_stream blake3 (gcs_of cfg).
Proof.
  intros Hb. assert (wp (built cfg) (fun r _ => match r with Ok rt => rt_put_stream rt = Gcs.put_stream blake3 (gcs_of cfg) | Err _ => True end) x) as Hw.
  { unfold build_gcp_runtime.
    apply wp_bind, wp_lift. destruct (match env "STORAGE_EMULATOR_HOST" with Some _ => Ok tt | None => load_gcs_client end) as [[]|e]; [|done].
    apply wp_bind, wp_lift. destruct (pubsub_init _ _ _) as [[]|e]; [|done]. apply wp_bind.
    unfold wp at 1. by destruct (gcp_secret_store _ _ _ _ _ _ x) as [[secret|e] x2]. }
  exact (wp_elim _ _ _ _ _ Hw Hb).
Qed.

(** The doctor never passes on GCS with a chunk size that divides 64 MiB, the default of
    16 MiB among them: its last check streams exactly 64 MiB, the upload of a whole number of
    chunks ends with a range of no bytes, and a service that refuses such a range fails the
    check, so the exit code is 1 however healthy the deployment is. *)
Theorem gcp_doctor_never_passes cfg rt x x' d p ccfg s :
  built cfg x = (Ok rt, x') ->
  (64 * 1024 * 1024 mod Gcs.chunk_size (gcs_of cfg) = 0)%N ->
  (forall u path got b sz c, sessions c u = Some (path, got) -> ~ range_valid got b sz ->
     (upload_multiple_chunk u b sz c).1 <> Ok Finalized) ->
  existsb failed (run_checks blake3 doctor_feature server_name tcp_connect tls_connect rt latency d p ccfg s).1 = true.
Proof.
  intros Hb Hdiv Hstrict.
  pose proof (joined_checks_independent blake3 doctor_feature server_name tcp_connect tls_connect latency d rt p ccfg s) as (_ & _ & _ & _ & H6).
  set (results := (run_checks _ _ _ _ _ rt latency d p ccfg s).1) in *.
  set (o := (check_object_store rt (object_probe d) (objects_of s)).2) in *.
  assert (is_ok (check_content_id_roundtrip blake3 doctor_feature rt (staging d) o).1 = false) as Hno.
  { unfold check_content_id_roundtrip. destruct doctor_feature; [|done]. unfold roundtrip, during, mbind_, map_err.
    assert (is_ok (rt_put_stream rt (staging d) [Ok (pattern probe_len)] None o).1 = false) as Hput.
    { rewrite (built_puts cfg x rt x' Hb). apply gcs_exact_multiple_fails; [exact Hstrict|].
      rewrite stream_of_one, pattern_length. unfold probe_len. by rewrite N2Nat.id. }
    destruct (rt_put_stream rt (staging d) [Ok (pattern probe_len)] None o) as [[id|e] o']; [done|done]. }
  rewrite Hno in H6. simpl in H6. destruct (results !! 6) as [c|] eqn:Hc; [|done]. simpl in H6. injection H6 as H6.
  apply existsb_exists. exists c. split; [|done]. apply list_elem_of_In. by apply list_elem_of_lookup_2 in Hc.
Qed.
End gcp_probes.

Section aws_streams.
Context {UT : UlidText} (blake3 : bytes -> bytes) (base64_encode : bytes -> string) (base64_decode : string -> result string bytes).
Context {C : Type} {B : Bucket C AwsError.SdkError} {BL : BucketLaws C AwsError.SdkError} {SC : S3 C} {SL : S3Laws C}.
Context {QC : Type} {QB : Broker QC AwsError.SdkError string} {Q : Sqs QC}.
Context {XC HC : Type} (get_secret_value : string -> M XC AwsError.SdkError (option string)).
Context (local_inventory : M HC CoreError ComputeInventory) (imds_get : string -> M HC string string).
Context (cfg : AwsConfig).
Abbreviation runtime := (build_aws_runtime (SC := SC) (Q := Q) blake3 base64_encode base64_decode get_secret_value local_inventory imds_get cfg).

(** The streaming check on S3: over a bucket that serves, the put succeeds and answers
    the hash of the very bytes, so the check never reports a mismatch; it passes or it is
    the read back that fails.  Either way the bytes stay in the bucket under their hash, and
    nothing else of the bucket changes but the staging object, which is gone when the put
    has returned. *)
Theorem streaming_check_on_s3 staging buf w :
  S3.serving (S3.client w) -> (N.of_nat (length buf) <= MAX_COPY)%N ->
  wp (roundtrip blake3 runtime staging buf) (fun r w' =>
    let kept := S3.object_path (s3_of cfg) (blake3 buf) in
    objects (S3.client w') kept = Some buf /\
    (forall p, p <> kept -> p <> at_ (s3_bucket (s3 cfg)) (temp_key_for (default "" (s3_prefix (s3 cfg))) staging) ->
       objects (S3.client w') p = objects (S3.client w) p) /\
    match r with
    | Ok _ => True
    | Err e => exists e', e = "get_stream: " +:+ e' \/ e = "get_stream read: " +:+ e'
    end) w.
Proof.
  intros Hs Hl. unfold roundtrip, build_aws_runtime. cbn [rt_put_stream rt_get_stream].
  apply wp_bind, wp_during. eapply wp_mono; [by apply (s3_put_stream_done blake3 (s3_of cfg))|].
  rewrite stream_of_one. intros r w1 (Hk & _ & _ & _ & Hr & Hok).
  assert (stream_error [Ok buf] = None) as He by (by destruct buf).
  specialize (Hok Hs He Hl). destruct r as [id|e]; [|done]. destruct Hr as (-> & _ & Hobj & _).
  case_decide as Hid; [done|]. apply wp_bind, wp_during. unfold S3.get_stream.
  apply S3.wp_send. eapply wp_mono; [apply s3_get_law|].
  intros r c2 [Hsame Hr]. red in Hsame.
  assert (forall p, objects (S3.client (S3.set_client c2 w1)) p = objects (S3.client w1) p) as Hobj2 by (intros p; simpl; by rewrite Hsame).
  assert (objects (S3.client (S3.set_client c2 w1)) (S3.object_path (s3_of cfg) (blake3 buf)) = Some buf) as Hkept by by rewrite Hobj2.
  assert (forall p, p <> S3.object_path (s3_of cfg) (blake3 buf) ->
    p <> at_ (s3_bucket (s3 cfg)) (temp_key_for (default "" (s3_prefix (s3 cfg))) staging) ->
    objects (S3.client (S3.set_client c2 w1)) p = objects (S3.client w) p) as Hrest by (intros p H1 H2; rewrite Hobj2; by apply Hk).
  destruct r as [[got|e]|e]; simpl.
  - rewrite Hobj in Hr. injection Hr as <-. apply wp_bind, wp_map_err, wp_lift. by case_decide.
  - split; [done|]. split; [done|]. eexists. by right.
  - split; [done|]. split; [done|]. eexists. by left.
Qed.
End aws_streams.

(** ** Examples *)
Section doctor_examples.
#[local] Existing Instance unary_ulids.
Definition b64 : bytes -> string := String.string_of_list_byte.
Definition un64 (s : string) : result string bytes := Ok (bytes_of s).
Definition plain_inventory {W} : M W CoreError ComputeInventory := mret (mkInventory 1 1 [] None).
Definition aws_ex : AwsConfig :=
  mkAws "us-west-2" (mkS3Config "b" None default_multipart_chunk default_max_snapshot_part) (mkSqsConfig "q" 300) ["hf_token"].
Definition gcp_ex : GcpConfig :=
  mkGcp "p" (mkGcsConfig "b" None default_multipart_chunk default_max_snapshot_part) (mkPubSubConfig "sub" "topic" 30) ["hf_token"].
Definition aws_rt := build_aws_runtime (C := S3.Mem) (QC := MemBroker string) (XC := unit) (HC := unit) (fun b => take 32 b) b64 un64
  (fun _ => mret (Some "s")) plain_inventory (fun _ => mthrow "no IMDS") aws_ex.

(** A queue in use, with a work message that comes before the probe. *)
Definition busy_queue : CloudQueue (MemBroker string) string := mkCloudQueue (mkMemBroker {[ "w" := "work" ]} {[ "w" := "w" ]}) ∅.
Lemma queue_check_loses_no_work_witness :
  wp (check_queue aws_rt 3) (fun _ q' => messages (Er := AwsError.SdkError) (CloudQueues.client q') !! "w" = Some "work") busy_queue.
Proof.
  eapply wp_mono.
  - apply (queue_check_loses_no_work (C := S3.Mem) (XC := unit) (HC := unit) (fun b => take 32 b) b64 un64 (fun _ => mret (Some "s")) plain_inventory
             (fun _ => mthrow "no IMDS") aws_ex 3 busy_queue).
    intros id t Hi. simpl in Hi. rewrite lookup_empty in Hi. discriminate Hi.
  - intros r q' [H _]. destruct (H "w" "work" eq_refl) as [Hw|Hw]; [exact Hw|]. vm_compute in Hw. discriminate Hw.
Defined.

(** The round trip of a short buffer: it passes, and its object stays. *)
Definition empty_bucket : S3.World (C := S3.Mem) := S3.mkWorld (S3.mkMem ∅ ∅) true [].
Lemma streaming_check_on_s3_witness :
  wp (roundtrip (fun b => take 32 b) aws_rt "f" [x61; x62])
     (fun _ w' => objects (S3.client w') (S3.object_path (s3_of aws_ex) [x61; x62]) = Some [x61; x62]) empty_bucket.
Proof.
  eapply wp_mono.
  - apply (streaming_check_on_s3 (C := S3.Mem) (QC := MemBroker string) (XC := unit) (HC := unit) (fun b => take 32 b) b64 un64 (fun _ => mret (Some "s")) plain_inventory
             (fun _ => mthrow "no IMDS") aws_ex "f" [x61; x62] empty_bucket); [exact I|vm_compute; discriminate].
  - intros r w' [H _]. exact H.
Defined.

Abbreviation gcp_ex_rt cfg := (build_gcp_runtime (C := Gcs.Mem) (QC := MemBroker bytes) (XC := unit) (HC := unit) (fun b => take 32 b) un64
  (fun _ => None) (fun _ _ => mthrow "down") plain_inventory (fun _ => mthrow "no MDS") "metadata" (Ok tt) (Ok tt) (Ok tt) (mret tt) (mret "Bearer t") cfg).
Lemma gcp_doctor_never_passes_witness :
  exists rt, gcp_ex_rt gcp_ex tt = (Ok rt, tt) /\
  existsb failed (run_checks (fun b => take 32 b) true (fun _ => Ok tt) (fun _ => Ok tt) (fun _ => Ok tt) rt (fun _ => 1%N) (mkDraws 1 2 "f")
    GcpProvider (Gcp gcp_ex) (mkServices (Gcs.mkMem ∅ ∅) (mkCloudQueue (mkMemBroker ∅ ∅) ∅) tt tt)).1 = true.
Proof.
  assert (exists rt, gcp_ex_rt gcp_ex tt = (Ok rt, tt)) as [rt Hrt] by (eexists; reflexivity). exists rt. split; [exact Hrt|].
  eapply (gcp_doctor_never_passes (C := Gcs.Mem) (QC := MemBroker bytes) (XC := unit) (HC := unit) (fun b => take 32 b) un64); [exact Hrt|vm_compute; reflexivity|].
  intros u path got b sz c Hu Hv. simpl in *. rewrite Hu. rewrite decide_False by exact Hv. simpl. intros Heq. discriminate Heq.
Defined.

(** A deployment that serves: it passes with code 0 under its own provider's name and is
    refused with code 2 under the other's; without the provider's feature the code is 1. *)
Definition echo : CloudRuntime bytes bytes unit unit :=
  mkRuntime _ _ _ _ (fun b _ => (Ok (take 4 b), b)) (fun _ o => (Ok o, o))
    (fun _ rs _ _ => (Ok (take 4 (stream_bytes rs)), stream_bytes rs)) (fun _ o => (Ok (Ok o), o))
    (fun b _ => (Ok 1%N, b)) (fun _ q => (Ok (Some (1%N, q, [])), q)) (fun _ => mret tt)
    (fun _ => mret "s") plain_inventory (mret None).
Definition echo_built : Built := mkBuilt _ _ _ _ echo (mkServices [] [] tt tt).
Definition healthy (aws_feature : bool) (p : ProviderArg) : Exit :=
  doctor_run (JT := {| json_text _ := ""; json_of_text _ := None |}) (fun b => take 4 b) true aws_feature false
    (fun _ => Ok tt) (fun _ => Ok tt) (fun _ => Ok tt) (fun _ => 1%N) (mkDraws 1 2 "f")
    (Err (internal "unused")) (fun _ => Ok echo_built) (fun _ => Err (internal "unused"))
    (fun _ => Ok "toml") (fun _ => Ok (Aws aws_ex)) (mkDoctorArgs p "c.toml" Human).
Lemma echo_streams buf (o : bytes) :
  rt_put_stream echo "f" [Ok buf] None o = (Ok (take 4 buf), buf) /\ (rt_get_stream echo (take 4 buf) buf).1 = Ok (Ok buf).
Proof. split; [|done]. unfold echo. cbn [rt_put_stream]. by rewrite stream_of_one. Qed.

Lemma doctor_exit_code_witness :
  code (healthy true AwsProvider) = 0%N /\ code (healthy true GcpProvider) = 2%N /\ code (healthy false AwsProvider) = 1%N.
Proof.
  pose proof (fun feature p => doctor_exit_code (JT := {| json_text _ := ""; json_of_text _ := None |}) (fun b => take 4 b) true feature false
    (fun _ => Ok tt) (fun _ => Ok tt) (fun _ => Ok tt) (fun _ => 1%N) (mkDraws 1 2 "f")
    (Err (internal "unused")) (fun _ => Ok echo_built) (fun _ => Err (internal "unused"))
    (fun _ => Ok "toml") (fun _ => Ok (Aws aws_ex)) (mkDoctorArgs p "c.toml" Human)) as exits.
  split; [|split].
  - destruct (exits true AwsProvider) as [_ Hok]. edestruct (Hok (Aws aws_ex)) as [Hr _].
    + exists "toml". split; [done|]. split; [done|]. exists aws_ex. split; [done|]. vm_compute. split; discriminate.
    + apply (reports_pass _ _ _ (Hr echo_built (conj eq_refl eq_refl))).
      repeat apply Forall_cons_2; try apply Forall_nil_2; cbn [snd].
      * done.
      * by eexists.
      * by do 2 eexists.
      * by do 5 eexists.
      * by do 3 eexists.
      * by do 3 eexists.
      * exists (pattern probe_len), (pattern probe_len), (Ok (pattern probe_len)).
        pose proof (echo_streams (pattern probe_len) (small_payload 1)) as [Hp Hg].
        split; [done|]. split; [rewrite pattern_length; unfold probe_len; rewrite N2Nat.id; reflexivity|].
        split; [apply pattern_spec|]. split; [exact Hp|]. split; [exact Hg|done].
  - apply (exits true GcpProvider). intros cfg (text & _ & [= <-] & gcp & [=] & _).
  - destruct (exits false AwsProvider) as [_ Hok]. edestruct (Hok (Aws aws_ex)) as [_ Hr].
    + exists "toml". split; [done|]. split; [done|]. exists aws_ex. split; [done|]. vm_compute. split; discriminate.
    + apply (reports_fail _ _ _ (Hr ltac:(intros b [[=] _]))). apply Exists_cons_hd. by intros [].
Defined.
End doctor_examples.
