(* ===== verification/Transport.v ===== *)
(** The transport between workers and the coordinator
    (rollout-transport/src/channels/{heartbeat,control,work}.rs and tls.rs): the
    heartbeat handler that turns a request of the wire into a call of the
    coordinator, the routing of pushes to subscribed workers, the work stub and the
    development certificates.  Tonic, prost, tokio's channels and rcgen are third-party: a
    call is a function of its request, the bounded channels are a class with the laws
    of their documentation. *)
From stdpp Require Import base option list gmap strings pretty.
From S2P Require Import Prelude.
From S2P Require Import Text.
From S2P Require Import Core.
From S2P Require Import Storage.
From S2P Require Import Events.
From S2P Require Import ObjectStore.
From S2P Require Import Workers.

(** ** Times on the wire: a prost [Timestamp] is an [i64] and an [i32] *)
Record Timestamp : Type := mkTimestamp { seconds : Z; nanos : Z }.

Definition NS : Z := 1000000000.

(** [Duration::new] carries the nanoseconds; adding to the epoch panics when the
    seconds do not fit the [i64] of a [SystemTime]. *)
Definition prost_to_system (t : Timestamp) : outcome SystemTime :=
  let secs := Z.max (seconds t) 0 in
  let nanos := Z.max (nanos t) 0 in
  let d := (secs * NS + nanos)%Z in
  if decide (2 ^ 63 <= d / NS)%Z then Panic "overflow when adding duration to instant"
  else Value d.

Definition system_to_prost (t : SystemTime) : Timestamp :=
  let d := Z.max t 0 in
  let secs := (d / NS)%Z in
  mkTimestamp (if decide (secs < 2 ^ 63)%Z then secs else (2 ^ 63 - 1)%Z) (d mod NS)%Z.

(** A [SystemTime] has an [i64] of seconds. *)
Definition in_systime (t : SystemTime) : Prop := (- 2 ^ 63 <= t / NS < 2 ^ 63)%Z.

Lemma seconds_fit t : (t / NS < 2 ^ 63 -> Z.max t 0 / NS < 2 ^ 63)%Z.
Proof. unfold NS. intros Ht. destruct (Z.max_spec t 0) as [[_ ->] | [_ ->]]; [reflexivity|exact Ht]. Qed.

(** A deadline survives the wire to the nanosecond; one before 1970 arrives as 1970. *)
Lemma systime_round_trip t : in_systime t -> prost_to_system (system_to_prost t) = Value (Z.max t 0).
Proof.
  intros [_ Ht%seconds_fit]. unfold system_to_prost, prost_to_system. rewrite (decide_True _ _ Ht). cbn [seconds nanos].
  pose proof (Z.div_mod (Z.max t 0) NS ltac:(done)) as Hdm.
  pose proof (Z.mod_pos_bound (Z.max t 0) NS ltac:(done)) as Hm.
  pose proof (Z.div_pos (Z.max t 0) NS ltac:(lia) ltac:(done)) as Hp.
  rewrite (Z.max_l (Z.max t 0 / NS) 0), (Z.max_l (Z.max t 0 mod NS) 0) by lia.
  rewrite Z.mul_comm, <- Hdm. by rewrite decide_False by lia.
Qed.

(** The other way round: a timestamp as the protocol wants it comes back as it was. *)
Lemma timestamp_round_trip ts t : (0 <= seconds ts)%Z -> (0 <= nanos ts < NS)%Z ->
  prost_to_system ts = Value t -> system_to_prost t = ts.
Proof.
  intros Hs Hn. unfold prost_to_system. rewrite (Z.max_l (seconds ts)), (Z.max_l (nanos ts)) by lia.
  case_decide as Hd; [done|]. intros [= <-]. unfold system_to_prost.
  rewrite Z.max_l by (unfold NS in *; lia).
  rewrite Z.div_add_l, (Z.div_small (nanos ts)), Z.add_0_r in * by done.
  rewrite decide_True by lia. rewrite Z.add_comm, Z_mod_plus_full, Z.mod_small by done. by destruct ts.
Qed.

Lemma prost_in_systime ts t : prost_to_system ts = Value t -> (0 <= t)%Z /\ in_systime t.
Proof.
  unfold prost_to_system. case_decide as Hd; [done|]. intros [= <-].
  assert (0 <= Z.max (seconds ts) 0 * NS + Z.max (nanos ts) 0)%Z by (unfold NS; lia).
  split; [done|]. split; [|lia]. pose proof (Z.div_pos _ NS ltac:(eassumption) ltac:(done)). lia.
Qed.

(** ** channels/heartbeat.rs *)
(** The protocol's numbering of the states: zero is unspecified. *)
Definition proto_to_state (s : Z) : WorkerState :=
  if decide (s = 2)%Z then Ready
  else if decide (s = 3)%Z then Running
  else if decide (s = 4)%Z then Draining
  else Init.

Lemma state_round_trip s : proto_to_state (state_to_i32 s) = s.
Proof. by destruct s. Qed.

Record BeatRequest : Type := mkBeatRequest {
  br_worker : string; br_due : option Timestamp; br_state : Z; br_run : string;
}.

(** The messages the coordinator can push. *)
Inductive ControlPush : Type :=
| PushDrain (deadline : option Duration)
| PushSnapshot (snapshot_kind : string)
| PushCancel (reason : string)
| PushNothing.

Record BeatResponse : Type := mkBeatResponse {
  acknowledged_at_drift : option Duration; pending_control : option ControlPush;
}.

Inductive Status : Type := InvalidArgument (msg : string) | StatusInternal (msg : string).
(** How a call fails: with a status, or its task panics. *)
Inductive rpc_error : Type := Rejected (s : Status) | TaskPanic (msg : string).

(** [{e:?}] of the errors (the derived [Debug]). *)
Definition recoverable_debug (e : RecoverableError) : string :=
  match e with
  | Throttled h => "Throttled { hint: " +:+ hint_debug h +:+ " }"
  | Transient m h => "Transient { msg: " +:+ str_debug m +:+ ", hint: " +:+ hint_debug h +:+ " }"
  | Preempted h => "Preempted { hint: " +:+ hint_debug h +:+ " }"
  end.
Definition fatal_debug (e : FatalError) : string :=
  match e with
  | ConfigInvalid m => "ConfigInvalid { msg: " +:+ str_debug m +:+ " }"
  | SchemaViolation m => "SchemaViolation { msg: " +:+ str_debug m +:+ " }"
  | PluginContract p m => "PluginContract { plugin: " +:+ str_debug p +:+ ", msg: " +:+ str_debug m +:+ " }"
  | Internal m => "Internal { msg: " +:+ str_debug m +:+ " }"
  end.
Definition CoreError_debug (e : CoreError) : string :=
  match e with
  | Recoverable e => "Recoverable(" +:+ recoverable_debug e +:+ ")"
  | Fatal e => "Fatal(" +:+ fatal_debug e +:+ ")"
  end.

Example core_error_debug_1 :
  CoreError_debug (Fatal (Internal "disk full")) = "Fatal(Internal { msg: " +:+ str_debug "disk full" +:+ " })".
Proof. reflexivity. Qed.

Section beats.
Context {W T : Type} {ST : Storage W T} {SL : StorageLaws W T} {UT : UlidText}.
Context {RC : Codec WorkerRegistryEntry} {HC : Codec HeartbeatRecord}.
Context {E : Type} {EM : Emitter E} {EL : EmitterLaws E}.
(** The message of the ulid crate for a text that is none. *)
Context (ulid_error : string -> string).
(** The run the coordinator serves. *)
Context (run_id : RunId).

Definition parse_id (field s : string) : result rpc_error Ulid :=
  match ulid_parse s with
  | Some u => Ok u
  | None => Err (Rejected (InvalidArgument (field +:+ ": " +:+ ulid_error s)))
  end.

(** [HeartbeatServiceImpl::beat]; [now] is the clock a request without a deadline
    takes, [now_ms] the one of the coordinator's record. *)
Definition beat (now : SystemTime) (now_ms : N) (r : BeatRequest) : M (World (W:=W) (E:=E)) rpc_error BeatResponse :=
  let* worker_id := mlift (parse_id "worker_id" (br_worker r)) in
  let* run := mlift (parse_id "run_id" (br_run r)) in
  let* due_at := mlift (match br_due r with
                        | None => Ok now
                        | Some t => match prost_to_system t with
                                    | Value t => Ok t
                                    | Panic msg => Err (TaskPanic msg)
                                    end
                        end) in
  let state := proto_to_state (br_state r) in
  let hb := mkHeartbeat worker_id run state due_at in
  let* _ := map_err (fun e => Rejected (StatusInternal (CoreError_debug e))) (heartbeat run_id hb now_ms) in
  mret (mkBeatResponse None None).

(** *** What a beat leaves in the store *)
Abbreviation world := (World (W:=W) (E:=E)).
Abbreviation rows w := (contents (c_store w)).

(** The row of [worker] may be replaced by [rec]; no other heartbeat row moves. *)
Definition beat_moves (worker : WorkerId) (rec : HeartbeatRecord) (m m' : store) : Prop :=
  forall k, m' !! k = m !! k \/ k = worker_key worker \/ (k = heartbeat_key worker /\ m' !! k = Some (encode rec)).

Lemma moves_refl worker rec m : beat_moves worker rec m m.
Proof. intros k. by left. Qed.
Lemma moves_register worker rec v m : beat_moves worker rec m (<[worker_key worker := v]> m).
Proof. intros k. destruct (decide (worker_key worker = k)) as [<-|Hk]; [auto|]. left. by rewrite lookup_insert_ne. Qed.
Lemma moves_record worker rec m m' :
  beat_moves worker rec m m' -> beat_moves worker rec m (<[heartbeat_key worker := encode rec]> m').
Proof.
  intros Hm k. destruct (decide (heartbeat_key worker = k)) as [<-|Hk]; [right; right; by rewrite lookup_insert_eq|].
  rewrite lookup_insert_ne by done. apply Hm.
Qed.

Lemma heartbeat_moves hb now_ms w :
  wp (heartbeat run_id hb now_ms) (fun r w' =>
    c_warned w' = c_warned w /\
    beat_moves (hb_worker hb) (heartbeat_record hb now_ms) (rows w) (rows w') /\
    (is_ok r = true -> rows w' !! heartbeat_key (hb_worker hb) = Some (encode (heartbeat_record hb now_ms)))) w.
Proof.
  unfold heartbeat. apply wp_bind, wp_zoom.
  eapply wp_mono; [apply get_law, worker_key_known|]. intros [row|e] s1 ((Hc1 & _) & _); cbn [c_store c_emitter c_warned];
    [|rewrite Hc1; split_and!; [done|apply moves_refl|done]].
  apply wp_bind.
  apply (wp_mono _ (fun (r : result CoreError unit) w' => c_warned w' = c_warned w /\
           beat_moves (hb_worker hb) (heartbeat_record hb now_ms) (rows w) (rows w'))).
  { case_decide.
    - unfold register. apply wp_bind, wp_zoom. eapply wp_mono; [apply put_row_spec, worker_key_known|].
      cbn [c_store c_emitter c_warned].
      intros [u|e] s Hs; [apply wp_emit; intros r e _|]; cbn [c_store c_warned]; rewrite Hs, Hc1;
        (split; [done|]); [apply moves_register|apply moves_refl].
    - apply wp_ret. cbn [c_store c_warned]. rewrite Hc1. split; [done|apply moves_refl]. }
  intros [[]|e] w2 [Hw2 Hm2]; [|by split_and!]. apply wp_bind, wp_zoom.
  eapply wp_mono; [apply put_row_spec, heartbeat_key_known|]. cbn [c_store c_emitter c_warned].
  intros [[]|e] s Hs; cbn [c_store c_warned]; [|by rewrite Hs].
  apply wp_emit. intros r e _. cbn [c_store c_warned]. rewrite Hs. split_and!; [done|by apply moves_record|].
  intros _. apply lookup_insert_eq.
Qed.

(** Every heartbeat row is a worker's own, at its own key, and its deadline is one
    the clock can hold. *)
Definition beats_wf (m : store) : Prop := forall k v, m !! k = Some v -> namespace k = "heartbeats" ->
  exists worker rec, k = heartbeat_key worker /\ v = encode rec /\ hr_worker rec = ulid_string worker /\
    (due_at_ms rec / 1000 < 2 ^ 63)%N.

Lemma beats_wf_moves worker rec m m' : beats_wf m -> beat_moves worker rec m m' ->
  hr_worker rec = ulid_string worker -> (due_at_ms rec / 1000 < 2 ^ 63)%N -> beats_wf m'.
Proof.
  intros Hm Hmv Hw Hd k v Hk Hns. destruct (Hmv k) as [Hl|[->|[-> Hl]]]; [|done|].
  - rewrite Hl in Hk. by apply Hm.
  - rewrite Hl in Hk. injection Hk as <-. by exists worker, rec.
Qed.

(** The deadline of a request, as the coordinator's millisecond rows keep it. *)
Lemma ms_in_systime t : in_systime t -> (systime_to_ms t / 1000 < 2 ^ 63)%N.
Proof.
  intros [_ Ht%seconds_fit]. unfold systime_to_ms, NS in *. apply N2Z.inj_lt.
  rewrite N2Z.inj_div. change (Z.of_N 1000) with 1000%Z. apply Z.div_lt_upper_bound; [done|].
  apply (Z.le_lt_trans _ (Z.max t 0 / 1000000)).
  - destruct (Z.max_spec t 0) as [[Hs ->] | [Hs ->]]; [|rewrite Z2N.id by (apply Z.div_pos; lia); done].
    assert (t / 1000000 < 0)%Z by (apply Z.div_lt_upper_bound; lia). change (0 / 1000000)%Z with 0%Z. lia.
  - apply Z.div_lt_upper_bound; [done|].
    pose proof (Z.mul_succ_div_gt (Z.max t 0) 1000000000 ltac:(done)). lia.
Qed.

Definition due_of (now : SystemTime) (r : BeatRequest) : outcome SystemTime :=
  match br_due r with None => Value now | Some t => prost_to_system t end.

(** A heartbeat call on every branch.  Identifiers that are no ULIDs are
    refused as invalid arguments, naming the field, and a deadline beyond the
    clock's range unwinds, all before anything is written; otherwise the only rows
    that can change are the sender's registration and its heartbeat row, an answer
    means that the row now holds the request's state and its deadline in
    milliseconds, and an error of the coordinator comes back as an internal status
    with the error's debug text. *)
Lemma beat_post now now_ms r w :
  wp (beat now now_ms r) (fun res w' =>
    match ulid_parse (br_worker r), ulid_parse (br_run r) with
    | None, _ => res = Err (Rejected (InvalidArgument ("worker_id: " +:+ ulid_error (br_worker r)))) /\ w' = w
    | Some _, None => res = Err (Rejected (InvalidArgument ("run_id: " +:+ ulid_error (br_run r)))) /\ w' = w
    | Some worker, Some run =>
        match due_of now r with
        | Panic msg => res = Err (TaskPanic msg) /\ w' = w
        | Value due =>
            let rec := heartbeat_record (mkHeartbeat worker run (proto_to_state (br_state r)) due) now_ms in
            c_warned w' = c_warned w /\ beat_moves worker rec (rows w) (rows w') /\
            (forall a, res = Ok a -> a = mkBeatResponse None None /\ rows w' !! heartbeat_key worker = Some (encode rec)) /\
            (forall e, res = Err e -> exists c, e = Rejected (StatusInternal (CoreError_debug c)))
        end
    end) w.
Proof.
  unfold beat, parse_id, due_of. apply wp_bind, wp_lift. destruct (ulid_parse (br_worker r)) as [worker|]; [|done].
  apply wp_bind, wp_lift. destruct (ulid_parse (br_run r)) as [run|]; [|done].
  set (due := match br_due r with None => Value now | Some t => prost_to_system t end).
  apply wp_bind, wp_lift.
  assert ((match br_due r with
           | None => Ok now
           | Some t => match prost_to_system t with Value t => Ok t | Panic msg => Err (TaskPanic msg) end
           end) = match due with Value t => Ok t | Panic msg => Err (TaskPanic msg) end) as ->
    by (unfold due; by destruct (br_due r)).
  destruct due as [t|msg]; [|done].
  apply wp_bind, wp_map_err. eapply wp_mono; [apply heartbeat_moves|].
  intros [[]|e] w' (Hw & Hm & Hok); [apply wp_ret|]; split_and!; try done.
  - intros a [= <-]. split; [done|]. by apply Hok.
  - intros e' [= <-]. by eexists.
Qed.

Lemma due_in_systime now r t : in_systime now -> due_of now r = Value t -> in_systime t.
Proof. unfold due_of. destruct (br_due r); [|by intros ? [= <-]]. by intros _ [_ ?]%prost_in_systime. Qed.

(** A beat keeps the rows in order. *)
Lemma beat_keeps_wf now now_ms r w : in_systime now -> beats_wf (rows w) ->
  wp (beat now now_ms r) (fun _ w' => c_warned w' = c_warned w /\ beats_wf (rows w')) w.
Proof.
  intros Hnow Hwf. eapply wp_mono; [apply beat_post|]. intros res w'.
  destruct (ulid_parse (br_worker r)) as [worker|]; [|by intros [_ ->]].
  destruct (ulid_parse (br_run r)) as [run|]; [|by intros [_ ->]].
  destruct (due_of now r) as [due|msg] eqn:Hdue; [|by intros [_ ->]].
  intros (Hw & Hm & _). split; [done|]. eapply beats_wf_moves; [done..|].
  by eapply ms_in_systime, due_in_systime.
Qed.
End beats.

(** ** channels/control.rs: pushing to subscribed workers *)
#[local] Open Scope nat_scope.

(** tokio's bounded channel is not in the repository.  A [Tx] names one channel, both of
    its ends; [recv] and [drop_receiver] are what tonic does with the reader it was
    given.  What a channel is in a state: the messages that wait, how many may, and
    which ends are still held. *)
Record ChanView : Type := mkChan { buffered : list ControlPush; capacity : nat; reader_open : bool; sender_open : bool }.
Inductive Polled : Type := Item (p : ControlPush) | StreamEnd | StreamPending.
Class Mpsc (C : Type) : Type := {
  Tx : Type;
  Tx_eq_dec :: EqDecision Tx;
  mpsc_channel : nat -> C -> Tx * C;
  try_send : Tx -> ControlPush -> C -> bool * C;
  drop_sender : Tx -> C -> C;
  recv : Tx -> C -> Polled * C;
  drop_receiver : Tx -> C -> C;
  chan_view : Tx -> C -> option ChanView;
}.

(** What tokio documents of them; each touches its own channel only. *)
Definition others_same {C} {MP : Mpsc C} (tx : Tx) (c c' : C) : Prop :=
  forall tx', tx' <> tx -> chan_view tx' c' = chan_view tx' c.
Class MpscLaws (C : Type) {MP : Mpsc C} : Prop := {
  channel_law n c : let '(tx, c') := mpsc_channel n c in
    chan_view tx c = None /\ chan_view tx c' = Some (mkChan [] n true true) /\ others_same tx c c';
  (** Sent at once, unless the reader is gone or no room is left. *)
  try_send_law tx p c ch : chan_view tx c = Some ch ->
    let '(sent, c') := try_send tx p c in others_same tx c c' /\
    (sent = true <-> reader_open ch = true /\ length (buffered ch) < capacity ch) /\
    chan_view tx c' = Some (if sent then mkChan (buffered ch ++ [p]) (capacity ch) (reader_open ch) (sender_open ch) else ch);
  drop_sender_law tx c ch : chan_view tx c = Some ch ->
    others_same tx c (drop_sender tx c) /\
    chan_view tx (drop_sender tx c) = Some (mkChan (buffered ch) (capacity ch) (reader_open ch) false);
  (** First in, first out; the end comes when nothing waits and no sender is left. *)
  recv_law tx c ch : chan_view tx c = Some ch -> reader_open ch = true ->
    let '(r, c') := recv tx c in others_same tx c c' /\
    match buffered ch with
    | p :: rest => r = Item p /\ chan_view tx c' = Some (mkChan rest (capacity ch) true (sender_open ch))
    | [] => r = (if sender_open ch then StreamPending else StreamEnd) /\ chan_view tx c' = Some ch
    end;
  (** What still waited is lost with the reader. *)
  drop_receiver_law tx c ch : chan_view tx c = Some ch ->
    others_same tx c (drop_receiver tx c) /\
    chan_view tx (drop_receiver tx c) = Some (mkChan [] (capacity ch) false (sender_open ch));
}.

Definition CHANNEL_CAPACITY : nat := 64.

Section router.
Context {C : Type} {MP : Mpsc C}.

(** The router's map from worker to sender, with the channels behind it. *)
Record ControlRouter : Type := mkRouter { senders : gmap string Tx; mpsc : C }.
Definition router_new (c : C) : ControlRouter := mkRouter ∅ c.

(** A sender that leaves the map is dropped. *)
Definition drop_old (old : option Tx) (c : C) : C :=
  match old with Some tx => drop_sender tx c | None => c end.

(** [ControlRouter::push]: [try_send] on the worker's sender. *)
Definition push (worker_id : string) (p : ControlPush) (r : ControlRouter) : bool * ControlRouter :=
  match senders r !! worker_id with
  | None => (false, r)
  | Some tx => let '(sent, c) := try_send tx p (mpsc r) in (sent, mkRouter (senders r) c)
  end.

Definition close (worker_id : string) (r : ControlRouter) : ControlRouter :=
  mkRouter (delete worker_id (senders r)) (drop_old (senders r !! worker_id) (mpsc r)).

Definition router_register (worker_id : string) (tx : Tx) (r : ControlRouter) : ControlRouter :=
  mkRouter (<[worker_id := tx]> (senders r)) (drop_old (senders r !! worker_id) (mpsc r)).

(** [ControlServiceImpl::subscribe]: a new channel, its sender registered. *)
Definition subscribe (worker_id : string) (r : ControlRouter) : Tx * ControlRouter :=
  let '(tx, c) := mpsc_channel CHANNEL_CAPACITY (mpsc r) in
  (tx, router_register worker_id tx (mkRouter (senders r) c)).

(** *** Histories: what was asked of the router and of its streams, and what came of it *)
Inductive RouterOp : Type :=
| OpSubscribe (worker_id : string) | OpPush (worker_id : string) (p : ControlPush)
| OpClose (worker_id : string) | OpPoll (tx : Tx) | OpHangUp (tx : Tx).
Inductive Happened : Type :=
| Subscribed (worker_id : string) (tx : Tx) | Pushed (worker_id : string) (p : ControlPush) (sent : bool)
| Closed (worker_id : string) | Delivered (tx : Tx) (r : Polled) | HungUp (tx : Tx).

(** The worker's stream, by the history alone: that of its latest subscription, unless
    it was closed since. *)
Definition registry_step (reg : gmap string Tx) (h : Happened) : gmap string Tx :=
  match h with
  | Subscribed worker tx => <[worker := tx]> reg
  | Closed worker => delete worker reg
  | _ => reg
  end.
Definition registry (t : list Happened) : gmap string Tx := foldl registry_step ∅ t.

(** The pushes accepted for a stream, the pushes read from it, and whether it was made
    and its reader has gone. *)
Fixpoint accepted_from (reg : gmap string Tx) (tx : Tx) (t : list Happened) : list ControlPush :=
  match t with
  | [] => []
  | h :: t' =>
      match h with
      | Pushed worker p true => if decide (reg !! worker = Some tx) then [p] else []
      | _ => []
      end ++ accepted_from (registry_step reg h) tx t'
  end.
Definition accepted (tx : Tx) (t : list Happened) : list ControlPush := accepted_from ∅ tx t.
Definition read_from (tx : Tx) (h : Happened) : list ControlPush :=
  match h with Delivered tx' (Item p) => if decide (tx' = tx) then [p] else [] | _ => [] end.
Definition received (tx : Tx) (t : list Happened) : list ControlPush := t ≫= read_from tx.
Definition undelivered (tx : Tx) (t : list Happened) : list ControlPush := drop (length (received tx t)) (accepted tx t).
Definition made (tx : Tx) (t : list Happened) : bool :=
  existsb (fun h => match h with Subscribed _ tx' => bool_decide (tx' = tx) | _ => false end) t.
Definition reader_gone (tx : Tx) (t : list Happened) : bool :=
  existsb (fun h => match h with HungUp tx' => bool_decide (tx' = tx) | _ => false end) t.

Record Wire : Type := mkWire { router : ControlRouter; trace : list Happened }.

(** Only a stream that was handed out and not dropped is polled or dropped. *)
Definition wire_step (w : Wire) (op : RouterOp) : Wire :=
  let r := router w in
  match op with
  | OpSubscribe worker => let '(tx, r') := subscribe worker r in mkWire r' (trace w ++ [Subscribed worker tx])
  | OpPush worker p => let '(sent, r') := push worker p r in mkWire r' (trace w ++ [Pushed worker p sent])
  | OpClose worker => mkWire (close worker r) (trace w ++ [Closed worker])
  | OpPoll tx =>
      if made tx (trace w) && negb (reader_gone tx (trace w)) then
        let '(got, c) := recv tx (mpsc r) in mkWire (mkRouter (senders r) c) (trace w ++ [Delivered tx got])
      else w
  | OpHangUp tx =>
      if made tx (trace w) && negb (reader_gone tx (trace w)) then
        mkWire (mkRouter (senders r) (drop_receiver tx (mpsc r))) (trace w ++ [HungUp tx])
      else w
  end.
Definition wire_run (c : C) (ops : list RouterOp) : Wire := foldl wire_step (mkWire (router_new c) []) ops.

(** *** One more event *)
Lemma registry_snoc t h : registry (t ++ [h]) = registry_step (registry t) h.
Proof. unfold registry. by rewrite foldl_app. Qed.
Lemma accepted_snoc tx t h : accepted tx (t ++ [h]) = accepted tx t ++
  match h with
  | Pushed worker p true => if decide (registry t !! worker = Some tx) then [p] else []
  | _ => []
  end.
Proof.
  unfold accepted, registry. generalize (∅ : gmap string Tx) as reg.
  induction t as [|h' t IH]; intros reg; cbn [app accepted_from foldl]; [by rewrite app_nil_r|].
  rewrite IH. by rewrite app_assoc.
Qed.
Lemma received_snoc tx t h : received tx (t ++ [h]) = received tx t ++ read_from tx h.
Proof. unfold received. rewrite bind_app. f_equal. simpl. by rewrite app_nil_r. Qed.
Lemma made_snoc tx t h : made tx (t ++ [h]) = made tx t || match h with Subscribed _ tx' => bool_decide (tx' = tx) | _ => false end.
Proof. unfold made. rewrite existsb_app. simpl. by rewrite orb_false_r. Qed.
Lemma gone_snoc tx t h : reader_gone tx (t ++ [h]) = reader_gone tx t || match h with HungUp tx' => bool_decide (tx' = tx) | _ => false end.
Proof. unfold reader_gone. rewrite existsb_app. simpl. by rewrite orb_false_r. Qed.

(** The state of a stream is what the history says. *)
Definition stream_ok (t : list Happened) (tx : Tx) (v : option ChanView) : Prop :=
  exists rest, accepted tx t = received tx t ++ rest /\ length rest <= CHANNEL_CAPACITY /\
  match v with
  | None => made tx t = false /\ reader_gone tx t = false /\ rest = [] /\ forall worker, registry t !! worker <> Some tx
  | Some ch => made tx t = true /\ capacity ch = CHANNEL_CAPACITY /\ reader_open ch = negb (reader_gone tx t) /\
      (reader_gone tx t = false -> buffered ch = rest) /\
      (sender_open ch = true <-> exists worker, registry t !! worker = Some tx)
  end.
Definition wire_ok (w : Wire) : Prop :=
  senders (router w) = registry (trace w) /\
  (forall u v tx, registry (trace w) !! u = Some tx -> registry (trace w) !! v = Some tx -> u = v) /\
  forall tx, stream_ok (trace w) tx (chan_view tx (mpsc (router w))).

(** An event that is not about a stream leaves it as it was. *)
Lemma stream_ok_other t h tx v : stream_ok t tx v ->
  (forall worker p, h = Pushed worker p true -> registry t !! worker <> Some tx) -> read_from tx h = [] ->
  (forall worker, h <> Subscribed worker tx) -> h <> HungUp tx ->
  (forall worker, registry (t ++ [h]) !! worker = Some tx <-> registry t !! worker = Some tx) ->
  stream_ok (t ++ [h]) tx v.
Proof.
  intros (rest & Heq & Hlen & Hv) Hp Hr Hs Hh Hreg.
  assert (made tx (t ++ [h]) = made tx t) as Hm.
  { rewrite made_snoc. destruct h as [w tx'| | | |]; rewrite ?orb_false_r; try done.
    rewrite bool_decide_eq_false_2; [by rewrite orb_false_r|]. intros ->. by apply (Hs w). }
  assert (reader_gone tx (t ++ [h]) = reader_gone tx t) as Hg.
  { rewrite gone_snoc. destruct h as [| | | |tx']; rewrite ?orb_false_r; try done.
    rewrite bool_decide_eq_false_2; [by rewrite orb_false_r|]. intros ->. by apply Hh. }
  exists rest. rewrite received_snoc, Hr, app_nil_r, Hm, Hg. split; [|split; [done|]].
  - rewrite accepted_snoc. destruct h as [|w p []| | |]; rewrite ?app_nil_r; try done.
    rewrite decide_False by (by apply (Hp w p)). by rewrite app_nil_r.
  - destruct v as [ch|].
    + destruct Hv as (H1 & H2 & H3 & H4 & H5). repeat split; try done.
      * intros Ho. apply H5 in Ho as [w Hw]. exists w. by apply Hreg.
      * intros [w Hw]. apply H5. exists w. by apply Hreg.
    + destruct Hv as (H1 & H2 & H3 & H4). repeat split; try done. intros w Hw. by apply (H4 w), Hreg.
Qed.

Context {ML : MpscLaws C}.

(** What dropping the sender of a worker does to the views. *)
Lemma drop_old_view old c tx : (forall o, old = Some o -> is_Some (chan_view o c)) ->
  chan_view tx (drop_old old c) =
  (if decide (old = Some tx)
   then (fun ch => mkChan (buffered ch) (capacity ch) (reader_open ch) false) <$> chan_view tx c
   else chan_view tx c).
Proof.
  intros Ho. destruct old as [o|]; simpl; [|done]. destruct (Ho o eq_refl) as [ch Hc].
  destruct (drop_sender_law o c ch Hc) as [Hoth Hown]. destruct (decide (o = tx)) as [->|Hne].
  - rewrite decide_True by done. by rewrite Hown, Hc.
  - rewrite decide_False by congruence. by apply Hoth.
Qed.

Lemma registered_view w worker tx : wire_ok w -> registry (trace w) !! worker = Some tx ->
  exists ch, chan_view tx (mpsc (router w)) = Some ch /\ sender_open ch = true.
Proof.
  intros (_ & _ & Hv) Hr. destruct (Hv tx) as (rest & _ & _ & H).
  destruct (chan_view tx (mpsc (router w))) as [ch|]; [|by destruct H as (_ & _ & _ & Hn); destruct (Hn worker)].
  exists ch. split; [done|]. apply H. by exists worker.
Qed.

(** A stream whose sender was dropped and that no worker is registered with any more. *)
Lemma stream_ok_closed t h tx v : stream_ok t tx v -> (forall worker p, h <> Pushed worker p true) ->
  read_from tx h = [] -> (forall worker, h <> Subscribed worker tx) -> h <> HungUp tx ->
  (forall worker, registry (t ++ [h]) !! worker <> Some tx) ->
  stream_ok (t ++ [h]) tx ((fun ch => mkChan (buffered ch) (capacity ch) (reader_open ch) false) <$> v).
Proof.
  intros (rest & Heq & Hlen & Hv) Hp Hr Hs Hh Hreg. exists rest.
  rewrite received_snoc, Hr, app_nil_r, accepted_snoc, made_snoc, gone_snoc. split; [|split; [done|]].
  - destruct h as [|w p []| | |]; rewrite ?app_nil_r; try done. by destruct (Hp w p).
  - assert (made tx t || match h with Subscribed _ tx' => bool_decide (tx' = tx) | _ => false end = made tx t) as ->.
    { destruct h as [w tx'| | | |]; rewrite ?orb_false_r; try done. rewrite bool_decide_eq_false_2; [by rewrite orb_false_r|]. intros ->. by apply (Hs w). }
    assert (reader_gone tx t || match h with HungUp tx' => bool_decide (tx' = tx) | _ => false end = reader_gone tx t) as ->.
    { destruct h as [| | | |tx']; rewrite ?orb_false_r; try done. rewrite bool_decide_eq_false_2; [by rewrite orb_false_r|]. intros ->. by apply Hh. }
    destruct v as [ch|]; simpl.
    + destruct Hv as (H1 & H2 & H3 & H4 & _). repeat split; try done. intros [w Hw]. by destruct (Hreg w).
    + destruct Hv as (H1 & H2 & H3 & _). done.
Qed.

Lemma wire_ok_subscribe worker w : wire_ok w -> wire_ok (wire_step w (OpSubscribe worker)).
Proof.
  intros Hok. pose proof Hok as (Hs & Huniq & Hv). simpl. unfold subscribe.
  pose proof (channel_law CHANNEL_CAPACITY (mpsc (router w))) as Hch.
  destruct (mpsc_channel CHANNEL_CAPACITY (mpsc (router w))) as [tx c]. destruct Hch as (Hnone & Hnew & Hoth).
  assert (forall u, registry (trace w) !! u <> Some tx) as Hfresh.
  { intros u Hu. destruct (registered_view w u tx Hok Hu) as (ch & Hc & _). congruence. }
  split; [|split]; cbn [router trace senders mpsc]; rewrite ?registry_snoc; cbn [registry_step].
  - by rewrite Hs.
  - intros u v tx'. destruct (decide (u = worker)) as [->|Hu], (decide (v = worker)) as [->|Hv'];
      rewrite ?lookup_insert_eq, ?lookup_insert_ne by done; [done| | |by apply Huniq].
    + intros [= <-] H. by destruct (Hfresh v).
    + intros H [= <-]. by destruct (Hfresh u).
  - intros tx'. unfold router_register. cbn [mpsc senders]. rewrite Hs, drop_old_view.
    2:{ intros o Ho. destruct (registered_view w worker o Hok Ho) as (ch & Hc & _). rewrite Hoth; [by exists ch|].
        intros ->. by destruct (Hfresh worker). }
    destruct (decide (tx' = tx)) as [->|Hne].
    + rewrite decide_False by apply Hfresh. rewrite Hnew. destruct (Hv tx) as (rest & Heq & Hlen & H). rewrite Hnone in H.
      destruct H as (Hm & Hg & -> & _). exists []. rewrite accepted_snoc, received_snoc, made_snoc, gone_snoc, Heq, Hg.
      rewrite !app_nil_r, bool_decide_eq_true_2 by done. split; [done|]. split; [done|].
      rewrite orb_true_r. split_and!; try done. split; [|done]. intros _. exists worker.
      by rewrite registry_snoc; simpl; rewrite lookup_insert_eq.
    + rewrite (Hoth tx' Hne). case_decide as Ho.
      * apply stream_ok_closed; [apply Hv|done|done| |done|]; [by intros u [= _ ->]|].
        intros u. rewrite registry_snoc. simpl. destruct (decide (u = worker)) as [->|Hu].
        { rewrite lookup_insert_eq. congruence. }
        rewrite lookup_insert_ne by done. intros H. by apply Hu, (Huniq u worker tx').
      * apply stream_ok_other; [apply Hv|done|done| |done|]; [by intros u [= _ ->]|].
        intros u. rewrite registry_snoc. simpl. destruct (decide (u = worker)) as [->|Hu].
        { rewrite lookup_insert_eq. split; congruence. }
        by rewrite lookup_insert_ne.
Qed.

Lemma wire_ok_close worker w : wire_ok w -> wire_ok (wire_step w (OpClose worker)).
Proof.
  intros Hok. pose proof Hok as (Hs & Huniq & Hv).
  split; [|split]; cbn [wire_step router trace close senders mpsc]; rewrite ?registry_snoc; cbn [registry_step].
  - by rewrite Hs.
  - intros u v tx' [_ Hu]%lookup_delete_Some [_ Hv']%lookup_delete_Some. by eapply Huniq.
  - intros tx'. rewrite Hs, drop_old_view.
    2:{ intros o Ho. destruct (registered_view w worker o Hok Ho) as (ch & Hc & _). by exists ch. }
    case_decide as Ho.
    + apply stream_ok_closed; [apply Hv|done..|]. intros u. rewrite registry_snoc. simpl.
      intros [Hu H]%lookup_delete_Some. by apply Hu, (Huniq worker u tx').
    + apply stream_ok_other; [apply Hv|done..|]. intros u. rewrite registry_snoc. simpl.
      rewrite lookup_delete_Some. split; [by intros [_ ?]|]. intros Hu. split; [|done]. intros ->. done.
Qed.

(** An event of the streams other than a subscription or a close keeps the registry. *)
Definition keeps_registry (h : Happened) : Prop := forall reg, registry_step reg h = reg.
Lemma wire_ok_event w h c tx : wire_ok w -> keeps_registry h ->
  others_same tx (mpsc (router w)) c ->
  (forall tx', tx' <> tx -> read_from tx' h = [] /\ h <> HungUp tx' /\
     forall worker p, h = Pushed worker p true -> registry (trace w) !! worker <> Some tx') ->
  stream_ok (trace w ++ [h]) tx (chan_view tx c) ->
  wire_ok (mkWire (mkRouter (senders (router w)) c) (trace w ++ [h])).
Proof.
  intros (Hs & Huniq & Hv) Hreg Hoth Hquiet Hown. split; [|split]; cbn [router trace senders mpsc]; rewrite ?registry_snoc, ?Hreg; [done|done|].
  intros tx'. destruct (decide (tx' = tx)) as [->|Hne]; [done|]. rewrite (Hoth tx' Hne).
  destruct (Hquiet tx' Hne) as (H1 & H2 & H3). apply stream_ok_other; [apply Hv|done|done| |done|].
  - intros u ->. specialize (Hreg ∅). simpl in Hreg. by apply insert_non_empty in Hreg.
  - intros u. by rewrite registry_snoc, Hreg.
Qed.

(** A push nobody is subscribed for changes nothing but the history. *)
Lemma wire_ok_refused w worker p : wire_ok w -> wire_ok (mkWire (router w) (trace w ++ [Pushed worker p false])).
Proof.
  intros (Hs & Huniq & Hv). split; [|split]; cbn [router trace]; rewrite ?registry_snoc; [done|done|].
  intros tx. apply stream_ok_other; [apply Hv|done..|]. intros u. by rewrite registry_snoc.
Qed.

Lemma wire_ok_push worker p w : wire_ok w -> wire_ok (wire_step w (OpPush worker p)).
Proof.
  intros Hok. pose proof Hok as (Hs & Huniq & Hv). simpl. unfold push. rewrite Hs.
  destruct (registry (trace w) !! worker) as [tx|] eqn:Hr; [|by apply wire_ok_refused].
  destruct (registered_view w worker tx Hok Hr) as (ch & Hc & Ho).
  pose proof (try_send_law tx p _ ch Hc) as Hlaw. destruct (try_send tx p (mpsc (router w))) as [sent c].
  destruct Hlaw as (Hoth & Hsent & Hview). rewrite <- Hs.
  apply wire_ok_event with tx; [done|by intros reg|done| |].
  - intros tx' Hne. split; [done|]. split; [done|]. intros u q [= <- <- ->]. congruence.
  - rewrite Hview. destruct (Hv tx) as (rest & Heq & Hlen & H). rewrite Hc in H. destruct H as (H1 & H2 & H3 & H4 & H5).
    destruct sent.
    + destruct (proj1 Hsent eq_refl) as [Hopen Hroom]. rewrite H3 in Hopen. apply negb_true_iff in Hopen.
      exists (rest ++ [p]). rewrite accepted_snoc, received_snoc, made_snoc, gone_snoc, Heq, decide_True by done.
      rewrite !orb_false_r, app_nil_r. split; [by rewrite app_assoc|].
      rewrite H2, (H4 Hopen) in Hroom. split; [rewrite length_app; simpl; lia|]. cbn.
      split_and!; try done. { intros _. by rewrite H4. } rewrite registry_snoc. done.
    + exists rest. rewrite accepted_snoc, received_snoc, made_snoc, gone_snoc, Heq. simpl.
      rewrite !orb_false_r, !app_nil_r. split_and!; try done. by rewrite registry_snoc.
Qed.

(** A stream that can be polled has a channel with its reader. *)
Lemma readable_view w tx : wire_ok w -> made tx (trace w) && negb (reader_gone tx (trace w)) = true ->
  exists ch, chan_view tx (mpsc (router w)) = Some ch /\ reader_open ch = true /\ reader_gone tx (trace w) = false /\
    buffered ch = undelivered tx (trace w) /\ accepted tx (trace w) = received tx (trace w) ++ buffered ch.
Proof.
  intros (_ & _ & Hv) [Hm Hg]%andb_true_iff. destruct (Hv tx) as (rest & Heq & _ & H).
  destruct (chan_view tx (mpsc (router w))) as [ch|]; [|destruct H; congruence].
  destruct H as (_ & _ & Ho & Hb & _). exists ch. rewrite negb_true_iff in Hg. rewrite Hg in Ho. specialize (Hb Hg).
  split_and!; try done; [|by rewrite Hb]. unfold undelivered. by rewrite Heq, drop_app_length.
Qed.

Lemma wire_ok_poll tx w : wire_ok w -> wire_ok (wire_step w (OpPoll tx)).
Proof.
  intros Hok. simpl. destruct (made tx (trace w) && _) eqn:Hread; [|done].
  destruct (readable_view w tx Hok Hread) as (ch & Hc & Hopen & Hg & _).
  pose proof Hok as (_ & _ & Hv). destruct (Hv tx) as (rest & Heq & Hlen & H). rewrite Hc in H. destruct H as (H1 & H2 & H3 & H4 & H5).
  pose proof (recv_law tx _ ch Hc Hopen) as Hlaw. destruct (recv tx (mpsc (router w))) as [got c]. destruct Hlaw as [Hoth Hgot].
  apply wire_ok_event with tx; [done|by intros reg|done| |].
  - intros tx' Hne. split; [|done]. simpl. destruct got; try done. by rewrite decide_False.
  - specialize (H4 Hg). rewrite H4 in Hgot. destruct rest as [|p rest]; destruct Hgot as [-> ->].
    + exists []. rewrite accepted_snoc, received_snoc, made_snoc, gone_snoc, Heq. rewrite !orb_false_r, !app_nil_r.
      assert (read_from tx (Delivered tx (if sender_open ch then StreamPending else StreamEnd)) = []) as -> by (simpl; by destruct (sender_open ch)).
      rewrite app_nil_r. split_and!; try done. by rewrite registry_snoc.
    + exists rest. rewrite accepted_snoc, received_snoc, made_snoc, gone_snoc, Heq. simpl. rewrite !orb_false_r, app_nil_r, decide_True by done.
      split; [by rewrite <- app_assoc|]. split; [simpl in Hlen; lia|]. rewrite Hg. split_and!; try done. by rewrite registry_snoc.
Qed.

Lemma wire_ok_hang_up tx w : wire_ok w -> wire_ok (wire_step w (OpHangUp tx)).
Proof.
  intros Hok. simpl. destruct (made tx (trace w) && _) eqn:Hread; [|done].
  destruct (readable_view w tx Hok Hread) as (ch & Hc & Hopen & Hg & _).
  pose proof Hok as (_ & _ & Hv). destruct (Hv tx) as (rest & Heq & Hlen & H). rewrite Hc in H. destruct H as (H1 & H2 & H3 & H4 & H5).
  destruct (drop_receiver_law tx _ ch Hc) as [Hoth Hview].
  apply wire_ok_event with tx; [done|by intros reg|done| |].
  - intros tx' Hne. split; [done|]. split; [congruence|done].
  - rewrite Hview. exists rest. rewrite accepted_snoc, received_snoc, made_snoc, gone_snoc, Heq. simpl.
    rewrite !orb_false_r, !app_nil_r, bool_decide_eq_true_2, orb_true_r by done.
    split_and!; try done. by rewrite registry_snoc.
Qed.

Lemma wire_run_ok c ops : (forall tx, chan_view tx c = None) -> wire_ok (wire_run c ops).
Proof.
  intros Hc. unfold wire_run. assert (wire_ok (mkWire (router_new c) [])) as Hw.
  { split_and!; [done|by intros u v tx Hu|]. intros tx. cbn. rewrite Hc. exists []. unfold CHANNEL_CAPACITY.
    split_and!; simpl; try done. lia. }
  revert Hw. generalize (mkWire (router_new c) []) as w. induction ops as [|op ops IH]; intros w Hw; [done|]. apply IH.
  destruct op; [by apply wire_ok_subscribe|by apply wire_ok_push|by apply wire_ok_close|by apply wire_ok_poll|by apply wire_ok_hang_up].
Qed.

(** C38: Pushes reach their subscriber.  After any history of subscriptions, pushes,
    closes, polls and dropped readers, and by that history alone: a stream's reader has
    received, in order and without loss or repetition, what was accepted for the stream
    up to at most 64 pushes; a push is accepted exactly when the worker's latest
    subscription has not been closed since, its reader is there and fewer than 64 pushes
    are undelivered; and a poll of a stream whose reader is there gives the first
    undelivered push, waits when there is none and some worker's latest subscription is
    this stream, and ends the stream otherwise (closed, or subscribed again). *)
Theorem pushes_delivered_in_order c ops (Hempty : forall tx, chan_view tx c = None) :
  let w := wire_run c ops in let t := trace w in
  (forall tx, accepted tx t = received tx t ++ undelivered tx t /\ length (undelivered tx t) <= 64) /\
  (forall worker p, (push worker p (router w)).1 = true <->
     exists tx, registry t !! worker = Some tx /\ reader_gone tx t = false /\ length (undelivered tx t) < 64) /\
  (forall tx, made tx t = true -> reader_gone tx t = false ->
     match undelivered tx t, (recv tx (mpsc (router w))).1 with
     | p :: _, got => got = Item p
     | [], StreamPending => exists worker, registry t !! worker = Some tx
     | [], StreamEnd => forall worker, registry t !! worker <> Some tx
     | [], Item _ => False
     end).
Proof.
  intros w t. pose proof (wire_run_ok c ops Hempty : wire_ok w) as Hok. pose proof Hok as (Hs & _ & Hv).
  assert (forall tx rest, accepted tx t = received tx t ++ rest -> undelivered tx t = rest) as Hun.
  { intros tx rest Heq. unfold undelivered. by rewrite Heq, drop_app_length. }
  split; [|split].
  - intros tx. destruct (Hv tx) as (rest & Heq & Hlen & _). by rewrite (Hun tx rest Heq).
  - intros worker p. unfold push. rewrite Hs. fold t. destruct (registry t !! worker) as [tx|] eqn:Hr;
      [|by split; [|intros (? & ? & _)]].
    destruct (registered_view w worker tx Hok Hr) as (ch & Hc & Ho).
    destruct (Hv tx) as (rest & Heq & Hlen & H). rewrite Hc in H. destruct H as (H1 & H2 & H3 & H4 & H5). fold t in Heq, H1, H3, H4, H5.
    pose proof (try_send_law tx p _ ch Hc) as Hlaw. destruct (try_send tx p (mpsc (router w))) as [sent c'].
    destruct Hlaw as (_ & Hsent & _). cbn [fst]. rewrite Hsent, H2, H3, negb_true_iff. split.
    + intros [Hg Hl]. exists tx. rewrite (Hun tx rest Heq). rewrite (H4 Hg) in Hl. done.
    + intros (tx' & [= <-] & Hg & Hl). rewrite (Hun tx rest Heq) in Hl. rewrite (H4 Hg). done.
  - intros tx Hm Hg. destruct (readable_view w tx Hok) as (ch & Hc & Hopen & _ & Hb & _).
    { fold t. by rewrite Hm, Hg. }
    destruct (Hv tx) as (rest & _ & _ & H). rewrite Hc in H. destruct H as (_ & _ & _ & _ & H5). fold t in H5.
    pose proof (recv_law tx _ ch Hc Hopen) as Hlaw. destruct (recv tx (mpsc (router w))) as [got c']. rewrite Hb in Hlaw.
    destruct Hlaw as [_ Hgot]. cbn [fst]. revert Hgot. fold t.
    destruct (undelivered tx t) as [|p l]; [|by intros [-> _]]. intros [-> _]. destruct (sender_open ch).
    + by apply H5.
    + intros worker Hw. assert (false = true) as [=]. apply H5. by exists worker.
Qed.
End router.

(** ** channels/work.rs: the stub *)
Inductive WorkUp : Type := WorkReady (s : string) | WorkResult (b : bytes).
Inductive WorkDown : Type := WorkItemDown (b : bytes) | HeartbeatDown (s : string).

(** What the stream's task answers to what the client sends; [room] sends succeed
    before the client stops reading. *)
Fixpoint work_stream (room : nat) (inbound : list (result string WorkUp)) : list (result string WorkDown) :=
  match inbound, room with
  | [], _ | _, O => []
  | Ok _ :: rest, S room => Ok (HeartbeatDown "ack") :: work_stream room rest
  | Err e :: _, S _ => [Err e]
  end.

(** One marker per message until the first error, which is passed on and ends it. *)
Lemma work_stream_acks room ups tail : length ups < room ->
  work_stream room (map Ok ups ++ tail) = replicate (length ups) (Ok (HeartbeatDown "ack")) ++
    match tail with Err e :: _ => [Err e] | _ => work_stream (room - length ups) tail end.
Proof.
  revert room. induction ups as [|up ups IH]; intros room Hr; simpl.
  - rewrite Nat.sub_0_r. destruct room, tail as [|[]]; simpl in *; done || lia.
  - destruct room as [|room]; [simpl in Hr; lia|]. simpl in *. by rewrite IH by lia.
Qed.

(** *** Channels as a table, numbered as they are made *)
Section router_examples.
#[local] Instance table_channels : Mpsc (list ChanView) := {|
  Tx := nat;
  mpsc_channel n c := (length c, c ++ [mkChan [] n true true]);
  try_send tx p c :=
    match c !! tx with
    | Some ch =>
        if reader_open ch && bool_decide (length (buffered ch) < capacity ch) then
          (true, <[tx := mkChan (buffered ch ++ [p]) (capacity ch) (reader_open ch) (sender_open ch)]> c)
        else (false, c)
    | None => (false, c)
    end;
  drop_sender tx c := alter (fun ch => mkChan (buffered ch) (capacity ch) (reader_open ch) false) tx c;
  recv tx c :=
    match c !! tx with
    | Some ch =>
        match buffered ch with
        | p :: rest => (Item p, <[tx := mkChan rest (capacity ch) true (sender_open ch)]> c)
        | [] => (if sender_open ch then StreamPending else StreamEnd, c)
        end
    | None => (StreamEnd, c)
    end;
  drop_receiver tx c := alter (fun ch => mkChan [] (capacity ch) false (sender_open ch)) tx c;
  chan_view tx c := c !! tx;
|}.
#[local] Instance table_channels_laws : MpscLaws (list ChanView).
Proof.
  split; unfold others_same; simpl.
  - intros n c. split; [by apply lookup_ge_None|]. split; [by rewrite lookup_app_r, Nat.sub_diag|].
    intros tx Hne. destruct (decide (tx < length c)) as [H|H].
    + by rewrite lookup_app_l.
    + rewrite !(proj2 (lookup_ge_None _ _)); [done|lia|rewrite length_app; simpl; lia].
  - intros tx p c ch Hc. rewrite Hc. pose proof (lookup_lt_Some _ _ _ Hc).
    destruct (reader_open ch) eqn:Ho; simpl; [case_bool_decide as Hl|].
    + split; [intros tx' Hne; by rewrite list_lookup_insert_ne|]. split; [done|]. by rewrite list_lookup_insert_eq.
    + split; [done|]. split; [|done]. split; [done|]. by intros [_ ?].
    + split; [done|]. split; [|done]. split; [done|]. by intros [? _].
  - intros tx c ch Hc. split; [intros tx' Hne; by rewrite list_lookup_alter_ne|]. by rewrite list_lookup_alter_eq, Hc.
  - intros tx c ch Hc Ho. rewrite Hc. pose proof (lookup_lt_Some _ _ _ Hc). destruct (buffered ch) as [|p rest].
    + by destruct (sender_open ch).
    + split; [intros tx' Hne; by rewrite list_lookup_insert_ne|]. split; [done|]. by rewrite list_lookup_insert_eq.
  - intros tx c ch Hc. split; [intros tx' Hne; by rewrite list_lookup_alter_ne|]. by rewrite list_lookup_alter_eq, Hc.
Qed.

(** A worker subscribes again, and is closed: its first stream ends after what was
    accepted for it, the second too, and a push after the close is refused. *)
Definition two_streams : list RouterOp :=
  [OpSubscribe "w"; OpPush "w" (PushCancel "a"); OpSubscribe "w"; OpPush "w" (PushDrain None);
   OpPoll (0 : nat); OpPoll (0 : nat); OpClose "w"; OpPush "w" PushNothing; OpPush "v" PushNothing].
Lemma pushes_delivered_in_order_witness :
  trace (wire_run [] two_streams) =
    [Subscribed "w" (0 : nat); Pushed "w" (PushCancel "a") true; Subscribed "w" (1 : nat); Pushed "w" (PushDrain None) true;
     Delivered (0 : nat) (Item (PushCancel "a")); Delivered (0 : nat) StreamEnd; Closed "w";
     Pushed "w" PushNothing false; Pushed "v" PushNothing false] /\
  (push "w" PushNothing (router (wire_run [] two_streams))).1 <> true /\
  length (undelivered (1 : nat) (trace (wire_run [] two_streams))) <= 64.
Proof.
  destruct (pushes_delivered_in_order ([] : list ChanView) two_streams (fun tx => lookup_nil tx)) as (H1 & H2 & _).
  split; [vm_compute; reflexivity|]. split.
  - intros H. apply H2 in H as (tx & Hr & _). vm_compute in Hr. discriminate Hr.
  - exact (proj2 (H1 1)).
Defined.
End router_examples.

(** ** tls.rs: the development CA and the certificates it signs *)

(** What the code asks of a certificate. *)
Inductive KeyUsage : Type := KeyCertSign | CrlSign | DigitalSignature | KeyEncipherment.
Inductive ExtendedKeyUsage : Type := ServerAuth | ClientAuth.
Record CertificateParams : Type := mkCertParams {
  alt_names : list string; is_ca : bool; key_usages : list KeyUsage; extended_key_usages : list ExtendedKeyUsage;
  common_names : list string;
}.

(** rcgen: key pairs and certificates are drawn and signed by the library. *)
Class Rcgen (G : Type) : Type := {
  KeyPair : Type;
  Cert : Type;
  params_new : list string -> result string CertificateParams;
  generate_key : M G string KeyPair;
  key_from_pem : string -> result string KeyPair;
  params_from_pem : string -> result string CertificateParams;
  self_signed : CertificateParams -> KeyPair -> M G string Cert;
  signed_by : CertificateParams -> KeyPair -> Cert -> KeyPair -> M G string Cert;
  cert_pem : Cert -> string;
  key_pem : KeyPair -> string;
}.

(** A disk with the permission bits of its files, and rcgen's state. *)
Record TlsWorld (G : Type) : Type := mkTls { tls_fs : Fs; modes : gmap fspath N; rcgen : G }.
Arguments mkTls {G}. Arguments tls_fs {G}. Arguments modes {G}. Arguments rcgen {G}.

Definition tls_io (e : string) : CoreError := internal ("tls io: " +:+ e).
Definition rcgen_err (e : string) : CoreError := internal ("rcgen: " +:+ e).
Definition tls_internal (e : string) : CoreError := internal ("tls: " +:+ e).

Section tls.
Context `{RG : Rcgen G}.
(** The directory, and the mode of a new file. *)
Context (dir : fspath) (default_mode : N).

Definition on_fs {A} (m : M Fs CoreError A) : M (TlsWorld G) CoreError A :=
  zoom tls_fs (fun fs w => mkTls fs (modes w) (rcgen w)) m.
Definition on_rcgen {A} (m : M G string A) : M (TlsWorld G) CoreError A :=
  zoom rcgen (fun g w => mkTls (tls_fs w) (modes w) g) (map_err rcgen_err m).

Definition ca_pem : fspath := dir ++ ["ca.pem"].
Definition ca_key : fspath := dir ++ ["ca.key.pem"].

(** [Path::exists] answers false when it cannot tell. *)
Definition path_exists (p : fspath) : M (TlsWorld G) CoreError bool :=
  let* r := mcatch (on_fs (try_exists tls_io p)) in
  mret (match r with Ok b => b | Err _ => false end).

Definition file_read (p : fspath) : M (TlsWorld G) CoreError bytes :=
  let* r := on_fs (io tls_io (fun m => (m !! p, m)) (fun _ m => m)) in
  match r with Some b => mret b | None => mthrow (tls_io "No such file or directory (os error 2)") end.

(** [fs::write]: a file that was not there is made with the default mode. *)
Definition file_write (p : fspath) (b : bytes) : M (TlsWorld G) CoreError unit := fun w =>
  on_fs (fs_write tls_io p b)
    (if decide (is_Some (files (tls_fs w) !! p)) then w
     else mkTls (tls_fs w) (<[p := default_mode]> (modes w)) (rcgen w)).

Definition chmod_600 (p : fspath) : M (TlsWorld G) CoreError unit :=
  let* _ := on_fs (io tls_io (fun m => (tt, m)) (fun _ m => m)) in
  fun w => (Ok tt, mkTls (tls_fs w) (<[p := 384%N]> (modes w)) (rcgen w)).

Definition read_pair : M (TlsWorld G) CoreError (bytes * bytes) :=
  let* cert := file_read ca_pem in
  let* key := file_read ca_key in
  mret (cert, key).

Definition make_pair : M (TlsWorld G) CoreError (bytes * bytes) :=
  let* _ := on_fs (create_dir_all tls_io) in
  let* params := mlift (match params_new ["rollout-dev-ca"] with Ok p => Ok p | Err e => Err (rcgen_err e) end) in
  let params := mkCertParams (alt_names params) true [KeyCertSign; CrlSign; DigitalSignature]
                  (extended_key_usages params) (common_names params ++ ["rollout-dev-ca"]) in
  let* kp := on_rcgen generate_key in
  let* cert := on_rcgen (self_signed params kp) in
  let cert_text := bytes_of (cert_pem cert) in
  let key_text := bytes_of (key_pem kp) in
  let* _ := file_write ca_pem cert_text in
  let* _ := file_write ca_key key_text in
  let* _ := chmod_600 ca_key in
  mret (cert_text, key_text).

(** [ensure_dev_ca]. *)
Definition ensure_dev_ca : M (TlsWorld G) CoreError (bytes * bytes) :=
  let* have_cert := path_exists ca_pem in
  let* have_both := (if have_cert : bool then path_exists ca_key else mret false) in
  if have_both : bool then read_pair else make_pair.

(** [issue_cert]. *)
Definition issue_cert (ca_cert_pem ca_key_pem : bytes) (names : list string) (is_client : bool)
  : M (TlsWorld G) CoreError (bytes * bytes) :=
  let* ca_cert_str := mlift (match from_utf8 ca_cert_pem with Ok s => Ok s | Err e => Err (tls_internal e) end) in
  let* ca_key_str := mlift (match from_utf8 ca_key_pem with Ok s => Ok s | Err e => Err (tls_internal e) end) in
  let* ca_kp := mlift (match key_from_pem ca_key_str with Ok k => Ok k | Err e => Err (rcgen_err e) end) in
  let* ca_params := mlift (match params_from_pem ca_cert_str with Ok p => Ok p | Err e => Err (rcgen_err e) end) in
  let* ca_cert := on_rcgen (self_signed ca_params ca_kp) in
  let* params := mlift (match params_new names with Ok p => Ok p | Err e => Err (rcgen_err e) end) in
  let params := mkCertParams (alt_names params) (is_ca params) [DigitalSignature; KeyEncipherment]
                  [if is_client then ClientAuth else ServerAuth]
                  (match names with first :: _ => common_names params ++ [first] | [] => common_names params end) in
  let* kp := on_rcgen generate_key in
  let* cert := on_rcgen (signed_by params kp ca_cert ca_kp) in
  mret (bytes_of (cert_pem cert), bytes_of (key_pem kp)).

Definition issue_server_cert (ca_cert_pem ca_key_pem : bytes) (dns_names : list string) :=
  issue_cert ca_cert_pem ca_key_pem dns_names false.
Definition issue_client_cert (ca_cert_pem ca_key_pem : bytes) (names : list string) :=
  issue_cert ca_cert_pem ca_key_pem names true.

Lemma ca_key_not_pem : ca_key <> ca_pem.
Proof. unfold ca_key, ca_pem. intros H. by apply app_inv_head in H. Qed.

Lemma wp_on_fs {A} (f : gmap fspath bytes -> A * gmap fspath bytes) g (Q : result CoreError A -> TlsWorld G -> Prop) w :
  (forall fs a m, f (files (tls_fs w)) = (a, m) -> files fs = m -> Q (Ok a) (mkTls fs (modes w) (rcgen w))) ->
  (forall fs e partial, files fs = g partial (files (tls_fs w)) -> Q (Err e) (mkTls fs (modes w) (rcgen w))) ->
  wp (on_fs (io tls_io f g)) Q w.
Proof.
  intros Hok Herr. unfold on_fs. apply wp_zoom. unfold wp, io, next_fault.
  destruct (fs_faults (tls_fs w)) as [|[[e partial]|] rest]; cbn [fst snd files].
  - destruct (f (files (tls_fs w))) as [a m] eqn:Hf. cbn [fst snd]. by eapply Hok.
  - by eapply Herr.
  - destruct (f (files (tls_fs w))) as [a m] eqn:Hf. cbn [fst snd]. by eapply Hok.
Qed.

Lemma path_exists_keeps p w :
  wp (path_exists p) (fun r w' => files (tls_fs w') = files (tls_fs w) /\ modes w' = modes w /\
    match r with Ok b => b = true -> is_Some (files (tls_fs w) !! p) | Err _ => False end) w.
Proof.
  unfold path_exists. apply wp_bind, wp_catch. apply wp_on_fs.
  - intros fs a m [= <- <-] Hfs. apply wp_ret. cbn [tls_fs modes]. split_and!; [done..|]. by rewrite bool_decide_eq_true.
  - intros fs e partial Hfs. apply wp_ret. by split_and!.
Qed.

Lemma file_read_keeps p w :
  wp (file_read p) (fun r w' => files (tls_fs w') = files (tls_fs w) /\ modes w' = modes w /\
    forall b, r = Ok b -> files (tls_fs w) !! p = Some b) w.
Proof.
  unfold file_read. apply wp_bind. apply wp_on_fs.
  - intros fs a m [= <- <-] Hfs. destruct (files (tls_fs w) !! p) as [b|]; [apply wp_ret|apply wp_throw]; split_and!; try done.
    by intros b' [= <-].
  - intros fs e partial Hfs. by split_and!.
Qed.

Lemma file_write_spec p b w :
  wp (file_write p b) (fun r w' => match r with
    | Ok _ => files (tls_fs w') = <[p := b]> (files (tls_fs w))
    | Err _ => True end) w.
Proof.
  unfold file_write. unfold wp at 1. case_decide.
  all: refine (wp_on_fs _ _ (fun r w' => match r with Ok _ => files (tls_fs w') = <[p := b]> (files (tls_fs w)) | Err _ => True end) _ _ _);
    [by intros fs a m [= <- <-] Hfs; exact Hfs|done].
Qed.

Lemma chmod_spec p w : wp (chmod_600 p) (fun r w' => match r with
    | Ok _ => files (tls_fs w') = files (tls_fs w) /\ modes w' !! p = Some 384%N
    | Err _ => True end) w.
Proof.
  unfold chmod_600. apply wp_bind. apply wp_on_fs; [|done]. intros fs a m [= <- <-] Hfs. unfold wp; cbn [fst snd tls_fs modes].
  split; [done|]. apply lookup_insert_eq.
Qed.

Lemma on_rcgen_keeps {A} (m : M G string A) w : wp (on_rcgen m) (fun r w' => tls_fs w' = tls_fs w /\ modes w' = modes w) w.
Proof. unfold on_rcgen. by apply wp_zoom, wp_map_err. Qed.

Definition pair_on_disk (w : TlsWorld G) (r : result CoreError (bytes * bytes)) (w' : TlsWorld G) : Prop :=
  forall c k, r = Ok (c, k) -> files (tls_fs w') !! ca_pem = Some c /\ files (tls_fs w') !! ca_key = Some k /\
    (files (tls_fs w') = files (tls_fs w) \/ modes w' !! ca_key = Some 384%N).

Lemma read_pair_post w0 w : files (tls_fs w) = files (tls_fs w0) -> wp read_pair (pair_on_disk w0) w.
Proof.
  intros Hw. unfold read_pair. wp_call (file_read_keeps ca_pem). intros [c|e] w1 (Hf1 & _ & Hc); [|by intros ? ?].
  wp_call (file_read_keeps ca_key). intros [k|e] w2 (Hf2 & _ & Hk); [|by intros ? ?].
  apply wp_ret. intros ? ? [= <- <-]. rewrite Hf2, Hf1, Hw. split_and!; [|rewrite <- Hw, <- Hf1; by apply Hk|by left].
  rewrite <- Hw. by apply Hc.
Qed.

Lemma make_pair_post w0 w : wp make_pair (pair_on_disk w0) w.
Proof.
  unfold make_pair. apply wp_bind, wp_on_fs; [|by intros ? ? ? ? ? ?]. intros fs0 [] m0 _ _.
  repeat wp_pure. destruct (params_new ["rollout-dev-ca"]) as [ps|e]; [|by intros ? ?].
  wp_call @on_rcgen_keeps. intros [kp|e] w1 _; [|by intros ? ?].
  wp_call @on_rcgen_keeps. intros [cert|e] w2 _; [|by intros ? ?].
  wp_call file_write_spec. intros [[]|e] w3 Hw3; [|by intros ? ?].
  wp_call file_write_spec. intros [[]|e] w4 Hw4; [|by intros ? ?].
  wp_call chmod_spec. intros [[]|e] w5 Hw5; [|by intros ? ?]. destruct Hw5 as [Hw5 Hmode].
  apply wp_ret. intros c k [= <- <-]. rewrite Hw5, Hw4.
  split_and!; [rewrite lookup_insert_ne by apply ca_key_not_pem; by rewrite Hw3, lookup_insert_eq|by rewrite lookup_insert_eq|by right].
Qed.

Lemma ensure_dev_ca_post w : wp ensure_dev_ca (pair_on_disk w) w.
Proof.
  unfold ensure_dev_ca. wp_call path_exists_keeps. intros [b|e] w1 (Hf1 & _ & _); [|done].
  apply wp_bind. destruct b.
  - eapply wp_mono; [apply path_exists_keeps|]. intros [b|e] w2 (Hf2 & _ & _); [|done].
    destruct b; [apply read_pair_post; congruence|apply make_pair_post].
  - apply wp_ret. apply make_pair_post.
Qed.

Lemma ensure_existing c k w : files (tls_fs w) !! ca_pem = Some c -> files (tls_fs w) !! ca_key = Some k ->
  fs_faults (tls_fs w) = [] -> ensure_dev_ca w = (Ok (c, k), w).
Proof.
  destruct w as [[m fa] md g]. cbn [tls_fs files fs_faults]. intros Hc Hk ->.
  unfold ensure_dev_ca, read_pair, path_exists, file_read, try_exists, mbind_, mcatch, on_fs, zoom, io, next_fault.
  cbn [tls_fs files fs_faults]. rewrite Hc. cbn. rewrite Hk. cbn. rewrite Hc. cbn. rewrite Hk. done.
Qed.

(** The pair of PEM texts [ensure_dev_ca] answers is the pair on the disk,
    whether it was there or was just made (the key then readable by its owner
    alone), so every process that looks at the directory later is given the same
    authority: a later call over a disk that still holds the two files and does not
    fail answers the same pair and writes nothing. *)
Theorem dev_ca_is_stable w c k w1 w2
    (Hrun : ensure_dev_ca w = (Ok (c, k), w1))
    (Hcert : files (tls_fs w2) !! ca_pem = files (tls_fs w1) !! ca_pem)
    (Hkey : files (tls_fs w2) !! ca_key = files (tls_fs w1) !! ca_key)
    (Hdisk : fs_faults (tls_fs w2) = []) :
  files (tls_fs w1) !! ca_pem = Some c /\ files (tls_fs w1) !! ca_key = Some k /\
  (files (tls_fs w1) = files (tls_fs w) \/ modes w1 !! ca_key = Some 384%N) /\
  ensure_dev_ca w2 = (Ok (c, k), w2).
Proof.
  destruct (wp_elim _ _ _ _ _ (ensure_dev_ca_post w) Hrun c k eq_refl) as (Hc & Hk & Hm).
  split_and!; [done..|]. rewrite Hc in Hcert. rewrite Hk in Hkey. by apply ensure_existing.
Qed.
End tls.

Section tls_examples.
(** A library that numbers its keys. *)
#[local] Instance counting_rcgen : Rcgen nat := {|
  KeyPair := nat;
  Cert := nat;
  params_new names := Ok (mkCertParams names false [] [] []);
  generate_key := fun n => (Ok n, S n);
  key_from_pem s := if decide (s = "") then Err "empty" else Ok 0;
  params_from_pem _ := Ok (mkCertParams [] true [] [] []);
  self_signed _ k := mret k;
  signed_by _ k _ _ := mret k;
  cert_pem n := "cert " +:+ pretty n;
  key_pem n := "key " +:+ pretty n;
|}.
#[local] Abbreviation tls_dir := ["tls"].
#[local] Abbreviation ca := (ensure_dev_ca tls_dir 420).
Definition empty_tls (faults : list (option (string * bytes))) : TlsWorld nat := mkTls (mkFs ∅ faults) ∅ 0.

Lemma dev_ca_is_stable_witness :
  let w1 := (ca (empty_tls [])).2 in
  (ca (empty_tls [])).1 = Ok (bytes_of "cert 0", bytes_of "key 0") /\ ca w1 = (Ok (bytes_of "cert 0", bytes_of "key 0"), w1).
Proof.
  intros w1. assert (ca (empty_tls []) = (Ok (bytes_of "cert 0", bytes_of "key 0"), w1)) as Hrun by (vm_compute; reflexivity).
  split; [by rewrite Hrun|].
  by destruct (dev_ca_is_stable tls_dir 420 (empty_tls []) _ _ w1 w1 Hrun eq_refl eq_refl ltac:(vm_compute; reflexivity))
    as (_ & _ & _ & H).
Defined.

(** A key whose write failed half way is kept: every later start loads the piece. *)
Example torn_key_is_kept :
  let w1 := (ca (empty_tls [None; None; None; Some ("disk full", bytes_of "ke")])).2 in
  (ca (empty_tls [None; None; None; Some ("disk full", bytes_of "ke")])).1 = Err (tls_io "disk full") /\
  (ca w1).1 = Ok (bytes_of "cert 0", bytes_of "ke").
Proof. vm_compute. done. Qed.

(** Two processes that both found the directory empty each make an authority; the
    one that writes first keeps in memory a pair nobody else will load. *)
Example concurrent_bootstrap :
  let first := make_pair tls_dir 420 (empty_tls []) in
  let second := make_pair tls_dir 420 first.2 in
  first.1 <> second.1 /\ (ca second.2).1 = second.1.
Proof. vm_compute. done. Qed.
End tls_examples.
