(* ===== verification/Wiring.v ===== *)
(** How worker and coordinator are joined (rollout-transport/src/server.rs and client.rs,
    over the certificates of tls.rs): the server that is set up, the channel that is
    built, and who gets through the handshake.

    tonic, rustls and rcgen are not in the repository.  What the code configures is data
    here; whether the libraries take it, how serving ends and which handshakes succeed
    are parameters, with what X.509 and mutual TLS promise as laws. *)
From stdpp Require Import base option list gmap strings.
From S2P Require Import Prelude.
From S2P Require Import Text.
From S2P Require Import Core.
From S2P Require Import ObjectStore.
From S2P Require Import Transport.

(** ** What is configured *)
Record Identity : Type := mkIdentity { id_cert : bytes; id_key : bytes }.
Record ServerTlsConfig : Type := mkServerTls { server_identity : Identity; client_ca_root : bytes }.
Record ClientTlsConfig : Type := mkClientTls { domain_name : string; ca_certificate : bytes; client_identity : Identity }.
Inductive Service : Type := HeartbeatServer | ControlServer | WorkServer.
Record ServerSetup : Type := mkServer { server_tls : option ServerTlsConfig; services : list Service; listen : string }.
(** A channel connects when it is first used. *)
Record Channel : Type := mkChannel { uri : string; channel_tls : option ClientTlsConfig }.

(** The libraries: their checks of a configuration, how serving ends, whether a name in
    a certificate stands for the name a client asks for, and whether a leaf certificate
    is accepted under a root for a purpose and a name. *)
Class Tonic : Type := {
  tls_config : ServerTlsConfig -> result string unit;
  serve_ends : ServerSetup -> result string unit;
  from_shared : string -> result string unit;
  client_tls_config : ClientTlsConfig -> result string unit;
  names_match : string -> string -> Prop;
  verifies : bytes -> bytes -> ExtendedKeyUsage -> option string -> Prop;
  connects : ServerSetup -> Channel -> Prop;
}.

Section wiring.
Context {TN : Tonic}.

(** *** server.rs *)
Definition server_internal (e : string) : CoreError := internal ("transport server: " +:+ e).
Definition all_services : list Service := [HeartbeatServer; ControlServer; WorkServer].

(** [serve], up to the listener and with it. *)
Definition server_setup (addr : string) (cert key client_ca : bytes) : result CoreError ServerSetup :=
  let tls := mkServerTls (mkIdentity cert key) client_ca in
  match tls_config tls with
  | Ok _ => Ok (mkServer (Some tls) all_services addr)
  | Err e => Err (server_internal e)
  end.
Definition run_server (s : ServerSetup) : result CoreError unit :=
  match serve_ends s with Ok _ => Ok tt | Err e => Err (server_internal e) end.
Definition serve (addr : string) (cert key client_ca : bytes) : result CoreError unit :=
  let? s := server_setup addr cert key client_ca in run_server s.
Definition serve_plaintext (addr : string) : result CoreError unit := run_server (mkServer None all_services addr).
Definition serve_quic (addr : string) (cert key client_ca : bytes) : result CoreError unit :=
  Err (internal "EXPERIMENTAL: tonic-h3 0.0.5 lacks documented bidi-streaming; re-evaluate at Phase 6").

(** *** client.rs *)
Definition client_internal (e : string) : CoreError := internal ("transport client: " +:+ e).
Definition from_endpoint (addr : string) : result CoreError unit :=
  match from_shared addr with Ok _ => Ok tt | Err e => Err (client_internal e) end.
Definition build_mtls_channel (addr domain : string) (ca_pem cert key : bytes) : result CoreError Channel :=
  let tls := mkClientTls domain ca_pem (mkIdentity cert key) in
  let? _ := from_endpoint addr in
  match client_tls_config tls with
  | Ok _ => Ok (mkChannel addr (Some tls))
  | Err e => Err (client_internal e)
  end.
Definition build_plaintext_channel (addr : string) : result CoreError Channel :=
  let? _ := from_endpoint addr in Ok (mkChannel addr None).
End wiring.

(** ** Certificates: what rcgen writes and webpki accepts *)
Section certificates.
Context {G : Type} {RG : Rcgen G}.

(** A self-signed authority with this key and subject. *)
Definition root_of (c : Cert) (k : KeyPair) (subject : list string) : Prop :=
  exists p g g', self_signed p k g = (Ok c, g') /\ is_ca p = true /\ KeyCertSign ∈ key_usages p /\ common_names p = subject.
(** A certificate signed with this key, in the name of this subject. *)
Definition leaf_of (c : Cert) (p : CertificateParams) (k : KeyPair) (subject : list string) : Prop :=
  exists p' issuer kp g g' h h', self_signed p' k g = (Ok issuer, g') /\ common_names p' = subject /\
    signed_by p kp issuer k h = (Ok c, h').
End certificates.

Class CertLaws (G : Type) {RG : Rcgen G} {TN : Tonic} : Prop := {
  (** PEM is text, and a key or an authority's certificate is read back. *)
  cert_pem_text c : from_utf8 (bytes_of (cert_pem c)) = Ok (cert_pem c);
  key_pem_text k : from_utf8 (bytes_of (key_pem k)) = Ok (key_pem k);
  key_round_trip k : key_from_pem (key_pem k) = Ok k;
  subject_round_trip c k s p : root_of c k s -> params_from_pem (cert_pem c) = Ok p -> common_names p = s;
  params_names names p : params_new names = Ok p -> alt_names p = names;
  (** A chain of one: the leaf's signature is checked with the root's key and its issuer
      with the root's subject, and it must be meant for the purpose and hold a name that
      stands for the one asked for. *)
  verifies_law r k s c p k' s' use name : root_of r k s -> leaf_of c p k' s' ->
    (verifies (bytes_of (cert_pem r)) (bytes_of (cert_pem c)) use name <->
     k' = k /\ s' = s /\ use ∈ extended_key_usages p /\ match name with Some n => Exists (fun a => names_match a n) (alt_names p) | None => True end);
  (** Names are compared without regard to the case of ASCII letters; the names the
      coordinator serves under stand for themselves.  Nothing else is said of the
      comparison (a trailing dot, say). *)
  match_case a n n' : names_match a n -> to_ascii_lowercase n = to_ascii_lowercase n' -> names_match a n';
  match_self a : a ∈ ["localhost"; "127.0.0.1"] -> names_match a a;
  (** Mutual TLS: each side shows its certificate and checks the other's. *)
  mtls_law s ch st ct : server_tls s = Some st -> channel_tls ch = Some ct ->
    (connects s ch <-> verifies (ca_certificate ct) (id_cert (server_identity st)) ServerAuth (Some (domain_name ct)) /\
                       verifies (client_ca_root st) (id_cert (client_identity ct)) ClientAuth None);
}.

Section handshake.
Context {G : Type} {RG : Rcgen G} {TN : Tonic} {CE : CertLaws G} (dir : fspath) (default_mode : N).

(** The subject every development authority gets. *)
Definition dev_subject : list string :=
  match params_new ["rollout-dev-ca"] with Ok p => common_names p ++ ["rollout-dev-ca"] | Err _ => [] end.
(** A pair of PEM texts that is an authority's certificate and its key. *)
Definition authority (c k : bytes) (kp : KeyPair) : Prop :=
  exists cert, c = bytes_of (cert_pem cert) /\ k = bytes_of (key_pem kp) /\ root_of cert kp dev_subject.
(** The directory holds no pair, or one that [ensure_dev_ca] wrote whole. *)
Definition holds_authority (w : TlsWorld G) : Prop := forall c k,
  files (tls_fs w) !! ca_pem dir = Some c -> files (tls_fs w) !! ca_key dir = Some k -> exists kp, authority c k kp.

Lemma bytes_of_inj s s' : bytes_of s = bytes_of s' -> s = s'.
Proof. intros E. by rewrite <- (String.string_of_list_byte_of_string s), <- (String.string_of_list_byte_of_string s'), E. Qed.

Lemma authority_key c k c' k' kp kp' : authority c k kp -> authority c' k' kp' -> k = k' <-> kp = kp'.
Proof.
  intros (_ & _ & -> & _) (_ & _ & -> & _). split; [|by intros ->]. intros E%bytes_of_inj.
  pose proof (key_round_trip kp) as H. rewrite E, key_round_trip in H. by injection H.
Qed.

Lemma on_rcgen_result {A} (m : M G string A) w : wp (on_rcgen m) (fun r w' =>
  tls_fs w' = tls_fs w /\ forall a, r = Ok a -> exists g g', m g = (Ok a, g')) w.
Proof.
  unfold on_rcgen. apply wp_zoom, wp_map_err. unfold wp. destruct (m (rcgen w)) as [[a|e] g] eqn:E; [|done].
  split; [done|]. intros a' [= <-]. by exists (rcgen w), g.
Qed.

Lemma make_pair_authority w : wp (make_pair dir default_mode) (fun r _ =>
  forall c k, r = Ok (c, k) -> exists kp, authority c k kp) w.
Proof.
  unfold make_pair. apply wp_bind, wp_on_fs; [|by intros ? ? ? ? ? ?]. intros fs0 [] m0 _ _. repeat wp_pure.
  destruct (params_new ["rollout-dev-ca"]) as [ps|e] eqn:Eps; [|done].
  wp_call @on_rcgen_result. intros [kp|e] w1 _; [|done].
  wp_call @on_rcgen_result. intros [cert|e] w2 [_ Hcert]; [|done]. destruct (Hcert cert eq_refl) as (g & g' & Hc).
  wp_call (file_write_spec (G := G) default_mode). intros [[]|e] w3 _; [|done].
  wp_call (file_write_spec (G := G) default_mode). intros [[]|e] w4 _; [|done].
  wp_call (chmod_spec (G := G)). intros [[]|e] w5 _; [|done]. apply wp_ret. intros c k [= <- <-].
  exists kp, cert. split_and!; [done..|]. eexists _, g, g'. split_and!; [exact Hc|done|by left|].
  unfold dev_subject. by rewrite Eps.
Qed.

Lemma ensure_authority_pair w : holds_authority w ->
  wp (ensure_dev_ca dir default_mode) (fun r _ => forall c k, r = Ok (c, k) -> exists kp, authority c k kp) w.
Proof.
  intros Hw. assert (forall w1, files (tls_fs w1) = files (tls_fs w) ->
    wp (read_pair (G := G) dir) (fun r _ => forall c k, r = Ok (c, k) -> exists kp, authority c k kp) w1) as Hread.
  { intros w1 Hf. unfold read_pair. wp_call (file_read_keeps (G := G) (ca_pem dir)). intros [c|e] w2 (Hf2 & _ & Hc); [|done].
    wp_call (file_read_keeps (G := G) (ca_key dir)). intros [k|e] w3 (_ & _ & Hk); [|done]. apply wp_ret.
    intros ? ? [= <- <-]. apply Hw; rewrite <- Hf; [by apply Hc|rewrite <- Hf2; by apply Hk]. }
  unfold ensure_dev_ca. wp_call (path_exists_keeps (G := G)). intros [b|e] w1 (Hf1 & _ & _); [|done].
  apply wp_bind. destruct b; [|apply wp_ret, make_pair_authority].
  eapply wp_mono; [apply (path_exists_keeps (G := G))|]. intros [b|e] w2 (Hf2 & _ & _); [|done].
  destruct b; [apply Hread; congruence|apply make_pair_authority].
Qed.

(** What [ensure_dev_ca] answers is an authority, new or old, and is what is on the disk. *)
Lemma ensure_authority w : holds_authority w ->
  wp (ensure_dev_ca dir default_mode) (fun r w' => forall ca, r = Ok ca ->
    files (tls_fs w') !! ca_key dir = Some ca.2 /\ exists kp, authority ca.1 ca.2 kp) w.
Proof.
  intros Hw. pose proof (ensure_authority_pair w Hw) as H1. pose proof (ensure_dev_ca_post dir default_mode w) as H2.
  unfold wp in *. intros [c k] Hr. split; [by apply (H2 c k)|by apply H1].
Qed.

(** What an authority issues: a leaf in its name, for the names and one purpose. *)
Definition issued (kp : KeyPair) (names : list string) (purpose : ExtendedKeyUsage) (leaf : bytes) : Prop :=
  exists cert p, leaf = bytes_of (cert_pem cert) /\ leaf_of cert p kp dev_subject /\ alt_names p = names /\
    extended_key_usages p = [purpose].
Lemma issue_leaf c k kp names is_client w : authority c k kp ->
  wp (issue_cert c k names is_client) (fun r w' => forall id, r = Ok id -> tls_fs w' = tls_fs w /\
    issued kp names (if is_client then ClientAuth else ServerAuth) id.1) w.
Proof.
  intros (root & -> & -> & Hroot). unfold issue_cert. rewrite cert_pem_text, key_pem_text. repeat wp_pure.
  rewrite key_round_trip. repeat wp_pure. destruct (params_from_pem (cert_pem root)) as [ps|e] eqn:Eps; [|done].
  wp_call @on_rcgen_result. intros [issuer|e] w1 [Hf1 Hi]; [|done]. destruct (Hi issuer eq_refl) as (g & g' & Hself).
  repeat wp_pure. destruct (params_new names) as [np|e] eqn:Enp; [|done].
  wp_call @on_rcgen_result. intros [nk|e] w2 [Hf2 _]; [|done].
  wp_call @on_rcgen_result. intros [cert|e] w3 [Hf3 Hc]; [|done]. destruct (Hc cert eq_refl) as (h & h' & Hsigned).
  apply wp_ret. intros id [= <-]. split; [congruence|]. eexists cert, _. split_and!; [done| | |].
  - exists ps, issuer, nk, g, g', h, h'. split_and!; [exact Hself| |exact Hsigned]. by eapply subject_round_trip.
  - simpl. by apply params_names.
  - done.
Qed.

(** The handshake of a server and a channel that hold such certificates. *)
Lemma handshake_of c k kp srv c' k' kp' cli names names' s ch addr srv_key uri domain cli_key :
  authority c k kp -> issued kp names ServerAuth srv -> authority c' k' kp' -> issued kp' names' ClientAuth cli ->
  server_setup addr srv srv_key c = Ok s -> build_mtls_channel uri domain c' cli cli_key = Ok ch ->
  connects s ch <-> k = k' /\ Exists (fun a => names_match a domain) names.
Proof.
  intros Ha Hs Ha' Hc Hsetup Hchan. pose proof (authority_key _ _ _ _ _ _ Ha Ha') as Hkey.
  destruct Ha as (root & -> & -> & Hroot), Ha' as (root' & -> & -> & Hroot').
  destruct Hs as (sc & sp & -> & Hleaf & Hnames & Huse), Hc as (cc & cp & -> & Hleaf' & _ & Huse').
  unfold server_setup in Hsetup. destruct (tls_config _); simplify_eq.
  unfold build_mtls_channel, from_endpoint in Hchan. destruct (from_shared uri); [|done]. simpl in Hchan.
  destruct (client_tls_config _); simplify_eq. rewrite mtls_law by done. simpl.
  rewrite (verifies_law _ _ _ _ _ _ _ _ _ Hroot' Hleaf), (verifies_law _ _ _ _ _ _ _ _ _ Hroot Hleaf').
  rewrite Hkey, Huse, Huse'. split; [intros [(-> & _ & _ & Hn) _]; done|].
  intros [-> Hn]. split_and!; try done; by left.
Qed.
End handshake.
