(* ===== verification/CoordRun.v ===== *)
(** The coordinator process (rollout-coordinator/src/run.rs [load_config] and [run],
    main.rs): its configuration, the boot sequence, and its life as the events it
    handles: heartbeats of the wire, ticks of the failure scan and of the lease
    renewal, the signal and the end of the server. *)
From stdpp Require Import base option list gmap strings pretty.
From S2P Require Import Prelude.
From S2P Require Import Text.
From S2P Require Import Core.
From S2P Require Import Storage.
From S2P Require Import Lease.
From S2P Require Import WorkItem.
From S2P Require Import Events.
From S2P Require Import ObjectStore.
From S2P Require Import Replay.
From S2P Require Import Workers.
From S2P Require Import Transport.
From S2P Require Import Wiring.
#[local] Open Scope nat_scope.

(** ** Configuration *)
Record CoordinatorConfig : Type := mkCoordConfig {
  cc_run_id : string; cc_storage : string; cc_listen : string; cc_tls_dir : fspath; cc_transport : TransportConfig;
}.

(** [{:?}] of a list of strings. *)
Definition strings_debug (l : list string) : string :=
  "[" +:+ match l with
          | [] => ""
          | s :: l' => str_debug s +:+ foldr (fun s acc => ", " +:+ str_debug s +:+ acc) "" l'
          end +:+ "]".

Definition invalid_config (msg : string) : CoreError := Fatal (ConfigInvalid msg).

(** [load_config]; [read] is what reading the file gives, [toml] the parser. *)
Definition load_config (toml : string -> result string CoordinatorConfig) (path : string) (read : result string string)
  : result CoreError CoordinatorConfig :=
  let? raw := match read with
              | Ok s => Ok s
              | Err e => Err (internal ("read coordinator config " +:+ path +:+ ": " +:+ e))
              end in
  let? cfg := match toml raw with
              | Ok c => Ok c
              | Err e => Err (internal ("parse coordinator config: " +:+ e))
              end in
  match validate (cc_transport cfg) with
  | Ok _ => Ok cfg
  | Err errs => Err (invalid_config ("coordinator config invalid: " +:+ strings_debug errs))
  end.

Section boot.
Context {W T : Type} {ST : Storage W T} {UT : UlidText}.
Context {LC : Codec LeaseRecord} {EC : Codec CoordEpoch} {WC : Codec WorkItemRecord} {G : Type} {RG : Rcgen G}.
Context (ulid_error : string -> string) (parent_of : string -> option string) (default_mode : N).

(** ** The boot sequence of [run] *)

(** What the process holds while it boots: its storage once it is open, the disk
    of the certificates, and what it wrote to standard error. *)
Record Boot : Type := mkBoot { bt_store : option W; bt_tls : TlsWorld G; bt_stderr : list string }.

Definition on_tls {A} (m : M (TlsWorld G) CoreError A) : M Boot CoreError A :=
  zoom bt_tls (fun t b => mkBoot (bt_store b) t (bt_stderr b)) m.
Definition eprintln (line : string) : M Boot CoreError unit := fun b =>
  (Ok tt, mkBoot (bt_store b) (bt_tls b) (bt_stderr b ++ [line])).
Definition opened (w : W) : M Boot CoreError unit := fun b =>
  (Ok tt, mkBoot (Some w) (bt_tls b) (bt_stderr b)).

(** What serving starts from. *)
Record Ready_to_serve : Type := mkReady {
  srv_run : RunId; srv_me : WorkerId; replayed : ReplayState; srv_cert : bytes * bytes; client_ca : bytes;
}.

(** [run] up to the point where it serves: [None] is the loser's clean exit.
    [mkdir] and [open] are what making the directory and opening the file give,
    [me] the fresh identifier, [now_ms] the clock of the claim. *)
Definition run_boot (cfg : CoordinatorConfig) (mkdir : result string unit) (open : result CoreError W)
    (me : WorkerId) (now_ms : N) : M Boot CoreError (option Ready_to_serve) :=
  let* run_id := mlift (match ulid_parse (cc_run_id cfg) with
                        | Some u => Ok u
                        | None => Err (invalid_config ("run_id is not a valid ULID: " +:+ ulid_error (cc_run_id cfg)))
                        end) in
  let* _ := mlift (match parent_of (cc_storage cfg) with
                   | Some parent =>
                       if decide (parent = "") then Ok tt
                       else match mkdir with
                            | Ok _ => Ok tt
                            | Err e => Err (internal ("create storage dir " +:+ parent +:+ ": " +:+ e))
                            end
                   | None => Ok tt
                   end) in
  let* w := mlift open in
  let '(r, w') := replay_and_serve run_id me now_ms (lease_ttl (cc_transport cfg) / 1000000)%N w in
  let* _ := opened w' in
  let* replayed := mlift r in
  match replayed with
  | None =>
      let* _ := eprintln "another coordinator holds the lease; exiting cleanly (spec 05 §8 loser exits)" in
      mret None
  | Some st =>
      let* existed := on_tls (path_exists (ca_pem (cc_tls_dir cfg))) in
      let* ca := on_tls (ensure_dev_ca (cc_tls_dir cfg) default_mode) in
      let* _ := (if existed : bool then mret tt
                 else eprintln ("Generated dev CA at " +:+ String.concat "/" (ca_pem (cc_tls_dir cfg)))) in
      let* srv := on_tls (issue_server_cert ca.1 ca.2 ["localhost"; "127.0.0.1"]) in
      mret (Some (mkReady run_id me st srv ca.1))
  end.

(** The listener [run] serves on once it has booted. *)
Definition run_serves {TN : Tonic} (cfg : CoordinatorConfig) (r : Ready_to_serve) : result CoreError ServerSetup :=
  server_setup (cc_listen cfg) (srv_cert r).1 (srv_cert r).2 (client_ca r).

(** A claim is made only by a process that found its configuration and its storage
    in order; the loser has written nothing and is told so, and nothing of the
    certificates is touched before the lease is won. *)
Lemma run_boot_loses cfg mkdir open me now_ms b run w w' :
  ulid_parse (cc_run_id cfg) = Some run -> open = Ok w ->
  (match parent_of (cc_storage cfg) with Some parent => parent = "" \/ mkdir = Ok tt | None => True end) ->
  replay_and_serve run me now_ms (lease_ttl (cc_transport cfg) / 1000000)%N w = (Ok None, w') ->
  run_boot cfg mkdir open me now_ms b =
    (Ok None, mkBoot (Some w') (bt_tls b)
       (bt_stderr b ++ ["another coordinator holds the lease; exiting cleanly (spec 05 §8 loser exits)"])).
Proof.
  intros Hrun -> Hdir Hreplay. unfold run_boot, mbind_, mlift. rewrite Hrun.
  assert ((match parent_of (cc_storage cfg) with
           | Some parent => if decide (parent = "") then Ok tt
               else match mkdir with
                    | Ok _ => Ok tt
                    | Err e => Err (internal ("create storage dir " +:+ parent +:+ ": " +:+ e))
                    end
           | None => Ok tt
           end : result CoreError unit) = Ok tt) as ->.
  { destruct (parent_of (cc_storage cfg)) as [parent|]; [|done]. case_decide; [done|].
    destruct Hdir as [?| ->]; done. }
  by rewrite Hreplay.
Qed.

End boot.

(** ** Serving *)
Section coordinator.
Context {W T : Type} {ST : Storage W T} {SL : StorageLaws W T} {UT : UlidText}.
Context {LC : Codec LeaseRecord} {EC : Codec CoordEpoch} {RC : Codec WorkerRegistryEntry} {HC : Codec HeartbeatRecord}.
Context {E : Type} {EM : Emitter E} {EL : EmitterLaws E} (ulid_error : string -> string).
Abbreviation world := (Workers.World (W:=W) (E:=E)).
Abbreviation rows w := (contents (c_store w)).

(** The parts of the running process: the store and the emitters, the failure
    scan's memory and whether its task runs, and the fencing events. *)
Record Serving : Type := mkServing {
  sv_world : world; already_failed : gset string; scan_running : bool; sv_fenced : list FenceEvent;
}.

Inductive CoordState : Type := Serves (s : Serving) | CoordAborted (s : Serving) | CoordExited (s : Serving) (r : result CoreError unit).
Definition held_by (st : CoordState) : Serving :=
  match st with Serves s | CoordAborted s | CoordExited s _ => s end.

(** What happens to it; the clock is read at each. *)
Inductive CoordEvent : Type :=
| BeatArrives (now : SystemTime) (now_ms : N) (r : BeatRequest)
| ScanTick (now : SystemTime)
| RenewTick (now_ms : N)
| Sigterm
| ServeEnds (r : result CoreError unit).

Section serving.
Context (run_id : RunId) (me : WorkerId) (start_epoch : CoordEpoch) (timing : TransportConfig).
(** What handing the fencing event to the emitter answers. *)
Context (fence_emit : FenceEvent -> result CoreError unit).

(** One tick of the scan's task: an error is logged, a panic ends the task. *)
Definition scan_tick (now : SystemTime) (s : Serving) : Serving :=
  if scan_running s then
    match scan_once now (clock_skew_budget timing) (coordinator_failure_timeout timing) (already_failed s) (sv_world s) with
    | (Ok already, w) => mkServing w already true (sv_fenced s)
    | (Err (Returned _), w) => mkServing w (already_failed s) true (sv_fenced s)
    | (Err (Panicked _), w) => mkServing w (already_failed s) false (sv_fenced s)
    end
  else s.

(** One tick of the renewal: a fenced coordinator emits one event and aborts. *)
Definition renewal (now_ms : N) (s : Serving) : CoordState :=
  match on_store (renew_tick run_id me start_epoch now_ms (lease_ttl timing / 1000000)%N) (sv_world s) with
  | (Ok (FencedAt stale observed), w) =>
      let '(decision, events) := fence_old_coordinator fence_emit me run_id stale observed in
      match decision with
      | FenceAbort => CoordAborted (mkServing w (already_failed s) (scan_running s) (sv_fenced s ++ events))
      end
  | (_, w) => Serves (mkServing w (already_failed s) (scan_running s) (sv_fenced s))
  end.

(** The signal handler only tells the scan to stop. *)
Definition coord_step (st : CoordState) (ev : CoordEvent) : CoordState :=
  match st with
  | Serves s =>
      match ev with
      | BeatArrives now now_ms r =>
          Serves (mkServing (beat ulid_error run_id now now_ms r (sv_world s)).2 (already_failed s) (scan_running s) (sv_fenced s))
      | ScanTick now => Serves (scan_tick now s)
      | RenewTick now_ms => renewal now_ms s
      | Sigterm => Serves (mkServing (sv_world s) (already_failed s) false (sv_fenced s))
      | ServeEnds r => CoordExited s r
      end
  | done => done
  end.

Definition coord_run (st : CoordState) (evs : list CoordEvent) : CoordState := foldl coord_step st evs.

(** *** What each event does to the heartbeat rows *)

(** Claims and renewals write the lease and the epoch. *)
Lemma renew_tick_rows now_ms ttl_ms (w : W) :
  wp (renew_tick run_id me start_epoch now_ms ttl_ms) (fun _ w' =>
    forall k, namespace k = "heartbeats" -> contents w' !! k = contents w !! k) w.
Proof.
  unfold renew_tick. wp_call (current_spec run_id). intros [[rec|]|e] w1 (Hc1 & _ & _); [|apply wp_ret; by rewrite Hc1..].
  case_decide; [apply wp_ret; by rewrite Hc1|]. rewrite renew_eq. wp_call commit_claim_spec. unfold claim_post.
  intros r w2 (_ & Hr2).
  assert (forall k, namespace k = "heartbeats" -> contents w2 !! k = contents w !! k) as Hk.
  { intros k Hns. rewrite <- Hc1. destruct r as [[]|e]; [|by destruct Hr2 as [_ ->]..]. destruct Hr2 as [_ ->].
    unfold claimed. rewrite !lookup_insert_ne; [done|intros <-; done..]. }
  destruct r as [[]|e]; [by apply wp_ret| |by apply wp_ret].
  wp_call (current_spec run_id). intros r w3 (Hc3 & _ & _). apply wp_ret. by rewrite Hc3.
Qed.

Lemma due_value d : (d / 1000 < 2 ^ 63)%N -> ms_to_systime d = Value (Z.of_N d * 1000000)%Z.
Proof.
  intros Hd. unfold ms_to_systime. rewrite (bool_decide_eq_true_2 (d / 1000 < 2 ^ 64)%N) by (eapply N.lt_trans; [exact Hd|reflexivity]).
  rewrite bool_decide_eq_false_2 by (by apply N.lt_nge).
  f_equal. pose proof (N.div_mod d 1000 ltac:(done)). lia.
Qed.

(** Over such rows a scan does not panic. *)
Lemma scan_no_panic now skew timeout already w : beats_wf (rows w) ->
  wp (scan_once now skew timeout already) (fun r _ => forall msg, r <> Err (Panicked msg)) w.
Proof.
  intros Hwf. unfold scan_once. apply wp_bind. unfold wp at 1, lift_core, on_store, zoom.
  pose proof (scan_global_law heartbeats_prefix (c_store w)) as Hscan.
  assert (known heartbeats_prefix) as Hk by (unfold known; simpl; set_solver).
  specialize (Hscan Hk eq_refl). unfold wp in Hscan.
  destruct (scan_bytes (mkRange heartbeats_prefix None) (c_store w)) as [[es|e] s]; cbn [fst snd] in *; [|done].
  destruct Hscan as [_ Hes]; [intros k v Hkv Hns; by destruct (Hwf k v Hkv Hns) as (? & ? & -> & _)|]. simpl in Hes.
  eapply wp_mono; [apply (wp_mfold _ (fun _ rest _ => forall row, row ∈ rest -> row ∈ es) (fun e _ => exists c, e = Returned c))|].
  - intros acc [k v] rest w1 Hin. unfold scan_row. cbn [snd].
    assert ((k, v) ∈ es) as Hkv by (apply Hin; left). rewrite Hes in Hkv. apply list_elem_of_filter in Hkv as [Hr Hkv%elem_of_map_to_list].
    unfold in_range in Hr; simpl in Hr. rewrite !andb_true_iff, bool_decide_eq_true in Hr.
    destruct (Hwf k v Hkv) as (worker & rec & _ & -> & _ & Hd); [tauto|]. rewrite decode_encode.
    apply wp_bind, wp_lift. rewrite due_value by done.
    destruct (is_failed _ _ _ _ && _); [|apply wp_ret; intros row Hrow; by apply Hin; right].
    apply wp_bind. unfold warn, wp at 1; cbn [fst snd]. apply wp_bind, wp_catch. unfold wp at 1.
    apply wp_ret. intros row Hrow. by apply Hin; right.
  - done.
  - intros [already'|e] w' Hr msg; [done|]. destruct Hr as [c ->]. done.
Qed.

Definition deadline (rec : HeartbeatRecord) : SystemTime := (Z.of_N (due_at_ms rec) * 1000000)%Z.

(** The worker's row is overdue by more than both budgets. *)
Definition late (s : Serving) (now : SystemTime) (worker : WorkerId) : Prop :=
  exists rec, rows (sv_world s) !! heartbeat_key worker = Some (encode rec) /\
    (deadline rec + Z.of_N (clock_skew_budget timing `max` coordinator_failure_timeout timing) < now)%Z.

Lemma scan_tick_spec now s : beats_wf (rows (sv_world s)) ->
  rows (sv_world (scan_tick now s)) = rows (sv_world s) /\ scan_running (scan_tick now s) = scan_running s /\
  sv_fenced (scan_tick now s) = sv_fenced s /\
  exists new, c_warned (sv_world (scan_tick now s)) = c_warned (sv_world s) ++ new /\
    (new <> [] -> scan_running s = true) /\
    forall id, id ∈ new -> exists worker, id = ulid_string worker /\ late s now worker.
Proof.
  intros Hwf. unfold scan_tick. destruct (scan_running s) eqn:Hrun.
  2:{ split_and!; try done. exists []. rewrite app_nil_r. split_and!; [done..|]. by intros id ?%not_elem_of_nil. }
  set (skew := clock_skew_budget timing). set (timeout := coordinator_failure_timeout timing).
  pose proof (scan_once_rows now skew timeout (already_failed s) (sv_world s)) as Hrows.
  pose proof (scan_no_panic now skew timeout (already_failed s) (sv_world s) Hwf) as Hno.
  pose proof (scan_global_law heartbeats_prefix (c_store (sv_world s))) as Hscan.
  assert (known heartbeats_prefix) as Hk by (unfold known; simpl; set_solver). specialize (Hscan Hk eq_refl).
  unfold wp in Hrows, Hno, Hscan.
  destruct Hscan as [(Hc & _) Hes]; [intros k v Hkv Hns; by destruct (Hwf k v Hkv Hns) as (? & ? & -> & _)|].
  destruct (scan_once now skew timeout (already_failed s) (sv_world s)) as [[already'|[e|msg]] w'];
    cbn [fst snd] in *; [| |by destruct (Hno msg)]; destruct Hrows as [Hst Hr]; rewrite <- Hst in Hc.
  2:{ cbn [sv_world scan_running sv_fenced]. split_and!; try done. exists []. rewrite app_nil_r.
      destruct (fst _); [done|]. destruct Hr as (_ & -> & _). split_and!; [done..|]. by intros id ?%not_elem_of_nil. }
  destruct (fst (scan_bytes _ _)) as [es|e]; [|done]. simpl in Hes. cbn [sv_world scan_running sv_fenced]. split_and!; try done.
  destruct Hr as (_ & new & Hw & _ & Ha & Hdis & Hin & _). exists new. split_and!; [done|done|].
  intros id Hid. destruct (proj1 (Hin id)) as [?|(row & Hrow & rec & due & Hd & Hdue & Hf & Hwk)];
    [rewrite Ha; set_solver|by destruct (Hdis id Hid)|].
  rewrite Hes in Hrow. destruct row as [k v]. apply list_elem_of_filter in Hrow as [Hr Hkv%elem_of_map_to_list].
  unfold in_range in Hr; simpl in Hr. rewrite !andb_true_iff, bool_decide_eq_true in Hr.
  destruct (Hwf k v Hkv) as (worker & rec' & -> & -> & Hname & Hfits); [tauto|]. cbn [snd] in Hd.
  rewrite decode_encode in Hd. injection Hd as <-. exists worker. split; [congruence|]. exists rec'. split; [done|].
  rewrite due_value in Hdue by done. injection Hdue as <-. by apply is_failed_spec in Hf.
Qed.

(** *** The life of the process *)
Definition clock_ok (ev : CoordEvent) : Prop :=
  match ev with BeatArrives now _ _ => in_systime now | _ => True end.
Abbreviation step := coord_step.
Abbreviation run := coord_run.

Lemma renewal_rows now_ms s :
  let s' := held_by (renewal now_ms s) in
  (forall k, namespace k = "heartbeats" -> rows (sv_world s') !! k = rows (sv_world s) !! k) /\
  c_warned (sv_world s') = c_warned (sv_world s) /\ scan_running s' = scan_running s.
Proof.
  unfold renewal, on_store, zoom.
  pose proof (renew_tick_rows now_ms (lease_ttl timing / 1000000)%N (c_store (sv_world s))) as Hr. unfold wp in Hr.
  by destruct (renew_tick _ _ _ _ _ _) as [[[|stale observed]|e] w].
Qed.

Lemma beats_wf_same (m m' : store) : (forall k, namespace k = "heartbeats" -> m' !! k = m !! k) -> beats_wf m -> beats_wf m'.
Proof. intros Hs Hm k v Hk Hns. rewrite Hs in Hk by done. by apply Hm. Qed.

(** One event keeps the rows in order; only a tick of the running scan reports. *)
Lemma coord_step_spec st ev : beats_wf (rows (sv_world (held_by st))) -> clock_ok ev ->
  beats_wf (rows (sv_world (held_by (step st ev)))) /\
  exists new, c_warned (sv_world (held_by (step st ev))) = c_warned (sv_world (held_by st)) ++ new /\
    forall id, id ∈ new -> exists s now worker, st = Serves s /\ ev = ScanTick now /\ scan_running s = true /\
      id = ulid_string worker /\ late s now worker.
Proof.
  intros Hwf Hclock. assert (forall w' : world, c_warned w' = c_warned (sv_world (held_by st)) ->
    exists new, c_warned w' = c_warned (sv_world (held_by st)) ++ new /\
      forall id, id ∈ new -> exists s now worker, st = Serves s /\ ev = ScanTick now /\ scan_running s = true /\
        id = ulid_string worker /\ late s now worker) as Hnone.
  { intros w' ->. exists []. rewrite app_nil_r. split; [done|]. by intros id ?%not_elem_of_nil. }
  destruct st as [s|s|s r]; [|by split; [|apply Hnone]..].
  destruct ev as [now now_ms r|now|now_ms| |r]; simpl in *; [| | |by split; [|apply Hnone]..].
  - pose proof (beat_keeps_wf ulid_error run_id now now_ms r (sv_world s) Hclock Hwf) as [Hw Hb].
    split; [done|]. by apply Hnone.
  - destruct (scan_tick_spec now s Hwf) as (Hr & _ & _ & new & Hw & Hrun & Hnew). split; [by rewrite Hr|].
    exists new. split; [done|]. intros id Hid. destruct (Hnew id Hid) as (worker & -> & Hl).
    exists s, now, worker. split_and!; try done. apply Hrun. by intros ->; apply not_elem_of_nil in Hid.
  - destruct (renewal_rows now_ms s) as (Hr & Hw & _). split; [by eapply beats_wf_same|]. by apply Hnone.
Qed.

Lemma run_wf s0 evs : beats_wf (rows (sv_world s0)) -> Forall clock_ok evs ->
  beats_wf (rows (sv_world (held_by (run (Serves s0) evs)))).
Proof.
  intros Hwf. induction evs as [|ev evs IH] using rev_ind; [done|].
  intros [Hcs [Hc _]%Forall_cons]%Forall_app. unfold run, coord_run. rewrite foldl_app.
  apply (coord_step_spec _ ev); [by apply IH|done].
Qed.

Lemma reported_late s0 evs id
    (Hwf : beats_wf (rows (sv_world s0))) (Hclock : Forall clock_ok evs)
    (Hid : id ∈ c_warned (sv_world (held_by (run (Serves s0) evs)))) :
  id ∈ c_warned (sv_world s0) \/
  exists before now after s worker, evs = before ++ ScanTick now :: after /\ run (Serves s0) before = Serves s /\
    scan_running s = true /\ id = ulid_string worker /\ late s now worker.
Proof.
  assert (beats_wf (rows (sv_world (held_by (run (Serves s0) evs)))) /\
    (id ∈ c_warned (sv_world s0) \/
     exists before now after s worker, evs = before ++ ScanTick now :: after /\ run (Serves s0) before = Serves s /\
       scan_running s = true /\ id = ulid_string worker /\ late s now worker)) as [_ H]; [|done].
  revert Hclock Hid. induction evs as [|ev evs IH] using rev_ind; [by split; [|left]|].
  intros [Hcs [Hc _]%Forall_cons]%Forall_app. unfold run, coord_run. rewrite foldl_app. simpl. intros Hid.
  pose proof (run_wf s0 evs Hwf Hcs) as Hwf'.
  destruct (coord_step_spec _ ev Hwf' Hc) as (Hwf2 & new & Hw & Hnew). split; [done|].
  unfold run, coord_run in Hw, Hnew. rewrite Hw in Hid. apply elem_of_app in Hid as [Hid|Hid].
  - destruct (IH Hcs Hid) as [_ [?|(before & now & after & s & worker & -> & ?)]]; [by left|right].
    exists before, now, (after ++ [ev]), s, worker. by rewrite <- app_assoc.
  - right. destruct (Hnew id Hid) as (s & now & worker & Hs & -> & ?). exists evs, now, [], s, worker. done.
Qed.

(** Nothing but the signal stops the scan. *)
Lemma run_scan_running s0 evs : beats_wf (rows (sv_world s0)) -> Forall clock_ok evs -> Sigterm ∉ evs ->
  scan_running (held_by (run (Serves s0) evs)) = scan_running s0.
Proof.
  intros Hwf. induction evs as [|ev evs IH] using rev_ind; [done|].
  intros [Hcs [Hc _]%Forall_cons]%Forall_app Hsig. pose proof (run_wf s0 evs Hwf Hcs) as Hwf'.
  rewrite not_elem_of_app, list_elem_of_singleton in Hsig. destruct Hsig as [Hsig Hne].
  rewrite <- (IH Hcs Hsig). unfold run, coord_run in *. rewrite foldl_app. simpl.
  destruct (foldl step (Serves s0) evs) as [s|s|s r]; [|done..].
  destruct ev as [now now_ms r|now|now_ms| |r]; simpl in *; [done| | |done|done].
  - by apply scan_tick_spec.
  - apply renewal_rows.
Qed.

(** C35: Over the whole life of a coordinator, whatever it is sent and whatever
    fails: a worker is reported failed only by a tick of the running scan at which
    its own stored deadline was past by more than both the skew budget and the
    failure timeout.  No tick's scan panics, and the scan runs on until the signal.
    The stored heartbeats are well formed at the start and the clocks at which beats
    arrive fit a [SystemTime]. *)
Theorem reported_worker_was_late s0 evs
    (Hwf : beats_wf (rows (sv_world s0))) (Hclock : Forall clock_ok evs) :
  (forall id, id ∈ c_warned (sv_world (held_by (run (Serves s0) evs))) ->
     id ∈ c_warned (sv_world s0) \/
     exists before now after s worker, evs = before ++ ScanTick now :: after /\ run (Serves s0) before = Serves s /\
       scan_running s = true /\ id = ulid_string worker /\ late s now worker) /\
  (forall before now after s msg, evs = before ++ ScanTick now :: after -> run (Serves s0) before = Serves s ->
     (scan_once now (clock_skew_budget timing) (coordinator_failure_timeout timing) (already_failed s) (sv_world s)).1
       <> Err (Panicked msg)) /\
  (Sigterm ∉ evs -> scan_running (held_by (run (Serves s0) evs)) = scan_running s0).
Proof.
  split; [intros id Hid; by apply reported_late|]. split; [|by apply run_scan_running].
  intros before now after s msg -> Hs. apply Forall_app in Hclock as [Hb _].
  pose proof (run_wf s0 before Hwf Hb) as Hwf'. rewrite Hs in Hwf'.
  pose proof (scan_no_panic now (clock_skew_budget timing) (coordinator_failure_timeout timing) (already_failed s) (sv_world s) Hwf') as H.
  apply H.
Qed.

(** The signal stops the scan and nothing else: the process goes on serving until
    its server ends or it is fenced, and no worker is reported any more. *)
Definition ends (ev : CoordEvent) : Prop := match ev with ServeEnds _ => True | _ => False end.

Theorem sigterm_only_stops_the_scan s evs (Hrun : Forall (fun ev => ~ ends ev) evs) :
  let st := run (Serves s) (Sigterm :: evs) in
  (forall s' r, st <> CoordExited s' r) /\ c_warned (sv_world (held_by st)) = c_warned (sv_world s).
Proof.
  simpl. unfold run, coord_run; simpl. set (s1 := mkServing (sv_world s) (already_failed s) false (sv_fenced s)).
  assert (forall st, scan_running (held_by st) = false -> (forall s' r, st <> CoordExited s' r) ->
    (forall s' r, foldl step st evs <> CoordExited s' r) /\
    c_warned (sv_world (held_by (foldl step st evs))) = c_warned (sv_world (held_by st))) as H; [|by apply (H (Serves s1))].
  induction Hrun as [|ev evs Hev _ IH]; intros st Hoff Hst; [done|]. simpl.
  assert (scan_running (held_by (step st ev)) = false /\ (forall s' r, step st ev <> CoordExited s' r) /\
    c_warned (sv_world (held_by (step st ev))) = c_warned (sv_world (held_by st))) as (Hoff' & Hst' & <-); [|by apply IH].
  destruct st as [s'|s'|s' r]; [|done|by destruct (Hst s' r)].
  destruct ev as [now now_ms r|now|now_ms| |r]; simpl in *; [| | |done|by destruct Hev].
  - split_and!; [done..|]. pose proof (beat_post ulid_error run_id now now_ms r (sv_world s')) as Hb. unfold wp in Hb.
    destruct (ulid_parse (br_worker r)); [|by destruct Hb as [_ ->]].
    destruct (ulid_parse (br_run r)); [|by destruct Hb as [_ ->]].
    destruct (due_of now r); [by destruct Hb|by destruct Hb as [_ ->]].
  - unfold scan_tick. by rewrite Hoff.
  - destruct (renewal_rows now_ms s') as (_ & Hw & Hr). split_and!; [congruence| |done].
    unfold renewal. by destruct (on_store _ _) as [[[]|] ?].
Qed.

(** C36: A deposed coordinator stops at its next renewal: over a store that serves,
    when the lease row names another holder the tick writes nothing, emits exactly
    one fencing event with the epoch it started from and the one it found, whatever
    the emitter answers, and aborts; nothing that happens later changes anything. *)
Theorem deposed_coordinator_aborts s now_ms (held : LeaseRecord) evs
    (Hrow : rows (sv_world s) !! lease_key run_id = Some (encode held))
    (Hserves : healthy (c_store (sv_world s))) (Hother : holder held <> me) :
  exists s', run (Serves s) (RenewTick now_ms :: evs) = CoordAborted s' /\
    rows (sv_world s') = rows (sv_world s) /\ c_warned (sv_world s') = c_warned (sv_world s) /\
    exists ev, sv_fenced s' = sv_fenced s ++ [ev] /\ fe_run ev = run_id /\ fe_worker ev = me /\
      fe_stale ev = start_epoch /\ fe_observed ev = lease_epoch held.
Proof.
  pose proof (renew_tick_spec run_id me start_epoch now_ms (lease_ttl timing / 1000000)%N held (c_store (sv_world s)) Hrow) as Hr.
  unfold run, coord_run; simpl. unfold renewal, on_store, zoom. unfold wp in Hr.
  destruct (renew_tick _ _ _ _ _ _) as [r w]. cbn [fst snd] in Hr. destruct Hr as (Hf & Hw & _).
  specialize (Hf Hserves Hother). specialize (Hw Hother). subst r. cbn [fence_old_coordinator].
  match goal with |- exists s', foldl _ (CoordAborted ?x) _ = _ /\ _ => exists x end. split_and!; try done.
  - by induction evs.
  - by eexists.
Qed.
End serving.
End coordinator.

Section coordinator_examples.
#[local] Existing Instance bits_codec.
#[local] Existing Instance unary_ulids.
#[local] Existing Instance list_emitter.
#[local] Existing Instance list_emitter_laws.

Definition empty_world : Workers.World (W:=Mem.World) (E:=list Event * list bool) :=
  Workers.mkWorld (Mem.mkWorld ∅ [] []) ([], []) [].
Definition fresh_serving : Serving := mkServing empty_world ∅ true [].
Definition no_ulid (_ : string) : string := "invalid length".
Definition life := coord_run no_ulid 1 5 (MkEpoch 0) TransportConfig_default (fun _ => Ok tt).

(** Worker 2 beats at ten seconds, worker 3 at twelve; only the first is late at 17. *)
Definition beat_of (worker : N) (due : Z) : CoordEvent :=
  BeatArrives 0 0 (mkBeatRequest (ulid_string worker) (Some (mkTimestamp due 0)) 2 (ulid_string 1%N)).
Definition busy_life : list CoordEvent :=
  [beat_of 2 11; beat_of 3 13; BeatArrives 0 0 (mkBeatRequest "none" None 1 ""); ScanTick 17000000000; RenewTick 9].

Lemma empty_world_wf : beats_wf (contents (c_store (sv_world fresh_serving))).
Proof. intros k v Hk. discriminate Hk. Defined.

Lemma reported_worker_was_late_witness :
  c_warned (sv_world (held_by (life (Serves fresh_serving) busy_life))) = [ulid_string 2] /\
  exists before now after s worker, busy_life = before ++ ScanTick now :: after /\
    life (Serves fresh_serving) before = Serves s /\ ulid_string 2 = ulid_string worker /\
    late TransportConfig_default s now worker.
Proof.
  split; [vm_compute; reflexivity|].
  destruct (reported_worker_was_late no_ulid 1 5 (MkEpoch 0) TransportConfig_default (fun _ => Ok tt) fresh_serving busy_life) as [H _].
  - apply empty_world_wf.
  - repeat constructor; vm_compute; discriminate.
  - destruct (H (ulid_string 2%N)) as [Hin|(before & now & after & s & worker & H1 & H2 & _ & H3 & H4)].
    + vm_compute. left.
    + apply elem_of_nil in Hin as [].
    + exists before, now, after, s, worker. split; [exact H1|]. split; [exact H2|]. split; [exact H3|exact H4].
Defined.

(** After the signal the same scan reports nobody and the beats go on. *)
Lemma sigterm_only_stops_the_scan_witness :
  c_warned (sv_world (held_by (life (Serves fresh_serving) (Sigterm :: busy_life)))) = [] /\
  (forall s' r, life (Serves fresh_serving) (Sigterm :: busy_life) <> CoordExited s' r).
Proof.
  split; [vm_compute; reflexivity|].
  apply (sigterm_only_stops_the_scan no_ulid 1 5 (MkEpoch 0) TransportConfig_default (fun _ => Ok tt) fresh_serving busy_life).
  repeat constructor; intros [].
Defined.

Definition lost_lease : LeaseRecord := mkLease 6 (MkEpoch 1) 90.
Definition deposed : Serving :=
  mkServing (Workers.mkWorld (Mem.mkWorld {[ lease_key 1 := encode lost_lease ]} [] []) ([] : list Event, [true]) []) ∅ true [].

Lemma deposed_coordinator_aborts_witness :
  exists s', life (Serves deposed) [RenewTick 9; beat_of 2 11; ScanTick 17000000000] = CoordAborted s' /\
    length (sv_fenced s') = 1.
Proof.
  destruct (deposed_coordinator_aborts no_ulid 1 5 (MkEpoch 0) TransportConfig_default (fun _ => Ok tt) deposed 9 lost_lease
              [beat_of 2 11; ScanTick 17000000000]) as (s' & H & _ & _ & ev & He & _).
  - vm_compute. reflexivity.
  - vm_compute. constructor.
  - vm_compute. discriminate.
  - exists s'. split; [exact H|]. rewrite He. reflexivity.
Defined.
End coordinator_examples.
