(* ===== verification/Processes.v ===== *)
(** The worker process (rollout-cli/src/worker.rs): how a worker
    starts, the loop that beats until it is told to stop, and the theorem that puts
    worker, transport and coordinator together. *)
From stdpp Require Import base option list gmap strings pretty.
From S2P Require Import Prelude.
From S2P Require Import Text.
From S2P Require Import Core.
From S2P Require Import Json.
From S2P Require Import Storage.
From S2P Require Import Lease.
From S2P Require Import WorkItem.
From S2P Require Import Events.
From S2P Require Import ObjectStore.
From S2P Require Import Replay.
From S2P Require Import Workers.
From S2P Require Import Plugins.
From S2P Require Import Transport.
From S2P Require Import Wiring.
From S2P Require Import CoordRun.
#[local] Open Scope nat_scope.

(** ** Starting a worker *)
Record WorkerConfig : Type := mkWorkerConfig {
  wc_run_id : string; wc_addr : string; wc_domain : string; wc_storage : string; wc_tls_dir : fspath;
  wc_transport : TransportConfig;
}.

Section start_worker.
Context {JT : JsonText} {L P Y W T : Type} {CL : Cdylibs L} {PP : PluginPython P} {SO : SidecarOs Y} {ST : Storage W T}.
Context {MC : Codec PluginManifest} {UT : UlidText} {G : Type} {RG : Rcgen G} {TN : Tonic}.
Context (parent_of : string -> option string) (features : HostFeatures) (ulid_error : string -> string) (default_mode pid : N).
(** The TOML parsers. *)
Context (toml : string -> result string WorkerConfig) (manifest_toml : string -> result string PluginManifest).
(** Reading a file; the error of spawning the Python thread for a plugin; opening
    the storage. *)
Context (read_file : string -> result string string) (spawned : string -> option string) (mkdir : result string unit)
  (open : result CoreError W).

(** The plugin host behind the worker and the disk of the certificates. *)
Record WorkerBoot : Type := mkWorkerBoot { wb_host : HostWorld (L:=L) (P:=P) (Y:=Y) (W:=W); wb_tls : TlsWorld G }.
Definition on_host {A} (m : M HostWorld CoreError A) : M WorkerBoot CoreError A :=
  zoom wb_host (fun h w => mkWorkerBoot h (wb_tls w)) m.
Definition on_wtls {A} (m : M (TlsWorld G) CoreError A) : M WorkerBoot CoreError A :=
  zoom wb_tls (fun t w => mkWorkerBoot (wb_host w) t) m.

Definition parse_cfg_id (what s : string) : result CoreError Ulid :=
  match ulid_parse s with
  | Some u => Ok u
  | None => Err (invalid_config (what +:+ " is not a valid ULID: " +:+ ulid_error s))
  end.

(** The checks of the first step; [fresh] is what [Ulid::new()] returned. *)
Definition worker_config (config_path : string) (worker_id_arg : option string) (fresh : WorkerId)
  : result CoreError (WorkerConfig * RunId * WorkerId) :=
  let? raw := match read_file config_path with Ok s => Ok s | Err e => Err (internal e) end in
  let? cfg := match toml raw with Ok c => Ok c | Err e => Err (internal e) end in
  let? _ := match validate_cross_fields (wc_transport cfg) with
            | Ok _ => Ok tt
            | Err errs => Err (invalid_config ("worker config invalid: " +:+ strings_debug errs))
            end in
  let? run_id := parse_cfg_id "run_id" (wc_run_id cfg) in
  let? worker_id := match worker_id_arg with
                    | Some s => parse_cfg_id "--worker-id" s
                    | None => Ok fresh
                    end in
  Ok (cfg, run_id, worker_id).

(** One [--plugin] manifest. *)
Definition load_plugin (path : string) : M WorkerBoot CoreError unit :=
  let* manifest_raw := mlift (match read_file path with Ok s => Ok s | Err e => Err (internal e) end) in
  let* manifest := mlift (match parse_manifest_str manifest_toml manifest_raw with
                          | Ok m => Ok m
                          | Err e => Err (invalid_config ("plugin manifest " +:+ path +:+ ": " +:+ CoreError_to_string e))
                          end) in
  let* _ := on_host (load parent_of features (with_host_storage pid) (spawned path) manifest) in
  mret tt.

(** [worker::run] up to the loop.  The fourth argument, [_hot_reload], is not read. *)
Definition worker_boot (config_path : string) (worker_id_arg : option string) (plugin_paths : list string) (hot_reload : bool)
    (fresh : WorkerId) : M WorkerBoot CoreError (WorkerConfig * RunId * WorkerId * Channel) :=
  let* ids := mlift (worker_config config_path worker_id_arg fresh) in
  let '(cfg, run_id, worker_id) := ids in
  let* _ := mlift (match parent_of (wc_storage cfg) with
                   | Some parent => if decide (parent = "") then Ok tt
                                    else match mkdir with Ok _ => Ok tt | Err e => Err (internal e) end
                   | None => Ok tt
                   end) in
  let* w := mlift open in
  let* _ := (fun b => (Ok tt, mkWorkerBoot (mkHost ∅ (libs (wb_host b)) (python (wb_host b)) (system (wb_host b)) w) (wb_tls b))) in
  let* _ := mfold (fun _ path => load_plugin path) tt plugin_paths in
  let* ca := on_wtls (ensure_dev_ca (wc_tls_dir cfg) default_mode) in
  let* cli := on_wtls (issue_client_cert ca.1 ca.2 ["worker-" +:+ ulid_string worker_id; "localhost"]) in
  let* channel := mlift (build_mtls_channel (wc_addr cfg) (wc_domain cfg) ca.1 cli.1 cli.2) in
  mret (cfg, run_id, worker_id, channel).
End start_worker.

(** ** The heartbeat loop *)
Section worker_loop.
Context {UT : UlidText} (worker_id : WorkerId) (run_id : RunId) (hb_interval : Duration).

(** [SystemTime::now() + hb_interval * 2]; the product panics past 2^64 seconds,
    the sum past the clock's range. *)
Definition due_from (now : SystemTime) : outcome SystemTime :=
  if decide (2 ^ 64 <= hb_interval * 2 / 1000000000)%N then Panic "overflow when multiplying duration by scalar"
  else
    let due := next_due_at now hb_interval in
    if decide (2 ^ 63 <= due / NS)%Z then Panic "overflow when adding duration to instant" else Value due.

Definition worker_request (state : WorkerState) (now : SystemTime) : outcome BeatRequest :=
  match due_from now with
  | Value due => Value (mkBeatRequest (ulid_string worker_id) (Some (system_to_prost due)) (state_to_i32 state) (ulid_string run_id))
  | Panic msg => Panic msg
  end.

(** The loop's variables: the state it announces, the two flags other tasks set
    (stop pulling, shut down), and the requests it sent. *)
Record Beating : Type := mkBeating { announced : WorkerState; stop_pull : bool; shutdown : bool; sent : list BeatRequest }.
Inductive WorkerProc : Type := Beats (b : Beating) | WorkerDone (b : Beating) | WorkerPanicked (msg : string) (b : Beating).

(** What happens: a tick wins the [select!] and its beat is answered or not; the
    preemption timer sets its flag and then sends the shutdown; the signal sends it;
    the shutdown wins the [select!], which it can once it was sent. *)
Inductive WorkerEvent : Type :=
| WTick (now : SystemTime) (answered : bool)
| WPreempted
| WShutdownSent
| WShutdownSeen (now : SystemTime).

Definition send (state : WorkerState) (now : SystemTime) (b : Beating) (k : Beating -> WorkerProc) : WorkerProc :=
  match worker_request state now with
  | Value r => k (mkBeating state (stop_pull b) (shutdown b) (sent b ++ [r]))
  | Panic msg => WorkerPanicked msg b
  end.

Definition worker_step (p : WorkerProc) (ev : WorkerEvent) : WorkerProc :=
  match p with
  | Beats b =>
      match ev with
      | WTick now answered =>
          let state := if stop_pull b then Draining else announced b in
          send state now b (fun b' =>
            Beats (match answered, state with
                   | true, Init => mkBeating Ready (stop_pull b') (shutdown b') (sent b')
                   | _, _ => b'
                   end))
      | WPreempted => Beats (mkBeating (announced b) true (shutdown b) (sent b))
      | WShutdownSent => Beats (mkBeating (announced b) (stop_pull b) true (sent b))
      | WShutdownSeen now => if shutdown b then send Draining now b WorkerDone else Beats b
      end
  | stopped => stopped
  end.

Definition worker_start : WorkerProc := Beats (mkBeating Init false false []).
Definition worker_loop (evs : list WorkerEvent) : WorkerProc := foldl worker_step worker_start evs.
Definition sent_by (p : WorkerProc) : list BeatRequest :=
  match p with Beats b | WorkerDone b | WorkerPanicked _ b => sent b end.

(** What the worker is expected to have told after a history, from the history alone:
    whether it was preempted, a beat was answered, the shutdown was asked for, and
    whether the shutdown was then seen. *)
Definition preempted (evs : list WorkerEvent) : bool :=
  existsb (fun ev => match ev with WPreempted => true | _ => false end) evs.
Definition was_answered (evs : list WorkerEvent) : bool :=
  existsb (fun ev => match ev with WTick _ answered => answered | _ => false end) evs.
Definition shutdown_sent (evs : list WorkerEvent) : bool :=
  existsb (fun ev => match ev with WShutdownSent => true | _ => false end) evs.
Fixpoint ended (asked : bool) (evs : list WorkerEvent) : bool :=
  match evs with
  | [] => false
  | WShutdownSeen _ :: evs' => asked || ended asked evs'
  | WShutdownSent :: evs' => ended true evs'
  | _ :: evs' => ended asked evs'
  end.

(** The request with its identifiers and the deadline two intervals after the clock,
    in seconds and nanoseconds; the codes of the states are 1, 2 and 4. *)
Definition beat_at (now : SystemTime) (code : Z) : BeatRequest :=
  let due := (now + 2 * Z.of_N hb_interval)%Z in
  mkBeatRequest (ulid_string worker_id) (Some (mkTimestamp (due / 1000000000) (due mod 1000000000))) code (ulid_string run_id).
(** What one more event adds. *)
Definition told (before : list WorkerEvent) (ev : WorkerEvent) : list BeatRequest :=
  if ended false before then [] else
  match ev with
  | WTick now _ => [beat_at now (if preempted before then 4 else if was_answered before then 2 else 1)]
  | WShutdownSeen now => if shutdown_sent before then [beat_at now 4] else []
  | WPreempted | WShutdownSent => []
  end.
(** Clocks from 1970 on whose deadlines the clock can hold. *)
Definition clock_fits (ev : WorkerEvent) : Prop :=
  match ev with
  | WTick now _ | WShutdownSeen now => (0 <= now)%Z /\ ((now + 2 * Z.of_N hb_interval) / 1000000000 < 2 ^ 63)%Z
  | _ => True
  end.

Lemma worker_request_fits st now : (0 <= now)%Z -> ((now + 2 * Z.of_N hb_interval) / 1000000000 < 2 ^ 63)%Z ->
  worker_request st now = Value (beat_at now (state_to_i32 st)).
Proof.
  intros H0 Hfit. unfold worker_request, due_from, next_due_at, beat_at.
  replace (now + Z.of_N (hb_interval * 2))%Z with (now + 2 * Z.of_N hb_interval)%Z by lia.
  set (due := (now + 2 * Z.of_N hb_interval)%Z) in *.
  assert (~ (2 ^ 64 <= hb_interval * 2 / 1000000000)%N) as Hmul.
  { intros H. assert (Z.of_N (hb_interval * 2) / 1000000000 <= due / 1000000000)%Z as Hle
      by (apply Z.div_le_mono; unfold due; lia).
    rewrite <- (N2Z.inj_div _ 1000000000) in Hle. apply N2Z.inj_le in H.
    change (Z.of_N (2 ^ 64)) with (2 * 2 ^ 63)%Z in H. lia. }
  rewrite (decide_False _ _ Hmul). rewrite decide_False by (unfold NS; lia).
  unfold system_to_prost. rewrite Z.max_l by (unfold due; lia). unfold NS. by rewrite decide_True.
Qed.

Lemma ended_snoc asked evs ev :
  ended asked (evs ++ [ev]) =
  ended asked evs || match ev with WShutdownSeen _ => asked || shutdown_sent evs | _ => false end.
Proof.
  revert asked. induction evs as [|e evs IH]; intros asked; simpl.
  - destruct ev; by rewrite ?orb_false_r.
  - destruct e; rewrite ?IH; simpl; try done; [by destruct ev; rewrite ?orb_true_r|by rewrite orb_assoc].
Qed.
Lemma existsb_snoc {A} (f : A -> bool) l x : existsb f (l ++ [x]) = existsb f l || f x.
Proof. rewrite existsb_app. simpl. by rewrite orb_false_r. Qed.

(** The loop's variables are what the history says. *)
Definition loop_is (evs : list WorkerEvent) (p : WorkerProc) : Prop :=
  if ended false evs then exists b, p = WorkerDone b
  else exists b, p = Beats b /\ stop_pull b = preempted evs /\ shutdown b = shutdown_sent evs /\
    (preempted evs = false -> announced b = if was_answered evs then Ready else Init).

Lemma worker_step_tells evs p ev : loop_is evs p -> clock_fits ev ->
  loop_is (evs ++ [ev]) (worker_step p ev) /\ sent_by (worker_step p ev) = sent_by p ++ told evs ev.
Proof.
  unfold loop_is, told. rewrite ended_snoc. unfold preempted, shutdown_sent, was_answered. rewrite !existsb_snoc.
  fold (preempted evs) (shutdown_sent evs) (was_answered evs).
  destruct (ended false evs) eqn:He; intros Hp Hclock.
  { destruct Hp as [b ->]. simpl. rewrite app_nil_r. by split; [exists b|]. }
  destruct Hp as (b & -> & Hstop & Hsd & Hann). destruct ev as [now answered| | |now]; simpl.
  - destruct Hclock as [H0 Hf]. unfold send. rewrite (worker_request_fits _ _ H0 Hf), Hstop. rewrite !orb_false_r.
    destruct (preempted evs) eqn:Hpre; simpl.
    + assert (forall q : WorkerProc, q = Beats (mkBeating Draining true (shutdown b) (sent b ++ [beat_at now 4])) ->
        (exists b0, q = Beats b0 /\ stop_pull b0 = true /\ shutdown b0 = shutdown_sent evs /\
          (true = false -> announced b0 = if was_answered evs || answered then Ready else Init)) /\
        sent_by q = sent b ++ [beat_at now 4]) as H by (intros q ->; by split; [eexists|]).
      apply H. by destruct answered.
    + rewrite (Hann eq_refl). destruct (was_answered evs); simpl.
      * split; [|by destruct answered]. eexists. split; [by destruct answered|]. done.
      * split; [|by destruct answered]. destruct answered; by eexists.
  - rewrite app_nil_r, orb_true_r, !orb_false_r. split; [|done]. by eexists.
  - rewrite app_nil_r, orb_true_r, !orb_false_r. split; [|done]. eexists. split; [done|]. auto.
  - destruct Hclock as [H0 Hf]. rewrite Hsd. destruct (shutdown_sent evs) eqn:Hs; simpl.
    + unfold send. rewrite (worker_request_fits _ _ H0 Hf). by split; [eexists|].
    + rewrite app_nil_r, !orb_false_r. split; [|done]. exists b. by rewrite Hstop, Hsd.
Qed.

Lemma worker_loop_is evs : Forall clock_fits evs -> loop_is evs (worker_loop evs).
Proof.
  induction evs as [|ev evs IH] using rev_ind; [intros _; by eexists|].
  intros [Hcs [Hc _]%Forall_cons]%Forall_app. unfold worker_loop. rewrite foldl_app. simpl.
  apply (worker_step_tells evs _ ev); [by apply IH|done].
Qed.

(** The states announced: [Init], then [Ready], then [Draining]. *)
Definition announced_as (i r d : nat) : list Z :=
  replicate i 1%Z ++ replicate r 2%Z ++ replicate d 4%Z.
Lemma announced_drain i r d : announced_as i r d ++ [4%Z] = announced_as i r (S d).
Proof. unfold announced_as. by rewrite <- !app_assoc, <- replicate_S_end. Qed.
Lemma announced_ready i r : announced_as i r 0 ++ [2%Z] = announced_as i (S r) 0.
Proof. unfold announced_as. simpl. by rewrite !app_nil_r, <- app_assoc, <- replicate_S_end. Qed.
Lemma announced_init i : announced_as i 0 0 ++ [1%Z] = announced_as (S i) 0 0.
Proof. unfold announced_as. simpl. by rewrite !app_nil_r, <- replicate_S_end. Qed.

Definition in_order (evs : list WorkerEvent) (codes : list Z) : Prop :=
  exists i r d, codes = announced_as i r d /\ (was_answered evs = false -> r = 0) /\
    (preempted evs = false -> ended false evs = false -> d = 0) /\ (ended false evs = true -> 0 < d).

Lemma told_in_order evs ev codes : in_order evs codes ->
  in_order (evs ++ [ev]) (codes ++ (br_state <$> told evs ev)).
Proof.
  intros (i & r & d & -> & Hr & Hd & He). unfold in_order, told. rewrite ended_snoc.
  unfold was_answered, preempted. rewrite !existsb_snoc. fold (preempted evs) (was_answered evs).
  destruct (ended false evs) eqn:Hend; simpl.
  { rewrite app_nil_r. exists i, r, d. split; [done|]. rewrite orb_false_iff. naive_solver. }
  destruct ev as [now answered| | |now]; simpl; rewrite ?orb_false_r.
  - destruct (preempted evs); simpl.
    + rewrite announced_drain. exists i, r, (S d). split; [done|]. rewrite orb_false_iff. naive_solver lia.
    + specialize (Hd eq_refl eq_refl). subst d. destruct (was_answered evs); simpl.
      * rewrite announced_ready. by exists i, (S r), 0.
      * rewrite (Hr eq_refl), announced_init. by exists (S i), 0, 0.
  - rewrite app_nil_r. exists i, r, d. rewrite orb_true_r. done.
  - rewrite app_nil_r. by exists i, r, d.
  - destruct (shutdown_sent evs); simpl.
    + rewrite announced_drain. exists i, r, (S d). split; [done|]. split; [done|]. split; [done|lia].
    + rewrite app_nil_r. by exists i, r, d.
Qed.

(** C37: A worker's beats tell its life in order: over clocks from 1970 on whose
    deadlines the wire's seconds can hold, and whatever the answers, the preemption
    notice and the signal do, each tick sends one request, with the worker's
    and the run's identifiers and a deadline two intervals after the clock, that
    announces [Init] (1) until a beat has been answered, then [Ready] (2), and
    [Draining] (4) once it was preempted; the shutdown, when it was asked for, sends a
    last [Draining] and ends the loop; nothing else sends anything and the worker never
    panics.  So the states go from [Init] to [Ready] to [Draining], never back, and a
    worker that has ended announced [Draining] last. *)
Theorem worker_announces_its_life evs (Hclock : Forall clock_fits evs) :
  (forall before ev after, evs = before ++ ev :: after ->
     sent_by (worker_loop (before ++ [ev])) = sent_by (worker_loop before) ++ told before ev) /\
  (exists i r d, br_state <$> sent_by (worker_loop evs) = announced_as i r d) /\
  (if ended false evs
   then exists b, worker_loop evs = WorkerDone b /\ last (br_state <$> sent b) = Some 4%Z
   else exists b, worker_loop evs = Beats b).
Proof.
  assert (forall before ev after, evs = before ++ ev :: after ->
     sent_by (worker_loop (before ++ [ev])) = sent_by (worker_loop before) ++ told before ev) as Htold.
  { intros before ev after ->. apply Forall_app in Hclock as [Hb [Hc _]%Forall_cons].
    unfold worker_loop at 1. rewrite foldl_app. simpl. by apply worker_step_tells; [apply worker_loop_is|]. }
  split; [done|].
  assert (in_order evs (br_state <$> sent_by (worker_loop evs))) as (i & r & d & Hst & _ & _ & Hd).
  { clear Htold. induction evs as [|ev evs IH] using rev_ind; [by exists 0, 0, 0|].
    apply Forall_app in Hclock as [Hcs [Hc _]%Forall_cons].
    destruct (worker_step_tells evs (worker_loop evs) ev (worker_loop_is evs Hcs) Hc) as [_ Hs].
    unfold worker_loop at 1. rewrite foldl_app. simpl. fold (worker_loop evs). rewrite Hs, fmap_app.
    by apply told_in_order, IH. }
  split; [by exists i, r, d|]. pose proof (worker_loop_is evs Hclock) as His. unfold loop_is in His.
  destruct (ended false evs).
  - destruct His as [b Hb]. exists b. split; [done|]. rewrite Hb in Hst. simpl in Hst. rewrite Hst.
    destruct d as [|d]; [specialize (Hd eq_refl); lia|]. rewrite <- announced_drain. apply last_snoc.
  - destruct His as (b & Hb & _). by exists b.
Qed.
End worker_loop.

(** ** Worker, transport and coordinator together *)
Section cluster.
Context {W T : Type} {ST : Storage W T} {SL : StorageLaws W T} {UT : UlidText}.
Context {LC : Codec LeaseRecord} {EC : Codec CoordEpoch} {RC : Codec WorkerRegistryEntry} {HC : Codec HeartbeatRecord}.
Context {E : Type} {EM : Emitter E} {EL : EmitterLaws E} (ulid_error : string -> string).
Context (run_id : RunId) (me : WorkerId) (start_epoch : CoordEpoch) (timing : TransportConfig).
Context (fence_emit : FenceEvent -> result CoreError unit).
(** The worker: its identifiers and its own interval. *)
Context (worker : WorkerId) (joined : RunId) (hb_interval : Duration).
Abbreviation step := (coord_step ulid_error run_id me start_epoch timing fence_emit).
Abbreviation run := (coord_run ulid_error run_id me start_epoch timing fence_emit).
Abbreviation rows w := (contents (c_store w)).

(** The event is a request that carries the worker's identifier. *)
Definition from_worker (ev : CoordEvent) : Prop :=
  match ev with BeatArrives _ _ r => ulid_parse (br_worker r) = Some worker | _ => False end.

Lemma step_keeps_row st ev : beats_wf (rows (sv_world (held_by st))) -> ~ from_worker ev ->
  rows (sv_world (held_by (step st ev))) !! heartbeat_key worker = rows (sv_world (held_by st)) !! heartbeat_key worker.
Proof.
  intros Hwf Hev. destruct st as [s|s|s r]; [|done..]. destruct ev as [now now_ms r|now|now_ms| |r]; simpl in *; [| | |done..].
  - pose proof (beat_post ulid_error run_id now now_ms r (sv_world s)) as Hb. unfold wp in Hb.
    destruct (ulid_parse (br_worker r)) as [other|]; [|by destruct Hb as [_ ->]].
    destruct (ulid_parse (br_run r)); [|by destruct Hb as [_ ->]].
    destruct (due_of now r); [|by destruct Hb as [_ ->]]. destruct Hb as (_ & Hm & _).
    destruct (Hm (heartbeat_key worker)) as [->|[H|[H _]]]; [done|by apply key_ne in H|].
    destruct Hev. f_equal. unfold heartbeat_key in H. injection H as H. by apply ulid_string_inj.
  - by destruct (scan_tick_spec ulid_error timing now s Hwf) as (-> & _).
  - by destruct (renewal_rows run_id me start_epoch timing fence_emit now_ms s) as (H & _); rewrite H.
Qed.

Lemma run_keeps_row evs st : beats_wf (rows (sv_world (held_by st))) -> Forall clock_ok evs ->
  Forall (fun ev => ~ from_worker ev) evs ->
  rows (sv_world (held_by (run st evs))) !! heartbeat_key worker = rows (sv_world (held_by st)) !! heartbeat_key worker.
Proof.
  revert st. induction evs as [|ev evs IH]; intros st Hwf; [done|].
  intros [Hc Hcs]%Forall_cons [Hev Hevs]%Forall_cons. unfold coord_run. simpl.
  rewrite <- (step_keeps_row st ev) by done. apply IH; [by apply coord_step_spec|done..].
Qed.

(** The deadline a worker asked for is the one the coordinator keeps, less at most
    a millisecond. *)
Lemma answered_beat_stored now now_ms st sent_at req a w w' : (0 <= sent_at)%Z ->
  worker_request worker joined hb_interval st sent_at = Value req ->
  beat ulid_error run_id now now_ms req w = (Ok a, w') ->
  exists rec, rows w' !! heartbeat_key worker = Some (encode rec) /\ hr_state rec = state_to_i32 st /\
    (next_due_at sent_at hb_interval - 1000000 < deadline rec <= next_due_at sent_at hb_interval)%Z.
Proof.
  intros Hat Hreq Hbeat. unfold worker_request, due_from in Hreq. set (due := next_due_at sent_at hb_interval) in *.
  case_decide as Hmul; [done|]. case_decide as Hadd; [done|]. injection Hreq as <-.
  assert (0 <= due)%Z as H0 by (unfold due, next_due_at; lia).
  assert (in_systime due) as Hin.
  { pose proof (Z.div_pos due NS H0 ltac:(done)). split; lia. }
  pose proof (beat_post ulid_error run_id now now_ms
    (mkBeatRequest (ulid_string worker) (Some (system_to_prost due)) (state_to_i32 st) (ulid_string joined)) w) as Hb.
  unfold wp in Hb. rewrite Hbeat in Hb. cbn [br_worker br_run br_state due_of br_due fst snd] in Hb.
  rewrite !ulid_parse_string in Hb. unfold due_of in Hb. cbn [br_due] in Hb.
  rewrite systime_round_trip, state_round_trip, Z.max_l in Hb by done. destruct Hb as (_ & _ & Hok & _).
  destruct (Hok a eq_refl) as [_ Hrow]. eexists. split; [exact Hrow|]. split; [done|].
  unfold deadline, heartbeat_record, systime_to_ms; simpl.
  rewrite Z2N.id by (apply Z.div_pos; lia). pose proof (Z.div_mod due 1000000 ltac:(done)).
  pose proof (Z.mod_pos_bound due 1000000 ltac:(done)). lia.
Qed.

(** The worker was heard from in time for a scan at [now]: its latest request was
    answered, and it was sent no longer than two intervals and the larger budget ago,
    less the millisecond the row's rounding may take. *)
Definition heard (s0 : Serving) (before : list CoordEvent) (now : SystemTime) : Prop :=
  exists b1 clock clock_ms req b2 s st sent_at a, before = b1 ++ BeatArrives clock clock_ms req :: b2 /\
    run (Serves s0) b1 = Serves s /\ worker_request worker joined hb_interval st sent_at = Value req /\ (0 <= sent_at)%Z /\
    (beat ulid_error run_id clock clock_ms req (sv_world s)).1 = Ok a /\ Forall (fun ev => ~ from_worker ev) b2 /\
    (now <= next_due_at sent_at hb_interval
       + Z.of_N (clock_skew_budget timing `max` coordinator_failure_timeout timing) - 1000000)%Z.

Lemma heard_not_late s0 before now s : beats_wf (rows (sv_world s0)) -> Forall clock_ok before ->
  heard s0 before now -> run (Serves s0) before = Serves s -> ~ late timing s now worker.
Proof.
  intros Hwf Hclock (b1 & clock & clock_ms & req & b2 & s1 & st & sent_at & a & -> & Hrun1 & Hreq & Hat & Hans & Hb2 & Hnow) Hrun.
  intros (rec & Hrow & Hlate). apply Forall_app in Hclock as [Hc1 [Hc Hc2]%Forall_cons].
  pose proof (run_wf ulid_error run_id me start_epoch timing fence_emit s0 b1 Hwf Hc1) as Hwf1. rewrite Hrun1 in Hwf1.
  pose proof (coord_step_spec ulid_error run_id me start_epoch timing fence_emit (Serves s1) (BeatArrives clock clock_ms req) Hwf1 Hc) as [Hwf2 _].
  pose proof (run_keeps_row b2 _ Hwf2 Hc2 Hb2) as Hkeep.
  unfold coord_run in *. rewrite foldl_app in Hrun. cbn [foldl] in Hrun. rewrite Hrun1 in Hrun. rewrite Hrun in Hkeep. simpl in Hkeep.
  destruct (beat ulid_error run_id clock clock_ms req (sv_world s1)) as [r w] eqn:Hb. simpl in *. subst r.
  destruct (answered_beat_stored _ _ _ _ _ _ _ _ Hat Hreq Hb) as (rec' & Hrow' & _ & Hdue).
  rewrite Hrow, Hrow' in Hkeep. injection Hkeep as Henc.
  assert (rec = rec') as -> by (apply (f_equal decode) in Henc; rewrite !decode_encode in Henc; congruence).
  lia.
Qed.

(** C34: A worker that is heard is never reported failed: over the whole life of the
    coordinator, if at every tick of the failure scan the worker's latest request
    had been answered and was sent at most two intervals and the larger of the two
    budgets before (less a millisecond), its identifier is never among the reported
    ones, whatever the other workers, the renewals and the faults do. *)
Theorem live_worker_never_reported s0 evs
    (Hwf : beats_wf (rows (sv_world s0))) (Hclock : Forall clock_ok evs)
    (Hfirst : ulid_string worker ∉ c_warned (sv_world s0))
    (Hheard : forall before now after, evs = before ++ ScanTick now :: after -> heard s0 before now) :
  ulid_string worker ∉ c_warned (sv_world (held_by (run (Serves s0) evs))).
Proof.
  intros Hid. destruct (reported_late _ _ _ _ _ _ s0 evs _ Hwf Hclock Hid)
    as [?|(before & now & after & s & other & Hevs & Hrun & _ & Hname%ulid_string_inj & Hlate)]; [done|].
  subst other. refine (heard_not_late s0 before now s Hwf _ _ Hrun Hlate); [|by eapply Hheard].
  rewrite Hevs in Hclock. by apply Forall_app in Hclock as [? _].
Qed.
End cluster.

Section cluster_examples.
#[local] Existing Instance bits_codec.
#[local] Existing Instance unary_ulids.
#[local] Existing Instance list_emitter.
#[local] Existing Instance list_emitter_laws.

(** Worker 2 beats every half second of its clock; one request is lost. *)
Definition beat_sent (at_ : Z) : BeatRequest :=
  match worker_request 2 1 (ms 500) Ready at_ with Value r => r | Panic _ => mkBeatRequest "" None 0 "" end.
Definition heard_life : list CoordEvent :=
  [BeatArrives 0 0 (beat_sent 10000000000); RenewTick 9; beat_of 3 13; ScanTick 15999000000].

(** A worker that loses its first answer, runs, and is preempted. *)
Definition preempted_life : list WorkerEvent :=
  [WTick 1 false; WTick 2 true; WTick 3 true; WPreempted; WShutdownSeen 4; WTick 5 false; WShutdownSent; WShutdownSeen 6; WTick 7 true].
Lemma worker_announces_its_life_witness :
  br_state <$> sent_by (worker_loop 2 1 (ms 500) preempted_life) = [1; 1; 2; 4; 4]%Z /\
  sent_by (worker_loop 2 1 (ms 500) [WTick 1 false]) =
    [mkBeatRequest (ulid_string 2) (Some (mkTimestamp 1 1)) 1 (ulid_string 1)] /\
  exists b, worker_loop 2 1 (ms 500) preempted_life = WorkerDone b /\ last (br_state <$> sent b) = Some 4%Z.
Proof.
  assert (Forall (clock_fits (ms 500)) preempted_life) as Hclock
    by (repeat constructor; vm_compute; first [reflexivity | discriminate]).
  destruct (worker_announces_its_life 2 1 (ms 500) preempted_life Hclock) as (Htold & _ & Hend).
  split; [vm_compute; reflexivity|]. split; [|exact Hend].
  exact (Htold [] (WTick 1 false) _ eq_refl).
Defined.

Lemma live_worker_never_reported_witness :
  ulid_string 2 ∉ c_warned (sv_world (held_by (life (Serves fresh_serving) heard_life))) /\
  c_warned (sv_world (held_by (life (Serves fresh_serving) (heard_life ++ [ScanTick 16001000000])))) = [ulid_string 2].
Proof.
  split; [|vm_compute; reflexivity].
  apply (live_worker_never_reported no_ulid 1 5 (MkEpoch 0) TransportConfig_default (fun _ => Ok tt) 2 1 (ms 500) fresh_serving heard_life).
  - apply empty_world_wf.
  - repeat constructor; vm_compute; discriminate.
  - apply not_elem_of_nil.
  - intros before now after Hevs. destruct before as [|e1 [|e2 [|e3 [|e4 before]]]]; simpl in Hevs; try discriminate Hevs.
    + injection Hevs as <- <- <- <- _.
      exists [], 0%Z, 0%N, (beat_sent 10000000000), [RenewTick 9; beat_of 3 13], fresh_serving, Ready, 10000000000%Z, (mkBeatResponse None None).
      split; [reflexivity|]. split; [reflexivity|]. split; [vm_compute; reflexivity|]. split; [vm_compute; discriminate|].
      split; [vm_compute; reflexivity|]. split; [|vm_compute; discriminate].
      constructor; [intros []|]. constructor; [vm_compute; discriminate|]. constructor.
    + injection Hevs as _ _ _ _ H. by destruct before.
Defined.
End cluster_examples.
