(* ===== verification/Joining.v ===== *)
(** A worker joins its coordinator: the two boot sequences (CoordRun.v, Processes.v) put
    together over the certificates (Transport.v) and the wiring (Wiring.v). *)
From stdpp Require Import base option list gmap strings pretty.
From S2P Require Import Prelude.
From S2P Require Import Text.
From S2P Require Import Core.
From S2P Require Import Json.
From S2P Require Import Storage.
From S2P Require Import Lease.
From S2P Require Import WorkItem.
From S2P Require Import Events.
From S2P Require Import ObjectStore.
From S2P Require Import Replay.
From S2P Require Import Workers.
From S2P Require Import Plugins.
From S2P Require Import Transport.
From S2P Require Import Wiring.
From S2P Require Import CoordRun.
From S2P Require Import Processes.
#[local] Open Scope nat_scope.



Section coordinator_side.
Context {W T : Type} {ST : Storage W T} {UT : UlidText}.
Context {LC : Codec LeaseRecord} {EC : Codec CoordEpoch} {WC : Codec WorkItemRecord} {G : Type} {RG : Rcgen G}.
Context {TN : Tonic} {CE : CertLaws G}.
Context (ulid_error : string -> string) (parent_of : string -> option string) (default_mode : N).

End coordinator_side.

Section worker_side.
Context {L P Y W T : Type} {CL : Cdylibs L} {PP : PluginPython P} {SO : SidecarOs Y} {ST : Storage W T}.
Context {MC : Codec PluginManifest} {UT : UlidText} {G : Type} {RG : Rcgen G} {TN : Tonic} {CE : CertLaws G}.
Context (parent_of : string -> option string) (features : HostFeatures) (ulid_error : string -> string) (default_mode pid : N).
Context (toml : string -> result string WorkerConfig) (manifest_toml : string -> result string PluginManifest).
Context (read_file : string -> result string string) (spawned : string -> option string) (mkdir : result string unit)
  (open : result CoreError W).
Abbreviation boot := (worker_boot (ST := ST) (CL := CL) (PP := PP) (SO := SO) (RG := RG)
  parent_of features ulid_error default_mode pid toml manifest_toml read_file spawned mkdir open).

(** Plugins do not touch the certificates. *)
Definition same_tls (b b' : WorkerBoot (L := L) (P := P) (Y := Y) (W := W) (G := G)) : Prop := wb_tls b' = wb_tls b.
#[local] Instance same_tls_preorder : PreOrder same_tls.
Proof. split; [done|]. unfold same_tls. intros b1 b2 b3. congruence. Qed.



End worker_side.

(** ** Who gets through *)
Section joining.
Context {L P Y W1 T1 W2 T2 : Type} {CL : Cdylibs L} {PP : PluginPython P} {SO : SidecarOs Y}.
Context {ST1 : Storage W1 T1} {ST2 : Storage W2 T2} {MC : Codec PluginManifest} {UT : UlidText}.
Context {LC : Codec LeaseRecord} {EC : Codec CoordEpoch} {WC : Codec WorkItemRecord}.
Context {G : Type} {RG : Rcgen G} {TN : Tonic} {CE : CertLaws G}.
Context (ulid_error : string -> string) (parent_of : string -> option string) (default_mode : N).
Context (features : HostFeatures) (pid : N) (toml : string -> result string WorkerConfig)
  (manifest_toml : string -> result string PluginManifest) (read_file : string -> result string string)
  (spawned : string -> option string).

End joining.

(** ** At concrete processes *)
Section joining_examples.
#[local] Existing Instance bits_codec.
#[local] Existing Instance unary_ulids.
#[local] Existing Instance echo_library.
#[local] Existing Instance text_python.
#[local] Existing Instance machine_os.
#[local] Existing Instance PluginManifest_countable.

(** Certificates as their contents: names, subject, purposes ([true] for a client's), the
    key, and the signer's key and subject. *)
Abbreviation Card := (list string * list string * list bool * nat * nat * list string)%type.
Definition client_use (u : ExtendedKeyUsage) : bool := match u with ClientAuth => true | ServerAuth => false end.
Definition card (p : CertificateParams) (key signer : nat) (issuer : list string) : Card :=
  (alt_names p, common_names p, client_use <$> extended_key_usages p, key, signer, issuer).
Definition card_subject (c : Card) : list string := c.1.1.1.1.2.
Definition card_key (c : Card) : nat := c.1.1.2.
#[local] Instance card_rcgen : Rcgen nat := {|
  KeyPair := nat;
  Cert := Card;
  params_new names := Ok (mkCertParams names false [] [] []);
  generate_key := fun n => (Ok n, S n);
  key_from_pem s := bits_decode (bytes_of s);
  params_from_pem s := let? c := bits_decode (bytes_of s) in Ok (mkCertParams (c : Card).1.1.1.1.1 true [KeyCertSign] [] (card_subject c));
  self_signed p k := mret (card p k k (common_names p));
  signed_by p k issuer signer := mret (card p k signer (card_subject issuer));
  cert_pem c := String.string_of_list_byte (bits_encode c);
  key_pem k := String.string_of_list_byte (bits_encode k);
|}.

(** The examples compare names without regard to case, and no more. *)
Definition same_host (a n : string) : Prop := to_ascii_lowercase a = to_ascii_lowercase n.
Definition card_verifies (root leaf : bytes) (use : ExtendedKeyUsage) (name : option string) : Prop :=
  exists r c : Card, root = bits_encode r /\ leaf = bits_encode c /\ c.1.2 = card_key r /\ c.2 = card_subject r /\
    client_use use ∈ c.1.1.1.2 /\ match name with Some n => Exists (fun a => same_host a n) c.1.1.1.1.1 | None => True end.
#[local] Instance card_tonic : Tonic := {|
  tls_config _ := Ok tt;
  serve_ends _ := Ok tt;
  from_shared _ := Ok tt;
  client_tls_config _ := Ok tt;
  names_match := same_host;
  verifies := card_verifies;
  connects s ch := match server_tls s, channel_tls ch with
                   | Some st, Some ct =>
                       card_verifies (ca_certificate ct) (id_cert (server_identity st)) ServerAuth (Some (domain_name ct)) /\
                       card_verifies (client_ca_root st) (id_cert (client_identity ct)) ClientAuth None
                   | None, None => True
                   | _, _ => False
                   end;
|}.

Lemma bits_text `{Countable A} (a : A) : from_utf8 (bytes_of (String.string_of_list_byte (bits_encode a))) = Ok (String.string_of_list_byte (bits_encode a)).
Proof.
  unfold from_utf8. rewrite String.list_byte_of_string_of_list_byte. rewrite utf8_check_ascii; [done|].
  unfold bits_encode. generalize (countable.encode a). intros p. induction p as [p IH|p IH|]; simpl; [constructor; [vm_compute; reflexivity|exact IH]..|constructor].
Qed.
Lemma bits_inj `{Countable A} (a b : A) : bits_encode a = bits_encode b -> a = b.
Proof. apply (@encode_inj A bits_codec). Qed.

#[local] Instance card_laws : CertLaws nat.
Proof.
  split; simpl.
  - intros c. apply bits_text.
  - intros k. apply bits_text.
  - intros k. rewrite String.list_byte_of_string_of_list_byte. apply (@decode_encode nat bits_codec).
  - intros c k s p (q & g & g' & [= <- <-] & _ & _ & <-). rewrite String.list_byte_of_string_of_list_byte.
    pose proof (@decode_encode Card bits_codec (card q k k (common_names q))) as Hd. simpl in Hd. rewrite Hd. by intros [= <-].
  - by intros names p [= <-].
  - intros r k s c p k' s' use name (q & g & g' & [= <- _] & _ & _ & <-) (p' & issuer & kp & h & h' & i & i' & [= <- _] & <- & [= <- _]).
    rewrite !String.list_byte_of_string_of_list_byte. unfold card_verifies. split.
    + intros (r & c & <-%bits_inj & <-%bits_inj & Hk & Hs & Huse & Hn). simpl in *. split_and!; try done.
      apply list_elem_of_fmap in Huse as (u & Hu & Hin). by destruct use, u.
    + intros (-> & Hs & Huse & Hn). eexists _, _. split_and!; try reflexivity; [done|by apply list_elem_of_fmap_2|done].
  - intros a n n' H1 H2. unfold same_host in *. congruence.
  - done.
  - intros s ch st ct -> ->. done.
Qed.




End joining_examples.
