(* ===== verification/Mains.v ===== *)
(** How the two binaries end (rollout-cli/src/main.rs, rollout-coordinator/src/main.rs):
    the exit code and the line on standard error of every command, and the hidden
    commands of the coordinator binary. *)
From stdpp Require Import base option list gmap strings pretty.
From S2P Require Import Prelude.
From S2P Require Import Core.
From S2P Require Import Storage.
From S2P Require Import Lease.
From S2P Require Import WorkItem.
From S2P Require Import Ledger.
From S2P Require Import Events.
From S2P Require Import Replay.
From S2P Require Import MockRun.
#[local] Open Scope nat_scope.

(** How a process ends; a panic of the main task exits with 101. *)
Inductive Ended : Type := ExitCode (code : N) (stderr : list string) | Aborts.

Definition SUCCESS : Ended := ExitCode 0 [].

(** ** rollout: each command runs on a runtime that must first start *)
Definition with_runtime (rt : bool) (k : Ended) : Ended :=
  if rt then k else ExitCode 2 ["failed to start tokio runtime"].
Definition report (label : string) (r : result CoreError unit) : Ended :=
  match r with
  | Ok _ => SUCCESS
  | Err e => ExitCode 2 [label +:+ ": " +:+ CoreError_to_string e]
  end.

Definition eval_dispatch (rt : bool) (r : result CoreError unit) : Ended := with_runtime rt (report "eval exit" r).
Definition train_cmd_dispatch (rt : bool) (r : result CoreError unit) : Ended := with_runtime rt (report "train exit" r).
Definition snapshot_cmd_dispatch (rt : bool) (r : result CoreError unit) : Ended := with_runtime rt (report "snapshot exit" r).
Definition infer_dispatch (rt : bool) (r : result CoreError unit) : Ended := with_runtime rt (report "infer exit" r).
Definition worker_run (rt : bool) (r : result CoreError unit) : Ended := with_runtime rt (report "worker exit" r).
(** The doctor ends the process itself, with its own code. *)
Definition cloud_dispatch (rt : bool) (doctor_code : N) : Ended := with_runtime rt (ExitCode doctor_code []).
Definition coord_run_cmd {C} (rt : bool) (load : result CoreError C) (run : C -> result CoreError unit) : Ended :=
  with_runtime rt (match load with
                   | Err e => ExitCode 2 ["coordinator config: " +:+ CoreError_to_string e]
                   | Ok cfg => report "coordinator exit" (run cfg)
                   end).

(** [schema]: what is printed on standard output, and the end. *)
Inductive SchemaFormat : Type := JsonFormat | PrettyFormat.
Definition schema (compact pretty : result string string) (f : SchemaFormat) : list string * Ended :=
  match (match f with JsonFormat => compact | PrettyFormat => pretty end) with
  | Ok s => ([s], SUCCESS)
  | Err e => ([], ExitCode 2 ["schema serialize failed: " +:+ e])
  end.

(** What [rollout] was asked to do, with what the command's body gives. *)
Inductive Cmd : Type :=
| CmdSchema (f : SchemaFormat)
| CmdCoordinator (load : result CoreError unit) (run : result CoreError unit)
| CmdWorker (r : result CoreError unit)
| CmdInfer (r : result CoreError unit)
| CmdTrain (r : result CoreError unit)
| CmdSnapshot (r : result CoreError unit)
| CmdEval (r : result CoreError unit)
| CmdCloud (doctor_code : N).

Definition rollout_main (rt : bool) (compact pretty : result string string) (cmd : Cmd) : Ended :=
  match cmd with
  | CmdSchema f => (schema compact pretty f).2
  | CmdCoordinator load run => coord_run_cmd rt load (fun _ => run)
  | CmdWorker r => worker_run rt r
  | CmdInfer r => infer_dispatch rt r
  | CmdTrain r => train_cmd_dispatch rt r
  | CmdSnapshot r => snapshot_cmd_dispatch rt r
  | CmdEval r => eval_dispatch rt r
  | CmdCloud code => cloud_dispatch rt code
  end.

Definition cmd_ok (rt : bool) (compact pretty : result string string) (cmd : Cmd) : Prop :=
  match cmd with
  | CmdSchema JsonFormat => is_ok compact = true
  | CmdSchema PrettyFormat => is_ok pretty = true
  | CmdCoordinator load run => rt = true /\ is_ok load = true /\ is_ok run = true
  | CmdWorker r | CmdInfer r | CmdTrain r | CmdSnapshot r | CmdEval r => rt = true /\ is_ok r = true
  | CmdCloud code => rt = true /\ code = 0%N
  end.

(** A command of [rollout] succeeds exactly when its body does: the exit code is
    zero, with nothing on standard error, exactly when the runtime started and
    everything the command runs returned a value; every other end is code 2 with one
    line that says what failed, or the doctor's own code. *)
Theorem rollout_exit_codes rt compact pretty cmd :
  (cmd_ok rt compact pretty cmd <-> rollout_main rt compact pretty cmd = SUCCESS) /\
  (rollout_main rt compact pretty cmd = SUCCESS \/
   (exists line, rollout_main rt compact pretty cmd = ExitCode 2 [line]) \/
   exists code, cmd = CmdCloud code /\ rollout_main rt compact pretty cmd = ExitCode code []).
Proof.
  destruct cmd as [f|load run|r|r|r|r|r|code]; simpl;
    unfold worker_run, infer_dispatch, train_cmd_dispatch, snapshot_cmd_dispatch, eval_dispatch, coord_run_cmd, cloud_dispatch, schema, with_runtime.
  - destruct f, compact, pretty; simpl; unfold SUCCESS; naive_solver.
  - destruct rt; [|unfold SUCCESS; naive_solver]. destruct load as [[]|e]; [|unfold SUCCESS; simpl; naive_solver].
    destruct run as [[]|e]; unfold SUCCESS; simpl; naive_solver.
  - destruct rt, r as [[]|e]; unfold SUCCESS; simpl; naive_solver.
  - destruct rt, r as [[]|e]; unfold SUCCESS; simpl; naive_solver.
  - destruct rt, r as [[]|e]; unfold SUCCESS; simpl; naive_solver.
  - destruct rt, r as [[]|e]; unfold SUCCESS; simpl; naive_solver.
  - destruct rt, r as [[]|e]; unfold SUCCESS; simpl; naive_solver.
  - destruct rt; unfold SUCCESS; naive_solver.
Qed.

(** ** rollout-coordinator *)
Section coordinator_main.
Context {W T : Type} {ST : Storage W T} {UT : UlidText} {WC : Codec WorkItemRecord}.
Context {E : Type} {EM : Emitter E} (content_id_of : bytes -> ContentId).

(** The [Run] command: a log line instead of a line of its own. *)
Definition coordinator_run_main {C} (load : result CoreError C) (run : C -> result CoreError unit) : Ended :=
  match load with
  | Err _ => ExitCode 2 []
  | Ok cfg => match run cfg with Ok _ => SUCCESS | Err _ => ExitCode 2 [] end
  end.

(** The [TestFence] command: one event, then the abort. *)
Definition test_fence (emit : FenceEvent -> result CoreError unit) (me : WorkerId) (run_id : RunId) (stale observed : N)
  : Ended * list FenceEvent :=
  let '(decision, events) := fence_old_coordinator emit me run_id (MkEpoch stale) (MkEpoch observed) in
  match decision with FenceAbort => (Aborts, events) end.

(** The [MockRun] command; the directory's making is tried and not looked at.
    [open] is the storage the file gives, [emitter] the one on standard output. *)
Definition mock_run_main (run_id_arg : string) (open : result CoreError W) (emitter : E) (items workers : nat)
    (worker_ids : list WorkerId) (ulids : nat -> Ulid) (clock : nat -> N) (steal_now : N) : Ended * option (MockWorld W E) :=
  match ulid_parse run_id_arg with
  | None => (ExitCode 2 [], None)
  | Some run_id =>
      match open with
      | Err _ => (ExitCode 2 [], None)
      | Ok store =>
          match mock_run content_id_of run_id items workers worker_ids ulids clock steal_now (mkMock store emitter) with
          | (Ok done, w) => (if decide (done = items) then SUCCESS else ExitCode 1 [], Some w)
          | (Err (Failure _), w) => (ExitCode 2 [], Some w)
          | (Err (Unwound msg), w) => (ExitCode 101 [msg], Some w)
          end
      end
  end.
End coordinator_main.

Section mock_run_main_proofs.
Context {W T : Type} {ST : Storage W T} {SL : StorageLaws W T} {UT : UlidText} {WC : Codec WorkItemRecord}.
Context {E : Type} {EM : Emitter E} {EL : EmitterLaws E} (content_id_of : bytes -> ContentId).
Context (Hemit : forall ev e, fst (emit (E := E) ev e) = Ok tt).

(** The smoke command succeeds over a fresh, healthy store. *)
Lemma mock_run_main_succeeds run_id run_id_arg store emitter items workers worker_ids ulids clock steal_now thief
    (Hrun : ulid_parse run_id_arg = Some run_id)
    (Hw : 2 <= workers) (Hitems : workers <= items) (Hlen : length worker_ids = workers)
    (Hnd : NoDup worker_ids) (Hthief : last worker_ids = Some thief)
    (Hulids : forall i j, i < items -> j < items -> ulids i = ulids j -> i = j)
    (Hids : forall i j, i < items -> j < items -> content_id_of (payload i) = content_id_of (payload j) -> i = j)
    (Hh : healthy store)
    (Hfresh : forall k, in_work run_id k = true \/ in_queue run_id k = true -> contents store !! k = None) :
  (mock_run_main content_id_of run_id_arg (Ok store) emitter items workers worker_ids ulids clock steal_now).1 = SUCCESS.
Proof.
  unfold mock_run_main. rewrite Hrun.
  pose proof (mock_run_done content_id_of Hemit run_id items workers worker_ids ulids clock steal_now thief (mkMock store emitter)
    Hw Hitems Hlen Hnd Hthief Hulids Hids Hh Hfresh) as H. unfold wp in H.
  destruct (mock_run _ _ _ _ _ _ _ _ _) as [r w]. cbn [fst snd] in H. destruct H as [-> _]. cbn [fst]. by rewrite decide_True.
Qed.
End mock_run_main_proofs.
